(* ===== verification/_CoqProject ===== *)
-Q . S2P
Prelude.v
Json.v
JsonText.v
Prog.v
Interleave.v
Services.v
Percentile.v
Database.v
Schema.v
Broker.v
Auth.v
Registry.v
Dispatch.v
Functions.v
Storage.v
Build.v
Outbox.v
BuildConsumer.v
Container.v
Worker.v
Metrics.v
Executor.v
Shim.v
Samples.v
System.v
Modules.v
Api.v
LoadTest.v
Tenants.v
Privacy.v
Pipeline.v
Delivery.v
Recovery.v
