(* ===== verification/Prelude.v ===== *)
(** * Mini serverless cloud platform: verification library (root file)

    ** The program

    Two kinds of Node processes share PostgreSQL (through Prisma), Redis and an
    object store.  The API process authenticates accounts, registers functions,
    accepts source uploads, builds images and invokes functions; worker processes
    run the invocations in containers.  An upload stores the source and records
    a PENDING build; a relay publishes unpublished builds to the build stream (a
    transactional outbox); a consumer runs each build through an executor (local
    docker or CodeBuild) and records the version.  An invocation is checked
    against the worker registry, added to the invocation stream, and answered by
    a worker over Redis pub/sub on the channel of its correlation id; a dead
    worker's messages are claimed by the others.

    ** The model

    A TypeScript method is a [Prog.prog]: the tree of the calls it awaits, of its
    reads and writes of its process's state, and of the promises it waits for.
    [Services.ev] has one constructor per call the source makes, with the source's
    arguments; what a call answers is the environment's.  Theorems quantify over
    the environments: [history_env] answers anything and records the calls;
    contracts restrict it where a theorem needs one.  The relation [R] in the
    theorems is what the other tasks of the same process may do to its state
    while the method is suspended.

    Files and the source they follow, bottom up:
    - Prelude: this file; strings, arrays, numbers of JavaScript, tactics.
    - Json, JsonText: JSON values, the contract of the codec, a codec meeting it.
    - Prog: programs, executions, weakest preconditions, [run] and total correctness
      ([returns]), histories.
    - Interleave: any number of programs in any number of processes, interleaved at
      each call; the rely-guarantee rule [interleaved_safe].
    - Services: the rows of prisma/schema.prisma and the calls.
    - Percentile, Database, Schema: the SQL aggregate of the metrics query; the
      effect of every Prisma call on the tables and the contract [DbEnv]; the
      invariant [schema_ok] (unique constraints, foreign keys).
    - Broker: the effect of every stream and publish command on streams, consumer
      groups and their pending entries, and the contract [BrokerEnv].
    - Auth: src/auth (service, DTOs, guards).
    - Registry: src/worker-registry, with its abstract map and its refinement.
    - Dispatch: src/invocation; the waiter map, its promises and timers, and the
      event loop as the step relation [dstep].
    - Functions: src/functions.
    - Storage: src/storage, and promises around [spawn].
    - Build: src/build without its queue; [BuildExecutor] is a class with its
      law, instantiated by both executors; the service is proved against it.
    - Outbox: src/build/build-outbox-relay.service.ts, as a system of any number of
      relays interleaved at each call, and the relay's timer.
    - BuildConsumer: src/build/build-stream-consumer.service.ts.
    - Container: src/containerExecutor.ts.
    - Worker: src/worker/worker.service.ts and ecr-login.ts.
    - Metrics: src/metrics, the worker's metrics server, src/workers, src/health.
    - Executor: src/executor.ts, run.ts, run-container.ts.
    - Shim, Samples: runtime/shim.js, the process inside the container; the user
      functions of functions/.
    - System: dispatcher, stream, worker, container and shim put together.
    - Modules: every Nest module and constructor, the wiring of both processes,
      main.ts, worker-main.ts, prisma.service.ts and redis.module.ts.
    - Api: the routes: guards, validation, controllers, and theorems about one
      request; LoadTest: the k6 clients of loadtest/, whose requests are routed to
      those routes; Tenants: any number of requests at once; Privacy: what a reply may
      depend on; Pipeline: requests, relays, build consumers, workers and the hooks
      that start and stop them, at once.
    - Delivery: the same system with the contents of both queues; Recovery: one
      worker emptying its queue.

    ** What the theorems show

    - The API: [Tenants.concurrent_tenant_isolation] (whatever requests run at
      once, an account's rows change only by its own credentials; for one request,
      [Api.tenant_isolation]), [Privacy.reads_are_private] (a reply depends on the
      caller's rows only), [Api.guarded_routes_need_credentials], over every
      route; [Auth] gives what credentials prove, from which they follow:
      revocation is permanent, created keys authenticate, login and registration.
    - End to end: [System.invocation_end_to_end]: what an invocation is answered is
      what the handler did with the event, through every process in between; the
      parts of it are the theorems of the next group.
    - Invocation: [Functions.invoke_correct] (every branch of the invoke path),
      [Dispatch.dispatch_correct], [pending_dispatch_times_out],
      [first_settlement_wins] (request-reply under interleaving);
      [Worker.worker_message_correct], [worker_runs_dispatched_job],
      [reclaims_only_from_dead]; [Container.container_correct],
      [container_isolated], [container_returns]; [Shim.report_read_back]: the report
      written in the container and read by the host agree;
      [Delivery.no_job_lost] (with every task of the platform interleaved, from a
      fresh deployment on, a job is queued or pending until its outcome was
      published) and
      [Recovery.backlog_drains] (a running worker empties the queue).
    - Builds: [Build.createVersion_correct], [runBuild_correct] (all or nothing),
      [local_build_correct], [poll_correct], the image references;
      [Outbox.no_build_published_twice] (any number of relays), [relayOnce_correct],
      [relay_shutdown]; [BuildConsumer.handleMessage_correct], [loop_survives];
      [Pipeline.success_has_version]: under any interleaving of all these tasks a
      successful build has its version; [Delivery.no_published_build_lost]: and a
      build published since the consumer group exists is queued or pending until it
      has ended ([published_before_group_lost] runs one that came before).
    - The registry refines a map; metrics are the aggregates they claim.
    - The processes: [Modules.wiring_well_typed] (both start: every dependency is
      found), [processes_separate] (one pool and one client per process; the worker
      cannot reach the database).
    - The clients: [LoadTest.setup_correct] (bounded waiting), [iterate_correct] (the
      load test's check holds for a user's token on a deployed function).

    ** Contracts

    Code outside src/ enters as a parameter with its documented behaviour:
    [DbEnv] (PostgreSQL through Prisma: a call has the effect [Database.db_ref]
    describes or fails with another error and no effect, generated identifiers
    are unused, and no other call changes the tables), [DbClock] (its clock does not
    run backwards and a query reads it while it runs), [BrokerEnv] (Redis streams
    and pub/sub: a command has the effect [Broker.broker_ref] describes, for whatever
    set of idle messages; a failing one may have had it), [RedisHashEnv] (hash
    commands; [RegistryEnv] where a failing one may have had its effect), [LibEnv] (bcrypt and jsonwebtoken), [Sha256], [EmailValidator],
    [JsonCodec] (parsing inverts printing on values JavaScript holds as written;
    a bare word is no JSON), [BuildExecutor]'s law, [OsTmpdir] and [Cwd].  Each
    contract has an instance in the library, and every theorem with hypotheses a
    concrete execution that meets them.  In a theorem about one method [DbEnv] makes
    it the only one to act on the tables while it runs; interleaved database traffic
    is the subject of Outbox, Tenants, Pipeline and Delivery, whose systems let every
    process take steps in between.  Recovery is about one worker whose calls succeed
    while the rest of the platform adds jobs and publishes, and no other consumer
    acts in its group ([working]).  In System, [honest] and [published] are what
    Docker, the clock and Redis are trusted with; the report file may also hold what
    the image's own code wrote there ([forges]); in Modules, the resolution rules are Nest's and the
    exports of [JwtModule] a parameter.

    ** Bounds

    Recursion in the source is over data, or over the hundred polls of the
    CodeBuild executor and the forty of the load test (the source's own bounds, used
    as fuel).  The checker of the wiring searches eight levels deep, more than the
    longest chain of constructors and imports.  The endless loops
    of the consumers are their first n iterations, for every n.  A promise that
    may stay pending is [Wait]: a theorem that something returns is about [run],
    or about timers that are armed.

    ** Limits of the model

    - JSON numbers are integers; a fractional number, a value that JavaScript
      would reorder (array-index keys) or round (beyond 2^53) is outside
      [json_ok].  A string is a list of bytes: lengths and slices count bytes,
      which are JavaScript's code units on ASCII text.
    - Aggregates of the metrics query are exact rationals.
    - A failed database call has no effect: an answer lost after the commit is not
      modelled.
    - The beats of a worker's heartbeat timer come one after another in Delivery; in
      the other systems they overlap at will.
    - The in-process executor's handler results are JSON values; the shim's may
      have no JSON form.

    ** Not modelled

    Express and Nest's own request handling (routing and body parsing beyond what
    the requests of LoadTest need, the order in which lifecycle hooks run), prom-client's text format, k6's scheduling of
    virtual users, the repository's tests and their configuration, and the
    deployment files (Docker images, Kubernetes, Terraform). *)

From stdpp Require Export base tactics list strings gmap sorting.
From Stdlib Require Import ZArith Lia Ascii DecimalString DecimalZ DecimalPos.
From Stdlib Require Export ZifyBool.
From Hammer Require Export Tactics.

#[global] Set Default Goal Selector "!".
#[global] Open Scope Z_scope.

(** ** Automation *)

Create HintDb platform discriminated.

(** Case analysis on every [match] of the goal and the context, closing the
    absurd branches. *)
Ltac simplify :=
  repeat (simplify_eq/= || case_match || case_decide || destruct_and?).

(** Splits conjunctions, existentials and disjunctions of the context. *)
Ltac break :=
  repeat match goal with
  | H : _ ∧ _ |- _ => destruct H
  | H : ∃ _, _ |- _ => destruct H
  | H : _ ∨ _ |- _ => destruct H
  | p : _ * _ |- _ => destruct p
  end; simplify_eq/=.

(** ** Strings *)

(** The double quote character, for the messages that embed one. *)
Definition dq : string := String "034" EmptyString.

(** [s.startsWith(p)] *)
Definition startsWith (p s : string) : bool := String.prefix p s.

(** [s.slice(n)] for a non-negative [n]. *)
Fixpoint slice_from (n : nat) (s : string) : string :=
  match n, s with
  | O, _ => s
  | S n', String _ s' => slice_from n' s'
  | S _, EmptyString => EmptyString
  end.

(** [s.slice(0, n)] *)
Fixpoint slice_to (n : nat) (s : string) : string :=
  match n, s with
  | S n', String c s' => String c (slice_to n' s')
  | _, _ => EmptyString
  end.

(** [s.slice(-n)]: the last [n] characters. *)
Definition slice_last (n : nat) (s : string) : string :=
  slice_from (String.length s - n) s.

(** [s.includes(sub)] *)
Fixpoint str_includes (sub s : string) : bool :=
  startsWith sub s ||
  match s with EmptyString => false | String _ s' => str_includes sub s' end.

(** [s.split(c)] for a one-character separator. *)
Fixpoint split_on (c : ascii) (s : string) : list string :=
  match s with
  | EmptyString => [EmptyString]
  | String a s' =>
      if decide (a = c) then EmptyString :: split_on c s'
      else match split_on c s' with
           | [] => [String a EmptyString]
           | w :: ws => String a w :: ws
           end
  end.

(** [l.join(sep)] *)
Definition join (sep : string) (l : list string) : string := String.concat sep l.

(** Every character of [s] satisfies [P]. *)
Fixpoint str_forall (P : ascii → bool) (s : string) : bool :=
  match s with EmptyString => true | String c s' => P c && str_forall P s' end.

Definition is_digit (c : ascii) : bool := let n := N_of_ascii c in ((48 <=? n) && (n <=? 57))%N.
Definition is_letter (c : ascii) : bool :=
  let n := N_of_ascii c in ((65 <=? n) && (n <=? 90) || (97 <=? n) && (n <=? 122))%N.

(** ** Numbers as strings *)

(** [String(n)], [`${n}`] of an integer. *)
Definition string_of_Z (n : Z) : string := NilZero.string_of_int (Z.to_int n).

(** [Number(s)] on integer numerals and the empty string (0); [None] stands for
    NaN, and for the numerals that denote no integer. *)
Definition Number (s : string) : option Z :=
  match s with
  | EmptyString => Some 0
  | _ => option_map Z.of_int (NilZero.int_of_string s)
  end.

Arguments Number : simpl never.

(** [String(n)] of a number that may be NaN. *)
Definition string_of_num (n : option Z) : string :=
  match n with Some k => string_of_Z k | None => "NaN" end.

Lemma Number_string_of_Z n : Number (string_of_Z n) = Some n.
Proof.
  assert (NilZero.int_of_string (string_of_Z n) = Some (Z.to_int n)) as Hisi.
  { unfold string_of_Z. rewrite NilZero.isi; [done|..];
      (destruct n; simpl; try done; intros H; simplify_eq;
       by eapply DecimalPos.Unsigned.to_uint_nonnil). }
  unfold Number. destruct (string_of_Z n) eqn:E; [done|].
  rewrite Hisi. simpl. by rewrite DecimalZ.of_to.
Qed.

#[export] Instance string_of_Z_inj : Inj (=) (=) string_of_Z.
Proof.
  intros a b H. apply (f_equal Number) in H. rewrite !Number_string_of_Z in H.
  by simplify_eq.
Qed.

#[export] Hint Rewrite Number_string_of_Z : platform.

(** ** String lemmas *)

#[local] Arguments String.append !_ _ / : simpl nomatch.

Lemma str_app_nil_r s : s +:+ EmptyString = s.
Proof. induction s as [|c s IH]; simpl; [done|]. by rewrite IH. Qed.

Lemma str_app_assoc a b c : a +:+ (b +:+ c) = (a +:+ b) +:+ c.
Proof. induction a as [|x a IH]; simpl; [done|]. by rewrite IH. Qed.

Lemma startsWith_app p s : startsWith p (p +:+ s) = true.
Proof.
  unfold startsWith. induction p as [|c p IH]; simpl; [by destruct s|].
  destruct (ascii_dec c c); [exact IH|congruence].
Qed.

Lemma slice_from_app p s : slice_from (String.length p) (p +:+ s) = s.
Proof. induction p as [|c p IH]; simpl; [done|exact IH]. Qed.

Lemma startsWith_slice p s :
  startsWith p s = true → s = p +:+ slice_from (String.length p) s.
Proof.
  unfold startsWith. revert s. induction p as [|c p IH]; intros [|d s]; simpl; try done.
  destruct (ascii_dec c d) as [->|]; [|done]. intros H. by rewrite <- IH.
Qed.

Lemma str_app_inj_l p a b : p +:+ a = p +:+ b → a = b.
Proof. induction p as [|c p IH]; simpl; [done|]. intros H. simplify_eq. auto. Qed.

Lemma str_length_app a b : String.length (a +:+ b) = (String.length a + String.length b)%nat.
Proof. induction a as [|c a IH]; simpl; [done|]. by rewrite IH. Qed.

Lemma str_app_inj_r a b t : a +:+ t = b +:+ t → a = b.
Proof.
  revert b. induction a as [|c a IH]; intros [|d b] H; [done|..];
    try (apply (f_equal String.length) in H; simpl in H; rewrite str_length_app in H; lia).
  simpl in H. injection H as -> H. f_equal. by apply IH.
Qed.

Lemma str_forall_app P a b : str_forall P (a +:+ b) = str_forall P a && str_forall P b.
Proof. induction a as [|c a IH]; simpl; [done|]. by rewrite IH, andb_assoc. Qed.

(** A separator that does not occur before it splits a string in one way. *)
Lemma str_sep_inj (P : ascii → bool) c a a' b b' :
  P c = false → str_forall P a = true → str_forall P a' = true →
  a +:+ String c b = a' +:+ String c b' → a = a' ∧ b = b'.
Proof.
  intros Hc. revert a'.
  induction a as [|x a IH]; intros [|x' a']; simpl; intros Ha Ha' Heq; simplify_eq; auto.
  - rewrite Hc in Ha'. done.
  - rewrite Hc in Ha. done.
  - apply andb_prop in Ha as [_ Ha], Ha' as [_ Ha'].
    destruct (IH a') as [-> ->]; auto.
Qed.

(** The same from the other end: the last occurrence of a separator. *)
Lemma str_sep_inj_r (P : ascii → bool) c a a' b b' :
  P c = false → str_forall P b = true → str_forall P b' = true →
  a +:+ String c b = a' +:+ String c b' → a = a' ∧ b = b'.
Proof.
  intros Hc Hb Hb'. revert a'.
  assert (∀ x d d', str_forall P d = true → d ≠ x +:+ String c d') as Hno.
  { intros x d d' Hd ->. rewrite str_forall_app in Hd. simpl in Hd. rewrite Hc in Hd.
    by rewrite andb_false_r in Hd. }
  induction a as [|x a IH]; intros [|x' a']; simpl; intros Heq; simplify_eq; auto.
  - by destruct (Hno a' _ b' Hb).
  - by destruct (Hno a _ b Hb').
  - destruct (IH a') as [-> ->]; auto.
Qed.

(** ** Arrays *)

(** [l.includes(x)] *)
Definition arr_includes `{EqDecision A} (x : A) (l : list A) : bool := bool_decide (x ∈ l).

(** [l.indexOf(x)]: -1 when [x] is absent. *)
Fixpoint indexOf `{EqDecision A} (x : A) (l : list A) : Z :=
  match l with
  | [] => -1
  | y :: l' => if decide (x = y) then 0
               else match indexOf x l' with
                    | Zneg _ => -1
                    | i => i + 1
                    end
  end.

(** [l[i]] : [undefined] ([None]) outside the range. *)
Definition arr_get {A} (l : list A) (i : Z) : option A :=
  if i <? 0 then None else l !! Z.to_nat i.

(** [fields[fields.indexOf(key) + 1]], the lookup the stream consumers use on a
    flat field/value reply. *)
Definition field_get (fields : list string) (key : string) : option string :=
  arr_get fields (indexOf key fields + 1).

Lemma indexOf_ge `{EqDecision A} (x : A) l : -1 ≤ indexOf x l.
Proof. induction l as [|y l IH]; simpl; [lia|]. case_decide; [lia|]. case_match; lia. Qed.

Lemma indexOf_skip `{EqDecision A} (x : A) l l' :
  x ∉ l → x ∈ l' → indexOf x (l ++ l') = Z.of_nat (length l) + indexOf x l'.
Proof.
  intros Hl Hl'. assert (0 ≤ indexOf x l') as Hpos.
  { clear Hl. induction l' as [|y l' IH]; [set_solver|]. simpl.
    case_decide; [lia|]. assert (x ∈ l') as Hin by set_solver.
    specialize (IH Hin). case_match; lia. }
  induction l as [|y l IH]; simpl; [lia|].
  rewrite decide_False by set_solver. rewrite IH by set_solver.
  case_match; lia.
Qed.

(** Reading a field past pairs whose names and values differ from it. *)
Lemma field_get_skip key pre v post :
  key ∉ pre → field_get (pre ++ key :: v :: post) key = Some v.
Proof.
  intros Hpre. unfold field_get, arr_get.
  rewrite indexOf_skip by set_solver. simpl. rewrite decide_True by done.
  destruct (_ <? 0) eqn:E; [lia|].
  replace (Z.to_nat (Z.of_nat (length pre) + 0 + 1)) with (S (length pre)) by lia.
  rewrite lookup_app_r by lia. replace (S (length pre) - length pre)%nat with 1%nat by lia.
  done.
Qed.

(** ** List lemmas *)

Lemma elem_of_filterb {A} (P : A → bool) l x : x ∈ List.filter P l ↔ x ∈ l ∧ P x = true.
Proof. rewrite !list_elem_of_In. apply filter_In. Qed.

Lemma NoDup_map_inj_in {A B} (f : A → B) (l : list A) x y :
  NoDup (f <$> l) → x ∈ l → y ∈ l → f x = f y → x = y.
Proof.
  induction l as [|a l IH]; intros Hnd Hx Hy Hf; [set_solver|].
  simpl in Hnd. apply NoDup_cons in Hnd as [Ha Hnd].
  apply elem_of_cons in Hx as [->|Hx], Hy as [->|Hy]; auto.
  - destruct Ha. rewrite Hf. by apply list_elem_of_fmap_2.
  - destruct Ha. rewrite <- Hf. by apply list_elem_of_fmap_2.
Qed.

Lemma existsb_exists_elem {A} (f : A → bool) (l : list A) :
  existsb f l = true ↔ ∃ x, x ∈ l ∧ f x = true.
Proof.
  rewrite existsb_exists. setoid_rewrite list_elem_of_In. done.
Qed.

Lemma find_Some_elem {A} (f : A → bool) (l : list A) x :
  List.find f l = Some x → x ∈ l ∧ f x = true.
Proof. intros H. apply find_some in H as [H ?]. by rewrite list_elem_of_In. Qed.

Lemma find_None_elem {A} (f : A → bool) (l : list A) :
  List.find f l = None ↔ ∀ x, x ∈ l → f x = false.
Proof.
  split.
  - intros H x Hx. eapply find_none; [done|]. by apply list_elem_of_In.
  - induction l as [|y l IH]; intros H; simpl; [done|].
    rewrite (H y) by set_solver. apply IH. set_solver.
Qed.

(** The first [n] elements of a sorted list: what is left out comes after
    everything that is kept, and is left out only when [n] are kept. *)
Lemma take_sorted_top {A} (R : relation A) (n : nat) (l : list A) :
  StronglySorted R l →
  (length (take n l) ≤ n)%nat ∧ StronglySorted R (take n l) ∧
  ∀ x, x ∈ l → x ∉ take n l → length (take n l) = n ∧ ∀ y, y ∈ take n l → R y x.
Proof.
  revert n. induction l as [|a l IH]; intros [|n] Hs; simpl.
  1,2,3: split_and!; [lia|constructor|]; intros x Hx ?; try set_solver.
  apply StronglySorted_inv in Hs as [Hs Ha]. destruct (IH n Hs) as (Hlen & Hsn & Hrest).
  split; [lia|]. split.
  { constructor; [done|]. apply Forall_take. done. }
  intros x [->|Hx]%elem_of_cons Hnx; [set_solver|].
  destruct (Hrest x Hx) as [Hl Hall]; [set_solver|]. split; [lia|].
  intros y [->|Hy]%elem_of_cons; [|auto]. rewrite Forall_forall in Ha. auto.
Qed.
