(* ===== verification/Json.v ===== *)
(** * JSON values and the codec the platform relies on

    [json] is the type of the values that cross the HTTP, Redis and file
    boundaries; [JsonCodec] is the documented contract of [JSON.stringify] and
    [JSON.parse] (the language's own codec, a parameter of the development). *)

From Stdlib Require Import Ascii.
From S2P Require Import Prelude.

Inductive json : Type :=
| JNull
| JBool (b : bool)
| JNum (n : Z)
| JStr (s : string)
| JArr (l : list json)
| JObj (fields : list (string * json)).

(** [o.key] on a parsed value; [None] stands for [undefined]. *)
Definition json_get (key : string) (o : json) : option json :=
  match o with
  | JObj fs => snd <$> List.find (λ kv, bool_decide (kv.1 = key)) fs
  | _ => None
  end.

(** [v === 'lit'] *)
Definition json_is_str (lit : string) (v : option json) : bool :=
  match v with Some (JStr s) => bool_decide (s = lit) | _ => false end.

(** The own enumerable properties of [v] ([{ ...v }]): a string or an array has
    one per index, another primitive none. *)
Definition json_fields (v : json) : list (string * json) :=
  match v with
  | JObj fs => fs
  | JArr l => imap (λ i x, (string_of_Z (Z.of_nat i), x)) l
  | JStr s => imap (λ i c, (string_of_Z (Z.of_nat i), JStr (String c EmptyString))) (String.list_ascii_of_string s)
  | JNull | JBool _ | JNum _ => []
  end.

(** An object literal: a field whose value is [undefined] is not serialized. *)
Definition object (fields : list (string * option json)) : json :=
  JObj (omap (λ kv, (λ v, (kv.1, v)) <$> kv.2) fields).

(** Setting a property keeps its place when it exists and appends it otherwise. *)
Fixpoint json_set (key : string) (v : json) (fs : list (string * json)) : list (string * json) :=
  match fs with
  | [] => [(key, v)]
  | (k, w) :: fs' => if decide (k = key) then (k, v) :: fs' else (k, w) :: json_set key v fs'
  end.

(** A key that is no array index (JavaScript moves those to the front). *)
Definition plain_key (k : string) : bool :=
  match k with String c _ => negb (is_digit c) | EmptyString => true end.

(** Values JavaScript holds and orders as they are written: safe integers,
    distinct keys that are no array indices. *)
Fixpoint json_ok (v : json) : bool :=
  match v with
  | JNull | JBool _ | JStr _ => true
  | JNum n => (Z.abs n <? 2 ^ 53)
  | JArr l => forallb json_ok l
  | JObj fs => bool_decide (NoDup (fst <$> fs)) && forallb (λ kv, plain_key kv.1 && json_ok kv.2) fs
  end.

(** A word of letters that is no JSON literal: no JSON text. *)
Definition bare_word (w : string) : bool :=
  str_forall is_letter w && negb (bool_decide (w ∈ ["true"; "false"; "null"])).

(** The contract of [JSON.stringify] and [JSON.parse]; a failing parse
    ([SyntaxError]) is [None]. *)
Class JsonCodec := {
  JSON_stringify : json → string;
  JSON_parse : string → option json;
  JSON_parse_stringify : ∀ v, json_ok v = true → JSON_parse (JSON_stringify v) = Some v;
  JSON_parse_word : ∀ w, bare_word w = true → JSON_parse w = None;
}.

(** [x ?? {}] for an [unknown] that may be [undefined] or [null]. *)
Definition or_empty_object (v : option json) : json :=
  match v with None | Some JNull => JObj [] | Some v => v end.

Lemma json_get_set key v fs :
  json_get key (JObj (json_set key v fs)) = Some v.
Proof.
  unfold json_get. induction fs as [|[k w] fs IH]; simpl.
  - by rewrite bool_decide_eq_true_2.
  - case_decide; simpl.
    + by rewrite bool_decide_eq_true_2.
    + by rewrite bool_decide_eq_false_2.
Qed.

Lemma json_get_set_ne key key' v fs :
  key ≠ key' → json_get key (JObj (json_set key' v fs)) = json_get key (JObj fs).
Proof.
  intros Hne. unfold json_get. induction fs as [|[k w] fs IH]; simpl.
  - by rewrite bool_decide_eq_false_2.
  - case_decide; simpl.
    + by rewrite !bool_decide_eq_false_2 by congruence.
    + by case_bool_decide.
Qed.

(** ** Values in template strings *)

(** [`${v}`] *)
Fixpoint js_text (v : json) : string :=
  match v with
  | JNull => "null"
  | JBool b => if b then "true" else "false"
  | JNum n => string_of_Z n
  | JStr s => s
  | JArr l => join "," (map (λ x, match x with JNull => EmptyString | x => js_text x end) l)
  | JObj _ => "[object Object]"
  end.
Definition js_text_of (v : option json) : string := match v with Some v => js_text v | None => "undefined" end.

(** Values a condition takes for false. *)
Definition falsy (v : option json) : bool :=
  match v with
  | None | Some JNull | Some (JBool false) => true
  | Some (JNum n) => (n =? 0)%Z
  | Some (JStr s) => bool_decide (s = EmptyString)
  | Some _ => false
  end.
