(* ===== verification/JsonText.v ===== *)
(** * A concrete JSON codec

    A printer and a recursive-descent parser for the JSON values of the
    development (integer numbers), with their round trip: the codec the concrete
    executions of the library run with, and the evidence that the contract of
    [JsonCodec] can be met. *)

From Stdlib Require Import Ascii DecimalString DecimalZ.
From S2P Require Import Prelude Json.

Definition quote : ascii := "034"%char.
Definition backslash : ascii := "092"%char.

(** ** Printing *)

Fixpoint escape (s : string) : string :=
  match s with
  | EmptyString => EmptyString
  | String c s' =>
      if decide (c = quote) then String backslash (String quote (escape s'))
      else if decide (c = backslash) then String backslash (String backslash (escape s'))
      else String c (escape s')
  end.

Definition print_string (s : string) : string := String quote (escape s +:+ String quote EmptyString).

Fixpoint print (v : json) : string :=
  match v with
  | JNull => "null"
  | JBool true => "true"
  | JBool false => "false"
  | JNum n => string_of_Z n
  | JStr s => print_string s
  | JArr l => "[" +:+
      match l with
      | [] => "]"
      | x :: l' => print x +:+ (fix tail l' := match l' with
                                | [] => "]"
                                | y :: l'' => "," +:+ (print y +:+ tail l'')
                                end) l'
      end
  | JObj fs => "{" +:+
      match fs with
      | [] => "}"
      | kv :: fs' => (print_string kv.1 +:+ (":" +:+ print kv.2)) +:+
                     (fix tail fs' := match fs' with
                       | [] => "}"
                       | kv' :: fs'' => "," +:+ ((print_string kv'.1 +:+ (":" +:+ print kv'.2)) +:+ tail fs'')
                       end) fs'
      end
  end.

(** ** Parsing *)

Definition is_num_char (c : ascii) : bool :=
  let n := N_of_ascii c in
  ((48 <=? n) && (n <=? 57) || (n =? 45))%N.

(** The longest prefix of number characters. *)
Fixpoint span_num (s : string) : string * string :=
  match s with
  | String c s' => if is_num_char c then let '(a, b) := span_num s' in (String c a, b) else (EmptyString, s)
  | EmptyString => (EmptyString, EmptyString)
  end.

(** A string body up to its closing quote. *)
Fixpoint parse_string (s : string) : option (string * string) :=
  match s with
  | EmptyString => None
  | String c s' =>
      if decide (c = quote) then Some (EmptyString, s')
      else if decide (c = backslash) then
        match s' with
        | String d s'' => (λ r, (String d r.1, r.2)) <$> parse_string s''
        | EmptyString => None
        end
      else (λ r, (String c r.1, r.2)) <$> parse_string s'
  end.

(** [expect p s]: [s] without its prefix [p]. *)
Definition expect (p s : string) : option string :=
  if startsWith p s then Some (slice_from (String.length p) s) else None.

Section parse.
Context (value : string → option (json * string)).

(** The rest of an array after an element. *)
Fixpoint parse_tail (n : nat) (s : string) : option (list json * string) :=
  match n with
  | O => None
  | S n' =>
      match expect "]" s with
      | Some s' => Some ([], s')
      | None => s0 ← expect "," s; '(x, s1) ← value s0; '(l, s2) ← parse_tail n' s1; Some (x :: l, s2)
      end
  end.

Definition parse_field (s : string) : option ((string * json) * string) :=
  s1 ← expect (String quote EmptyString) s;
  '(k, s2) ← parse_string s1; s3 ← expect ":" s2; '(x, s4) ← value s3; Some ((k, x), s4).

Fixpoint parse_fields (n : nat) (s : string) : option (list (string * json) * string) :=
  match n with
  | O => None
  | S n' =>
      match expect "}" s with
      | Some s' => Some ([], s')
      | None => s0 ← expect "," s; '(x, s1) ← parse_field s0; '(l, s2) ← parse_fields n' s1; Some (x :: l, s2)
      end
  end.
End parse.

(** The value starting at [s], tried by its first character. *)
Fixpoint parse_value (n : nat) (s : string) : option (json * string) :=
  match n with
  | O => None
  | S n' =>
      match expect "[" s, expect "{" s, expect (String quote EmptyString) s with
      | Some s', _, _ =>
          match expect "]" s' with
          | Some s'' => Some (JArr [], s'')
          | None => '(x, s1) ← parse_value n' s'; '(l, s2) ← parse_tail (parse_value n') n' s1; Some (JArr (x :: l), s2)
          end
      | None, Some s', _ =>
          match expect "}" s' with
          | Some s'' => Some (JObj [], s'')
          | None => '(x, s1) ← parse_field (parse_value n') s';
                    '(l, s2) ← parse_fields (parse_value n') n' s1; Some (JObj (x :: l), s2)
          end
      | None, None, Some s' => '(x, s1) ← parse_string s'; Some (JStr x, s1)
      | None, None, None =>
          match expect "null" s, expect "true" s, expect "false" s with
          | Some s', _, _ => Some (JNull, s')
          | _, Some s', _ => Some (JBool true, s')
          | _, _, Some s' => Some (JBool false, s')
          | _, _, _ => let '(a, b) := span_num s in
                       match a with EmptyString => None | _ => k ← Number a; Some (JNum k, b) end
          end
      end
  end.

Definition parse (s : string) : option json :=
  match parse_value (S (String.length s)) s with Some (v, EmptyString) => Some v | _ => None end.

(** ** The round trip *)

#[local] Arguments String.append !_ _ / : simpl nomatch.

Lemma expect_app p s : expect p (p +:+ s) = Some s.
Proof. unfold expect. by rewrite startsWith_app, slice_from_app. Qed.

Lemma expect_char c s : expect (String c EmptyString) (String c s) = Some s.
Proof. apply (expect_app (String c EmptyString)). Qed.

Lemma expect_ne c p d s : c ≠ d → expect (String c p) (String d s) = None.
Proof. intros H. unfold expect, startsWith. simpl. by destruct (ascii_dec c d). Qed.

Lemma parse_string_escape s rest :
  parse_string (escape s +:+ String quote rest) = Some (s, rest).
Proof.
  induction s as [|c s IH]; simpl; [done|].
  repeat case_decide; subst; simpl; repeat case_decide; try done; by rewrite IH.
Qed.

Lemma print_string_parses s rest :
  ∃ body, print_string s +:+ rest = String quote body ∧ parse_string body = Some (s, rest).
Proof.
  exists (escape s +:+ String quote rest). split; [|apply parse_string_escape].
  unfold print_string. simpl. by rewrite <- str_app_assoc.
Qed.

(** A continuation that does not extend a number. *)
Definition stops (rest : string) : bool :=
  match rest with String c _ => negb (is_num_char c) | EmptyString => true end.

Lemma span_num_app a rest :
  str_forall is_num_char a = true → stops rest = true → span_num (a +:+ rest) = (a, rest).
Proof.
  intros Ha Hr. induction a as [|c a IH]; simpl in *.
  - destruct rest as [|d rest]; simpl in *; [done|]. by destruct (is_num_char d).
  - apply andb_prop in Ha as [-> Ha]. by rewrite (IH Ha).
Qed.

Lemma uint_num_chars d : str_forall is_num_char (NilEmpty.string_of_uint d) = true.
Proof. induction d; simpl; done. Qed.

Lemma string_of_Z_num n :
  str_forall is_num_char (string_of_Z n) = true ∧ string_of_Z n ≠ EmptyString.
Proof.
  unfold string_of_Z, NilZero.string_of_int, NilZero.string_of_uint.
  destruct (Z.to_int n) as [d|d]; destruct d eqn:E; simpl; (split; [|done]); try apply uint_num_chars; done.
Qed.

Section json_induction.
Context (P : json → Prop).
Context (HNull : P JNull) (HBool : ∀ b, P (JBool b)) (HNum : ∀ n, P (JNum n)) (HStr : ∀ s, P (JStr s)).
Context (HArr : ∀ l, Forall P l → P (JArr l)) (HObj : ∀ fs, Forall (λ kv, P kv.2) fs → P (JObj fs)).

Fixpoint json_nested_ind (v : json) : P v :=
  match v with
  | JNull => HNull
  | JBool b => HBool b
  | JNum n => HNum n
  | JStr s => HStr s
  | JArr l => HArr l ((fix go l := match l return Forall P l with
                       | [] => Forall_nil_2 _
                       | x :: l' => Forall_cons_2 _ _ _ (json_nested_ind x) (go l') end) l)
  | JObj fs => HObj fs ((fix go fs := match fs return Forall (λ kv, P kv.2) fs with
                       | [] => Forall_nil_2 _
                       | x :: fs' => Forall_cons_2 _ _ _ (json_nested_ind x.2) (go fs') end) fs)
  end.
End json_induction.

Fixpoint print_tail (l : list json) : string :=
  match l with [] => "]" | y :: l' => "," +:+ (print y +:+ print_tail l') end.
Definition print_field (kv : string * json) : string := print_string kv.1 +:+ (":" +:+ print kv.2).
Fixpoint print_fields (fs : list (string * json)) : string :=
  match fs with [] => "}" | y :: fs' => "," +:+ (print_field y +:+ print_fields fs') end.

#[local] Arguments print_field : simpl never.
#[local] Arguments print_string : simpl never.

Lemma print_arr x l : print (JArr (x :: l)) = "[" +:+ (print x +:+ print_tail l).
Proof. reflexivity. Qed.
Lemma print_obj x fs : print (JObj (x :: fs)) = "{" +:+ (print_field x +:+ print_fields fs).
Proof. reflexivity. Qed.

Lemma length_sapp a b : String.length (a +:+ b) = (String.length a + String.length b)%nat.
Proof. induction a as [|c a IH]; simpl; [done|]. by rewrite IH. Qed.

(** The first character of a printed value, which no closing bracket is. *)
Lemma print_head v : ∃ c s, print v = String c s ∧ c ≠ "]"%char.
Proof.
  destruct v as [|[]|n|s|[|x l]|[|[k x] fs]]; simpl; try (eexists _, _; split; [reflexivity|done]).
  destruct (string_of_Z_num n) as [Hn Hne]. destruct (string_of_Z n) as [|c s]; [done|].
  exists c, s. split; [done|]. intros ->. by simpl in Hn.
Qed.

Lemma expect_bracket v rest : expect "]" (print v +:+ rest) = None.
Proof. destruct (print_head v) as (c & s & -> & Hc). by apply expect_ne. Qed.

Definition parses (v : json) : Prop := ∀ n rest,
  (String.length (print v) < n)%nat → stops rest = true → parse_value n (print v +:+ rest) = Some (v, rest).

Lemma parse_tail_print l n m rest :
  Forall parses l → (String.length (print_tail l) < n)%nat → (length l < m)%nat →
  parse_tail (parse_value n) m (print_tail l +:+ rest) = Some (l, rest).
Proof.
  intros Hl. revert m. induction Hl as [|x l Hx Hl IH]; intros [|m] Hn Hm; simpl in *; try lia.
  - by rewrite expect_char.
  - rewrite expect_char. simpl.
    rewrite length_sapp in Hn. rewrite <- str_app_assoc, Hx; [|lia|by destruct l].
    simpl. rewrite IH; [done|lia|lia].
Qed.

Lemma parse_field_print k x n rest :
  parses x → (String.length (print x) < n)%nat → stops rest = true →
  parse_field (parse_value n) (print_field (k, x) +:+ rest) = Some ((k, x), rest).
Proof.
  intros Hx Hn Hr. unfold parse_field, print_field. cbn [fst snd]. rewrite <- !str_app_assoc.
  destruct (print_string_parses k (":" +:+ (print x +:+ rest))) as (body & -> & Hb).
  rewrite expect_char. cbn [mbind option_bind]. rewrite Hb. cbn [mbind option_bind].
  rewrite (expect_app ":"). cbn [mbind option_bind]. by rewrite Hx.
Qed.

Lemma parse_fields_print fs n m rest :
  Forall (λ kv, parses kv.2) fs → (String.length (print_fields fs) < n)%nat → (length fs < m)%nat →
  parse_fields (parse_value n) m (print_fields fs +:+ rest) = Some (fs, rest).
Proof.
  intros Hl. revert m. induction Hl as [|[k x] fs Hx Hl IH]; intros [|m] Hn Hm;
    simpl in Hm; try lia; cbn [print_fields parse_fields] in *.
  - change ("}" +:+ rest) with (String "}" rest). by rewrite expect_char.
  - rewrite !length_sapp in Hn. unfold print_field in Hn. rewrite !length_sapp in Hn. simpl in Hn, Hx.
    rewrite <- !str_app_assoc. change ("," +:+ ?y) with (String "," y).
    rewrite (expect_ne "}" _ ",") by done. rewrite expect_char. cbn [mbind option_bind].
    rewrite parse_field_print; [|done|lia|by destruct fs]. cbn [mbind option_bind].
    rewrite IH; [done|lia|lia].
Qed.

Lemma length_tail l : (length l < String.length (print_tail l))%nat.
Proof. induction l; simpl; [lia|]. rewrite length_sapp. lia. Qed.
Lemma length_fields fs : (length fs < String.length (print_fields fs))%nat.
Proof. induction fs; simpl; [lia|]. rewrite length_sapp. lia. Qed.

Lemma parses_all v : parses v.
Proof.
  induction v as [|b|k|s|l Hl|fs Hfs] using json_nested_ind; intros [|n] rest Hn Hr; try lia.
  - by destruct rest.
  - by destruct b, rest.
  - change (print (JNum k)) with (string_of_Z k).
    destruct (string_of_Z_num k) as [Hd Hne].
    pose proof (span_num_app (string_of_Z k) rest Hd Hr) as Hs.
    pose proof (Number_string_of_Z k) as HN.
    destruct (string_of_Z k) as [|c a]; [done|]. simpl in Hd. apply andb_prop in Hd as [Hc _].
    assert (∀ d p, is_num_char d = false → expect (String d p) (String c a +:+ rest) = None) as Hex.
    { intros d p Hdc. apply expect_ne. congruence. }
    cbn [parse_value]. rewrite !Hex by done. rewrite Hs. simpl. by rewrite HN.
  - change (print (JStr s)) with (print_string s). cbn [parse_value].
    destruct (print_string_parses s rest) as (body & -> & Hb).
    rewrite (expect_ne "["), (expect_ne "{"), expect_char by done. simpl. by rewrite Hb.
  - destruct l as [|x l]; [by destruct rest|]. rewrite print_arr in *. apply Forall_cons in Hl as [Hx Hl].
    simpl in Hn. rewrite length_sapp in Hn. pose proof (length_tail l) as Ht.
    cbn [parse_value]. rewrite <- !str_app_assoc. change ("[" +:+ ?y) with (String "[" y).
    rewrite expect_char, expect_bracket.
    rewrite Hx; [|lia|by destruct l]. cbn [mbind option_bind]. rewrite parse_tail_print; [done|done|lia|lia].
  - destruct fs as [|[k x] fs]; [by destruct rest|]. rewrite print_obj in *. apply Forall_cons in Hfs as [Hx Hfs].
    simpl in Hn. rewrite length_sapp in Hn. pose proof (length_fields fs) as Ht.
    unfold print_field in Hn. rewrite length_sapp in Hn. simpl in Hn, Hx.
    cbn [parse_value]. rewrite <- !str_app_assoc. change ("{" +:+ ?y) with (String "{" y).
    rewrite (expect_ne "["), expect_char by done.
    assert (expect "}" (print_field (k, x) +:+ (print_fields fs +:+ rest)) = None) as ->.
    { unfold print_field. cbn [fst snd]. rewrite <- !str_app_assoc.
      destruct (print_string_parses k (":" +:+ (print x +:+ (print_fields fs +:+ rest)))) as (body & -> & _).
      by apply expect_ne. }
    rewrite parse_field_print; [|done|lia|by destruct fs]. cbn [mbind option_bind].
    rewrite parse_fields_print; [done|done|lia|lia].
Qed.

Lemma parse_print v : parse (print v) = Some v.
Proof.
  unfold parse. pose proof (parses_all v (S (String.length (print v))) EmptyString) as H.
  rewrite str_app_nil_r in H. by rewrite H by (done || lia).
Qed.

(** A bare word is no JSON text. *)
Lemma expect_word p w s :
  str_forall is_letter w = true → str_forall is_letter p = true → expect p w = Some s →
  w = p +:+ s ∧ str_forall is_letter s = true.
Proof.
  intros Hw Hp. unfold expect. destruct (startsWith p w) eqn:Hs; [|done]. intros [= <-].
  apply startsWith_slice in Hs. rewrite Hs, str_forall_app, Hp in Hw. by split.
Qed.

Lemma letter_no_num c : is_letter c = true → is_num_char c = false.
Proof. unfold is_letter, is_num_char. lia. Qed.

Lemma parse_word w : bare_word w = true → parse w = None.
Proof.
  intros [Hw Hne]%andb_prop. apply negb_true_iff, bool_decide_eq_false in Hne.
  assert (∀ c, is_letter c = false → expect (String c EmptyString) w = None) as Hpunct.
  { intros c Hc. destruct w as [|d w]; [done|]. apply expect_ne. intros ->. simpl in Hw. by rewrite Hc in Hw. }
  unfold parse. cbn [parse_value]. rewrite !Hpunct by reflexivity.
  destruct (expect "null" w) as [s|] eqn:E1.
  { apply expect_word in E1 as [-> _]; [|done..]. destruct s as [|c s]; [|done]. rewrite str_app_nil_r in Hne. set_solver. }
  destruct (expect "true" w) as [s|] eqn:E2.
  { apply expect_word in E2 as [-> _]; [|done..]. destruct s as [|c s]; [|done]. rewrite str_app_nil_r in Hne. set_solver. }
  destruct (expect "false" w) as [s|] eqn:E3.
  { apply expect_word in E3 as [-> _]; [|done..]. destruct s as [|c s]; [|done]. rewrite str_app_nil_r in Hne. set_solver. }
  clear -Hw. destruct w as [|c w]; [done|]. simpl in Hw. apply andb_prop in Hw as [Hc _].
  cbn [span_num]. by rewrite letter_no_num.
Qed.

Definition json_codec : JsonCodec :=
  {| JSON_stringify := print; JSON_parse := parse; JSON_parse_stringify v _ := parse_print v; JSON_parse_word := parse_word |}.
