(* ===== verification/Prog.v ===== *)
(** * Asynchronous programs

    A TypeScript method is a [prog]: a finite tree of the service calls it
    awaits, of the updates it makes to the state of its own process, and of the
    promises it waits for.  A call may resolve with any value or reject: the
    tree branches on the response, so a program says nothing about the services
    it calls.  [exec] runs a program against an environment given as a relation;
    [wp] is the corresponding weakest precondition; [run] runs it against a
    deterministic environment and computes. *)

From S2P Require Import Prelude.

(** ** Exceptions *)

(** What a [throw] carries: a Prisma known request error with its code, one of
    Nest's HTTP exceptions, an error of an AWS client with its name, any other
    [Error], or a value that is no [Error]. *)
Inductive exn : Type :=
| PrismaError (code message : string)
| HttpException (status : Z) (message : string)
| AwsError (name message : string)
| JsError (message : string)
| JsValue (text : string).

#[export] Instance exn_eq_dec : EqDecision exn.
Proof. solve_decision. Defined.

(** [err instanceof Error ? err.message : String(err)] *)
Definition err_message (x : exn) : string :=
  match x with
  | PrismaError _ m | HttpException _ m | AwsError _ m | JsError m => m
  | JsValue t => t
  end.

(** [err instanceof Error] *)
Definition is_Error (x : exn) : bool := match x with JsValue _ => false | _ => true end.

Definition BadRequestException := HttpException 400.
Definition UnauthorizedException := HttpException 401.
Definition ForbiddenException := HttpException 403.
Definition NotFoundException := HttpException 404.
Definition ConflictException := HttpException 409.
Definition ServiceUnavailableException := HttpException 503.

(** A settled promise. *)
Inductive outcome (A : Type) : Type :=
| Ok (a : A)
| Err (x : exn).
Arguments Ok {A} a.
Arguments Err {A} x.

#[export] Instance outcome_eq_dec `{EqDecision A} : EqDecision (outcome A).
Proof. solve_decision. Defined.

Definition is_Ok {A} (o : outcome A) : bool := match o with Ok _ => true | Err _ => false end.

(** ** Programs *)

(** An event family: the calls a program can make, each with the type of its
    response.  [yields] tells the calls that give control back to the event
    loop ([await]) from the synchronous ones. *)
Class Events (E : Type → Type) := yields : ∀ X, E X → bool.
Arguments yields {E _ X} e.

Inductive prog (E : Type → Type) (S A : Type) : Type :=
| Ret (a : A)
| Throw (x : exn)
| St {X} (f : S → X * S) (k : X → prog E S A)
| Do {X} (e : E X) (k : X → prog E S A)
| Wait {X} (ready : S → option X) (k : X → prog E S A).
Arguments Ret {E S A} a.
Arguments Throw {E S A} x.
Arguments St {E S A X} f k.
Arguments Do {E S A X} e k.
Arguments Wait {E S A X} ready k.

Section combinators.
Context {E : Type → Type} {S : Type}.

Fixpoint bind {A B} (f : A → prog E S B) (p : prog E S A) : prog E S B :=
  match p with
  | Ret a => f a
  | Throw x => Throw x
  | St g k => St g (λ x, bind f (k x))
  | Do e k => Do e (λ r, bind f (k r))
  | Wait g k => Wait g (λ x, bind f (k x))
  end.

(** [try { p } catch (x) { h(x) }] *)
Fixpoint try_catch {A} (p : prog E S A) (h : exn → prog E S A) : prog E S A :=
  match p with
  | Ret a => Ret a
  | Throw x => h x
  | St g k => St g (λ x, try_catch (k x) h)
  | Do e k => Do e (λ r, try_catch (k r) h)
  | Wait g k => Wait g (λ x, try_catch (k x) h)
  end.

(** [try { p } finally { fin }]: an exception of [fin] replaces the result. *)
Fixpoint try_finally {A} (p : prog E S A) (fin : prog E S unit) : prog E S A :=
  match p with
  | Ret a => bind (λ _, Ret a) fin
  | Throw x => bind (λ _, Throw x) fin
  | St g k => St g (λ x, try_finally (k x) fin)
  | Do e k => Do e (λ r, try_finally (k r) fin)
  | Wait g k => Wait g (λ x, try_finally (k x) fin)
  end.

Definition of_outcome {A} (o : outcome A) : prog E S A :=
  match o with Ok a => Ret a | Err x => Throw x end.

(** [await e] for a call that resolves or rejects. *)
Definition call {A} (e : E (outcome A)) : prog E S A := Do e of_outcome.

(** A call that cannot fail. *)
Definition ask {A} (e : E A) : prog E S A := Do e Ret.

(** Reading and writing the state of the process, synchronously. *)
Definition gets {A} (f : S → A) : prog E S A := St (λ s, (f s, s)) Ret.
Definition modify (f : S → S) : prog E S unit := St (λ s, (tt, f s)) Ret.

(** [for (const x of l) await body(x)] *)
Fixpoint for_each {A} (l : list A) (body : A → prog E S unit) : prog E S unit :=
  match l with
  | [] => Ret tt
  | x :: l' => bind (λ _, for_each l' body) (body x)
  end.
End combinators.

#[export] Instance prog_mret {E S} : MRet (prog E S) := λ A, Ret.
#[export] Instance prog_mbind {E S} : MBind (prog E S) := λ A B, bind.

(** ** Executions *)

(** An environment: [env e w r w'] when in the world [w] the call [e] may be
    answered by [r], leaving the world [w']. *)
Definition Env (E : Type → Type) (W : Type) : Type := ∀ X, E X → W → X → W → Prop.

Section exec.
Context {E : Type → Type} `{!Events E} {S W : Type}.
(** [R s s']: what the other tasks of the process may do to its state while
    the program is suspended. *)
Context (env : Env E W) (R : S → S → Prop).

Definition interfere {X} (e : E X) (s s1 : S) : Prop :=
  if yields e then R s s1 else s1 = s.

Fixpoint exec {A} (p : prog E S A) (s : S) (w : W) (o : outcome A) (s' : S) (w' : W) : Prop :=
  match p with
  | Ret a => o = Ok a ∧ s' = s ∧ w' = w
  | Throw x => o = Err x ∧ s' = s ∧ w' = w
  | St f k => exec (k (f s).1) (f s).2 w o s' w'
  | Do e k => ∃ r w1 s1, env _ e w r w1 ∧ interfere e s s1 ∧ exec (k r) s1 w1 o s' w'
  | Wait g k => ∃ s1 x, R s s1 ∧ g s1 = Some x ∧ exec (k x) s1 w o s' w'
  end.

Fixpoint wp {A} (p : prog E S A) (s : S) (w : W) (Q : outcome A → S → W → Prop) : Prop :=
  match p with
  | Ret a => Q (Ok a) s w
  | Throw x => Q (Err x) s w
  | St f k => wp (k (f s).1) (f s).2 w Q
  | Do e k => ∀ r w1 s1, env _ e w r w1 → interfere e s s1 → wp (k r) s1 w1 Q
  | Wait g k => ∀ s1 x, R s s1 → g s1 = Some x → wp (k x) s1 w Q
  end.

Lemma wp_exec {A} (p : prog E S A) s w Q :
  wp p s w Q ↔ ∀ o s' w', exec p s w o s' w' → Q o s' w'.
Proof.
  revert s w. induction p as [a|x|X f k IH|X e k IH|X g k IH]; intros s w; simpl.
  - split; [by intros H o s' w' (->&->&->) | by intros H; apply H].
  - split; [by intros H o s' w' (->&->&->) | by intros H; apply H].
  - apply IH.
  - setoid_rewrite IH. split; [|by eauto 10].
    intros H o s' w' (r & w1 & s1 & He & Hi & Hx). eauto.
  - setoid_rewrite IH. split; [|by eauto 10].
    intros H o s' w' (s1 & x & HR & Hg & Hx). eauto.
Qed.

Lemma exec_wp {A} (p : prog E S A) s w o s' w' (Q : outcome A → S → W → Prop) :
  exec p s w o s' w' → wp p s w Q → Q o s' w'.
Proof. rewrite wp_exec. eauto. Qed.

Lemma wp_mono {A} (p : prog E S A) s w (Q Q' : outcome A → S → W → Prop) :
  wp p s w Q → (∀ o s' w', Q o s' w' → Q' o s' w') → wp p s w Q'.
Proof. rewrite !wp_exec. eauto. Qed.

Lemma wp_bind {A B} (f : A → prog E S B) (p : prog E S A) s w Q :
  wp p s w (λ o s' w', match o with Ok a => wp (f a) s' w' Q | Err x => Q (Err x) s' w' end) →
  wp (bind f p) s w Q.
Proof.
  revert s w. induction p as [a|x|X g k IH|X e k IH|X g k IH]; intros s w; simpl; eauto.
Qed.

Lemma wp_try {A} (p : prog E S A) h s w Q :
  wp p s w (λ o s' w', match o with Ok a => Q (Ok a) s' w' | Err x => wp (h x) s' w' Q end) →
  wp (try_catch p h) s w Q.
Proof.
  revert s w. induction p as [a|x|X g k IH|X e k IH|X g k IH]; intros s w; simpl; eauto.
Qed.

Lemma wp_finally {A} (p : prog E S A) fin s w Q :
  wp p s w (λ o s' w', wp fin s' w' (λ o' s'' w'',
    match o' with Ok _ => Q o s'' w'' | Err x => Q (Err x) s'' w'' end)) →
  wp (try_finally p fin) s w Q.
Proof.
  revert s w. induction p as [a|x|X g k IH|X e k IH|X g k IH]; intros s w; simpl; eauto.
  - intros H. apply wp_bind. eapply wp_mono; [done|]. by intros [] ??.
  - intros H. apply wp_bind. eapply wp_mono; [done|]. by intros [] ??.
Qed.

(** The loop rule: an invariant of the elements still to visit. *)
Lemma wp_for_each {A} (I : list A → S → W → Prop) (body : A → prog E S unit) l s w
    (Q : outcome unit → S → W → Prop) :
  I l s w →
  (∀ x l' s w, I (x :: l') s w →
     wp (body x) s w (λ o s' w', match o with Ok _ => I l' s' w' | Err _ => Q o s' w' end)) →
  (∀ s w, I [] s w → Q (Ok tt) s w) →
  wp (for_each l body) s w Q.
Proof.
  intros HI Hbody HQ. revert s w HI. induction l as [|x l IH]; intros s w HI; simpl; [eauto|].
  apply wp_bind. eapply wp_mono; [by apply Hbody|]. intros [[]|y] s' w'; eauto.
Qed.
End exec.

Arguments exec {E _ S W} env R {A} p s w o s' w'.
Arguments wp {E _ S W} env R {A} p s w Q.

(** ** The environment that answers anything, and records what it was asked *)

(** One entry of a call history: the call and its answer. *)
Record entry (E : Type → Type) := Entry { entry_type : Type; entry_call : E entry_type; entry_answer : entry_type }.
Arguments Entry {E X} e r : rename.
Arguments entry_type {E} _.
Arguments entry_call {E} _.
Arguments entry_answer {E} _.

Definition history_env (E : Type → Type) : Env E (list (entry E)) :=
  λ X e w r w', w' = w ++ [Entry e r].

(** ** Deterministic execution *)

Definition handler (E : Type → Type) (W : Type) : Type := ∀ X, E X → W → X * W.

Definition env_of {E W} (h : handler E W) : Env E W := λ X e w r w', h X e w = (r, w').

(** [run] answers [None] when the program waits for a promise that nothing in
    its own process has settled. *)
Fixpoint run {E S W A} (h : handler E W) (p : prog E S A) (s : S) (w : W) : option (outcome A * S * W) :=
  match p with
  | Ret a => Some (Ok a, s, w)
  | Throw x => Some (Err x, s, w)
  | St f k => run h (k (f s).1) (f s).2 w
  | Do e k => run h (k (h _ e w).1) s (h _ e w).2
  | Wait g k => match g s with Some x => run h (k x) s w | None => None end
  end.

Lemma run_exec {E S W A} `{!Events E} (h : handler E W) (R : S → S → Prop) (p : prog E S A) s w o s' w' :
  (∀ s, R s s) → run h p s w = Some (o, s', w') → exec (env_of h) R p s w o s' w'.
Proof.
  intros HR. revert s w.
  induction p as [a|x|X f k IH|X e k IH|X g k IH]; intros s w Hrun; simpl in *; simplify_eq; eauto.
  - exists (h X e w).1, (h X e w).2, s. split_and!.
    + unfold env_of. by destruct (h X e w).
    + unfold interfere. by destruct (yields e).
    + eauto.
  - destruct (g s) as [x|] eqn:Hg; [|done]. eauto 10.
Qed.

(** The same, when at every suspension the other tasks of the process do [f]. *)
Fixpoint run_among {E S W A} `{!Events E} (f : S → S) (h : handler E W) (p : prog E S A) (s : S) (w : W) :
    option (outcome A * S * W) :=
  match p with
  | Ret a => Some (Ok a, s, w)
  | Throw x => Some (Err x, s, w)
  | St g k => run_among f h (k (g s).1) (g s).2 w
  | Do e k => run_among f h (k (h _ e w).1) (if yields e then f s else s) (h _ e w).2
  | Wait g k => match g (f s) with Some x => run_among f h (k x) (f s) w | None => None end
  end.

Lemma run_among_exec {E S W A} `{!Events E} (f : S → S) (h : handler E W) (R : S → S → Prop) (p : prog E S A) s w o s' w' :
  (∀ s, R s (f s)) → run_among f h p s w = Some (o, s', w') → exec (env_of h) R p s w o s' w'.
Proof.
  intros HR. revert s w.
  induction p as [a|x|X g k IH|X e k IH|X g k IH]; intros s w Hrun; simpl in *; simplify_eq; eauto.
  - exists (h X e w).1, (h X e w).2, (if yields e then f s else s). split_and!.
    + unfold env_of. by destruct (h X e w).
    + unfold interfere. by destruct (yields e).
    + eauto.
  - destruct (g (f s)) as [x|] eqn:Hg; [|done]. eauto 10.
Qed.

(** *** Total correctness

    [returns h p s w Q]: against the handler the program comes to an end, and its
    end satisfies [Q]. *)
Section returns.
Context {E : Type → Type} {S W : Type} (h : handler E W).

Definition returns {A} (p : prog E S A) (s : S) (w : W) (Q : outcome A → S → W → Prop) : Prop :=
  match run h p s w with Some (o, s', w') => Q o s' w' | None => False end.

Lemma returns_run {A} (p : prog E S A) s w Q :
  returns p s w Q ↔ ∃ o s' w', run h p s w = Some (o, s', w') ∧ Q o s' w'.
Proof.
  unfold returns. split; [|by intros (o & s' & w' & -> & HQ)].
  destruct (run h p s w) as [[[o s'] w']|]; [eauto|done].
Qed.

Lemma returns_mono {A} (p : prog E S A) s w (Q Q' : outcome A → S → W → Prop) :
  returns p s w Q → (∀ o s' w', Q o s' w' → Q' o s' w') → returns p s w Q'.
Proof. unfold returns. destruct (run h p s w) as [[[o s'] w']|]; eauto. Qed.

Lemma returns_ret {A} (a : A) s w (Q : outcome A → S → W → Prop) : Q (Ok a) s w → returns (Ret a) s w Q.
Proof. done. Qed.

Lemma returns_do {X A} (e : E X) (k : X → prog E S A) s w Q :
  returns (k (h _ e w).1) s (h _ e w).2 Q → returns (Do e k) s w Q.
Proof. done. Qed.

Lemma run_bind {A B} (f : A → prog E S B) (p : prog E S A) s w :
  run h (bind f p) s w = match run h p s w with
                         | Some (Ok a, s', w') => run h (f a) s' w'
                         | Some (Err x, s', w') => Some (Err x, s', w')
                         | None => None
                         end.
Proof. revert s w. induction p as [a|x|X g k IH|X e k IH|X g k IH]; intros s w; simpl; auto. by destruct (g s). Qed.

Lemma run_try {A} (p : prog E S A) handle s w :
  run h (try_catch p handle) s w = match run h p s w with
                                   | Some (Err x, s', w') => run h (handle x) s' w'
                                   | r => r
                                   end.
Proof. revert s w. induction p as [a|x|X g k IH|X e k IH|X g k IH]; intros s w; simpl; auto. by destruct (g s). Qed.

Lemma run_finally {A} (p : prog E S A) fin s w :
  run h (try_finally p fin) s w = match run h p s w with
                                  | Some (o, s', w') => match run h fin s' w' with
                                                        | Some (Ok _, s'', w'') => Some (o, s'', w'')
                                                        | Some (Err x, s'', w'') => Some (Err x, s'', w'')
                                                        | None => None
                                                        end
                                  | None => None
                                  end.
Proof.
  revert s w. induction p as [a|x|X g k IH|X e k IH|X g k IH]; intros s w; simpl; auto; [by rewrite run_bind..|].
  by destruct (g s).
Qed.

Lemma returns_bind {A B} (f : A → prog E S B) (p : prog E S A) s w Q :
  returns p s w (λ o s' w', match o with Ok a => returns (f a) s' w' Q | Err x => Q (Err x) s' w' end) →
  returns (bind f p) s w Q.
Proof. unfold returns. rewrite run_bind. by destruct (run h p s w) as [[[[a|x] s'] w']|]. Qed.

Lemma returns_try {A} (p : prog E S A) handle s w Q :
  returns p s w (λ o s' w', match o with Ok a => Q (Ok a) s' w' | Err x => returns (handle x) s' w' Q end) →
  returns (try_catch p handle) s w Q.
Proof. unfold returns. rewrite run_try. by destruct (run h p s w) as [[[[a|x] s'] w']|]. Qed.

Lemma returns_finally {A} (p : prog E S A) fin s w Q :
  returns p s w (λ o s' w', returns fin s' w' (λ o' s'' w'',
    match o' with Ok _ => Q o s'' w'' | Err x => Q (Err x) s'' w'' end)) →
  returns (try_finally p fin) s w Q.
Proof.
  unfold returns. rewrite run_finally. destruct (run h p s w) as [[[o s'] w']|]; [|done].
  by destruct (run h fin s' w') as [[[[u|x] s''] w'']|].
Qed.

(** The loop rule: an invariant of the elements still to visit. *)
Lemma returns_for_each {A} (I : list A → S → W → Prop) (body : A → prog E S unit) l s w :
  I l s w →
  (∀ x l' s w, I (x :: l') s w → returns (body x) s w (λ o s' w', o = Ok tt ∧ I l' s' w')) →
  returns (for_each l body) s w (λ o s' w', o = Ok tt ∧ I [] s' w').
Proof.
  intros HI Hb. revert s w HI. induction l as [|x l IH]; intros s w HI; [done|]. simpl. apply returns_bind.
  eapply returns_mono; [by apply Hb|]. intros o s' w' [-> HI']. by apply IH.
Qed.
End returns.

(** ** Programs that only make certain calls *)

Section only.
Context {E : Type → Type} (P : ∀ X, E X → Prop).

Fixpoint only {S A} (p : prog E S A) : Prop :=
  match p with
  | Ret _ | Throw _ => True
  | St f k => ∀ x, only (k x)
  | Do e k => P _ e ∧ ∀ r, only (k r)
  | Wait g k => ∀ x, only (k x)
  end.

Lemma only_bind {S A B} (f : A → prog E S B) (p : prog E S A) : only p → (∀ a, only (f a)) → only (bind f p).
Proof. intros Hp Hf. induction p; simpl in *; naive_solver. Qed.

Lemma only_finally {S A} (p : prog E S A) fin : only p → only fin → only (try_finally p fin).
Proof. intros Hp Hf. induction p; simpl in *; try naive_solver; by apply only_bind. Qed.

Lemma only_try {S A} (p : prog E S A) h : only p → (∀ x, only (h x)) → only (try_catch p h).
Proof. intros Hp Hf. induction p; simpl in *; naive_solver. Qed.

Lemma only_for_each {S A} (body : A → prog E S unit) l : (∀ x, only (body x)) → only (for_each l body).
Proof. intros Hb. induction l as [|x l IH]; simpl; [done|]. apply only_bind; auto. Qed.

Lemma only_outcome {S A} (o : outcome A) : only (S := S) (of_outcome o).
Proof. by destruct o. Qed.

(** A property of the world that every allowed call keeps. *)
Lemma only_preserves `{!Events E} {S W A} (env : Env E W) (R : S → S → Prop) (I : W → Prop) (p : prog E S A) s w o s' w' :
  (∀ X (e : E X) w r w', P X e → env X e w r w' → I w → I w') →
  only p → exec env R p s w o s' w' → I w → I w'.
Proof.
  intros HI Hp. revert s w. induction p as [a|x|X f k IH|X e k IH|X g k IH]; intros s w; simpl in *; naive_solver.
Qed.
End only.

Lemma only_and {E S A} (P Q : ∀ X, E X → Prop) (p : prog E S A) : only P p → only Q p → only (λ X e, P X e ∧ Q X e) p.
Proof. induction p as [a|x|X f k IH|X e k IH|X g k IH]; simpl; naive_solver. Qed.

Lemma only_mono {E S A} (P Q : ∀ X, E X → Prop) (p : prog E S A) : (∀ X (e : E X), P X e → Q X e) → only P p → only Q p.
Proof. intros HPQ. induction p; simpl in *; naive_solver. Qed.

(** ** Pools of processes

    Processes that share nothing but the world they call, interleaved at every
    call; a new one may start at any time. *)
Section pool.
Context {E : Type → Type} {W : Type} (env : Env E W) (spawnable : prog E unit unit → Prop).

(** One call, or one local step, of a process. *)
Definition thread_step (p : prog E unit unit) (w : W) (p' : prog E unit unit) (w' : W) : Prop :=
  match p with
  | Do e k => ∃ r, env _ e w r w' ∧ p' = k r
  | St f k => p' = k (f tt).1 ∧ w' = w
  | _ => False
  end.

Inductive pstep : list (prog E unit unit) * W → list (prog E unit unit) * W → Prop :=
| pstep_run ps w i p p' w' :
    ps !! i = Some p → thread_step p w p' w' → pstep (ps, w) (<[i := p']> ps, w')
| pstep_spawn ps w p : spawnable p → pstep (ps, w) (ps ++ [p], w).
End pool.

(** A schedule: [None] starts the process [p], [Some i] runs process [i] for one
    call. *)
Definition run_thread {E W} (h : handler E W) (p : prog E unit unit) (w : W) : option (prog E unit unit * W) :=
  match p with
  | Do e k => Some (k (h _ e w).1, (h _ e w).2)
  | St f k => Some (k (f tt).1, w)
  | _ => None
  end.

Fixpoint run_pool {E W} (h : handler E W) (p : prog E unit unit) (sched : list (option nat))
    (st : list (prog E unit unit) * W) : option (list (prog E unit unit) * W) :=
  match sched with
  | [] => Some st
  | None :: sched' => run_pool h p sched' (st.1 ++ [p], st.2)
  | Some i :: sched' =>
      match st.1 !! i with
      | Some q => match run_thread h q st.2 with
                  | Some (q', w') => run_pool h p sched' (<[i := q']> st.1, w')
                  | None => None
                  end
      | None => None
      end
  end.

Lemma run_pool_steps {E W} (h : handler E W) (env : Env E W) (spawnable : prog E unit unit → Prop) p sched st st' :
  (∀ X (e : E X) w r w', env_of h X e w r w' → env X e w r w') → spawnable p →
  run_pool h p sched st = Some st' → rtc (pstep env spawnable) st st'.
Proof.
  intros Henv Hp. revert st. induction sched as [|[i|] sched IH]; intros [ps w] Hrun; simpl in Hrun.
  - by injection Hrun as <-.
  - destruct (ps !! i) as [q|] eqn:Hq; [|done]. destruct (run_thread h q w) as [[q' w']|] eqn:Hr; [|done].
    eapply rtc_l; [|by apply IH]. eapply pstep_run; [done|].
    destruct q as [| |X f k|X e k|]; simpl in Hr; try done; injection Hr as <- <-; simpl; [done|].
    exists (h X e w).1. split; [|done]. apply Henv. unfold env_of. by destruct (h X e w).
  - eapply rtc_l; [by apply pstep_spawn|by apply IH].
Qed.

(** A handler that also records the history. *)
Definition logging {E W} (h : handler E W) : handler E (W * list (entry E)) :=
  λ X e w, let '(r, w1) := h X e w.1 in (r, (w1, w.2 ++ [Entry e r])).

(** An answering function as an environment of the history. *)
Definition scripted {E} (answer : ∀ X, E X → list (entry E) → X) : handler E (list (entry E)) :=
  λ X e w, (answer X e w, w ++ [Entry e (answer X e w)]).

Lemma exec_env_mono {E S W A} `{!Events E} (env env' : Env E W) (R : S → S → Prop) (p : prog E S A) s w o s' w' :
  (∀ X (e : E X) w r w', env X e w r w' → env' X e w r w') →
  exec env R p s w o s' w' → exec env' R p s w o s' w'.
Proof.
  intros Henv. revert s w.
  induction p as [a|x|X g k IH|X e k IH|X g k IH]; intros s w; simpl; naive_solver.
Qed.

Lemma scripted_history {E S A} `{!Events E} (answer : ∀ X, E X → list (entry E) → X) (R : S → S → Prop)
    (p : prog E S A) s w o s' w' :
  exec (env_of (scripted answer)) R p s w o s' w' → exec (history_env E) R p s w o s' w'.
Proof. apply exec_env_mono. intros X e v r v' [= <- <-]. done. Qed.

(** No interference: the state of a process whose other tasks are idle. *)
Definition still {S} (s s' : S) : Prop := s' = s.

(** Proves a concrete execution by running it. *)
Ltac executes := apply run_exec; [done|vm_compute; reflexivity].

(** Turns a goal about the end of an execution into a [wp]. *)
Ltac by_wp H :=
  match type of H with
  | exec ?env ?R ?p ?s ?w ?o ?s' ?w' =>
      pattern o, s', w'; apply (exec_wp env R p s w o s' w' _ H); clear H
  end.

(** The same for an execution of the recording environment, with scripted answers. *)
Ltac scripted_by answer := apply (scripted_history answer), run_exec; [done|vm_compute; reflexivity].

(** What a program does and answers does not depend on the history before it. *)
Lemma history_shift {E S A} `{!Events E} (R : S → S → Prop) (p : prog E S A) s tr o s' tr' :
  exec (history_env E) R p s tr o s' tr' → ∃ calls, tr' = tr ++ calls ∧ ∀ tr0, exec (history_env E) R p s tr0 o s' (tr0 ++ calls).
Proof.
  revert s tr. induction p as [a|x|X f k IH|X e k IH|X g k IH]; intros s tr; simpl.
  - intros (-> & -> & ->). exists []. rewrite app_nil_r. split; [done|]. intros tr0. by rewrite app_nil_r.
  - intros (-> & -> & ->). exists []. rewrite app_nil_r. split; [done|]. intros tr0. by rewrite app_nil_r.
  - intros Hx. by apply IH in Hx.
  - intros (r & w1 & s1 & -> & Hi & (calls & -> & Hx)%IH). exists (Entry e r :: calls).
    rewrite <- app_assoc. split; [done|]. intros tr0. exists r, (tr0 ++ [Entry e r]), s1. split_and!; [done..|].
    specialize (Hx (tr0 ++ [Entry e r])). by rewrite <- app_assoc in Hx.
  - intros (s1 & x & HR & Hg & (calls & -> & Hx)%IH). exists calls. split; [done|]. intros tr0. eauto.
Qed.

(** ** Programs that leave the state of their process alone *)

Fixpoint stateless {E S A} (p : prog E S A) : Prop :=
  match p with
  | Ret _ | Throw _ => True
  | St f k => False
  | Do e k => ∀ r, stateless (k r)
  | Wait g k => ∀ x, stateless (k x)
  end.

Lemma stateless_bind {E S A B} (f : A → prog E S B) (p : prog E S A) :
  stateless p → (∀ a, stateless (f a)) → stateless (bind f p).
Proof. intros Hp Hf. induction p; simpl in *; naive_solver. Qed.

Lemma stateless_try {E S A} (p : prog E S A) h : stateless p → (∀ x, stateless (h x)) → stateless (try_catch p h).
Proof. intros Hp Hf. induction p; simpl in *; naive_solver. Qed.

Lemma stateless_outcome {E S A} (o : outcome A) : stateless (E := E) (S := S) (of_outcome o).
Proof. by destruct o. Qed.

(** Only the other tasks of the process change its state meanwhile. *)
Lemma stateless_exec {E S W A} `{!Events E} (env : Env E W) (R : S → S → Prop) (p : prog E S A) s w o s' w' :
  stateless p → exec env R p s w o s' w' → rtc R s s'.
Proof.
  intros Hp. revert s w. induction p as [a|x|X f k IH|X e k IH|X g k IH]; intros s w; simpl in *.
  - by intros (_ & -> & _).
  - by intros (_ & -> & _).
  - done.
  - intros (r & w1 & s1 & _ & Hi & Hx). unfold interfere in Hi. destruct (yields e).
    + eapply rtc_l; [exact Hi|eauto].
    + subst s1. eauto.
  - intros (s1 & x & HR & _ & Hx). eapply rtc_l; [exact HR|eauto].
Qed.
