(* ===== verification/Interleave.v ===== *)
(** * Interleaved programs

    Any number of programs, started at any time, each making one call
    at a time in any order.  What their processes hold in memory is arbitrary at
    every step, so a fact about all runs holds whatever process a program runs in
    and whatever its other tasks do.  [safe] is the proof obligation of one
    program: with the others' steps in [G] before each of its calls, each call of
    its own is a step of [G] (rely and guarantee are the same relation). *)

From S2P Require Import Prelude Prog.

(** ** Threads *)

Section threads.
Context {T W : Type} (step : T → W → T → W → Prop).

Inductive istep (arrives : T → Prop) : list T * W → list T * W → Prop :=
| istep_run ps w i p p' w' : ps !! i = Some p → step p w p' w' → istep arrives (ps, w) (<[i := p']> ps, w')
| istep_arrive ps w p : arrives p → istep arrives (ps, w) (ps ++ [p], w).

(** [fine p w]: from the world [w] on, each step of [p] is one of [G], whatever
    steps of [G] the others make in between. *)
Context (J : W → Prop) (G : W → W → Prop) `{!PreOrder G} (HJ : ∀ a b, G a b → J a → J b).
Context (fine : T → W → Prop) (fine_later : ∀ p a b, G a b → fine p a → fine p b)
  (fine_step : ∀ p w p' w', J w → step p w p' w' → fine p w → G w w' ∧ fine p' w').

(** If every thread that arrives is fine, all of them together are: every
    reachable world is a step of [G] away, and the threads are still fine. *)
Lemma interleaved_all (arrives : T → Prop) ps w ps' w' :
  (∀ p w0, arrives p → G w w0 → J w0 → fine p w0) → J w → Forall (λ p, fine p w) ps →
  rtc (istep arrives) (ps, w) (ps', w') → G w w' ∧ J w' ∧ Forall (λ p, fine p w') ps'.
Proof.
  intros Harr HJw Hps Hsteps.
  change (G w (ps', w').2 ∧ J (ps', w').2 ∧ Forall (λ p, fine p (ps', w').2) (ps', w').1).
  revert Hsteps. generalize (ps', w') as st. apply rtc_ind_r; [done|]. clear Hps.
  intros st1 st2 _ Hst (HG & HJ1 & Hps). destruct Hst as [ps1 w1 i p p' w2 Hp Hst|ps1 w1 p Hp]; simpl in *.
  - apply fine_step in Hst as [H12 Hp']; [|done|exact (Forall_lookup_1 _ _ _ _ Hps Hp)].
    split_and!; [by etransitivity|by eapply HJ|]. apply Forall_insert; [|done].
    eapply Forall_impl; [exact Hps|]. intros q Hq. by eapply fine_later.
  - split_and!; [done..|]. apply Forall_app. split; [done|]. constructor; [by apply Harr|done].
Qed.

Lemma interleaved_fine (arrives : T → Prop) ps w ps' w' :
  (∀ p w0, arrives p → G w w0 → J w0 → fine p w0) → J w → Forall (λ p, fine p w) ps →
  rtc (istep arrives) (ps, w) (ps', w') → G w w'.
Proof. intros Harr HJw Hps Hsteps. by destruct (interleaved_all arrives ps w ps' w' Harr HJw Hps Hsteps). Qed.
End threads.

(** ** Programs as threads *)

Section interleave.
Context {E : Type → Type} {W : Type} (env : Env E W).

(** One call, one local step on some local state, or a promise that settles. *)
Definition any_step {S A} (p : prog E S A) (w : W) (p' : prog E S A) (w' : W) : Prop :=
  match p with
  | Ret _ | Throw _ => False
  | St f k => w' = w ∧ ∃ s, p' = k (f s).1
  | Do e k => ∃ r, env _ e w r w' ∧ p' = k r
  | Wait g k => w' = w ∧ ∃ s x, g s = Some x ∧ p' = k x
  end.

Context (J : W → Prop) (G : W → W → Prop) `{!PreOrder G} (HJ : ∀ a b, G a b → J a → J b).

Fixpoint safe {S A} (p : prog E S A) (w : W) (Q : outcome A → W → Prop) : Prop :=
  match p with
  | Ret a => Q (Ok a) w
  | Throw x => Q (Err x) w
  | St f k => ∀ s, safe (k (f s).1) w Q
  | Do e k => ∀ w0 r w1, G w w0 → J w0 → env _ e w0 r w1 → G w0 w1 ∧ safe (k r) w1 Q
  | Wait g k => ∀ s x, g s = Some x → safe (k x) w Q
  end.

(** What the others do meanwhile changes nothing. *)
Lemma safe_later {S A} (p : prog E S A) w w' Q :
  (∀ o a b, G a b → Q o a → Q o b) → G w w' → safe p w Q → safe p w' Q.
Proof.
  intros HQ. revert w w'. induction p as [a|x|X f k IH|X e k IH|X g k IH]; intros w w' Hw; simpl; eauto.
  intros Hs w0 r w1 H0. apply Hs. by etransitivity.
Qed.

Lemma safe_mono {S A} (p : prog E S A) w (Q Q' : outcome A → W → Prop) :
  (∀ o w', Q o w' → Q' o w') → safe p w Q → safe p w Q'.
Proof.
  intros HQ. revert w. induction p as [a|x|X f k IH|X e k IH|X g k IH]; intros w; simpl; eauto.
  intros Hs w0 r w1 H0 HJ0 He. destruct (Hs w0 r w1 H0 HJ0 He). eauto.
Qed.

Lemma safe_bind {S A B} (f : A → prog E S B) (p : prog E S A) w Q :
  safe p w (λ o w', match o with Ok a => safe (f a) w' Q | Err x => Q (Err x) w' end) → safe (bind f p) w Q.
Proof.
  revert w. induction p as [a|x|X g k IH|X e k IH|X g k IH]; intros w; simpl; eauto.
  intros Hs w0 r w1 H0 HJ0 He. destruct (Hs w0 r w1 H0 HJ0 He). eauto.
Qed.

Lemma safe_try {S A} (p : prog E S A) h w Q :
  safe p w (λ o w', match o with Ok a => Q (Ok a) w' | Err x => safe (h x) w' Q end) → safe (try_catch p h) w Q.
Proof.
  revert w. induction p as [a|x|X g k IH|X e k IH|X g k IH]; intros w; simpl; eauto.
  intros Hs w0 r w1 H0 HJ0 He. destruct (Hs w0 r w1 H0 HJ0 He). eauto.
Qed.

(** A program whose calls are all steps of [G] wherever the stable fact [F] holds. *)
Lemma safe_only (P : ∀ X, E X → Prop) (F : W → Prop) {S A} (p : prog E S A) w :
  (∀ a b, G a b → F a → F b) →
  (∀ X (e : E X) w0 r w1, P X e → F w0 → J w0 → env X e w0 r w1 → G w0 w1) →
  only P p → F w → safe p w (λ _ _, True).
Proof.
  intros HF HP. revert w. induction p as [a|x|X f k IH|X e k IH|X g k IH]; intros w; simpl; [done|done|eauto| |eauto].
  intros [He Hk] Hw w0 r w1 H0 HJ0 Hr. assert (G w0 w1) as H1 by eauto. eauto.
Qed.

(** A single call. *)
Lemma safe_call {S A} (e : E (outcome A)) w Q :
  (∀ w0 r w1, G w w0 → J w0 → env _ e w0 r w1 → G w0 w1 ∧ Q r w1) → safe (call (S := S) e) w Q.
Proof. intros H w0 r w1 H0 HJ0 He. destruct (H w0 r w1 H0 HJ0 He). by destruct r. Qed.

(** Where a program stops is a step of [G] away from where it started. *)
Lemma safe_reach {S A} (p : prog E S A) w Q : safe p w Q → safe p w (λ o w', G w w' ∧ Q o w').
Proof.
  revert w. induction p as [a|x|X f k IH|X e k IH|X g k IH]; intros w; simpl; [done|done|eauto| |eauto].
  intros Hs w0 r w1 H0 HJ0 He. destruct (Hs w0 r w1 H0 HJ0 He) as [H1 Hk]. split; [done|].
  eapply safe_mono; [|by apply IH]. intros o w' [H2 HQ]. split; [|done]. by do 2 (etransitivity; [done|]).
Qed.

(** A loop whose elements each come with a stable fact. *)
Lemma safe_for_each {S A} (F : A → W → Prop) (body : A → prog E S unit) l w :
  (∀ x a b, G a b → F x a → F x b) → (∀ x w, F x w → safe (body x) w (λ _ _, True)) →
  Forall (λ x, F x w) l → safe (for_each l body) w (λ _ _, True).
Proof.
  intros HF Hb. revert w. induction l as [|x l IH]; intros w; [done|]. intros [Hx Hl]%Forall_cons. simpl.
  apply safe_bind. eapply safe_mono; [|apply safe_reach, Hb, Hx]. intros [[]|] w' [Hw _]; [|done]. apply IH.
  eapply Forall_impl; [exact Hl|]. eauto.
Qed.

(** Programs that are safe from every world. *)
Definition everywhere {S A} (p : prog E S A) : Prop := ∀ w, safe p w (λ _ _, True).

Lemma everywhere_bind {S A B} (f : A → prog E S B) (p : prog E S A) : everywhere p → (∀ a, everywhere (f a)) → everywhere (bind f p).
Proof. intros Hp Hf w. apply safe_bind. eapply safe_mono; [|apply Hp]. intros [a|x] w' _; [apply Hf|done]. Qed.
Lemma safe_try_everywhere {S A} (p : prog E S A) h w :
  safe p w (λ _ _, True) → (∀ x, everywhere (h x)) → safe (try_catch p h) w (λ _ _, True).
Proof. intros Hp Hh. apply safe_try. eapply safe_mono; [|exact Hp]. intros [a|x] w' _; [done|apply Hh]. Qed.
Lemma everywhere_try {S A} (p : prog E S A) h : everywhere p → (∀ x, everywhere (h x)) → everywhere (try_catch p h).
Proof. intros Hp Hh w. by apply safe_try_everywhere. Qed.
Lemma everywhere_for_each {S A} (body : A → prog E S unit) l : (∀ x, everywhere (body x)) → everywhere (for_each l body).
Proof. intros Hb. induction l as [|x l IH]; [done|]. apply everywhere_bind; auto. Qed.

Lemma any_step_safe {S A} (p : prog E S A) w p' w' Q :
  J w → any_step p w p' w' → safe p w Q → G w w' ∧ safe p' w' Q.
Proof.
  intros HJw. destruct p as [a|x|X f k|X e k|X g k]; simpl; [done|done| | |].
  - intros [-> [s ->]] Hs. by split.
  - intros (r & He & ->) Hs. by apply (Hs w r w').
  - intros [-> (s & x & Hx & ->)] Hs. split; [done|eauto].
Qed.

(** Programs of one kind. *)
Lemma interleaved_safe {S A} (arrives : prog E S A → Prop) ps w ps' w' :
  (∀ p w0, arrives p → G w w0 → J w0 → safe p w0 (λ _ _, True)) →
  J w → Forall (λ p, safe p w (λ _ _, True)) ps →
  rtc (istep any_step arrives) (ps, w) (ps', w') → G w w'.
Proof.
  apply (interleaved_fine any_step J G HJ (λ p w, safe p w (λ _ _, True))).
  - intros p a b. by apply safe_later.
  - intros p w1 p' w2. apply any_step_safe.
Qed.

(** ** Tasks: programs of processes of any kind, with what their process holds *)

Inductive task : Type :=
| Task (S A : Type) (s : S) (p : prog E S A).
#[local] Arguments Task {S A} s p.

Definition task_step (t : task) (w : W) (t' : task) (w' : W) : Prop :=
  match t with Task s p => ∃ s' p', t' = Task s' p' ∧ any_step p w p' w' end.
Definition task_safe (t : task) (w : W) : Prop :=
  match t with Task s p => safe p w (λ _ _, True) end.

Lemma interleaved_tasks_all (arrives : task → Prop) ts w ts' w' :
  (∀ t w0, arrives t → G w w0 → J w0 → task_safe t w0) → J w → Forall (λ t, task_safe t w) ts →
  rtc (istep task_step arrives) (ts, w) (ts', w') → G w w' ∧ J w' ∧ Forall (λ t, task_safe t w') ts'.
Proof.
  apply (interleaved_all task_step J G HJ task_safe).
  - intros [S A s p] a b. by apply safe_later.
  - intros [S A s p] w1 t' w2 HJ1 (s' & p' & -> & Hst). by apply any_step_safe.
Qed.

Lemma interleaved_tasks (arrives : task → Prop) ts w ts' w' :
  (∀ t w0, arrives t → G w w0 → J w0 → task_safe t w0) → J w → Forall (λ t, task_safe t w) ts →
  rtc (istep task_step arrives) (ts, w) (ts', w') → G w w'.
Proof. intros Harr HJw Hts Hsteps. by destruct (interleaved_tasks_all arrives ts w ts' w' Harr HJw Hts Hsteps). Qed.
End interleave.
Arguments task E : clear implicits.
Arguments Task {E S A} s p.

(** ** Schedules *)

(** One move of a schedule: a program arrives, or program [i] makes a step. *)
Inductive move (P : Type) := Arrives (p : P) | Moves (i : nat).
Arguments Arrives {P} p.
Arguments Moves {P} i.

Section schedule.
Context {E : Type → Type} {S W A : Type} (h : handler E W) (check : W → W → bool) (s : S).

Definition run_any (p : prog E S A) (w : W) : option (prog E S A * W) :=
  match p with
  | Ret _ | Throw _ => None
  | St f k => Some (k (f s).1, w)
  | Do e k => if check w (h _ e w).2 then Some (k (h _ e w).1, (h _ e w).2) else None
  | Wait g k => (λ x, (k x, w)) <$> g s
  end.

Fixpoint run_moves (moves : list (move (prog E S A))) (st : list (prog E S A) * W) : option (list (prog E S A) * W) :=
  match moves with
  | [] => Some st
  | Arrives p :: moves' => run_moves moves' (st.1 ++ [p], st.2)
  | Moves i :: moves' =>
      p ← st.1 !! i;
      r ← run_any p st.2;
      run_moves moves' (<[i := r.1]> st.1, r.2)
  end.

Lemma run_moves_steps (env : Env E W) (arrives : prog E S A → Prop) moves st st' :
  (∀ X (e : E X) w, check w (h X e w).2 = true → env X e w (h X e w).1 (h X e w).2) →
  (∀ p, Arrives p ∈ moves → arrives p) →
  run_moves moves st = Some st' → rtc (istep (any_step env) arrives) st st'.
Proof.
  intros Henv. revert st. induction moves as [|[p|i] moves IH]; intros [ps w] Harr Hrun; simpl in Hrun.
  - by injection Hrun as <-.
  - eapply rtc_l; [apply istep_arrive, Harr, list_elem_of_here|]. apply IH; [|done]. intros q Hq. by apply Harr, list_elem_of_further.
  - apply bind_Some in Hrun as (p & Hp & Hrun). apply bind_Some in Hrun as ([p' w'] & Hr & Hrun).
    eapply rtc_l; [|apply IH; [intros q Hq; by apply Harr, list_elem_of_further|exact Hrun]]. eapply istep_run; [exact Hp|].
    destruct p as [a|x|X f k|X e k|X g k]; simpl in *; try done.
    + injection Hr as <- <-. split; [done|]. by exists s.
    + destruct (check w (h X e w).2) eqn:Hc; [|done]. injection Hr as <- <-. eexists. split; [by apply Henv|done].
    + destruct (g s) as [x|] eqn:Hg; [|done]. injection Hr as <- <-. split; [done|]. by exists s, x.
Qed.
End schedule.

(** The same for tasks, each with its own state. *)
Section task_schedule.
Context {E : Type → Type} {W : Type} (h : handler E W) (check : W → W → bool).

Definition run_task (t : task E) (w : W) : option (task E * W) :=
  match t with
  | Task s p =>
      match p with
      | Ret _ | Throw _ => None
      | St f k => Some (Task (f s).2 (k (f s).1), w)
      | Do e k => if check w (h _ e w).2 then Some (Task s (k (h _ e w).1), (h _ e w).2) else None
      | Wait g k => match g s with Some x => Some (Task s (k x), w) | None => None end
      end
  end.

Fixpoint run_tasks (moves : list (move (task E))) (st : list (task E) * W) : option (list (task E) * W) :=
  match moves with
  | [] => Some st
  | Arrives t :: moves' => run_tasks moves' (st.1 ++ [t], st.2)
  | Moves i :: moves' =>
      match st.1 !! i with
      | Some t => match run_task t st.2 with
                  | Some (t', w') => run_tasks moves' (<[i := t']> st.1, w')
                  | None => None
                  end
      | None => None
      end
  end.

Lemma run_tasks_steps (env : Env E W) (arrives : task E → Prop) moves st st' :
  (∀ X (e : E X) w, check w (h X e w).2 = true → env X e w (h X e w).1 (h X e w).2) →
  (∀ t, Arrives t ∈ moves → arrives t) →
  run_tasks moves st = Some st' → rtc (istep (task_step env) arrives) st st'.
Proof.
  intros Henv. revert st. induction moves as [|[t|i] moves IH]; intros [ts w] Harr Hrun; simpl in Hrun.
  - by injection Hrun as <-.
  - eapply rtc_l; [apply istep_arrive, Harr, list_elem_of_here|]. apply IH; [|done]. intros q Hq. by apply Harr, list_elem_of_further.
  - destruct (ts !! i) as [t|] eqn:Ht; [|done]. destruct (run_task t w) as [[t' w']|] eqn:Hr; [|done].
    eapply rtc_l; [|apply IH; [intros q Hq; by apply Harr, list_elem_of_further|exact Hrun]]. eapply istep_run; [exact Ht|].
    destruct t as [S A s [a|x|X f k|X e k|X g k]]; simpl in *; try done.
    + injection Hr as <- <-. eexists _, _. split; [reflexivity|]. split; [done|]. by exists s.
    + destruct (check w (h X e w).2) eqn:Hc; [|done]. injection Hr as <- <-. eexists _, _. split; [reflexivity|].
      eexists. split; [by apply Henv|done].
    + destruct (g s) as [x|] eqn:Hg; [|done]. injection Hr as <- <-. eexists _, _. split; [reflexivity|]. split; [done|]. by exists s, x.
Qed.
End task_schedule.
