(* ===== verification/Services.v ===== *)
(** * The services the platform calls

    The rows of [prisma/schema.prisma] and one event family per service: Prisma
    ([db_eff]), Redis ([redis_eff]), the file system and child processes, the
    AWS clients, the Node and Nest libraries.  An event carries the arguments
    the source passes; what it answers is up to the environment. *)

From Stdlib Require Import QArith.
From S2P Require Import Prelude Json Prog.
#[local] Close Scope Q_scope.
#[local] Open Scope Z_scope.

(** ** Rows (prisma/schema.prisma) *)

Record User := {
  user_id : string; user_email : string; user_passwordHash : string; user_createdAt : Z }.

Record ApiKey := {
  key_id : string; key_userId : string; key_keyHash : string; key_name : string;
  key_scopes : list string; key_lastUsedAt : option Z; key_revokedAt : option Z;
  key_createdAt : Z }.

Record FunctionRecord := {
  fn_id : string; fn_userId : string; fn_name : string;
  fn_memoryMb : Z; fn_timeoutMs : Z; fn_createdAt : Z }.

Record FunctionVersion := {
  ver_id : string; ver_functionId : string; ver_versionNumber : Z;
  ver_imageTag : string; ver_createdAt : Z }.

(** [Build.status] is a plain string column; these are the values written. *)
Inductive BuildStatus := PENDING | SUCCESS | FAILED.

Record Build := {
  build_id : string; build_functionId : string; build_sourceObjectKey : string;
  build_status : BuildStatus; build_imageTag : option string;
  build_errorMessage : option string; build_createdAt : Z;
  build_startedAt : option Z; build_finishedAt : option Z; build_publishedToStreamAt : option Z }.

Inductive InvocationStatus := INV_SUCCESS | INV_ERROR | INV_TIMEOUT | INV_NO_WORKER.

Record Invocation := {
  inv_id : string; inv_functionId : string; inv_versionId : option string;
  inv_requestId : string; inv_status : InvocationStatus; inv_coldStart : bool;
  inv_durationMs : Z; inv_errorMessage : option string; inv_createdAt : Z }.

#[export] Instance BuildStatus_eq_dec : EqDecision BuildStatus.
Proof. solve_decision. Defined.
#[export] Instance InvocationStatus_eq_dec : EqDecision InvocationStatus.
Proof. solve_decision. Defined.
#[export] Instance FunctionRecord_eq_dec : EqDecision FunctionRecord.
Proof. solve_decision. Defined.
#[export] Instance FunctionVersion_eq_dec : EqDecision FunctionVersion.
Proof. solve_decision. Defined.
#[export] Instance Build_eq_dec : EqDecision Build.
Proof. solve_decision. Defined.

(** The columns [listApiKeys] selects: everything but the hash. *)
Record ApiKeyView := {
  view_id : string; view_name : string; view_scopes : list string;
  view_lastUsedAt : option Z; view_revokedAt : option Z; view_createdAt : Z }.

(** The [data] of a [build.update]; an absent field is left alone. *)
Record BuildPatch := {
  patch_status : BuildStatus; patch_imageTag : option string;
  patch_errorMessage : option string; patch_finishedAt : Z }.

(** The row of the metrics query (functions.service.ts, getMetricsSummary). *)
Record MetricsRow (num : Type) := {
  row_total : Z; row_error_rate : option num;
  row_p50 : option num; row_p95 : option num; row_p99 : option num }.
Arguments row_total {num} _.
Arguments row_error_rate {num} _.
Arguments row_p50 {num} _.
Arguments row_p95 {num} _.
Arguments row_p99 {num} _.

(** ** PostgreSQL through Prisma *)

Inductive db_eff : Type → Type :=
| UserCreate (email passwordHash : string) : db_eff User
| UserFindUnique (email : string) : db_eff (option User)
| ApiKeyCreate (userId name : string) (scopes : list string) (keyHash : string) : db_eff ApiKey
| ApiKeyFindMany (userId : string) : db_eff (list ApiKeyView)
| ApiKeyFindById (id : string) : db_eff (option ApiKey)
| ApiKeyFindByHash (keyHash : string) : db_eff (option ApiKey)
| ApiKeySetRevokedAt (id : string) (at_ : Z) : db_eff ApiKey
| ApiKeySetLastUsedAt (id : string) (at_ : Z) : db_eff ApiKey
| FunctionCreate (userId name : string) (memoryMb timeoutMs : Z) : db_eff FunctionRecord
| FunctionFindMany (userId : string) : db_eff (list FunctionRecord)
| FunctionFindUnique (userId name : string) : db_eff (option FunctionRecord)
| FunctionFindByIdOrThrow (id : string) : db_eff FunctionRecord
| FunctionDelete (userId name : string) : db_eff FunctionRecord
| VersionFindLatest (functionId : string) : db_eff (option FunctionVersion)
| VersionFindMany (functionId : string) : db_eff (list FunctionVersion)
| VersionCreate (functionId : string) (versionNumber : Z) (imageTag : string) : db_eff FunctionVersion
| BuildCreate (functionId sourceObjectKey : string) (status : BuildStatus) : db_eff Build
| BuildFindUnique (id : string) : db_eff (option Build)
| BuildFindUniqueOrThrow (id : string) : db_eff Build
| BuildUpdate (id : string) (data : BuildPatch) : db_eff Build
| InvocationCreate (functionId versionId requestId : string) (status : InvocationStatus)
    (durationMs : Z) (errorMessage : option string) : db_eff Invocation
| InvocationFindMany (functionId : string) (take : nat) : db_eff (list Invocation)
| MetricsQuery (functionId : string) : db_eff (list (MetricsRow Q))
(** [prisma.$transaction([a, b])] *)
| TransactionBatch {X Y} (a : db_eff X) (b : db_eff Y) : db_eff (X * Y)
(** The interactive transaction of the outbox relay. *)
| TxBegin : db_eff nat
| TxSelectPendingSkipLocked (tx limit : nat) : db_eff (list string)
| TxBuildSetPublished (tx : nat) (ids : list string) (at_ : Z) : db_eff nat
| TxCommit (tx : nat) : db_eff unit
| TxRollback (tx : nat) : db_eff unit.

(** ** Redis *)

(** An element of a raw [XINFO] reply. *)
Inductive xinfo_value := XText (s : string) | XNumber (n : Z) | XNil.

(** A minimum idle time of [None] is NaN. *)
Inductive redis_eff : Type → Type :=
| Hset (key field value : string) : redis_eff Z
| Hdel (key field : string) : redis_eff Z
| Hgetall (key : string) : redis_eff (list (string * string))
| Xadd (key : string) (fields : list string) : redis_eff string
| XgroupCreate (key group id : string) (mkstream : bool) : redis_eff unit
| Xreadgroup (group consumer : string) (count : nat) (blockMs : Z) (key : string) :
    redis_eff (option (list (string * list (string * list string))))
| Xautoclaim (key group consumer : string) (minIdleMs : option Z) (start : string) :
    redis_eff (string * list (string * list string))
| XpendingIdle (key group : string) (minIdleMs : option Z) (count : nat) :
    redis_eff (list (string * string * Z * Z))
| Xclaim (key group consumer : string) (minIdleMs : option Z) (id : string) :
    redis_eff (list (string * list string))
| Xack (key group id : string) : redis_eff Z
| Publish (channel message : string) : redis_eff Z
| Subscribe (channel : string) : redis_eff unit
| Unsubscribe (channel : string) : redis_eff unit
| XinfoGroups (key : string) : redis_eff (list (list xinfo_value)).

(** ** Object storage, CodeBuild, ECR *)

Inductive aws_eff : Type → Type :=
| S3CreateBucket (bucket : string) : aws_eff unit
| S3PutObject (bucket key body : string) : aws_eff unit
| S3GetObject (bucket key : string) : aws_eff (list string)
| CodeBuildStart (project : string) (env : list (string * string)) : aws_eff (option string)
| CodeBuildBatchGet (buildId : string) : aws_eff (option (option string))
| EcrGetAuthorizationToken : aws_eff (option string).

(** ** Child processes and timers *)

(** A callback of a spawned process ([proc.stderr.on('data')], [proc.on('close')])
    or of the timer armed beside it.  The exit code is [null] ([None]) for a
    process Node saw killed by a signal. *)
Inductive process_event := StderrData (chunk : string) | TimerFired | Close (exitCode : option Z).

Inductive os_eff : Type → Type :=
(** [spawn(command, args)] with the text written to stdin, and a [setTimeout]
    armed beside it: the callbacks, in the order the event loop runs them. *)
| Spawn (command : string) (args : list string) (stdin : option string) (timerMs : option Z) : os_eff (list process_event)
| SetTimeoutMs (ms : Z) : os_eff unit.

(** ** Synchronous calls of Node, which may throw: the file system, an
    unobserved [spawn] *)

Inductive fs_eff : Type → Type :=
| MkdtempSync (prefix : string) : fs_eff string
| MkdirSync (path : string) : fs_eff unit
| ChmodSync (path : string) (mode : Z) : fs_eff unit
| WriteFileSync (path content : string) : fs_eff unit
| ExistsSync (path : string) : fs_eff bool
| ReadFileSync (path : string) : fs_eff string
| RmSync (path : string) : fs_eff unit
(** [spawn(command, args)] whose process nothing observes. *)
| SpawnDetached (command : string) (args : list string) : fs_eff unit.

(** ** Libraries *)

Record JwtPayload := { jwt_sub : string; jwt_scopes : list string }.

Inductive lib_eff : Type → Type :=
| BcryptHash (password : string) (rounds : Z) : lib_eff string
| BcryptCompare (password hash : string) : lib_eff bool
| JwtSign (payload : JwtPayload) : lib_eff string
| JwtVerify (token : string) : lib_eff JwtPayload.

(** ** Calls that cannot fail: clock, randomness, logs, in-process metrics *)

Inductive sys_eff : Type → Type :=
| DateNow : sys_eff Z
| RandomUUID : sys_eff string
| RandomBytesHex (n : nat) : sys_eff string
| ProcessEnv (name : string) : sys_eff (option string)
| Log (level message : string) : sys_eff unit
| GaugeSet (name : string) (v : Z) : sys_eff unit
| CounterInc (name : string) (status : option json) : sys_eff unit
| HistogramObserve (name : string) (v : option json) : sys_eff unit
| MetricsText : sys_eff string.

(** ** All events *)

Inductive ev : Type → Type :=
| Db {X} (e : db_eff X) : ev (outcome X)
| Redis {X} (e : redis_eff X) : ev (outcome X)
| Aws {X} (e : aws_eff X) : ev (outcome X)
| Os {X} (e : os_eff X) : ev (outcome X)
| Fs {X} (e : fs_eff X) : ev (outcome X)
| Lib {X} (e : lib_eff X) : ev (outcome X)
| Sys {X} (e : sys_eff X) : ev X.

(** File-system and [sys] calls are synchronous; every other call is awaited. *)
#[export] Instance ev_events : Events ev :=
  λ X e, match e with Fs _ | Sys _ => false | _ => true end.

Notation entry := (entry ev).

Definition db {S X} (e : db_eff X) : prog ev S X := call (Db e).
Definition redis {S X} (e : redis_eff X) : prog ev S X := call (Redis e).
Definition aws {S X} (e : aws_eff X) : prog ev S X := call (Aws e).
Definition os {S X} (e : os_eff X) : prog ev S X := call (Os e).
Definition fs {S X} (e : fs_eff X) : prog ev S X := call (Fs e).
Definition lib {S X} (e : lib_eff X) : prog ev S X := call (Lib e).
Definition sys {S X} (e : sys_eff X) : prog ev S X := ask (Sys e).

(** A call whose promise is not awaited and whose rejection is ignored:
    [p.catch(() => {})]. *)
Definition fire_and_forget {S X} (e : ev (outcome X)) : prog ev S unit := Do e (λ _, Ret tt).
