(* ===== verification/Percentile.v ===== *)
(** * The metrics query (functions.service.ts, [getMetricsSummary])

    The SQL aggregate of the rolling-window summary: [count], the error rate
    and three [percentile_cont] columns, over exact rationals (PostgreSQL
    computes them in double precision). *)

From S2P Require Import Prelude Json Prog Services.
From Stdlib Require Import QArith Qround Lqa.
#[local] Close Scope Q_scope.
#[local] Open Scope Z_scope.

(** [percentile_cont(p) WITHIN GROUP (ORDER BY v)] on the ordered values:
    linear interpolation at row [p * (n - 1)]; NULL on no rows. *)
Definition interpolate (l : list Z) (x : Q) : Q :=
  let lo := nth (Z.to_nat (Qfloor x)) l 0 in
  let hi := nth (Z.to_nat (Qceiling x)) l 0 in
  (inject_Z lo + (x - inject_Z (Qfloor x)) * (inject_Z hi - inject_Z lo))%Q.

Definition percentile_cont (p : Q) (l : list Z) : option Q :=
  match l with
  | [] => None
  | _ => Some (interpolate l (p * inject_Z (Z.of_nat (length l) - 1)))%Q
  end.

(** [count(*) FILTER (WHERE status != 'SUCCESS') ::float / NULLIF(count( *), 0)] *)
Definition error_rate (sts : list InvocationStatus) : option Q :=
  match sts with
  | [] => None
  | _ => Some (inject_Z (Z.of_nat (length (filter (λ s, s ≠ INV_SUCCESS) sts)))
               / inject_Z (Z.of_nat (length sts)))%Q
  end.

(** The aggregate of the rows the [WHERE] clause keeps. *)
Definition metrics_row (rows : list Invocation) : MetricsRow Q :=
  let ds := merge_sort Z.le (inv_durationMs <$> rows) in
  {| row_total := Z.of_nat (length rows);
     row_error_rate := error_rate (inv_status <$> rows);
     row_p50 := percentile_cont (50 # 100) ds;
     row_p95 := percentile_cont (95 # 100) ds;
     row_p99 := percentile_cont (99 # 100) ds |}.

(** [WHERE function_id = $1 AND created_at > now() - interval '1 hour'] *)
Definition window_ms : Z := 3600000.
Definition in_window (now : Z) (functionId : string) (i : Invocation) : bool :=
  bool_decide (inv_functionId i = functionId) && (now - window_ms <? inv_createdAt i).

Definition metrics_query (now : Z) (functionId : string) (invs : list Invocation) : list (MetricsRow Q) :=
  [metrics_row (List.filter (in_window now functionId) invs)].

(** ** Interpolation on an ordered list *)

Section interpolation.
Context (l : list Z) (Hl : StronglySorted Z.le l).

Lemma nth_mono i j : (i ≤ j)%nat → (j < length l)%nat → nth i l 0 ≤ nth j l 0.
Proof.
  clear -Hl. revert i j. induction Hl as [|a l' Hs IH Hall]; intros i j Hij Hj; simpl in *; [lia|].
  destruct i, j; simpl; try lia.
  - rewrite Forall_forall in Hall. apply Hall. apply list_elem_of_In, nth_In. lia.
  - apply IH; [done|lia|lia].
Qed.

Lemma Qceiling_cases x : Qceiling x = Qfloor x ∨ Qceiling x = Qfloor x + 1.
Proof.
  pose proof (Qle_ceiling x) as H1. pose proof (Qceiling_lt x) as H2.
  pose proof (Qfloor_le x) as H3. pose proof (Qlt_floor x) as H4.
  assert (Qfloor x ≤ Qceiling x) as Ha.
  { rewrite Zle_Qle. lra. }
  assert (Qceiling x - 1 < Qfloor x + 1) as Hb.
  { rewrite Zlt_Qlt. lra. }
  lia.
Qed.

(** The interpolated value lies between its two rows. *)
Lemma interpolate_bounds x :
  (0 <= x)%Q → (Qceiling x < Z.of_nat (length l)) →
  (inject_Z (nth (Z.to_nat (Qfloor x)) l 0%Z) <= interpolate l x)%Q ∧
  (interpolate l x <= inject_Z (nth (Z.to_nat (Qceiling x)) l 0%Z))%Q.
Proof.
  intros H0 Hlen. unfold interpolate.
  pose proof (Qfloor_le x) as H3. pose proof (Qlt_floor x) as H4.
  rewrite inject_Z_plus in H4. change (inject_Z 1) with 1%Q in H4.
  assert (0 ≤ Qfloor x) as Hf. { apply (Qfloor_resp_le 0%Q x H0). }
  pose proof (Qceiling_cases x) as Hc.
  assert (nth (Z.to_nat (Qfloor x)) l 0 ≤ nth (Z.to_nat (Qceiling x)) l 0) as Hle.
  { apply nth_mono; lia. }
  rewrite Zle_Qle in Hle. split; nra.
Qed.

Lemma interpolate_mono x y :
  (0 <= x)%Q → (x <= y)%Q → Qceiling y < Z.of_nat (length l) →
  (interpolate l x <= interpolate l y)%Q.
Proof.
  intros H0 Hxy Hlen.
  pose proof (Qfloor_resp_le _ _ Hxy) as Hff. pose proof (Qceiling_resp_le _ _ Hxy) as Hcc.
  assert (0 ≤ Qfloor x) as Hf. { apply (Qfloor_resp_le 0%Q x H0). }
  assert (0 <= y)%Q as H0y by lra.
  pose proof (Qceiling_cases x) as Hcx. pose proof (Qceiling_cases y) as Hcy.
  destruct (interpolate_bounds x H0 ltac:(lia)) as [_ Hx].
  destruct (interpolate_bounds y H0y Hlen) as [Hy _].
  destruct (decide (Qceiling x ≤ Qfloor y)) as [Hle|Hgt].
  - assert (nth (Z.to_nat (Qceiling x)) l 0 ≤ nth (Z.to_nat (Qfloor y)) l 0) as Hn.
    { apply nth_mono; lia. }
    rewrite Zle_Qle in Hn. lra.
  - assert (Qfloor x = Qfloor y) as Heq by lia.
    assert (Qceiling x = Qceiling y) as Heqc by lia.
    unfold interpolate. rewrite <- Heq, <- Heqc.
    assert (nth (Z.to_nat (Qfloor x)) l 0 ≤ nth (Z.to_nat (Qceiling x)) l 0) as Hn.
    { apply nth_mono; lia. }
    rewrite Zle_Qle in Hn. nra.
Qed.

Lemma percentile_row p :
  (0 <= p)%Q → (p <= 1)%Q → l ≠ [] →
  (0 <= p * inject_Z (Z.of_nat (length l) - 1))%Q ∧
  Qceiling (p * inject_Z (Z.of_nat (length l) - 1)) < Z.of_nat (length l).
Proof.
  clear Hl. intros Hp0 Hp1 Hne. assert (1 ≤ Z.of_nat (length l)) as Hlen.
  { destruct l; simpl; [done|lia]. }
  assert (0 <= inject_Z (Z.of_nat (length l) - 1))%Q as Hq.
  { change 0%Q with (inject_Z 0). rewrite <- Zle_Qle. lia. }
  split; [nra|].
  assert (p * inject_Z (Z.of_nat (length l) - 1) <= inject_Z (Z.of_nat (length l) - 1))%Q as Hb by nra.
  pose proof (Qceiling_resp_le _ _ Hb) as Hc. rewrite Qceiling_Z in Hc. lia.
Qed.
End interpolation.

Lemma merge_sort_le_sorted (l : list Z) : StronglySorted Z.le (merge_sort Z.le l).
Proof. apply Sorted_StronglySorted; [intros ???; lia|]. apply Sorted_merge_sort. intros ??; lia. Qed.

Lemma merge_sort_nil (l : list Z) : merge_sort Z.le l = [] ↔ l = [].
Proof.
  split; [|by intros ->]. intros H. pose proof (merge_sort_Permutation Z.le l) as Hp.
  rewrite H in Hp. by apply Permutation_nil in Hp.
Qed.

(** The three latency columns are ordered, and bounded by any bounds of the
    durations. *)
Lemma percentile_cont_mono p q l vp vq :
  StronglySorted Z.le l → (0 <= p)%Q → (p <= q)%Q → (q <= 1)%Q →
  percentile_cont p l = Some vp → percentile_cont q l = Some vq → (vp <= vq)%Q.
Proof.
  intros Hs Hp Hpq Hq. unfold percentile_cont. destruct l as [|a l']; [done|].
  remember (a :: l') as l. intros [= <-] [= <-]. assert (l ≠ []) as Hne by (by subst).
  destruct (percentile_row l q) as [Hq0 Hqc]; [lra|done|done|].
  destruct (percentile_row l p) as [Hp0 Hpc]; [done|lra|done|].
  apply interpolate_mono; try done.
  assert (0 <= inject_Z (Z.of_nat (length l) - 1))%Q as Hn.
  { change 0%Q with (inject_Z 0). rewrite <- Zle_Qle. subst; simpl; lia. }
  nra.
Qed.

Lemma percentile_cont_bounds p l v lo hi :
  StronglySorted Z.le l → (0 <= p)%Q → (p <= 1)%Q →
  (∀ d, d ∈ l → lo ≤ d ≤ hi) →
  percentile_cont p l = Some v → (inject_Z lo <= v)%Q ∧ (v <= inject_Z hi)%Q.
Proof.
  intros Hs Hp Hq Hb. unfold percentile_cont. destruct l as [|a l']; [done|].
  remember (a :: l') as l. intros [= <-]. assert (l ≠ []) as Hne by (by subst).
  destruct (percentile_row l p) as [Hp0 Hpc]; [done|done|done|].
  destruct (interpolate_bounds l Hs _ Hp0 Hpc) as [H1 H2].
  set (x := (p * inject_Z (Z.of_nat (length l) - 1))%Q) in *.
  assert (0 ≤ Qfloor x) as Hf. { apply (Qfloor_resp_le 0%Q x Hp0). }
  pose proof (Qceiling_cases x) as Hc.
  assert (∀ i, (i < length l)%nat → lo ≤ nth i l 0 ≤ hi) as Hn.
  { intros i Hi. apply Hb, list_elem_of_In, nth_In. done. }
  destruct (Hn (Z.to_nat (Qfloor x))) as [Hlo _]; [lia|].
  destruct (Hn (Z.to_nat (Qceiling x))) as [_ Hhi]; [lia|].
  rewrite Zle_Qle in Hlo, Hhi. lra.
Qed.

Lemma error_rate_bounds sts e :
  error_rate sts = Some e → (0 <= e)%Q ∧ (e <= 1)%Q.
Proof.
  unfold error_rate. destruct sts as [|s sts']; [done|]. remember (s :: sts') as l.
  intros [= <-]. pose proof (length_filter (λ s, s ≠ INV_SUCCESS) l) as Hle.
  assert (0 < inject_Z (Z.of_nat (length l)))%Q as Hpos.
  { change 0%Q with (inject_Z 0). rewrite <- Zlt_Qlt. subst; simpl; lia. }
  assert (inject_Z (Z.of_nat (length (filter (λ s, s ≠ INV_SUCCESS) l))) <= inject_Z (Z.of_nat (length l)))%Q as Hl.
  { rewrite <- Zle_Qle. lia. }
  assert (0 <= inject_Z (Z.of_nat (length (filter (λ s, s ≠ INV_SUCCESS) l))))%Q as H0.
  { change 0%Q with (inject_Z 0). rewrite <- Zle_Qle. lia. }
  split.
  - apply Qle_shift_div_l; lra.
  - apply Qle_shift_div_r; lra.
Qed.

Lemma length_filter_fmap {A B} (f : A → B) (P : B → Prop) `{∀ x, Decision (P x)} (l : list A) :
  length (filter P (f <$> l)) = length (filter (λ x, P (f x)) l).
Proof.
  induction l as [|x l IH]; [done|]. rewrite fmap_cons, !filter_cons.
  destruct (decide (P (f x))); simpl; by rewrite IH.
Qed.

(** What the row of the aggregate says about the rows it aggregates. *)
Lemma metrics_row_spec (rows : list Invocation) :
  let m := metrics_row rows in
  match rows with
  | [] => default 0%Q (row_error_rate m) = 0%Q ∧ row_p50 m = None ∧ row_p95 m = None ∧ row_p99 m = None
  | _ => (default 0 (row_error_rate m) == inject_Z (Z.of_nat (length (filter (λ i, inv_status i ≠ INV_SUCCESS) rows))) /
                           inject_Z (Z.of_nat (length rows)))%Q ∧
      (0 <= default 0 (row_error_rate m))%Q ∧ (default 0 (row_error_rate m) <= 1)%Q ∧
      ∃ p50 p95 p99, row_p50 m = Some p50 ∧ row_p95 m = Some p95 ∧ row_p99 m = Some p99 ∧
        (p50 <= p95)%Q ∧ (p95 <= p99)%Q ∧
        ∀ lo hi, (∀ i, i ∈ rows → lo ≤ inv_durationMs i ≤ hi) → (inject_Z lo <= p50)%Q ∧ (p99 <= inject_Z hi)%Q
  end.
Proof.
  destruct rows as [|i0 rows0]; [done|]. remember (i0 :: rows0) as rows eqn:Hrows.
  set (m := metrics_row rows). cbn zeta.
  assert (∃ e, row_error_rate m = Some e ∧ e = (inject_Z (Z.of_nat (length (filter (λ i, inv_status i ≠ INV_SUCCESS) rows))) /
                           inject_Z (Z.of_nat (length rows)))%Q) as (e & He & Heq).
  { unfold m, metrics_row. simpl. subst rows. simpl fmap. unfold error_rate. eexists. split; [reflexivity|].
    rewrite <- (fmap_cons inv_status), length_fmap, length_filter_fmap. done. }
  set (ds := merge_sort Z.le (inv_durationMs <$> rows)).
  assert (ds ≠ []) as Hds by (unfold ds; rewrite merge_sort_nil; by subst).
  assert (∀ p, ∃ v, percentile_cont p ds = Some v) as Hpc by (intros p; destruct ds; [done|]; eexists; reflexivity).
  pose proof (merge_sort_le_sorted (inv_durationMs <$> rows)) as Hs. fold ds in Hs.
  destruct (Hpc (50 # 100)%Q) as [p50 H50], (Hpc (95 # 100)%Q) as [p95 H95], (Hpc (99 # 100)%Q) as [p99 H99].
  rewrite Hrows. rewrite <- Hrows. rewrite He. simpl.
  destruct (error_rate_bounds _ _ He) as [? ?].
  split; [by rewrite Heq|]. split; [done|]. split; [done|].
  exists p50, p95, p99. split_and!; [done..| | |].
  - eapply (percentile_cont_mono (50 # 100) (95 # 100) ds); [done|lra|lra|lra|done|done].
  - eapply (percentile_cont_mono (95 # 100) (99 # 100) ds); [done|lra|lra|lra|done|done].
  - intros lo hi Hb.
    assert (∀ d, d ∈ ds → lo ≤ d ≤ hi) as Hd.
    { intros d. unfold ds. rewrite merge_sort_Permutation. intros (i & -> & Hi)%list_elem_of_fmap. auto. }
    split.
    + by eapply (percentile_cont_bounds (50 # 100) ds); [done|lra|lra|done|done].
    + by eapply (percentile_cont_bounds (99 # 100) ds); [done|lra|lra|done|done].
Qed.
