(* ===== verification/Database.v ===== *)
(** * The relational schema and the contract of the database

    [tables] are the tables of [prisma/schema.prisma]; [db_ref] is the
    documented effect of each Prisma call of the source on them (unique
    constraints answer P2002, a missing foreign key P2003, a missing record
    P2025; deletes cascade as the migrations declare).  [DbEnv] states that an
    environment answers database calls this way, or fails without effect: it is
    the only hypothesis the theorems make about PostgreSQL.  [mem_db] is an
    in-memory environment that satisfies it. *)

From S2P Require Import Prelude Json Prog Services Percentile.
From Stdlib Require Import QArith Ascii.
#[local] Close Scope Q_scope.
#[local] Open Scope Z_scope.

(** An open interactive transaction: the builds it holds row locks on, and the
    [published_to_stream_at] values it has written but not committed. *)
Record Tx := { tx_id : nat; tx_locked : list string; tx_writes : list (string * Z) }.

Record tables := {
  t_users : list User; t_keys : list ApiKey; t_functions : list FunctionRecord;
  t_versions : list FunctionVersion; t_builds : list Build;
  t_invocations : list Invocation; t_txs : list Tx; t_next_tx : nat }.

Definition empty_tables : tables :=
  {| t_users := []; t_keys := []; t_functions := []; t_versions := []; t_builds := [];
     t_invocations := []; t_txs := []; t_next_tx := 0 |}.

Definition set_users l (t : tables) := {| t_users := l; t_keys := t_keys t; t_functions := t_functions t; t_versions := t_versions t; t_builds := t_builds t; t_invocations := t_invocations t; t_txs := t_txs t; t_next_tx := t_next_tx t |}.
Definition set_keys l (t : tables) := {| t_users := t_users t; t_keys := l; t_functions := t_functions t; t_versions := t_versions t; t_builds := t_builds t; t_invocations := t_invocations t; t_txs := t_txs t; t_next_tx := t_next_tx t |}.
Definition set_functions l (t : tables) := {| t_users := t_users t; t_keys := t_keys t; t_functions := l; t_versions := t_versions t; t_builds := t_builds t; t_invocations := t_invocations t; t_txs := t_txs t; t_next_tx := t_next_tx t |}.
Definition set_versions l (t : tables) := {| t_users := t_users t; t_keys := t_keys t; t_functions := t_functions t; t_versions := l; t_builds := t_builds t; t_invocations := t_invocations t; t_txs := t_txs t; t_next_tx := t_next_tx t |}.
Definition set_builds l (t : tables) := {| t_users := t_users t; t_keys := t_keys t; t_functions := t_functions t; t_versions := t_versions t; t_builds := l; t_invocations := t_invocations t; t_txs := t_txs t; t_next_tx := t_next_tx t |}.
Definition set_invocations l (t : tables) := {| t_users := t_users t; t_keys := t_keys t; t_functions := t_functions t; t_versions := t_versions t; t_builds := t_builds t; t_invocations := l; t_txs := t_txs t; t_next_tx := t_next_tx t |}.
Definition set_txs l n (t : tables) := {| t_users := t_users t; t_keys := t_keys t; t_functions := t_functions t; t_versions := t_versions t; t_builds := t_builds t; t_invocations := t_invocations t; t_txs := l; t_next_tx := n |}.

(** ** Lookups *)

Definition find_user_by_email email t := List.find (λ u, bool_decide (user_email u = email)) (t_users t).
Definition find_key_by_id id t := List.find (λ k, bool_decide (key_id k = id)) (t_keys t).
Definition find_key_by_hash h t := List.find (λ k, bool_decide (key_keyHash k = h)) (t_keys t).
Definition owns userId name (f : FunctionRecord) : bool :=
  bool_decide (fn_userId f = userId) && bool_decide (fn_name f = name).
Definition find_function userId name t := List.find (owns userId name) (t_functions t).
Definition find_function_by_id id t := List.find (λ f, bool_decide (fn_id f = id)) (t_functions t).
Definition find_build id t := List.find (λ b, bool_decide (build_id b = id)) (t_builds t).
Definition versions_of fid t := List.filter (λ v, bool_decide (ver_functionId v = fid)) (t_versions t).
Definition has_version fid n t :=
  existsb (λ v, bool_decide (ver_functionId v = fid) && bool_decide (ver_versionNumber v = n)) (t_versions t).

(** [ORDER BY version_number DESC LIMIT 1] *)
Fixpoint latest (vs : list FunctionVersion) : option FunctionVersion :=
  match vs with
  | [] => None
  | v :: vs' => match latest vs' with
                | Some w => Some (if ver_versionNumber v <? ver_versionNumber w then w else v)
                | None => Some v
                end
  end.

Definition view_of (k : ApiKey) : ApiKeyView :=
  {| view_id := key_id k; view_name := key_name k; view_scopes := key_scopes k;
     view_lastUsedAt := key_lastUsedAt k; view_revokedAt := key_revokedAt k;
     view_createdAt := key_createdAt k |}.

(** ** Row updates *)

Definition update_where {A} (P : A → bool) (f : A → A) (l : list A) : list A :=
  map (λ x, if P x then f x else x) l.

Definition set_revokedAt (at_ : Z) (k : ApiKey) : ApiKey :=
  {| key_id := key_id k; key_userId := key_userId k; key_keyHash := key_keyHash k;
     key_name := key_name k; key_scopes := key_scopes k; key_lastUsedAt := key_lastUsedAt k;
     key_revokedAt := Some at_; key_createdAt := key_createdAt k |}.
Definition set_lastUsedAt (at_ : Z) (k : ApiKey) : ApiKey :=
  {| key_id := key_id k; key_userId := key_userId k; key_keyHash := key_keyHash k;
     key_name := key_name k; key_scopes := key_scopes k; key_lastUsedAt := Some at_;
     key_revokedAt := key_revokedAt k; key_createdAt := key_createdAt k |}.
Definition patch_build (p : BuildPatch) (b : Build) : Build :=
  {| build_id := build_id b; build_functionId := build_functionId b;
     build_sourceObjectKey := build_sourceObjectKey b; build_status := patch_status p;
     build_imageTag := match patch_imageTag p with Some x => Some x | None => build_imageTag b end;
     build_errorMessage := match patch_errorMessage p with Some x => Some x | None => build_errorMessage b end;
     build_createdAt := build_createdAt b; build_startedAt := build_startedAt b;
     build_finishedAt := Some (patch_finishedAt p);
     build_publishedToStreamAt := build_publishedToStreamAt b |}.
Definition publish_build (at_ : Z) (b : Build) : Build :=
  {| build_id := build_id b; build_functionId := build_functionId b;
     build_sourceObjectKey := build_sourceObjectKey b; build_status := build_status b;
     build_imageTag := build_imageTag b; build_errorMessage := build_errorMessage b;
     build_createdAt := build_createdAt b; build_startedAt := build_startedAt b;
     build_finishedAt := build_finishedAt b;
     build_publishedToStreamAt := Some at_ |}.
(** [onDelete: SetNull] of Invocation.version is never reached without the
    function's own cascade, which deletes the invocation. *)
Definition delete_function_cascade (fid : string) (t : tables) : tables :=
  set_functions (List.filter (λ f, negb (bool_decide (fn_id f = fid))) (t_functions t))
  (set_versions (List.filter (λ v, negb (bool_decide (ver_functionId v = fid))) (t_versions t))
  (set_builds (List.filter (λ b, negb (bool_decide (build_functionId b = fid))) (t_builds t))
  (set_invocations (List.filter (λ i, negb (bool_decide (inv_functionId i = fid))) (t_invocations t)) t))).

(** ** The relay's transaction *)

Definition locked_by_others (tx : nat) (t : tables) : list string :=
  concat (map tx_locked (List.filter (λ x, negb (bool_decide (tx_id x = tx))) (t_txs t))).
Definition find_tx (tx : nat) (t : tables) : option Tx :=
  List.find (λ x, bool_decide (tx_id x = tx)) (t_txs t).
Definition claimable (tx : nat) (t : tables) (b : Build) : bool :=
  bool_decide (build_status b = PENDING) &&
  bool_decide (build_publishedToStreamAt b = None) &&
  negb (bool_decide (build_id b ∈ locked_by_others tx t)).
Definition older (a b : Build) : Prop := build_createdAt a ≤ build_createdAt b.
#[export] Instance older_dec : RelDecision older.
Proof. intros a b. unfold older. apply _. Defined.
(** [SELECT id ... ORDER BY created_at ASC LIMIT n FOR UPDATE SKIP LOCKED] *)
Definition select_claimable (tx limit : nat) (t : tables) : list string :=
  take limit (build_id <$> merge_sort older (List.filter (claimable tx t) (t_builds t))).
Definition commit_writes (ws : list (string * Z)) (bs : list Build) : list Build :=
  map (λ b, match List.find (λ w, bool_decide (w.1 = build_id b)) ws with
            | Some w => publish_build w.2 b | None => b end) bs.
Definition drop_tx (tx : nat) (t : tables) : list Tx :=
  List.filter (λ x, negb (bool_decide (tx_id x = tx))) (t_txs t).

Definition P2002 : exn := PrismaError "P2002" "Unique constraint failed".
Definition P2003 : exn := PrismaError "P2003" "Foreign key constraint failed".
Definition P2025 : exn := PrismaError "P2025" "Record not found".
Definition P2028 : exn := PrismaError "P2028" "Transaction not found".

(** ** The effect of each call

    [draw] is the uuid generator of the schema's [@default(uuid())] and [now] the
    database clock ([@default(now())]).  Rows with equal timestamps are listed
    in insertion order. *)

Definition mk_key id now userId name scopes h : ApiKey :=
  {| key_id := id; key_userId := userId; key_keyHash := h; key_name := name; key_scopes := scopes;
     key_lastUsedAt := None; key_revokedAt := None; key_createdAt := now |}.
Definition mk_function id now userId name mem tmo : FunctionRecord :=
  {| fn_id := id; fn_userId := userId; fn_name := name; fn_memoryMb := mem; fn_timeoutMs := tmo;
     fn_createdAt := now |}.
Definition mk_version id now fid n tag : FunctionVersion :=
  {| ver_id := id; ver_functionId := fid; ver_versionNumber := n; ver_imageTag := tag; ver_createdAt := now |}.
Definition mk_build id now fid key st : Build :=
  {| build_id := id; build_functionId := fid; build_sourceObjectKey := key; build_status := st;
     build_imageTag := None; build_errorMessage := None; build_createdAt := now;
     build_startedAt := None; build_finishedAt := None; build_publishedToStreamAt := None |}.
Definition mk_invocation id now fid vid rid st d msg : Invocation :=
  {| inv_id := id; inv_functionId := fid; inv_versionId := Some vid; inv_requestId := rid;
     inv_status := st; inv_coldStart := true; inv_durationMs := d; inv_errorMessage := msg;
     inv_createdAt := now |}.

(** Rows in the order of a timestamp column, ascending or descending. *)
Definition by_created {A} (c : A → Z) (a b : A) : Prop := c a ≤ c b.
Definition by_created_desc {A} (c : A → Z) (a b : A) : Prop := c b ≤ c a.
#[export] Instance by_created_dec {A} (c : A → Z) : RelDecision (by_created c).
Proof. intros a b. unfold by_created. apply _. Defined.
#[export] Instance by_created_desc_dec {A} (c : A → Z) : RelDecision (by_created_desc c).
Proof. intros a b. unfold by_created_desc. apply _. Defined.

Fixpoint db_ref (draw : tables → string) (now : Z) {X} (e : db_eff X) (t : tables) : outcome X * tables :=
  match e in db_eff X return outcome X * tables with
  | UserCreate email h =>
      match find_user_by_email email t with
      | Some _ => (Err P2002, t)
      | None => let u := {| user_id := draw t; user_email := email; user_passwordHash := h; user_createdAt := now |} in
                (Ok u, set_users (t_users t ++ [u]) t)
      end
  | UserFindUnique email => (Ok (find_user_by_email email t), t)
  | ApiKeyCreate userId name scopes h =>
      if existsb (λ u, bool_decide (user_id u = userId)) (t_users t) then
        match find_key_by_hash h t with
        | Some _ => (Err P2002, t)
        | None => let k := mk_key (draw t) now userId name scopes h in (Ok k, set_keys (t_keys t ++ [k]) t)
        end
      else (Err P2003, t)
  | ApiKeyFindMany userId =>
      (Ok (view_of <$> merge_sort (by_created key_createdAt)
             (List.filter (λ k, bool_decide (key_userId k = userId)) (t_keys t))), t)
  | ApiKeyFindById kid => (Ok (find_key_by_id kid t), t)
  | ApiKeyFindByHash h => (Ok (find_key_by_hash h t), t)
  | ApiKeySetRevokedAt kid at_ =>
      match find_key_by_id kid t with
      | Some k => (Ok (set_revokedAt at_ k),
                   set_keys (update_where (λ k, bool_decide (key_id k = kid)) (set_revokedAt at_) (t_keys t)) t)
      | None => (Err P2025, t)
      end
  | ApiKeySetLastUsedAt kid at_ =>
      match find_key_by_id kid t with
      | Some k => (Ok (set_lastUsedAt at_ k),
                   set_keys (update_where (λ k, bool_decide (key_id k = kid)) (set_lastUsedAt at_) (t_keys t)) t)
      | None => (Err P2025, t)
      end
  | FunctionCreate userId name mem tmo =>
      if existsb (λ u, bool_decide (user_id u = userId)) (t_users t) then
        match find_function userId name t with
        | Some _ => (Err P2002, t)
        | None => let f := mk_function (draw t) now userId name mem tmo in (Ok f, set_functions (t_functions t ++ [f]) t)
        end
      else (Err P2003, t)
  | FunctionFindMany userId =>
      (Ok (merge_sort (by_created fn_createdAt)
             (List.filter (λ f, bool_decide (fn_userId f = userId)) (t_functions t))), t)
  | FunctionFindUnique userId name => (Ok (find_function userId name t), t)
  | FunctionFindByIdOrThrow fid =>
      match find_function_by_id fid t with Some f => (Ok f, t) | None => (Err P2025, t) end
  | FunctionDelete userId name =>
      match find_function userId name t with
      | Some f => (Ok f, delete_function_cascade (fn_id f) t)
      | None => (Err P2025, t)
      end
  | VersionFindLatest fid => (Ok (latest (versions_of fid t)), t)
  | VersionFindMany fid =>
      (Ok (merge_sort (by_created ver_versionNumber) (versions_of fid t)), t)
  | VersionCreate fid n tag =>
      match find_function_by_id fid t with
      | None => (Err P2003, t)
      | Some _ => if has_version fid n t then (Err P2002, t)
                  else let v := mk_version (draw t) now fid n tag in (Ok v, set_versions (t_versions t ++ [v]) t)
      end
  | BuildCreate fid key st =>
      match find_function_by_id fid t with
      | None => (Err P2003, t)
      | Some _ => let b := mk_build (draw t) now fid key st in (Ok b, set_builds (t_builds t ++ [b]) t)
      end
  | BuildFindUnique bid => (Ok (find_build bid t), t)
  | BuildFindUniqueOrThrow bid =>
      match find_build bid t with Some b => (Ok b, t) | None => (Err P2025, t) end
  | BuildUpdate bid p =>
      match find_build bid t with
      | Some b => (Ok (patch_build p b),
                   set_builds (update_where (λ b, bool_decide (build_id b = bid)) (patch_build p) (t_builds t)) t)
      | None => (Err P2025, t)
      end
  | InvocationCreate fid vid rid st d msg =>
      match find_function_by_id fid t with
      | None => (Err P2003, t)
      | Some _ =>
          if existsb (λ i, bool_decide (inv_requestId i = rid)) (t_invocations t) then (Err P2002, t)
          else let i := mk_invocation (draw t) now fid vid rid st d msg in
               (Ok i, set_invocations (t_invocations t ++ [i]) t)
      end
  | InvocationFindMany fid n =>
      (Ok (take n (merge_sort (by_created_desc inv_createdAt)
             (List.filter (λ i, bool_decide (inv_functionId i = fid)) (t_invocations t)))), t)
  | MetricsQuery fid => (Ok (metrics_query now fid (t_invocations t)), t)
  | TransactionBatch a b =>
      match db_ref draw now a t with
      | (Ok x, t1) => match db_ref draw now b t1 with
                      | (Ok y, t2) => (Ok (x, y), t2)
                      | (Err z, _) => (Err z, t)
                      end
      | (Err z, _) => (Err z, t)
      end
  | TxBegin =>
      (Ok (t_next_tx t),
       set_txs ({| tx_id := t_next_tx t; tx_locked := []; tx_writes := [] |} :: t_txs t) (S (t_next_tx t)) t)
  | TxSelectPendingSkipLocked tx limit =>
      match find_tx tx t with
      | None => (Err P2028, t)
      | Some x => let ids := select_claimable tx limit t in
          (Ok ids, set_txs ({| tx_id := tx; tx_locked := tx_locked x ++ ids; tx_writes := tx_writes x |}
                            :: drop_tx tx t) (t_next_tx t) t)
      end
  | TxBuildSetPublished tx ids at_ =>
      match find_tx tx t with
      | None => (Err P2028, t)
      | Some x => (Ok (length ids),
          set_txs ({| tx_id := tx; tx_locked := tx_locked x ++ List.filter (λ i, negb (bool_decide (i ∈ tx_locked x))) ids;
                      tx_writes := tx_writes x ++ map (λ i, (i, at_)) ids |} :: drop_tx tx t) (t_next_tx t) t)
      end
  | TxCommit tx =>
      match find_tx tx t with
      | None => (Err P2028, t)
      | Some x => (Ok tt, set_builds (commit_writes (tx_writes x) (t_builds t)) (set_txs (drop_tx tx t) (t_next_tx t) t))
      end
  | TxRollback tx => (Ok tt, set_txs (drop_tx tx t) (t_next_tx t) t)
  end.

(** ** The contract *)

Definition ids_of (t : tables) : list string :=
  map user_id (t_users t) ++ map key_id (t_keys t) ++ map fn_id (t_functions t) ++
  map ver_id (t_versions t) ++ map build_id (t_builds t) ++ map inv_id (t_invocations t).

(** A failure of the connection, the pool or the server: anything but the
    three request errors whose meaning the source relies on. *)
Definition infra_failure (x : exn) : Prop :=
  match x with
  | PrismaError c _ => c ∉ ["P2002"; "P2003"; "P2025"]
  | HttpException _ _ => False
  | AwsError _ _ | JsError _ | JsValue _ => True
  end.

Definition db_spec {X} (e : db_eff X) (t : tables) (r : outcome X) (t' : tables) : Prop :=
  (∃ draw now, (∀ t, draw t ∉ ids_of t) ∧ db_ref draw now e t = (r, t')) ∨
  (∃ x, infra_failure x ∧ r = Err x ∧ t' = t).

(** [view] is the content of the tables in a world; calls to other services do
    not change it. *)
Class DbEnv {W} (env : Env ev W) (view : W → tables) := db_env :
  ∀ X (e : ev X) w r w', env X e w r w' →
    match e in ev X return X → Prop with
    | Db e' => λ r, db_spec e' (view w) r (view w')
    | _ => λ _, view w' = view w
    end r.

(** ** An in-memory database *)

(** A world for concrete executions: the tables, the Redis hashes, a clock that
    every call advances, and a counter for random draws. *)
Record mem := {
  mem_tables : tables; mem_hash : gmap (string * string) string; mem_clock : Z; mem_next : nat }.

Definition longest (l : list string) : nat := foldr (λ s n, Nat.max (String.length s) n) 0%nat l.
Fixpoint stars (n : nat) : string := match n with O => EmptyString | S n' => String "*"%char (stars n') end.
(** An identifier longer than every identifier in use. *)
Definition fresh_id (t : tables) : string := stars (S (longest (ids_of t))).

Definition tick (w : mem) (t : tables) (h : gmap (string * string) string) : mem :=
  {| mem_tables := t; mem_hash := h; mem_clock := mem_clock w + 1; mem_next := S (mem_next w) |}.

(** The fields of one hash. *)
Definition hash_fields (k : string) (h : gmap (string * string) string) : list (string * string) :=
  (λ kv, (kv.1.2, kv.2)) <$> List.filter (λ kv, bool_decide (kv.1.1 = k)) (map_to_list h).

Definition hash_ref {X} (e : redis_eff X) (h : gmap (string * string) string) :
    option (outcome X * gmap (string * string) string) :=
  match e in redis_eff X return option (outcome X * gmap (string * string) string) with
  | Hset k f v => Some (Ok 1, <[(k, f) := v]> h)
  | Hdel k f => Some (Ok 1, delete (k, f) h)
  | Hgetall k => Some (Ok (hash_fields k h), h)
  | _ => None
  end.

(** Database calls act on the tables and hash commands on the hashes; every
    other call is answered by [answer]. *)
Definition mem_env (answer : ∀ X, ev X → mem → X) : handler ev mem :=
  λ X e, match e in ev X return mem → X * mem with
         | Db e' => λ w, let '(r, t') := db_ref fresh_id (mem_clock w) e' (mem_tables w) in (r, tick w t' (mem_hash w))
         | Redis e' => λ w, match hash_ref e' (mem_hash w) with
                            | Some (r, h') => (r, tick w (mem_tables w) h')
                            | None => (answer _ (Redis e') w, tick w (mem_tables w) (mem_hash w))
                            end
         | e => λ w, (answer _ e w, tick w (mem_tables w) (mem_hash w))
         end.

(** Default answers: a clock, a counter, no environment variables, and services
    that are all down. *)
Definition down {A} : outcome A := Err (JsError "connect ECONNREFUSED").
Definition quiet : ∀ X, ev X → mem → X :=
  λ X e w, match e in ev X return X with
           | Db _ | Redis _ | Aws _ | Os _ | Fs _ | Lib _ => down
           | Sys e' => match e' in sys_eff X return X with
                       | DateNow => mem_clock w
                       | RandomUUID => "uuid-" +:+ string_of_Z (Z.of_nat (mem_next w))
                       | RandomBytesHex _ => "hex" +:+ string_of_Z (Z.of_nat (mem_next w))
                       | ProcessEnv _ => None
                       | Log _ _ | GaugeSet _ _ | CounterInc _ _ | HistogramObserve _ _ => tt
                       | MetricsText => EmptyString
                       end
           end.

Definition mem_of (t : tables) : mem :=
  {| mem_tables := t; mem_hash := ∅; mem_clock := 1000000; mem_next := 0 |}.

(** ** Facts about rows *)

Section rows.
Context {A B : Type}.
Implicit Types (P : A → bool) (f : A → A) (c : A → B) (l : list A).

Lemma filterb_sublist P l : List.filter P l `sublist_of` l.
Proof. induction l as [|x l IH]; simpl; [done|]. destruct (P x); by constructor. Qed.

Lemma NoDup_map_filterb c P l : NoDup (map c l) → NoDup (map c (List.filter P l)).
Proof.
  intros H. eapply sublist_NoDup; [done|]. clear H.
  induction l as [|x l IH]; simpl; [done|]. destruct (P x); simpl; by constructor.
Qed.

Lemma map_update_where c P f l :
  (∀ x, c (f x) = c x) → map c (update_where P f l) = map c l.
Proof.
  intros Hc. unfold update_where. rewrite map_map. apply map_ext. intros x. by destruct (P x).
Qed.

Lemma elem_of_update_where P f l y :
  y ∈ update_where P f l ↔ ∃ x, x ∈ l ∧ y = (if P x then f x else x).
Proof. unfold update_where. rewrite list_elem_of_fmap. naive_solver. Qed.

Lemma NoDup_snoc_map c l x :
  NoDup (map c l) → c x ∉ map c l → NoDup (map c (l ++ [x])).
Proof.
  intros Hl Hx. rewrite map_app. apply NoDup_app. split_and!; [done| |apply NoDup_singleton].
  simpl. set_solver.
Qed.

Lemma NoDup_map_inj c l x y : NoDup (map c l) → x ∈ l → y ∈ l → c x = c y → x = y.
Proof. apply NoDup_map_inj_in. Qed.
End rows.

Lemma find_bd_Some {A} `{EqDecision B} (c : A → B) (l : list A) b x :
  List.find (λ y, bool_decide (c y = b)) l = Some x → x ∈ l ∧ c x = b.
Proof. intros [Hx Hb]%find_Some_elem. by apply bool_decide_eq_true in Hb. Qed.

Lemma find_bd_None {A} `{EqDecision B} (c : A → B) (l : list A) b :
  List.find (λ y, bool_decide (c y = b)) l = None ↔ b ∉ map c l.
Proof.
  rewrite find_None_elem. rewrite list_elem_of_fmap. split.
  - intros H (y & -> & Hy). specialize (H y Hy). by apply bool_decide_eq_false in H.
  - intros H y Hy. apply bool_decide_eq_false. naive_solver.
Qed.

Lemma find_bd_unique {A} `{EqDecision B} (c : A → B) (l : list A) x :
  NoDup (map c l) → x ∈ l → List.find (λ y, bool_decide (c y = c x)) l = Some x.
Proof.
  intros Hnd Hx. destruct (List.find _ l) as [y|] eqn:E.
  - apply find_bd_Some in E as [Hy Hc]. f_equal. by eapply NoDup_map_inj.
  - apply find_bd_None in E. destruct E. by apply list_elem_of_fmap_2.
Qed.

Lemma find_function_Some userId name t f :
  find_function userId name t = Some f → f ∈ t_functions t ∧ fn_userId f = userId ∧ fn_name f = name.
Proof.
  intros [Hf Ho]%find_Some_elem. unfold owns in Ho.
  apply andb_prop in Ho as [H1 H2]. apply bool_decide_eq_true in H1, H2. done.
Qed.

Lemma find_function_None userId name t :
  find_function userId name t = None ↔ (userId, name) ∉ map (λ f, (fn_userId f, fn_name f)) (t_functions t).
Proof.
  unfold find_function. rewrite find_None_elem, list_elem_of_fmap. unfold owns. split.
  - intros H (f & Heq & Hf). simplify_eq. specialize (H f Hf).
    by rewrite !bool_decide_eq_true_2 in H.
  - intros H f Hf. apply not_true_is_false. intros Ho. apply andb_prop in Ho as [H1 H2].
    apply bool_decide_eq_true in H1, H2. subst. destruct H. eauto.
Qed.

Lemma has_version_spec fid n t :
  has_version fid n t = true ↔ (fid, n) ∈ map (λ v, (ver_functionId v, ver_versionNumber v)) (t_versions t).
Proof.
  unfold has_version. rewrite existsb_exists_elem, list_elem_of_fmap. split.
  - intros (v & Hv & H). apply andb_prop in H as [H1 H2].
    apply bool_decide_eq_true in H1, H2. subst. eauto.
  - intros (v & Heq & Hv). simplify_eq. exists v. by rewrite !bool_decide_eq_true_2.
Qed.

Lemma latest_spec vs :
  match latest vs with
  | Some v => v ∈ vs ∧ ∀ v', v' ∈ vs → ver_versionNumber v' ≤ ver_versionNumber v
  | None => vs = []
  end.
Proof.
  induction vs as [|v vs IH]; simpl; [done|].
  destruct (latest vs) as [w|].
  - destruct IH as [Hw Hmax].
    destruct (_ <? _) eqn:E; (split; [set_solver|]);
      intros v' [->|Hv']%elem_of_cons; [lia|auto|lia|specialize (Hmax v' Hv'); lia].
  - subst. split; [set_solver|]. intros v' Hv'. apply elem_of_cons in Hv' as [->|Hv']; [lia|set_solver].
Qed.

#[export] Hint Resolve NoDup_map_filterb NoDup_snoc_map : platform.

Lemma find_snoc_new {A} (P : A → bool) l x :
  List.find P l = None → P x = true → List.find P (l ++ [x]) = Some x.
Proof.
  induction l as [|y l IH]; simpl; [by intros _ ->|]. destruct (P y); [done|auto].
Qed.
