(* ===== verification/Schema.v ===== *)
(** * The schema invariant

    [schema_ok] is what the unique constraints and foreign keys of
    [prisma/schema.prisma] promise about the rows; every database call keeps it,
    whatever the environment answers, and the in-memory database meets the
    contract. *)

From S2P Require Import Prelude Json Prog Services Percentile Database.

Record schema_ok (t : tables) : Prop := {
  ok_emails : NoDup (map user_email (t_users t));
  ok_user_ids : NoDup (map user_id (t_users t));
  ok_hashes : NoDup (map key_keyHash (t_keys t));
  ok_key_ids : NoDup (map key_id (t_keys t));
  ok_names : NoDup (map (λ f, (fn_userId f, fn_name f)) (t_functions t));
  ok_fn_ids : NoDup (map fn_id (t_functions t));
  ok_numbers : NoDup (map (λ v, (ver_functionId v, ver_versionNumber v)) (t_versions t));
  ok_build_ids : NoDup (map build_id (t_builds t));
  ok_requests : NoDup (map inv_requestId (t_invocations t));
  ok_version_fk : ∀ v, v ∈ t_versions t → ver_functionId v ∈ map fn_id (t_functions t);
  ok_build_fk : ∀ b, b ∈ t_builds t → build_functionId b ∈ map fn_id (t_functions t);
  ok_inv_fk : ∀ i, i ∈ t_invocations t → inv_functionId i ∈ map fn_id (t_functions t);
}.

(** The invariant as a test, for concrete tables. *)
Definition schema_okb (t : tables) : bool :=
  bool_decide (NoDup (map user_email (t_users t))) && bool_decide (NoDup (map user_id (t_users t))) &&
  bool_decide (NoDup (map key_keyHash (t_keys t))) && bool_decide (NoDup (map key_id (t_keys t))) &&
  bool_decide (NoDup (map (λ f, (fn_userId f, fn_name f)) (t_functions t))) &&
  bool_decide (NoDup (map fn_id (t_functions t))) &&
  bool_decide (NoDup (map (λ v, (ver_functionId v, ver_versionNumber v)) (t_versions t))) &&
  bool_decide (NoDup (map build_id (t_builds t))) && bool_decide (NoDup (map inv_requestId (t_invocations t))) &&
  forallb (λ v, bool_decide (ver_functionId v ∈ map fn_id (t_functions t))) (t_versions t) &&
  forallb (λ b, bool_decide (build_functionId b ∈ map fn_id (t_functions t))) (t_builds t) &&
  forallb (λ i, bool_decide (inv_functionId i ∈ map fn_id (t_functions t))) (t_invocations t).

Lemma schema_okb_ok t : schema_okb t = true → schema_ok t.
Proof.
  unfold schema_okb. intros H.
  repeat match goal with K : _ && _ = true |- _ => apply andb_prop in K as [? ?] end.
  repeat match goal with
  | K : bool_decide _ = true |- _ => apply bool_decide_eq_true in K
  | K : forallb _ _ = true |- _ => rewrite forallb_forall in K
  end.
  split; try done; intros x Hx; apply list_elem_of_In in Hx;
    match goal with K : ∀ _, In _ _ → _ |- _ => specialize (K x Hx); by apply bool_decide_eq_true in K end.
Qed.

Lemma schema_ok_empty : schema_ok empty_tables.
Proof. split; simpl; try constructor; set_solver. Qed.

Lemma draw_fresh (draw : tables → string) t :
  (∀ t, draw t ∉ ids_of t) →
  draw t ∉ map user_id (t_users t) ∧ draw t ∉ map key_id (t_keys t) ∧
  draw t ∉ map fn_id (t_functions t) ∧ draw t ∉ map build_id (t_builds t).
Proof. intros H. specialize (H t). unfold ids_of in H. set_solver. Qed.

Lemma find_function_by_id_elem fid t f :
  find_function_by_id fid t = Some f → fid ∈ map fn_id (t_functions t).
Proof. intros [Hf <-]%find_bd_Some. by apply list_elem_of_fmap_2. Qed.

Lemma delete_cascade_ok fid t : schema_ok t → schema_ok (delete_function_cascade fid t).
Proof.
  assert (∀ x, x ∈ map fn_id (t_functions t) → x ≠ fid →
    x ∈ map fn_id (List.filter (λ f, negb (bool_decide (fn_id f = fid))) (t_functions t))) as Hkeep.
  { intros x (f & -> & Hf)%list_elem_of_fmap Hne. apply list_elem_of_fmap_2, elem_of_filterb.
    by rewrite bool_decide_eq_false_2. }
  assert (∀ (P : string), negb (bool_decide (P = fid)) = true → P ≠ fid) as Hneg.
  { intros P H. by case_bool_decide. }
  intros []. split; simpl; auto with platform;
    intros x [Hx Hf%Hneg]%elem_of_filterb; auto.
Qed.

Lemma update_where_elem {A B} (c : A → B) (P : A → bool) (f : A → A) l x (Q : B → Prop) :
  (∀ x, c (f x) = c x) → (∀ y, y ∈ l → Q (c y)) → x ∈ update_where P f l → Q (c x).
Proof.
  intros Hc Hl (y & Hy & ->)%elem_of_update_where. destruct (P y); rewrite ?Hc; auto.
Qed.

Lemma map_commit_writes {B} (c : Build → B) ws bs :
  (∀ n b, c (publish_build n b) = c b) → map c (commit_writes ws bs) = map c bs.
Proof.
  intros Hc. unfold commit_writes. rewrite map_map. apply map_ext. intros b.
  by destruct (List.find _ ws).
Qed.

Lemma elem_of_map_eq {A B} (c : A → B) (l l' : list A) x :
  map c l = map c l' → x ∈ l → c x ∈ map c l'.
Proof. intros <- Hx. by apply list_elem_of_fmap_2. Qed.

Lemma commit_writes_elem {B} (c : Build → B) ws bs b (Q : B → Prop) :
  (∀ n b, c (publish_build n b) = c b) → (∀ b, b ∈ bs → Q (c b)) →
  b ∈ commit_writes ws bs → Q (c b).
Proof.
  intros Hc Hbs (b' & -> & Hb')%list_elem_of_fmap. destruct (List.find _ ws); rewrite ?Hc; auto.
Qed.

(** The constraint check of a creation, as absence from the column. *)
Ltac absent :=
  match goal with
  | H : List.find _ _ = None |- _ => by apply find_bd_None in H
  | H : find_user_by_email _ _ = None |- _ => by apply find_bd_None in H
  | H : find_key_by_hash _ _ = None |- _ => by apply find_bd_None in H
  | H : find_function _ _ _ = None |- _ => by apply find_function_None in H
  | H : has_version _ _ _ = false |- _ =>
      let K := fresh in intros K; apply has_version_spec in K; congruence
  | H : existsb _ _ = false |- _ =>
      let K := fresh in let y := fresh in
      intros (y & K & ?)%list_elem_of_fmap; rewrite <- not_true_iff_false in H;
      apply H, existsb_exists_elem; exists y; by rewrite bool_decide_eq_true_2
  | |- _ => done
  end.

(** One field of [schema_ok] after a row was added, updated or published. *)
Ltac schema_field :=
  lazymatch goal with
  | |- NoDup (map _ (_ ++ [_])) => apply NoDup_snoc_map; [done|simpl; absent]
  | |- NoDup (map _ (update_where _ _ _)) => by rewrite map_update_where
  | |- NoDup (map _ (commit_writes _ _)) => by rewrite map_commit_writes
  | |- ∀ x, x ∈ update_where _ _ _ → _ =>
      intros ? ?; eapply (update_where_elem _ _ _ _ _ (λ y, y ∈ _)); [|done|done]; done
  | |- ∀ x, x ∈ commit_writes _ _ → _ =>
      intros ? ?; eapply (commit_writes_elem _ _ _ _ (λ y, y ∈ _)); [|done|done]; done
  | |- ∀ x, x ∈ _ ++ [_] → _ =>
      intros ? [?| ->%list_elem_of_singleton]%elem_of_app; simpl; eauto using find_function_by_id_elem
  | |- ∀ x, _ → _ ∈ map _ (_ ++ _) =>
      intros ? ?; rewrite map_app; apply elem_of_app; left; auto
  | |- _ => done
  end.

Lemma db_ref_schema_ok draw now {X} (e : db_eff X) t :
  (∀ t, draw t ∉ ids_of t) → schema_ok t → schema_ok (db_ref draw now e t).2.
Proof.
  intros Hdraw. revert t.
  induction e; intros t Hok; pose proof (draw_fresh draw t Hdraw) as (Hdu & Hdk & Hdf & Hdb); simpl.
  24: { specialize (IHe1 t Hok). destruct (db_ref draw now e1 t) as [[x|z] t1]; simpl in *; [|done].
        specialize (IHe2 t1 IHe1). by destruct (db_ref draw now e2 t1) as [[y|z] t2]. }
  all: repeat case_match; simpl; try exact Hok; try (by apply delete_cascade_ok).
  all: destruct Hok; split; simpl; schema_field.
Qed.

Lemma db_spec_schema_ok {X} (e : db_eff X) t r t' : db_spec e t r t' → schema_ok t → schema_ok t'.
Proof.
  intros [(draw & now & Hd & Href)|(x & _ & _ & ->)] Hok; [|done].
  pose proof (db_ref_schema_ok draw now e t Hd Hok) as H. by rewrite Href in H.
Qed.

(** A call that fails changes nothing. *)
Lemma db_ref_err draw now {X} (e : db_eff X) t x t' : db_ref draw now e t = (Err x, t') → t' = t.
Proof. destruct e; simpl; repeat case_match; intros; by simplify_eq. Qed.

Lemma db_spec_err {X} (e : db_eff X) t x t' : db_spec e t (Err x) t' → t' = t.
Proof. intros [(draw & now & _ & Href)|(y & _ & _ & ->)]; [by eapply db_ref_err|done]. Qed.

(** A property of the tables that every call keeps holds after every execution
    of every program. *)
Lemma exec_preserves {S W A} (env : Env ev W) (view : W → tables) `{!DbEnv env view} R
    (P : tables → Prop) (p : prog ev S A) s w o s' w' :
  (∀ X (e : db_eff X) t r t', db_spec e t r t' → P t → P t') →
  exec env R p s w o s' w' → P (view w) → P (view w').
Proof.
  intros HP. revert s w. induction p as [a|x|X f k IH|X e k IH|X g k IH]; intros s w; simpl; intros Hexec Hok; break; eauto.
  match goal with H : env _ _ _ _ _ |- _ => apply db_env in H end.
  destruct e; eauto; match goal with H : view _ = view _ |- _ => rewrite <- H in Hok end; eauto.
Qed.

Lemma exec_schema_ok {S W A} (env : Env ev W) (view : W → tables) `{!DbEnv env view} R (p : prog ev S A) s w o s' w' :
  exec env R p s w o s' w' → schema_ok (view w) → schema_ok (view w').
Proof. apply exec_preserves; [done|]. intros. eauto using db_spec_schema_ok. Qed.

(** ** The in-memory database meets the contract *)

Lemma longest_elem l s : s ∈ l → (String.length s ≤ longest l)%nat.
Proof.
  induction l as [|x l IH]; intros Hs; simpl; [set_solver|].
  apply elem_of_cons in Hs as [->|Hs]; [lia|]. specialize (IH Hs). lia.
Qed.

Lemma length_stars n : String.length (stars n) = n.
Proof. induction n; simpl; congruence. Qed.

Lemma fresh_id_fresh t : fresh_id t ∉ ids_of t.
Proof.
  intros H%longest_elem. unfold fresh_id in H. rewrite length_stars in H. lia.
Qed.

#[export] Instance mem_env_DbEnv answer : DbEnv (env_of (mem_env answer)) mem_tables.
Proof.
  intros X e w r w' He. unfold env_of in He. destruct e as [X e|X e|X e|X e|X e|X e|X e]; simpl in *; simplify_eq; try done.
  2: { destruct (hash_ref e (mem_hash w)) as [[]|]; by simplify_eq. }
  destruct (db_ref fresh_id (mem_clock w) e (mem_tables w)) as [r' t'] eqn:Href. simplify_eq/=.
  left. exists fresh_id, (mem_clock w). split; [apply fresh_id_fresh|done].
Qed.

(** ** Symbolic execution against the database contract *)

(** Introduces the answer of the next call, with what the database contract
    says about it. *)
Ltac answer :=
  let r := fresh "r" in let w := fresh "w" in let s := fresh "s" in
  let He := fresh "Henv" in let Hi := fresh "Hi" in let Hd := fresh "Hdb" in
  intros r w s He Hi; pose proof (db_env _ _ _ _ _ He) as Hd; simpl in Hd; clear Hi;
  lazymatch type of He with
  | _ _ (Lib _) _ _ _ => idtac
  | _ => clear He
  end.

(** Case analysis on what the database did. *)
Ltac db_cases :=
  match goal with
  | H : db_spec _ _ _ _ |- _ =>
      let draw := fresh "draw" in let now := fresh "now" in let x := fresh "x" in
      let Hd := fresh "Hdraw" in let Hr := fresh "Href" in
      let Hx := fresh "Hinfra" in let Hv := fresh "Hview" in
      destruct H as [(draw & now & Hd & Hr)|(x & Hx & -> & Hv)];
      [match goal with |- ?G =>
         let P := fresh "post" in
         set (P := G); simpl in Hr; repeat case_match; simplify_eq; subst P; cbn beta iota
       end|]
  end.

(** One call: its answer, and the continuation. *)
Ltac step := answer; try db_cases; simpl.

(** Identifies the worlds whose tables are equal, and computes the tables a
    call left. *)
Ltac views :=
  repeat match goal with
  | H : ?v ?a = ?v ?b |- _ =>
      lazymatch type of (v a) with tables => try rewrite <- H in *; clear H end
  end;
  repeat match goal with
  | H : ?t = ?v ?b |- _ =>
      lazymatch type of t with tables => try rewrite <- H in *; clear H end
  end; simpl in *.

(** The rules for one call in front of the rest of a program. *)
Section call_rules.
Context {S W : Type} (env : Env ev W) (view : W → tables) `{DBE : !DbEnv env view} (R : S → S → Prop).

Lemma wp_db {X B} (e : db_eff X) (f : X → prog ev S B) s w Q :
  (∀ r s1 w1, db_spec e (view w) r (view w1) →
     match r with Ok a => wp env R (f a) s1 w1 Q | Err x => Q (Err x) s1 w1 end) →
  wp env R (bind f (db e)) s w Q.
Proof.
  intros H. simpl. intros r w1 s1 He _. apply db_env in He. specialize (H r s1 w1 He).
  by destruct r.
Qed.

Lemma wp_sys {X B} (e : sys_eff X) (f : X → prog ev S B) s w Q :
  (∀ r w1, view w1 = view w → wp env R (f r) s w1 Q) →
  wp env R (bind f (sys e)) s w Q.
Proof. intros H. simpl. intros r w1 s1 He Hi. apply db_env in He. hnf in Hi. subst. auto. Qed.

(** A call of a service other than the database. *)
Lemma wp_other {X B} (e : ev (outcome X)) (f : X → prog ev S B) s w Q :
  match e with Db _ => False | _ => True end →
  (∀ r s1 w1, view w1 = view w → match r with Ok a => wp env R (f a) s1 w1 Q | Err x => Q (Err x) s1 w1 end) →
  wp env R (bind f (call e)) s w Q.
Proof.
  intros He H. simpl. intros r w1 s1 Henv _. apply db_env in Henv.
  assert (view w1 = view w) as Hv.
  { revert r Henv H. clear -He. revert He. 
    refine (match e as e0 in ev Y return
      match e0 with Db _ => False | _ => True end → ∀ r : Y, 
        match e0 in ev X return X → Prop with Db e' => λ r, db_spec e' (view w) r (view w1) | _ => λ _, view w1 = view w end r → _ → view w1 = view w with
      | Db _ => λ F, match F with end | _ => λ _ r H _, H end). }
  specialize (H r s1 w1 Hv). by destruct r.
Qed.
End call_rules.

(** Programs that make no database call leave the tables alone. *)
Definition not_db X (e : ev X) : Prop := match e with Db _ => False | _ => True end.
Notation no_db := (only not_db).

Lemma no_db_view {S W A} (env : Env ev W) (view : W → tables) `{DBE : !DbEnv env view} (R : S → S → Prop)
    (p : prog ev S A) s w o s' w' :
  no_db p → exec env R p s w o s' w' → view w' = view w.
Proof.
  intros Hp Hx. apply (only_preserves not_db env R (λ v, view v = view w) p s w o s' w'); try done.
  intros X e v r v' He Henv <-. apply db_env in Henv. by destruct e.
Qed.

#[export] Hint Resolve only_bind only_finally only_try only_for_each only_outcome : platform.

(** Decides [only P] by the structure of a program. *)
Ltac only_calls :=
  repeat first [done | progress intros | apply only_outcome | apply only_finally | apply only_try
               | apply only_for_each | apply only_bind | split | case_match | progress simpl].

(** Decides [stateless] by the structure of a program. *)
Ltac no_state :=
  repeat first [done | progress intros | apply stateless_outcome | apply stateless_try | apply stateless_bind
               | case_match | progress simpl].

(** An environment that also records the history of calls. *)
Definition logged {W} (env : Env ev W) : Env ev (W * list entry) :=
  λ X e w r w', env X e w.1 r w'.1 ∧ w'.2 = w.2 ++ [Entry e r].

#[export] Instance logged_DbEnv {W} (env : Env ev W) view `{DBE : !DbEnv env view} : DbEnv (logged env) (λ w, view w.1).
Proof. intros X e w r w' [He _]. by apply db_env in He. Qed.

(** Concrete executions of a recording environment. *)
Lemma run_logged {S W A} (h : handler ev W) (R : S → S → Prop) (p : prog ev S A) s w o s' w' :
  (∀ s, R s s) → run (logging h) p s w = Some (o, s', w') → exec (logged (env_of h)) R p s w o s' w'.
Proof.
  intros HR Hrun. apply (run_exec _ R) in Hrun; [|done]. revert Hrun.
  apply exec_env_mono. intros X e v r v'. unfold env_of, logging, logged. destruct (h X e v.1). intros [= <- <-]. done.
Qed.

(** The same among other tasks of the process. *)
Lemma run_among_logged {S W A} (others : S → S) (h : handler ev W) (R : S → S → Prop) (p : prog ev S A) s w o s' w' :
  (∀ s, R s (others s)) → run_among others (logging h) p s w = Some (o, s', w') → exec (logged (env_of h)) R p s w o s' w'.
Proof.
  intros HR Hrun. apply (run_among_exec _ _ R) in Hrun; [|done]. revert Hrun.
  apply exec_env_mono. intros X e v r v'. unfold env_of, logging, logged. destruct (h X e v.1). intros [= <- <-]. done.
Qed.

Ltac executes_logged := apply run_logged; [done|vm_compute; reflexivity].

(** One call in the recording environment. *)
Lemma wp_hist {S X B} (R : S → S → Prop) (e : ev (outcome X)) (f : X → prog ev S B) s tr Q :
  (∀ r s', match r with
           | Ok a => wp (history_env ev) R (f a) s' (tr ++ [Entry e r]) Q
           | Err x => Q (Err x) s' (tr ++ [Entry e r])
           end) →
  wp (history_env ev) R (bind f (call e)) s tr Q.
Proof. intros H. simpl. intros r w1 s1 -> _. specialize (H r s1). by destruct r. Qed.

Lemma wp_hist_sys {S X B} (R : S → S → Prop) (e : sys_eff X) (f : X → prog ev S B) s tr Q :
  (∀ r, wp (history_env ev) R (f r) s (tr ++ [Entry (Sys e) r]) Q) →
  wp (history_env ev) R (bind f (sys e)) s tr Q.
Proof. intros H. simpl. intros r w1 s1 -> Hi. hnf in Hi. subst. apply H. Qed.

(** An execution of the recording environment is one of the environment. *)
Lemma exec_unlogged {S W A} (env : Env ev W) (R : S → S → Prop) (p : prog ev S A) s v o s' v' :
  exec (logged env) R p s v o s' v' → exec env R p s v.1 o s' v'.1.
Proof.
  revert s v. induction p as [a|x|X f k IH|X e k IH|X g k IH]; intros s v; simpl.
  - by intros (-> & -> & ->).
  - by intros (-> & -> & ->).
  - apply IH.
  - intros (r & v1 & s1 & [He _] & Hi & Hx). exists r, v1.1, s1. split; [done|]. split; [done|]. by apply IH.
  - intros (s1 & x & HR & Hg & Hx). exists s1, x. split; [done|]. split; [done|]. by apply (IH x s1 v).
Qed.

(** The calls of a program are those it may make. *)
Lemma only_logged {S W A} (P : ∀ X, ev X → Prop) (env : Env ev W) (R : S → S → Prop) (p : prog ev S A) s w tr o s' w' tr' :
  only P p → exec (logged env) R p s (w, tr) o s' (w', tr') →
  ∃ calls, tr' = tr ++ calls ∧ Forall (λ en : entry, P _ (entry_call en)) calls.
Proof.
  intros Hp Hx.
  apply (only_preserves P (logged env) R (λ v, ∃ calls, v.2 = tr ++ calls ∧ Forall (λ en : entry, P _ (entry_call en)) calls)
           p s (w, tr) o s' (w', tr')); try done; [|by exists []; rewrite app_nil_r].
  intros X e v r v' He [_ Hv] (calls & Heq & Hall). exists (calls ++ [Entry e r]).
  rewrite Hv, Heq, app_assoc. split; [done|]. apply Forall_app. by repeat constructor.
Qed.

Section logged_rules.
Context {S W : Type} (env : Env ev W) (view : W → tables) `{DBE : !DbEnv env view} (R : S → S → Prop).

(** One recorded call. *)
Lemma wp_logged_db {X B} (e : db_eff X) (f : X → prog ev S B) s w tr Q :
  (∀ r s1 w1, db_spec e (view w) r (view w1) →
     match r with Ok a => wp (logged env) R (f a) s1 (w1, tr ++ [Entry (Db e) r]) Q
                | Err x => Q (Err x) s1 (w1, tr ++ [Entry (Db e) r]) end) →
  wp (logged env) R (bind f (db e)) s (w, tr) Q.
Proof.
  intros H. simpl. intros r [w1 tr1] s1 [He Htr] _. simpl in *. subst tr1. apply db_env in He.
  specialize (H r s1 w1 He). by destruct r.
Qed.

Lemma wp_logged_redis {X B} (e : redis_eff X) (f : X → prog ev S B) s w tr Q :
  (∀ r s1 w1, view w1 = view w →
     match r with Ok a => wp (logged env) R (f a) s1 (w1, tr ++ [Entry (Redis e) r]) Q
                | Err x => Q (Err x) s1 (w1, tr ++ [Entry (Redis e) r]) end) →
  wp (logged env) R (bind f (redis e)) s (w, tr) Q.
Proof.
  intros H. simpl. intros r [w1 tr1] s1 [He Htr] _. simpl in *. subst tr1. apply db_env in He.
  specialize (H r s1 w1 He). by destruct r.
Qed.

Lemma wp_logged_sys {X B} (e : sys_eff X) (f : X → prog ev S B) s w tr Q :
  (∀ r w1, view w1 = view w → wp (logged env) R (f r) s (w1, tr ++ [Entry (Sys e) r]) Q) →
  wp (logged env) R (bind f (sys e)) s (w, tr) Q.
Proof.
  intros H. simpl. intros r [w1 tr1] s1 [He Htr] Hi. hnf in Hi. simpl in *. subst. apply db_env in He. by apply H.
Qed.
End logged_rules.

(** The history of a recorded execution alone. *)
Lemma logged_history {S W A} (env : Env ev W) (R : S → S → Prop) (p : prog ev S A) s v o s' v' :
  exec (logged env) R p s v o s' v' → exec (history_env ev) R p s v.2 o s' v'.2.
Proof.
  revert s v. induction p as [a|x|X f k IH|X e k IH|X g k IH]; intros s v; simpl.
  - by intros (-> & -> & ->).
  - by intros (-> & -> & ->).
  - apply IH.
  - intros (r & v1 & s1 & [_ He] & Hi & Hx). exists r, v1.2, s1. split; [done|]. split; [done|]. by apply IH.
  - intros (s1 & x & HR & Hg & Hx). exists s1, x. split; [done|]. split; [done|]. by apply (IH x s1 v).
Qed.

(** ** The clock of the database *)

(** [clock w]: what [now()] answers in a query made in [w]; time does not run
    backwards, and a query that succeeds was evaluated while it ran. *)
Class DbClock {W} (env : Env ev W) (view : W → tables) (clock : W → Z) := {
  clock_forward : ∀ X (e : ev X) w r w', env X e w r w' → clock w ≤ clock w';
  clock_reads : ∀ X (e : db_eff X) w r w', env _ (Db e) w (Ok r) w' →
    ∃ draw now, clock w ≤ now ≤ clock w' ∧ db_ref draw now e (view w) = (Ok r, view w') }.

Lemma exec_clock {S W A} (env : Env ev W) (view : W → tables) (clock : W → Z) `{!DbClock env view clock} (R : S → S → Prop)
    (p : prog ev S A) s w o s' w' : exec env R p s w o s' w' → clock w ≤ clock w'.
Proof.
  revert s w. induction p as [a|x|X f k IH|X e k IH|X g k IH]; intros s w; simpl.
  - intros (_ & _ & ->). done.
  - intros (_ & _ & ->). done.
  - apply IH.
  - intros (r & w1 & s1 & He & _ & Hx%IH). apply clock_forward in He. lia.
  - intros (s1 & x & _ & _ & Hx%IH). done.
Qed.

#[export] Instance mem_env_DbClock answer : DbClock (env_of (mem_env answer)) mem_tables mem_clock.
Proof.
  split.
  - intros X e w r w' He. unfold env_of in He. destruct e as [X e|X e|X e|X e|X e|X e|X e]; simpl in He;
      [destruct (db_ref fresh_id (mem_clock w) e (mem_tables w))|destruct (hash_ref e (mem_hash w)) as [[]|]|..];
      injection He as _ <-; simpl; lia.
  - intros X e w r w' He. unfold env_of in He. simpl in He.
    destruct (db_ref fresh_id (mem_clock w) e (mem_tables w)) as [r' t'] eqn:Href. injection He as -> <-.
    exists fresh_id, (mem_clock w). simpl. split; [lia|done].
Qed.
