(* ===== verification/Broker.v ===== *)
(** * Redis streams and channels

    The part of Redis the platform keeps its queues in: streams with their consumer
    groups and pending entries lists, and published messages.  [broker_ref] is what
    each command does; [BrokerEnv] is the contract of an environment whose Redis
    does it.  The hash commands of the registry are in Registry. *)

From S2P Require Import Prelude Json Prog Services Percentile Database Schema.
#[local] Open Scope Z_scope.

(** ** State *)

(** A consumer group: how many entries it has read, and its pending entries (id
    and consumer) in the order of the stream. *)
Record group := { g_delivered : nat; g_pending : list (string * string) }.

Record stream := { st_entries : list (string * list string); st_groups : gmap string group }.

Record broker := { b_streams : gmap string stream; b_published : list (string * string) }.

Definition no_stream : stream := {| st_entries := []; st_groups := ∅ |}.
Definition no_broker : broker := {| b_streams := ∅; b_published := [] |}.

Definition stream_of (key : string) (b : broker) : stream := default no_stream (b_streams b !! key).
Definition entries (key : string) (b : broker) : list (string * list string) := st_entries (stream_of key b).
Definition group_of (key name : string) (b : broker) : option group := st_groups (stream_of key b) !! name.

Definition set_stream (key : string) (s : stream) (b : broker) : broker :=
  {| b_streams := <[key := s]> (b_streams b); b_published := b_published b |}.
Definition set_group (key name : string) (g : group) (b : broker) : broker :=
  set_stream key {| st_entries := entries key b; st_groups := <[name := g]> (st_groups (stream_of key b)) |} b.

(** ** Commands *)

(** What Redis draws: the id of a new entry, which pending entries have been idle
    for long enough, their idle times and delivery counts, the next cursor of a
    scan and the number of subscribers of a channel. *)
Record draw := {
  d_id : string; d_idle : string → bool; d_times : string → Z * Z; d_cursor : string; d_receivers : Z }.

(** The entries up to the one with an id: all for [$], none for [0]. *)
Fixpoint upto (id : string) (es : list (string * list string)) : nat :=
  match es with
  | [] => 0
  | e :: es' => if bool_decide (e.1 = id) then 1 else match upto id es' with O => O | S n => S (S n) end
  end.
Definition position (id : string) (es : list (string * list string)) : nat :=
  if bool_decide (id = "$") then length es else upto id es.

Definition NOGROUP {X} : outcome X := Err (JsError "NOGROUP No such key or consumer group").
Definition BUSYGROUP {X} : outcome X := Err (JsError "BUSYGROUP Consumer Group name already exists").

(** Pending entries given to a consumer. *)
Definition give (consumer : string) (ids : list string) (pending : list (string * string)) : list (string * string) :=
  (λ p, if bool_decide (p.1 ∈ ids) then (p.1, consumer) else p) <$> pending.

(** The entries of a stream with one of the ids. *)
Definition select (ids : list string) (es : list (string * list string)) : list (string * list string) :=
  List.filter (λ e, bool_decide (e.1 ∈ ids)) es.

Definition idle_ids (d : draw) (g : group) : list string := List.filter (d_idle d) (map fst (g_pending g)).

(** A command on streams or channels; [None] for the others.  A minimum idle time
    that is no number is refused; a scan starts at [0], as the platform's do. *)
Definition broker_ref {X} (d : draw) (e : redis_eff X) (b : broker) : option (outcome X * broker) :=
  match e in redis_eff X return option (outcome X * broker) with
  | Xadd key fields =>
      Some (Ok (d_id d), set_stream key {| st_entries := entries key b ++ [(d_id d, fields)]; st_groups := st_groups (stream_of key b) |} b)
  | XgroupCreate key name id mkstream =>
      match b_streams b !! key, group_of key name b with
      | None, _ => if mkstream then Some (Ok tt, set_group key name {| g_delivered := 0; g_pending := [] |} b)
                   else Some (Err (JsError "ERR The XGROUP subcommand requires the key to exist"), b)
      | Some _, Some _ => Some (BUSYGROUP, b)
      | Some _, None => Some (Ok tt, set_group key name {| g_delivered := position id (entries key b); g_pending := [] |} b)
      end
  | Xreadgroup name consumer count _ key =>
      match group_of key name b with
      | None => Some (NOGROUP, b)
      | Some g =>
          let new := take count (drop (g_delivered g) (entries key b)) in
          match new with
          | [] => Some (Ok None, b)
          | _ => Some (Ok (Some [(key, new)]),
                       set_group key name {| g_delivered := g_delivered g + length new;
                                             g_pending := g_pending g ++ map (λ e, (e.1, consumer)) new |} b)
          end
      end
  | Xautoclaim key name consumer minIdle _ =>
      match group_of key name b, minIdle with
      | Some g, Some _ =>
          let ids := take 100 (idle_ids d g) in
          Some (Ok (d_cursor d, select ids (entries key b)),
                set_group key name {| g_delivered := g_delivered g; g_pending := give consumer ids (g_pending g) |} b)
      | _, _ => Some (NOGROUP, b)
      end
  | XpendingIdle key name minIdle count =>
      match group_of key name b, minIdle with
      | Some g, Some _ =>
          Some (Ok (map (λ p, (p.1, p.2, (d_times d p.1).1, (d_times d p.1).2))
                        (take count (List.filter (λ p, d_idle d p.1) (g_pending g)))), b)
      | _, _ => Some (NOGROUP, b)
      end
  | Xclaim key name consumer minIdle id =>
      match group_of key name b, minIdle with
      | Some g, Some _ =>
          let ids := if bool_decide (id ∈ idle_ids d g) then [id] else [] in
          Some (Ok (select ids (entries key b)),
                set_group key name {| g_delivered := g_delivered g; g_pending := give consumer ids (g_pending g) |} b)
      | _, _ => Some (NOGROUP, b)
      end
  | Xack key name id =>
      match group_of key name b with
      | None => Some (Ok 0, b)
      | Some g =>
          let rest := List.filter (λ p, negb (bool_decide (p.1 = id))) (g_pending g) in
          Some (Ok (Z.of_nat (length (g_pending g)) - Z.of_nat (length rest)),
                set_group key name {| g_delivered := g_delivered g; g_pending := rest |} b)
      end
  | Publish channel message =>
      Some (Ok (d_receivers d), {| b_streams := b_streams b; b_published := b_published b ++ [(channel, message)] |})
  | _ => None
  end.

(** ** The contract *)

(** A new entry's id is none of its stream's. *)
Definition fresh_draw (d : draw) (b : broker) : Prop := ∀ key, d_id d ∉ map fst (entries key b).

Definition on_broker {X} (e : redis_eff X) : bool :=
  match e with Hset _ _ _ | Hdel _ _ | Hgetall _ | Subscribe _ | Unsubscribe _ | XinfoGroups _ => false | _ => true end.

(** The error of a command whose reply was lost is the client's own, and none that
    Redis sends. *)
Definition lost {X} (r : outcome X) : Prop :=
  match r with Ok _ => False | Err x => str_includes "BUSYGROUP" (err_message x) = false end.

(** A command that fails may have taken its effect: its reply may be what was lost. *)
Definition broker_spec {X} (e : redis_eff X) (b : broker) (r : outcome X) (b' : broker) : Prop :=
  if on_broker e then
    (∃ d, fresh_draw d b ∧ broker_ref d e b = Some (r, b')) ∨
    (lost r ∧ (b' = b ∨ ∃ d r', fresh_draw d b ∧ broker_ref d e b = Some (r', b')))
  else b' = b.

Class BrokerEnv {W} (env : Env ev W) (bview : W → broker) := broker_env :
  ∀ X (e : ev X) w r w', env X e w r w' →
    match e in ev X return X → Prop with
    | Redis e' => λ r, broker_spec e' (bview w) r (bview w')
    | _ => λ _, bview w' = bview w
    end r.

(** ** Facts *)

(** An entry a group still has to deal with: not yet read, or pending. *)
Definition waits (es : list (string * list string)) (g : group) (id : string) : Prop :=
  id ∈ map fst (drop (g_delivered g) es) ∨ id ∈ map fst (g_pending g).
Definition outstanding (key name id : string) (b : broker) : Prop :=
  ∃ g, group_of key name b = Some g ∧ waits (entries key b) g id.

Definition group_ok (es : list (string * list string)) (g : group) : Prop :=
  (g_delivered g ≤ length es)%nat ∧ ∀ id, id ∈ map fst (g_pending g) → id ∈ map fst (take (g_delivered g) es).
Definition broker_ok (b : broker) : Prop :=
  ∀ key, NoDup (map fst (entries key b)) ∧ ∀ name g, group_of key name b = Some g → group_ok (entries key b) g.

Definition acks (key name id : string) {X} (e : redis_eff X) : Prop :=
  match e with Xack key' name' id' => key' = key ∧ name' = name ∧ id' = id | _ => False end.

Lemma stream_of_set_stream key s b key' :
  stream_of key' (set_stream key s b) = if decide (key' = key) then s else stream_of key' b.
Proof. unfold stream_of. simpl. case_decide; [subst; by rewrite lookup_insert_eq|by rewrite lookup_insert_ne]. Qed.

Lemma entries_set_group key name g b key' : entries key' (set_group key name g b) = entries key' b.
Proof. unfold set_group, entries at 1. rewrite stream_of_set_stream. case_decide; by subst. Qed.

Lemma group_of_set_group key name g b key' name' :
  group_of key' name' (set_group key name g b) = if decide (key' = key ∧ name' = name) then Some g else group_of key' name' b.
Proof.
  unfold set_group, group_of at 1. rewrite stream_of_set_stream. case_decide; subst; simpl.
  - destruct (decide (name' = name)) as [->|Hn].
    + by rewrite lookup_insert_eq, decide_True.
    + rewrite lookup_insert_ne by done. by rewrite decide_False by naive_solver.
  - by rewrite decide_False by naive_solver.
Qed.

(** What one command does to the queues: entries and published messages only grow,
    and a group loses sight of an entry only when it is acknowledged. *)
Definition keeps {X} (e : redis_eff X) (b b' : broker) : Prop :=
  broker_ok b → broker_ok b' ∧
    (∀ key, entries key b `prefix_of` entries key b') ∧ b_published b `prefix_of` b_published b' ∧
    ∀ key name, is_Some (group_of key name b) → is_Some (group_of key name b') ∧
      ∀ id, id ∈ map fst (entries key b') →
        outstanding key name id b' ∨ (id ∈ map fst (entries key b) ∧ (acks key name id e ∨ ¬ outstanding key name id b)).

Lemma keeps_refl {X} (e : redis_eff X) b : keeps e b b.
Proof.
  intros Hb. split_and!; [done..|]. intros key name Hg. split; [done|]. intros id Hid.
  destruct (group_of key name b) as [g|] eqn:Hgo; [|by destruct Hg].
  destruct (decide (waits (entries key b) g id)) as [Hw|Hw].
  - left. by exists g.
  - right. split; [done|]. right. intros (g' & Hg' & Hw'). congruence.
Qed.

Lemma set_group_ok key name g b : broker_ok b → group_ok (entries key b) g → broker_ok (set_group key name g b).
Proof.
  intros Hb Hok k. rewrite entries_set_group. split; [apply Hb|]. intros n x. rewrite group_of_set_group.
  case_decide as Hd; [destruct Hd as [-> ->]; by intros [= <-]|apply Hb].
Qed.

Lemma no_broker_ok : broker_ok no_broker.
Proof. intros key. split; [apply NoDup_nil_2|]. done. Qed.

Lemma keeps_set_group {X} (e : redis_eff X) key name g g' b :
  group_of key name b = Some g → group_ok (entries key b) g' →
  (∀ id, waits (entries key b) g id → acks key name id e ∨ waits (entries key b) g' id) →
  keeps e b (set_group key name g' b).
Proof.
  intros Hg Hok Hw Hb. split_and!.
  - by apply set_group_ok.
  - intros k. by rewrite entries_set_group.
  - done.
  - intros k n Hk. rewrite group_of_set_group. split; [by case_decide|]. intros id. rewrite entries_set_group. intros Hid.
    destruct (keeps_refl e b Hb) as (_ & _ & _ & Hr). destruct (Hr k n Hk) as [_ Hrid].
    destruct (Hrid id Hid) as [(x & Hx & Hwx)|Hrest]; [|tauto]. destruct (decide (k = key ∧ n = name)) as [[-> ->]|Hd].
    + rewrite Hg in Hx. injection Hx as <-. destruct (Hw id Hwx) as [Ha|Ha]; [tauto|]. left. exists g'.
      rewrite group_of_set_group, decide_True by done. by rewrite entries_set_group.
    + left. exists x. rewrite group_of_set_group, decide_False by done. by rewrite entries_set_group.
Qed.

Lemma keeps_new_group {X} (e : redis_eff X) key name g b :
  group_of key name b = None → group_ok (entries key b) g → keeps e b (set_group key name g b).
Proof.
  intros Hg Hok Hb. split_and!.
  - by apply set_group_ok.
  - intros k. by rewrite entries_set_group.
  - done.
  - intros k n Hk. rewrite group_of_set_group. assert (¬ (k = key ∧ n = name)) as Hd.
    { intros [-> ->]. rewrite Hg in Hk. by destruct Hk. }
    rewrite decide_False by done. split; [done|]. intros id. rewrite entries_set_group. intros Hid.
    destruct (keeps_refl e b Hb) as (_ & _ & _ & Hr). destruct (Hr k n Hk) as [_ Hrid].
    destruct (Hrid id Hid) as [(x & Hx & Hwx)|Hrest]; [|tauto]. left. exists x.
    rewrite group_of_set_group, decide_False by done. by rewrite entries_set_group.
Qed.

Lemma map_fst_give consumer ids pending : map fst (give consumer ids pending) = map fst pending.
Proof. unfold give. induction pending as [|p l IH]; simpl; [done|]. f_equal; [by case_bool_decide|exact IH]. Qed.

Lemma keeps_give {X} (e : redis_eff X) key name g consumer ids b :
  group_of key name b = Some g →
  keeps e b (set_group key name {| g_delivered := g_delivered g; g_pending := give consumer ids (g_pending g) |} b).
Proof.
  intros Hg Hb. eapply keeps_set_group; [exact Hg| | |exact Hb].
  - destruct (Hb key) as [_ Hgr]. destruct (Hgr _ _ Hg) as [Hd Hp]. split; [done|]. simpl. by rewrite map_fst_give.
  - intros id [?|?]; right; [by left|]. right. simpl. by rewrite map_fst_give.
Qed.

Lemma keeps_read {X} (e : redis_eff X) key name g consumer n b :
  group_of key name b = Some g →
  let new := take n (drop (g_delivered g) (entries key b)) in
  keeps e b (set_group key name {| g_delivered := g_delivered g + length new;
                                   g_pending := g_pending g ++ map (λ x, (x.1, consumer)) new |} b).
Proof.
  intros Hg new Hb. destruct (Hb key) as [_ Hgr]. destruct (Hgr _ _ Hg) as [Hd Hp].
  assert (map fst (map (λ x : string * list string, (x.1, consumer)) new) = map fst new) as Hmap by (rewrite map_map; done).
  assert (drop (g_delivered g) (entries key b) = new ++ drop (length new) (drop (g_delivered g) (entries key b))) as Hsplit.
  { unfold new. rewrite length_take. destruct (Nat.le_gt_cases n (length (drop (g_delivered g) (entries key b)))) as [Hn|Hn].
    - rewrite Nat.min_l by done. by rewrite take_drop.
    - rewrite take_ge by lia. rewrite Nat.min_r by lia.
      by rewrite (drop_ge (drop _ _)), app_nil_r. }
  eapply keeps_set_group; [exact Hg| | |exact Hb].
  - split; simpl.
    + unfold new. rewrite length_take, length_drop. lia.
    + intros id. rewrite map_app, Hmap, elem_of_app. intros [Hid|Hid].
      * apply Hp in Hid. rewrite <- take_take_drop, map_app. apply elem_of_app. by left.
      * rewrite <- take_take_drop, map_app. apply elem_of_app. right. rewrite Hsplit at 1. by rewrite take_app_length.
  - intros id [Hid|Hid]; right.
    + rewrite Hsplit, map_app in Hid. apply elem_of_app in Hid as [Hid|Hid].
      * right. simpl. rewrite map_app, Hmap. apply elem_of_app. by right.
      * left. simpl. by rewrite drop_drop in Hid.
    + right. simpl. rewrite map_app. apply elem_of_app. by left.
Qed.

Lemma keeps_add {X} (e : redis_eff X) key id fields b :
  (∀ k, id ∉ map fst (entries k b)) →
  keeps e b (set_stream key {| st_entries := entries key b ++ [(id, fields)]; st_groups := st_groups (stream_of key b) |} b).
Proof.
  intros Hid Hb. set (b' := set_stream _ _ b).
  assert (∀ k, entries k b' = if decide (k = key) then entries k b ++ [(id, fields)] else entries k b) as He.
  { intros k. unfold b', entries at 1. rewrite stream_of_set_stream. case_decide; by subst. }
  assert (∀ k n, group_of k n b' = group_of k n b) as Hgo.
  { intros k n. unfold b', group_of at 1. rewrite stream_of_set_stream. case_decide; by subst. }
  assert (∀ k n g, group_of k n b = Some g → drop (g_delivered g) (entries k b') =
            drop (g_delivered g) (entries k b) ++ if decide (k = key) then [(id, fields)] else []) as Hdrop.
  { intros k n g Hg. rewrite He. case_decide; [|by rewrite app_nil_r].
    destruct (Hb k) as [_ Hgr]. destruct (Hgr _ _ Hg) as [Hd _]. by rewrite drop_app_le. }
  split_and!.
  - intros k. rewrite He. destruct (Hb k) as [Hnd Hgr]. split.
    + case_decide; [|done]. rewrite map_app. apply NoDup_app. split_and!; [done| |apply NoDup_singleton].
      intros x Hx Hx'%list_elem_of_singleton. subst x. by apply (Hid k).
    + intros n g. rewrite Hgo. intros Hg. destruct (Hgr _ _ Hg) as [Hd Hp]. case_decide; [|done]. split.
      * rewrite length_app. lia.
      * intros x Hx. rewrite take_app_le by done. by apply Hp.
  - intros k. rewrite He. case_decide; [by eexists|done].
  - done.
  - intros k n Hk. rewrite Hgo. split; [done|]. intros x Hx. destruct Hk as [g Hg].
    destruct (keeps_refl e b Hb) as (_ & _ & _ & Hr). destruct (Hr k n) as [_ Hrid]; [by exists g|].
    rewrite He in Hx. assert (x ∈ map fst (entries k b) ∨ k = key ∧ x = id) as [Hold|[-> ->]].
    { case_decide; [|by left]. rewrite map_app in Hx. apply elem_of_app in Hx as [?|Hx%list_elem_of_singleton]; auto. }
    + destruct (Hrid x Hold) as [(g' & Hg' & Hw)|?]; [|tauto]. left. exists g'. rewrite Hgo. split; [done|].
      destruct Hw as [Hw|Hw]; [left|by right]. rewrite (Hdrop _ _ _ Hg'), map_app. apply elem_of_app. by left.
    + left. exists g. rewrite Hgo. split; [done|]. left. rewrite (Hdrop _ _ _ Hg), decide_True, map_app by done.
      apply elem_of_app. right. by apply list_elem_of_singleton.
Qed.

Lemma position_le id es : (position id es ≤ length es)%nat.
Proof.
  unfold position. case_bool_decide; [done|]. induction es as [|e es IH]; simpl; [done|].
  case_bool_decide; [lia|]. destruct (upto id es); lia.
Qed.

Lemma broker_ref_keeps {X} d (e : redis_eff X) b r b' : fresh_draw d b → broker_ref d e b = Some (r, b') → keeps e b b'.
Proof.
  intros Hf Hr. destruct e as [| | |key fields|key name id mk|name c n ms key|key name c idle st|key name idle n|key name c idle id|key name id|ch msg| | |];
    simpl in Hr; try discriminate Hr.
  - injection Hr as _ <-. apply keeps_add. intros k. apply Hf.
  - destruct (b_streams b !! key) eqn:Hs.
    + destruct (group_of key name b) eqn:Hg; injection Hr as _ <-; [apply keeps_refl|].
      apply keeps_new_group; [done|]. split; [apply position_le|]. by intros x ?%elem_of_nil.
    + destruct mk; injection Hr as _ <-; [|apply keeps_refl]. apply keeps_new_group.
      * unfold group_of, stream_of. by rewrite Hs.
      * split; simpl; [lia|]. by intros x ?%elem_of_nil.
  - destruct (group_of key name b) as [g|] eqn:Hg; [|injection Hr as _ <-; apply keeps_refl].
    pose proof (keeps_read (Xreadgroup name c n ms key) key name g c n b Hg) as Hk. simpl in Hk.
    destruct (take n (drop (g_delivered g) (entries key b))) as [|e1 es1]; injection Hr as _ <-; [apply keeps_refl|exact Hk].
  - destruct (group_of key name b) as [g|] eqn:Hg; [|injection Hr as _ <-; apply keeps_refl].
    destruct idle; injection Hr as _ <-; [by apply keeps_give|apply keeps_refl].
  - destruct (group_of key name b) as [g|] eqn:Hg; [destruct idle|]; injection Hr as _ <-; apply keeps_refl.
  - destruct (group_of key name b) as [g|] eqn:Hg; [|injection Hr as _ <-; apply keeps_refl].
    destruct idle; injection Hr as _ <-; [by apply keeps_give|apply keeps_refl].
  - destruct (group_of key name b) as [g|] eqn:Hg; [|injection Hr as _ <-; apply keeps_refl].
    injection Hr as _ <-. intros Hb. eapply keeps_set_group; [exact Hg| | |exact Hb].
    + destruct (Hb key) as [_ Hgr]. destruct (Hgr _ _ Hg) as [Hd Hp]. split; [done|]. intros x Hx. apply Hp.
      simpl in Hx. apply list_elem_of_fmap in Hx as (p & -> & [Hp' _]%elem_of_filterb). by apply list_elem_of_fmap_2.
    + intros x [Hx|Hx]; [right; by left|]. destruct (decide (x = id)) as [->|Hne]; [by left|]. right. right. simpl.
      apply list_elem_of_fmap in Hx as (p & -> & Hp'). apply list_elem_of_fmap_2, elem_of_filterb. split; [done|].
      by rewrite bool_decide_eq_false_2.
  - injection Hr as _ <-. intros Hb. destruct (keeps_refl (Publish ch msg) b Hb) as (_ & Hp & _ & Hrest).
    split_and!; [done|done| |done]. by eexists.
Qed.

Lemma broker_step_keeps {X} (e : redis_eff X) b r b' : broker_spec e b r b' → keeps e b b'.
Proof.
  unfold broker_spec. destruct (on_broker e); [|intros ->; apply keeps_refl].
  intros [(d & Hf & Hr)|[_ [->|(d & r' & Hf & Hr)]]];
    [by eapply broker_ref_keeps|apply keeps_refl|by eapply broker_ref_keeps].
Qed.

(** Only an addition to a stream changes its entries. *)
Definition adds (key : string) {X} (e : redis_eff X) : Prop := match e with Xadd key' _ => key' = key | _ => False end.

Lemma ref_entries_same {X} d (e : redis_eff X) key b r b' :
  ¬ adds key e → broker_ref d e b = Some (r, b') → entries key b' = entries key b.
Proof.
  intros Hn Hr. destruct e; simpl in Hr, Hn; try discriminate Hr; repeat case_match; simplify_eq; try done; try apply entries_set_group.
  unfold entries at 1. by rewrite stream_of_set_stream, decide_False.
Qed.

Lemma entries_same {X} (e : redis_eff X) key b r b' : ¬ adds key e → broker_spec e b r b' → entries key b' = entries key b.
Proof.
  unfold broker_spec. intros Hn. destruct (on_broker e); [|by intros ->].
  intros [(d & _ & Hr)|[_ [->|(d & r' & _ & Hr)]]]; [|done|]; by eapply ref_entries_same.
Qed.

(** Once the creation of a group is answered, by success or by Redis' complaint that
    it exists, it exists. *)
Lemma group_created key name id b r b' :
  broker_spec (XgroupCreate key name id true) b r b' →
  match r with Ok _ => True | Err x => str_includes "BUSYGROUP" (err_message x) = true end → is_Some (group_of key name b').
Proof.
  intros [(d & _ & Hr)|[Hl _]] Hx; [|destruct r; simpl in Hl; [done|congruence]]. simpl in Hr.
  assert (∀ g c, is_Some (group_of key name (set_group key name g c))) as Hset.
  { intros g c. rewrite group_of_set_group, decide_True by done. by eexists. }
  destruct (b_streams b !! key); [destruct (group_of key name b) eqn:Hg|]; injection Hr as _ <-; [by eexists|apply Hset|apply Hset].
Qed.

(** ** What the commands answer *)

Lemma select_entries ids es m : m ∈ select ids es → m ∈ es.
Proof. by intros [? _]%elem_of_filterb. Qed.

(** Every message a consumer is handed is an entry of the stream. *)
Lemma read_entries name c n ms key b l b' k messages rest m :
  broker_spec (Xreadgroup name c n ms key) b (Ok l) b' → l = Some ((k, messages) :: rest) → m ∈ messages → m ∈ entries key b'.
Proof.
  intros [(d & _ & Hr)|[? _]] -> Hm; [|done].
  simpl in Hr. destruct (group_of key name b) as [g|] eqn:Hg; [|done].
  destruct (take n _) as [|e1 es1] eqn:Ht; [done|]. injection Hr as <- <- <- <-. rewrite entries_set_group.
    rewrite <- (take_drop (g_delivered g) (entries key b)). apply elem_of_app. right.
    eapply elem_of_submseteq; [|apply submseteq_take]. by rewrite Ht.
Qed.

Lemma autoclaim_entries key name c idle st b l b' m :
  broker_spec (Xautoclaim key name c idle st) b (Ok l) b' → m ∈ l.2 → m ∈ entries key b'.
Proof.
  intros [(d & _ & Hr)|[? _]] Hm; [|done].
  - simpl in Hr. destruct (group_of key name b) as [g|] eqn:Hg; [|done]. destruct idle; [|done].
    injection Hr as <- <-. rewrite entries_set_group. by eapply select_entries.
Qed.

Lemma claim_entries key name c idle id b l b' m :
  broker_spec (Xclaim key name c idle id) b (Ok l) b' → m ∈ l → m ∈ entries key b'.
Proof.
  intros [(d & _ & Hr)|[? _]] Hm; [|done].
  - simpl in Hr. destruct (group_of key name b) as [g|] eqn:Hg; [|done]. destruct idle; [|done].
    injection Hr as <- <-. rewrite entries_set_group. by eapply select_entries.
Qed.

Lemma publish_published channel message b r b' :
  broker_spec (Publish channel message) b (Ok r) b' → (channel, message) ∈ b_published b'.
Proof.
  intros [(d & _ & Hr)|[? _]]; [|done].
  - injection Hr as _ <-. apply elem_of_app. right. by apply list_elem_of_singleton.
Qed.

(** ** An in-memory broker *)

Definition entry_ids (b : broker) : list string := concat (map (λ ks, map fst (st_entries ks.2)) (map_to_list (b_streams b))).

(** Every pending entry has been idle for long. *)
Definition drawn (b : broker) : draw :=
  {| d_id := stars (S (longest (entry_ids b))); d_idle := λ _, true; d_times := λ _, (60000, 1); d_cursor := "0-0"; d_receivers := 1 |}.

Lemma drawn_fresh b : fresh_draw (drawn b) b.
Proof.
  intros key Hin. assert (d_id (drawn b) ∈ entry_ids b) as Hd.
  { unfold entry_ids. apply list_elem_of_In, in_concat. unfold entries, stream_of in Hin.
    destruct (b_streams b !! key) as [s|] eqn:Hs; simpl in Hin; [|by apply not_elem_of_nil in Hin].
    exists (map fst (st_entries s)). split; [|by apply list_elem_of_In]. apply in_map_iff. exists (key, s). split; [done|].
    by apply list_elem_of_In, elem_of_map_to_list. }
  apply longest_elem in Hd. simpl in Hd. rewrite length_stars in Hd. lia.
Qed.

(** Tables and hashes in memory, beside the queues. *)
Definition queue_env (answer : ∀ X, ev X → mem → X) : handler ev (mem * broker) :=
  λ X e, match e in ev X return mem * broker → X * (mem * broker) with
         | Redis e' => λ w,
             match broker_ref (drawn w.2) e' w.2 with
             | Some (r, b') => (r, (tick w.1 (mem_tables w.1) (mem_hash w.1), b'))
             | None => let '(r, m) := mem_env answer _ (Redis e') w.1 in (r, (m, w.2))
             end
         | e => λ w, let '(r, m) := mem_env answer _ e w.1 in (r, (m, w.2))
         end.

#[export] Instance queue_env_DbEnv answer : DbEnv (env_of (queue_env answer)) (λ w, mem_tables w.1).
Proof.
  intros X e w r w' He. unfold env_of in He.
  destruct e as [X e|X e|X e|X e|X e|X e|X e]; cbn [queue_env] in He;
    try (destruct (mem_env answer _ _ w.1) as [r0 m0] eqn:Hm; injection He as <- <-; exact (mem_env_DbEnv answer _ _ w.1 r0 m0 Hm)).
  destruct (broker_ref (drawn w.2) e w.2) as [[r1 b1]|]; [by injection He as _ <-|].
  destruct (mem_env answer _ _ w.1) as [r0 m0] eqn:Hm. injection He as <- <-. exact (mem_env_DbEnv answer _ _ w.1 r0 m0 Hm).
Qed.

#[export] Instance queue_env_BrokerEnv answer : BrokerEnv (env_of (queue_env answer)) snd.
Proof.
  intros X e w r w' He. unfold env_of in He.
  destruct e as [X e|X e|X e|X e|X e|X e|X e]; cbn [queue_env] in He;
    try (destruct (mem_env answer _ _ w.1) as [r0 m0]; injection He as <- <-; done).
  unfold broker_spec. destruct (broker_ref (drawn w.2) e w.2) as [[r1 b1]|] eqn:Hb.
  - injection He as <- <-. assert (on_broker e = true) as -> by (by destruct e). left. exists (drawn w.2). split; [apply drawn_fresh|done].
  - destruct (mem_env answer _ _ w.1) as [r0 m0]. injection He as <- <-.
    assert (on_broker e = false) as ->; [|done]. destruct e; simpl in *; repeat case_match; done.
Qed.
