(* ===== verification/Auth.v ===== *)
(** * Authentication and authorisation (src/auth)

    [AuthService] (auth.service.ts), the scopes (scopes.ts), the request DTOs
    (dto/) and the two guards (guards/). *)

From S2P Require Import Prelude Json Prog Services Percentile Database Schema.

(** ** scopes.ts *)

Definition API_SCOPES : list string := ["functions:read"; "functions:write"; "functions:invoke"].
Definition ALL_SCOPES : list string := API_SCOPES.

(** ** auth.service.ts *)

Record AuthenticatedPrincipal := { userId : string; scopes : list string }.

#[export] Instance principal_eq_dec : EqDecision AuthenticatedPrincipal.
Proof. solve_decision. Defined.

Definition API_KEY_PREFIX : string := "mc_".
Definition BCRYPT_ROUNDS : Z := 12.

(** [crypto.createHash('sha256').update(s).digest('hex')] of Node. *)
Class Sha256 := sha256_hex : string → string.

(** [err instanceof Prisma.PrismaClientKnownRequestError && err.code === code] *)
Definition is_known_request_error (code : string) (err : exn) : bool :=
  match err with PrismaError c _ => bool_decide (c = code) | _ => false end.

Record RegisterDto := { reg_email : string; reg_password : string }.
Record LoginDto := { login_email : string; login_password : string }.
Record CreateApiKeyDto := { dto_name : string; dto_scopes : list string }.
Record CreatedApiKey := { created_id : string; created_name : string; created_scopes : list string; created_rawKey : string }.

Module AuthService.
Section service.
Context `{!Sha256} {S : Type}.

Definition hashApiKey (rawKey : string) : string := sha256_hex rawKey.

Definition register (dto : RegisterDto) : prog ev S string :=
  passwordHash ← lib (BcryptHash (reg_password dto) BCRYPT_ROUNDS);
  try_catch
    (user ← db (UserCreate (reg_email dto) passwordHash);
     Ret (user_id user))
    (λ err,
       if is_known_request_error "P2002" err then
         Throw (ConflictException ("An account with email " +:+ dq +:+ reg_email dto +:+ dq +:+ " already exists"))
       else Throw err).

Definition login (dto : LoginDto) : prog ev S string :=
  let invalid := Throw (UnauthorizedException "Invalid email or password") in
  user ← db (UserFindUnique (login_email dto));
  match user with
  | None => invalid
  | Some u =>
      same ← lib (BcryptCompare (login_password dto) (user_passwordHash u));
      if same : bool then lib (JwtSign {| jwt_sub := user_id u; jwt_scopes := ALL_SCOPES |})
      else invalid
  end.

Definition createApiKey (uid : string) (dto : CreateApiKeyDto) : prog ev S CreatedApiKey :=
  bytes ← sys (RandomBytesHex 24);
  let rawKey := API_KEY_PREFIX +:+ bytes in
  let keyHash := hashApiKey rawKey in
  record ← db (ApiKeyCreate uid (dto_name dto) (dto_scopes dto) keyHash);
  Ret {| created_id := key_id record; created_name := key_name record;
         created_scopes := key_scopes record; created_rawKey := rawKey |}.

Definition listApiKeys (uid : string) : prog ev S (list ApiKeyView) := db (ApiKeyFindMany uid).

Definition revokeApiKey (uid keyId : string) : prog ev S unit :=
  key ← db (ApiKeyFindById keyId);
  let missing := Throw (NotFoundException ("API key " +:+ dq +:+ keyId +:+ dq +:+ " not found")) in
  match key with
  | None => missing
  | Some k =>
      if decide (key_userId k ≠ uid) then missing
      else now ← sys DateNow;
           _ ← db (ApiKeySetRevokedAt keyId now);
           Ret tt
  end.

Definition validateApiKey (rawKey : string) : prog ev S (option AuthenticatedPrincipal) :=
  let keyHash := hashApiKey rawKey in
  record ← db (ApiKeyFindByHash keyHash);
  match record with
  | None => Ret None
  | Some k =>
      match key_revokedAt k with
      | Some _ => Ret None
      | None =>
          now ← sys DateNow;
          _ ← fire_and_forget (Db (ApiKeySetLastUsedAt (key_id k) now));
          Ret (Some {| userId := key_userId k; scopes := key_scopes k |})
      end
  end.

Definition verifyJwt (token : string) : prog ev S AuthenticatedPrincipal :=
  payload ← lib (JwtVerify token);
  Ret {| userId := jwt_sub payload; scopes := jwt_scopes payload |}.
  End service.
End AuthService.

(** ** dto/ (class-validator) *)

(** The validator package's [isEmail]. *)
Class EmailValidator := isEmail : string → bool.

(** [@IsString()] *)
Definition get_string (key : string) (body : json) : option string :=
  match json_get key body with Some (JStr s) => Some s | _ => None end.

Definition validate_RegisterDto `{!EmailValidator} (body : json) : option RegisterDto :=
  match get_string "email" body, get_string "password" body with
  | Some e, Some p => if isEmail e && (8 <=? String.length p)%nat then Some {| reg_email := e; reg_password := p |} else None
  | _, _ => None
  end.

Definition validate_LoginDto `{!EmailValidator} (body : json) : option LoginDto :=
  match get_string "email" body, get_string "password" body with
  | Some e, Some p => if isEmail e then Some {| login_email := e; login_password := p |} else None
  | _, _ => None
  end.

(** [@IsIn(API_SCOPES, { each: true })] *)
Definition scope_of (v : json) : option string :=
  match v with JStr s => if arr_includes s API_SCOPES then Some s else None | _ => None end.

Definition validate_CreateApiKeyDto (body : json) : option CreateApiKeyDto :=
  match get_string "name" body, json_get "scopes" body with
  | Some name, Some (JArr l) =>
      scs ← mapM scope_of l;
      if (1 <=? length scs)%nat && bool_decide (NoDup scs)
      then Some {| dto_name := name; dto_scopes := scs |} else None
  | _, _ => None
  end.

(** ** guards/auth.guard.ts *)

Module AuthGuard.
Section guard.
Context `{!Sha256} {S : Type}.

Definition tryVerifyJwt (token : string) : prog ev S (option AuthenticatedPrincipal) :=
  try_catch (p ← AuthService.verifyJwt token; Ret (Some p)) (λ _, Ret None).

(** [canActivate]: returns the principal it stores in [request.user]. *)
Definition canActivate (authorization : option string) : prog ev S AuthenticatedPrincipal :=
  let malformed := Throw (UnauthorizedException "Missing or malformed Authorization header") in
  match authorization with
  | None => malformed
  | Some header =>
      if startsWith "Bearer " header then
        let token := slice_from (String.length "Bearer ") header in
        principal ← (if startsWith "mc_" token then AuthService.validateApiKey token else tryVerifyJwt token);
        match principal with
        | None => Throw (UnauthorizedException "Invalid or revoked credentials")
        | Some p => Ret p
        end
      else malformed
  end.
  End guard.
End AuthGuard.

(** ** guards/scopes.guard.ts *)

Module ScopesGuard.
Definition missing_scopes (required granted : list string) : list string :=
  List.filter (λ scope, negb (arr_includes scope granted)) required.

(** [canActivate]; [required = None] on a route without [@RequireScopes], and
    [user = None] when no guard authenticated the request. *)
Definition canActivate {S} (required : option (list string)) (user : option AuthenticatedPrincipal) : prog ev S unit :=
  match required with
  | None | Some [] => Ret tt
  | Some required =>
      let granted := match user with Some p => scopes p | None => [] end in
      let missing := missing_scopes required granted in
      if (0 <? length missing)%nat
      then Throw (ForbiddenException ("Missing required scope(s): " +:+ join ", " missing))
      else Ret tt
  end.
End ScopesGuard.

(** ** Lemmas *)

Lemma elem_missing_scopes sc required granted :
  sc ∈ ScopesGuard.missing_scopes required granted ↔ sc ∈ required ∧ sc ∉ granted.
Proof.
  unfold ScopesGuard.missing_scopes, arr_includes. rewrite elem_of_filterb.
  rewrite negb_true_iff, bool_decide_eq_false. done.
Qed.

Lemma missing_scopes_nil required granted :
  ScopesGuard.missing_scopes required granted = [] ↔ ∀ sc, sc ∈ required → sc ∈ granted.
Proof.
  split.
  - intros H sc Hsc. destruct (decide (sc ∈ granted)) as [|Hn]; [done|].
    assert (sc ∈ ScopesGuard.missing_scopes required granted) as Hm by by apply elem_missing_scopes.
    rewrite H in Hm. set_solver.
  - intros H. destruct (ScopesGuard.missing_scopes required granted) as [|sc l] eqn:E; [done|].
    assert (sc ∈ ScopesGuard.missing_scopes required granted) as [Hr Hg]%elem_missing_scopes by (rewrite E; set_solver).
    destruct Hg. auto.
Qed.

(** The contract of the password and token libraries: [bcrypt.compare] decides
    whether a password matches a hash, [bcrypt.hash] returns a matching hash; a
    token carries its claims, which [verify] returns when it accepts it, and the
    compact serialisation of a token never starts like an API key. *)
Class LibEnv {W} (env : Env ev W) := {
  bcrypt_matches : string → string → bool;
  jwt_claims : string → option JwtPayload;
  bcrypt_hash_ok : ∀ pw n w h w', env _ (Lib (BcryptHash pw n)) w (Ok h) w' → bcrypt_matches pw h = true;
  bcrypt_compare_ok : ∀ pw h w b w', env _ (Lib (BcryptCompare pw h)) w (Ok b) w' → b = bcrypt_matches pw h;
  jwt_sign_ok : ∀ p w tok w', env _ (Lib (JwtSign p)) w (Ok tok) w' →
    jwt_claims tok = Some p ∧ startsWith API_KEY_PREFIX tok = false;
  jwt_verify_ok : ∀ tok w p w', env _ (Lib (JwtVerify tok)) w (Ok p) w' → jwt_claims tok = Some p;
  lib_failure : ∀ X (e : lib_eff X) w x w', env _ (Lib e) w (Err x) w' → infra_failure x;
}.

Section auth_facts.
Context `{SHA : Sha256} {S W : Type} (env : Env ev W) (view : W → tables) `{!DbEnv env view}.
Context (R : S → S → Prop).

(** What [validateApiKey] answers. *)
Lemma validate_spec rawKey s w o s' w' :
  exec env R (AuthService.validateApiKey rawKey) s w o s' w' →
  match o with
  | Ok None => ∀ k, find_key_by_hash (sha256_hex rawKey) (view w) = Some k → key_revokedAt k ≠ None
  | Ok (Some p) => ∃ k, find_key_by_hash (sha256_hex rawKey) (view w) = Some k ∧
      key_revokedAt k = None ∧ p = {| userId := key_userId k; scopes := key_scopes k |}
  | Err x => infra_failure x
  end.
Proof.
  intros Hx. by_wp Hx. unfold AuthService.validateApiKey. simpl.
  step; [|naive_solver]. destruct (find_key_by_hash _ (view w)) as [k|] eqn:Hk; simpl; [|naive_solver].
  destruct (key_revokedAt k) eqn:Hr; simpl; [naive_solver|].
  answer. answer. eauto.
Qed.

(** A revoked key, and its permanence. *)
Definition revoked (h : string) (t : tables) : Prop :=
  ∃ k, find_key_by_hash h t = Some k ∧ key_revokedAt k ≠ None.

Lemma find_key_update h P f t k :
  (∀ k, key_keyHash (f k) = key_keyHash k) →
  find_key_by_hash h t = Some k →
  find_key_by_hash h (set_keys (update_where P f (t_keys t)) t) = Some (if P k then f k else k).
Proof.
  intros Hf. unfold find_key_by_hash. simpl. induction (t_keys t) as [|k0 l IH]; simpl; [done|].
  destruct (decide (key_keyHash k0 = h)) as [He|Hne].
  - rewrite bool_decide_eq_true_2 by done. intros [= <-].
    rewrite bool_decide_eq_true_2; [done|]. by destruct (P k0); rewrite ?Hf.
  - rewrite bool_decide_eq_false_2 by done. intros Hk.
    rewrite bool_decide_eq_false_2; [auto|]. by destruct (P k0); rewrite ?Hf.
Qed.

Lemma find_key_snoc h t k k' :
  find_key_by_hash h t = Some k → find_key_by_hash h (set_keys (t_keys t ++ [k']) t) = Some k.
Proof.
  unfold find_key_by_hash. simpl. induction (t_keys t) as [|k0 l IH]; simpl; [done|].
  by case_bool_decide.
Qed.

Lemma revoked_db_ref h draw now {X} (e : db_eff X) t :
  revoked h t → revoked h (db_ref draw now e t).2.
Proof.
  revert t. induction e; intros t Hr; simpl; try exact Hr.
  all: try (repeat case_match; simpl; try exact Hr;
    first [ destruct Hr as (k & Hk & Hrev); by eexists; split; [by apply find_key_snoc|]
          | destruct Hr as (k & Hk & Hrev); eexists; split;
            [by eapply find_key_update|]; by case_bool_decide ]).
  specialize (IHe1 t Hr). destruct (db_ref draw now e1 t) as [[x|z] t1]; simpl in *; [|done].
  specialize (IHe2 t1 IHe1). by destruct (db_ref draw now e2 t1) as [[y|z] t2].
Qed.

Lemma revoked_db_spec h {X} (e : db_eff X) t r t' : db_spec e t r t' → revoked h t → revoked h t'.
Proof.
  intros [(draw & now & _ & Href)|(x & _ & _ & ->)] Hr; [|done].
  pose proof (revoked_db_ref h draw now e t Hr) as H. by rewrite Href in H.
Qed.

(** A successful revocation marks the key revoked. *)
Lemma revoke_marks uid k s w s' w' :
  schema_ok (view w) → k ∈ t_keys (view w) →
  exec env R (AuthService.revokeApiKey uid (key_id k)) s w (Ok tt) s' w' →
  key_userId k = uid ∧ revoked (key_keyHash k) (view w').
Proof.
  intros Hok Hk Hx. remember (Ok tt) as o eqn:Ho. revert Ho.
  assert (find_key_by_id (key_id k) (view w) = Some k) as Hfind.
  { apply find_bd_unique; [apply Hok|done]. }
  assert (find_key_by_hash (key_keyHash k) (view w) = Some k) as Hhash.
  { apply find_bd_unique; [apply Hok|done]. }
  by_wp Hx. unfold AuthService.revokeApiKey. simpl.
  step; [|done]. rewrite Hfind. case_decide; simpl; [done|]. answer. step; try done.
  intros _. views. split; [done|].
  eexists. split; [by eapply find_key_update|]. by rewrite bool_decide_eq_true_2.
Qed.
End auth_facts.

(** ** Properties *)

Section auth_properties.
Context `{SHA : Sha256} {S W : Type} (env : Env ev W) (view : W → tables).
Context `{DBE : !DbEnv env view} (R : S → S → Prop).

(** C1: a key that a revocation returned success for never authenticates again:
    whatever programs run afterwards, [validateApiKey] on its raw key answers
    null (or the database is unreachable); and the revocation succeeded only for
    the key's owner. *)
Theorem revoked_key_never_authenticates {A : Type} uid rawKey k (p : prog ev S A) s w s1 w1 o2 s2 w2 o s3 w3 :
  schema_ok (view w) →
  k ∈ t_keys (view w) → key_keyHash k = sha256_hex rawKey →
  exec env R (AuthService.revokeApiKey uid (key_id k)) s w (Ok tt) s1 w1 →
  exec env R p s1 w1 o2 s2 w2 →
  exec env R (AuthService.validateApiKey rawKey) s2 w2 o s3 w3 →
  key_userId k = uid ∧ (o = Ok None ∨ ∃ x, o = Err x ∧ infra_failure x).
Proof.
  intros Hok Hk Hh Hrev Hp Hval.
  destruct (revoke_marks env view R uid k _ _ _ _ Hok Hk Hrev) as [Ho Hr]. split; [done|].
  rewrite Hh in Hr.
  apply (exec_preserves env view R (revoked (sha256_hex rawKey))) in Hp as (k' & Hk' & Hr');
    [|intros; eauto using revoked_db_spec|done].
  apply (validate_spec env view R) in Hval. destruct o as [[pr|]|x]; [|by left|by right; eauto].
  destruct Hval as (k2 & Hk2 & Hn & _). naive_solver.
Qed.

(** C22: an API key authenticates as soon as it is created: the header
    [Bearer <rawKey>] is accepted by [AuthGuard] with the owner and exactly the
    scopes of the request (or the database is unreachable). *)
Theorem created_key_authenticates uid dto s w c s1 w1 o s2 w2 :
  exec env R (AuthService.createApiKey uid dto) s w (Ok c) s1 w1 →
  exec env R (AuthGuard.canActivate (Some ("Bearer " +:+ created_rawKey c))) s1 w1 o s2 w2 →
  o = Ok {| userId := uid; scopes := dto_scopes dto |} ∨ ∃ x, o = Err x ∧ infra_failure x.
Proof.
  intros Hc Hg.
  assert (startsWith "mc_" (created_rawKey c) = true ∧ ∃ k,
    find_key_by_hash (sha256_hex (created_rawKey c)) (view w1) = Some k ∧ key_revokedAt k = None ∧
    key_userId k = uid ∧ key_scopes k = dto_scopes dto) as (Hmc & k & Hk & Hr & Hu & Hs).
  { clear Hg. remember (Ok c) as oc eqn:Hoc. revert Hoc. by_wp Hc.
    unfold AuthService.createApiKey. simpl. answer. step; try done. intros [= <-]. views.
    split; [apply (startsWith_app API_KEY_PREFIX)|].
    eexists. split; [apply find_snoc_new; [done|]|]; [by rewrite bool_decide_eq_true_2|done]. }
  by_wp Hg. unfold AuthGuard.canActivate.
  rewrite startsWith_app, (slice_from_app "Bearer "), Hmc. apply wp_bind.
  apply wp_exec. intros o' s' w' Hv. apply (validate_spec env view R) in Hv.
  destruct o' as [[p|]|x]; simpl; [left| |eauto].
  - destruct Hv as (k2 & Hk2 & _ & ->). rewrite Hk in Hk2. injection Hk2 as <-. by rewrite Hu, Hs.
  - by destruct (Hv k Hk).
Qed.
End auth_properties.

Section auth_library_properties.
Context `{SHA : Sha256} {S W : Type} (env : Env ev W) (view : W → tables).
Context `{DBE : !DbEnv env view} `{LIB : !LibEnv env} (R : S → S → Prop).

(** What [login] answers, on the tables it read. *)
Definition login_verdict (dto : LoginDto) (o : outcome string) (t : tables) : Prop :=
  match o with
  | Ok tok => ∃ u, find_user_by_email (login_email dto) t = Some u ∧
      bcrypt_matches (login_password dto) (user_passwordHash u) = true ∧
      jwt_claims tok = Some {| jwt_sub := user_id u; jwt_scopes := ALL_SCOPES |}
  | Err (HttpException status message) =>
      status = 401 ∧ message = "Invalid email or password" ∧
      ∀ u, find_user_by_email (login_email dto) t = Some u →
           bcrypt_matches (login_password dto) (user_passwordHash u) = false
  | Err x => infra_failure x
  end.

Lemma login_spec dto s w o s' w' :
  exec env R (AuthService.login dto) s w o s' w' → view w' = view w ∧ login_verdict dto o (view w).
Proof.
  intros Hx. by_wp Hx. unfold login_verdict, AuthService.login. simpl.
  step; [|by destruct x]. destruct (find_user_by_email _ (view w)) as [u|] eqn:Hu; simpl; [|by views].
  step. destruct r as [b|x]; simpl.
  - apply bcrypt_compare_ok in Henv. destruct b; simpl.
    + step. destruct r as [tok|x]; simpl.
      * apply jwt_sign_ok in Henv0 as [Hc _]. views. split; [done|]. by exists u.
      * apply lib_failure in Henv0. views. by destruct x.
    + views. split; [done|]. split_and!; [done..|]. intros u' [= <-]. done.
  - apply lib_failure in Henv. views. by destruct x.
Qed.

(** [login] succeeds only for an existing account whose hash matches the
    password, with a token for that account carrying every scope; every HTTP
    failure is the same 401, whether the email is unknown or the password is
    wrong; it never changes the tables. *)
Theorem login_correct dto s w o s' w' :
  exec env R (AuthService.login dto) s w o s' w' →
  view w' = view w ∧
  match o with
  | Ok tok => ∃ u, find_user_by_email (login_email dto) (view w) = Some u ∧
      bcrypt_matches (login_password dto) (user_passwordHash u) = true ∧
      jwt_claims tok = Some {| jwt_sub := user_id u; jwt_scopes := ALL_SCOPES |}
  | Err (HttpException status message) =>
      status = 401 ∧ message = "Invalid email or password" ∧
      ∀ u, find_user_by_email (login_email dto) (view w) = Some u →
           bcrypt_matches (login_password dto) (user_passwordHash u) = false
  | Err x => infra_failure x
  end.
Proof. apply login_spec. Qed.

(** C23: after a registration, logging in with the same credentials cannot be
    refused: it yields a token of the new account with every scope, or a service
    is unreachable. *)
Theorem register_then_login email pw uid s w s1 w1 o s2 w2 :
  exec env R (AuthService.register {| reg_email := email; reg_password := pw |}) s w (Ok uid) s1 w1 →
  exec env R (AuthService.login {| login_email := email; login_password := pw |}) s1 w1 o s2 w2 →
  (∃ tok, o = Ok tok ∧ jwt_claims tok = Some {| jwt_sub := uid; jwt_scopes := ALL_SCOPES |}) ∨
  (∃ x, o = Err x ∧ infra_failure x).
Proof.
  intros Hreg Hlog.
  assert (∃ u, find_user_by_email email (view w1) = Some u ∧ user_id u = uid ∧
            bcrypt_matches pw (user_passwordHash u) = true) as (u & Hu & Hid & Hm).
  { clear Hlog. remember (Ok uid) as oc eqn:Hoc. revert Hoc. by_wp Hreg.
    unfold AuthService.register. simpl. answer. destruct r as [h|x]; simpl; [|done].
    apply bcrypt_hash_ok in Henv. step; try done; try (by case_match). intros [= <-]. views.
    eexists. split; [apply find_snoc_new; [done|]|]; [by rewrite bool_decide_eq_true_2|done]. }
  apply login_spec in Hlog as [_ Hlog]; unfold login_verdict in Hlog; simpl in *. destruct o as [tok|x].
  - left. destruct Hlog as (u' & Hu' & _ & Hc). rewrite Hu in Hu'. injection Hu' as <-. subst. eauto.
  - right. exists x. split; [done|]. destruct x; try done.
    destruct Hlog as (_ & _ & Hno). rewrite (Hno u Hu) in Hm. done.
Qed.

(** A header that proves the principal [p]. *)
Definition authentic (header : option string) (p : AuthenticatedPrincipal) (t : tables) : Prop :=
  ∃ tok, header = Some ("Bearer " +:+ tok) ∧
      (if startsWith API_KEY_PREFIX tok
       then ∃ k, find_key_by_hash (sha256_hex tok) t = Some k ∧ key_revokedAt k = None ∧
                 userId p = key_userId k ∧ scopes p = key_scopes k
       else jwt_claims tok = Some {| jwt_sub := userId p; jwt_scopes := scopes p |}).

(** What [AuthGuard] answers, on the tables it read. *)
Definition guard_verdict (header : option string) (o : outcome AuthenticatedPrincipal) (t : tables) : Prop :=
  match o with
  | Ok p => authentic header p t
  | Err (HttpException status _) => status = 401 ∧
      ∀ tok k, header = Some ("Bearer " +:+ tok) → startsWith API_KEY_PREFIX tok = true →
        find_key_by_hash (sha256_hex tok) t = Some k → key_revokedAt k ≠ None
  | Err x => infra_failure x
  end.

Lemma auth_guard_spec header s w o s' w' :
  exec env R (AuthGuard.canActivate header) s w o s' w' → guard_verdict header o (view w).
Proof.
  intros Hx. by_wp Hx. unfold guard_verdict, authentic, AuthGuard.canActivate.
  destruct header as [header|]; [|by split].
  destruct (startsWith "Bearer " header) eqn:Hb.
  2: { simpl. split; [done|]. intros tok k [= ->]. by rewrite startsWith_app in Hb. }
  apply startsWith_slice in Hb.
  set (tok := slice_from (String.length "Bearer ") header) in *. clearbody tok. subst header.
  assert (∀ tok', Some ("Bearer " +:+ tok) = Some ("Bearer " +:+ tok') → tok' = tok) as Hinj.
  { intros tok' [= H]. exact (eq_sym H). }
  apply wp_bind. apply wp_exec. intros o' s1 w1 Hv.
  change "mc_" with API_KEY_PREFIX in Hv. destruct (startsWith API_KEY_PREFIX tok) eqn:Hmc.
  - apply (validate_spec env view R) in Hv. destruct o' as [[p|]|x]; simpl.
    + destruct Hv as (k & Hk & Hr & ->). exists tok. rewrite Hmc. eauto 10.
    + split; [done|]. intros tok' k ->%Hinj _. apply Hv.
    + by destruct x.
  - revert Hv. intros Hv. by_wp Hv. unfold AuthGuard.tryVerifyJwt, AuthService.verifyJwt. simpl.
    answer. destruct r as [p|x]; simpl.
    + apply jwt_verify_ok in Henv. exists tok. rewrite Hmc. by destruct p.
    + split; [done|]. intros tok' k ->%Hinj. congruence.
Qed.

(** C13: [AuthGuard] lets a request through only with a credential: an
    unrevoked API key of the stored hash, whose owner and scopes become the
    principal, or a token the verifier accepted, whose claims do; its HTTP
    failures are all 401, and a well-formed unrevoked API key is never refused. *)
Theorem auth_guard_correct header s w o s' w' :
  exec env R (AuthGuard.canActivate header) s w o s' w' →
  match o with
  | Ok p => ∃ tok, header = Some ("Bearer " +:+ tok) ∧
      (if startsWith API_KEY_PREFIX tok
       then ∃ k, find_key_by_hash (sha256_hex tok) (view w) = Some k ∧ key_revokedAt k = None ∧
                 userId p = key_userId k ∧ scopes p = key_scopes k
       else jwt_claims tok = Some {| jwt_sub := userId p; jwt_scopes := scopes p |})
  | Err (HttpException status _) => status = 401 ∧
      ∀ tok k, header = Some ("Bearer " +:+ tok) → startsWith API_KEY_PREFIX tok = true →
        find_key_by_hash (sha256_hex tok) (view w) = Some k → key_revokedAt k ≠ None
  | Err x => infra_failure x
  end.
Proof. apply auth_guard_spec. Qed.
End auth_library_properties.

(** [ScopesGuard] lets a request through exactly when every scope the route
    requires is granted, and otherwise answers 403 naming exactly the missing
    scopes; a route without [@RequireScopes] passes, and a request without a
    principal holds no scope. *)
Theorem scopes_guard_correct {S W} (env : Env ev W) R required user (s : S) w o s' w' :
  exec env R (ScopesGuard.canActivate required user) s w o s' w' →
  let needed := default [] required in
  let granted := match user with Some p => scopes p | None => [] end in
  s' = s ∧ w' = w ∧
  ((o = Ok tt ∧ ∀ sc, sc ∈ needed → sc ∈ granted) ∨
   (∃ missing, o = Err (ForbiddenException ("Missing required scope(s): " +:+ join ", " missing)) ∧
      missing ≠ [] ∧ ∀ sc, sc ∈ missing ↔ sc ∈ needed ∧ sc ∉ granted)).
Proof.
  intros Hx needed granted. by_wp Hx. unfold ScopesGuard.canActivate.
  assert (∀ r, needed = r → r ≠ [] →
    wp env R (if (0 <? length (ScopesGuard.missing_scopes r granted))%nat
      then Throw (ForbiddenException ("Missing required scope(s): " +:+ join ", " (ScopesGuard.missing_scopes r granted)))
      else Ret tt) s w (λ o s' w', s' = s ∧ w' = w ∧
        ((o = Ok tt ∧ ∀ sc, sc ∈ needed → sc ∈ granted) ∨
         (∃ missing, o = Err (ForbiddenException ("Missing required scope(s): " +:+ join ", " missing)) ∧
            missing ≠ [] ∧ ∀ sc, sc ∈ missing ↔ sc ∈ needed ∧ sc ∉ granted)))) as Hmain.
  { intros r -> _. destruct (ScopesGuard.missing_scopes r granted) as [|m l] eqn:E; simpl;
      (split; [done|]; split; [done|]).
    - left. split; [done|]. by apply missing_scopes_nil.
    - right. exists (m :: l). split_and!; [done..|]. intros sc. rewrite <- E. apply elem_missing_scopes. }
  destruct required as [[|r rs]|]; simpl in *.
  - split_and!; [done..|]. left. split; [done|]. intros sc Hsc. by apply not_elem_of_nil in Hsc.
  - by apply (Hmain (r :: rs)).
  - split_and!; [done..|]. left. split; [done|]. intros sc Hsc. by apply not_elem_of_nil in Hsc.
Qed.

(** ** Concrete executions *)

Module AuthDemo.
Definition demo_sha : Sha256 := λ s, "sha256:" +:+ s.

(** Tokens carry their claims as a number; hashes carry their password. *)
Definition token_of (p : JwtPayload) : string :=
  "jwt" +:+ string_of_Z (Zpos (encode (jwt_sub p, jwt_scopes p))).
Definition claims_of (tok : string) : option JwtPayload :=
  match Number (slice_from 3 tok) with
  | Some (Zpos n) => (λ x, {| jwt_sub := x.1; jwt_scopes := x.2 |}) <$> decode (A := string * list string) n
  | _ => None
  end.

Definition lib_answer : ∀ X, ev X → mem → X :=
  λ X e, match e in ev X return mem → X with
         | Lib e' => λ _, match e' in lib_eff X return outcome X with
                     | BcryptHash pw _ => Ok ("bcrypt:" +:+ pw)
                     | BcryptCompare pw h => Ok (bool_decide (h = "bcrypt:" +:+ pw))
                     | JwtSign p => Ok (token_of p)
                     | JwtVerify tok => match claims_of tok with
                                        | Some p => Ok p | None => Err (JsError "invalid token") end
                     end
         | e => quiet _ e
         end.

Lemma claims_of_token p : claims_of (token_of p) = Some p.
Proof.
  unfold claims_of, token_of. rewrite (slice_from_app "jwt"), Number_string_of_Z.
  rewrite decode_encode. by destruct p.
Qed.

#[export, refine] Instance lib_answer_env : LibEnv (env_of (mem_env lib_answer)) :=
  {| bcrypt_matches pw h := bool_decide (h = "bcrypt:" +:+ pw); jwt_claims := claims_of |}.
Proof.
  - intros pw n w h w' [= <- _]. by apply bool_decide_eq_true.
  - by intros pw h w b w' [= <- _].
  - intros p w tok w' [= <- _]. split; [apply claims_of_token|done].
  - intros tok w p w'. unfold env_of, mem_env, lib_answer. destruct (claims_of tok); intros [= <- _]; done.
  - intros X e w x w'. unfold env_of, mem_env, lib_answer. destruct e; try done.
    destruct (claims_of token); intros [= <- _]. done.
Defined.

Definition alice : User := {| user_id := "u-alice"; user_email := "alice@example.com"; user_passwordHash := "bcrypt:correct horse"; user_createdAt := 1 |}.
Definition alice_key : ApiKey := {| key_id := "k-1"; key_userId := "u-alice"; key_keyHash := "sha256:mc_1"; key_name := "ci";
  key_scopes := ["functions:invoke"]; key_lastUsedAt := None; key_revokedAt := None; key_createdAt := 2 |}.
Definition tables1 : tables := set_users [alice] (set_keys [alice_key] empty_tables).
Definition world : mem := mem_of tables1.
Definition env := env_of (mem_env lib_answer).
End AuthDemo.

#[local] Existing Instance AuthDemo.demo_sha.
#[local] Existing Instance AuthDemo.lib_answer_env.

Lemma revoked_key_never_authenticates_witness :
  ∃ s1 w1 o2 s2 w2 o s3 w3,
    exec AuthDemo.env still (AuthService.revokeApiKey "u-alice" "k-1") tt AuthDemo.world (Ok tt) s1 w1 ∧
    exec AuthDemo.env still (AuthService.listApiKeys "u-alice") s1 w1 o2 s2 w2 ∧
    exec AuthDemo.env still (AuthService.validateApiKey "mc_1") s2 w2 o s3 w3 ∧
    (o = Ok None ∨ ∃ x, o = Err x ∧ infra_failure x).
Proof.
  eexists _, _, _, _, _, _, _, _. split; [executes|]. split; [executes|]. split; [executes|].
  eapply (revoked_key_never_authenticates AuthDemo.env mem_tables still "u-alice" "mc_1" AuthDemo.alice_key
            (AuthService.listApiKeys "u-alice") tt AuthDemo.world).
  - apply schema_okb_ok. vm_compute. reflexivity.
  - simpl. set_solver.
  - reflexivity.
  - executes.
  - executes.
  - executes.
Defined.

Definition demo_dto : CreateApiKeyDto := {| dto_name := "deploy"; dto_scopes := ["functions:read"; "functions:write"] |}.

Lemma created_key_authenticates_witness :
  ∃ c s1 w1 o s2 w2,
    exec AuthDemo.env still (AuthService.createApiKey "u-alice" demo_dto) tt AuthDemo.world (Ok c) s1 w1 ∧
    exec AuthDemo.env still (AuthGuard.canActivate (Some ("Bearer " +:+ created_rawKey c))) s1 w1 o s2 w2 ∧
    (o = Ok {| userId := "u-alice"; scopes := ["functions:read"; "functions:write"] |} ∨
     ∃ x, o = Err x ∧ infra_failure x).
Proof.
  eexists _, _, _, _, _, _. split; [executes|]. split; [executes|].
  eapply (created_key_authenticates AuthDemo.env mem_tables still "u-alice" demo_dto tt AuthDemo.world); executes.
Defined.

Lemma login_correct_witness :
  ∃ o s' w',
    exec AuthDemo.env still (AuthService.login {| login_email := "alice@example.com"; login_password := "guess" |}) tt AuthDemo.world o s' w' ∧
    o = Err (UnauthorizedException "Invalid email or password") ∧
    mem_tables w' = AuthDemo.tables1.
Proof.
  eexists _, _, _. split; [executes|]. split; [reflexivity|].
  eapply (login_correct AuthDemo.env mem_tables still
            {| login_email := "alice@example.com"; login_password := "guess" |} tt AuthDemo.world). executes.
Defined.

Lemma register_then_login_witness :
  ∃ uid s1 w1 o s2 w2,
    exec AuthDemo.env still (AuthService.register {| reg_email := "bob@example.com"; reg_password := "hunter22" |}) tt AuthDemo.world (Ok uid) s1 w1 ∧
    exec AuthDemo.env still (AuthService.login {| login_email := "bob@example.com"; login_password := "hunter22" |}) s1 w1 o s2 w2 ∧
    is_Ok o = true ∧
    ((∃ tok, o = Ok tok ∧ AuthDemo.claims_of tok = Some {| jwt_sub := uid; jwt_scopes := ALL_SCOPES |}) ∨
     (∃ x, o = Err x ∧ infra_failure x)).
Proof.
  eexists _, _, _, _, _, _. split; [executes|]. split; [executes|]. split; [reflexivity|].
  eapply (register_then_login (LIB := AuthDemo.lib_answer_env) AuthDemo.env mem_tables still "bob@example.com" "hunter22" _ tt AuthDemo.world); executes.
Defined.

Lemma auth_guard_correct_witness :
  ∃ o s' w',
    exec AuthDemo.env still (AuthGuard.canActivate (Some "Bearer mc_1")) tt AuthDemo.world o s' w' ∧
    o = Ok {| userId := "u-alice"; scopes := ["functions:invoke"] |} ∧
    (∃ tok, Some "Bearer mc_1" = Some ("Bearer " +:+ tok) ∧
      if startsWith API_KEY_PREFIX tok
      then ∃ k, find_key_by_hash (AuthDemo.demo_sha tok) AuthDemo.tables1 = Some k ∧ key_revokedAt k = None ∧
                "u-alice" = key_userId k ∧ ["functions:invoke"] = key_scopes k
      else AuthDemo.claims_of tok = Some {| jwt_sub := "u-alice"; jwt_scopes := ["functions:invoke"] |}).
Proof.
  eexists _, _, _. split; [executes|]. split; [reflexivity|].
  eapply (auth_guard_correct (LIB := AuthDemo.lib_answer_env) AuthDemo.env mem_tables still (Some "Bearer mc_1") tt AuthDemo.world
            (Ok {| userId := "u-alice"; scopes := ["functions:invoke"] |})). executes.
Defined.

Lemma scopes_guard_correct_witness :
  ∃ o s' w',
    exec AuthDemo.env still (ScopesGuard.canActivate (Some ["functions:write"; "functions:invoke"])
        (Some {| userId := "u-alice"; scopes := ["functions:invoke"] |})) tt AuthDemo.world o s' w' ∧
    o = Err (ForbiddenException "Missing required scope(s): functions:write") ∧ w' = AuthDemo.world.
Proof.
  eexists _, _, _. split; [executes|]. split; [reflexivity|].
  eapply (scopes_guard_correct AuthDemo.env still (Some ["functions:write"; "functions:invoke"])
            (Some {| userId := "u-alice"; scopes := ["functions:invoke"] |}) tt AuthDemo.world). executes.
Defined.
