(* ===== verification/Registry.v ===== *)
(** * The worker registry (src/worker-registry)

    [WorkerRegistryService]: one Redis hash from worker id to the JSON of its
    last heartbeat, and the health and spare-capacity tests read from it. *)

From S2P Require Import Prelude Json JsonText Prog Services Percentile Database Schema.

Record WorkerHeartbeat := {
  workerId : string; capacity : Z; inFlight : Z; lastHeartbeatAt : Z }.

(** A registry entry as [listWorkers] returns it: the fields of the parsed JSON
    ([None]: absent or of another type) and the computed [healthy]. *)
Record WorkerStatus := {
  st_workerId : option string; st_capacity : option Z; st_inFlight : option Z;
  st_lastHeartbeatAt : option Z; st_healthy : bool }.

Definition REGISTRY_KEY : string := "workers:registry".
Definition STALE_AFTER_MS : Z := 10000.

Definition heartbeat_json (h : WorkerHeartbeat) : json :=
  JObj [("workerId", JStr (workerId h)); ("capacity", JNum (capacity h));
        ("inFlight", JNum (inFlight h)); ("lastHeartbeatAt", JNum (lastHeartbeatAt h))].

Definition num_field (key : string) (v : json) : option Z :=
  match json_get key v with Some (JNum n) => Some n | _ => None end.
Definition str_field (key : string) (v : json) : option string :=
  match json_get key v with Some (JStr s) => Some s | _ => None end.

(** [a < b] and [a <= b] when an operand may be [undefined] (NaN). *)
Definition js_lt (a b : option Z) : bool :=
  match a, b with Some x, Some y => x <? y | _, _ => false end.

Definition status_of_json (now : Z) (info : json) : WorkerStatus :=
  {| st_workerId := str_field "workerId" info;
     st_capacity := num_field "capacity" info;
     st_inFlight := num_field "inFlight" info;
     st_lastHeartbeatAt := num_field "lastHeartbeatAt" info;
     st_healthy := match num_field "lastHeartbeatAt" info with
                   | Some t => now - t <=? STALE_AFTER_MS
                   | None => false
                   end |}.

Definition spare (w : WorkerStatus) : bool :=
  st_healthy w && js_lt (st_inFlight w) (st_capacity w).

Module WorkerRegistryService.
Section service.
Context `{JC : JsonCodec} {S : Type}.

Definition heartbeat (info : WorkerHeartbeat) : prog ev S unit :=
  _ ← redis (Hset REGISTRY_KEY (workerId info) (JSON_stringify (heartbeat_json info)));
  Ret tt.

Definition deregister (id : string) : prog ev S unit :=
  _ ← redis (Hdel REGISTRY_KEY id);
  Ret tt.

(** The callback of [Object.values(raw).map(...)]: [JSON.parse] throws on bad
    JSON, and reading a property of [null] throws. *)
Fixpoint parse_workers (now : Z) (raw : list (string * string)) : outcome (list WorkerStatus) :=
  match raw with
  | [] => Ok []
  | (_, text) :: raw' =>
      match JSON_parse text with
      | None => Err (JsError "Unexpected token in JSON")
      | Some JNull => Err (JsError "Cannot read properties of null (reading 'lastHeartbeatAt')")
      | Some info => match parse_workers now raw' with
                     | Ok l => Ok (status_of_json now info :: l)
                     | Err x => Err x
                     end
      end
  end.

Definition listWorkers : prog ev S (list WorkerStatus) :=
  raw ← redis (Hgetall REGISTRY_KEY);
  now ← sys DateNow;
  of_outcome (parse_workers now raw).

Definition hasSpareCapacity : prog ev S bool :=
  workers ← listWorkers;
  Ret (existsb spare workers).
  End service.
End WorkerRegistryService.

(** ** The contract of Redis hashes *)

(** [hash w] is the content of every hash key: [HSET], [HDEL] and [HGETALL] act
    on it as documented, no other call of the platform touches it, and a failed
    command has no effect. *)
Class RedisHashEnv {W} (env : Env ev W) (hash : W → gmap (string * string) string) :=
  redis_hash : ∀ X (e : ev X) w r w', env X e w r w' →
    match e in ev X return X → Prop with
    | Redis re =>
        match re in redis_eff Y return outcome Y → Prop with
        | Hset k f v => λ r, hash w' = if is_Ok r then <[(k, f) := v]> (hash w) else hash w
        | Hdel k f => λ r, hash w' = if is_Ok r then delete (k, f) (hash w) else hash w
        | Hgetall k => λ r, hash w' = hash w ∧
            match r with Ok l => ∀ f v, (f, v) ∈ l ↔ hash w !! (k, f) = Some v | Err _ => True end
        | _ => λ _, hash w' = hash w
        end
    | _ => λ _, hash w' = hash w
    end r.

(** ** The abstract registry *)

(** What the service promises its clients: a map from worker id to the last
    heartbeat; [Object.values] order is not part of the promise. *)
Inductive registry_op := OpHeartbeat (h : WorkerHeartbeat) | OpDeregister (id : string).

Definition spec_op (m : gmap string WorkerHeartbeat) (op : registry_op) : gmap string WorkerHeartbeat :=
  match op with
  | OpHeartbeat h => <[workerId h := h]> m
  | OpDeregister id => delete id m
  end.

Definition run_op `{JC : JsonCodec} {S} (op : registry_op) : prog ev S unit :=
  match op with
  | OpHeartbeat h => WorkerRegistryService.heartbeat h
  | OpDeregister id => WorkerRegistryService.deregister id
  end.

Definition op_ok (op : registry_op) : bool :=
  match op with OpHeartbeat h => json_ok (heartbeat_json h) | OpDeregister _ => true end.

(** The hash [c] holds the JSON of the abstract registry [m]. *)
Definition refines `{JC : JsonCodec} (c : gmap (string * string) string) (m : gmap string WorkerHeartbeat) : Prop :=
  (∀ f, c !! (REGISTRY_KEY, f) = (λ h, JSON_stringify (heartbeat_json h)) <$> m !! f) ∧
  (∀ f h, m !! f = Some h → json_ok (heartbeat_json h) = true).

Section registry_facts.
Context `{JC : JsonCodec}.

Lemma parse_workers_elem now raw l st :
  WorkerRegistryService.parse_workers now raw = Ok l →
  st ∈ l ↔ ∃ f text info, (f, text) ∈ raw ∧ JSON_parse text = Some info ∧ st = status_of_json now info.
Proof.
  revert l. induction raw as [|[f text] raw IH]; intros l; simpl.
  - intros [= <-]. set_solver.
  - destruct (JSON_parse text) as [info|] eqn:Hp; [|done].
    assert (∀ l0, WorkerRegistryService.parse_workers now raw = Ok l0 →
      (st ∈ status_of_json now info :: l0 ↔ ∃ f0 text0 info0,
        (f0, text0) ∈ (f, text) :: raw ∧ JSON_parse text0 = Some info0 ∧ st = status_of_json now info0)) as Hmain.
    { intros l0 Hl0. rewrite elem_of_cons, (IH l0 Hl0). split.
      - intros [->|(f0 & t0 & i0 & Hin & ? & ?)]; [exists f, text, info|exists f0, t0, i0]; set_solver.
      - intros (f0 & t0 & i0 & [Heq|Hin]%elem_of_cons & ? & ?); [left; naive_solver|right; naive_solver]. }
    clear IH. destruct (WorkerRegistryService.parse_workers now raw) as [l1|x].
    + intros Heq. rewrite <- (Hmain l1 eq_refl). destruct info; by simplify_eq.
    + intros Heq. by destruct info.
Qed.

Lemma heartbeat_parse h :
  json_ok (heartbeat_json h) = true → JSON_parse (JSON_stringify (heartbeat_json h)) = Some (heartbeat_json h).
Proof. apply JSON_parse_stringify. Qed.

Lemma num_field_Some key v n : num_field key v = Some n ↔ json_get key v = Some (JNum n).
Proof. unfold num_field. destruct (json_get key v) as [[]|]; naive_solver. Qed.

Lemma healthy_test now t : bool_decide (now - t ≤ 10000) = (now - t <=? STALE_AFTER_MS).
Proof. unfold STALE_AFTER_MS. case_bool_decide; lia. Qed.

Lemma spare_status now info :
  spare (status_of_json now info) = true ↔ ∃ t c n,
    json_get "lastHeartbeatAt" info = Some (JNum t) ∧ now - t ≤ STALE_AFTER_MS ∧
    json_get "inFlight" info = Some (JNum n) ∧ json_get "capacity" info = Some (JNum c) ∧ n < c.
Proof.
  unfold spare, status_of_json; simpl. setoid_rewrite <- num_field_Some. split.
  - intros [Hh Hl]%andb_prop. unfold js_lt in Hl.
    destruct (num_field "lastHeartbeatAt" info) as [t|]; [|done].
    destruct (num_field "inFlight" info) as [n|]; [|done].
    destruct (num_field "capacity" info) as [c|]; [|done].
    exists t, c, n. split_and!; [done|lia|done|done|lia].
  - intros (t & c & n & -> & ? & -> & -> & ?). simpl. lia.
Qed.

Lemma status_of_heartbeat now h :
  status_of_json now (heartbeat_json h) =
    {| st_workerId := Some (workerId h); st_capacity := Some (capacity h); st_inFlight := Some (inFlight h);
       st_lastHeartbeatAt := Some (lastHeartbeatAt h);
       st_healthy := now - lastHeartbeatAt h <=? STALE_AFTER_MS |}.
Proof. reflexivity. Qed.
End registry_facts.

Section registry_properties.
Context `{JC : JsonCodec} {S : Type} (R : S → S → Prop).

(** The backpressure test answers true exactly when some entry of the hash
    it read is the JSON of a worker with a heartbeat at most ten seconds old at
    the clock it read and with fewer jobs in flight than its capacity. *)
Theorem spare_capacity_correct s b s' tr :
  exec (history_env ev) R WorkerRegistryService.hasSpareCapacity s [] (Ok b) s' tr →
  ∃ raw now,
    tr = [Entry (Redis (Hgetall REGISTRY_KEY)) (Ok raw); Entry (Sys DateNow) now] ∧
    (b = true ↔ ∃ f text info t c n, (f, text) ∈ raw ∧ JSON_parse text = Some info ∧
       json_get "lastHeartbeatAt" info = Some (JNum t) ∧ now - t ≤ STALE_AFTER_MS ∧
       json_get "inFlight" info = Some (JNum n) ∧ json_get "capacity" info = Some (JNum c) ∧ n < c).
Proof.
  unfold WorkerRegistryService.hasSpareCapacity, WorkerRegistryService.listWorkers. simpl.
  intros ([raw|x] & w1 & s1 & -> & _ & Hx); simpl in *; [|naive_solver].
  destruct Hx as (now & w2 & s2 & -> & _ & Hx); simpl in *.
  destruct (WorkerRegistryService.parse_workers now raw) as [l|x] eqn:Hl; simpl in *; [|naive_solver].
  destruct Hx as ([= ->] & _ & ->). exists raw, now. split; [done|].
  rewrite existsb_exists_elem. setoid_rewrite (parse_workers_elem now raw l _ Hl). split.
  - intros (st & (f & text & info & Hin & Hp & ->) & (t & c & n & H)%spare_status).
    by exists f, text, info, t, c, n.
  - intros (f & text & info & t & c & n & Hin & Hp & H).
    eexists. split; [by exists f, text, info|]. apply spare_status. by exists t, c, n.
Qed.
End registry_properties.

Section registry_refinement.
Context `{JC : JsonCodec} {S W : Type} (env : Env ev W) (hash : W → gmap (string * string) string).
Context `{RH : !RedisHashEnv env hash} (R : S → S → Prop).

Lemma run_op_refines op s w s' w' m :
  op_ok op = true → refines (hash w) m → exec env R (run_op op) s w (Ok tt) s' w' →
  refines (hash w') (spec_op m op).
Proof.
  intros Hop [Hm Hok]. destruct op as [h|id]; simpl;
    intros ([n|x] & w1 & s1 & He & _ & Hx); simpl in Hx; try naive_solver;
    apply redis_hash in He; simpl in He; destruct Hx as (_ & _ & ->);
    split; intros f; rewrite ?He.
  - destruct (decide (f = workerId h)) as [->|Hne].
    + by rewrite !lookup_insert_eq.
    + rewrite !lookup_insert_ne by congruence. apply Hm.
  - intros h'. rewrite lookup_insert. case_decide; [by intros [= <-]|apply Hok].
  - destruct (decide (f = id)) as [->|Hne].
    + by rewrite !lookup_delete_eq.
    + rewrite !lookup_delete_ne by congruence. apply Hm.
  - intros h'. rewrite lookup_delete. case_decide; [done|apply Hok].
Qed.

Lemma run_ops_refine ops s w s' w' m :
  forallb op_ok ops = true → refines (hash w) m →
  exec env R (for_each ops run_op) s w (Ok tt) s' w' →
  refines (hash w') (foldl spec_op m ops).
Proof.
  intros Hops Href Hx. remember (Ok tt) as o eqn:Ho. revert Ho. by_wp Hx.
  apply (wp_for_each env R (λ l s w, forallb op_ok l = true ∧
    ∃ m', refines (hash w) m' ∧ foldl spec_op m' l = foldl spec_op m ops)).
  - eauto.
  - intros op l s0 w0 [Hl (m' & Hm' & Hf)]. simpl in Hl. apply andb_prop in Hl as [Hop Hl].
    apply wp_exec. intros [[]|x] s1 w1 Hx; [|done].
    split; [done|]. exists (spec_op m' op). eauto using run_op_refines.
  - intros s0 w0 [_ (m' & Hm' & Hf)] _. simpl in Hf. by subst.
Qed.

(** C21: the registry refines a map from worker id to heartbeat: after any
    sequence of heartbeats and deregistrations, [listWorkers] makes two calls, the
    read of the hash and then one of the clock, and returns exactly the statuses of
    the workers of the map, each healthy iff its heartbeat is at most 10 000 ms
    older than what that reading of the clock answered. *)
Theorem registry_refines_map ops m s w s1 w1 l s2 w2 tr :
  forallb op_ok ops = true → refines (hash w) m →
  exec env R (for_each ops run_op) s w (Ok tt) s1 w1 →
  exec (logged env) R WorkerRegistryService.listWorkers s1 (w1, []) (Ok l) s2 (w2, tr) →
  ∃ raw now,
    tr = [Entry (Redis (Hgetall REGISTRY_KEY)) (Ok raw); Entry (Sys DateNow) now] ∧
    ∀ st, st ∈ l ↔ ∃ f h, foldl spec_op m ops !! f = Some h ∧
      st = {| st_workerId := Some (workerId h); st_capacity := Some (capacity h);
              st_inFlight := Some (inFlight h); st_lastHeartbeatAt := Some (lastHeartbeatAt h);
              st_healthy := bool_decide (now - lastHeartbeatAt h ≤ 10000) |}.
Proof.
  intros Hops Href Hx. pose proof (run_ops_refine _ _ _ _ _ _ Hops Href Hx) as [Hm Hok]. clear Hx.
  unfold WorkerRegistryService.listWorkers. simpl.
  intros ([raw|x] & [w3 tr3] & s3 & [He Htr3] & _ & Hx); simpl in Hx, He, Htr3; [|naive_solver].
  apply redis_hash in He as [_ Hraw]; simpl in Hraw.
  destruct Hx as (now & [w4 tr4] & s4 & [_ Htr4] & _ & Hx); simpl in Htr4.
  destruct (WorkerRegistryService.parse_workers now raw) as [l'|x] eqn:Hl; simpl in Hx; [|naive_solver].
  destruct Hx as ([= ->] & _ & [= -> ->]). exists raw, now. split; [by rewrite Htr4, Htr3|].
  intros st. rewrite (parse_workers_elem _ _ _ st Hl). setoid_rewrite healthy_test. split.
  - intros (f & text & info & Hin & Hp & ->). apply Hraw in Hin. rewrite Hm in Hin.
    destruct (foldl spec_op m ops !! f) as [h|] eqn:Hf; [|done]. simpl in Hin. simplify_eq.
    exists f, h. split; [done|]. rewrite heartbeat_parse in Hp by eauto. by simplify_eq.
  - intros (f & h & Hf & ->). exists f, (JSON_stringify (heartbeat_json h)), (heartbeat_json h).
    split_and!; [apply Hraw; by rewrite Hm, Hf|by eauto using heartbeat_parse|done].
Qed.
End registry_refinement.

(** ** Concrete executions *)

#[export] Instance mem_env_redis_hash answer : RedisHashEnv (env_of (mem_env answer)) mem_hash.
Proof.
  intros X e w r w' He. unfold env_of in He.
  destruct e as [X e|X e|X e|X e|X e|X e|X e]; simpl in *; simplify_eq/=; try done.
  - destruct (db_ref fresh_id (mem_clock w) e (mem_tables w)). by simplify_eq/=.
  - destruct e; simplify_eq/=; try done. split; [done|]. intros f v. unfold hash_fields.
    rewrite list_elem_of_fmap. split.
    + intros ([[k' f'] v'] & [= -> ->] & [Hin Hk%bool_decide_eq_true]%elem_of_filterb).
      simpl in Hk; subst. by apply elem_of_map_to_list in Hin.
    + intros H. exists ((key, f), v). split; [done|]. apply elem_of_filterb.
      split; [by apply elem_of_map_to_list|]. by apply bool_decide_eq_true.
Qed.

#[local] Existing Instance json_codec.

Module RegistryDemo.
Definition hb (id : string) (n t : Z) : WorkerHeartbeat :=
  {| workerId := id; capacity := 1; inFlight := n; lastHeartbeatAt := t |}.
Definition ops : list registry_op :=
  [OpHeartbeat (hb "w1" 0 999999); OpHeartbeat (hb "w2" 1 900000); OpHeartbeat (hb "w3" 0 999999); OpDeregister "w3"].
Definition env := env_of (mem_env quiet).
Definition world := mem_of empty_tables.
End RegistryDemo.

Lemma registry_refines_map_witness :
  ∃ s1 w1 l s2 w2 tr,
    exec RegistryDemo.env still (for_each RegistryDemo.ops run_op) tt RegistryDemo.world (Ok tt) s1 w1 ∧
    exec (logged RegistryDemo.env) still WorkerRegistryService.listWorkers s1 (w1, []) (Ok l) s2 (w2, tr) ∧
    map st_healthy l = [true; false] ∧
    ∃ raw now, tr = [Entry (Redis (Hgetall REGISTRY_KEY)) (Ok raw); Entry (Sys DateNow) now] ∧
      ∀ st, st ∈ l ↔ ∃ f h, foldl spec_op ∅ RegistryDemo.ops !! f = Some h ∧
        st = {| st_workerId := Some (workerId h); st_capacity := Some (capacity h);
                st_inFlight := Some (inFlight h); st_lastHeartbeatAt := Some (lastHeartbeatAt h);
                st_healthy := bool_decide (now - lastHeartbeatAt h ≤ 10000) |}.
Proof.
  eexists _, _, _, _, _, _. split; [executes|]. split; [executes_logged|]. split; [reflexivity|].
  eapply (registry_refines_map RegistryDemo.env mem_hash still RegistryDemo.ops ∅ tt RegistryDemo.world).
  - reflexivity.
  - split; [intros f; rewrite lookup_empty; reflexivity|intros f h; by rewrite lookup_empty].
  - executes.
  - executes_logged.
Defined.

Lemma spare_capacity_correct_witness :
  ∃ b s' tr, exec (history_env ev) still WorkerRegistryService.hasSpareCapacity tt [] (Ok b) s' tr ∧ b = true ∧
  ∃ raw now,
    tr = [Entry (Redis (Hgetall REGISTRY_KEY)) (Ok raw); Entry (Sys DateNow) now] ∧
    (b = true ↔ ∃ f text info t c n, (f, text) ∈ raw ∧ JSON_parse text = Some info ∧
       json_get "lastHeartbeatAt" info = Some (JNum t) ∧ now - t ≤ STALE_AFTER_MS ∧
       json_get "inFlight" info = Some (JNum n) ∧ json_get "capacity" info = Some (JNum c) ∧ n < c).
Proof.
  assert (exec (history_env ev) still WorkerRegistryService.hasSpareCapacity tt [] (Ok true) tt
    [Entry (Redis (Hgetall REGISTRY_KEY)) (Ok [("w1", JSON_stringify (heartbeat_json (RegistryDemo.hb "w1" 0 5000)))]);
     Entry (Sys DateNow) 12000]) as Hx.
  { exists (Ok [("w1", JSON_stringify (heartbeat_json (RegistryDemo.hb "w1" 0 5000)))]). eexists. exists tt.
    split; [reflexivity|]. split; [done|]. exists 12000. eexists. exists tt.
    split; [reflexivity|]. split; [done|]. vm_compute. done. }
  eexists _, _, _. split; [exact Hx|]. split; [reflexivity|].
  exact (spare_capacity_correct still tt true tt _ Hx).
Defined.
