(* ===== verification/Dispatch.v ===== *)
(** * Request-reply over Redis (src/invocation)

    [InvocationDispatchService]: a map of waiters from result channel to the
    [resolve] function of a promise, the handler of incoming pub/sub messages,
    the timer armed for every waiter, and [dispatch] itself.  [dstep] is the
    event loop as seen by a suspended [dispatch]: replies arriving, timers
    firing, and other dispatches registering their own waiters. *)

From S2P Require Import Prelude Json JsonText Prog Services.

(** ** worker/invocation-stream.constants.ts *)

Definition INVOCATION_STREAM_KEY : string := "invocations:pending".
Definition INVOCATION_CONSUMER_GROUP : string := "invocation-workers".
Definition invocationResultChannel (correlationId : string) : string := "invocation-result:" +:+ correlationId.

#[export] Instance invocationResultChannel_inj : Inj (=) (=) invocationResultChannel.
Proof. intros a b H. by apply str_app_inj_l in H. Qed.

(** ** The state of the service *)

(** A promise: [None] while pending. *)
Definition promise : Type := option (outcome json).

(** [waiters]: channel to the promise its [resolve] settles; [timers]: the
    armed timers, each with the channel it captured and its delay ([None]:
    NaN, which Node treats as 1 ms). *)
Record dstate := {
  waiters : gmap string nat;
  promises : gmap nat promise;
  timers : gmap nat (string * option Z);
  next_promise : nat }.

Definition dstate0 : dstate :=
  {| waiters := ∅; promises := ∅; timers := ∅; next_promise := 0 |}.

Record InvocationJob := {
  job_imageTag : string; job_event : option json; job_timeoutMs : Z; job_memoryMb : Z }.

Definition DISPATCH_TIMEOUT_BUFFER_MS : Z := 5000.
Definition no_worker : exn := JsError "No worker responded in time".

(** Settling a promise a second time does nothing. *)
Definition settle (p : nat) (o : outcome json) (s : dstate) : dstate :=
  match promises s !! p with
  | Some None => {| waiters := waiters s; promises := <[p := Some o]> (promises s);
                    timers := timers s; next_promise := next_promise s |}
  | _ => s
  end.

Definition delete_waiter (channel : string) (s : dstate) : dstate :=
  {| waiters := delete channel (waiters s); promises := promises s; timers := timers s;
     next_promise := next_promise s |}.

Definition fired (p : nat) (s : dstate) : dstate :=
  {| waiters := waiters s; promises := promises s; timers := delete p (timers s);
     next_promise := next_promise s |}.

(** [process.env.NAME ?? n] passed to [Number]. *)
Definition env_number {S} (name : string) (dflt : Z) : prog ev S (option Z) :=
  v ← sys (ProcessEnv name);
  Ret (match v with Some text => Number text | None => Some dflt end).

Module InvocationDispatchService.
Section service.
Context `{JC : JsonCodec}.

(** The ['message'] listener of [onModuleInit].  [None]: [JSON.parse] throws
    out of the listener, an uncaught exception that ends the process. *)
Definition on_message (channel message : string) (s : dstate) : option dstate :=
  match waiters s !! channel with
  | Some p =>
      let s1 := delete_waiter channel s in
      match JSON_parse message with
      | Some v => Some (settle p (Ok v) s1)
      | None => None
      end
  | None => Some s
  end.

(** The callback of the [setTimeout] armed for promise [p]. *)
Definition on_timeout (p : nat) (channel : string) (s : dstate) : dstate :=
  let s0 := fired p s in
  match waiters s0 !! channel with
  | Some _ => settle p (Err no_worker) (delete_waiter channel s0)
  | None => s0
  end.

(** The executor of [new Promise]: registers the waiter and arms the timer;
    returns the promise. *)
Definition register_waiter (channel : string) (ms : option Z) (s : dstate) : nat * dstate :=
  let p := next_promise s in
  (p, {| waiters := <[channel := p]> (waiters s); promises := <[p := None]> (promises s);
         timers := <[p := (channel, ms)]> (timers s); next_promise := S p |}).

(** [await resultPromise] *)
Definition await_promise (p : nat) : prog ev dstate json :=
  Wait (λ s, match promises s !! p with Some (Some o) => Some o | _ => None end) of_outcome.

Definition job_fields (correlationId : string) (job : InvocationJob) : list string :=
  ["correlationId"; correlationId;
   "imageTag"; job_imageTag job;
   "event"; JSON_stringify (or_empty_object (job_event job));
   "timeoutMs"; string_of_Z (job_timeoutMs job);
   "memoryMb"; string_of_Z (job_memoryMb job)].

Definition dispatch (job : InvocationJob) : prog ev dstate json :=
  correlationId ← sys RandomUUID;
  let channel := invocationResultChannel correlationId in
  dispatchTimeoutMs ← env_number "INVOCATION_DISPATCH_TIMEOUT_MS" (job_timeoutMs job + DISPATCH_TIMEOUT_BUFFER_MS);
  resultPromise ← St (register_waiter channel dispatchTimeoutMs) Ret;
  _ ← redis (Subscribe channel);
  try_finally
    (_ ← redis (Xadd INVOCATION_STREAM_KEY (job_fields correlationId job));
     await_promise resultPromise)
    (redis (Unsubscribe channel)).
End service.
End InvocationDispatchService.
Import InvocationDispatchService.

(** ** The event loop around a suspended dispatch *)

(** A channel nothing in the process uses: what a new random uuid gives. *)
Definition fresh_channel (channel : string) (s : dstate) : Prop :=
  waiters s !! channel = None ∧ ∀ p ms, timers s !! p ≠ Some (channel, ms).

Lemma fresh_channel_init channel : fresh_channel channel dstate0.
Proof. split; simpl; intros; by rewrite lookup_empty. Qed.

Section event_loop.
Context `{JC : JsonCodec}.
(** [M channel message]: [message] may be published on [channel]. *)
Context (M : string → string → Prop).

Inductive dstep : dstate → dstate → Prop :=
| step_message channel message s s' :
    M channel message → on_message channel message s = Some s' → dstep s s'
| step_timer p channel ms s :
    timers s !! p = Some (channel, ms) → dstep s (on_timeout p channel s)
| step_register channel ms s :
    fresh_channel channel s → dstep s (register_waiter channel ms s).2.

(** *** Invariant: every pending promise has its waiter and an armed timer *)

Record dispatch_ok (s : dstate) : Prop := {
  ok_waiter : ∀ c p, waiters s !! c = Some p →
    promises s !! p = Some None ∧ ∃ ms, timers s !! p = Some (c, ms);
  ok_pending : ∀ p, promises s !! p = Some None → ∃ c, waiters s !! c = Some p;
  ok_timer : ∀ p c ms, timers s !! p = Some (c, ms) → is_Some (promises s !! p);
  ok_one_timer : ∀ p p' c ms ms', timers s !! p = Some (c, ms) → timers s !! p' = Some (c, ms') → p = p';
  ok_next : ∀ p, is_Some (promises s !! p) → (p < next_promise s)%nat }.

Lemma dispatch_ok_init : dispatch_ok dstate0.
Proof. split; simpl; intros *; rewrite ?lookup_empty; done. Qed.

(** A waiter's promise is registered under no other channel. *)
Lemma ok_waiter_inj s c c' p :
  dispatch_ok s → waiters s !! c = Some p → waiters s !! c' = Some p → c = c'.
Proof.
  intros [Hw _ _ _ _] H1 H2. apply Hw in H1 as (_ & ms & H1), H2 as (_ & ms' & H2). congruence.
Qed.

(** Taking a waiter out of the map and settling its promise. *)
Lemma dispatch_ok_settle s c p o :
  dispatch_ok s → waiters s !! c = Some p → dispatch_ok (settle p o (delete_waiter c s)).
Proof.
  intros Hok Hc. pose proof (λ c', ok_waiter_inj s c' c p Hok) as Hinj.
  destruct Hok as [Hw Hp Ht H1 Hn]. destruct (Hw c p Hc) as [Hpend _].
  unfold settle, delete_waiter. simpl. rewrite Hpend. split; simpl.
  - intros c' p' [Hne Hc']%lookup_delete_Some. destruct (decide (p' = p)) as [->|Hpp].
    { destruct Hne. symmetry. auto. }
    rewrite lookup_insert_ne by done. auto.
  - intros p' [[??]|[Hpp Hp']]%lookup_insert_Some; [done|].
    destruct (Hp p' Hp') as [c' Hc']. exists c'. rewrite lookup_delete_ne; [done|]. congruence.
  - intros p' c' ms H%Ht. destruct (decide (p' = p)) as [->|]; [by rewrite lookup_insert_eq|].
    by rewrite lookup_insert_ne.
  - done.
  - intros p' Hp'. apply Hn. destruct (decide (p' = p)) as [->|]; [eauto|].
    by rewrite lookup_insert_ne in Hp'.
Qed.

Lemma dispatch_ok_fired s p c ms :
  dispatch_ok s → timers s !! p = Some (c, ms) → waiters s !! c = None → dispatch_ok (fired p s).
Proof.
  intros [Hw Hp Ht H1 Hn] Htp Hc. split; simpl; eauto.
  - intros c' p' Hc'. destruct (Hw c' p' Hc') as [Hpe (ms' & Hms)]. split; [done|].
    exists ms'. rewrite lookup_delete_ne; [done|]. intros ->. rewrite Htp in Hms. simplify_eq.
  - intros p' c' ms' [_ ?]%lookup_delete_Some. eauto.
  - intros p1 p2 c' m1 m2 [_ ?]%lookup_delete_Some [_ ?]%lookup_delete_Some. eauto.
Qed.

Lemma settle_fired p o c q s : settle p o (delete_waiter c (fired q s)) = fired q (settle p o (delete_waiter c s)).
Proof. unfold settle. simpl. by repeat case_match. Qed.

Lemma settle_timers p o s : timers (settle p o s) = timers s.
Proof. unfold settle. by repeat case_match. Qed.
Lemma settle_waiters p o s : waiters (settle p o s) = waiters s.
Proof. unfold settle. by repeat case_match. Qed.

(** Every step of the event loop keeps the invariant. *)
Lemma dstep_ok s s' : dstep s s' → dispatch_ok s → dispatch_ok s'.
Proof.
  intros Hstep Hok. destruct Hstep as [c m s s' _ Hm|p c ms s Ht|c ms s [Hc Hfr]].
  - unfold on_message in Hm. destruct (waiters s !! c) as [p|] eqn:Hc; [|by simplify_eq].
    destruct (JSON_parse m); simplify_eq. by apply dispatch_ok_settle.
  - unfold on_timeout. simpl. destruct (waiters s !! c) as [p'|] eqn:Hc.
    + destruct (ok_waiter s Hok c p' Hc) as [_ (ms' & Ht')].
      assert (p' = p) as -> by by eapply (ok_one_timer s Hok).
      rewrite settle_fired. eapply (dispatch_ok_fired _ p c ms).
      * by apply dispatch_ok_settle.
      * by rewrite settle_timers.
      * rewrite settle_waiters. simpl. by rewrite lookup_delete_eq.
    + by eapply dispatch_ok_fired.
  - destruct Hok as [Hw Hp Ht H1 Hn].
    assert (promises s !! next_promise s = None) as Hnew.
    { destruct (promises s !! next_promise s) eqn:E; [|done].
      assert (next_promise s < next_promise s)%nat by (apply Hn; eauto). lia. }
    assert (∀ p, is_Some (promises s !! p) → p ≠ next_promise s) as Hne.
    { intros p Hp' ->. rewrite Hnew in Hp'. by destruct Hp'. }
    split; simpl.
    + intros c' p' [[<- <-]|[Hcc Hc']]%lookup_insert_Some.
      { rewrite !lookup_insert_eq. eauto. }
      destruct (Hw c' p' Hc') as [Hpe Hms]. rewrite !lookup_insert_ne; [done|naive_solver..].
    + intros p' [[<- _]|[Hpp Hp']]%lookup_insert_Some; [exists c; by rewrite lookup_insert_eq|].
      destruct (Hp p' Hp') as [c' Hc']. exists c'. rewrite lookup_insert_ne; [done|congruence].
    + intros p' c' ms' [[<- _]|[Hpp Hp']]%lookup_insert_Some; [by rewrite lookup_insert_eq|].
      rewrite lookup_insert_ne by done. eauto.
    + intros p1 p2 c' m1 m2 [[<- ?]|[? Hp1]]%lookup_insert_Some [[<- ?]|[? Hp2]]%lookup_insert_Some;
        simplify_eq; try done; [by destruct (Hfr p2 m2)|by destruct (Hfr p1 m1)|eauto].
    + intros p' Hp'. destruct (decide (p' = next_promise s)) as [->|]; [lia|].
      rewrite lookup_insert_ne in Hp' by done. apply Nat.lt_lt_succ_r, Hn, Hp'.
Qed.

Lemma dsteps_ok s s' : rtc dstep s s' → dispatch_ok s → dispatch_ok s'.
Proof. induction 1; eauto using dstep_ok. Qed.

(** *** What a step does to one promise *)

Lemma settle_other p p' o s : p ≠ p' → promises (settle p o s) !! p' = promises s !! p'.
Proof. intros Hne. unfold settle. repeat case_match; simpl; by rewrite ?lookup_insert_ne. Qed.

Lemma settle_same p o s : promises s !! p = Some None → promises (settle p o s) !! p = Some (Some o).
Proof. intros Hp. unfold settle. rewrite Hp. simpl. by rewrite lookup_insert_eq. Qed.

(** How a promise got its value: a reply of [channel], or its timer. *)
Definition settled_by (channel : string) (o : outcome json) : Prop :=
  match o with
  | Ok v => ∃ message, M channel message ∧ JSON_parse message = Some v
  | Err x => x = no_worker
  end.

(** Promise [p], registered under [channel]: still waiting, or settled once. *)
Definition waiting_on (channel : string) (p : nat) (s : dstate) : Prop :=
  waiters s !! channel = Some p ∨
  ∃ o, promises s !! p = Some (Some o) ∧ settled_by channel o.

Lemma settled_step s s' p o :
  dstep s s' → dispatch_ok s → promises s !! p = Some (Some o) → promises s' !! p = Some (Some o).
Proof.
  intros Hstep Hok Hp. destruct Hstep as [c m s s' _ Hm|p' c ms s Ht|c ms s _].
  - unfold on_message in Hm. destruct (waiters s !! c) as [p'|] eqn:Hc; [|by simplify_eq].
    destruct (JSON_parse m); simplify_eq. rewrite settle_other; [done|].
    intros ->. destruct (ok_waiter s Hok c p Hc). congruence.
  - unfold on_timeout. simpl. destruct (waiters s !! c) as [p1|] eqn:Hc; [|done].
    destruct (ok_waiter s Hok c p1 Hc) as [Hpe (ms' & Ht')].
    assert (p1 = p') as -> by by eapply (ok_one_timer s Hok).
    rewrite settle_other; [done|]. congruence.
  - simpl. rewrite lookup_insert_ne; [done|]. intros <-.
    assert (next_promise s < next_promise s)%nat by (apply (ok_next s Hok); eauto). lia.
Qed.

Lemma settled_steps s s' p o :
  rtc dstep s s' → dispatch_ok s → promises s !! p = Some (Some o) → promises s' !! p = Some (Some o).
Proof. induction 1; eauto using settled_step, dstep_ok. Qed.

Lemma waiting_on_step s s' c p : dstep s s' → dispatch_ok s → waiting_on c p s → waiting_on c p s'.
Proof.
  intros Hstep Hok [Hc|(o & Ho & Hs)]; [|right; eauto using settled_step].
  destruct (ok_waiter s Hok c p Hc) as [Hpe (ms & Ht)].
  destruct Hstep as [c' m s s' HM Hm|p' c' ms' s Ht'|c' ms' s [Hc' _]].
  - unfold on_message in Hm. destruct (waiters s !! c') as [p'|] eqn:Hc'; [|simplify_eq; by left].
    destruct (JSON_parse m) as [v|] eqn:Hv; simplify_eq. destruct (decide (c' = c)) as [->|Hne].
    + right. simplify_eq. exists (Ok v). split; [by apply settle_same|]. simpl. eauto.
    + left. rewrite settle_waiters. simpl. by rewrite lookup_delete_ne.
  - unfold on_timeout. simpl. destruct (waiters s !! c') as [p1|] eqn:Hc'; [|by left].
    destruct (ok_waiter s Hok c' p1 Hc') as [_ (ms1 & Ht1)].
    assert (p1 = p') as -> by by eapply (ok_one_timer s Hok).
    destruct (decide (c' = c)) as [->|Hne].
    + right. simplify_eq. exists (Err no_worker). split; [|done]. by apply settle_same.
    + left. rewrite settle_waiters. simpl. by rewrite lookup_delete_ne.
  - left. simpl. rewrite lookup_insert_ne; [done|]. intros ->. congruence.
Qed.

Lemma waiting_on_steps s s' c p : rtc dstep s s' → dispatch_ok s → waiting_on c p s → waiting_on c p s'.
Proof. induction 1; eauto using waiting_on_step, dstep_ok. Qed.
End event_loop.

(** ** Properties *)

Section properties.
Context `{JC : JsonCodec} (M : string → string → Prop).

(** What a dispatch did: with its correlation id [correlationId], if that is new,
    the three ways it can end. *)
Definition dispatched (job : InvocationJob) (s : dstate) (o : outcome json) (s' : dstate) (tr : list entry) : Prop :=
  ∃ correlationId override tr',
    let channel := invocationResultChannel correlationId in
    tr = Entry (Sys RandomUUID) correlationId ::
         Entry (Sys (ProcessEnv "INVOCATION_DISPATCH_TIMEOUT_MS")) override :: tr' ∧
    (fresh_channel channel s →
      dispatch_ok s' ∧
      ((∃ x, tr' = [Entry (Redis (Subscribe channel)) (Err x)] ∧ o = Err x) ∨
       (∃ x u, tr' = [Entry (Redis (Subscribe channel)) (Ok tt);
                      Entry (Redis (Xadd INVOCATION_STREAM_KEY (job_fields correlationId job))) (Err x);
                      Entry (Redis (Unsubscribe channel)) u] ∧
          o = Err (match u with Ok _ => x | Err y => y end)) ∨
       (∃ id u r, tr' = [Entry (Redis (Subscribe channel)) (Ok tt);
                      Entry (Redis (Xadd INVOCATION_STREAM_KEY (job_fields correlationId job))) (Ok id);
                      Entry (Redis (Unsubscribe channel)) u] ∧
          o = match u with Ok _ => r | Err y => Err y end ∧
          promises s' !! next_promise s = Some (Some r) ∧ settled_by M channel r))).

Lemma dispatch_spec job s o s' tr :
  dispatch_ok s → exec (history_env ev) (rtc (dstep M)) (dispatch job) s [] o s' tr → dispatched job s o s' tr.
Proof.
  intros Hok Hx. by_wp Hx. unfold dispatch, dispatched. simpl.
  intros cid w1 s1 -> Hi. hnf in Hi. subst s1. intros ov w2 s2 -> Hi. hnf in Hi. subst s2.
  set (c := invocationResultChannel cid). set (ms := match ov with Some _ => _ | None => _ end).
  set (s0 := (register_waiter c ms s).2). set (p := next_promise s).
  assert (fresh_channel c s → dispatch_ok s0 ∧ waiting_on M c p s0) as Hstart.
  { intros Hfr. split; [by eapply dstep_ok; [by apply (step_register M)|]|].
    left. simpl. by rewrite lookup_insert_eq. }
  assert (∀ s1 s2, (fresh_channel c s → dispatch_ok s1 ∧ waiting_on M c p s1) → rtc (dstep M) s1 s2 →
    fresh_channel c s → dispatch_ok s2 ∧ waiting_on M c p s2) as Hgo.
  { intros s1 s2 H Hr Hfr. destruct (H Hfr). split; [by eapply dsteps_ok|by eapply waiting_on_steps]. }
  intros r w3 s3 -> Hi. pose proof (Hgo _ _ Hstart Hi) as H3. clear Hi Hstart.
  destruct r as [[]|x]; simpl; [|exists cid, ov; eexists; split; [done|]; intros Hfr; destruct (H3 Hfr); eauto 10].
  intros r w4 s4 -> Hi. pose proof (Hgo _ _ H3 Hi) as H4. clear Hi H3.
  destruct r as [id|x]; simpl.
  - intros s5 r Hi Hr. pose proof (Hgo _ _ H4 Hi) as H5. clear Hi H4.
    assert (fresh_channel c s → promises s5 !! p = Some (Some r) ∧ settled_by M c r) as Hset.
    { intros Hfr. destruct (H5 Hfr) as [Hok5 [Hw|(oo & Ho & Hs)]].
      - destruct (ok_waiter s5 Hok5 c p Hw) as [Hp _]. by rewrite Hp in Hr.
      - rewrite Ho in Hr. by simplify_eq. }
    assert (∀ s6, rtc (dstep M) s5 s6 → fresh_channel c s →
      dispatch_ok s6 ∧ promises s6 !! p = Some (Some r) ∧ settled_by M c r) as Hend.
    { intros s6 Hi Hfr. destruct (H5 Hfr) as [Hok5 _], (Hset Hfr) as [Hp Hs].
      split_and!; [by eapply dsteps_ok|by eapply settled_steps|done]. }
    destruct r as [v|x]; simpl; intros u w6 s6 -> Hi; specialize (Hend s6 Hi);
      (destruct u as [[]|y]; simpl; exists cid, ov; eexists; (split; [done|]);
       intros Hfr; destruct (Hend Hfr) as (? & ? & ?); eauto 15).
  - intros u w5 s5 -> Hi. pose proof (Hgo _ _ H4 Hi) as H5. clear Hi H4.
    destruct u as [[]|y]; simpl; exists cid, ov; eexists; (split; [done|]);
      intros Hfr; destruct (H5 Hfr); eauto 15.
Qed.

(** C8: every branch of [dispatch], while replies arrive, timers fire and other
    dispatches run: it subscribes to its own channel before it publishes the
    job, publishes at most once, unsubscribes whenever it subscribed, and never
    returns anything but the parsed reply published on its own channel (its
    random uuid being unused); every failure is an exception: the timer's, or
    Redis's. *)
Theorem dispatch_correct job s o s' tr :
  dispatch_ok s → exec (history_env ev) (rtc (dstep M)) (dispatch job) s [] o s' tr → dispatched job s o s' tr.
Proof. apply dispatch_spec. Qed.

(** C14: no dispatch waits for ever: at every reachable point of the event loop a
    promise that is still pending has its waiter registered and an armed timer,
    and when that timer fires the promise is rejected. *)
Theorem pending_dispatch_times_out s p :
  rtc (dstep M) dstate0 s → promises s !! p = Some None →
  ∃ channel ms, waiters s !! channel = Some p ∧ timers s !! p = Some (channel, ms) ∧
    dstep M s (on_timeout p channel s) ∧
    promises (on_timeout p channel s) !! p = Some (Some (Err no_worker)) ∧
    waiters (on_timeout p channel s) !! channel = None.
Proof.
  intros Hr Hp. pose proof (dsteps_ok M _ _ Hr dispatch_ok_init) as Hok.
  destruct (ok_pending s Hok p Hp) as [c Hc]. destruct (ok_waiter s Hok c p Hc) as [_ (ms & Ht)].
  exists c, ms. split_and!; [done..|by eapply step_timer| |]; unfold on_timeout; simpl; rewrite Hc.
  - by apply settle_same.
  - rewrite settle_waiters. simpl. apply lookup_delete_eq.
Qed.

(** C15: the first of the reply and the timer decides, for that dispatch only: a
    reply that finds its waiter settles the promise of its own channel and no
    other, and whatever arrives or fires later leaves a settled promise as it
    is; a reply nobody waits for changes nothing. *)
Theorem first_settlement_wins s channel message s1 :
  rtc (dstep M) dstate0 s → on_message channel message s = Some s1 →
  match waiters s !! channel with
  | None => s1 = s
  | Some p => ∃ v, JSON_parse message = Some v ∧ promises s !! p = Some None ∧
      promises s1 !! p = Some (Some (Ok v)) ∧ waiters s1 !! channel = None ∧
      (∀ p', p' ≠ p → promises s1 !! p' = promises s !! p') ∧
      (M channel message → ∀ s2, rtc (dstep M) s1 s2 → promises s2 !! p = Some (Some (Ok v)))
  end.
Proof.
  intros Hr Hm. pose proof (dsteps_ok M _ _ Hr dispatch_ok_init) as Hok.
  unfold on_message in Hm. destruct (waiters s !! channel) as [p|] eqn:Hc; [|by simplify_eq].
  destruct (ok_waiter s Hok channel p Hc) as [Hp _].
  destruct (JSON_parse message) as [v|] eqn:Hv; [|done]. injection Hm as <-.
  assert (promises (settle p (Ok v) (delete_waiter channel s)) !! p = Some (Some (Ok v))) as Hset
    by by apply settle_same.
  exists v. split_and!; [done..| | |].
  - rewrite settle_waiters. apply lookup_delete_eq.
  - intros p' Hne. by rewrite settle_other.
  - intros HM s2 Hs2. eapply settled_steps; [done| |done]. by apply dispatch_ok_settle.
Qed.
End properties.

(** ** Concrete executions *)

#[local] Existing Instance json_codec.

Module DispatchDemo.
Definition job : InvocationJob :=
  {| job_imageTag := "mini-cloud-fn-hello:3"; job_event := None; job_timeoutMs := 3000; job_memoryMb := 128 |}.
Definition reply : json := JObj [("status", JStr "success"); ("result", JNum 42); ("durationMs", JNum 17)].
Definition channel : string := invocationResultChannel "c0ffee".
Definition published (c m : string) : Prop := c = channel ∧ m = JSON_stringify reply.

(** Redis accepts everything; the uuid is fixed. *)
Definition answer : ∀ X, ev X → list entry → X :=
  λ X e _, match e in ev X return X with
           | Redis e' => match e' in redis_eff X return outcome X with
                         | Xadd _ _ => Ok "1-0"
                         | Subscribe _ | Unsubscribe _ => Ok tt
                         | _ => Err (JsError "unexpected")
                         end
           | Sys e' => match e' in sys_eff X return X with
                       | RandomUUID => "c0ffee"
                       | DateNow => 0 | RandomBytesHex _ => "00" | ProcessEnv _ => None
                       | Log _ _ | GaugeSet _ _ | CounterInc _ _ | HistogramObserve _ _ => tt
                       | MetricsText => EmptyString
                       end
           | Db _ | Aws _ | Os _ | Fs _ | Lib _ => Err (JsError "unexpected")
           end.

(** Another task: the worker's reply arrives. *)
Definition deliver (s : dstate) : dstate := default s (on_message channel (JSON_stringify reply) s).

Lemma deliver_steps s : rtc (dstep published) s (deliver s).
Proof.
  unfold deliver. destruct (on_message channel (JSON_stringify reply) s) eqn:E; simpl; [|done].
  apply rtc_once. by eapply step_message.
Qed.
End DispatchDemo.

Lemma dispatch_correct_witness :
  ∃ s' tr, exec (history_env ev) (rtc (dstep DispatchDemo.published)) (dispatch DispatchDemo.job) dstate0 []
      (Ok DispatchDemo.reply) s' tr ∧
    ∃ correlationId r, promises s' !! 0%nat = Some (Some r) ∧ r = Ok DispatchDemo.reply ∧
      settled_by DispatchDemo.published (invocationResultChannel correlationId) r.
Proof.
  assert (exec (history_env ev) (rtc (dstep DispatchDemo.published)) (dispatch DispatchDemo.job) dstate0 []
      (Ok DispatchDemo.reply)
      (default dstate0 (snd ∘ fst <$> (p ← run_among DispatchDemo.deliver (scripted DispatchDemo.answer) (dispatch DispatchDemo.job) dstate0 []; Some p)))
      (default [] (snd <$> run_among DispatchDemo.deliver (scripted DispatchDemo.answer) (dispatch DispatchDemo.job) dstate0 []))) as Hx.
  { apply (scripted_history DispatchDemo.answer), (run_among_exec DispatchDemo.deliver);
      [apply DispatchDemo.deliver_steps|vm_compute; reflexivity]. }
  eexists _, _. split; [exact Hx|].
  destruct (dispatch_correct DispatchDemo.published DispatchDemo.job dstate0 _ _ _ dispatch_ok_init Hx)
    as (cid & ov & tr' & _ & Hfr).
  destruct Hfr as [_ [(x & _ & Ho)|[(x & u & _ & Ho)|(id & u & r & _ & Ho & Hp & Hs)]]]; [|done|done|].
  - apply fresh_channel_init.
  - exists cid, r. split_and!; [exact Hp| |exact Hs]. by destruct u.
Defined.

Definition demo_waiting : dstate := (register_waiter DispatchDemo.channel (Some 8000) dstate0).2.

Lemma demo_waiting_reachable M : rtc (dstep M) dstate0 demo_waiting.
Proof. apply rtc_once, step_register, fresh_channel_init. Qed.

Lemma pending_dispatch_times_out_witness :
  ∃ channel ms, waiters demo_waiting !! channel = Some 0%nat ∧ timers demo_waiting !! 0%nat = Some (channel, ms) ∧
    dstep DispatchDemo.published demo_waiting (on_timeout 0 channel demo_waiting) ∧
    promises (on_timeout 0 channel demo_waiting) !! 0%nat = Some (Some (Err no_worker)) ∧
    waiters (on_timeout 0 channel demo_waiting) !! channel = None.
Proof.
  apply (pending_dispatch_times_out DispatchDemo.published demo_waiting 0); [apply demo_waiting_reachable|reflexivity].
Defined.

Lemma first_settlement_wins_witness :
  ∃ s1, on_message DispatchDemo.channel (JSON_stringify DispatchDemo.reply) demo_waiting = Some s1 ∧
    ∃ v, JSON_parse (JSON_stringify DispatchDemo.reply) = Some v ∧ v = DispatchDemo.reply ∧
      ∀ s2, rtc (dstep DispatchDemo.published) s1 s2 → promises s2 !! 0%nat = Some (Some (Ok v)).
Proof.
  destruct (on_message DispatchDemo.channel (JSON_stringify DispatchDemo.reply) demo_waiting) as [s1|] eqn:E; [|done].
  exists s1. split; [done|].
  destruct (first_settlement_wins DispatchDemo.published demo_waiting _ _ s1 (demo_waiting_reachable _) E)
    as (v & Hv & _ & _ & _ & _ & Hlater).
  exists v. split_and!; [done| |by apply Hlater].
  vm_compute in Hv. by injection Hv as <-.
Defined.
