(* ===== verification/Functions.v ===== *)
(** * Functions (src/functions)

    The registration DTO, [FunctionsService] (functions.service.ts): accounts'
    functions, the invoke path with its backpressure and its recording, the
    rolling metrics; and the response mapping of the controller's invoke route.
    The file ends with the service's properties on every branch. *)

From Stdlib Require Import QArith Ascii.
From S2P Require Import Prelude Json JsonText Prog Services Percentile Database Schema Auth Registry Dispatch.
Import InvocationDispatchService.
#[local] Close Scope Q_scope.
#[local] Open Scope Z_scope.

(** ** dto/register-function.dto.ts *)

Record RegisterFunctionDto := {
  dto_fn_name : string; dto_memoryMb : option Z; dto_timeoutMs : option Z }.

(** The class [[a-zA-Z0-9_-]]. *)
Definition name_char (c : ascii) : bool :=
  let n := Ascii.N_of_ascii c in
  ((97 <=? n) && (n <=? 122) || (65 <=? n) && (n <=? 90) || (48 <=? n) && (n <=? 57) ||
   (n =? 95) || (n =? 45))%N.

(** [@Matches(/^[a-zA-Z0-9_-]+$/)] *)
Definition valid_name (s : string) : bool := (1 <=? String.length s)%nat && str_forall name_char s.

(** [@IsOptional() @IsInt() @Min(lo) @Max(hi)]: [None] is a validation error. *)
Definition optional_int (lo hi : Z) (v : option json) : option (option Z) :=
  match v with
  | None | Some JNull => Some None
  | Some (JNum n) => if (lo <=? n) && (n <=? hi) then Some (Some n) else None
  | Some _ => None
  end.

Definition validate_RegisterFunctionDto (body : json) : option RegisterFunctionDto :=
  match get_string "name" body with
  | Some name =>
      if valid_name name then
        memoryMb ← optional_int 64 3008 (json_get "memoryMb" body);
        timeoutMs ← optional_int 100 60000 (json_get "timeoutMs" body);
        Some {| dto_fn_name := name; dto_memoryMb := memoryMb; dto_timeoutMs := timeoutMs |}
      else None
  | None => None
  end.

(** ** Execution outcomes, as they come back over the wire *)

(** Reading a property of a parsed value: [null] has none, and throws. *)
Definition prop (key : string) (v : json) : outcome (option json) :=
  match v with
  | JNull => Err (JsError ("Cannot read properties of null (reading '" +:+ key +:+ "')"))
  | _ => Ok (json_get key v)
  end.

(** A value Prisma accepts for an [Int] column. *)
Definition prisma_int (v : option json) : option Z :=
  match v with
  | Some (JNum n) => if (- 2 ^ 31 <=? n) && (n <? 2 ^ 31) then Some n else None
  | _ => None
  end.

(** A value Prisma accepts for an optional [String] column, after
    [errorMessage ?? undefined]. *)
Definition prisma_string (v : option json) : option (option string) :=
  match v with
  | None | Some JNull => Some None
  | Some (JStr s) => Some (Some s)
  | Some _ => None
  end.

(** ** functions.service.ts *)

Record MetricsSummary := {
  windowHours : Z; totalInvocations : Z; errorRate : Q;
  latencyMsP50 : option Q; latencyMsP95 : option Q; latencyMsP99 : option Q }.

Module FunctionsService.
Section crud.
Context {S : Type}.

Definition register (userId : string) (dto : RegisterFunctionDto) : prog ev S FunctionRecord :=
  try_catch
    (db (FunctionCreate userId (dto_fn_name dto) (default 128 (dto_memoryMb dto)) (default 3000 (dto_timeoutMs dto))))
    (λ err,
       if is_known_request_error "P2002" err
       then Throw (ConflictException ("Function " +:+ dq +:+ dto_fn_name dto +:+ dq +:+ " already exists"))
       else Throw err).

Definition list_ (userId : string) : prog ev S (list FunctionRecord) := db (FunctionFindMany userId).

Definition not_found (name : string) : exn := NotFoundException ("Function " +:+ dq +:+ name +:+ dq +:+ " not found").

Definition get (userId name : string) : prog ev S FunctionRecord :=
  record ← db (FunctionFindUnique userId name);
  match record with
  | Some r => Ret r
  | None => Throw (not_found name)
  end.

Definition remove (userId name : string) : prog ev S unit :=
  try_catch
    (_ ← db (FunctionDelete userId name); Ret tt)
    (λ err, if is_known_request_error "P2025" err then Throw (not_found name) else Throw err).

Definition listInvocations (userId name : string) : prog ev S (list Invocation) :=
  record ← get userId name;
  db (InvocationFindMany (fn_id record) 50).

Definition getMetricsSummary (userId name : string) : prog ev S MetricsSummary :=
  record ← get userId name;
  rows ← db (MetricsQuery (fn_id record));
  match rows with
  | row :: _ =>
      Ret {| windowHours := 1; totalInvocations := row_total row;
             errorRate := default 0%Q (row_error_rate row);
             latencyMsP50 := row_p50 row; latencyMsP95 := row_p95 row; latencyMsP99 := row_p99 row |}
  | [] => Throw (JsError "Cannot read properties of undefined (reading 'total')")
  end.

(** [recordInvocation]: [durationMs] and [errorMessage] may come from the
    worker's reply; Prisma rejects values of another type before any query, and
    every failure is swallowed. *)
Definition recordInvocation (functionId versionId : string) (status : InvocationStatus)
    (durationMs errorMessage : option json) : prog ev S unit :=
  try_catch
    (requestId ← sys RandomUUID;
     match prisma_int durationMs, prisma_string errorMessage with
     | Some d, Some m => _ ← db (InvocationCreate functionId versionId requestId status d m); Ret tt
     | _, _ => Throw (JsError "PrismaClientValidationError")
     end)
    (λ _, Ret tt).
End crud.

Section invoke.
Context `{JC : JsonCodec}.

(** [outcome.status === 'success' ? 'SUCCESS' : ...] *)
Definition status_of (status : option json) : InvocationStatus :=
  if json_is_str "success" status then INV_SUCCESS
  else if json_is_str "timeout" status then INV_TIMEOUT else INV_ERROR.

Definition error_of (status error : option json) : option json :=
  if json_is_str "success" status then Some JNull
  else if json_is_str "timeout" status then Some (JStr "Function timed out") else error.

Definition job_of (record : FunctionRecord) (version : FunctionVersion) (event : option json) : InvocationJob :=
  {| job_imageTag := ver_imageTag version; job_event := event;
     job_timeoutMs := fn_timeoutMs record; job_memoryMb := fn_memoryMb record |}.

Definition invoke (userId name : string) (event : option json) : prog ev dstate json :=
  record ← get userId name;
  latestVersion ← db (VersionFindLatest (fn_id record));
  match latestVersion with
  | None =>
      Throw (ConflictException ("Function " +:+ dq +:+ name +:+ dq +:+
        " has no built version yet - upload one via POST /functions/" +:+ name +:+ "/versions first"))
  | Some latestVersion =>
      start ← sys DateNow;
      spare ← WorkerRegistryService.hasSpareCapacity;
      if negb spare then
        now ← sys DateNow;
        _ ← recordInvocation (fn_id record) (ver_id latestVersion) INV_NO_WORKER (Some (JNum (now - start)))
              (Some (JStr "No healthy worker had spare capacity"));
        Throw (ServiceUnavailableException ("No worker has spare capacity to run " +:+ dq +:+ name +:+ dq +:+ " right now"))
      else
        try_catch
          (outcome ← dispatch (job_of record latestVersion event);
           status ← of_outcome (prop "status" outcome);
           durationMs ← of_outcome (prop "durationMs" outcome);
           error ← of_outcome (prop "error" outcome);
           _ ← recordInvocation (fn_id record) (ver_id latestVersion) (status_of status) durationMs
                 (error_of status error);
           Ret outcome)
          (λ _,
             now ← sys DateNow;
             _ ← recordInvocation (fn_id record) (ver_id latestVersion) INV_NO_WORKER (Some (JNum (now - start)))
                   (Some (JStr "No worker responded within the dispatch window"));
             Throw (ServiceUnavailableException ("No worker was available to run " +:+ dq +:+ name +:+ dq)))
  end.
End invoke.
End FunctionsService.

(** ** functions.controller.ts, the invoke route *)

Record Response := {
  resp_status : Z; resp_headers : list (string * string); resp_body : json }.

Module FunctionsController.
(** What the route sends once [functionsService.invoke] has returned. *)
Definition invoke_response (outcome : json) : Response :=
  let status := json_get "status" outcome in
  let durationMs := json_get "durationMs" outcome in
  if json_is_str "success" status then
    {| resp_status := 200; resp_headers := [];
       resp_body := object [("result", json_get "result" outcome); ("durationMs", durationMs)] |}
  else
    let timeout := json_is_str "timeout" status in
    {| resp_status := 200;
       resp_headers := [("X-Function-Error", if timeout then "Timeout" else "Unhandled")];
       resp_body := object [("errorMessage", if timeout then Some (JStr "Function timed out") else json_get "error" outcome);
                            ("durationMs", durationMs)] |}.

Definition invoke `{JC : JsonCodec} (userId name : string) (event : option json) : prog ev dstate Response :=
  outcome ← FunctionsService.invoke userId name event;
  Ret (invoke_response outcome).

(** The other routes hand the caller's id to the service. *)
Section routes.
Context {S : Type} (user : AuthenticatedPrincipal).
Definition register (dto : RegisterFunctionDto) : prog ev S FunctionRecord := FunctionsService.register (userId user) dto.
Definition list_ : prog ev S (list FunctionRecord) := FunctionsService.list_ (userId user).
Definition get (name : string) : prog ev S FunctionRecord := FunctionsService.get (userId user) name.
Definition listInvocations (name : string) : prog ev S (list Invocation) := FunctionsService.listInvocations (userId user) name.
Definition getMetrics (name : string) : prog ev S MetricsSummary := FunctionsService.getMetricsSummary (userId user) name.
Definition remove (name : string) : prog ev S unit := FunctionsService.remove (userId user) name.
End routes.
End FunctionsController.

(** ** Lemmas *)

(** What a registered function satisfies. *)
Definition fn_limits (f : FunctionRecord) : Prop :=
  valid_name (fn_name f) = true ∧ 64 ≤ fn_memoryMb f ≤ 3008 ∧ 100 ≤ fn_timeoutMs f ≤ 60000.

Lemma optional_int_range lo hi v o n :
  lo ≤ n ≤ hi → optional_int lo hi v = Some o → lo ≤ default n o ≤ hi.
Proof. intros Hn. unfold optional_int. intros H. repeat case_match; simplify_eq/=; lia. Qed.

Lemma validated_limits body dto f :
  validate_RegisterFunctionDto body = Some dto →
  fn_name f = dto_fn_name dto → fn_memoryMb f = default 128 (dto_memoryMb dto) →
  fn_timeoutMs f = default 3000 (dto_timeoutMs dto) → fn_limits f.
Proof.
  unfold validate_RegisterFunctionDto, fn_limits. intros Hv -> -> ->.
  destruct (get_string "name" body) as [name|]; [|done]. destruct (valid_name name) eqn:Hn; [|done].
  destruct (optional_int 64 _ _) as [m|] eqn:Hm; [|done]. destruct (optional_int 100 _ _) as [t|] eqn:Ht; [|done].
  simpl in Hv. injection Hv as <-. simpl.
  pose proof (optional_int_range 64 3008 _ m 128 ltac:(lia) Hm).
  pose proof (optional_int_range 100 60000 _ t 3000 ltac:(lia) Ht). done.
Qed.

(** A connection failure is none of the request errors the handlers test. *)
Lemma infra_not_known code x :
  infra_failure x → code ∈ ["P2002"; "P2003"; "P2025"] → is_known_request_error code x = false.
Proof.
  intros Hx Hc. destruct x; try done. simpl in *. apply bool_decide_eq_false. by intros ->.
Qed.

Section functions_facts.
Context {S W : Type} (env : Env ev W) (view : W → tables) `{DBE : !DbEnv env view} (R : S → S → Prop).

(** [get] answers the caller's own row, or a 404 that does not depend on any
    other account; it reads only. *)
Lemma get_spec userId name s w o s' w' :
  exec env R (FunctionsService.get userId name) s w o s' w' →
  view w' = view w ∧
  match o with
  | Ok f => find_function userId name (view w) = Some f
  | Err (HttpException status message) =>
      HttpException status message = FunctionsService.not_found name ∧ find_function userId name (view w) = None
  | Err x => infra_failure x
  end.
Proof.
  intros Hx. by_wp Hx. unfold FunctionsService.get. simpl. step; [|by destruct x].
  destruct (find_function userId name (view w)) as [f|] eqn:Hf; simpl; views; eauto.
Qed.

(** [recordInvocation] never fails, and adds at most the row it was asked for. *)
Definition recorded (fid vid : string) (st : InvocationStatus) (d m : option json) (t t' : tables) : Prop :=
  t' = t ∨
  ∃ i dur msg, t' = set_invocations (t_invocations t ++ [i]) t ∧
    prisma_int d = Some dur ∧ prisma_string m = Some msg ∧
    inv_functionId i = fid ∧ inv_versionId i = Some vid ∧ inv_status i = st ∧
    inv_durationMs i = dur ∧ inv_errorMessage i = msg.

Lemma record_spec fid vid st d m s w o s' w' :
  exec env R (FunctionsService.recordInvocation fid vid st d m) s w o s' w' →
  o = Ok tt ∧ recorded fid vid st d m (view w) (view w').
Proof.
  intros Hx. by_wp Hx. unfold FunctionsService.recordInvocation. simpl. answer.
  destruct (prisma_int d) as [dur|] eqn:Hd; [|simpl; split; [done|]; by left].
  destruct (prisma_string m) as [msg|] eqn:Hm; [|simpl; split; [done|]; by left].
  simpl. step; simpl; (split; [done|]); views; try (by left).
  right. eexists _, _, _. split_and!; simpl; done.
Qed.

End functions_facts.

Lemma prop_ok key v : v ≠ JNull → prop key v = Ok (json_get key v).
Proof. by destruct v. Qed.

Lemma no_db_spare `{JC : JsonCodec} {S} : only not_db (S := S) WorkerRegistryService.hasSpareCapacity.
Proof.
  unfold WorkerRegistryService.hasSpareCapacity, WorkerRegistryService.listWorkers. only_calls.
Qed.

Lemma no_db_dispatch `{JC : JsonCodec} job : no_db (dispatch job).
Proof.
  unfold dispatch. only_calls.
Qed.

(** The [WHERE] clause, spelled out. *)
Lemma window_filter now fid l :
  List.filter (in_window now fid) l = filter (λ i, inv_functionId i = fid ∧ now - 3600000 < inv_createdAt i) l.
Proof.
  induction l as [|i l IH]; [done|]. rewrite filter_cons. cbn [List.filter]. rewrite IH.
  assert (in_window now fid i = bool_decide (inv_functionId i = fid ∧ now - 3600000 < inv_createdAt i)) as ->.
  { unfold in_window, window_ms. rewrite bool_decide_and. f_equal. case_bool_decide; lia. }
  case_decide; case_bool_decide; tauto.
Qed.

(** ** Properties *)

Section functions_properties.
Context {S W : Type} (env : Env ev W) (view : W → tables) `{DBE : !DbEnv env view} (R : S → S → Prop).

(** C18: registering a validated function adds exactly one row, owned by the
    caller, with the requested or default limits, all within the documented
    ranges, and [get] then finds it; a 409 means that the same account has the
    name already (names of other accounts never conflict), and no failure
    changes the tables. *)
Theorem register_correct body userId dto s w o s' w' :
  validate_RegisterFunctionDto body = Some dto →
  exec env R (FunctionsService.register userId dto) s w o s' w' →
  match o with
  | Ok f => view w' = set_functions (t_functions (view w) ++ [f]) (view w) ∧
      find_function userId (dto_fn_name dto) (view w) = None ∧
      find_function userId (dto_fn_name dto) (view w') = Some f ∧ fn_limits f ∧
      fn_memoryMb f = default 128 (dto_memoryMb dto) ∧ fn_timeoutMs f = default 3000 (dto_timeoutMs dto)
  | Err x => view w' = view w ∧
      match x with
      | HttpException status _ => status = 409 ∧
          ∃ f, f ∈ t_functions (view w) ∧ fn_userId f = userId ∧ fn_name f = dto_fn_name dto
      | PrismaError "P2003" _ => ∀ u, u ∈ t_users (view w) → user_id u ≠ userId
      | _ => infra_failure x
      end
  end.
Proof.
  intros Hv Hx. by_wp Hx. unfold FunctionsService.register. simpl.
  step; simpl.
  - views. split_and!; [done..|]. eexists. by apply find_function_Some.
  - views. split; [done|]. split; [done|]. split.
    { apply find_snoc_new; [done|]. unfold owns. simpl. by rewrite !bool_decide_eq_true_2. }
    split; [|done]. by eapply validated_limits.
  - views. split; [done|]. intros u Hu <-.
    rewrite <- not_true_iff_false, existsb_exists_elem in H. apply H. exists u. by rewrite bool_decide_eq_true_2.
  - rewrite (infra_not_known "P2002") by (done || set_solver). simpl. views. split; [done|].
    destruct x; try done. repeat case_match; try done. simpl in Hinfra. set_solver.
Qed.

(** C24: [remove] deletes exactly the caller's function of that name and every
    version, build and invocation that belongs to it; a 404 means that the
    caller has no function of that name; no failure changes the tables. *)
Theorem remove_correct userId name s w o s' w' :
  schema_ok (view w) →
  exec env R (FunctionsService.remove userId name) s w o s' w' →
  match o with
  | Ok _ => ∃ f, find_function userId name (view w) = Some f ∧
      view w' = delete_function_cascade (fn_id f) (view w) ∧
      find_function userId name (view w') = None ∧
      (∀ g, g ∈ t_functions (view w) → g = f ∨ g ∈ t_functions (view w')) ∧
      (∀ v, v ∈ t_versions (view w') ↔ v ∈ t_versions (view w) ∧ ver_functionId v ≠ fn_id f) ∧
      (∀ b, b ∈ t_builds (view w') ↔ b ∈ t_builds (view w) ∧ build_functionId b ≠ fn_id f) ∧
      (∀ i, i ∈ t_invocations (view w') ↔ i ∈ t_invocations (view w) ∧ inv_functionId i ≠ fn_id f)
  | Err (HttpException status message) => view w' = view w ∧
      HttpException status message = FunctionsService.not_found name ∧ find_function userId name (view w) = None
  | Err x => view w' = view w ∧ infra_failure x
  end.
Proof.
  intros Hok Hx. by_wp Hx. unfold FunctionsService.remove. simpl. step.
  - rename H into Hf, f into fr. views. exists fr.
    pose proof (find_function_Some _ _ _ _ Hf) as (Hin & Hu & Hn).
    assert (∀ (P : string), negb (bool_decide (P = fn_id fr)) = true ↔ P ≠ fn_id fr) as Hneg.
    { intros P. rewrite negb_true_iff. apply bool_decide_eq_false. }
    split; [done|]. split; [done|]. split.
    { apply find_function_None. intros (g & Heq & Hg)%list_elem_of_fmap. simpl in Hg.
      apply elem_of_filterb in Hg as [Hg Hne%Hneg]. destruct Hne. f_equal.
      eapply (NoDup_map_inj (λ f, (fn_userId f, fn_name f))); [apply Hok|done..|]. simpl. congruence. }
    split.
    { intros g Hg. destruct (decide (fn_id g = fn_id fr)) as [He|Hne].
      - left. eapply (NoDup_map_inj fn_id); [apply Hok|done..].
      - right. simpl. apply elem_of_filterb. by rewrite Hneg. }
    split_and!; intros x; simpl; rewrite elem_of_filterb, Hneg; done.
  - views. done.
  - rewrite (infra_not_known "P2025") by (done || set_solver). simpl. views. by destruct x.
Qed.

(** [listInvocations] answers only invocations of the caller's function of
    that name, at most 50 of them, newest first; an invocation it leaves out is
    no newer than any it lists, and is left out only when 50 are listed. *)
Theorem listInvocations_correct userId name s w l s' w' :
  exec env R (FunctionsService.listInvocations userId name) s w (Ok l) s' w' →
  view w' = view w ∧ (length l ≤ 50)%nat ∧
  StronglySorted (by_created_desc inv_createdAt) l ∧
  ∃ f, find_function userId name (view w) = Some f ∧
    (∀ i, i ∈ l → i ∈ t_invocations (view w) ∧ inv_functionId i = fn_id f) ∧
    (∀ i, i ∈ t_invocations (view w) → inv_functionId i = fn_id f → i ∉ l →
       length l = 50%nat ∧ ∀ j, j ∈ l → inv_createdAt i ≤ inv_createdAt j).
Proof.
  intros Hx. remember (Ok l) as o eqn:Ho. revert Ho. by_wp Hx. unfold FunctionsService.listInvocations.
  apply wp_bind, wp_exec. intros og s1 w1 [Hv Hg]%(get_spec env view R). destruct og as [f|x]; [|done].
  cbn [db call wp]. step; [|done]. intros [= <-]. views.
  set (rows := List.filter _ _). pose proof (merge_sort_Permutation (by_created_desc inv_createdAt) rows) as Hperm.
  assert (StronglySorted (by_created_desc inv_createdAt) (merge_sort (by_created_desc inv_createdAt) rows)) as Hsort.
  { apply Sorted_StronglySorted; [unfold by_created_desc; intros ???; lia|].
    apply Sorted_merge_sort. unfold by_created_desc. intros ??. lia. }
  set (m := merge_sort _ rows) in *. clearbody m.
  assert (∀ i, i ∈ m ↔ i ∈ t_invocations (view w1) ∧ inv_functionId i = fn_id f) as Hm.
  { intros i. rewrite Hperm. unfold rows. by rewrite elem_of_filterb, bool_decide_eq_true. }
  destruct (take_sorted_top _ 50 m Hsort) as (Hlen & Hst & Hrest).
  split; [done|]. split; [done|]. split; [done|]. exists f. split; [done|]. split.
  - intros i Hi. apply Hm. eapply subseteq_take. done.
  - intros i Hi Hf Hn. apply Hrest; [by apply Hm|done].
Qed.

(** C25: the metrics of the last hour, by the database's clock at a moment between
    the call and the return of the method: only the owner gets them; the total
    counts exactly the function's invocations created within the 3 600 000 ms
    before that moment, the error rate is the share of those that did not succeed
    (0 when there is none), and the three latencies are ordered and lie between
    the fastest and the slowest of them (null when there is none). *)
Theorem metrics_summary_correct (clock : W → Z) `{CLK : !DbClock env view clock} userId name s w m s' w' :
  exec env R (FunctionsService.getMetricsSummary userId name) s w (Ok m) s' w' →
  view w' = view w ∧
  ∃ f now, find_function userId name (view w) = Some f ∧ clock w ≤ now ≤ clock w' ∧
    let rows := filter (λ i, inv_functionId i = fn_id f ∧ now - 3600000 < inv_createdAt i) (t_invocations (view w)) in
    totalInvocations m = Z.of_nat (length rows) ∧
    match rows with
    | [] => errorRate m = 0%Q ∧ latencyMsP50 m = None ∧ latencyMsP95 m = None ∧ latencyMsP99 m = None
    | _ => (errorRate m == inject_Z (Z.of_nat (length (filter (λ i, inv_status i ≠ INV_SUCCESS) rows))) /
                           inject_Z (Z.of_nat (length rows)))%Q ∧
        (0 <= errorRate m)%Q ∧ (errorRate m <= 1)%Q ∧
        ∃ p50 p95 p99, latencyMsP50 m = Some p50 ∧ latencyMsP95 m = Some p95 ∧ latencyMsP99 m = Some p99 ∧
          (p50 <= p95)%Q ∧ (p95 <= p99)%Q ∧
          ∀ lo hi, (∀ i, i ∈ rows → lo ≤ inv_durationMs i ≤ hi) → (inject_Z lo <= p50)%Q ∧ (p99 <= inject_Z hi)%Q
    end.
Proof.
  intros Hx. remember (Ok m) as o eqn:Ho. revert Ho. by_wp Hx. unfold FunctionsService.getMetricsSummary.
  apply wp_bind, wp_exec. intros og s1 w1 Hget. pose proof (exec_clock env view clock R _ _ _ _ _ _ Hget) as Hc1.
  apply (get_spec env view R) in Hget as [Hv Hg]. destruct og as [f|x]; [|done].
  cbn [db call wp]. intros [rows|x] w2 s2 He _; [|done].
  apply clock_reads in He as (draw & now & Hnow & Hr). simpl in Hr. injection Hr as <- Hv2. cbn. intros [= <-].
  split; [by rewrite <- Hv2, Hv|]. exists f, now. split; [done|]. split; [lia|].
  rewrite <- Hv, <- window_filter. split; [done|]. apply metrics_row_spec.
Qed.

End functions_properties.

Section invoke_property.
Context {W : Type} (env : Env ev W) (view : W → tables) `{DBE : !DbEnv env view} (R : dstate → dstate → Prop).
Context `{JC : JsonCodec}.

Definition unavailable (x : exn) : Prop := ∃ m, x = ServiceUnavailableException m.

(** The calls to Redis of a history. *)
Definition is_redis (en : entry) : bool := match entry_call en with Redis _ => true | _ => false end.
Definition redis_calls (tr : list entry) : list entry := List.filter is_redis tr.

(** The backpressure test: the registry is read once, then the clock, and there is
    spare capacity when a worker of the registry is healthy at that time and has it. *)
Definition registry_asked (spare_ : outcome bool) (calls : list entry) : Prop :=
  (∃ x, calls = [Entry (Redis (Hgetall REGISTRY_KEY)) (Err x)] ∧ spare_ = Err x) ∨
  ∃ raw now, calls = [Entry (Redis (Hgetall REGISTRY_KEY)) (Ok raw); Entry (Sys DateNow) now] ∧
    spare_ = match WorkerRegistryService.parse_workers now raw with Ok l => Ok (existsb spare l) | Err x => Err x end.

(** What a dispatch asks of Redis: one subscription, then the job, once. *)
Definition published_once (job : InvocationJob) (calls : list entry) : Prop :=
  ∃ correlationId,
    let channel := invocationResultChannel correlationId in
    (∃ x, calls = [Entry (Redis (Subscribe channel)) (Err x)]) ∨
    ∃ a u, calls = [Entry (Redis (Subscribe channel)) (Ok tt);
                    Entry (Redis (Xadd INVOCATION_STREAM_KEY (job_fields correlationId job))) a;
                    Entry (Redis (Unsubscribe channel)) u].

(** What happens once the registry has answered: the calls [tr] made from there on. *)
Definition invoke_result (f : FunctionRecord) (v : FunctionVersion) (event : option json)
    (spare_ : outcome bool) (tr : list entry) (o : outcome json) (t t' : tables) : Prop :=
  let refused := (∃ x, o = Err x ∧ unavailable x) ∧ ∃ d m, recorded (fn_id f) (ver_id v) INV_NO_WORKER d m t t' in
  match spare_ with
  | Err x => o = Err x ∧ t' = t ∧ tr = []
  | Ok false => refused ∧ redis_calls tr = []
  | Ok true => ∃ reply s1 s2 calls after, let job := FunctionsService.job_of f v event in
      tr = calls ++ after ∧ exec (history_env ev) R (dispatch job) s1 [] reply s2 calls ∧
      published_once job (redis_calls calls) ∧ redis_calls after = [] ∧
      match reply with
      | Ok JNull | Err _ => refused
      | Ok outcome => o = Ok outcome ∧
          recorded (fn_id f) (ver_id v) (FunctionsService.status_of (json_get "status" outcome))
            (json_get "durationMs" outcome)
            (FunctionsService.error_of (json_get "status" outcome) (json_get "error" outcome)) t t'
      end
  end.

(** Calls of other services than Redis. *)
Definition not_redis X (e : ev X) : Prop := match e with Redis _ => False | _ => True end.

Lemma redis_calls_app a b : redis_calls (a ++ b) = redis_calls a ++ redis_calls b.
Proof. apply List.filter_app. Qed.

Lemma no_redis_calls calls : Forall (λ en : entry, not_redis _ (entry_call en)) calls → redis_calls calls = [].
Proof.
  induction 1 as [|[X e r] calls He _ IH]; [done|]. simpl in He. unfold redis_calls. cbn [List.filter].
  assert (is_redis (Entry e r) = false) as -> by (unfold is_redis; simpl; by destruct e). exact IH.
Qed.

Lemma record_not_redis {S} fid vid st d m : only not_redis (FunctionsService.recordInvocation (S := S) fid vid st d m).
Proof. unfold FunctionsService.recordInvocation. only_calls. Qed.

(** A program without calls to Redis, run with a history. *)
Lemma silent_calls {A} (p : prog ev dstate A) s w tr o s' v' :
  only not_redis p → exec (logged env) R p s (w, tr) o s' v' → ∃ calls, v'.2 = tr ++ calls ∧ redis_calls calls = [].
Proof.
  destruct v' as [w' tr']. intros Hp Hx. apply (only_logged not_redis) in Hx as (calls & -> & Hall); [|done].
  exists calls. split; [done|]. by apply no_redis_calls.
Qed.

Lemma spare_asked s w tr spare_ s' v' :
  exec (logged env) R WorkerRegistryService.hasSpareCapacity s (w, tr) spare_ s' v' →
  ∃ calls, v'.2 = tr ++ calls ∧ registry_asked spare_ calls.
Proof.
  intros Hx. unfold WorkerRegistryService.hasSpareCapacity, WorkerRegistryService.listWorkers in Hx. simpl in Hx.
  destruct Hx as ([raw|x] & [w1 tr1] & s1 & [_ Htr1] & _ & Hx); simpl in Htr1, Hx.
  2: { destruct Hx as (-> & _ & ->). eexists. split; [exact Htr1|]. left. by exists x. }
  destruct Hx as (now & [w2 tr2] & s2 & [_ Htr2] & _ & Hx). simpl in Htr2.
  assert (spare_ = match WorkerRegistryService.parse_workers now raw with Ok l => Ok (existsb spare l) | Err x => Err x end ∧
    v'.2 = tr2) as [Hs ->].
  { destruct (WorkerRegistryService.parse_workers now raw) as [l|x]; simpl in Hx; by destruct Hx as (-> & _ & ->). }
  exists [Entry (Redis (Hgetall REGISTRY_KEY)) (Ok raw); Entry (Sys DateNow) now]. split; [by rewrite Htr2, Htr1, <- app_assoc|].
  right. by exists raw, now.
Qed.

Lemma dispatch_published job s reply s' calls :
  exec (history_env ev) R (dispatch job) s [] reply s' calls → published_once job (redis_calls calls).
Proof.
  intros Hx. by_wp Hx. unfold dispatch, published_once. simpl.
  intros cid w1 s1 -> _ ov w2 s2 -> _ r w3 s3 -> _. destruct r as [[]|x]; simpl; [|exists cid; left; by exists x].
  intros a w4 s4 -> _. destruct a as [id|x]; simpl.
  - intros s5 r _ _. destruct r as [v|x]; simpl; intros u w5 s6 -> _; destruct u; exists cid; right; by eexists (Ok id), _.
  - intros u w5 s5 -> _. destruct u; exists cid; right; by eexists (Err x), _.
Qed.

(** Recording [NO_WORKER] and throwing. *)
Lemma no_worker_spec f v start s w tr t m x (Q : outcome json → dstate → W * list entry → Prop) :
  view w = t →
  (∀ s' w' calls, (∃ d m, recorded (fn_id f) (ver_id v) INV_NO_WORKER d m t (view w')) → redis_calls calls = [] →
     Q (Err x) s' (w', tr ++ calls)) →
  wp (logged env) R (now ← sys DateNow;
            _ ← FunctionsService.recordInvocation (fn_id f) (ver_id v) INV_NO_WORKER (Some (JNum (now - start))) (Some (JStr m));
            Throw x) s (w, tr) Q.
Proof.
  intros Hw HQ. apply (wp_logged_sys env view). intros now' w6 Hv6.
  apply wp_bind, wp_exec. intros orec s7 [w7 tr7] Hx.
  apply silent_calls in Hx as Hc; [|apply record_not_redis]. destruct Hc as (calls & Hc & Hn). simpl in Hc. subst tr7.
  apply (record_spec (logged env) (λ w, view w.1) R) in Hx as [-> Hrec]. simpl in *.
  rewrite <- app_assoc. apply HQ; [|done]. rewrite <- Hw, <- Hv6. eauto.
Qed.

(** C11: [invoke], branch by branch, with the calls it makes to Redis.  A function the
    caller does not own is a 404 and one without a version a 409: nothing is
    recorded and Redis is not called at all.  Otherwise the registry is read once:
    without spare capacity the answer is 503 and Redis is not called again, so no
    job is dispatched; with it, the newest version's image, the function's own
    limits and the event are dispatched and published at most once, Redis is not
    called afterwards, and a reply is returned as it came, while a failed dispatch
    (or a reply that is [null]) is a 503.  At most one invocation is recorded, for
    that function and version, with the status and duration of the reply,
    [NO_WORKER] for the two 503s; and recording never changes the answer. *)
Theorem invoke_correct userId name event s w o s' w' tr :
  exec (logged env) R (FunctionsService.invoke userId name event) s (w, []) o s' (w', tr) →
  (∃ x, o = Err x ∧ infra_failure x ∧ view w' = view w ∧ redis_calls tr = []) ∨
  (find_function userId name (view w) = None ∧ o = Err (FunctionsService.not_found name) ∧ view w' = view w ∧ redis_calls tr = []) ∨
  ∃ f, find_function userId name (view w) = Some f ∧
    ((versions_of (fn_id f) (view w) = [] ∧ (∃ m, o = Err (ConflictException m)) ∧ view w' = view w ∧ redis_calls tr = []) ∨
     ∃ v before asked after spare_, latest (versions_of (fn_id f) (view w)) = Some v ∧
       tr = before ++ asked ++ after ∧ redis_calls before = [] ∧ registry_asked spare_ asked ∧
       invoke_result f v event spare_ after o (view w) (view w')).
Proof.
  intros Hx. remember (w', tr) as wt eqn:Hwt.
  replace w' with wt.1 by (by rewrite Hwt). replace tr with wt.2 by (by rewrite Hwt). clear Hwt w' tr.
  by_wp Hx. unfold FunctionsService.invoke.
  apply wp_bind, wp_exec. intros og s1 [w1 tr1] Hget.
  apply silent_calls in Hget as Hc; [|unfold FunctionsService.get; only_calls]. destruct Hc as (c1 & Hc & Hn1). simpl in Hc. subst tr1.
  apply (get_spec (logged env) (λ w, view w.1) R) in Hget as [Hv Hg]. simpl in Hv, Hg. rewrite <- Hv in *. clear Hv.
  destruct og as [f|x].
  2: { destruct x as [c m|st m|? ?|m|m]; [left; eauto|right; left|left; eauto..].
       destruct Hg as [He Hn]. rewrite He. done. }
  apply (wp_logged_db env view). intros r s2 w2 Hr. set (c2 := c1 ++ [_]).
  assert (redis_calls c2 = []) as Hn2 by (unfold c2; rewrite redis_calls_app, Hn1; done). clearbody c2.
  db_cases; [|left; eauto 10].
  match goal with H : view w1 = view w2 |- _ => rename H into Hv2 end.
  destruct (latest (versions_of (fn_id f) (view w1))) as [v|] eqn:Hlat.
  2: { right; right. exists f. split; [done|]. left. pose proof (latest_spec (versions_of (fn_id f) (view w1))) as Hl.
       rewrite Hlat in Hl. split; [done|]. split; [by eexists|done]. }
  apply (wp_logged_sys env view). intros start w3 Hv3. set (c3 := c2 ++ [_]).
  assert (redis_calls c3 = []) as Hn3 by (unfold c3; rewrite redis_calls_app, Hn2; done). clearbody c3.
  apply wp_bind, wp_exec. intros spare_ s4 [w4 tr4] Hsp.
  pose proof (no_db_view (logged env) (λ w, view w.1) R _ _ _ _ _ _ no_db_spare Hsp) as Hv4. simpl in Hv4.
  apply spare_asked in Hsp as (asked & Htr4 & Hasked). simpl in Htr4. subst tr4.
  assert (view w4 = view w1) as Hw4 by congruence. clear Hv2 Hv3 Hv4.
  assert (∀ o wt after, wt.2 = (c3 ++ asked) ++ after → invoke_result f v event spare_ after o (view w1) (view wt.1) →
    ∃ v0 before asked0 after0 spare_0, Some v = Some v0 ∧ wt.2 = before ++ asked0 ++ after0 ∧ redis_calls before = [] ∧
      registry_asked spare_0 asked0 ∧ invoke_result f v0 event spare_0 after0 o (view w1) (view wt.1)) as Hend.
  { intros o0 wt0 after Ht Hres. exists v, c3, asked, after, spare_. split_and!; [done|by rewrite Ht, <- app_assoc|done..]. }
  destruct spare_ as [b|x].
  2: { right; right. exists f. split; [done|]. right. rewrite Hlat. apply (Hend (Err x) (w4, c3 ++ asked) []); [by rewrite app_nil_r|done]. }
  eapply (wp_mono _ _ _ _ _ (λ o _ wt, ∃ after, wt.2 = (c3 ++ asked) ++ after ∧ invoke_result f v event (Ok b) after o (view w1) (view wt.1)));
    [|intros oz sz wz (after & Ht & Hres); right; right; exists f; split; [done|]; right; rewrite Hlat; by eapply Hend].
  destruct b; simpl negb; cbv iota.
  2: { apply no_worker_spec with (t := view w1); [done|]. intros s6 w6 calls Hr Hn. exists calls. split; [done|].
       split; [|done]. split; [|done]. eexists. split; [done|by eexists]. }
  apply wp_try, wp_bind, wp_exec. intros reply s5 [w5 tr5] Hdisp.
  pose proof (no_db_view (logged env) (λ w, view w.1) R _ _ _ _ _ _ (no_db_dispatch _) Hdisp) as Hv5. simpl in Hv5.
  assert (view w5 = view w1) as Hw5 by congruence.
  apply logged_history, history_shift in Hdisp as (calls & Htr5 & Hdisp). simpl in Htr5. subst tr5. specialize (Hdisp []).
  pose proof (dispatch_published _ _ _ _ _ Hdisp) as Hpub.
  assert (∀ m x, (∃ c, x = ServiceUnavailableException c) → (match reply with Ok JNull | Err _ => True | _ => False end) →
    wp (logged env) R (now ← sys DateNow;
            _ ← FunctionsService.recordInvocation (fn_id f) (ver_id v) INV_NO_WORKER (Some (JNum (now - start))) (Some (JStr m));
            Throw x) s5 (w5, (c3 ++ asked) ++ calls)
      (λ o _ wt, ∃ after, wt.2 = (c3 ++ asked) ++ after ∧ invoke_result f v event (Ok true) after o (view w1) (view wt.1))) as Hfail.
  { intros m x Hx Hrep. apply no_worker_spec with (t := view w1); [done|]. intros s6 w6 more Hr Hn. exists (calls ++ more).
    split; [simpl; by rewrite <- !app_assoc|]. exists reply, s4, s5, calls, more. split_and!; [done..|].
    destruct reply as [[]|]; try done; (split; [eexists; split; [done|exact Hx]|done]). }
  destruct reply as [v'|x]; [|apply Hfail; [by eexists|done]].
  assert (v' = JNull ∨ v' ≠ JNull) as [->|Hnn] by (destruct v'; auto).
  { apply wp_bind. cbn [of_outcome prop wp]. apply Hfail; [by eexists|done]. }
  rewrite !(prop_ok _ v' Hnn). do 3 (apply wp_bind; cbn [of_outcome wp]).
  apply wp_bind, wp_exec. intros orec s6 [w6 tr6] Hrec.
  apply silent_calls in Hrec as Hc; [|apply record_not_redis]. destruct Hc as (more & Hc & Hn). simpl in Hc. subst tr6.
  apply (record_spec (logged env) (λ w, view w.1) R) in Hrec as [-> Hrec]. simpl in Hrec. simpl.
  exists (calls ++ more). split; [by rewrite <- !app_assoc|]. exists (Ok v'), s4, s5, calls, more. rewrite <- Hw5. split_and!; [done..|].
  destruct v'; done.
Qed.
End invoke_property.

(** ** Concrete executions *)

#[local] Existing Instance json_codec.

Module FunctionsDemo.
Definition hello : FunctionRecord := mk_function "f-1" 10 "u-alice" "hello" 128 3000.
Definition others : FunctionRecord := mk_function "f-2" 11 "u-bob" "hello" 256 5000.
Definition v3 : FunctionVersion := mk_version "v-3" 20 "f-1" 3 "mini-cloud-fn-hello:3".
Definition past : Invocation := mk_invocation "i-1" 999000 "f-1" "v-3" "r-1" INV_SUCCESS 40 None.
Definition tables1 : tables :=
  set_users [AuthDemo.alice] (set_functions [hello; others] (set_versions [v3] (set_invocations [past] empty_tables))).
Definition world : mem :=
  {| mem_tables := tables1;
     mem_hash := {[ (REGISTRY_KEY, "w1") := JSON_stringify (heartbeat_json
       {| workerId := "w1"; capacity := 1; inFlight := 0; lastHeartbeatAt := 999000 |}) ]};
     mem_clock := 1000000; mem_next := 0 |}.
Definition answer : ∀ X, ev X → mem → X :=
  λ X e w, match e in ev X return X with
           | Redis e' => match e' in redis_eff X return outcome X with
                         | Xadd _ _ => Ok "1-0"
                         | Subscribe _ | Unsubscribe _ => Ok tt
                         | _ => down
                         end
           | Sys e' => match e' in sys_eff X return X with
                       | RandomUUID => "c0ffee"
                       | e' => quiet _ (Sys e') w
                       end
           | Db _ | Aws _ | Os _ | Fs _ | Lib _ => down
           end.
Definition env := env_of (mem_env answer).
Definition others_run (s s' : dstate) : Prop := s' = DispatchDemo.deliver s.
Definition body : json := JObj [("name", JStr "resize"); ("memoryMb", JNum 512)].
Definition dto : RegisterFunctionDto :=
  {| dto_fn_name := "resize"; dto_memoryMb := Some 512; dto_timeoutMs := None |}.
Lemma schema : schema_ok tables1.
Proof. apply schema_okb_ok. vm_compute. reflexivity. Qed.
End FunctionsDemo.

Lemma register_correct_witness :
  ∃ o s' w', exec FunctionsDemo.env still (FunctionsService.register "u-alice" FunctionsDemo.dto) tt FunctionsDemo.world o s' w' ∧
    ∃ f, o = Ok f ∧ fn_limits f ∧ fn_memoryMb f = 512 ∧ fn_timeoutMs f = 3000.
Proof.
  eexists _, _, _. split; [executes|]. eexists. split; [reflexivity|].
  epose proof (register_correct FunctionsDemo.env mem_tables still FunctionsDemo.body "u-alice" FunctionsDemo.dto tt
    FunctionsDemo.world _ _ _ eq_refl) as H.
  destruct (H ltac:(executes)) as (_ & _ & _ & Hl & Hm & Ht). done.
Defined.

Lemma remove_correct_witness :
  ∃ s' w', exec FunctionsDemo.env still (FunctionsService.remove "u-alice" "hello") tt FunctionsDemo.world (Ok tt) s' w' ∧
    find_function "u-alice" "hello" (mem_tables w') = None.
Proof.
  eexists _, _. split; [executes|].
  epose proof (remove_correct FunctionsDemo.env mem_tables still "u-alice" "hello" tt FunctionsDemo.world (Ok tt) _ _ FunctionsDemo.schema) as H.
  destruct (H ltac:(executes)) as (f & _ & Hv & Hf & _). exact Hf.
Defined.

Lemma listInvocations_correct_witness :
  ∃ l s' w', exec FunctionsDemo.env still (FunctionsService.listInvocations "u-alice" "hello") tt FunctionsDemo.world (Ok l) s' w' ∧
    l = [FunctionsDemo.past] ∧ StronglySorted (by_created_desc inv_createdAt) l.
Proof.
  eexists _, _, _. split; [executes|]. split; [reflexivity|].
  eapply (listInvocations_correct FunctionsDemo.env mem_tables still "u-alice" "hello" tt FunctionsDemo.world). executes.
Defined.

Lemma metrics_summary_correct_witness :
  ∃ m s' w', exec FunctionsDemo.env still (FunctionsService.getMetricsSummary "u-alice" "hello") tt FunctionsDemo.world (Ok m) s' w' ∧
    totalInvocations m = 1 ∧ ∃ f now, find_function "u-alice" "hello" FunctionsDemo.tables1 = Some f ∧
      mem_clock FunctionsDemo.world ≤ now ≤ mem_clock w' ∧
      totalInvocations m = Z.of_nat (length (filter (λ i, inv_functionId i = fn_id f ∧ now - 3600000 < inv_createdAt i)
                                               (t_invocations FunctionsDemo.tables1))).
Proof.
  assert (∃ m s' w', exec FunctionsDemo.env still (FunctionsService.getMetricsSummary "u-alice" "hello") tt FunctionsDemo.world (Ok m) s' w' ∧
    totalInvocations m = 1) as (m & s' & w' & Hx & Ht).
  { eexists _, _, _. split; [executes|reflexivity]. }
  exists m, s', w'. split; [exact Hx|]. split; [exact Ht|].
  destruct (metrics_summary_correct FunctionsDemo.env mem_tables still mem_clock "u-alice" "hello" tt FunctionsDemo.world _ _ _ Hx)
    as (_ & f & now & Hf & Hc & Htot & _).
  exists f, now. split; [exact Hf|]. split; [exact Hc|exact Htot].
Defined.

Lemma invoke_correct_witness :
  ∃ s' w' tr, exec (logged FunctionsDemo.env) FunctionsDemo.others_run (FunctionsService.invoke "u-alice" "hello" None) dstate0
      (FunctionsDemo.world, []) (Ok DispatchDemo.reply) s' (w', tr) ∧
    inv_status <$> t_invocations (mem_tables w') = [INV_SUCCESS; INV_SUCCESS] ∧
    ∃ f v before asked after, find_function "u-alice" "hello" FunctionsDemo.tables1 = Some f ∧
      tr = before ++ asked ++ after ∧
      invoke_result FunctionsDemo.others_run f v None (Ok true) after (Ok DispatchDemo.reply) FunctionsDemo.tables1 (mem_tables w').
Proof.
  assert (∃ s' w' tr, exec (logged FunctionsDemo.env) FunctionsDemo.others_run (FunctionsService.invoke "u-alice" "hello" None) dstate0
      (FunctionsDemo.world, []) (Ok DispatchDemo.reply) s' (w', tr) ∧
    inv_status <$> t_invocations (mem_tables w') = [INV_SUCCESS; INV_SUCCESS]) as (s' & w' & tr & Hx & Hst).
  { eexists _, _, _. split; [apply (run_among_logged DispatchDemo.deliver); [done|vm_compute; reflexivity]|reflexivity]. }
  exists s', w', tr. split; [exact Hx|]. split; [exact Hst|].
  destruct (invoke_correct FunctionsDemo.env mem_tables FunctionsDemo.others_run "u-alice" "hello" None dstate0 FunctionsDemo.world _ _ _ _ Hx)
    as [(x & Ho & _)|[(_ & Ho & _)|(f & Hf & [(_ & (m & Ho) & _)|(v & before & asked & after & sp & _ & Htr & _ & Hsp & Hres)])]];
    [discriminate Ho..|].
  exists f, v, before, asked, after. split; [exact Hf|]. split; [exact Htr|].
  destruct sp as [[|]|x]; [exact Hres|destruct Hres as [[(x & Ho & _) _] _]; discriminate Ho|destruct Hres as (Ho & _); discriminate Ho].
Defined.
