(* ===== verification/Storage.v ===== *)
(** * Object storage and child processes (src/storage, and the [spawn] listeners)

    [ObjectStorageService]; and what a promise around [spawn] does with the
    callbacks of its process, which the image builds and the registry login
    share. *)

From S2P Require Import Prelude Json Prog Services Percentile Database Schema.

(** JavaScript truthiness of an optional string. *)
Definition truthy (v : option string) : option string :=
  match v with Some EmptyString | None => None | Some s => Some s end.

(** ** object-storage.service.ts *)

Record ObjectStorage := {
  st_bucket : string; st_isMinio : bool; st_endpoint : option string; st_region : string;
  st_credentials : option (string * string) }.

(** [err.name] *)
Definition err_name (x : exn) : string :=
  match x with AwsError n _ => n | PrismaError _ _ => "PrismaClientKnownRequestError" | _ => "Error" end.

Module ObjectStorageService.
Section service.
Context {S : Type}.

Definition constructor : prog ev S ObjectStorage :=
  bucket ← sys (ProcessEnv "S3_BUCKET");
  endpoint ← sys (ProcessEnv "S3_ENDPOINT");
  region ← sys (ProcessEnv "S3_REGION");
  accessKeyId ← sys (ProcessEnv "S3_ACCESS_KEY_ID");
  secretAccessKey ← sys (ProcessEnv "S3_SECRET_ACCESS_KEY");
  Ret {| st_bucket := default "mini-cloud-function-source" bucket;
         st_isMinio := bool_decide (is_Some (truthy endpoint));
         st_endpoint := endpoint;
         st_region := default "us-east-1" region;
         st_credentials := (λ id, (id, default EmptyString secretAccessKey)) <$> truthy accessKeyId |}.

Definition onModuleInit (st : ObjectStorage) : prog ev S unit :=
  if negb (st_isMinio st) then Ret tt
  else
    try_catch (aws (S3CreateBucket (st_bucket st)))
      (λ err,
         if bool_decide (err_name err ≠ "BucketAlreadyOwnedByYou" ∧ err_name err ≠ "BucketAlreadyExists")
         then Throw err else Ret tt).

Definition putObject (st : ObjectStorage) (key body : string) : prog ev S unit :=
  aws (S3PutObject (st_bucket st) key body).

(** The chunks of the body stream, concatenated. *)
Definition getObject (st : ObjectStorage) (key : string) : prog ev S string :=
  chunks ← aws (S3GetObject (st_bucket st) key);
  Ret (join EmptyString chunks).
End service.
End ObjectStorageService.

(** ** Promises around a spawned process *)

(** What the listeners of a spawned process have collected: the standard error
    text, and the settlement of the promise, which only its first counts. *)
Record proc_state := { proc_stderr : string; proc_settled : option (outcome unit) }.

(** [proc.stderr.on('data')] and [proc.on('close')]. *)
Definition on_process_event (on_close : option Z → string → outcome unit) (st : proc_state) (e : process_event) : proc_state :=
  match e with
  | StderrData chunk => {| proc_stderr := proc_stderr st +:+ chunk; proc_settled := proc_settled st |}
  | TimerFired => st
  | Close code =>
      {| proc_stderr := proc_stderr st;
         proc_settled := match proc_settled st with Some r => Some r | None => Some (on_close code (proc_stderr st)) end |}
  end.

Definition process_result (on_close : option Z → string → outcome unit) (evs : list process_event) : option (outcome unit) :=
  proc_settled (foldl (on_process_event on_close) {| proc_stderr := EmptyString; proc_settled := None |} evs).

(** [await] on that promise: it never settles when the process never closes. *)
Definition await_process {S} (command : string) (args : list string) (stdin : option string)
    (on_close : option Z → string → outcome unit) : prog ev S unit :=
  evs ← os (Spawn command args stdin None);
  match process_result on_close evs with
  | Some r => of_outcome r
  | None => Wait (λ _, None) Ret
  end.

(** [`${code}`] of an exit code. *)
Definition string_of_code (code : option Z) : string :=
  match code with Some n => string_of_Z n | None => "null" end.

(** The standard error text a list of callbacks carries. *)
Definition stderr_of (evs : list process_event) : string :=
  join EmptyString (omap (λ e, match e with StderrData c => Some c | _ => None end) evs).

(** ** Lemmas *)

#[local] Arguments join : simpl never.

Lemma join_nil_cons c l : join EmptyString (c :: l) = c +:+ join EmptyString l.
Proof.
  unfold join. destruct l as [|d l]; [|done].
  change (String.concat EmptyString [c]) with c. change (String.concat EmptyString []) with EmptyString.
  by rewrite str_app_nil_r.
Qed.

Lemma process_fold_stderr on_close l st :
  (∀ code, Close code ∉ l) →
  foldl (on_process_event on_close) st l =
  {| proc_stderr := proc_stderr st +:+ stderr_of l; proc_settled := proc_settled st |}.
Proof.
  revert st. induction l as [|e l IH]; intros st Hno.
  { destruct st. unfold stderr_of. simpl. change (join EmptyString []) with EmptyString. by rewrite str_app_nil_r. }
  simpl. rewrite IH by (intros code Hc; apply (Hno code); by right).
  destruct e as [c| |code]; simpl.
  - unfold stderr_of. simpl. by rewrite join_nil_cons, str_app_assoc.
  - done.
  - destruct (Hno code). by left.
Qed.

Lemma process_fold_settled on_close l st r :
  proc_settled st = Some r → proc_settled (foldl (on_process_event on_close) st l) = Some r.
Proof. revert st. induction l as [|e l IH]; intros st Hst; simpl; [done|]. apply IH. by destruct e; simpl; rewrite ?Hst. Qed.

(** A process that closes settles its promise with the standard error it wrote
    before. *)
Lemma process_result_close on_close pre code post :
  (∀ c, Close c ∉ pre) →
  process_result on_close (pre ++ Close code :: post) = Some (on_close code (stderr_of pre)).
Proof.
  intros Hno. unfold process_result. rewrite foldl_app, (process_fold_stderr _ pre) by exact Hno.
  simpl. by apply process_fold_settled.
Qed.

Lemma process_result_None on_close evs : process_result on_close evs = None ↔ ∀ c, Close c ∉ evs.
Proof.
  split.
  - unfold process_result. generalize {| proc_stderr := EmptyString; proc_settled := None |}.
    induction evs as [|e evs IH]; intros st H c Hc; simpl in *; [by apply not_elem_of_nil in Hc|].
    apply elem_of_cons in Hc as [<-|Hc]; [|by eapply IH].
    destruct (proc_settled (on_process_event on_close st (Close c))) eqn:E.
    + by rewrite (process_fold_settled _ _ _ _ E) in H.
    + simpl in E. by case_match.
  - intros Hno. unfold process_result. by rewrite process_fold_stderr.
Qed.

#[export] Hint Rewrite process_result_close : platform.

(** ** Properties *)

Definition already_there (x : exn) : Prop := err_name x = "BucketAlreadyOwnedByYou" ∨ err_name x = "BucketAlreadyExists".

(** Starting the storage service is safe on every boot: against AWS (no
    endpoint configured) it makes no call at all; against MinIO it asks once for
    its bucket, and a bucket that is already there is no failure, while any other
    refusal is rethrown as it came. *)
Theorem storage_init_correct {S} (R : S → S → Prop) st s o s' tr :
  exec (history_env ev) R (ObjectStorageService.onModuleInit st) s [] o s' tr →
  if st_isMinio st then
    ∃ r, tr = [Entry (Aws (S3CreateBucket (st_bucket st))) r] ∧
      match r with Ok _ => o = Ok tt | Err x => (already_there x ∧ o = Ok tt) ∨ (¬ already_there x ∧ o = Err x) end
  else tr = [] ∧ o = Ok tt.
Proof.
  intros Hx. by_wp Hx. unfold ObjectStorageService.onModuleInit. destruct (st_isMinio st); simpl; [|done].
  intros r w1 s1 -> _. unfold history_env. destruct r as [[]|x]; simpl; [by eexists|].
  case_bool_decide as Hb; simpl; eexists; (split; [done|]); [right|left]; unfold already_there; (split; [|done]); [tauto|].
  destruct (decide (err_name x = "BucketAlreadyOwnedByYou")); [by left|].
  destruct (decide (err_name x = "BucketAlreadyExists")); [by right|]. by destruct Hb.
Qed.

Definition minio_demo : ObjectStorage :=
  {| st_bucket := "source"; st_isMinio := true; st_endpoint := Some "http://minio:9000"; st_region := "us-east-1"; st_credentials := None |}.

Definition owned_answer : ∀ X, ev X → X :=
  λ X e, match e in ev X return X with
         | Aws _ => Err (AwsError "BucketAlreadyOwnedByYou" "yours already")
         | Db _ | Redis _ | Os _ | Fs _ | Lib _ => down
         | Sys e' => quiet _ (Sys e') (mem_of empty_tables)
         end.

Lemma storage_init_correct_witness :
  ∃ s' tr, exec (history_env ev) (λ s s' : unit, s' = s) (ObjectStorageService.onModuleInit minio_demo) tt [] (Ok tt) s' tr ∧
    length tr = 1%nat ∧ ∃ r, tr = [Entry (Aws (S3CreateBucket "source")) r].
Proof.
  eexists _, _. split; [scripted_by (λ X e (_ : list entry), owned_answer X e)|]. split; [reflexivity|].
  destruct (storage_init_correct (λ s s' : unit, s' = s) minio_demo tt (Ok tt) tt
    [Entry (Aws (S3CreateBucket "source")) (owned_answer _ (Aws (S3CreateBucket "source")))]) as (r & Hr & _);
    [scripted_by (λ X e (_ : list entry), owned_answer X e)|]. exists r. exact Hr.
Defined.
