(* ===== verification/Build.v ===== *)
(** * Builds (src/build)

    The [BuildExecutor] interface and its two implementations (local Docker and
    CodeBuild), [BuildService], and the build controller's routes.
    [BuildService] is proved against the interface. *)

From Stdlib Require Import Ascii.
From S2P Require Import Prelude Json JsonText Prog Services Percentile Database Schema Auth Registry Dispatch Functions Storage.
#[local] Open Scope Z_scope.

(** ** build-executor.ts *)

Record BuildExecutorParams := { sourceObjectKey : string; functionName : string; versionNumber : Z }.

(** What the build service and the consumer rely on: a build answers an image
    reference or throws, and touches neither the database nor the queues. *)
Definition outside_store X (e : ev X) : Prop := match e with Db _ | Redis _ => False | _ => True end.

Class BuildExecutor (S : Type) := {
  build : BuildExecutorParams → prog ev S string;
  build_calls : ∀ params, only outside_store (build params) }.

Lemma build_no_db {S} {EX : BuildExecutor S} params : no_db (build params).
Proof. eapply only_mono, build_calls. by intros X []. Qed.

(** [os.tmpdir()] *)
Class OsTmpdir := os_tmpdir : string.

(** [path.join] of a directory and a relative name. *)
Definition path_join (a b : string) : string := a +:+ "/" +:+ b.

Definition newline : string := String "010"%char EmptyString.

Definition logger_log {S} (message : string) : prog ev S unit := sys (Log "log" message).
Definition logger_warn {S} (message : string) : prog ev S unit := sys (Log "warn" message).
Definition logger_error {S} (message : string) : prog ev S unit := sys (Log "error" message).

(** ** local-docker-build-executor.ts *)

Module LocalDockerBuildExecutor.
Section executor.
Context {TMP : OsTmpdir} {S : Type} (storage : ObjectStorage).

Definition BASE_RUNTIME_IMAGE : string := "mini-cloud-runtime:latest".

Definition dockerfile : string :=
  "FROM " +:+ BASE_RUNTIME_IMAGE +:+ newline +:+ "COPY handler.js /var/task/handler.js" +:+ newline.

Definition image_ref (functionName : string) (versionNumber : Z) : string :=
  "mini-cloud-fn-" +:+ functionName +:+ ":" +:+ string_of_Z versionNumber.

Definition on_close (code : option Z) (stderr : string) : outcome unit :=
  if bool_decide (code = Some 0) then Ok tt
  else Err (JsError ("docker build exited with code " +:+ string_of_code code +:+ ": " +:+ slice_last 1000 stderr)).

Definition dockerBuild (contextDir imageTag : string) : prog ev S unit :=
  await_process "docker" ["build"; "-t"; imageTag; contextDir] None on_close.

Definition build (params : BuildExecutorParams) : prog ev S string :=
  workDir ← fs (MkdtempSync (path_join os_tmpdir "mini-cloud-build-"));
  try_finally
    (source ← ObjectStorageService.getObject storage (sourceObjectKey params);
     _ ← fs (WriteFileSync (path_join workDir "handler.js") source);
     _ ← fs (WriteFileSync (path_join workDir "Dockerfile") dockerfile);
     let imageRef := image_ref (functionName params) (versionNumber params) in
     _ ← dockerBuild workDir imageRef;
     Ret imageRef)
    (fs (RmSync workDir)).
End executor.
End LocalDockerBuildExecutor.

(** ** codebuild-executor.ts *)

Module CodeBuildExecutor.
Section executor.
Context {S : Type}.

Definition POLL_INTERVAL_MS : Z := 3000.
Definition MAX_POLL_ATTEMPTS : nat := 100.

Definition image_tag (functionName : string) (versionNumber : Z) : string :=
  functionName +:+ "-v" +:+ string_of_Z versionNumber.

(** The loop, from [attempts] polls before its end. *)
Fixpoint poll (buildId imageRef : string) (attempts : nat) : prog ev S string :=
  match attempts with
  | O => Throw (JsError ("CodeBuild " +:+ buildId +:+ " did not finish within the poll window"))
  | Datatypes.S n =>
      _ ← os (SetTimeoutMs POLL_INTERVAL_MS);
      status ← aws (CodeBuildBatchGet buildId);
      match status with
      | None => poll buildId imageRef n
      | Some buildStatus =>
          if bool_decide (buildStatus = Some "SUCCEEDED") then
            _ ← logger_log ("CodeBuild " +:+ buildId +:+ " succeeded -> " +:+ imageRef);
            Ret imageRef
          else match truthy buildStatus with
               | Some st =>
                   if bool_decide (st ≠ "IN_PROGRESS")
                   then Throw (JsError ("CodeBuild " +:+ buildId +:+ " ended with status " +:+ st))
                   else poll buildId imageRef n
               | None => poll buildId imageRef n
               end
      end
  end.

Definition build (params : BuildExecutorParams) : prog ev S string :=
  projectName ← sys (ProcessEnv "CODEBUILD_PROJECT_NAME");
  bucket ← sys (ProcessEnv "S3_BUCKET");
  functionsRepoUri ← sys (ProcessEnv "FUNCTIONS_ECR_REPO_URI");
  runtimeImageUri ← sys (ProcessEnv "RUNTIME_IMAGE_URI");
  match truthy projectName, truthy bucket, truthy functionsRepoUri, truthy runtimeImageUri with
  | Some projectName, Some bucket, Some functionsRepoUri, Some runtimeImageUri =>
      let imageTag := image_tag (functionName params) (versionNumber params) in
      let imageRef := functionsRepoUri +:+ ":" +:+ imageTag in
      start ← aws (CodeBuildStart projectName
        [("SOURCE_BUCKET", bucket); ("SOURCE_KEY", sourceObjectKey params);
         ("RUNTIME_IMAGE_URI", runtimeImageUri); ("IMAGE_URI", functionsRepoUri); ("IMAGE_TAG", imageTag)]);
      match truthy start with
      | None => Throw (JsError "CodeBuild did not return a build id")
      | Some buildId => poll buildId imageRef MAX_POLL_ATTEMPTS
      end
  | _, _, _, _ =>
      Throw (JsError "CodeBuildExecutor requires CODEBUILD_PROJECT_NAME, S3_BUCKET, FUNCTIONS_ECR_REPO_URI, and RUNTIME_IMAGE_URI")
  end.
End executor.
End CodeBuildExecutor.

#[export] Hint Unfold logger_log logger_warn logger_error : platform.

Lemma await_process_calls {S} command args stdin on_close : only outside_store (S := S) (await_process command args stdin on_close).
Proof. unfold await_process. only_calls. Qed.

#[export, refine] Instance local_docker_executor {TMP : OsTmpdir} {S} (storage : ObjectStorage) : BuildExecutor S :=
  {| build := LocalDockerBuildExecutor.build storage |}.
Proof.
  intros params. unfold LocalDockerBuildExecutor.build, LocalDockerBuildExecutor.dockerBuild, ObjectStorageService.getObject.
  repeat first [apply await_process_calls | only_calls].
Defined.

Lemma poll_calls_outside {S} buildId imageRef n : only outside_store (S := S) (CodeBuildExecutor.poll buildId imageRef n).
Proof.
  induction n as [|n IH]; [done|]. cbn [CodeBuildExecutor.poll].
  apply only_bind; [by split; [|apply only_outcome]|]. intros _.
  apply only_bind; [by split; [|apply only_outcome]|]. intros [st|]; [|exact IH].
  case_bool_decide; [by split|]. destruct (truthy st); [|exact IH]. by case_bool_decide.
Qed.

Lemma codebuild_calls {S} params : only outside_store (S := S) (CodeBuildExecutor.build params).
Proof.
  unfold CodeBuildExecutor.build. do 4 (apply only_bind; [by split|]; intros ?).
  repeat match goal with |- only outside_store (match ?x with _ => _ end) => destruct x; [|done] end.
  apply only_bind; [by split; [|apply only_outcome]|]. intros start.
  destruct (truthy start); [apply poll_calls_outside|done].
Qed.

#[export] Instance codebuild_executor {S} : BuildExecutor S :=
  {| build := CodeBuildExecutor.build; build_calls := codebuild_calls |}.

(** build.module.ts: which executor the process uses. *)
Definition BUILD_EXECUTOR {TMP : OsTmpdir} {S} (storage : ObjectStorage) (env : option string) : BuildExecutor S :=
  if bool_decide (env = Some "codebuild") then codebuild_executor else local_docker_executor storage.

(** ** build.service.ts *)

Definition build_status_string (s : BuildStatus) : string :=
  match s with PENDING => "PENDING" | SUCCESS => "SUCCESS" | FAILED => "FAILED" end.

Module BuildService.
Section service.
Context {S : Type}.

Definition submitBuild (storage : ObjectStorage) (functionId sourceBuffer : string) : prog ev S Build :=
  uuid ← sys RandomUUID;
  let sourceObjectKey := "functions/" +:+ functionId +:+ "/" +:+ uuid +:+ ".js" in
  _ ← ObjectStorageService.putObject storage sourceObjectKey sourceBuffer;
  db (BuildCreate functionId sourceObjectKey PENDING).

Definition getBuild (functionId buildId : string) : prog ev S Build :=
  build ← db (BuildFindUnique buildId);
  let missing := Throw (NotFoundException ("Build " +:+ dq +:+ buildId +:+ dq +:+ " not found")) in
  match build with
  | None => missing
  | Some b => if decide (build_functionId b ≠ functionId) then missing else Ret b
  end.

Definition listVersions (functionId : string) : prog ev S (list FunctionVersion) := db (VersionFindMany functionId).

Definition nextVersionNumber (functionId : string) : prog ev S Z :=
  latest ← db (VersionFindLatest functionId);
  Ret (match latest with Some v => ver_versionNumber v | None => 0 end + 1).

Definition success_patch (imageRef : string) (now : Z) : BuildPatch :=
  {| patch_status := SUCCESS; patch_imageTag := Some imageRef; patch_errorMessage := None; patch_finishedAt := now |}.
Definition failed_patch (message : string) (now : Z) : BuildPatch :=
  {| patch_status := FAILED; patch_imageTag := None; patch_errorMessage := Some message; patch_finishedAt := now |}.

Definition runBuild {EX : BuildExecutor S} (b : Build) : prog ev S unit :=
  try_catch
    (fn ← db (FunctionFindByIdOrThrow (build_functionId b));
     versionNumber ← nextVersionNumber (build_functionId b);
     imageRef ← build {| sourceObjectKey := build_sourceObjectKey b; functionName := fn_name fn; versionNumber := versionNumber |};
     now ← sys DateNow;
     _ ← db (TransactionBatch (VersionCreate (build_functionId b) versionNumber imageRef)
               (BuildUpdate (build_id b) (success_patch imageRef now)));
     logger_log ("Build " +:+ build_id b +:+ " succeeded -> " +:+ imageRef))
    (λ err,
       now ← sys DateNow;
       _ ← db (BuildUpdate (build_id b) (failed_patch (err_message err) now));
       logger_warn ("Build " +:+ build_id b +:+ " failed: " +:+ err_message err)).
End service.
End BuildService.

(** ** build.controller.ts *)

Module BuildController.
Section controller.
Context {S : Type}.

(** [file]: the uploaded buffer; the answer is the build's id and status. *)
Definition createVersion (storage : ObjectStorage) (userId name : string) (file : option string) : prog ev S (string * BuildStatus) :=
  match file with
  | None => Throw (BadRequestException ("Upload a source file under the " +:+ dq +:+ "source" +:+ dq +:+ " field"))
  | Some buffer =>
      fn ← FunctionsService.get userId name;
      build ← BuildService.submitBuild storage (fn_id fn) buffer;
      Ret (build_id build, build_status build)
  end.

Definition getBuild (userId name buildId : string) : prog ev S Build :=
  fn ← FunctionsService.get userId name;
  BuildService.getBuild (fn_id fn) buildId.

Definition listVersions (userId name : string) : prog ev S (list FunctionVersion) :=
  fn ← FunctionsService.get userId name;
  BuildService.listVersions (fn_id fn).
End controller.
End BuildController.

(** ** Lemmas *)

Lemma latest_None vs : latest vs = None → vs = [].
Proof. pose proof (latest_spec vs) as H. by destruct (latest vs). Qed.

(** A version numbered above every other is the latest. *)
Lemma latest_snoc_max vs v :
  (∀ v', v' ∈ vs → ver_versionNumber v' < ver_versionNumber v) → latest (vs ++ [v]) = Some v.
Proof.
  induction vs as [|u vs IH]; intros Hmax; simpl; [done|].
  rewrite IH by set_solver. assert (ver_versionNumber u < ver_versionNumber v) by (apply Hmax; set_solver).
  destruct (_ <? _) eqn:E; [done|lia].
Qed.

Lemma next_number_above fid t v' :
  v' ∈ versions_of fid t →
  ver_versionNumber v' < match latest (versions_of fid t) with Some v => ver_versionNumber v | None => 0 end + 1.
Proof.
  intros Hv. pose proof (latest_spec (versions_of fid t)) as Hl.
  destruct (latest (versions_of fid t)) as [v|].
  - destruct Hl as [_ Hmax]. specialize (Hmax v' Hv). lia.
  - rewrite Hl in Hv. by apply not_elem_of_nil in Hv.
Qed.

Lemma versions_of_snoc fid t v :
  ver_functionId v = fid →
  versions_of fid (set_versions (t_versions t ++ [v]) t) = versions_of fid t ++ [v].
Proof. intros Hv. unfold versions_of. simpl. rewrite List.filter_app. simpl. by rewrite bool_decide_eq_true_2. Qed.

Lemma next_number_new fid t :
  has_version fid (match latest (versions_of fid t) with Some v => ver_versionNumber v | None => 0 end + 1) t = false.
Proof.
  apply not_true_is_false. intros H. apply has_version_spec in H as (v & Heq & Hv)%list_elem_of_fmap.
  injection Heq as Hf Hn. assert (v ∈ versions_of fid t) as Hin.
  { unfold versions_of. apply elem_of_filterb. by rewrite bool_decide_eq_true_2. }
  apply next_number_above in Hin. lia.
Qed.

(** ** Properties *)

Section build_properties.
Context {S W : Type} (env : Env ev W) (view : W → tables) `{DBE : !DbEnv env view} (R : S → S → Prop).

(** The two ways a build can end: [built] records the version and the success
    together, [build_failed] the failure alone. *)
Definition built (b : Build) (v : FunctionVersion) (now : Z) (t t' : tables) : Prop :=
  t' = set_builds (update_where (λ x, bool_decide (build_id x = build_id b))
                     (patch_build (BuildService.success_patch (ver_imageTag v) now)) (t_builds t))
         (set_versions (t_versions t ++ [v]) t) ∧
  ver_functionId v = build_functionId b ∧ has_version (build_functionId b) (ver_versionNumber v) t = false ∧
  ver_versionNumber v = match latest (versions_of (build_functionId b) t) with Some u => ver_versionNumber u | None => 0 end + 1 ∧
  latest (versions_of (build_functionId b) t') = Some v.

Definition build_failed (b : Build) (message : string) (now : Z) (t t' : tables) : Prop :=
  t' = set_builds (update_where (λ x, bool_decide (build_id x = build_id b))
                     (patch_build (BuildService.failed_patch message now)) (t_builds t)) t.

Lemma commit_build_spec b n ref now t r t' :
  n = match latest (versions_of (build_functionId b) t) with Some u => ver_versionNumber u | None => 0 end + 1 →
  db_spec (TransactionBatch (VersionCreate (build_functionId b) n ref)
             (BuildUpdate (build_id b) (BuildService.success_patch ref now))) t r t' →
  match r with Ok (v, _) => built b v now t t' | Err _ => t' = t end.
Proof.
  intros Hn [(draw & now0 & _ & Hr)|(x & _ & -> & ->)]; [|done]. simpl in Hr.
  destruct (find_function_by_id _ t); [|by simplify_eq]. destruct (has_version _ n t) eqn:Hh; [by simplify_eq|].
  set (v := mk_version (draw t) now0 (build_functionId b) n ref) in *.
  destruct (find_build _ _) as [b0|]; simplify_eq; [|done].
  split; [done|]. split; [done|]. split; [done|]. split; [done|].
  unfold versions_of. simpl. change (List.filter _ (t_versions t ++ [v]))
    with (versions_of (build_functionId b) (set_versions (t_versions t ++ [v]) t)).
  rewrite versions_of_snoc by done. apply latest_snoc_max. intros v' Hv'. simpl. by apply next_number_above.
Qed.

Lemma mark_failed_spec {B} (b : Build) message (p : prog ev S B) now s w Q :
  (∀ s' w', build_failed b message now (view w) (view w') → wp env R p s' w' Q) →
  (∀ x s' w', view w' = view w → infra_failure x ∨ (x = P2025 ∧ find_build (build_id b) (view w) = None) → Q (Err x) s' w') →
  wp env R (_ ← db (BuildUpdate (build_id b) (BuildService.failed_patch message now)); p) s w Q.
Proof.
  intros HOk HErr. apply (wp_db env view). intros r s1 w1 Hr. db_cases.
  - by apply HOk.
  - apply HErr; [done|by right].
  - apply HErr; [done|by left].
Qed.

(** The ends of an attempt, on the tables before and after. *)
Definition attempt_end (b : Build) (o : outcome unit) (t t' : tables) : Prop :=
  match o with
  | Ok _ => (∃ v now, built b v now t t') ∨ (∃ message now, build_failed b message now t t')
  | Err x => t' = t ∧ (infra_failure x ∨ (x = P2025 ∧ find_build (build_id b) t = None))
  end.

Lemma runBuild_spec {EX : BuildExecutor S} b s w o s' w' :
  exec env R (BuildService.runBuild b) s w o s' w' → attempt_end b o (view w) (view w').
Proof.
  intros Hx. by_wp Hx. unfold attempt_end, BuildService.runBuild. apply wp_try.
  eapply (wp_mono _ _ _ _ _ (λ o _ w', match o with Ok _ => ∃ v now, built b v now (view w) (view w') | Err _ => view w' = view w end)).
  2: { intros [[]|err] s1 w1 H1; [by left|]. apply (wp_sys env view). intros now w2 Hv2.
       apply mark_failed_spec.
       - intros s3 w3 Hf. cbn [logger_warn sys ask wp]. intros r w4 s4 Henv _. apply db_env in Henv. simpl in Henv.
         right. exists (err_message err), now. rewrite Henv, <- H1, <- Hv2. done.
       - intros x s3 w3 Hv3 Hcase. rewrite Hv3, Hv2, H1. split; [done|]. rewrite Hv2, H1 in Hcase. done. }
  apply (wp_db env view). intros r1 s1 w1 Hr1. db_cases; [|done|done].
  unfold BuildService.nextVersionNumber. apply wp_bind, (wp_db env view). intros r2 s2 w2 Hr2. db_cases; [|congruence].
  cbn [wp]. apply wp_bind, wp_exec. intros oref s3 w3 Hb.
  apply (no_db_view env view R _ _ _ _ _ _ (build_no_db _)) in Hb.
  destruct oref as [ref|x]; [|congruence]. apply (wp_sys env view). intros now' w4 Hv4.
  apply (wp_db env view). intros r5 s5 w5 Hr5.
  assert (view w4 = view w) as Hw by congruence. rewrite Hw in Hr5.
  assert (view w1 = view w) as Hw1 by congruence. rewrite Hw1 in Hr5.
  apply commit_build_spec in Hr5; [|done]. destruct r5 as [[v b']|x]; [|done].
  cbn [logger_log sys ask wp]. intros r w6 s6 Henv _. apply db_env in Henv. simpl in Henv.
  exists v, now'. by rewrite Henv.
Qed.

(** C16: a build attempt is all or nothing: it either records the next version of
    its function and its own success in one transaction, after which that
    version is the one [invoke] runs, or records its own failure and no version;
    if even that write fails nothing has changed.  Version numbers start at 1
    and have no gap above the latest. *)
Theorem runBuild_correct {EX : BuildExecutor S} b s w o s' w' :
  exec env R (BuildService.runBuild b) s w o s' w' →
  match o with
  | Ok _ => (∃ v now, built b v now (view w) (view w')) ∨ (∃ message now, build_failed b message now (view w) (view w'))
  | Err x => view w' = view w ∧ (infra_failure x ∨ (x = P2025 ∧ find_build (build_id b) (view w) = None))
  end.
Proof. apply runBuild_spec. Qed.

(** C26: a build is visible only through its own function, owned by the caller:
    [GET /functions/:name/builds/:buildId] answers a build of the caller's
    function of that name, and a 404 whenever the function is not the caller's
    or the build belongs to any other function, whoever owns it. *)
Theorem getBuild_correct userId name buildId s w o s' w' :
  exec env R (BuildController.getBuild userId name buildId) s w o s' w' →
  view w' = view w ∧
  match o with
  | Ok b => ∃ f, find_function userId name (view w) = Some f ∧ find_build buildId (view w) = Some b ∧
      build_functionId b = fn_id f ∧ fn_userId f = userId
  | Err (HttpException status _) => status = 404 ∧
      ∀ f b, find_function userId name (view w) = Some f → find_build buildId (view w) = Some b →
        build_functionId b ≠ fn_id f
  | Err x => infra_failure x
  end.
Proof.
  intros Hx. by_wp Hx. unfold BuildController.getBuild.
  apply wp_bind, wp_exec. intros og s1 w1 [Hv Hg]%(get_spec env view R).
  destruct og as [f|x].
  2: { split; [done|]. destruct x; try done. destruct Hg as [[= -> _] Hn]. split; [done|]. intros f b Hf. congruence. }
  unfold BuildService.getBuild. apply (wp_db env view). intros r s2 w2 Hr. db_cases.
  2: { split; [congruence|]. by destruct x. }
  pose proof (find_function_Some _ _ _ _ Hg) as (_ & Hu & _). rewrite Hv in *.
  destruct (find_build buildId (view w)) as [b|] eqn:Hb; simpl.
  - case_decide as Hd; simpl; (split; [congruence|]).
    + split; [done|]. intros f' b' Hf' Hb'. by simplify_eq.
    + exists f. split_and!; try done.
  - split; [congruence|]. by split.
Qed.

(** What an upload of [buffer] does: the calls it makes, its answer and the
    tables it leaves. *)
Definition uploaded (storage : ObjectStorage) (userId name buffer : string) (o : outcome (string * BuildStatus))
    (t t' : tables) (tr : list entry) : Prop :=
  let find r := Entry (Db (FunctionFindUnique userId name)) r in
  (∃ r x, tr = [find r] ∧ t' = t ∧ o = Err x ∧
     (r = Err x ∨ (r = Ok None ∧ find_function userId name t = None ∧ x = FunctionsService.not_found name))) ∨
  ∃ f uuid, find_function userId name t = Some f ∧
    let key := "functions/" +:+ fn_id f +:+ "/" +:+ uuid +:+ ".js" in
    let put r := Entry (Aws (S3PutObject (st_bucket storage) key buffer)) r in
    ((∃ x, tr = [find (Ok (Some f)); Entry (Sys RandomUUID) uuid; put (Err x)] ∧ o = Err x ∧ t' = t) ∨
     ∃ r, tr = [find (Ok (Some f)); Entry (Sys RandomUUID) uuid; put (Ok tt); Entry (Db (BuildCreate (fn_id f) key PENDING)) r] ∧
       match r with
       | Ok b => o = Ok (build_id b, PENDING) ∧ t' = set_builds (t_builds t ++ [b]) t ∧
           build_functionId b = fn_id f ∧ build_sourceObjectKey b = key ∧
           build_status b = PENDING ∧ build_publishedToStreamAt b = None
       | Err x => o = Err x ∧ t' = t
       end).

(** C27: uploading a version: without a file, or for a function the caller does
    not own, nothing is stored and no row is written; otherwise the source is
    stored first and only then a PENDING build that names exactly that object
    is recorded, unpublished; a failure of either leaves the tables as they
    were. *)
Theorem createVersion_correct storage userId name file s w o s' w' tr :
  exec (logged env) R (BuildController.createVersion storage userId name file) s (w, []) o s' (w', tr) →
  match file with
  | None => (∃ m, o = Err (BadRequestException m)) ∧ tr = [] ∧ w' = w
  | Some buffer => uploaded storage userId name buffer o (view w) (view w') tr
  end.
Proof.
  intros Hx. remember (w', tr) as wt eqn:Hwt.
  replace w' with wt.1 by (by rewrite Hwt). replace tr with wt.2 by (by rewrite Hwt). clear Hwt. by_wp Hx.
  unfold BuildController.createVersion.
  destruct file as [buffer|]; [|split_and!; [by eexists|done|done]].
  unfold FunctionsService.get. apply wp_bind, wp_bind. cbn [db call wp].
  intros r [w1 tr1] s1 [He Htr] _. simpl in He, Htr. subst tr1.
  apply db_env in He. simpl in He. db_cases.
  2: { cbn [of_outcome wp]. left. eexists _, _. split_and!; [done|done|done|by left]. }
  destruct (find_function userId name (view w)) as [f|] eqn:Hf.
  2: { cbn [of_outcome wp]. left. eexists _, _. split_and!; [done|done|done|by right]. }
  cbn [of_outcome wp]. apply wp_bind. unfold BuildService.submitBuild. apply wp_bind. cbn [sys ask wp].
  intros uuid [w2 tr2] s2 [He Htr] _. simpl in He, Htr. subst tr2. apply db_env in He. simpl in He.
  apply wp_bind. cbn [ObjectStorageService.putObject aws call wp].
  intros r [w3 tr3] s3 [He3 Htr] _. simpl in He3, Htr. subst tr3. apply db_env in He3. simpl in He3.
  assert (view w3 = view w) as Hw3 by congruence. destruct r as [[]|x]; cbn [of_outcome wp].
  2: { right. exists f, uuid. split; [done|]. left. exists x. done. }
  cbn [db call wp]. intros r [w4 tr4] s4 [He4 Htr] _. simpl in He4, Htr. subst tr4. apply db_env in He4. simpl in He4.
  rewrite Hw3 in He4. db_cases; cbn [of_outcome wp]; right; exists f, uuid; (split; [done|]); right; eexists;
    (split; [reflexivity|]); simpl; split_and!; done.
Qed.
End build_properties.

(** ** The executors *)

Section executor_properties.
Context {TMP : OsTmpdir} {S : Type} (R : S → S → Prop).

(** How a process ended: the callbacks up to its first close. *)
Definition closed_with (code : option Z) (stderr : string) (evs : list process_event) : Prop :=
  ∃ pre post, evs = pre ++ Close code :: post ∧ (∀ c, Close c ∉ pre) ∧ stderr = stderr_of pre.

Lemma closes (evs : list process_event) :
  (∀ c, Close c ∉ evs) ∨ ∃ code stderr, closed_with code stderr evs.
Proof.
  induction evs as [|e evs IH]; [left; intros c; apply not_elem_of_nil|].
  destruct e as [x| |code]; [| |right; exists code, (stderr_of []), [], evs; split_and!; [done|set_solver|done]].
  all: destruct IH as [Hno|(code & ? & pre & post & -> & Hno & _)];
    [left; intros c [?|?]%elem_of_cons; [done|by apply (Hno c)]|right; eexists code, _, (_ :: pre), post; split_and!; [done|set_solver|done]].
Qed.

Lemma await_process_spec command args stdin on_close s tr (Q : outcome unit → S → list entry → Prop) :
  (∀ x s', Q (Err x) s' (tr ++ [Entry (Os (Spawn command args stdin None)) (Err x)])) →
  (∀ evs code stderr s', closed_with code stderr evs →
     Q (on_close code stderr) s' (tr ++ [Entry (Os (Spawn command args stdin None)) (Ok evs)])) →
  wp (history_env ev) R (await_process command args stdin on_close) s tr Q.
Proof.
  intros HE HO. unfold await_process. apply wp_bind. cbn [os call wp]. intros r tr1 s1 -> _.
  destruct r as [evs|x]; cbn [of_outcome wp]; [|apply HE].
  destruct (closes evs) as [Hno|(code & stderr & Hc)].
  - rewrite (proj2 (process_result_None on_close evs) Hno). by intros.
  - specialize (HO evs code stderr s1 Hc). destruct Hc as (pre & post & -> & Hno & ->).
    rewrite process_result_close by done. by destruct (on_close code (stderr_of pre)).
Qed.

(** The calls of a successful local build in the scratch directory [dir]. *)
Definition local_calls (storage : ObjectStorage) (params : BuildExecutorParams) (dir : string)
    (o : outcome string) (calls : list entry) : Prop :=
  ∀ ref, o = Ok ref →
    ref = LocalDockerBuildExecutor.image_ref (functionName params) (versionNumber params) ∧
    ∃ chunks evs stderr,
      calls = [Entry (Aws (S3GetObject (st_bucket storage) (sourceObjectKey params))) (Ok chunks);
               Entry (Fs (WriteFileSync (path_join dir "handler.js") (join EmptyString chunks))) (Ok tt);
               Entry (Fs (WriteFileSync (path_join dir "Dockerfile") LocalDockerBuildExecutor.dockerfile)) (Ok tt);
               Entry (Os (Spawn "docker" ["build"; "-t"; ref; dir] None None)) (Ok evs)] ∧
      closed_with (Some 0) stderr evs.

(** C28: a local build succeeds only when [docker build] exited with code 0 on
    exactly the stored source and the two-line Dockerfile, and then answers the
    reference it tagged, [mini-cloud-fn-<name>:<version>]; the scratch directory
    is removed on every path on which it was created. *)
Theorem local_build_correct storage params s o s' tr :
  exec (history_env ev) R (LocalDockerBuildExecutor.build storage params) s [] o s' tr →
  let mkdtemp r := Entry (Fs (MkdtempSync (path_join os_tmpdir "mini-cloud-build-"))) r in
  (∃ x, tr = [mkdtemp (Err x)] ∧ o = Err x) ∨
  ∃ dir calls rm, tr = mkdtemp (Ok dir) :: calls ++ [Entry (Fs (RmSync dir)) rm] ∧
    local_calls storage params dir o calls.
Proof.
  intros Hx. by_wp Hx. unfold LocalDockerBuildExecutor.build.
  apply wp_hist. intros [dir|x] s1; [|left; eauto]. cbn [app].
  set (pre := [Entry _ (Ok dir)]).
  apply wp_finally, (wp_mono _ _ _ _ _ (λ o _ tr, ∃ calls, tr = pre ++ calls ∧ local_calls storage params dir o calls)).
  - assert (∀ x calls, local_calls storage params dir (Err x) calls) as Herr by done.
    unfold ObjectStorageService.getObject. apply wp_bind, wp_hist. intros [chunks|x] s2; [|by eexists; split; [done|]].
    cbn [wp]. apply wp_hist. intros [[]|x] s3; [|by eexists; split; [by rewrite <- app_assoc|]].
    apply wp_hist. intros [[]|x] s4; [|by eexists; split; [by rewrite <- !app_assoc|]].
    apply wp_bind, await_process_spec.
    + intros x s5. eexists. split; [by rewrite <- !app_assoc|done].
    + intros evs code stderr s5 Hc. unfold LocalDockerBuildExecutor.on_close.
      case_bool_decide as Hz; cbn [wp]; eexists; (split; [by rewrite <- !app_assoc|]); [|done].
      subst code. intros ref [= <-]. split; [done|]. by exists chunks, evs, stderr.
  - intros o1 s2 tr2 (calls & -> & Hc). cbn [fs call wp]. intros rm tr3 s3 -> _.
    rewrite <- app_assoc. destruct rm as [[]|y]; cbn [of_outcome wp]; right; exists dir, calls; eexists; (split; [reflexivity|done]).
Qed.
(** A build status that keeps the loop polling. *)
Definition still_building (st : option (option string)) : Prop :=
  match st with None => True | Some bs => bs ≠ Some "SUCCEEDED" ∧ (truthy bs = None ∨ bs = Some "IN_PROGRESS") end.

Definition poll_calls (buildId : string) (st : option (option string)) : list entry :=
  [Entry (Os (SetTimeoutMs CodeBuildExecutor.POLL_INTERVAL_MS)) (Ok tt); Entry (Aws (CodeBuildBatchGet buildId)) (Ok st)].

(** How the loop ended, with its last calls. *)
Definition poll_end (buildId imageRef : string) (left_over : nat) (o : outcome string) (last : list entry) : Prop :=
  (left_over = 0%nat ∧ last = [] ∧ o = Err (JsError ("CodeBuild " +:+ buildId +:+ " did not finish within the poll window"))) ∨
  (∃ x, o = Err x ∧ (last = [Entry (Os (SetTimeoutMs CodeBuildExecutor.POLL_INTERVAL_MS)) (Err x)] ∨
     last = [Entry (Os (SetTimeoutMs CodeBuildExecutor.POLL_INTERVAL_MS)) (Ok tt); Entry (Aws (CodeBuildBatchGet buildId)) (Err x)])) ∨
  (o = Ok imageRef ∧ ∃ log, last = poll_calls buildId (Some (Some "SUCCEEDED")) ++ [log]) ∨
  (∃ st, st ≠ "IN_PROGRESS" ∧ st ≠ "SUCCEEDED" ∧ st ≠ EmptyString ∧ last = poll_calls buildId (Some (Some st)) ∧
     o = Err (JsError ("CodeBuild " +:+ buildId +:+ " ended with status " +:+ st))).

(** The calls of a whole loop of [n] polls: those that found the build in
    progress, and the last. *)
Definition polled (buildId imageRef : string) (n : nat) (tr : list entry) (o : outcome string) (tr' : list entry) : Prop :=
  ∃ sts last, tr' = tr ++ concat (map (poll_calls buildId) sts) ++ last ∧
    (length sts ≤ n)%nat ∧ Forall still_building sts ∧ poll_end buildId imageRef (n - length sts) o last.

Lemma polled_next buildId imageRef n tr st o tr' :
  still_building st → polled buildId imageRef n (tr ++ poll_calls buildId st) o tr' →
  polled buildId imageRef (Datatypes.S n) tr o tr'.
Proof.
  intros Hst (sts & last & -> & Hlen & Hall & He). exists (st :: sts), last.
  split_and!; [by rewrite <- !app_assoc|simpl; lia|by constructor|done].
Qed.

Lemma polled_stop buildId imageRef n tr o last :
  poll_end buildId imageRef n o last → polled buildId imageRef n tr o (tr ++ last).
Proof. intros He. exists [], last. split_and!; [done|simpl; lia|done|]. simpl. by rewrite Nat.sub_0_r. Qed.

(** C29: the polling loop ends after at most 100 polls, 3 s apart: every poll but
    the last found the build still in progress; the image reference is answered
    exactly when the last one found it SUCCEEDED, any other final status or a
    failing call is an error, and running out of polls is an error. *)
Theorem poll_correct buildId imageRef s o s' tr' :
  exec (history_env ev) R (CodeBuildExecutor.poll buildId imageRef CodeBuildExecutor.MAX_POLL_ATTEMPTS) s [] o s' tr' →
  polled buildId imageRef 100 [] o tr'.
Proof.
  intros Hx. apply (exec_wp _ _ _ _ _ _ _ _ (λ o _ tr', polled buildId imageRef 100 [] o tr') Hx). clear Hx.
  change CodeBuildExecutor.MAX_POLL_ATTEMPTS with 100%nat. generalize (@nil entry). revert s. generalize 100%nat.
  intros n. induction n as [|n IH]; intros s tr.
  { cbn [CodeBuildExecutor.poll wp]. rewrite <- (app_nil_r tr) at 2. apply polled_stop. by left. }
  cbn [CodeBuildExecutor.poll].
  apply wp_hist. intros [[]|x] s1.
  2: { apply polled_stop. right. left. exists x. split; [done|]. by left. }
  apply wp_hist. intros [st|x] s2; rewrite <- app_assoc.
  2: { apply polled_stop. right. left. exists x. split; [done|]. by right. }
  change ([_] ++ [_]) with (poll_calls buildId st).
  assert (still_building st → wp (history_env ev) R (CodeBuildExecutor.poll buildId imageRef n) s2 (tr ++ poll_calls buildId st)
    (λ o _ tr', polled buildId imageRef (Datatypes.S n) tr o tr')) as Hgo.
  { intros Hst. eapply wp_mono; [apply IH|]. intros. by eapply polled_next. }
  destruct st as [bs|]; [|by apply Hgo]. case_bool_decide as Hs.
  { subst bs. apply wp_hist_sys. intros []. rewrite <- app_assoc. apply polled_stop. right. right. left.
    split; [done|]. by eexists. }
  destruct (truthy bs) as [bst|] eqn:Ht; [|apply Hgo; split; [done|by left]].
  assert (bs = Some bst ∧ bst ≠ EmptyString) as [-> Hne] by (destruct bs as [[]|]; by simplify_eq/=).
  case_bool_decide as Hp.
  - apply polled_stop. right. right. right. exists bst. split_and!; try done. congruence.
  - apply Hgo. split; [done|]. right. by destruct (decide (bst = "IN_PROGRESS")) as [->|].
Qed.

(** Image references tell versions and function names apart, for both
    executors, because a registered name has no colon and a version number is
    a decimal numeral. *)
Theorem image_ref_injective n1 n2 v1 v2 :
  valid_name n1 = true → valid_name n2 = true →
  (LocalDockerBuildExecutor.image_ref n1 v1 = LocalDockerBuildExecutor.image_ref n2 v2 → n1 = n2 ∧ v1 = v2) ∧
  (CodeBuildExecutor.image_tag n1 v1 = CodeBuildExecutor.image_tag n2 v2 → n1 = n2 ∧ v1 = v2).
Proof.
  intros Hn1 Hn2. unfold valid_name in Hn1, Hn2.
  apply andb_prop in Hn1 as [_ Hn1], Hn2 as [_ Hn2]. split; intros Heq.
  - unfold LocalDockerBuildExecutor.image_ref in Heq. apply str_app_inj_l in Heq.
    apply (str_sep_inj name_char ":") in Heq as [-> Hv]; [|done..]. split; [done|]. by apply (inj string_of_Z).
  - unfold CodeBuildExecutor.image_tag in Heq.
    assert (∀ n v, n +:+ "-v" +:+ string_of_Z v = (n +:+ "-") +:+ String "v" (string_of_Z v)) as Hsplit.
    { intros n v. by rewrite <- str_app_assoc. }
    rewrite !Hsplit in Heq. apply (str_sep_inj_r is_num_char "v") in Heq as [Hn Hv]; [|done|apply string_of_Z_num..].
    apply (str_sep_inj_r (λ _, false) "-") in Hn as [-> _]; [|done..]. split; [done|]. by apply (inj string_of_Z).
Qed.
(** Nothing of the owner enters a local image reference: two builds of
    functions with the same name and version number, whoever owns them and
    whatever their source, answer the same reference, so the second replaces the
    image of the first. *)
Theorem same_name_same_image storage p1 p2 s1 s2 r1 r2 s1' s2' tr1 tr2 :
  functionName p1 = functionName p2 → versionNumber p1 = versionNumber p2 →
  exec (history_env ev) R (LocalDockerBuildExecutor.build storage p1) s1 [] (Ok r1) s1' tr1 →
  exec (history_env ev) R (LocalDockerBuildExecutor.build storage p2) s2 [] (Ok r2) s2' tr2 →
  r1 = r2.
Proof.
  intros Hn Hv H1 H2.
  assert (∀ p s r s' tr, exec (history_env ev) R (LocalDockerBuildExecutor.build storage p) s [] (Ok r) s' tr →
    r = LocalDockerBuildExecutor.image_ref (functionName p) (versionNumber p)) as Href.
  { intros p s r s' tr Hx. remember (Ok r) as o eqn:Ho. revert Ho. by_wp Hx. unfold LocalDockerBuildExecutor.build.
    apply wp_hist. intros [dir|x] s3; [|done].
    apply wp_finally, (wp_mono _ _ _ _ _ (λ o _ _, match o with Ok r => r = LocalDockerBuildExecutor.image_ref (functionName p) (versionNumber p) | Err _ => True end)).
    - apply wp_bind, wp_exec. intros [src|x] s4 tr4 _; [|done]. do 2 (apply wp_hist; intros [[]|x] ? ; [|done]).
      apply wp_bind, wp_exec. by intros [[]|x] s5 tr5 _.
    - intros oo s4 tr4 Ho. apply wp_exec. intros [[]|x] s5 tr5 _; [|done]. by intros ->. }
  rewrite (Href _ _ _ _ _ H1), (Href _ _ _ _ _ H2). by rewrite Hn, Hv.
Qed.
End executor_properties.

(** ** Concrete executions *)

Module BuildDemo.
#[export] Instance tmp : OsTmpdir := "/tmp".
Definition storage : ObjectStorage :=
  {| st_bucket := "source"; st_isMinio := true; st_endpoint := Some "http://minio:9000"; st_region := "us-east-1"; st_credentials := None |}.

(** Docker builds anything, CodeBuild needs one look; the database is the
    handler's own. *)
Definition script : ∀ X, ev X → X :=
  λ X e, match e in ev X return X with
         | Fs e' => match e' in fs_eff X return outcome X with
                    | MkdtempSync p => Ok (p +:+ "x1")
                    | ExistsSync _ => Ok false
                    | ReadFileSync _ => Ok EmptyString
                    | MkdirSync _ | ChmodSync _ _ | WriteFileSync _ _ | RmSync _ | SpawnDetached _ _ => Ok tt
                    end
         | Aws e' => match e' in aws_eff X return outcome X with
                     | S3GetObject _ _ => Ok ["exports.handler = () => 1"]
                     | S3CreateBucket _ | S3PutObject _ _ _ => Ok tt
                     | CodeBuildStart _ _ => Ok (Some "cb-1")
                     | CodeBuildBatchGet _ => Ok (Some (Some "SUCCEEDED"))
                     | EcrGetAuthorizationToken => Ok None
                     end
         | Os e' => match e' in os_eff X return outcome X with
                    | Spawn _ _ _ _ => Ok [StderrData "step 1/2"; Close (Some 0)]
                    | SetTimeoutMs _ => Ok tt
                    end
         | Sys e' => match e' in sys_eff X return X with
                     | DateNow => 2000000 | RandomUUID => "uuid-7" | RandomBytesHex _ => "00" | ProcessEnv _ => None
                     | Log _ _ | GaugeSet _ _ | CounterInc _ _ | HistogramObserve _ _ => tt
                     | MetricsText => EmptyString
                     end
         | Db _ | Redis _ | Lib _ => down
         end.
Definition handler : handler ev mem := mem_env (λ X e _, script X e).
Definition env := env_of handler.
Definition b7 : Build := mk_build "b-7" 30 "f-1" "functions/f-1/s.js" PENDING.
Definition world : mem := mem_of (set_builds [b7] FunctionsDemo.tables1).
Definition params : BuildExecutorParams := {| sourceObjectKey := "functions/f-1/s.js"; functionName := "hello"; versionNumber := 4 |}.
End BuildDemo.
#[local] Existing Instance BuildDemo.tmp.

Lemma runBuild_correct_witness :
  ∃ s' w', exec BuildDemo.env still (BuildService.runBuild (EX := local_docker_executor BuildDemo.storage) BuildDemo.b7) tt BuildDemo.world (Ok tt) s' w' ∧
    build_status <$> t_builds (mem_tables w') = [SUCCESS] ∧
    ((∃ v now, built BuildDemo.b7 v now (mem_tables BuildDemo.world) (mem_tables w')) ∨
     (∃ message now, build_failed BuildDemo.b7 message now (mem_tables BuildDemo.world) (mem_tables w'))).
Proof.
  eexists _, _. split; [executes|]. split; [reflexivity|].
  eapply (runBuild_correct BuildDemo.env mem_tables still (EX := local_docker_executor BuildDemo.storage) BuildDemo.b7 tt BuildDemo.world (Ok tt)). executes.
Defined.

Lemma getBuild_correct_witness :
  ∃ o s' w', exec BuildDemo.env still (BuildController.getBuild "u-bob" "hello" "b-7") tt BuildDemo.world o s' w' ∧
    mem_tables w' = mem_tables BuildDemo.world ∧ is_Ok o = false.
Proof.
  eexists _, _, _. split; [executes|]. split; [|reflexivity].
  eapply (getBuild_correct BuildDemo.env mem_tables still "u-bob" "hello" "b-7" tt BuildDemo.world). executes.
Defined.

Lemma createVersion_correct_witness :
  ∃ o s' w' tr, exec (logged BuildDemo.env) still (BuildController.createVersion BuildDemo.storage "u-alice" "hello" (Some "code")) tt
      (BuildDemo.world, []) o s' (w', tr) ∧ is_Ok o = true ∧
    uploaded BuildDemo.storage "u-alice" "hello" "code" o (mem_tables BuildDemo.world) (mem_tables w') tr.
Proof.
  eexists _, _, _, _. split; [executes_logged|]. split; [reflexivity|].
  eapply (createVersion_correct BuildDemo.env mem_tables still BuildDemo.storage "u-alice" "hello" (Some "code") tt BuildDemo.world). executes_logged.
Defined.

Lemma local_build_correct_witness :
  ∃ s' tr, exec (history_env ev) still (LocalDockerBuildExecutor.build BuildDemo.storage BuildDemo.params) tt []
      (Ok "mini-cloud-fn-hello:4") s' tr ∧
    ∃ dir calls rm, tr = Entry (Fs (MkdtempSync "/tmp/mini-cloud-build-")) (Ok dir) :: calls ++ [Entry (Fs (RmSync dir)) rm].
Proof.
  eexists _, _. split; [scripted_by (λ X e (_ : list entry), BuildDemo.script X e)|].
  edestruct (local_build_correct still BuildDemo.storage BuildDemo.params tt (Ok "mini-cloud-fn-hello:4"))
    as [(x & _ & Hx)|(dir & calls & rm & Htr & _)];
    [scripted_by (λ X e (_ : list entry), BuildDemo.script X e)|done|].
  exists dir, calls, rm. exact Htr.
Defined.

Lemma poll_correct_witness :
  ∃ o s' tr, exec (history_env ev) still (CodeBuildExecutor.poll "cb-1" "repo:hello-v1" CodeBuildExecutor.MAX_POLL_ATTEMPTS) tt [] o s' tr ∧
    o = Ok "repo:hello-v1" ∧ polled "cb-1" "repo:hello-v1" 100 [] o tr.
Proof.
  eexists _, _, _. split; [scripted_by (λ X e (_ : list entry), BuildDemo.script X e)|]. split; [reflexivity|].
  eapply (poll_correct still "cb-1" "repo:hello-v1" tt). scripted_by (λ X e (_ : list entry), BuildDemo.script X e).
Defined.

Lemma image_ref_injective_witness :
  valid_name "hello-v1" = true ∧ valid_name "hello" = true ∧
  (CodeBuildExecutor.image_tag "hello-v1" 2 = CodeBuildExecutor.image_tag "hello" 12 → "hello-v1" = "hello" ∧ 2 = 12).
Proof.
  split; [reflexivity|]. split; [reflexivity|]. apply (image_ref_injective "hello-v1" "hello" 2 12); reflexivity.
Defined.

Lemma same_name_same_image_witness :
  ∃ r1 r2 s1 tr1 s2 tr2,
    exec (history_env ev) still (LocalDockerBuildExecutor.build BuildDemo.storage BuildDemo.params) tt [] (Ok r1) s1 tr1 ∧
    exec (history_env ev) still (LocalDockerBuildExecutor.build BuildDemo.storage
      {| sourceObjectKey := "functions/f-2/t.js"; functionName := "hello"; versionNumber := 4 |}) tt [] (Ok r2) s2 tr2 ∧ r1 = r2.
Proof.
  eexists _, _, _, _, _, _.
  split; [scripted_by (λ X e (_ : list entry), BuildDemo.script X e)|].
  split; [scripted_by (λ X e (_ : list entry), BuildDemo.script X e)|].
  eapply (same_name_same_image still BuildDemo.storage BuildDemo.params
    {| sourceObjectKey := "functions/f-2/t.js"; functionName := "hello"; versionNumber := 4 |} tt tt); [reflexivity|reflexivity|..];
    scripted_by (λ X e (_ : list entry), BuildDemo.script X e).
Defined.
