(* ===== verification/Outbox.v ===== *)
(** * The transactional outbox relay (src/build/build-outbox-relay.service.ts)

    [relayOnce] claims the unpublished PENDING builds in one transaction
    ([FOR UPDATE SKIP LOCKED], then the mark) and publishes each of them to the
    build stream.  The relay runs in every API process: the file proves, for any
    number of relays interleaved at every call with each other and with the rest
    of the platform's database traffic, that no build is published twice. *)

From S2P Require Import Prelude Json JsonText Prog Services Percentile Database Schema Auth Functions Build.

Definition BUILD_STREAM_KEY : string := "builds:pending".
Definition RELAY_INTERVAL_MS : Z := 1000.
Definition RELAY_BATCH : nat := 20.

Module BuildOutboxRelayService.
Section relay.
Context {S : Type}.

(** [prisma.$transaction(async (tx) => body)]: commits when the callback
    returns, rolls back and rethrows when it throws. *)
Definition transaction {A} (body : nat → prog ev S A) : prog ev S A :=
  tx ← db TxBegin;
  r ← try_catch (body tx) (λ err, _ ← fire_and_forget (Db (TxRollback tx)); Throw err);
  _ ← db (TxCommit tx);
  Ret r.

(** The callback: select and lock, then mark in the same transaction. *)
Definition claim (tx : nat) : prog ev S (list string) :=
  ids ← db (TxSelectPendingSkipLocked tx RELAY_BATCH);
  match ids with
  | [] => Ret []
  | _ => now ← sys DateNow;
         _ ← db (TxBuildSetPublished tx ids now);
         Ret ids
  end.

Definition publish (buildId : string) : prog ev S unit :=
  try_catch
    (_ ← redis (Xadd BUILD_STREAM_KEY ["buildId"; buildId]); Ret tt)
    (λ err, logger_error ("Claimed build " +:+ buildId +:+ " but failed to publish it: " +:+ err_message err)).

Definition relayOnce : prog ev S unit :=
  claimedIds ← transaction claim;
  for_each claimedIds publish.

(** The [setInterval] callback: [relayOnce().catch(...)]. *)
Definition tick : prog ev S unit :=
  try_catch relayOnce (λ err, logger_error ("Relay tick failed: " +:+ err_message err)).
End relay.
End BuildOutboxRelayService.
Import BuildOutboxRelayService.

(** ** The relay's timer *)

(** The process-local state of the service: whether the interval is armed, the
    ticks started so far (numbered from 0), the tick [currentTick] holds, and the
    ticks whose promise has settled. *)
Record relay := { relay_timer : bool; relay_started : nat; relay_currentTick : option nat; relay_settled : list nat }.

(** The interval's callback: [this.currentTick = this.relayOnce().catch(...)]. *)
Definition on_interval (s : relay) : relay :=
  {| relay_timer := relay_timer s; relay_started := S (relay_started s);
     relay_currentTick := Some (relay_started s); relay_settled := relay_settled s |}.
Definition tick_settles (n : nat) (s : relay) : relay :=
  {| relay_timer := relay_timer s; relay_started := relay_started s;
     relay_currentTick := relay_currentTick s; relay_settled := n :: relay_settled s |}.
Definition set_timer (b : bool) (s : relay) : relay :=
  {| relay_timer := b; relay_started := relay_started s; relay_currentTick := relay_currentTick s; relay_settled := relay_settled s |}.

(** What the event loop does to the service while a method is suspended: the
    armed interval fires, a running tick settles. *)
Inductive relay_event : relay → relay → Prop :=
| ev_interval s : relay_timer s = true → relay_event s (on_interval s)
| ev_settles n s : (n < relay_started s)%nat → n ∉ relay_settled s → relay_event s (tick_settles n s).

Module RelayLifecycle.
(** [setInterval(...)] *)
Definition onModuleInit : prog ev relay unit := modify (set_timer true).

(** [clearInterval(this.timer); await this.currentTick;] *)
Definition onModuleDestroy : prog ev relay unit :=
  _ ← modify (set_timer false);
  currentTick ← gets relay_currentTick;
  Wait (λ s, match currentTick with
             | None => Some tt
             | Some n => if bool_decide (n ∈ relay_settled s) then Some tt else None
             end) Ret.
End RelayLifecycle.

(** ** The relay as a machine *)

(** Where a tick is: the control points of [tick]. *)
Inductive relay_pc :=
| PBegin
| PSelect (tx : nat)
| PStamp (tx : nat) (ids : list string)
| PMark (tx : nat) (ids : list string) (now : Z)
| PCommit (tx : nat) (ids : list string)
| PRollback (tx : nat) (err : exn)
| PPublish (ids : list string)
| PLog (message : string) (ids : list string)
| PFailed (message : string).

Definition tick_failed (err : exn) : prog ev unit unit := logger_error ("Relay tick failed: " +:+ err_message err).
Definition publishing (ids : list string) : prog ev unit unit := try_catch (for_each ids publish) tick_failed.
Definition committing (tx : nat) (ids : list string) : prog ev unit unit :=
  try_catch (ids ← (_ ← db (TxCommit tx); Ret ids); for_each ids publish) tick_failed.
Definition claiming (tx : nat) (p : prog ev unit (list string)) : prog ev unit unit :=
  try_catch
    (ids ← (r ← try_catch p (λ err, _ ← fire_and_forget (Db (TxRollback tx)); Throw err);
            _ ← db (TxCommit tx);
            Ret r);
     for_each ids publish) tick_failed.

(** The rest of the program at a control point. *)
Definition code (pc : relay_pc) : prog ev unit unit :=
  match pc with
  | PBegin => tick
  | PSelect tx => claiming tx (claim tx)
  | PStamp tx ids => claiming tx (now ← sys DateNow; _ ← db (TxBuildSetPublished tx ids now); Ret ids)
  | PMark tx ids now => claiming tx (_ ← db (TxBuildSetPublished tx ids now); Ret ids)
  | PCommit tx ids => committing tx ids
  | PRollback tx err => Do (Db (TxRollback tx)) (λ _, tick_failed err)
  | PPublish ids => publishing ids
  | PLog message ids => Do (Sys (Log "error" message)) (λ _, publishing ids)
  | PFailed message => logger_error message
  end.

Section machine.
Context {W : Type} (env : Env ev W).

(** The steps of the machine. *)
Inductive relay_step : relay_pc → W → relay_pc → W → Prop :=
| rs_begin w tx w' : env _ (Db TxBegin) w (Ok tx) w' → relay_step PBegin w (PSelect tx) w'
| rs_begin_err w x w' : env _ (Db TxBegin) w (Err x) w' →
    relay_step PBegin w (PFailed ("Relay tick failed: " +:+ err_message x)) w'
| rs_select_none tx w w' : env _ (Db (TxSelectPendingSkipLocked tx RELAY_BATCH)) w (Ok []) w' →
    relay_step (PSelect tx) w (PCommit tx []) w'
| rs_select tx id ids w w' : env _ (Db (TxSelectPendingSkipLocked tx RELAY_BATCH)) w (Ok (id :: ids)) w' →
    relay_step (PSelect tx) w (PStamp tx (id :: ids)) w'
| rs_select_err tx w x w' : env _ (Db (TxSelectPendingSkipLocked tx RELAY_BATCH)) w (Err x) w' →
    relay_step (PSelect tx) w (PRollback tx x) w'
| rs_stamp tx ids w now w' : env _ (Sys DateNow) w now w' → relay_step (PStamp tx ids) w (PMark tx ids now) w'
| rs_mark tx ids now w n w' : env _ (Db (TxBuildSetPublished tx ids now)) w (Ok n) w' →
    relay_step (PMark tx ids now) w (PCommit tx ids) w'
| rs_mark_err tx ids now w x w' : env _ (Db (TxBuildSetPublished tx ids now)) w (Err x) w' →
    relay_step (PMark tx ids now) w (PRollback tx x) w'
| rs_commit tx ids w w' : env _ (Db (TxCommit tx)) w (Ok tt) w' → relay_step (PCommit tx ids) w (PPublish ids) w'
| rs_commit_err tx ids w x w' : env _ (Db (TxCommit tx)) w (Err x) w' →
    relay_step (PCommit tx ids) w (PFailed ("Relay tick failed: " +:+ err_message x)) w'
| rs_rollback tx x w r w' : env _ (Db (TxRollback tx)) w r w' →
    relay_step (PRollback tx x) w (PFailed ("Relay tick failed: " +:+ err_message x)) w'
| rs_publish id ids w m w' : env _ (Redis (Xadd BUILD_STREAM_KEY ["buildId"; id])) w (Ok m) w' →
    relay_step (PPublish (id :: ids)) w (PPublish ids) w'
| rs_publish_err id ids w x w' : env _ (Redis (Xadd BUILD_STREAM_KEY ["buildId"; id])) w (Err x) w' →
    relay_step (PPublish (id :: ids)) w
      (PLog ("Claimed build " +:+ id +:+ " but failed to publish it: " +:+ err_message x) ids) w'
| rs_log m ids w w' : env _ (Sys (Log "error" m)) w tt w' → relay_step (PLog m ids) w (PPublish ids) w'
| rs_failed m w w' : env _ (Sys (Log "error" m)) w tt w' → relay_step (PFailed m) w (PPublish []) w'.

(** The program is the machine: a step of the code at a control point is a step
    of the machine, to the code of the next control point. *)
Lemma code_step pc w p' w' :
  thread_step env (code pc) w p' w' → ∃ pc', p' = code pc' ∧ relay_step pc w pc' w'.
Proof.
  destruct pc as [|tx|tx ids|tx ids now|tx ids|tx err|[|id ids]|m ids|m]; simpl; try done.
  - intros ([tx|x] & He & ->); [exists (PSelect tx)|eexists (PFailed _)]; (split; [reflexivity|by constructor]).
  - intros ([[|id ids]|x] & He & ->); [exists (PCommit tx [])|exists (PStamp tx (id :: ids))|exists (PRollback tx x)];
      (split; [reflexivity|by constructor]).
  - intros (now & He & ->). exists (PMark tx ids now). split; [reflexivity|by constructor].
  - intros ([n|x] & He & ->); [exists (PCommit tx ids)|exists (PRollback tx x)]; (split; [reflexivity|by econstructor]).
  - intros ([[]|x] & He & ->); [exists (PPublish ids)|eexists (PFailed _)]; (split; [reflexivity|by constructor]).
  - intros (r & He & ->). eexists (PFailed _). split; [reflexivity|by econstructor].
  - intros ([m|x] & He & ->); [exists (PPublish ids)|eexists (PLog _ ids)]; (split; [reflexivity|by econstructor]).
  - intros ([] & He & ->). exists (PPublish ids). split; [reflexivity|by constructor].
  - intros ([] & He & ->). exists (PPublish []). split; [reflexivity|by constructor].
Qed.
End machine.

(** ** Many relays *)

(** What the relays share: the tables, the build ids appended to the stream so
    far, and every build id that ever existed (a uuid is not drawn twice). *)
Record rworld := { rw_tables : tables; rw_stream : list string; rw_seen : list string }.

(** The database answers by its contract; a failing [XADD] may or may not have
    appended; nothing else touches tables or stream. *)
Definition relay_env : Env ev rworld := λ X e w r w',
  rw_seen w' = rw_seen w ∧
  match e in ev X return X → Prop with
  | Db e' => λ r, db_spec e' (rw_tables w) r (rw_tables w') ∧ rw_stream w' = rw_stream w
  | Redis re => λ r, rw_tables w' = rw_tables w ∧
      match re in redis_eff Y return outcome Y → Prop with
      | Xadd key [_; id] => λ r,
          if decide (key = BUILD_STREAM_KEY) then
            rw_stream w' = rw_stream w ++ [id] ∨ (is_Ok r = false ∧ rw_stream w' = rw_stream w)
          else rw_stream w' = rw_stream w
      | _ => λ _, rw_stream w' = rw_stream w
      end r
  | _ => λ _, rw_tables w' = rw_tables w ∧ rw_stream w' = rw_stream w
  end r.

(** The rest of the platform: any database call but the relay's own; the only
    batch is the one that starts with a new version. *)
Definition plain {X} (e : db_eff X) : Prop :=
  match e with
  | TxBegin | TxSelectPendingSkipLocked _ _ | TxBuildSetPublished _ _ _ | TxCommit _ | TxRollback _
  | TransactionBatch _ _ => False
  | _ => True
  end.
Definition not_relay {X} (e : db_eff X) : Prop :=
  match e with
  | TransactionBatch (VersionCreate _ _ _) b => plain b
  | e => plain e
  end.

Definition other_step (w w' : rworld) : Prop :=
  rw_stream w' = rw_stream w ∧ rw_seen w' = rw_seen w ++ map build_id (t_builds (rw_tables w')) ∧
  (∀ b, b ∈ t_builds (rw_tables w') →
     build_id b ∈ map build_id (t_builds (rw_tables w)) ∨ build_id b ∉ rw_seen w) ∧
  ∃ X (e : db_eff X) r, not_relay e ∧ db_spec e (rw_tables w) r (rw_tables w').

(** One step of the whole system: a relay's call, a new tick in any process, or
    other traffic. *)
Inductive system_step : list (prog ev unit unit) * rworld → list (prog ev unit unit) * rworld → Prop :=
| system_relay st st' : pstep relay_env (λ p, p = tick) st st' → system_step st st'
| system_other ps w w' : other_step w w' → system_step (ps, w) (ps, w').

(** *** The invariant *)

Definition pend (pc : relay_pc) : list string :=
  match pc with PPublish ids | PLog _ ids => ids | _ => [] end.

Definition tx_of (pc : relay_pc) : option nat :=
  match pc with
  | PSelect tx | PStamp tx _ | PMark tx _ _ | PCommit tx _ | PRollback tx _ => Some tx
  | _ => None
  end.

Definition tx_ok (t : tables) (pc : relay_pc) : Prop :=
  match pc with
  | PSelect tx => find_tx tx t = Some {| tx_id := tx; tx_locked := []; tx_writes := [] |}
  | PStamp tx ids | PMark tx ids _ => find_tx tx t = Some {| tx_id := tx; tx_locked := ids; tx_writes := [] |}
  | PCommit tx ids => ∃ x, find_tx tx t = Some x ∧ tx_locked x = ids ∧ map fst (tx_writes x) = ids
  | _ => True
  end.

Definition locks (t : tables) : list string := concat (map tx_locked (t_txs t)).
Definition sent (pcs : list relay_pc) (w : rworld) : list string := rw_stream w ++ concat (map pend pcs).

Record relays_ok (pcs : list relay_pc) (w : rworld) : Prop := {
  ro_builds : NoDup (map build_id (t_builds (rw_tables w)));
  ro_txs : NoDup (map tx_id (t_txs (rw_tables w)));
  ro_next : ∀ x, x ∈ t_txs (rw_tables w) → (tx_id x < t_next_tx (rw_tables w))%nat;
  ro_locks : NoDup (locks (rw_tables w));
  ro_sent : NoDup (sent pcs w);
  ro_done : ∀ b, b ∈ t_builds (rw_tables w) → build_id b ∈ sent pcs w → build_publishedToStreamAt b ≠ None;
  ro_free : ∀ id, id ∈ locks (rw_tables w) → id ∉ sent pcs w;
  ro_seen : ∀ id, id ∈ sent pcs w ∨ id ∈ locks (rw_tables w) ∨ id ∈ map build_id (t_builds (rw_tables w)) → id ∈ rw_seen w;
  ro_threads : Forall (tx_ok (rw_tables w)) pcs;
  ro_owner : NoDup (omap tx_of pcs);
  ro_owned : ∀ tx, tx ∈ omap tx_of pcs → (tx < t_next_tx (rw_tables w))%nat }.

#[export] Instance sent_proper w : Proper ((≡ₚ) ==> (≡ₚ)) (λ pcs, sent pcs w).
Proof. intros l l' Hl. unfold sent. by rewrite Hl. Qed.

Lemma relays_ok_perm pcs pcs' w : pcs ≡ₚ pcs' → relays_ok pcs w → relays_ok pcs' w.
Proof.
  intros Hp []. pose proof (sent_proper w _ _ Hp) as Hs. simpl in Hs.
  split; try done; setoid_rewrite <- Hs || setoid_rewrite <- Hp || rewrite <- Hs || rewrite <- Hp; done.
Qed.

Lemma sent_cons pc pcs w : sent (pc :: pcs) w ≡ₚ pend pc ++ sent pcs w.
Proof. unfold sent. simpl. rewrite !app_assoc. f_equiv. apply Permutation_app_comm. Qed.

(** *** Open transactions *)

Lemma find_tx_perm tx t x :
  NoDup (map tx_id (t_txs t)) → find_tx tx t = Some x → tx_id x = tx ∧ t_txs t ≡ₚ x :: drop_tx tx t.
Proof.
  unfold find_tx, drop_tx. induction (t_txs t) as [|y l IH]; simpl; [done|]. intros [Hy Hnd]%NoDup_cons.
  case_bool_decide as Hd; simpl.
  - intros [= ->]. split; [done|]. f_equiv. rewrite List.filter_ext_in with (g := λ _, true); [by rewrite filter_true|].
    intros z Hz. apply negb_true_iff, bool_decide_eq_false. intros Hz'. destruct Hy. rewrite Hd, <- Hz'.
    by apply list_elem_of_fmap_2, list_elem_of_In.
  - intros Hf. destruct (IH Hnd Hf) as [Hx Hp]. split; [done|]. rewrite Hp at 1. apply Permutation_swap.
Qed.

Lemma find_tx_cons_ne tx tx' x l : tx_id x ≠ tx' →
  List.find (λ y, bool_decide (tx_id y = tx')) (x :: List.filter (λ y, negb (bool_decide (tx_id y = tx))) l) =
  List.find (λ y, bool_decide (tx_id y = tx')) (List.filter (λ y, negb (bool_decide (tx_id y = tx))) l).
Proof. intros Hx. simpl. by rewrite bool_decide_eq_false_2. Qed.

Lemma find_drop_ne tx tx' l : tx' ≠ tx →
  List.find (λ y, bool_decide (tx_id y = tx')) (List.filter (λ y, negb (bool_decide (tx_id y = tx))) l) =
  List.find (λ y, bool_decide (tx_id y = tx')) l.
Proof.
  intros Hne. induction l as [|y l IH]; simpl; [done|]. case_bool_decide as Hy; simpl; [|by rewrite IH].
  rewrite bool_decide_eq_false_2 by congruence. done.
Qed.

(** *** Every step keeps the invariant *)

Lemma NoDup_sub {A} (l k : list A) : l ⊆+ k → NoDup k → NoDup l.
Proof. intros [k' Hp]%submseteq_Permutation Hk. rewrite Hp in Hk. by apply NoDup_app in Hk as [? _]. Qed.

(** A step that leaves the tables alone and gives up, or keeps, what the relay
    had claimed. *)
Lemma quiet_step pc pc' pcs w w' :
  rw_tables w' = rw_tables w → rw_seen w' = rw_seen w →
  sent (pc' :: pcs) w' ⊆+ sent (pc :: pcs) w →
  (tx_of pc' = tx_of pc ∨ tx_of pc' = None) → (tx_ok (rw_tables w) pc → tx_ok (rw_tables w) pc') →
  relays_ok (pc :: pcs) w → relays_ok (pc' :: pcs) w'.
Proof.
  intros Ht Hseen Hsub Htx Htok []. assert (∀ id, id ∈ sent (pc' :: pcs) w' → id ∈ sent (pc :: pcs) w) as Hin.
  { intros id Hid. by eapply elem_of_submseteq. }
  assert (omap tx_of (pc' :: pcs) `sublist_of` omap tx_of (pc :: pcs)) as Hown.
  { simpl. destruct Htx as [->| ->]; [done|]. destruct (tx_of pc); [by constructor|done]. }
  inversion_clear ro_threads0 as [|? ? Hpc Hpcs].
  split; rewrite ?Ht, ?Hseen; try done.
  - by eapply NoDup_sub.
  - auto.
  - intros id Hid Hs. apply (ro_free0 id Hid). auto.
  - intros id [?|?]; apply ro_seen0; auto.
  - constructor; auto.
  - by eapply sublist_NoDup.
  - intros tx Hx. apply ro_owned0. by eapply elem_of_sublist.
Qed.

(** The transactions of the other relays do not see a change of one. *)
Lemma tx_ok_frame t t' pc tx :
  tx_of pc ≠ Some tx → (∀ tx', tx' ≠ tx → find_tx tx' t' = find_tx tx' t) → tx_ok t pc → tx_ok t' pc.
Proof. intros Hne Hf. destruct pc; simpl in *; try done; rewrite Hf; done || congruence. Qed.

Lemma begin_step pcs w w' :
  rw_stream w' = rw_stream w → rw_seen w' = rw_seen w →
  rw_tables w' = set_txs ({| tx_id := t_next_tx (rw_tables w); tx_locked := []; tx_writes := [] |} :: t_txs (rw_tables w))
                   (S (t_next_tx (rw_tables w))) (rw_tables w) →
  relays_ok (PBegin :: pcs) w → relays_ok (PSelect (t_next_tx (rw_tables w)) :: pcs) w'.
Proof.
  intros Hst Hseen Ht []. inversion_clear ro_threads0 as [|? ? Hpc Hpcs].
  assert (sent (PSelect (t_next_tx (rw_tables w)) :: pcs) w' = sent (PBegin :: pcs) w) as Hs by (unfold sent; by rewrite Hst).
  assert (∀ tx, tx ∈ omap tx_of pcs → tx ≠ t_next_tx (rw_tables w)) as Hne.
  { intros tx Hx ->. assert (t_next_tx (rw_tables w) < t_next_tx (rw_tables w))%nat; [|lia]. by apply ro_owned0. }
  split; rewrite ?Hs, ?Hseen, ?Ht; simpl; try done.
  - constructor; [|done]. intros (x & Hx & Hin)%list_elem_of_fmap. apply ro_next0 in Hin. lia.
  - intros x [->|Hx]%elem_of_cons; simpl; [lia|]. apply ro_next0 in Hx. lia.
  - constructor; [simpl; unfold find_tx; simpl; by rewrite bool_decide_eq_true_2|].
    apply Forall_forall. intros pc Hpcin. rewrite Forall_forall in Hpcs.
    apply (tx_ok_frame (rw_tables w) _ _ (t_next_tx (rw_tables w))); [| |by apply Hpcs].
    + intros Htx. apply (Hne (t_next_tx (rw_tables w))); [|done]. apply list_elem_of_omap. eauto.
    + intros tx' Hn. unfold find_tx. simpl. by rewrite bool_decide_eq_false_2.
  - constructor; [|done]. intros Hin. by apply (Hne _ Hin).
  - intros tx [->|Hx]%elem_of_cons; [lia|]. apply ro_owned0 in Hx. lia.
Qed.

Lemma tx_ok_none t pc : tx_of pc = None → tx_ok t pc.
Proof. by destruct pc. Qed.

(** The other relays' transactions are other transactions. *)
Lemma others_txs pc tx pcs w :
  tx_of pc = Some tx → relays_ok (pc :: pcs) w → ∀ pc', pc' ∈ pcs → tx_of pc' ≠ Some tx.
Proof.
  intros Htx [] pc' Hin Htx'. simpl in ro_owner0. rewrite Htx in ro_owner0.
  apply NoDup_cons in ro_owner0 as [Hn _]. apply Hn, list_elem_of_omap. eauto.
Qed.

Lemma locks_perm tx t x :
  NoDup (map tx_id (t_txs t)) → find_tx tx t = Some x →
  locks t ≡ₚ tx_locked x ++ concat (map tx_locked (drop_tx tx t)).
Proof. intros Hnd [_ Hp]%find_tx_perm; [|done]. unfold locks. by rewrite Hp. Qed.

Lemma drop_tx_sub tx t : drop_tx tx t `sublist_of` t_txs t.
Proof. apply filterb_sublist. Qed.

(** A transaction gets new locks or writes. *)
Lemma update_tx_step pc pc' tx x x' new pcs w w' :
  tx_of pc = Some tx → tx_of pc' = Some tx → pend pc = [] → pend pc' = [] →
  find_tx tx (rw_tables w) = Some x → tx_id x' = tx → tx_locked x' = new ++ tx_locked x →
  NoDup new → (∀ id, id ∈ new → id ∉ locks (rw_tables w) ∧ id ∉ sent pcs w ∧ id ∈ map build_id (t_builds (rw_tables w))) →
  rw_tables w' = set_txs (x' :: drop_tx tx (rw_tables w)) (t_next_tx (rw_tables w)) (rw_tables w) →
  rw_stream w' = rw_stream w → rw_seen w' = rw_seen w → tx_ok (rw_tables w') pc' →
  relays_ok (pc :: pcs) w → relays_ok (pc' :: pcs) w'.
Proof.
  intros Htx Htx' Hp Hp' Hf Hid Hlk Hnew Hfresh Ht Hst Hseen Hok' Hok.
  pose proof (others_txs _ _ _ _ Htx Hok) as Hoth. destruct Hok.
  pose proof (locks_perm _ _ _ ro_txs0 Hf) as Hlocks.
  assert (locks (rw_tables w') ≡ₚ new ++ locks (rw_tables w)) as Hlocks'.
  { rewrite Hlocks, app_assoc, Ht, <- Hlk. done. }
  assert (sent (pc' :: pcs) w' = sent pcs w) as Hs by (unfold sent; simpl; by rewrite Hst, Hp').
  assert (sent (pc :: pcs) w = sent pcs w) as Hs0 by (unfold sent; simpl; by rewrite Hp).
  rewrite Hs0 in *. destruct (find_tx_perm _ _ _ ro_txs0 Hf) as [Hxid Hperm].
  assert (t_builds (rw_tables w') = t_builds (rw_tables w)) as Hbs by by rewrite Ht.
  assert (t_next_tx (rw_tables w') = t_next_tx (rw_tables w)) as Hnx by by rewrite Ht.
  split; rewrite ?Hs, ?Hseen, ?Hbs, ?Hnx; try done.
  - rewrite Ht. simpl. rewrite Hperm in ro_txs0. simpl in ro_txs0. rewrite Hid. by rewrite Hxid in ro_txs0.
  - rewrite Ht. simpl. intros y [->|Hy]%elem_of_cons.
    + rewrite Hid, <- Hxid. apply ro_next0. rewrite Hperm. by left.
    + apply ro_next0. eapply elem_of_sublist; [done|apply drop_tx_sub].
  - rewrite Hlocks'. apply NoDup_app. split_and!; [done| |done]. intros id Hi. by apply Hfresh.
  - intros id. rewrite Hlocks'. intros [Hi|Hi]%elem_of_app; [by apply Hfresh|by apply ro_free0].
  - intros id. rewrite Hlocks', elem_of_app. intros [?|[[Hi|?]|?]]; apply ro_seen0; try tauto.
    right; right. by apply Hfresh.
  - inversion_clear ro_threads0 as [|? ? Hpc Hpcs]. constructor; [done|]. apply Forall_forall. intros pc1 Hin.
    rewrite Forall_forall in Hpcs. apply (tx_ok_frame (rw_tables w) _ _ tx); [by apply Hoth| |by apply Hpcs].
    intros tx' Hne. rewrite Ht. unfold find_tx. cbn [t_txs set_txs]. unfold drop_tx.
    rewrite find_tx_cons_ne by congruence. by apply find_drop_ne.
  - simpl in *. rewrite Htx'. by rewrite Htx in ro_owner0.
  - simpl in *. rewrite Htx'. by rewrite Htx in ro_owned0.
Qed.

(** A transaction ends: what the relay goes on with was locked by it. *)
Lemma end_tx_step pc pc' tx claimed rest bs pcs w w' :
  tx_of pc = Some tx → tx_of pc' = None → pend pc = [] → pend pc' = claimed →
  locks (rw_tables w) ≡ₚ claimed ++ rest → concat (map tx_locked (drop_tx tx (rw_tables w))) ⊆+ rest →
  rw_tables w' = set_builds bs (set_txs (drop_tx tx (rw_tables w)) (t_next_tx (rw_tables w)) (rw_tables w)) →
  map build_id bs = map build_id (t_builds (rw_tables w)) →
  (∀ b, b ∈ bs → build_id b ∈ claimed ∨ (∃ b0, b0 ∈ t_builds (rw_tables w) ∧ build_id b0 = build_id b ∧
      build_publishedToStreamAt b0 ≠ None) → build_publishedToStreamAt b ≠ None) →
  rw_stream w' = rw_stream w → rw_seen w' = rw_seen w →
  relays_ok (pc :: pcs) w → relays_ok (pc' :: pcs) w'.
Proof.
  intros Htx Htx' Hp Hp' Hlk Hsub Ht Hids Hbs Hst Hseen Hok.
  pose proof (others_txs _ _ _ _ Htx Hok) as Hoth. destruct Hok.
  assert (sent (pc' :: pcs) w' ≡ₚ claimed ++ sent pcs w) as Hs.
  { rewrite sent_cons, Hp'. unfold sent. by rewrite Hst. }
  assert (sent (pc :: pcs) w = sent pcs w) as Hs0 by (unfold sent; simpl; by rewrite Hp).
  rewrite Hs0 in *. assert (locks (rw_tables w') ⊆+ rest) as Hlk' by (unfold locks; by rewrite Ht).
  assert (∀ id, id ∈ claimed → id ∉ sent pcs w) as Hcl.
  { intros id Hid. apply ro_free0. rewrite Hlk. set_solver. }
  rewrite Hlk in ro_locks0. apply NoDup_app in ro_locks0 as (Hn1 & Hdisj & Hn2).
  assert (t_builds (rw_tables w') = bs) as Hbs' by by rewrite Ht.
  assert (t_next_tx (rw_tables w') = t_next_tx (rw_tables w)) as Hnx by by rewrite Ht.
  assert (t_txs (rw_tables w') = drop_tx tx (rw_tables w)) as Htxs by by rewrite Ht.
  assert (∀ id, id ∈ locks (rw_tables w') → id ∈ rest) as Hin by (intros; by eapply elem_of_submseteq).
  split; rewrite ?Hseen, ?Hbs', ?Hnx, ?Htxs, ?Hids; try done.
  - by apply NoDup_map_filterb.
  - intros y Hy. apply ro_next0. eapply elem_of_sublist; [done|apply drop_tx_sub].
  - by eapply NoDup_sub.
  - rewrite Hs. apply NoDup_app. done.
  - intros b Hb. rewrite Hs. intros [Hc|Hc]%elem_of_app; apply Hbs; [done|by left|done|].
    right. assert (build_id b ∈ map build_id (t_builds (rw_tables w))) as (b0 & Hid & Hb0)%list_elem_of_fmap.
    { rewrite <- Hids. by apply list_elem_of_fmap_2. }
    exists b0. split_and!; [done|done|]. apply ro_done0; [done|]. by rewrite <- Hid.
  - intros id Hi. rewrite Hs. intros [Hc|Hc]%elem_of_app.
    + apply (Hdisj id Hc). auto.
    + apply (ro_free0 id); [|done]. rewrite Hlk. set_solver.
  - intros id. rewrite Hs, elem_of_app. intros [[Hc|?]|[Hi|?]]; apply ro_seen0; rewrite ?Hlk; try tauto;
      right; left; set_solver.
  - inversion_clear ro_threads0 as [|? ? Hpc Hpcs]. constructor; [by apply tx_ok_none|]. apply Forall_forall. intros pc1 Hi.
    rewrite Forall_forall in Hpcs. apply (tx_ok_frame (rw_tables w) _ _ tx); [by apply Hoth| |by apply Hpcs].
    intros tx' Hne. unfold find_tx. rewrite Htxs. by apply find_drop_ne.
  - simpl in *. rewrite Htx'. rewrite Htx in ro_owner0. by apply NoDup_cons in ro_owner0 as [_ ?].
  - simpl in *. rewrite Htx'. rewrite Htx in ro_owned0. intros tx' Hx. apply ro_owned0. by right.
Qed.

(** What the locking select answers. *)
Lemma select_claimable_spec tx limit t x :
  NoDup (map build_id (t_builds t)) → NoDup (map tx_id (t_txs t)) →
  find_tx tx t = Some x → tx_locked x = [] →
  NoDup (select_claimable tx limit t) ∧
  ∀ id, id ∈ select_claimable tx limit t → id ∉ locks t ∧
    ∃ b, b ∈ t_builds t ∧ build_id b = id ∧ build_publishedToStreamAt b = None.
Proof.
  intros Hnd Htx Hf Hx. unfold select_claimable. set (cs := List.filter (claimable tx t) (t_builds t)).
  pose proof (merge_sort_Permutation older cs) as Hp. split.
  - eapply sublist_NoDup; [|apply sublist_take]. rewrite Hp. by apply NoDup_map_filterb.
  - intros id Hid.
    assert (id ∈ build_id <$> merge_sort older cs) as Hin by (eapply elem_of_sublist; [done|apply sublist_take]).
    rewrite Hp in Hin. apply list_elem_of_fmap in Hin as (b & -> & [Hb Hc]%elem_of_filterb).
    unfold claimable in Hc. apply andb_prop in Hc as [Hc Hl]. apply andb_prop in Hc as [_ Hpub].
    apply negb_true_iff, bool_decide_eq_false in Hl. apply bool_decide_eq_true in Hpub. split; [|eauto].
    rewrite (locks_perm tx t x) by done. by rewrite Hx.
Qed.

Lemma commit_writes_published ws bs b :
  NoDup (map build_id bs) → b ∈ commit_writes ws bs →
  build_id b ∈ map fst ws ∨ (∃ b0, b0 ∈ bs ∧ build_id b0 = build_id b ∧ build_publishedToStreamAt b0 ≠ None) →
  build_publishedToStreamAt b ≠ None.
Proof.
  intros Hnd (b1 & Hb & Hb1)%list_elem_of_fmap H.
  assert (build_id b = build_id b1) as Hid by (subst b; by destruct (List.find _ ws)).
  destruct (List.find (λ w, bool_decide (w.1 = build_id b1)) ws) as [wr|] eqn:E; [by subst b|].
  subst b. destruct H as [(wr & Hw & Hin)%list_elem_of_fmap|(b0 & Hb0 & Heq & Hp)].
  - rewrite find_None_elem in E. specialize (E wr Hin). simpl in E. by apply bool_decide_eq_false in E.
  - by rewrite <- (NoDup_map_inj build_id bs b0 b1).
Qed.

Lemma concat_sub {A B} (f : A → list B) l k : l `sublist_of` k → concat (map f l) ⊆+ concat (map f k).
Proof.
  induction 1 as [|x l k _ IH|x l k _ IH]; simpl; [done| |].
  - by apply submseteq_skips_l.
  - by apply submseteq_inserts_l.
Qed.

Lemma select_ok tx ids pcs w w' pc' :
  (pc' = PCommit tx [] ∧ ids = [] ∨ pc' = PStamp tx ids) →
  db_spec (TxSelectPendingSkipLocked tx RELAY_BATCH) (rw_tables w) (Ok ids) (rw_tables w') →
  rw_stream w' = rw_stream w → rw_seen w' = rw_seen w →
  relays_ok (PSelect tx :: pcs) w → relays_ok (pc' :: pcs) w'.
Proof.
  intros Hpc' He Hst Hseen Hok. pose proof (ro_threads _ _ Hok) as Hth. inversion_clear Hth as [|? ? Hpc _].
  simpl in Hpc. destruct He as [(draw & now & _ & He)|(x & _ & He & _)]; [|done]. simpl in He. rewrite Hpc in He.
  injection He as Hids Ht. symmetry in Ht.
  destruct (select_claimable_spec tx RELAY_BATCH (rw_tables w) _ (ro_builds _ _ Hok) (ro_txs _ _ Hok) Hpc eq_refl) as [Hnd Hsel].
  rewrite Hids in *. simpl in Ht.
  assert (find_tx tx (rw_tables w') = Some {| tx_id := tx; tx_locked := ids; tx_writes := [] |}) as Hf'.
  { rewrite Ht. unfold find_tx. simpl. by rewrite bool_decide_eq_true_2. }
  eapply (update_tx_step (PSelect tx) pc' tx _ {| tx_id := tx; tx_locked := ids; tx_writes := [] |} ids pcs w w');
    [done| |done| |exact Hpc|done| |done| |exact Ht|done|done| |exact Hok].
  - by destruct Hpc' as [[-> _]| ->].
  - by destruct Hpc' as [[-> _]| ->].
  - simpl. by rewrite app_nil_r.
  - intros id Hid. destruct (Hsel id Hid) as (Hl & b & Hb & Hbid & Hp). split_and!; [done| |].
    + intros Hs. apply (ro_done _ _ Hok b Hb); [|done]. unfold sent in *. simpl. by rewrite Hbid.
    + rewrite <- Hbid. by apply list_elem_of_fmap_2.
  - destruct Hpc' as [[-> ->]| ->]; simpl; [|done]. eexists. split; [exact Hf'|done].
Qed.

Lemma mark_ok tx ids now n pcs w w' :
  db_spec (TxBuildSetPublished tx ids now) (rw_tables w) (Ok n) (rw_tables w') →
  rw_stream w' = rw_stream w → rw_seen w' = rw_seen w →
  relays_ok (PMark tx ids now :: pcs) w → relays_ok (PCommit tx ids :: pcs) w'.
Proof.
  intros He Hst Hseen Hok. pose proof (ro_threads _ _ Hok) as Hth. inversion_clear Hth as [|? ? Hpc _].
  simpl in Hpc. destruct He as [(draw & now' & _ & He)|(x & _ & He & _)]; [|done]. simpl in He. rewrite Hpc in He.
  cbn [tx_locked tx_writes app] in He.
  assert (List.filter (λ i, negb (bool_decide (i ∈ ids))) ids = []) as Hnil.
  { clear He. destruct (List.filter _ ids) as [|i l] eqn:E; [done|].
    assert (i ∈ List.filter (λ i, negb (bool_decide (i ∈ ids))) ids) as [Hi Hn]%elem_of_filterb by (rewrite E; by left).
    by rewrite bool_decide_eq_true_2 in Hn. }
  rewrite Hnil, app_nil_r in He. injection He as Hn Ht. symmetry in Ht.
  eapply (update_tx_step (PMark tx ids now) (PCommit tx ids) tx _
    {| tx_id := tx; tx_locked := ids; tx_writes := map (λ i, (i, now)) ids |} [] pcs w w');
    [done..|exact Hpc|done|done|constructor|by intros id ?%not_elem_of_nil|exact Ht|done|done| |exact Hok].
  simpl. eexists. split; [rewrite Ht; unfold find_tx; simpl; by rewrite bool_decide_eq_true_2|]. split; [done|].
  simpl. rewrite map_map. by apply map_id.
Qed.

Lemma commit_ok tx ids pcs w w' :
  db_spec (TxCommit tx) (rw_tables w) (Ok tt) (rw_tables w') →
  rw_stream w' = rw_stream w → rw_seen w' = rw_seen w →
  relays_ok (PCommit tx ids :: pcs) w → relays_ok (PPublish ids :: pcs) w'.
Proof.
  intros He Hst Hseen Hok. pose proof (ro_threads _ _ Hok) as Hth. inversion_clear Hth as [|? ? Hpc _].
  destruct Hpc as (x & Hf & Hl & Hw).
  destruct He as [(draw & now & _ & He)|(y & _ & He & _)]; [|done]. simpl in He. rewrite Hf in He.
  injection He as Ht. symmetry in Ht.
  refine (end_tx_step (PCommit tx ids) (PPublish ids) tx ids _ _ pcs w w' eq_refl eq_refl eq_refl eq_refl _ _ Ht _ _ Hst Hseen Hok).
  - rewrite <- Hl. apply locks_perm; [apply Hok|done].
  - done.
  - by apply map_commit_writes.
  - intros b Hb Hcase. eapply commit_writes_published; [apply Hok|exact Hb|]. by rewrite Hw.
Qed.

Lemma rollback_ok tx x m r pcs w w' :
  db_spec (TxRollback tx) (rw_tables w) r (rw_tables w') →
  rw_stream w' = rw_stream w → rw_seen w' = rw_seen w →
  relays_ok (PRollback tx x :: pcs) w → relays_ok (PFailed m :: pcs) w'.
Proof.
  intros He Hst Hseen Hok. destruct r as [[]|y].
  - destruct He as [(draw & now & _ & He)|(y & _ & He & _)]; [|done]. injection He as Ht. symmetry in Ht.
    refine (end_tx_step (PRollback tx x) (PFailed m) tx [] (locks (rw_tables w)) _ pcs w w' eq_refl eq_refl eq_refl eq_refl _ _ Ht eq_refl _ Hst Hseen Hok).
    + done.
    + apply concat_sub, drop_tx_sub.
    + intros b Hb [Hn|(b0 & Hb0 & Hid & Hp)]; [by apply not_elem_of_nil in Hn|].
      by rewrite <- (NoDup_map_inj build_id _ b0 b (ro_builds _ _ Hok)).
  - apply db_spec_err in He. refine (quiet_step _ _ pcs w w' He Hseen _ _ _ Hok); [|by right|done].
    unfold sent. simpl. by rewrite Hst.
Qed.

Lemma relay_step_ok pc w pc' w' pcs :
  relay_step relay_env pc w pc' w' → relays_ok (pc :: pcs) w → relays_ok (pc' :: pcs) w'.
Proof.
  intros Hs Hok. pose proof (ro_threads _ _ Hok) as Hth. inversion_clear Hth as [|? ? Hpc _].
  destruct Hs as [w tx w' [Hseen [He Hst]]|w x w' [Hseen [He%db_spec_err Hst]]
    |tx w w' [Hseen [He Hst]]|tx id ids w w' [Hseen [He Hst]]|tx w x w' [Hseen [He%db_spec_err Hst]]
    |tx ids w now w' [Hseen [Ht Hst]]|tx ids now w n w' [Hseen [He Hst]]|tx ids now w x w' [Hseen [He%db_spec_err Hst]]
    |tx ids w w' [Hseen [He Hst]]|tx ids w x w' [Hseen [He%db_spec_err Hst]]|tx x w r w' [Hseen [He Hst]]
    |id ids w m w' [Hseen [Ht Hst]]|id ids w x w' [Hseen [Ht Hst]]|m ids w w' [Hseen [Ht Hst]]|m w w' [Hseen [Ht Hst]]].
  all: try (refine (quiet_step _ _ pcs w w' _ _ _ _ _ Hok);
    [done|done|unfold sent; simpl; rewrite Hst; reflexivity|first [left; done|right; done]|done]).
  - destruct He as [(draw & now & _ & He)|(y & _ & He & _)]; [|done]. injection He as <- Ht. by apply begin_step.
  - eapply select_ok; [by left|done..].
  - eapply select_ok; [by right|done..].
  - by eapply mark_ok.
  - by eapply commit_ok.
  - by eapply rollback_ok.
  - case_decide; [|done]. destruct Hst as [Hst|[? _]]; [|done].
    refine (quiet_step _ _ pcs w w' Ht Hseen _ _ _ Hok); [|by left|done].
    unfold sent. simpl. by rewrite Hst, <- app_assoc.
  - case_decide; [|done]. refine (quiet_step _ _ pcs w w' Ht Hseen _ _ _ Hok); [|by left|done].
    unfold sent. simpl. destruct Hst as [Hst|[_ Hst]]; rewrite Hst; [by rewrite <- app_assoc|].
    apply submseteq_app; [done|]. by apply submseteq_cons.
Qed.

(** Other traffic opens and ends no relay transaction, and publishes nothing. *)
Definition builds_kept (t t' : tables) : Prop :=
  t_txs t' = t_txs t ∧ t_next_tx t' = t_next_tx t ∧
  ∀ b', b' ∈ t_builds t' →
    (∃ b, b ∈ t_builds t ∧ build_id b = build_id b' ∧ build_publishedToStreamAt b = build_publishedToStreamAt b') ∨
    build_id b' ∉ map build_id (t_builds t).

Lemma builds_kept_same t t' :
  t_txs t' = t_txs t → t_next_tx t' = t_next_tx t → t_builds t' = t_builds t → builds_kept t t'.
Proof. intros H1 H2 H3. split; [done|]. split; [done|]. rewrite H3. eauto. Qed.

Lemma plain_kept draw now {X} (e : db_eff X) t :
  (∀ t, draw t ∉ ids_of t) → plain e → builds_kept t (db_ref draw now e t).2.
Proof.
  intros Hd He. destruct e; try done; simpl; repeat case_match; simpl;
    try (by apply builds_kept_same).
  - split; [done|]. split; [done|]. simpl. intros b' [Hb _]%elem_of_filterb. eauto.
  - split; [done|]. split; [done|]. simpl. intros b' [Hb|Hb]%elem_of_app; [eauto|].
    apply list_elem_of_singleton in Hb as ->. right. simpl. specialize (Hd t). unfold ids_of in Hd. set_solver.
  - split; [done|]. split; [done|]. simpl. intros b' (b0 & Hb0 & ->)%elem_of_update_where. left.
    exists b0. by case_bool_decide.
Qed.

Lemma other_kept {X} (e : db_eff X) t r t' : not_relay e → db_spec e t r t' → builds_kept t t'.
Proof.
  intros He [(draw & now & Hd & Hr)|(x & _ & _ & ->)]; [|by apply builds_kept_same].
  assert (t' = (db_ref draw now e t).2) as -> by by rewrite Hr. clear Hr.
  destruct e; try (by apply plain_kept).
  match goal with |- builds_kept _ (db_ref _ _ (TransactionBatch ?a _) _).2 => destruct a; try done end.
  simpl. match goal with |- context [find_function_by_id ?f t] => destruct (find_function_by_id f t) end;
    [|by apply builds_kept_same].
  match goal with |- context [has_version ?f ?n t] => destruct (has_version f n t) end; [by apply builds_kept_same|].
  match goal with |- context [db_ref draw now ?b ?t1] =>
    pose proof (plain_kept draw now b t1 Hd He) as Hk; destruct (db_ref draw now b t1) as [[y|z] t2] end;
    [exact Hk|by apply builds_kept_same].
Qed.

Lemma other_step_ok pcs w w' :
  schema_ok (rw_tables w') → other_step w w' → relays_ok pcs w → relays_ok pcs w'.
Proof.
  intros Hsch (Hst & Hseen & Hnew & X & e & r & He & Hdb) [].
  destruct (other_kept e _ _ _ He Hdb) as (Htx & Hnx & Hbs).
  assert (sent pcs w' = sent pcs w) as Hs by (unfold sent; by rewrite Hst).
  assert (locks (rw_tables w') = locks (rw_tables w)) as Hl by (unfold locks; by rewrite Htx).
  split; rewrite ?Hs, ?Hl, ?Htx, ?Hnx, ?Hseen; try done.
  - apply Hsch.
  - intros b Hb Hid. destruct (Hbs b Hb) as [(b0 & Hb0 & Heq & Hp)|Hn].
    + rewrite <- Hp. apply ro_done0; [done|]. by rewrite Heq.
    + destruct (Hnew b Hb) as [?|Hns]; [done|]. destruct Hns. apply ro_seen0. by left.
  - intros id [Hi|[Hi|Hi]]; apply elem_of_app; [left; apply ro_seen0; auto..|by right].
  - apply Forall_forall. intros pc Hpc. rewrite Forall_forall in ro_threads0. specialize (ro_threads0 pc Hpc).
    assert (∀ tx, find_tx tx (rw_tables w') = find_tx tx (rw_tables w)) as Hf by (intros; unfold find_tx; by rewrite Htx).
    destruct pc; simpl in *; rewrite ?Hf; done.
Qed.

(** ** Properties *)

Definition system_ok (st : list (prog ev unit unit) * rworld) : Prop :=
  schema_ok (rw_tables st.2) ∧ ∃ pcs, st.1 = map code pcs ∧ relays_ok pcs st.2.

Lemma relay_env_schema {X} (e : ev X) w r w' :
  relay_env X e w r w' → schema_ok (rw_tables w) → schema_ok (rw_tables w').
Proof.
  intros [_ He]. destruct e; try (by destruct He as [-> _]).
  destruct He as [He _]. eauto using db_spec_schema_ok.
Qed.

Lemma system_step_ok st st' : system_step st st' → system_ok st → system_ok st'.
Proof.
  intros [st0 st0' [ps w i p p' w' Hi Hth|ps w p ->]|ps w w' Hother] [Hsch (pcs & Hps & Hok)]; simpl in *; subst ps.
  - apply list_lookup_fmap_Some in Hi as (pc & -> & Hpc).
    split.
    { destruct (code pc); simpl in Hth; try done; [by destruct Hth as [_ ->]|].
      destruct Hth as (r & He & _). eauto using relay_env_schema. }
    apply code_step in Hth as (pc' & -> & Hstep). exists (<[i := pc']> pcs). split; [by rewrite list_fmap_insert|].
    assert (pcs ≡ₚ pc :: (take i pcs ++ drop (S i) pcs)) as Hp.
    { rewrite <- (take_drop_middle pcs i pc Hpc) at 1. symmetry. apply Permutation_middle. }
    eapply relays_ok_perm; [|eapply relay_step_ok; [exact Hstep|eapply relays_ok_perm; [exact Hp|done]]].
    rewrite insert_take_drop by (by eapply lookup_lt_Some). apply Permutation_middle.
  - split; [done|]. exists (pcs ++ [PBegin]). split; [by rewrite map_app|].
    eapply relays_ok_perm; [apply Permutation_cons_append|].
    destruct Hok. split; try done. by constructor.
  - split; [|exists pcs; split; [done|]].
    + destruct Hother as (_ & _ & _ & X & e & r & _ & Hdb). eauto using db_spec_schema_ok.
    + eapply other_step_ok; [|done|done].
      destruct Hother as (_ & _ & _ & X & e & r & _ & Hdb). eauto using db_spec_schema_ok.
Qed.

(** The relays alone, without other traffic. *)
Lemma relays_run st st' : rtc (pstep relay_env (λ p, p = tick)) st st' → rtc system_step st st'.
Proof. induction 1 as [|x y z Hxy _ IH]; [done|]. eapply rtc_l; [by apply system_relay|exact IH]. Qed.

(** C12: no build is published twice, whatever the number of relays and however
    their calls interleave with each other, with failing calls and with the
    other traffic of the platform: the build ids appended to the stream are
    distinct, and every build row whose id was appended carries its publication
    mark, so that no later claim can return it. *)
Theorem no_build_published_twice t ps w :
  schema_ok t → t_txs t = [] →
  rtc system_step ([], {| rw_tables := t; rw_stream := []; rw_seen := map build_id (t_builds t) |}) (ps, w) →
  NoDup (rw_stream w) ∧
  ∀ b, b ∈ t_builds (rw_tables w) → build_id b ∈ rw_stream w → build_publishedToStreamAt b ≠ None.
Proof.
  intros Hsch Htx Hr.
  assert (system_ok ([], {| rw_tables := t; rw_stream := []; rw_seen := map build_id (t_builds t) |})) as H0.
  { split; [done|]. exists []. split; [done|].
    assert (locks t = []) as Hl by (unfold locks; by rewrite Htx).
    split; simpl; rewrite ?Htx, ?Hl; try (by constructor); try (apply Hsch); try (intros ? []%not_elem_of_nil).
    - intros b _ []%not_elem_of_nil.
    - intros id [[]%not_elem_of_nil|[[]%not_elem_of_nil|?]]. done. }
  assert (system_ok (ps, w)) as [_ (pcs & _ & Hok)].
  { clear -Hr H0. remember (_, _) as a in H0, Hr. remember (ps, w) as b in Hr |- *. clear Heqa Heqb.
    induction Hr; eauto using system_step_ok. }
  simpl in Hok. split.
  - pose proof (ro_sent _ _ Hok) as Hn. unfold sent in Hn. by apply NoDup_app in Hn as [? _].
  - intros b Hb Hid. apply (ro_done _ _ Hok); [done|]. unfold sent. apply elem_of_app. by left.
Qed.

(** The build ids a history sent to the build stream, in order. *)
Definition sent_to_stream (tr : list entry) : list string :=
  omap (λ en : entry, match entry_call en with
             | Redis (Xadd key [_; id]) => if decide (key = BUILD_STREAM_KEY) then Some id else None
             | _ => None
             end) tr.

Lemma sent_to_stream_app a b : sent_to_stream (a ++ b) = sent_to_stream a ++ sent_to_stream b.
Proof. apply omap_app. Qed.

Section sequential.
Context {S W : Type} (env : Env ev W) (view : W → tables) `{DBE : !DbEnv env view} (R : S → S → Prop).

(** Publishing sends every id once, in order, whether or not Redis accepts it. *)
Lemma publish_all_spec ids s w tr (Q : outcome unit → S → W * list entry → Prop) :
  (∀ s' w' calls, view w' = view w → sent_to_stream calls = ids → Q (Ok tt) s' (w', tr ++ calls)) →
  wp (logged env) R (for_each ids publish) s (w, tr) Q.
Proof.
  intros HQ. apply (wp_for_each _ _ (λ l _ w1, view w1.1 = view w ∧ ∃ calls, w1.2 = tr ++ calls ∧ sent_to_stream calls ++ l = ids)).
  - split; [done|]. exists []. by rewrite app_nil_r.
  - intros id l s1 [w1 tr1] [Hv (calls & Htr & Hl)]. simpl in Hv, Htr. subst tr1. unfold publish. apply wp_try, (wp_logged_redis env view).
    intros r s2 w2 He.
    assert (∀ w3 more, view w3 = view w2 → sent_to_stream more = [] →
      view w3 = view w ∧ ∃ calls', ((tr ++ calls) ++ [Entry (Redis (Xadd BUILD_STREAM_KEY ["buildId"; id])) r]) ++ more = tr ++ calls' ∧
        sent_to_stream calls' ++ l = ids) as Hnext.
    { intros w3 more Hv3 Hm. split; [congruence|]. eexists. rewrite <- !app_assoc. split; [done|].
      rewrite !sent_to_stream_app, Hm, app_nil_r, <- app_assoc. exact Hl. }
    destruct r as [m|x]; cbn [wp of_outcome]; [specialize (Hnext w2 [] eq_refl eq_refl); by rewrite app_nil_r in Hnext|].
    intros [] [w3 tr3] s3 [He3 Ht3] _. simpl in He3, Ht3. subst tr3. apply db_env in He3. simpl in He3. by apply Hnext.
  - intros s1 [w1 tr1] [Hv (calls & Htr & Hl)]. simpl in Htr. subst tr1. apply HQ; [done|]. by rewrite app_nil_r in Hl.
Qed.

(** The builds a claim takes: the oldest unpublished PENDING ones. *)
Definition oldest_pending (t : tables) (bs : list Build) : Prop :=
  (length bs ≤ RELAY_BATCH)%nat ∧ StronglySorted older bs ∧
  (∀ b, b ∈ bs → b ∈ t_builds t ∧ build_status b = PENDING ∧ build_publishedToStreamAt b = None) ∧
  ∀ b, b ∈ t_builds t → build_status b = PENDING → build_publishedToStreamAt b = None → b ∉ bs →
    length bs = RELAY_BATCH ∧ ∀ b', b' ∈ bs → older b' b.

Lemma select_oldest tx t x :
  find_tx tx t = Some x → t_txs t = [x] →
  ∃ bs, select_claimable tx RELAY_BATCH t = map build_id bs ∧ oldest_pending t bs.
Proof.
  intros Hf Htx. exists (take RELAY_BATCH (merge_sort older (List.filter (claimable tx t) (t_builds t)))).
  split; [unfold select_claimable; by rewrite <- fmap_take|].
  assert (locked_by_others tx t = []) as Hl.
  { unfold locked_by_others. rewrite Htx. simpl. unfold find_tx in Hf. rewrite Htx in Hf. simpl in Hf.
    case_bool_decide; done. }
  assert (∀ b, claimable tx t b = true ↔ build_status b = PENDING ∧ build_publishedToStreamAt b = None) as Hc.
  { intros b. unfold claimable. rewrite Hl. rewrite (bool_decide_eq_false_2 (build_id b ∈ [])) by apply not_elem_of_nil.
    simpl. rewrite andb_true_r, andb_true_iff, !bool_decide_eq_true. done. }
  pose proof (merge_sort_Permutation older (List.filter (claimable tx t) (t_builds t))) as Hp.
  assert (StronglySorted older (merge_sort older (List.filter (claimable tx t) (t_builds t)))) as Hs.
  { apply Sorted_StronglySorted; [unfold older; intros ???; lia|]. apply Sorted_merge_sort. unfold older. intros ??. lia. }
  set (m := merge_sort _ _) in *. clearbody m.
  assert (∀ b, b ∈ m ↔ b ∈ t_builds t ∧ build_status b = PENDING ∧ build_publishedToStreamAt b = None) as Hm.
  { intros b. rewrite Hp, elem_of_filterb, Hc. done. }
  destruct (take_sorted_top older RELAY_BATCH m Hs) as (Hlen & Hst & Hrest). split_and!; [done|done| |].
  - intros b Hb. apply Hm. by eapply subseteq_take.
  - intros b Hb Hst' Hpub Hn. by apply Hrest; [apply Hm|].
Qed.

(** The transaction, once begun: the tables it leaves when it commits. *)
Definition claimed (tx : nat) (bs : list Build) (t t' : tables) : Prop :=
  ∃ now, t_builds t' = commit_writes (map (λ b, (build_id b, now)) bs) (t_builds t) ∧ t_txs t' = [].

Lemma commit_spec tx x bs now t t' r :
  find_tx tx t = Some x → t_txs t = [x] → tx_writes x = map (λ b, (build_id b, now)) bs →
  db_spec (TxCommit tx) t (Ok r) t' → claimed tx bs t t'.
Proof.
  intros Hf Htx Hw [(draw & now0 & _ & He)|(y & _ & He & _)]; [|done]. simpl in He. rewrite Hf in He.
  injection He as <- <-. exists now. simpl. rewrite Hw. split; [done|].
  unfold drop_tx. rewrite Htx. unfold find_tx in Hf. rewrite Htx in Hf. simpl in *.
  by case_bool_decide.
Qed.

(** Until the commit the builds stay as they are. *)
Definition before_commit {X} (e : db_eff X) : bool :=
  match e with TxSelectPendingSkipLocked _ _ | TxBuildSetPublished _ _ _ | TxRollback _ => true | _ => false end.

Lemma before_commit_builds {X} (e : db_eff X) t r t' : before_commit e = true → db_spec e t r t' → t_builds t' = t_builds t.
Proof.
  intros He [(draw & now & _ & Hr)|(x & _ & _ & ->)]; [|done].
  destruct e; try done; simpl in Hr; repeat case_match; by simplify_eq.
Qed.

(** Rolling back after a failure, and rethrowing it. *)
Lemma rollback_spec {A} tx err s w tr t :
  t_builds (view w) = t_builds t →
  wp (logged env) R (_ ← fire_and_forget (Db (TxRollback tx)); Throw err : prog ev S A) s (w, tr)
    (λ o _ w', is_Ok o = false ∧ t_builds (view w'.1) = t_builds t ∧ sent_to_stream w'.2 = sent_to_stream tr).
Proof.
  intros Hw. simpl. intros r [w1 tr1] s1 [He Htr] _. simpl in He, Htr. subst tr1. apply db_env in He.
  cbn [fst snd]. split; [done|]. split; [|by rewrite sent_to_stream_app, app_nil_r]. by rewrite (before_commit_builds (TxRollback _) _ _ _ eq_refl He).
Qed.

Lemma claim_spec tx x bs s w tr :
  find_tx tx (view w) = Some x → t_txs (view w) = [x] → tx_locked x = [] → tx_writes x = [] → tx_id x = tx →
  select_claimable tx RELAY_BATCH (view w) = map build_id bs →
  wp (logged env) R
    (r ← try_catch (claim tx) (λ err, _ ← fire_and_forget (Db (TxRollback tx)); Throw err);
     _ ← db (TxCommit tx);
     Ret r) s (w, tr)
    (λ o _ w', match o with
       | Ok ids => ids = map build_id bs ∧ claimed tx bs (view w) (view w'.1) ∧ sent_to_stream w'.2 = sent_to_stream tr ∧
           ∃ before, w'.2 = before ++ [Entry (Db (TxCommit tx)) (Ok tt)]
       | Err _ => t_builds (view w'.1) = t_builds (view w) ∧ sent_to_stream w'.2 = sent_to_stream tr end).
Proof.
  intros Hf Htx Hl Hwr Hid Hsel. apply wp_bind, wp_try.
  assert (∀ err s1 w1 calls, t_builds (view w1) = t_builds (view w) → sent_to_stream calls = [] →
    wp (logged env) R (_ ← fire_and_forget (Db (TxRollback tx)); Throw err) s1 (w1, tr ++ calls)
      (λ o s' w', match o with
         | Ok ids => wp (logged env) R (_ ← db (TxCommit tx); Ret ids) s' w' (λ o _ w', match o with
             | Ok ids => ids = map build_id bs ∧ claimed tx bs (view w) (view w'.1) ∧ sent_to_stream w'.2 = sent_to_stream tr ∧
                 ∃ before, w'.2 = before ++ [Entry (Db (TxCommit tx)) (Ok tt)]
             | Err _ => t_builds (view w'.1) = t_builds (view w) ∧ sent_to_stream w'.2 = sent_to_stream tr end)
         | Err _ => t_builds (view w'.1) = t_builds (view w) ∧ sent_to_stream w'.2 = sent_to_stream tr end)) as Hback.
  { intros err s1 w1 calls Hb Hc. eapply wp_mono; [by apply (rollback_spec tx err s1 w1 _ (view w))|].
    intros [ids|x'] s' w' (Ho & Hb' & Hs'); [done|]. rewrite Hb', Hs', sent_to_stream_app, Hc. by rewrite app_nil_r. }
  unfold claim. apply (wp_logged_db env view). intros r s1 w1 He.
  pose proof (before_commit_builds (TxSelectPendingSkipLocked _ _) _ _ _ eq_refl He) as Hbs1.
  destruct r as [ids|x1]; [|by apply Hback].
  destruct He as [(draw & now0 & _ & He)|(y & _ & He & _)]; [|done]. simpl in He. rewrite Hf in He. injection He as Hids Ht1.
  rewrite Hsel in Hids. symmetry in Ht1.
  assert (drop_tx tx (view w) = []) as Hdrop.
  { unfold drop_tx. rewrite Htx. simpl. by rewrite bool_decide_eq_true_2. }
  rewrite Hdrop, Hsel, Hl, Hwr in Ht1. simpl in Ht1.
  assert (∀ y now t t' r, t_txs t = [y] → tx_id y = tx → tx_writes y = map (λ b, (build_id b, now)) bs → t_builds t = t_builds (view w) →
    db_spec (TxCommit tx) t (Ok r) t' → claimed tx bs (view w) t') as Hcommit.
  { intros y now t t' r Hy Hyid Hyw Hbt Hc.
    destruct (commit_spec tx y bs now t t' r) as (now' & Hb' & Ht'); [|done|done|done|].
    - unfold find_tx. rewrite Hy. simpl. by rewrite bool_decide_eq_true_2.
    - exists now'. by rewrite Hb', Hbt. }
  destruct ids as [|id ids].
  - cbn [wp]. apply (wp_logged_db env view). intros r s2 w2 He2. destruct r as [[]|x1].
    2: { apply db_spec_err in He2. cbn [fst snd]. rewrite He2, !sent_to_stream_app, !app_nil_r. done. }
    cbn [wp]. split; [done|]. split; [|cbn [snd]; rewrite !sent_to_stream_app, !app_nil_r; split; [done|by eexists]].
    eapply (Hcommit {| tx_id := tx; tx_locked := map build_id bs; tx_writes := [] |} 0 (view w1));
      [by rewrite Ht1|done|by destruct bs|by rewrite Ht1|done].
  - apply (wp_logged_sys env view). intros now w2 Hv2. apply (wp_logged_db env view). intros r s3 w3 He3. rewrite Hv2 in He3.
    pose proof (before_commit_builds (TxBuildSetPublished _ _ _) _ _ _ eq_refl He3) as Hbs3.
    destruct r as [n|x1]; [|rewrite <- !app_assoc; apply Hback; [congruence|done]].
    destruct He3 as [(draw3 & now3 & _ & He3)|(y & _ & He3 & _)]; [|done]. simpl in He3.
    assert (find_tx tx (view w1) = Some {| tx_id := tx; tx_locked := map build_id bs; tx_writes := [] |}) as Hf1.
    { rewrite Ht1. unfold find_tx. simpl. by rewrite bool_decide_eq_true_2. }
    assert (drop_tx tx (view w1) = []) as Hd1.
    { rewrite Ht1. unfold drop_tx. simpl. by rewrite bool_decide_eq_true_2. }
    rewrite Hf1, Hd1 in He3. injection He3 as _ Ht3. symmetry in Ht3. cbn [wp].
    apply (wp_logged_db env view). intros r s4 w4 He4. destruct r as [[]|x1].
    2: { apply db_spec_err in He4. cbn [fst snd]. rewrite He4, !sent_to_stream_app, !app_nil_r. split; [congruence|done]. }
    cbn [wp]. split; [done|]. split; [|cbn [snd]; rewrite !sent_to_stream_app, !app_nil_r; split; [done|by eexists]].
    eapply (Hcommit _ now (view w3)); [by rewrite Ht3|done| |by rewrite Ht3, Ht1|exact He4].
    cbn [tx_writes app]. change (map (λ i, (i, now)) (id :: ids) = map (λ b, (build_id b, now)) bs).
    by rewrite <- Hids, map_map.
Qed.

(** C30: a tick of a single relay.  When it succeeds it has claimed the oldest at
    most 20 unpublished PENDING builds, marked exactly those published (all with
    the same time), committed its transaction, and only then sent exactly those ids
    to the stream, each once, oldest first; a build it leaves for the next tick is
    no older.  When it fails, because a call of the claim or its commit failed,
    nothing was sent and no build has changed. *)
Theorem relayOnce_correct s w o s' w' tr :
  t_txs (view w) = [] →
  exec (logged env) R relayOnce s (w, []) o s' (w', tr) →
  match o with
  | Ok _ => ∃ bs now tx before after, oldest_pending (view w) bs ∧
      t_builds (view w') = commit_writes (map (λ b, (build_id b, now)) bs) (t_builds (view w)) ∧ t_txs (view w') = [] ∧
      tr = before ++ Entry (Db (TxCommit tx)) (Ok tt) :: after ∧
      sent_to_stream before = [] ∧ sent_to_stream after = map build_id bs
  | Err _ => sent_to_stream tr = [] ∧ t_builds (view w') = t_builds (view w)
  end.
Proof.
  intros Htx Hx. remember (w', tr) as wt eqn:Hwt.
  replace w' with wt.1 by (by rewrite Hwt). replace tr with wt.2 by (by rewrite Hwt). clear Hwt w' tr.
  by_wp Hx. unfold relayOnce, transaction. apply wp_bind, (wp_logged_db env view).
  intros r s1 w1 He1. destruct r as [tx|x].
  2: { apply db_spec_err in He1. simpl. by rewrite He1. }
  destruct He1 as [(draw & now0 & _ & He1)|(x & _ & He1 & _)]; [|done]. injection He1 as <- Ht1. symmetry in Ht1.
  set (tx := t_next_tx (view w)) in *. set (x1 := {| tx_id := tx; tx_locked := []; tx_writes := [] |}) in *.
  assert (t_txs (view w1) = [x1]) as Htx1 by (rewrite Ht1; simpl; by rewrite Htx).
  assert (find_tx tx (view w1) = Some x1) as Hf1 by (unfold find_tx; rewrite Htx1; simpl; by rewrite bool_decide_eq_true_2).
  assert (t_builds (view w1) = t_builds (view w)) as Hb1 by by rewrite Ht1.
  destruct (select_oldest tx (view w1) x1 Hf1 Htx1) as (bs & Hsel & Hold).
  eapply wp_mono; [apply (claim_spec tx x1 bs); done|].
  intros o1 s2 [w2 tr2] Hpost. destruct o1 as [ids|y].
  2: { destruct Hpost as [Hb2 Hs2]. simpl in *. split; [done|congruence]. }
  destruct Hpost as (-> & (now & Hb2 & Ht2) & Hs2 & before & Htr2). simpl in Hb2, Ht2, Hs2, Htr2. subst tr2.
  apply publish_all_spec. intros s3 w3 calls Hv3 Hs3. simpl. exists bs, now, tx, before, calls.
  rewrite Hb1 in Hb2. rewrite <- app_assoc. rewrite sent_to_stream_app in Hs2. simpl in Hs2. rewrite app_nil_r in Hs2.
  split_and!; [by unfold oldest_pending in *; rewrite <- Hb1|congruence|congruence|done|done|done].
Qed.
End sequential.

(** Once the interval is cleared no tick starts. *)
Lemma timer_off_events s s' :
  rtc relay_event s s' → relay_timer s = false →
  relay_timer s' = false ∧ relay_started s' = relay_started s ∧ relay_currentTick s' = relay_currentTick s.
Proof.
  induction 1 as [s|s s1 s2 He _ IH]; intros Hoff; [done|].
  inversion He; subst; [congruence|]. by apply IH.
Qed.

(** Shutting the relay down: when [onModuleDestroy] returns, the interval is
    cleared, no tick has started since, and the tick [currentTick] held has
    settled, whatever ran meanwhile. *)
Theorem relay_shutdown {W} (env : Env ev W) s w o s' w' :
  exec env (rtc relay_event) RelayLifecycle.onModuleDestroy s w o s' w' →
  o = Ok tt ∧ relay_timer s' = false ∧ relay_started s' = relay_started s ∧
  match relay_currentTick s with None => True | Some n => n ∈ relay_settled s' end.
Proof.
  intros (s1 & [] & HR & Hg & -> & -> & ->). simpl in *.
  apply timer_off_events in HR as (Ht & Hs & _); [|done]. simpl in *. split_and!; try done.
  destruct (relay_currentTick s) as [n|]; [|done]. by case_bool_decide.
Qed.

(** ** Concrete executions *)

Module OutboxDemo.
Definition handler : handler ev rworld :=
  λ X e w, match e in ev X return X * rworld with
           | Db e' => let '(r, t') := db_ref fresh_id 50 e' (rw_tables w) in
                      (r, {| rw_tables := t'; rw_stream := rw_stream w; rw_seen := rw_seen w |})
           | Redis e' => match e' in redis_eff Y return outcome Y * rworld with
                         | Xadd key [_; id] =>
                             (Ok "1-0", {| rw_tables := rw_tables w;
                                rw_stream := if decide (key = BUILD_STREAM_KEY) then rw_stream w ++ [id] else rw_stream w;
                                rw_seen := rw_seen w |})
                         | _ => (down, w)
                         end
           | Sys e' => match e' in sys_eff X return X * rworld with
                       | DateNow => (60, w) | RandomUUID => ("u", w) | RandomBytesHex _ => ("00", w) | ProcessEnv _ => (None, w)
                       | Log _ _ | GaugeSet _ _ | CounterInc _ _ | HistogramObserve _ _ => (tt, w)
                       | MetricsText => (EmptyString, w)
                       end
           | Aws _ | Os _ | Fs _ | Lib _ => (down, w)
           end.

Lemma handler_env X (e : ev X) w r w' : env_of handler X e w r w' → relay_env X e w r w'.
Proof.
  unfold env_of, handler, relay_env. destruct e as [X e|X e|X e|X e|X e|X e|X e]; try (intros [= <- <-]; done).
  - destruct (db_ref fresh_id 50 e (rw_tables w)) as [r' t'] eqn:Href. intros [= <- <-]. simpl.
    split; [done|]. split; [|done]. left. exists fresh_id, 50. split; [apply fresh_id_fresh|done].
  - destruct e; try (intros [= <- <-]; done). destruct fields as [|f [|id [|]]]; intros [= <- <-]; simpl; try done.
    split; [done|]. split; [done|]. case_decide; [by left|done].
  - destruct e; intros [= <- <-]; done.
Qed.

Definition b1 : Build := mk_build "b-1" 1 "f-1" "k1" PENDING.
Definition b2 : Build := mk_build "b-2" 2 "f-1" "k2" PENDING.
Definition t0 : tables := set_builds [b1; b2] FunctionsDemo.tables1.
Definition w0 : rworld := {| rw_tables := t0; rw_stream := []; rw_seen := map build_id (t_builds t0) |}.
(** Two relays, the second of which selects while the first holds its locks. *)
Definition sched : list (option nat) :=
  [None; None; Some 0; Some 1; Some 0; Some 1; Some 0; Some 1; Some 0; Some 0; Some 0; Some 0]%nat.
Definition env := env_of (mem_env (λ X e _, BuildDemo.script X e)).
End OutboxDemo.

Lemma no_build_published_twice_witness :
  ∃ ps w, rtc system_step ([], OutboxDemo.w0) (ps, w) ∧ rw_stream w = ["b-1"; "b-2"] ∧ NoDup (rw_stream w).
Proof.
  assert (∃ ps w, rtc system_step ([], OutboxDemo.w0) (ps, w) ∧ rw_stream w = ["b-1"; "b-2"]) as (ps & w & Hr & Hs).
  { assert ((λ st, rw_stream st.2) <$> run_pool OutboxDemo.handler tick OutboxDemo.sched ([], OutboxDemo.w0) = Some ["b-1"; "b-2"]) as Hrun
      by (vm_compute; reflexivity).
    destruct (run_pool OutboxDemo.handler tick OutboxDemo.sched ([], OutboxDemo.w0)) as [[ps w]|] eqn:E; cbn [fmap option_fmap option_map] in Hrun; [|done].
    exists ps, w. split; [|by apply (inj Some) in Hrun].
    apply relays_run. eapply run_pool_steps; [apply OutboxDemo.handler_env|exact eq_refl|exact E]. }
  exists ps, w. split; [exact Hr|]. split; [exact Hs|].
  apply (no_build_published_twice OutboxDemo.t0 ps w); [apply schema_okb_ok; vm_compute; reflexivity|reflexivity|exact Hr].
Defined.

Lemma relayOnce_correct_witness :
  ∃ s' w' tr, exec (logged OutboxDemo.env) still relayOnce tt (mem_of OutboxDemo.t0, []) (Ok tt) s' (w', tr) ∧
    sent_to_stream tr = ["b-1"; "b-2"] ∧
    ∃ bs now tx before after, oldest_pending OutboxDemo.t0 bs ∧
      t_builds (mem_tables w') = commit_writes (map (λ b, (build_id b, now)) bs) (t_builds OutboxDemo.t0) ∧
      tr = before ++ Entry (Db (TxCommit tx)) (Ok tt) :: after ∧ sent_to_stream before = [] ∧ sent_to_stream after = map build_id bs.
Proof.
  assert (∃ s' w' tr, exec (logged OutboxDemo.env) still relayOnce tt (mem_of OutboxDemo.t0, []) (Ok tt) s' (w', tr) ∧
    sent_to_stream tr = ["b-1"; "b-2"]) as (s' & w' & tr & Hx & Hs) by (eexists _, _, _; split; [executes_logged|reflexivity]).
  exists s', w', tr. split; [exact Hx|]. split; [exact Hs|].
  destruct (relayOnce_correct OutboxDemo.env mem_tables still tt (mem_of OutboxDemo.t0) _ _ _ _ eq_refl Hx)
    as (bs & now & tx & before & after & Ho & Hb & _ & Htr & Hn & Ha).
  exists bs, now, tx, before, after. split; [exact Ho|]. split; [exact Hb|]. split; [exact Htr|]. split; [exact Hn|exact Ha].
Defined.

(** Two ticks overlap; the shutdown waits for the second. *)
Definition overlapping : relay := on_interval (on_interval (set_timer true {| relay_timer := false; relay_started := 0; relay_currentTick := None; relay_settled := [] |})).

Lemma relay_shutdown_witness :
  ∃ s', exec OutboxDemo.env (rtc relay_event) RelayLifecycle.onModuleDestroy overlapping (mem_of empty_tables) (Ok tt) s' (mem_of empty_tables) ∧
    relay_settled s' = [1%nat] ∧ 1%nat ∈ relay_settled s'.
Proof.
  assert (exec OutboxDemo.env (rtc relay_event) RelayLifecycle.onModuleDestroy overlapping (mem_of empty_tables) (Ok tt)
            (tick_settles 1 (set_timer false overlapping)) (mem_of empty_tables)) as Hx.
  { exists (tick_settles 1 (set_timer false overlapping)), tt. split; [|done].
    apply rtc_once, ev_settles; simpl; [lia|by apply not_elem_of_nil]. }
  eexists. split; [exact Hx|]. split; [reflexivity|].
  exact (proj2 (proj2 (proj2 (relay_shutdown OutboxDemo.env overlapping (mem_of empty_tables) (Ok tt) _ _ Hx)))).
Defined.

(** The shutdown can return while an earlier tick is still running: the hook
    awaits only the latest one. *)
Example earlier_tick_not_awaited :
  ∃ s', exec OutboxDemo.env (rtc relay_event) RelayLifecycle.onModuleDestroy overlapping (mem_of empty_tables) (Ok tt) s' (mem_of empty_tables) ∧
    (0 < relay_started s')%nat ∧ 0%nat ∉ relay_settled s'.
Proof.
  exists (tick_settles 1 (set_timer false overlapping)). split; [|split; [simpl; lia|simpl; set_solver]].
  exists (tick_settles 1 (set_timer false overlapping)), tt. split; [|done].
  apply rtc_once, ev_settles; simpl; [lia|by apply not_elem_of_nil].
Qed.
