(* ===== verification/BuildConsumer.v ===== *)
(** * The build queue's consumer (src/build/build-stream-consumer.service.ts)

    [BuildStreamConsumerService]: the consumer group, the loop that first
    reclaims abandoned messages and then reads one new message, and the handler
    of a message, whose acknowledgement is the last thing it does. *)

From S2P Require Import Prelude Json JsonText Prog Services Percentile Database Schema Auth Registry Dispatch Functions Storage Build Outbox.

Definition BUILD_CONSUMER_GROUP : string := "build-workers".
Definition BUILD_BLOCK_MS : Z := 2000.
Definition BUILD_CLAIM_IDLE_MS : Z := 30000.

(** [`build-worker-${process.pid}-${crypto.randomUUID().slice(0, 8)}`] *)
Definition build_consumer_name (pid : Z) (uuid : string) : string :=
  "build-worker-" +:+ string_of_Z pid +:+ "-" +:+ slice_to 8 uuid.

(** [!(err instanceof Error) || !err.message.includes('BUSYGROUP')] *)
Definition not_busygroup (err : exn) : bool := negb (is_Error err) || negb (str_includes "BUSYGROUP" (err_message err)).

(** The process-local state of the service. *)
Record consumer := { running : bool; loop_ended : bool }.
Definition set_running (b : bool) (s : consumer) : consumer := {| running := b; loop_ended := loop_ended s |}.
Definition end_loop (s : consumer) : consumer := {| running := running s; loop_ended := true |}.

Module BuildStreamConsumerService.
Section handler.
Context {S : Type} {EX : BuildExecutor S} (consumer_name : string).

Definition ensureConsumerGroup : prog ev S unit :=
  try_catch (redis (XgroupCreate BUILD_STREAM_KEY BUILD_CONSUMER_GROUP "$" true))
    (λ err, if not_busygroup err then Throw err else Ret tt).

Definition handleMessage (messageId : string) (fields : list string) : prog ev S unit :=
  let buildId := field_get fields "buildId" in
  try_catch
    (build ← match buildId with
             | Some id => db (BuildFindUniqueOrThrow id)
             | None => Throw (JsError "PrismaClientValidationError")
             end;
     _ ← (if bool_decide (build_status build = SUCCESS ∨ build_status build = FAILED) then
            logger_log ("Build " +:+ default "undefined" buildId +:+ " already " +:+ build_status_string (build_status build) +:+
                        " - skipping redelivered message " +:+ messageId)
          else BuildService.runBuild build);
     _ ← redis (Xack BUILD_STREAM_KEY BUILD_CONSUMER_GROUP messageId);
     Ret tt)
    (λ err, logger_error ("Failed handling build message " +:+ messageId +:+ ": " +:+ err_message err)).

Definition readAndProcessOnce : prog ev S unit :=
  response ← redis (Xreadgroup BUILD_CONSUMER_GROUP consumer_name 1 BUILD_BLOCK_MS BUILD_STREAM_KEY);
  match response with
  | None => Ret tt
  | Some [] => Throw (JsError "undefined is not iterable")
  | Some ((_, messages) :: _) => for_each messages (λ m, handleMessage m.1 m.2)
  end.

Definition reclaimAbandonedMessages : prog ev S unit :=
  claimIdleMs ← env_number "BUILD_CLAIM_IDLE_MS" BUILD_CLAIM_IDLE_MS;
  claimed ← redis (Xautoclaim BUILD_STREAM_KEY BUILD_CONSUMER_GROUP consumer_name claimIdleMs "0");
  for_each claimed.2 (λ m,
    _ ← logger_warn ("Reclaimed abandoned message " +:+ m.1 +:+ " (idle > " +:+
                     string_of_num claimIdleMs +:+ "ms)");
    handleMessage m.1 m.2).

(** The body of the loop, its [catch] included. *)
Definition iteration : prog ev S unit :=
  try_catch (_ ← reclaimAbandonedMessages; readAndProcessOnce)
    (λ err, logger_error ("Consumer loop iteration failed: " +:+ err_message err)).
End handler.

Section lifecycle.
Context {EX : BuildExecutor consumer} (consumer_name : string).

(** The first [n] iterations of [while (this.running)]. *)
Fixpoint loop (n : nat) : prog ev consumer unit :=
  match n with
  | O => Ret tt
  | Datatypes.S n' =>
      go ← gets running;
      if go : bool then _ ← iteration consumer_name; loop n' else modify end_loop
  end.

(** [this.loopPromise = this.loop()] starts the loop without awaiting it. *)
Definition onModuleInit : prog ev consumer unit :=
  _ ← ensureConsumerGroup;
  modify (set_running true).

Definition onModuleDestroy : prog ev consumer unit :=
  _ ← modify (set_running false);
  Wait (λ s, if loop_ended s then Some tt else None) Ret.
End lifecycle.
End BuildStreamConsumerService.
Import BuildStreamConsumerService.

(** ** Lemmas *)

Definition terminal (b : Build) : Prop := build_status b = SUCCESS ∨ build_status b = FAILED.

(** The message ids a history acknowledged. *)
Definition acked (tr : list entry) : list string :=
  omap (λ en : entry, match entry_call en with
             | Redis (Xack key group id) =>
                 if decide (key = BUILD_STREAM_KEY ∧ group = BUILD_CONSUMER_GROUP) then Some id else None
             | _ => None
             end) tr.

(** Programs that never throw, whatever the services answer. *)
Fixpoint never_throws {S A} (p : prog ev S A) : Prop :=
  match p with
  | Ret _ => True
  | Throw _ => False
  | St f k => ∀ x, never_throws (k x)
  | Do e k => ∀ r, never_throws (k r)
  | Wait g k => ∀ x, never_throws (k x)
  end.

Lemma never_throws_bind {S A B} (f : A → prog ev S B) (p : prog ev S A) :
  never_throws p → (∀ a, never_throws (f a)) → never_throws (bind f p).
Proof. intros Hp Hf. induction p; simpl in *; naive_solver. Qed.

Lemma never_throws_try {S A} (p : prog ev S A) h : (∀ x, never_throws (h x)) → never_throws (try_catch p h).
Proof. intros Hh. induction p; simpl in *; auto. Qed.

Lemma never_throws_exec {S W A} (env : Env ev W) R (p : prog ev S A) s w o s' w' :
  never_throws p → exec env R p s w o s' w' → ∃ a, o = Ok a.
Proof. intros Hp. revert s w. induction p; intros s0 w0; simpl in *; naive_solver. Qed.

Lemma handleMessage_never_throws {S} {EX : BuildExecutor S} m fields : never_throws (handleMessage m fields).
Proof. by apply never_throws_try. Qed.

Lemma iteration_never_throws {S} {EX : BuildExecutor S} name : never_throws (iteration name).
Proof. by apply never_throws_try. Qed.

(** ** Properties *)

Lemma acked_app a b : acked (a ++ b) = acked a ++ acked b.
Proof. unfold acked. apply omap_app. Qed.

Definition not_ack X (e : ev X) : Prop := match e with Redis (Xack _ _ _) => False | _ => True end.

Lemma acked_none tr : Forall (λ en : entry, not_ack _ (entry_call en)) tr → acked tr = [].
Proof.
  induction 1 as [|[X e r] tr He _ IH]; [done|]. simpl in *.
  destruct e as [| |X e|X e|X e|X e|X e]; try exact IH. by destruct e.
Qed.

Lemma runBuild_no_ack {S} {EX : BuildExecutor S} b : only not_ack (BuildService.runBuild b).
Proof.
  unfold BuildService.runBuild, BuildService.nextVersionNumber, logger_log, logger_warn.
  repeat first [eapply only_mono, build_calls; by intros ? [? []| | | | | |] | only_calls].
Qed.

(** A terminal status of the row that [update_where] patched. *)
Lemma find_patched bid p t b vs :
  find_build bid t = Some b →
  find_build bid (set_builds (update_where (λ x, bool_decide (build_id x = bid)) (patch_build p) (t_builds t)) vs) = Some (patch_build p b).
Proof.
  unfold find_build. simpl. induction (t_builds t) as [|x l IH]; simpl; [done|].
  case_bool_decide as Hx; simpl; intros Hf.
  - injection Hf as <-. by rewrite bool_decide_eq_true_2.
  - rewrite bool_decide_eq_false_2 by done. by apply IH.
Qed.

Section consumer_properties.
Context {S W : Type} (env : Env ev W) (view : W → tables) `{DBE : !DbEnv env view} (R : S → S → Prop) {EX : BuildExecutor S}.

(** What an attempt leaves when it returns: the build is terminal. *)
Lemma attempt_terminal b t t' :
  find_build (build_id b) t = Some b →
  ((∃ v now, built b v now t t') ∨ (∃ message now, build_failed b message now t t')) →
  ∃ b', find_build (build_id b) t' = Some b' ∧ terminal b'.
Proof.
  intros Hf [(v & now & -> & _)|(message & now & ->)]; eexists; (split; [by apply find_patched|]); [by left|by right].
Qed.

(** The handling of one message: not acknowledged, and nothing changed; or
    acknowledged last, the build then being terminal. *)
Definition handled (m : string) (fields : list string) (t t' : tables) (tr : list entry) : Prop :=
  (acked tr = [] ∧ t' = t) ∨
  ∃ id b b' before r logs,
    field_get fields "buildId" = Some id ∧ find_build id t = Some b ∧ find_build id t' = Some b' ∧ terminal b' ∧
    tr = before ++ Entry (Redis (Xack BUILD_STREAM_KEY BUILD_CONSUMER_GROUP m)) r :: logs ∧
    acked before = [] ∧ Forall (λ en : entry, match entry_call en with Sys (Log _ _) => True | _ => False end) logs ∧
    (terminal b → t' = t ∧ length before = 2%nat) ∧
    (¬ terminal b → (∃ v now, built b v now t t') ∨ (∃ message now, build_failed b message now t t')).

(** Reporting a failure: nothing is acknowledged. *)
Lemma report_spec m fields w tr1 w1 x (s1 : S) :
  acked tr1 = [] → view w1 = view w →
  wp (logged env) R (logger_error x) s1 (w1, tr1) (λ o _ w', o = Ok tt ∧ handled m fields (view w) (view w'.1) w'.2).
Proof.
  intros Ha Hv [] [w2 tr2] s2 [He Ht] _. simpl in He, Ht. subst tr2. apply db_env in He. simpl in He.
  split; [done|]. left. cbn [fst snd]. rewrite acked_app, Ha. split; [done|]. congruence.
Qed.

(** The acknowledgement, once the build has ended; if it rejects, that is logged. *)
Lemma ack_spec m fields w id b before (s2 : S) w2 b' :
  field_get fields "buildId" = Some id → find_build id (view w) = Some b →
  acked before = [] → find_build id (view w2) = Some b' → terminal b' →
  (terminal b → view w2 = view w ∧ length before = 2%nat) →
  (¬ terminal b → (∃ v now, built b v now (view w) (view w2)) ∨ (∃ message now, build_failed b message now (view w) (view w2))) →
  wp (logged env) R (_ ← redis (Xack BUILD_STREAM_KEY BUILD_CONSUMER_GROUP m); Ret tt) s2 (w2, before) (λ o s' w', match o with
    | Ok a => Ok a = Ok tt ∧ handled m fields (view w) (view w'.1) w'.2
    | Err x => wp (logged env) R (logger_error ("Failed handling build message " +:+ m +:+ ": " +:+ err_message x)) s' w'
        (λ o _ w', o = Ok tt ∧ handled m fields (view w) (view w'.1) w'.2) end).
Proof.
  intros Hid Hb Hbef Hb' Ht' Hterm Hrun. apply wp_logged_redis with (view := view); [done|].
  intros r s3 w3 Hv3. destruct r as [z|x]; cbn [wp].
  - split; [done|]. right. rewrite Hid. cbn [fst snd]. rewrite Hv3. by exists id, b, b', before, (Ok z), [].
  - intros [] [w4 tr4] s4 [He Ht] _. simpl in He, Ht. subst tr4. apply db_env in He. simpl in He.
    split; [done|]. right. cbn [fst snd]. rewrite He, Hv3.
    eexists id, b, b', before, (Err x), [Entry (Sys (Log "error" _)) tt].
    split_and!; try done; first [by rewrite <- app_assoc | by repeat constructor].
Qed.

(** C17: at-least-once delivery is safe: handling a message never throws; the
    acknowledgement is its last call, and is sent only when the message's build
    exists and has ended; a redelivered message of a build that has already ended
    is acknowledged without running anything; a message whose handling failed
    half-way is not acknowledged and has changed nothing. *)
Theorem handleMessage_correct m fields s w o s' w' tr :
  exec (logged env) R (handleMessage m fields) s (w, []) o s' (w', tr) →
  o = Ok tt ∧ handled m fields (view w) (view w') tr.
Proof.
  intros Hx. apply (exec_wp _ _ _ _ _ _ _ _ (λ o _ w', o = Ok tt ∧ handled m fields (view w) (view w'.1) w'.2) Hx). clear Hx.
  pose proof (report_spec m fields w) as Hfail.
  unfold handleMessage. destruct (field_get fields "buildId") as [id|] eqn:Hid.
  2: { apply (Hfail [] w); done. }
  apply wp_try, wp_logged_db with (view := view); [done|]. intros r1 s1 w1 Hr1. cbn [app].
  destruct r1 as [b|x].
  2: { apply Hfail; [done|]. by apply db_spec_err in Hr1. }
  assert (find_build id (view w) = Some b ∧ view w1 = view w ∧ build_id b = id) as (Hb & Hv1 & Hbid).
  { destruct Hr1 as [(draw & now & _ & Hr)|(y & _ & Hr & _)]; [|done]. simpl in Hr.
    destruct (find_build id (view w)) as [b0|] eqn:Hf; [|done]. simplify_eq. split_and!; [done..|].
    unfold find_build in Hf. by apply find_bd_Some in Hf as [_ ?]. }
  apply wp_bind. case_bool_decide as Hterm.
  - intros [] [w2 tr2] s2 [He Ht] _. simpl in He, Ht. subst tr2. apply db_env in He. simpl in He. cbn [wp].
    assert (view w2 = view w) as Hv2 by congruence.
    apply (ack_spec m fields w id b _ s2 w2 b); rewrite ?Hv2; try done.
  - apply wp_exec. intros o2 s2 [w2 tr2] Hx.
    pose proof (only_logged not_ack env R _ _ _ _ _ _ _ _ (runBuild_no_ack b) Hx) as (calls & -> & Hcalls).
    assert (acked ([Entry (Db (BuildFindUniqueOrThrow id)) (Ok b)] ++ calls) = []) as Hna.
    { rewrite acked_app, (acked_none calls Hcalls). done. }
    apply (runBuild_spec (logged env) (λ v, view v.1) R b _ (w1, _)) in Hx. unfold attempt_end in Hx. cbn [fst] in Hx. rewrite Hv1 in Hx.
    destruct o2 as [[]|x].
    + destruct (attempt_terminal b (view w) (view w2)) as (b' & Hb' & Ht'); [by rewrite Hbid|done|].
      rewrite Hbid in Hb'. by apply (ack_spec m fields w id b _ s2 w2 b').
    + destruct Hx as [Hv _]. by apply Hfail.
Qed.
End consumer_properties.

(** The requests to reclaim abandoned messages in a history. *)
Definition reclaims (tr : list entry) : nat :=
  length (List.filter (λ en : entry, match entry_call en with Redis (Xautoclaim _ _ _ _ _) => true | _ => false end) tr).

Lemma reclaims_app a b : reclaims (a ++ b) = (reclaims a + reclaims b)%nat.
Proof. unfold reclaims. by rewrite List.filter_app, length_app. Qed.

Definition not_reclaim X (e : ev X) : Prop := match e with Redis (Xautoclaim _ _ _ _ _) => False | _ => True end.

Lemma reclaims_none tr : Forall (λ en : entry, not_reclaim _ (entry_call en)) tr → reclaims tr = 0%nat.
Proof.
  induction 1 as [|[X e r] tr He _ IH]; [done|]. unfold reclaims in *. simpl in *.
  destruct e as [| |X e|X e|X e|X e|X e]; try exact IH. by destruct e.
Qed.

Lemma handleMessage_no_reclaim {S} {EX : BuildExecutor S} m fields : only not_reclaim (handleMessage m fields).
Proof.
  unfold handleMessage, BuildService.runBuild, BuildService.nextVersionNumber, logger_log, logger_warn, logger_error.
  repeat first [eapply only_mono, build_calls; by intros ? [? []| | | | | |] | only_calls].
Qed.

Section loop_properties.
Context (R : consumer → consumer → Prop) {EX : BuildExecutor consumer} (consumer_name : string).

Lemma history_only {S A} (P : ∀ X, ev X → Prop) (R' : S → S → Prop) (p : prog ev S A) s tr o s' tr' :
  only P p → exec (history_env ev) R' p s tr o s' tr' → ∃ calls, tr' = tr ++ calls ∧ Forall (λ en : entry, P _ (entry_call en)) calls.
Proof.
  intros Hp Hx. apply (only_preserves P (history_env ev) R' (λ v, ∃ calls, v = tr ++ calls ∧ Forall (λ en : entry, P _ (entry_call en)) calls)
    p s tr o s' tr'); try done; [|by exists []; rewrite app_nil_r].
  intros X e v r v' He -> (calls & -> & Hall). exists (calls ++ [Entry e r]).
  rewrite app_assoc. split; [done|]. apply Forall_app. by repeat constructor.
Qed.

(** An iteration asks once for abandoned messages, and never throws. *)
Lemma iteration_spec s tr :
  wp (history_env ev) R (iteration consumer_name) s tr (λ o _ tr', o = Ok tt ∧ reclaims tr' = Datatypes.S (reclaims tr)).
Proof.
  assert (∀ {A} (p : prog ev consumer A) s1 tr1, only not_reclaim p →
    wp (history_env ev) R p s1 tr1 (λ _ _ tr2, reclaims tr2 = reclaims tr1)) as Hquiet.
  { intros A p s1 tr1 Hp. apply wp_exec. intros o s' tr' Hx. destruct (history_only _ _ _ _ _ _ _ _ Hp Hx) as (calls & -> & Hc).
    rewrite reclaims_app, (reclaims_none calls Hc). lia. }
  unfold iteration. apply wp_try.
  apply (wp_mono _ _ _ _ _ (λ _ _ tr', reclaims tr' = Datatypes.S (reclaims tr))).
  2: { intros [[]|x] s1 tr1 Hr; [done|]. apply wp_hist_sys. intros []. split; [done|].
       rewrite reclaims_app, Hr. unfold reclaims at 2. simpl. lia. }
  apply wp_bind. unfold reclaimAbandonedMessages, env_number. apply wp_bind, wp_hist_sys. intros v.
  cbn [wp]. apply wp_hist. intros r s1.
  assert (reclaims ((tr ++ [Entry (Sys (ProcessEnv "BUILD_CLAIM_IDLE_MS")) v]) ++
    [Entry (Redis (Xautoclaim BUILD_STREAM_KEY BUILD_CONSUMER_GROUP consumer_name (match v with Some t => Number t | None => Some BUILD_CLAIM_IDLE_MS end) "0")) r])
    = Datatypes.S (reclaims tr)) as Hone.
  { rewrite !reclaims_app. unfold reclaims at 2 3. simpl. lia. }
  destruct r as [cl|x]; [|exact Hone].
  eapply wp_mono; [apply Hquiet|].
  - apply only_for_each. intros msg. apply only_bind; [by split|]. intros _. apply handleMessage_no_reclaim.
  - intros [[]|x] s2 tr2 H2; rewrite Hone in H2; [|done]. rewrite <- H2. apply Hquiet. unfold readAndProcessOnce.
    apply only_bind; [by split; [|apply only_outcome]|]. intros [[|[key ms] l]|]; [done| |done].
    apply only_for_each. intros msg. apply handleMessage_no_reclaim.
Qed.

(** C31: nothing the services answer kills the consumer: whatever Redis, the
    database and the executor do, its loop never throws; it stops only after a
    shutdown request, and otherwise its [n]-th iteration has happened after [n]
    requests for abandoned messages. *)
Theorem loop_survives n s o s' tr :
  exec (history_env ev) R (loop consumer_name n) s [] o s' tr →
  o = Ok tt ∧ ((running s' = false ∧ loop_ended s' = true ∧ (reclaims tr < n)%nat) ∨ reclaims tr = n).
Proof.
  intros Hx. apply (exec_wp _ _ _ _ _ _ _ _ (λ o s' tr', o = Ok tt ∧
    ((running s' = false ∧ loop_ended s' = true ∧ (reclaims tr' < reclaims [] + n)%nat) ∨ (reclaims tr' = reclaims [] + n)%nat)) Hx).
  clear Hx. generalize (@nil entry). revert s. induction n as [|n IH]; intros s tr0.
  { split; [done|]. right. lia. }
  cbn [loop gets mbind prog_mbind bind wp fst snd]. destruct (running s) eqn:Hrun.
  - apply wp_bind. eapply wp_mono; [apply iteration_spec|]. intros o1 s1 tr1 [-> Hr1].
    eapply wp_mono; [apply IH|]. intros o2 s2 tr2 [-> H2]. split; [done|]. rewrite Hr1 in H2.
    destruct H2 as [(?&?&?)|?]; [left|right]; [split_and!; [done..|lia]|lia].
  - simpl. split; [done|]. left. split_and!; [done..|lia].
Qed.
End loop_properties.

(** ** Concrete executions *)

Module BuildConsumerDemo.
(** Redis hands out one message of build [b-7], once. *)
Definition script : ∀ X, ev X → mem → X :=
  λ X e w, match e in ev X return X with
         | Redis e' => match e' in redis_eff X return outcome X with
                       | Xreadgroup _ _ _ _ key => Ok (Some [(key, [("1-0", ["buildId"; "b-7"])])])
                       | Xautoclaim _ _ _ _ _ => Ok ("0-0", [])
                       | Xack _ _ _ => Ok 1%Z
                       | _ => down
                       end
         | e => BuildDemo.script _ e
         end.
Definition handler : handler ev mem := mem_env script.
Definition on : consumer := {| running := true; loop_ended := false |}.
(** Another task asks for the shutdown during the first iteration. *)
Definition stop (s : consumer) : consumer := set_running false s.
Definition delivery : prog ev unit unit :=
  handleMessage (EX := local_docker_executor BuildDemo.storage (TMP := BuildDemo.tmp)) "1-0" ["buildId"; "b-7"].
(** Two handlers of the same delivery, one call each in turn. *)
Definition sched : list (option nat) := [None; None] ++ concat (replicate 13 [Some 0%nat; Some 1%nat]) ++ [Some 1%nat; Some 1%nat].
End BuildConsumerDemo.
#[local] Existing Instance BuildDemo.tmp.

Lemma handleMessage_correct_witness :
  ∃ s' w' tr,
    exec (logged (env_of BuildConsumerDemo.handler)) still
      (handleMessage (EX := local_docker_executor BuildDemo.storage) "1-0" ["buildId"; "b-7"]) tt (BuildDemo.world, []) (Ok tt) s' (w', tr) ∧
    acked tr = ["1-0"] ∧ build_status <$> t_builds (mem_tables w') = [SUCCESS] ∧
    handled "1-0" ["buildId"; "b-7"] (mem_tables BuildDemo.world) (mem_tables w') tr.
Proof.
  eexists _, _, _. split; [executes_logged|]. split; [reflexivity|]. split; [reflexivity|].
  eapply (handleMessage_correct (env_of BuildConsumerDemo.handler) mem_tables still
    (EX := local_docker_executor BuildDemo.storage) "1-0" ["buildId"; "b-7"] tt BuildDemo.world (Ok tt)). executes_logged.
Defined.

Lemma loop_survives_witness :
  ∃ s' tr,
    exec (history_env ev) (λ _ s', s' = BuildConsumerDemo.stop s')
      (loop (EX := local_docker_executor BuildDemo.storage) "build-worker-1" 5) BuildConsumerDemo.on [] (Ok tt) s' tr ∧
    reclaims tr = 1%nat ∧ (running s' = false ∧ loop_ended s' = true ∧ (reclaims tr < 5)%nat ∨ reclaims tr = 5%nat).
Proof.
  assert (∃ s' tr, exec (history_env ev) (λ _ s', s' = BuildConsumerDemo.stop s')
      (loop (EX := local_docker_executor BuildDemo.storage) "build-worker-1" 5) BuildConsumerDemo.on [] (Ok tt) s' tr ∧ reclaims tr = 1%nat) as H.
  { eexists _, _. split; [|].
    - eapply scripted_history, (run_among_exec BuildConsumerDemo.stop (scripted (λ X e _, BuildConsumerDemo.script X e BuildDemo.world)));
        [done|vm_compute; reflexivity].
    - reflexivity. }
  destruct H as (s' & tr & Hx & Hr). exists s', tr. split; [exact Hx|]. split; [exact Hr|].
  apply (loop_survives (λ _ s', s' = BuildConsumerDemo.stop s') (EX := local_docker_executor BuildDemo.storage)
    "build-worker-1" 5 BuildConsumerDemo.on (Ok tt) s' tr Hx).
Defined.

(** Two consumers that handle the same delivery (a slow build is reclaimed after
    30 s of idle time while its executor may poll for 300 s): the second marks the
    build FAILED although the first has recorded its version and its success. *)
Example duplicate_delivery_ends_failed :
  ∃ ps w',
    rtc (pstep (env_of BuildConsumerDemo.handler) (λ p, p = BuildConsumerDemo.delivery)) ([], BuildDemo.world) (ps, w') ∧
    length ps = 2%nat ∧ build_status <$> t_builds (mem_tables w') = [FAILED] ∧
    build_imageTag <$> t_builds (mem_tables w') = [Some "mini-cloud-fn-hello:4"] ∧
    "mini-cloud-fn-hello:4" ∈ map ver_imageTag (t_versions (mem_tables w')).
Proof.
  assert ((λ st, (length st.1, build_status <$> t_builds (mem_tables st.2), build_imageTag <$> t_builds (mem_tables st.2),
      bool_decide ("mini-cloud-fn-hello:4" ∈ map ver_imageTag (t_versions (mem_tables st.2))))) <$>
      run_pool BuildConsumerDemo.handler BuildConsumerDemo.delivery BuildConsumerDemo.sched ([], BuildDemo.world)
    = Some (2%nat, [FAILED], [Some "mini-cloud-fn-hello:4"], true)) as Hrun by (vm_compute; reflexivity).
  destruct (run_pool _ _ _ _) as [[ps w]|] eqn:E; cbn [fmap option_fmap option_map fst snd] in Hrun; [|done].
  injection Hrun as Hl Hs Hi Hin. exists ps, w. split; [|clear E; split; [exact Hl|]; split; [exact Hs|]; split; [exact Hi|]].
  - eapply run_pool_steps; [intros * H; exact H|exact eq_refl|exact E].
  - apply bool_decide_eq_true in Hin. exact Hin.
Qed.
