(* ===== verification/Container.v ===== *)
(** * The container runtime (src/containerExecutor.ts)

    [runIsolatedContainer] and its two entry points: one throwaway container per
    invocation, its isolation flags, the kill timer, the classification of its
    end, and the scratch directory that carries the event in and the result out. *)

From Stdlib Require Import Ascii.
From S2P Require Import Prelude Json JsonText Prog Services Percentile Database Schema Storage Build.
#[local] Open Scope Z_scope.

(** [ExecuteOptions]: an absent field is [None]; a present number may be NaN. The
    CPU share is kept as the text JavaScript prints for it. *)
Record ExecuteOptions := {
  opt_timeoutMs : option (option Z); opt_memoryMb : option (option Z); opt_cpus : option string }.

(** The working directory of the process. *)
Class Cwd := cwd : string.

(** [path.resolve(p)]: an absolute path without [.], [..] and empty segments. *)
Definition resolve_segment (acc : list string) (seg : string) : list string :=
  if bool_decide (seg = EmptyString ∨ seg = ".") then acc
  else if bool_decide (seg = "..") then removelast acc
  else acc ++ [seg].
Definition path_resolve {CWD : Cwd} (p : string) : string :=
  let full := if startsWith "/" p then p else cwd +:+ "/" +:+ p in
  "/" +:+ join "/" (foldl resolve_segment [] (split_on "/" full)).

(** The delay [setTimeout(f, n)] arms: out of range or NaN is 1 ms. *)
Definition setTimeout_ms (n : option Z) : Z :=
  match n with Some k => if (1 <=? k) && (k <=? 2147483647) then k else 1 | None => 1 end.

(** An exception that leaves a callback is uncaught: it ends the process, and
    nothing the callback should have settled ever settles. *)
Definition in_callback {S A} (p : prog ev S A) : prog ev S A :=
  try_catch p (λ _, Wait (λ _, None) Ret).

Definition RUNTIME_IMAGE : string := "mini-cloud-runtime:latest".

Definition docker_args (containerName : string) (memoryMb : option Z) (cpus : string)
    (mounts : list string) (outputDir image : string) : list string :=
  ["run"; "--rm"; "--name"; containerName;
   "--network"; "none"; "--read-only"; "--tmpfs"; "/tmp:size=16m"; "--user"; "1000:1000";
   "--cap-drop"; "ALL"; "--security-opt"; "no-new-privileges"; "--pids-limit"; "64";
   "--memory"; string_of_num memoryMb +:+ "m"; "--memory-swap"; string_of_num memoryMb +:+ "m";
   "--cpus"; cpus] ++ mounts ++ ["-v"; outputDir +:+ ":/output"; image].

Section container.
Context `{JC : JsonCodec} {TMP : OsTmpdir} {CWD : Cwd} {S : Type}.

(** The [close] listener. *)
Definition on_close (start : Z) (outputDir stderr : string) (exitCode : option Z) : prog ev S json :=
  now ← sys DateNow;
  let durationMs := now - start in
  let resultPath := path_join outputDir "result.json" in
  exists_ ← fs (ExistsSync resultPath);
  if exists_ : bool then
    text ← fs (ReadFileSync resultPath);
    match JSON_parse text with
    | None => Throw (JsError "Unexpected token in JSON")
    | Some shimOutcome => Ret (JObj (json_set "durationMs" (JNum durationMs) (json_fields shimOutcome)))
    end
  else if bool_decide (exitCode = Some 137) then
    Ret (JObj [("status", JStr "timeout"); ("durationMs", JNum durationMs)])
  else
    Ret (JObj [("status", JStr "error");
               ("error", JStr ("Container exited with code " +:+ string_of_code exitCode +:+
                               " before producing a result. stderr: " +:+ slice_to 500 stderr));
               ("durationMs", JNum durationMs)]).

(** The promise around [spawn]: the callbacks in the order they run. The timer
    fires at most once, and not after [close] cleared it. *)
Fixpoint listen (containerName outputDir : string) (start : Z) (timer : bool) (stderr : string)
    (evs : list process_event) : prog ev S json :=
  match evs with
  | [] => Wait (λ _, None) Ret
  | StderrData chunk :: evs' => listen containerName outputDir start timer (stderr +:+ chunk) evs'
  | TimerFired :: evs' =>
      if timer then
        _ ← in_callback (fs (SpawnDetached "docker" ["kill"; containerName]));
        listen containerName outputDir start false stderr evs'
      else listen containerName outputDir start timer stderr evs'
  | Close exitCode :: _ => in_callback (on_close start outputDir stderr exitCode)
  end.

Definition runIsolatedContainer (image : string) (extraMounts : string → list string) (event : option json)
    (options : ExecuteOptions) : prog ev S json :=
  let timeoutMs := default (Some 3000) (opt_timeoutMs options) in
  let memoryMb := default (Some 128) (opt_memoryMb options) in
  let cpus := default "0.5" (opt_cpus options) in
  start ← sys DateNow;
  scratch ← sys (ProcessEnv "HOST_SCRATCH_DIR");
  let scratchRoot := default os_tmpdir (truthy scratch) in
  workDir ← fs (MkdtempSync (path_join scratchRoot "mini-cloud-"));
  let eventPath := path_join workDir "event.json" in
  let outputDir := path_join workDir "output" in
  _ ← fs (MkdirSync outputDir);
  _ ← fs (ChmodSync outputDir 511);
  _ ← fs (WriteFileSync eventPath (JSON_stringify (or_empty_object event)));
  uuid ← sys RandomUUID;
  let containerName := "mini-cloud-" +:+ uuid in
  let args := docker_args containerName memoryMb cpus (extraMounts eventPath) outputDir image in
  evs ← os (Spawn "docker" args None (Some (setTimeout_ms timeoutMs)));
  outcome ← listen containerName outputDir start true EmptyString evs;
  _ ← fs (RmSync workDir);
  Ret outcome.

Definition event_mount (eventPath : string) : list string := ["-v"; eventPath +:+ ":/var/task/event.json:ro"].

Definition executeInContainer (functionPath : string) (event : option json) (options : ExecuteOptions) : prog ev S json :=
  let absFunctionPath := path_resolve functionPath in
  runIsolatedContainer RUNTIME_IMAGE
    (λ eventPath, ["-v"; absFunctionPath +:+ ":/var/task/handler.js:ro"] ++ event_mount eventPath) event options.

Definition executeVersionedFunction (imageTag : string) (event : option json) (options : ExecuteOptions) : prog ev S json :=
  runIsolatedContainer imageTag event_mount event options.
End container.

(** ** Lemmas *)

#[export] Instance process_event_eq_dec : EqDecision process_event.
Proof. solve_decision. Defined.

Section lemmas.
Context `{JC : JsonCodec} {TMP : OsTmpdir} {CWD : Cwd}.

Lemma listen_calls {S} name dir start timer stderr evs :
  only outside_store (S := S) (listen name dir start timer stderr evs).
Proof.
  revert timer stderr. induction evs as [|[chunk| |code] evs IH]; intros timer stderr; cbn [listen].
  - done.
  - apply IH.
  - destruct timer; [|apply IH]. apply only_bind; [by unfold in_callback; only_calls|]. intros _. apply IH.
  - unfold in_callback, on_close. only_calls.
Qed.

(** Running a container touches neither the database nor Redis. *)
Lemma executeVersionedFunction_calls {S} image event options :
  only outside_store (S := S) (executeVersionedFunction image event options).
Proof.
  unfold executeVersionedFunction, runIsolatedContainer.
  repeat first [apply listen_calls | only_calls].
Qed.

Lemma listen_stateless {S} name dir start timer stderr evs : stateless (S := S) (listen name dir start timer stderr evs).
Proof.
  revert timer stderr. induction evs as [|[chunk| |code] evs IH]; intros timer stderr; cbn [listen]; [done|apply IH| |].
  - destruct timer; [|apply IH]. apply stateless_bind; [by unfold in_callback; no_state|]. intros _. apply IH.
  - unfold in_callback, on_close. no_state.
Qed.

Lemma executeVersionedFunction_stateless {S} image event options : stateless (S := S) (executeVersionedFunction image event options).
Proof.
  unfold executeVersionedFunction, runIsolatedContainer.
  repeat first [apply listen_stateless | no_state].
Qed.

(** The calls of the [close] listener and its outcome. *)
Definition closed (outputDir : string) (start : Z) (stderr : string) (code : option Z) (closing : list entry) (out : json) : Prop :=
  let resultPath := path_join outputDir "result.json" in
  ∃ now,
    (∃ text v, closing = [Entry (Sys DateNow) now; Entry (Fs (ExistsSync resultPath)) (Ok true); Entry (Fs (ReadFileSync resultPath)) (Ok text)] ∧
       JSON_parse text = Some v ∧ out = JObj (json_set "durationMs" (JNum (now - start)) (json_fields v))) ∨
    (closing = [Entry (Sys DateNow) now; Entry (Fs (ExistsSync resultPath)) (Ok false)] ∧
       if bool_decide (code = Some 137)
       then out = JObj [("status", JStr "timeout"); ("durationMs", JNum (now - start))]
       else out = JObj [("status", JStr "error");
               ("error", JStr ("Container exited with code " +:+ string_of_code code +:+
                               " before producing a result. stderr: " +:+ slice_to 500 stderr));
               ("durationMs", JNum (now - start))]).

Lemma stderr_of_cons chunk l : stderr_of (StderrData chunk :: l) = chunk +:+ stderr_of l.
Proof. unfold stderr_of. cbn [omap list_omap]. by rewrite join_nil_cons. Qed.

Lemma wp_callback {S A} (R : S → S → Prop) (p : prog ev S A) s tr (Q : outcome A → S → list entry → Prop) :
  wp (history_env ev) R p s tr (λ o s' tr', match o with Ok _ => Q o s' tr' | Err _ => True end) →
  wp (history_env ev) R (in_callback p) s tr Q.
Proof. intros H. apply wp_try. eapply wp_mono; [exact H|]. intros [a|x] s' tr' HQ; [done|]. by intros s1 x1 _ [=]. Qed.

(** The promise resolves with what the first [close] finds; the container was
    asked to be killed exactly if the timer fired before. *)
Lemma listen_spec {S} (R : S → S → Prop) name dir start evs : ∀ timer stderr s tr (Q : outcome json → S → list entry → Prop),
  (∀ pre code post closing out s', evs = pre ++ Close code :: post → (∀ c, Close c ∉ pre) →
     closed dir start (stderr +:+ stderr_of pre) code closing out →
     Q (Ok out) s' (tr ++ (if timer && bool_decide (TimerFired ∈ pre)
                           then [Entry (Fs (SpawnDetached "docker" ["kill"; name])) (Ok tt)] else []) ++ closing)) →
  wp (history_env ev) R (listen name dir start timer stderr evs) s tr Q.
Proof.
  induction evs as [|e evs IH]; intros timer stderr s tr Q HQ; [by intros s1 x _ [=]|].
  destruct e as [chunk| |code]; cbn [listen].
  - apply IH. intros pre code post closing out s' -> Hno Hc.
    replace (bool_decide (TimerFired ∈ pre)) with (bool_decide (TimerFired ∈ StderrData chunk :: pre)).
    + eapply HQ; [done| |]; [intros c [?|?]%elem_of_cons; [done|by eapply Hno]|]. by rewrite stderr_of_cons, str_app_assoc.
    + apply bool_decide_ext. rewrite elem_of_cons. naive_solver.
  - assert (∀ pre, stderr_of (TimerFired :: pre) = stderr_of pre) as Hsame by done.
    destruct timer.
    + apply wp_bind, wp_callback. cbn [fs call wp]. intros [[]|x] tr1 s1 -> _; [|done]. cbn [wp of_outcome]. apply IH.
      intros pre code post closing out s' -> Hno Hc. simpl.
      rewrite <- app_assoc. rewrite <- Hsame in Hc. specialize (HQ (TimerFired :: pre) code post closing out s').
      rewrite bool_decide_eq_true_2 in HQ by by left. simpl in HQ. apply HQ; [done| |done].
      intros c [?|?]%elem_of_cons; [done|by eapply Hno].
    + apply IH. intros pre code post closing out s' -> Hno Hc. eapply (HQ (TimerFired :: pre)); [done| |done].
      intros c [?|?]%elem_of_cons; [done|by eapply Hno].
  - apply wp_callback. unfold on_close. apply wp_hist_sys. intros now. apply wp_hist.
    intros [[]|x] s1; [| |done].
    + apply wp_hist. intros [text|x] s2; [|done]. destruct (JSON_parse text) as [v|] eqn:Hv; [|done]. cbn [wp].
      rewrite <- !app_assoc. specialize (HQ [] code evs). cbn [app] in HQ.
      rewrite bool_decide_eq_false_2, andb_false_r in HQ by apply not_elem_of_nil.
      apply HQ; [done|intros c; apply not_elem_of_nil|]. exists now. left. by exists text, v.
    + specialize (HQ [] code evs). cbn [app] in HQ.
      rewrite bool_decide_eq_false_2, andb_false_r in HQ by apply not_elem_of_nil.
      change (stderr_of []) with EmptyString in HQ. rewrite str_app_nil_r in HQ.
      case_bool_decide as Hcode; cbn [wp]; rewrite <- app_assoc; (apply HQ; [done|intros c; apply not_elem_of_nil|]);
        exists now; right; (split; [done|]); [by rewrite bool_decide_eq_true_2|by rewrite bool_decide_eq_false_2].
Qed.
End lemmas.

(** ** Properties *)

(** How the docker client reads the arguments of [docker run]: options up to the
    first argument that is none, which is the image; [--rm] and [--read-only] take
    no value, every other option the platform uses takes the next argument. *)
Fixpoint docker_parse (args : list string) (flags : list (string * string)) : option (list (string * string) * list string) :=
  match args with
  | [] => None
  | a :: args' =>
      if negb (startsWith "-" a) then Some (flags, a :: args')
      else if bool_decide (a = "--rm" ∨ a = "--read-only") then docker_parse args' (flags ++ [(a, "true")])
      else match args' with
           | v :: args'' => docker_parse args'' (flags ++ [(a, v)])
           | [] => None
           end
  end.

(** The values given for an option. *)
Definition option_values (name : string) (flags : list (string * string)) : list string :=
  omap (λ kv : string * string, if bool_decide (kv.1 = name) then Some kv.2 else None) flags.

Lemma docker_switch a rest flags :
  startsWith "-" a = true → bool_decide (a = "--rm" ∨ a = "--read-only") = true →
  docker_parse (a :: rest) flags = docker_parse rest (flags ++ [(a, "true")]).
Proof. intros Ha Hb. simpl. by rewrite Ha, Hb. Qed.

Lemma docker_option a v rest flags :
  startsWith "-" a = true → bool_decide (a = "--rm" ∨ a = "--read-only") = false →
  docker_parse (a :: v :: rest) flags = docker_parse rest (flags ++ [(a, v)]).
Proof. intros Ha Hb. simpl. by rewrite Ha, Hb. Qed.

(** Options by name, whatever their values. *)
Lemma options_among (names : list string) (flags : list (string * string)) :
  forallb (λ n, bool_decide (n ∈ names)) (map fst flags) = true → ∀ option value, (option, value) ∈ flags → option ∈ names.
Proof.
  intros Hall option value Hin. rewrite forallb_forall in Hall.
  specialize (Hall option). rewrite bool_decide_eq_true in Hall. apply Hall, list_elem_of_In. by apply (list_elem_of_fmap_2 fst _ (option, value)).
Qed.

(** Reads the arguments of a [docker_args] whose mounts are given. *)
Ltac read_docker_args Hi :=
  unfold docker_args, event_mount; cbn [tail app];
  repeat first [rewrite docker_switch by reflexivity | rewrite docker_option by reflexivity];
  cbn [docker_parse]; rewrite Hi; eexists; (split; [reflexivity|repeat apply conj; try reflexivity]).

(** What docker runs for a built version, and where it mounts the event and the report. *)
Lemma docker_runs image name memoryMb cpus eventPath outputDir :
  startsWith "-" image = false →
  ∃ flags, docker_parse (tail (docker_args name memoryMb cpus (event_mount eventPath) outputDir image)) [] = Some (flags, [image]) ∧
    option_values "-v" flags = [eventPath +:+ ":/var/task/event.json:ro"; outputDir +:+ ":/output"].
Proof. intros Hi. read_docker_args Hi. Qed.

(** A whole run: the setup, the process, the kill when the timer fired before
    the end, the listener's calls, and the removal of the scratch directory. *)
Definition container_run `{JC : JsonCodec} {TMP : OsTmpdir} (image : string) (mounts : string → list string) (event : option json)
    (options : ExecuteOptions) (out : json) (tr : list entry) : Prop :=
  ∃ start scratch workDir uuid pre code post closing,
    let eventPath := path_join workDir "event.json" in
    let outputDir := path_join workDir "output" in
    let name := "mini-cloud-" +:+ uuid in
    let args := docker_args name (default (Some 128) (opt_memoryMb options)) (default "0.5" (opt_cpus options))
                  (mounts eventPath) outputDir image in
    let ms := setTimeout_ms (default (Some 3000) (opt_timeoutMs options)) in
    tr = [Entry (Sys DateNow) start; Entry (Sys (ProcessEnv "HOST_SCRATCH_DIR")) scratch;
          Entry (Fs (MkdtempSync (path_join (default os_tmpdir (truthy scratch)) "mini-cloud-"))) (Ok workDir);
          Entry (Fs (MkdirSync outputDir)) (Ok tt); Entry (Fs (ChmodSync outputDir 511)) (Ok tt);
          Entry (Fs (WriteFileSync eventPath (JSON_stringify (or_empty_object event)))) (Ok tt);
          Entry (Sys RandomUUID) uuid;
          Entry (Os (Spawn "docker" args None (Some ms))) (Ok (pre ++ Close code :: post))]
         ++ (if bool_decide (TimerFired ∈ pre) then [Entry (Fs (SpawnDetached "docker" ["kill"; name])) (Ok tt)] else [])
         ++ closing ++ [Entry (Fs (RmSync workDir)) (Ok tt)] ∧
    (∀ c, Close c ∉ pre) ∧ closed outputDir start (stderr_of pre) code closing out.

(** The failing call that ended a run. *)
Definition failed_last (x : exn) (tr : list entry) : Prop :=
  ∃ before X (e : ev (outcome X)), tr = before ++ [Entry e (Err x)].

Section container_properties.
Context `{JC : JsonCodec} {TMP : OsTmpdir} {CWD : Cwd}.

Lemma container_spec {S} (R : S → S → Prop) image mounts event options s o s' tr :
  exec (history_env ev) R (runIsolatedContainer image mounts event options) s [] o s' tr →
  match o with
  | Ok out => container_run image mounts event options out tr
  | Err x => failed_last x tr
  end.
Proof.
  intros Hx. by_wp Hx. unfold runIsolatedContainer.
  assert (∀ x X (e : ev (outcome X)) l, failed_last x (l ++ [Entry e (Err x)])) as Hfail by (intros; by eexists _, _, _).
  apply wp_hist_sys. intros start. apply wp_hist_sys. intros scratch.
  apply wp_hist. intros [workDir|x] s1; [|apply Hfail].
  do 3 (apply wp_hist; intros [[]|?x] ?s; [|apply Hfail]).
  apply wp_hist_sys. intros uuid. apply wp_hist. intros [evs|x] s5; [|apply Hfail].
  apply wp_bind, listen_spec. intros pre code post closing out s6 -> Hno Hc. simpl in Hc.
  apply wp_hist. intros [[]|x] s7; [|apply Hfail]. cbn [wp].
  exists start, scratch, workDir, uuid, pre, code, post, closing. split; [|split; [done|exact Hc]].
  rewrite <- !app_assoc. reflexivity.
Qed.

(** C32: running a function in its container: the event is written before the
    container starts, one container is started, it is killed exactly when the
    timer fires before it ends, and the outcome is the one the container reported
    with the duration the host measured, [timeout] for an exit code 137 without
    a report, an error with the first 500 characters of standard error
    otherwise; the scratch directory is removed last.  A run throws only when a
    call of its own failed, as that call did. *)
Theorem container_correct {S} (R : S → S → Prop) image mounts event options s o s' tr :
  exec (history_env ev) R (runIsolatedContainer image mounts event options) s [] o s' tr →
  match o with
  | Ok out => container_run image mounts event options out tr
  | Err x => failed_last x tr
  end.
Proof. apply container_spec. Qed.

End container_properties.

(** An environment in which the file system works, every container ends, and
    every report is JSON. *)
Definition answers `{JC : JsonCodec} {X} (e : ev X) : X → Prop :=
  match e in ev X return X → Prop with
  | Fs e' => match e' in fs_eff X return outcome X → Prop with
             | ReadFileSync _ => λ r, ∃ text v, r = Ok text ∧ JSON_parse text = Some v
             | MkdtempSync _ | MkdirSync _ | ChmodSync _ _ | WriteFileSync _ _ | ExistsSync _ | RmSync _
             | SpawnDetached _ _ => λ r, is_Ok r = true
             end
  | Os e' => match e' in os_eff X return outcome X → Prop with
             | Spawn _ _ _ _ => λ r, ∃ evs, r = Ok evs ∧ ∃ code, Close code ∈ evs
             | SetTimeoutMs _ => λ _, True
             end
  | Db _ | Redis _ | Aws _ | Lib _ | Sys _ => λ _, True
  end.

Section container_total.
Context `{JC : JsonCodec} {TMP : OsTmpdir} {CWD : Cwd} {S W : Type} (h : handler ev W).
Hypothesis Hans : ∀ X (e : ev X) w, answers e (h X e w).1.

Lemma run_sys {X B} (e : sys_eff X) (f : X → prog ev S B) s w :
  run h (bind f (sys e)) s w = run h (f (h _ (Sys e) w).1) s (h _ (Sys e) w).2.
Proof. reflexivity. Qed.

Lemma run_call {X B} (e : ev (outcome X)) (f : X → prog ev S B) s w :
  run h (bind f (call e)) s w =
  match (h _ e w).1 with Ok a => run h (f a) s (h _ e w).2 | Err x => Some (Err x, s, (h _ e w).2) end.
Proof. simpl. by destruct (h _ e w).1. Qed.

Lemma run_try_ok {A} (p : prog ev S A) handle s w a s' w' :
  run h p s w = Some (Ok a, s', w') → run h (try_catch p handle) s w = Some (Ok a, s', w').
Proof. rewrite run_try. by intros ->. Qed.

Lemma fs_ok {X} (e : fs_eff X) w (s : S) : match e with ReadFileSync _ => False | _ => True end →
  ∃ a w', run h (fs e) s w = Some (Ok a, s, w').
Proof.
  intros He. simpl. pose proof (Hans _ (Fs e) w) as H. destruct (h _ (Fs e) w) as [r w']. simpl in *.
  assert (is_Ok r = true) as Hr by (destruct e; done). destruct r as [a|x]; [|done]. simpl. eauto.
Qed.

(** The next file-system call answers. *)
Tactic Notation "fs_step" simple_intropattern(a) simple_intropattern(w1) :=
  rewrite run_bind;
  match goal with |- context [run h (fs ?e) ?s ?v] => destruct (fs_ok e v s) as (a & w1 & ->); [done|]; cbv beta iota zeta end.

Lemma on_close_total start outputDir stderr code w (s : S) :
  ∃ out w', run h (on_close start outputDir stderr code) s w = Some (Ok out, s, w').
Proof.
  unfold on_close. unfold mbind, prog_mbind. rewrite run_sys. cbv beta zeta.
  fs_step ex w2. destruct ex.
  - unfold fs. rewrite run_call.
    match goal with |- context [h _ (Fs ?e) ?v] => pose proof (Hans _ (Fs e) v) as (text & r & -> & Hv) end.
    rewrite Hv. simpl. eauto.
  - case_bool_decide; simpl; eauto.
Qed.

Lemma listen_total name outputDir start evs : ∀ timer stderr w (s : S),
  (∃ code, Close code ∈ evs) → ∃ out w', run h (listen name outputDir start timer stderr evs) s w = Some (Ok out, s, w').
Proof.
  induction evs as [|e evs IH]; intros timer stderr w s [code Hc]; [by apply not_elem_of_nil in Hc|].
  destruct e as [chunk| |code']; cbn [listen].
  - apply IH. exists code. by apply elem_of_cons in Hc as [?|?].
  - assert (∃ code, Close code ∈ evs) as Hin by (exists code; by apply elem_of_cons in Hc as [?|?]).
    destruct timer; [|by apply IH]. unfold mbind, prog_mbind. rewrite run_bind. unfold in_callback.
    destruct (fs_ok (SpawnDetached "docker" ["kill"; name]) w s) as (u & w1 & Hr); [done|].
    rewrite (run_try_ok _ _ _ _ _ _ _ Hr). by apply IH.
  - destruct (on_close_total start outputDir stderr code' w s) as (out & w1 & Hr).
    exists out, w1. unfold in_callback. by apply run_try_ok.
Qed.

Lemma run_container_total image mounts event options (s : S) w :
  ∃ out w', run h (runIsolatedContainer image mounts event options) s w = Some (Ok out, s, w').
Proof.
  unfold runIsolatedContainer, mbind, prog_mbind. rewrite run_sys. cbv beta zeta. rewrite run_sys. cbv beta zeta.
  fs_step dir w1.
  fs_step u1 w2.
  fs_step u2 w3.
  fs_step u3 w4.
  rewrite run_sys. cbv beta iota zeta. unfold os. rewrite run_call.
  match goal with |- context [h _ (Os ?e) ?v] => pose proof (Hans _ (Os e) v) as (evs & -> & Hc) end. cbv beta iota zeta.
  rewrite run_bind.
  match goal with |- context [run h (listen ?n ?d ?st ?t ?er evs) s ?v] => destruct (listen_total n d st evs t er v s Hc) as (out & w6 & ->) end.
  cbv beta iota zeta.
  fs_step u4 w7. simpl. eauto.
Qed.
(** C34: a run always ends: when the file system works, the container's process
    ends (the kill timer sees to it) and its report, if any, is JSON, the run
    returns an outcome. *)
Theorem container_returns image mounts event options (s : S) w :
  ∃ out w', run h (runIsolatedContainer image mounts event options) s w = Some (Ok out, s, w').
Proof. apply run_container_total. Qed.
End container_total.

(** ** Concrete executions *)

Module ContainerDemo.
#[export] Instance tmp : OsTmpdir := "/tmp".
#[export] Instance cwd : Cwd := "/srv/app".
(** The container's callbacks, whether it left a report, and the report. *)
Definition script (evs : list process_event) (reported : bool) (report : string) : ∀ X, ev X → X :=
  λ X e, match e in ev X return X with
         | Fs e' => match e' in fs_eff X return outcome X with
                    | MkdtempSync p => Ok (p +:+ "k3")
                    | ExistsSync _ => Ok reported
                    | ReadFileSync _ => Ok report
                    | MkdirSync _ | ChmodSync _ _ | WriteFileSync _ _ | RmSync _ | SpawnDetached _ _ => Ok tt
                    end
         | Os e' => match e' in os_eff X return outcome X with
                    | Spawn _ _ _ _ => Ok evs
                    | SetTimeoutMs _ => Ok tt
                    end
         | Sys e' => quiet _ (Sys e') (mem_of empty_tables)
         | Db _ | Redis _ | Aws _ | Lib _ => down
         end.
Definition report : string := "{" +:+ dq +:+ "status" +:+ dq +:+ ":" +:+ dq +:+ "success" +:+ dq +:+ "}".
Definition slow : list process_event := [StderrData "working"; TimerFired; Close (Some 137)].
Definition defaults : ExecuteOptions := {| opt_timeoutMs := None; opt_memoryMb := None; opt_cpus := None |}.
End ContainerDemo.
#[local] Existing Instance json_codec.
#[local] Existing Instance ContainerDemo.tmp.
#[local] Existing Instance ContainerDemo.cwd.

Lemma container_correct_witness :
  ∃ s' tr, exec (history_env ev) still (executeVersionedFunction "mini-cloud-fn-hello:4" None ContainerDemo.defaults) tt []
      (Ok (JObj [("status", JStr "timeout"); ("durationMs", JNum 0)])) s' tr ∧
    container_run "mini-cloud-fn-hello:4" event_mount None ContainerDemo.defaults
      (JObj [("status", JStr "timeout"); ("durationMs", JNum 0)]) tr.
Proof.
  eexists _, _. split; [scripted_by (λ X e (_ : list entry), ContainerDemo.script ContainerDemo.slow false EmptyString X e)|].
  apply (container_correct still "mini-cloud-fn-hello:4" event_mount None ContainerDemo.defaults tt
    (Ok (JObj [("status", JStr "timeout"); ("durationMs", JNum 0)])) tt).
  scripted_by (λ X e (_ : list entry), ContainerDemo.script ContainerDemo.slow false EmptyString X e).
Defined.


Lemma container_returns_witness :
  ∃ out w', run (scripted (λ X e _, ContainerDemo.script ContainerDemo.slow true ContainerDemo.report X e))
    (runIsolatedContainer "img" event_mount None ContainerDemo.defaults) tt [] = Some (Ok out, tt, w').
Proof.
  apply (container_returns (scripted (λ X e _, ContainerDemo.script ContainerDemo.slow true ContainerDemo.report X e))).
  intros X e w. destruct e as [X e|X e|X e|X e|X e|X e|X e]; try done; destruct e; try done; simpl.
  - eexists. split; [reflexivity|]. exists (Some 137). apply list_elem_of_In. simpl. tauto.
  - eexists _, _. split; [reflexivity|]. vm_compute. reflexivity.
Defined.

(** A report that is no JSON (the function can write its own) ends the worker
    process: the run never returns. *)
Example malformed_report_never_returns :
  run (scripted (λ X e _, ContainerDemo.script [Close (Some 0)] true "oops" X e))
    (executeVersionedFunction "mini-cloud-fn-hello:4" None ContainerDemo.defaults) tt [] = None.
Proof. vm_compute. reflexivity. Qed.
