(* ===== verification/Worker.v ===== *)
(** * The worker (src/worker)

    [WorkerService]: the consumer of the invocation stream, which runs each job in
    a container and publishes its outcome, reclaims the messages of dead workers
    and tells the registry it is alive; the registry login of ecr-login.ts. *)

From Stdlib Require Import Ascii.
From S2P Require Import Prelude Json JsonText Prog Services Percentile Database Schema Registry Dispatch Storage Build BuildConsumer Container.
#[local] Open Scope Z_scope.

(** ** ecr-login.ts *)

(** [Buffer.from(s, 'base64')]: the value of a character of the alphabet (the
    URL-safe one too); other characters are skipped, [=] ends the text. *)
Definition base64_digit (c : ascii) : option N :=
  let n := N_of_ascii c in
  (if (65 <=? n) && (n <=? 90) then Some (n - 65)
   else if (97 <=? n) && (n <=? 122) then Some (n - 71)
   else if (48 <=? n) && (n <=? 57) then Some (n + 4)
   else if (n =? 43) || (n =? 45) then Some 62
   else if (n =? 47) || (n =? 95) then Some 63
   else None)%N.

Fixpoint base64_digits (s : string) : list N :=
  match s with
  | EmptyString => []
  | String c s' =>
      if decide (c = "="%char) then []
      else match base64_digit c with Some d => d :: base64_digits s' | None => base64_digits s' end
  end.

Fixpoint base64_bytes (ds : list N) : string :=
  match ds with
  | a :: b :: c :: d :: ds' =>
      String (ascii_of_N (a * 4 + b / 16)) (String (ascii_of_N (b mod 16 * 16 + c / 4))
        (String (ascii_of_N (c mod 4 * 64 + d)) (base64_bytes ds')))
  | [a; b; c] => String (ascii_of_N (a * 4 + b / 16)) (String (ascii_of_N (b mod 16 * 16 + c / 4)) EmptyString)
  | [a; b] => String (ascii_of_N (a * 4 + b / 16)) EmptyString
  | _ => EmptyString
  end%N.

(** [Buffer.from(s, 'base64').toString('utf8')] of a text of ASCII bytes. *)
Definition base64_decode (s : string) : string := base64_bytes (base64_digits s).

Definition login_close (code : option Z) (stderr : string) : outcome unit :=
  if bool_decide (code = Some 0) then Ok tt else Err (JsError ("docker login failed: " +:+ stderr)).

(** A password of [undefined] makes [proc.stdin.write] throw in the promise's
    executor, after the process was started. *)
Definition ensureEcrLogin {S} : prog ev S unit :=
  registry ← sys (ProcessEnv "ECR_REGISTRY");
  match truthy registry with
  | None => Ret tt
  | Some registry =>
      _ ← sys (ProcessEnv "AWS_REGION");
      token ← aws EcrGetAuthorizationToken;
      match truthy token with
      | None => Throw (JsError "ECR did not return an authorization token")
      | Some authorizationToken =>
          let password := split_on ":" (base64_decode authorizationToken) !! 1%nat in
          let args := ["login"; "--username"; "AWS"; "--password-stdin"; registry] in
          match password with
          | Some password => await_process "docker" args (Some password) login_close
          | None => _ ← fs (SpawnDetached "docker" args);
                    Throw (JsError "The chunk argument must be of type string")
          end
      end
  end.

(** ** worker.service.ts *)

Definition WORKER_BLOCK_MS : Z := 2000.
Definition HEARTBEAT_INTERVAL_MS : Z := 3000.
Definition WORKER_CLAIM_IDLE_MS : Z := 8000.
Definition CAPACITY : Z := 1.

(** [`worker-${process.pid}-${crypto.randomUUID().slice(0, 8)}`] *)
Definition worker_name (pid : Z) (uuid : string) : string :=
  "worker-" +:+ string_of_Z pid +:+ "-" +:+ slice_to 8 uuid.

(** The process-local state of the service. *)
Record worker := { w_running : bool; w_inFlight : Z; w_heartbeatTimer : bool; w_loop_ended : bool }.
Definition w_set_running (b : bool) (s : worker) : worker :=
  {| w_running := b; w_inFlight := w_inFlight s; w_heartbeatTimer := w_heartbeatTimer s; w_loop_ended := w_loop_ended s |}.
Definition w_add_inFlight (n : Z) (s : worker) : worker :=
  {| w_running := w_running s; w_inFlight := w_inFlight s + n; w_heartbeatTimer := w_heartbeatTimer s; w_loop_ended := w_loop_ended s |}.
Definition w_set_timer (b : bool) (s : worker) : worker :=
  {| w_running := w_running s; w_inFlight := w_inFlight s; w_heartbeatTimer := b; w_loop_ended := w_loop_ended s |}.
Definition w_end_loop (s : worker) : worker :=
  {| w_running := w_running s; w_inFlight := w_inFlight s; w_heartbeatTimer := w_heartbeatTimer s; w_loop_ended := true |}.

(** [Number(v)] and [JSON.parse(v)] of a value that may be [undefined]. *)
Definition Number_of (v : option string) : option Z := match v with Some t => Number t | None => None end.
Definition JSON_parse_of `{JC : JsonCodec} {S} (v : option string) : prog ev S json :=
  match v with
  | Some text => match JSON_parse text with
                 | Some x => Ret x
                 | None => Throw (JsError "Unexpected token in JSON")
                 end
  | None => Throw (JsError "undefined is not valid JSON")
  end.

Module WorkerService.
Section service.
Context `{JC : JsonCodec} {TMP : OsTmpdir} (workerId : string).

Definition sendHeartbeat : prog ev worker unit :=
  inFlight ← gets w_inFlight;
  now ← sys DateNow;
  WorkerRegistryService.heartbeat {| Registry.workerId := workerId; capacity := CAPACITY; inFlight := inFlight; lastHeartbeatAt := now |}.

Definition ensureConsumerGroup : prog ev worker unit :=
  try_catch (redis (XgroupCreate INVOCATION_STREAM_KEY INVOCATION_CONSUMER_GROUP "$" true))
    (λ err, if not_busygroup err then Throw err else Ret tt).

(** The [try] block of [handleMessage]. *)
Definition invocation (fields : list string) : prog ev worker json :=
  event ← JSON_parse_of (field_get fields "event");
  let timeoutMs := Number_of (field_get fields "timeoutMs") in
  let memoryMb := Number_of (field_get fields "memoryMb") in
  executeVersionedFunction (default "undefined" (field_get fields "imageTag")) (Some event)
    {| opt_timeoutMs := Some timeoutMs; opt_memoryMb := Some memoryMb; opt_cpus := None |}.

(** Its [catch] block. *)
Definition error_outcome (err : exn) : json :=
  JObj [("status", JStr "error"); ("error", JStr (err_message err)); ("durationMs", JNum 0)].

(** [this.inFlight += n; this.metrics.workerInFlight.set(this.inFlight)] *)
Definition count_inFlight (n : Z) : prog ev worker unit :=
  _ ← modify (w_add_inFlight n);
  inFlight ← gets w_inFlight;
  sys (GaugeSet "mini_cloud_worker_in_flight" inFlight).

Definition started_log (fields : list string) : string :=
  JSON_stringify (object
    [("event", Some (JStr "invocation.started")); ("correlationId", JStr <$> field_get fields "correlationId");
     ("imageTag", JStr <$> field_get fields "imageTag"); ("workerId", Some (JStr workerId))]).

Definition ended_log (fields : list string) (outcome : json) : string :=
  JSON_stringify (object
    [("event", Some (JStr (if json_is_str "success" (json_get "status" outcome) then "invocation.completed" else "invocation.failed")));
     ("correlationId", JStr <$> field_get fields "correlationId"); ("imageTag", JStr <$> field_get fields "imageTag");
     ("status", json_get "status" outcome); ("durationMs", json_get "durationMs" outcome); ("workerId", Some (JStr workerId))]).

Definition handleMessage (messageId : string) (fields : list string) : prog ev worker unit :=
  _ ← logger_log (started_log fields);
  _ ← count_inFlight 1;
  outcome ← try_finally (try_catch (invocation fields) (λ err, Ret (error_outcome err))) (count_inFlight (-1));
  _ ← sys (CounterInc "mini_cloud_invocations_total" (json_get "status" outcome));
  _ ← sys (HistogramObserve "mini_cloud_invocation_duration_ms" (json_get "durationMs" outcome));
  _ ← logger_log (ended_log fields outcome);
  _ ← redis (Publish (invocationResultChannel (default "undefined" (field_get fields "correlationId"))) (JSON_stringify outcome));
  _ ← redis (Xack INVOCATION_STREAM_KEY INVOCATION_CONSUMER_GROUP messageId);
  Ret tt.

Definition readAndProcessOnce : prog ev worker unit :=
  response ← redis (Xreadgroup INVOCATION_CONSUMER_GROUP workerId 1 WORKER_BLOCK_MS INVOCATION_STREAM_KEY);
  match response with
  | None => Ret tt
  | Some [] => Throw (JsError "undefined is not iterable")
  | Some ((_, messages) :: _) => for_each messages (λ m, handleMessage m.1 m.2)
  end.

(** [healthyWorkerIds] *)
Definition healthyWorkerIds (workers : list WorkerStatus) : list string :=
  omap st_workerId (List.filter st_healthy workers).

(** The loop body of [reclaimFromDeadWorkers]. *)
Definition reclaim_entry (claimIdleMs : option Z) (healthy : list string) (entry : string * string * Z * Z) : prog ev worker unit :=
  let '(messageId, ownerConsumer, _, _) := entry in
  if bool_decide (ownerConsumer = workerId) then Ret tt
  else if bool_decide (ownerConsumer ∈ healthy) then Ret tt
  else
    _ ← logger_warn ("Reclaiming message " +:+ messageId +:+ " from presumed-dead worker " +:+ dq +:+ ownerConsumer +:+ dq);
    claimed ← redis (Xclaim INVOCATION_STREAM_KEY INVOCATION_CONSUMER_GROUP workerId claimIdleMs messageId);
    for_each claimed (λ m, handleMessage m.1 m.2).

Definition reclaimFromDeadWorkers : prog ev worker unit :=
  claimIdleMs ← env_number "INVOCATION_CLAIM_IDLE_MS" WORKER_CLAIM_IDLE_MS;
  entries ← redis (XpendingIdle INVOCATION_STREAM_KEY INVOCATION_CONSUMER_GROUP claimIdleMs 10);
  match entries with
  | [] => Ret tt
  | _ => workers ← WorkerRegistryService.listWorkers;
         for_each entries (reclaim_entry claimIdleMs (healthyWorkerIds workers))
  end.

(** The body of the loop, its [catch] included. *)
Definition iteration : prog ev worker unit :=
  try_catch (_ ← reclaimFromDeadWorkers; readAndProcessOnce)
    (λ err, logger_error ("Worker loop iteration failed: " +:+ err_message err)).

(** The first [n] iterations of [while (this.running)]. *)
Fixpoint loop (n : nat) : prog ev worker unit :=
  match n with
  | O => Ret tt
  | S n' => go ← gets w_running; if go : bool then _ ← iteration; loop n' else modify w_end_loop
  end.

(** [this.loopPromise = this.loop()] starts the loop without awaiting it. *)
Definition onModuleInit : prog ev worker unit :=
  _ ← ensureEcrLogin;
  _ ← ensureConsumerGroup;
  _ ← sendHeartbeat;
  _ ← modify (w_set_timer true);
  _ ← modify (w_set_running true);
  logger_log ("Worker " +:+ dq +:+ workerId +:+ dq +:+ " is up, waiting for invocations").

Definition onModuleDestroy : prog ev worker unit :=
  _ ← modify (w_set_running false);
  _ ← modify (w_set_timer false);
  _ ← Wait (λ s, if w_loop_ended s then Some tt else None) Ret;
  WorkerRegistryService.deregister workerId.
End service.
End WorkerService.
Import WorkerService.

(** ** Lemmas *)

(** The encoder the registry uses. *)
Definition base64_char (d : N) : ascii :=
  ascii_of_N (if d <? 26 then d + 65 else if d <? 52 then d + 71 else if d <? 62 then d - 4 else if d =? 62 then 43 else 47)%N.

Fixpoint base64_encode (s : string) : string :=
  match s with
  | String a (String b (String c s')) =>
      let x := N_of_ascii a in let y := N_of_ascii b in let z := N_of_ascii c in
      String (base64_char (x / 4)) (String (base64_char (x mod 4 * 16 + y / 16))
        (String (base64_char (y mod 16 * 4 + z / 64)) (String (base64_char (z mod 64)) (base64_encode s'))))
  | String a (String b EmptyString) =>
      let x := N_of_ascii a in let y := N_of_ascii b in
      String (base64_char (x / 4)) (String (base64_char (x mod 4 * 16 + y / 16)) (String (base64_char (y mod 16 * 4)) "="))
  | String a EmptyString =>
      let x := N_of_ascii a in String (base64_char (x / 4)) (String (base64_char (x mod 4 * 16)) "==")
  | EmptyString => EmptyString
  end%N.

Lemma base64_char_digit d : (d < 64)%N → base64_digit (base64_char d) = Some d ∧ base64_char d ≠ "="%char.
Proof.
  intros Hd. assert (forallb (λ n, let d := N.of_nat n in
    bool_decide (base64_digit (base64_char d) = Some d ∧ base64_char d ≠ "="%char)) (seq 0 64) = true) as Hall by (vm_compute; reflexivity).
  rewrite forallb_forall in Hall. specialize (Hall (N.to_nat d)).
  rewrite N2Nat.id in Hall. eapply bool_decide_eq_true, Hall, in_seq. lia.
Qed.

Lemma base64_digits_char d s : (d < 64)%N → base64_digits (String (base64_char d) s) = d :: base64_digits s.
Proof. intros Hd. destruct (base64_char_digit d Hd) as [H1 H2]. simpl. rewrite decide_False by done. by rewrite H1. Qed.

Lemma ascii_of_N_eq n a : n = N_of_ascii a → ascii_of_N n = a.
Proof. intros ->. apply ascii_N_embedding. Qed.

#[local] Ltac Zify.zify_post_hook ::= Z.to_euclidean_division_equations.

(** Decoding inverts encoding. *)
Lemma base64_decode_encode : ∀ s, base64_decode (base64_encode s) = s.
Proof.
  fix IH 1. intros [|a [|b [|c s]]]; [done|..]; unfold base64_decode; cbn [base64_encode];
    pose proof (N_ascii_bounded a); try pose proof (N_ascii_bounded b); try pose proof (N_ascii_bounded c).
  - rewrite !base64_digits_char by lia. simpl. f_equal. apply ascii_of_N_eq. lia.
  - rewrite !base64_digits_char by lia. simpl. f_equal; [|f_equal]; apply ascii_of_N_eq; lia.
  - rewrite !base64_digits_char by lia. cbn [base64_bytes].
    f_equal; [apply ascii_of_N_eq; lia|]. f_equal; [apply ascii_of_N_eq; lia|]. f_equal; [apply ascii_of_N_eq; lia|].
    apply IH.
Qed.

Lemma split_on_none c s : str_forall (λ a, negb (bool_decide (a = c))) s = true → split_on c s = [s].
Proof.
  induction s as [|a s IH]; simpl; [done|]. intros [Ha Hs]%andb_prop. case_bool_decide; [done|].
  rewrite decide_False by done. by rewrite IH.
Qed.

#[local] Ltac Zify.zify_post_hook ::= idtac.

(** The messages a history claimed from other consumers. *)
Definition claims (tr : list entry) : list string :=
  omap (λ en : entry, match entry_call en with
             | Redis (Xclaim key group consumer _ id) => Some id
             | _ => None
             end) tr.

Lemma claims_app a b : claims (a ++ b) = claims a ++ claims b.
Proof. unfold claims. apply omap_app. Qed.

Definition not_claim X (e : ev X) : Prop := match e with Redis (Xclaim _ _ _ _ _) => False | _ => True end.

Lemma claims_none tr : Forall (λ en : entry, not_claim _ (entry_call en)) tr → claims tr = [].
Proof.
  induction 1 as [|[X e r] tr He _ IH]; [done|]. simpl in *.
  destruct e as [| |X e|X e|X e|X e|X e]; try exact IH. by destruct e.
Qed.

Section worker_lemmas.
Context `{JC : JsonCodec} {TMP : OsTmpdir} (workerId : string).

Lemma invocation_calls fields : only outside_store (invocation fields).
Proof.
  unfold invocation. apply only_bind.
  - unfold JSON_parse_of. only_calls.
  - intros event. apply executeVersionedFunction_calls.
Qed.

Lemma invocation_stateless fields : stateless (invocation fields).
Proof.
  unfold invocation. apply stateless_bind.
  - unfold JSON_parse_of. no_state.
  - intros event. apply executeVersionedFunction_stateless.
Qed.

Lemma handleMessage_no_claim m fields : only not_claim (handleMessage workerId m fields).
Proof.
  unfold handleMessage, count_inFlight, logger_log.
  apply only_bind; [by split|]. intros _. apply only_bind; [only_calls|]. intros _. apply only_bind.
  - apply only_finally; [apply only_try; [|done]|only_calls].
    eapply only_mono, invocation_calls. by intros X [? []| | | | | |].
  - intros out. only_calls.
Qed.
End worker_lemmas.

(** ** Properties *)

Section worker_properties.
Context `{JC : JsonCodec} {TMP : OsTmpdir} (workerId : string) (R : worker → worker → Prop).

(** What the [try]/[catch] of a message makes of its job: the outcome of the
    container, or the error that stopped it. *)
Definition attempted (fields : list string) (s : worker) (out : json) (s' : worker) (calls : list entry) : Prop :=
  ∃ o, exec (history_env ev) R (invocation fields) s [] o s' calls ∧
    out = match o with Ok v => v | Err x => error_outcome x end.

Lemma attempt_spec fields s tr o s' tr' :
  exec (history_env ev) R (try_catch (invocation fields) (λ err, Ret (error_outcome err))) s tr o s' tr' →
  ∃ out calls, o = Ok out ∧ tr' = tr ++ calls ∧ attempted fields s out s' calls ∧
    Forall (λ en : entry, outside_store _ (entry_call en)) calls ∧ rtc R s s'.
Proof.
  intros Hx. by_wp Hx. apply wp_try, wp_exec. intros o1 s1 tr1 Hinv.
  pose proof (stateless_exec _ _ _ _ _ _ _ _ (invocation_stateless fields) Hinv) as Hs1.
  apply history_shift in Hinv as (calls & -> & Hinv). specialize (Hinv []).
  assert (∃ out calls', Ok out = Ok (match o1 with Ok v => v | Err x => error_outcome x end) ∧ tr ++ calls = tr ++ calls' ∧
    attempted fields s out s1 calls' ∧ Forall (λ en : entry, outside_store _ (entry_call en)) calls' ∧ rtc R s s1) as H.
  { eexists _, calls. split; [done|]. split; [done|]. split; [by exists o1|]. split; [|done].
    destruct (history_only _ _ _ _ _ _ _ _ (invocation_calls fields) Hinv) as (c & Heq & Hc). simpl in Heq. by rewrite Heq. }
  destruct H as (out & calls' & Ho & Hc & H). destruct o1 as [v|x]; cbn [wp]; exists out, calls'; injection Ho as ->; done.
Qed.

(** The run of one message: the attempt between the two updates of the count, the
    metrics, the log, the publication, then the acknowledgement. *)
Definition message_handled (m : string) (fields : list string) (s : worker) (o : outcome unit) (s' : worker) (tr : list entry) : Prop :=
  w_inFlight s' = w_inFlight s ∧
  ∃ out calls s1 published acked,
    attempted fields (w_add_inFlight 1 s) out s1 calls ∧ Forall (λ en : entry, outside_store _ (entry_call en)) calls ∧
    tr = [Entry (Sys (Log "log" (started_log workerId fields))) tt;
          Entry (Sys (GaugeSet "mini_cloud_worker_in_flight" (w_inFlight s + 1))) tt] ++ calls ++
         [Entry (Sys (GaugeSet "mini_cloud_worker_in_flight" (w_inFlight s))) tt;
          Entry (Sys (CounterInc "mini_cloud_invocations_total" (json_get "status" out))) tt;
          Entry (Sys (HistogramObserve "mini_cloud_invocation_duration_ms" (json_get "durationMs" out))) tt;
          Entry (Sys (Log "log" (ended_log workerId fields out))) tt;
          Entry (Redis (Publish (invocationResultChannel (default "undefined" (field_get fields "correlationId"))) (JSON_stringify out))) published] ++
         (if is_Ok published then [Entry (Redis (Xack INVOCATION_STREAM_KEY INVOCATION_CONSUMER_GROUP m)) acked] else []) ∧
    o = match published, acked with Err x, _ | Ok _, Err x => Err x | Ok _, Ok _ => Ok tt end.

Lemma worker_message_spec m fields s o s' tr :
  (∀ s s', R s s' → w_inFlight s' = w_inFlight s) →
  exec (history_env ev) R (handleMessage workerId m fields) s [] o s' tr → message_handled m fields s o s' tr.
Proof.
  intros HR Hx. by_wp Hx. unfold message_handled, handleMessage, count_inFlight, logger_log.
  apply wp_hist_sys. intros []. apply wp_bind. cbn [modify gets mbind prog_mbind bind sys ask wp fst snd].
  intros [] ? ? -> [=->]. apply wp_bind, wp_finally, wp_exec.
  intros o1 s1 tr1 (out & calls & -> & -> & Hatt & Hcalls & Hs1)%attempt_spec.
  assert (w_inFlight s1 = w_inFlight s + 1) as Hn.
  { assert (∀ x y, rtc R x y → w_inFlight y = w_inFlight x) as Hrtc by (induction 1; [done|etrans; eauto]).
    by rewrite (Hrtc _ _ Hs1). }
  cbn [modify gets mbind prog_mbind bind sys ask wp fst snd w_add_inFlight w_inFlight].
  intros [] ? ? -> [=->]. replace (w_inFlight s1 + -1) with (w_inFlight s) by lia.
  do 3 intros [] ? ? -> [=->].
  assert (∀ s2, R (w_add_inFlight (-1) s1) s2 → w_inFlight s2 = w_inFlight s) as Hback.
  { intros s2 H2. rewrite (HR _ _ H2). simpl. lia. }
  unfold redis, call. cbn [mbind prog_mbind bind wp]. intros published ? s2 -> H2. specialize (Hback _ H2).
  destruct published as [n|x]; cbn [of_outcome bind wp].
  - intros acked ? s3 -> H3. assert (w_inFlight s3 = w_inFlight s) as Hs3 by (by rewrite (HR _ _ H3)).
    destruct acked as [n'|x]; cbn [of_outcome bind wp]; (split; [exact Hs3|]);
      eexists out, calls, s1, (Ok n), _; (split; [exact Hatt|]); (split; [exact Hcalls|]); rewrite <- !app_assoc; split; reflexivity.
  - split; [exact Hback|]. exists out, calls, s1, (Err x), (Ok 0). split; [exact Hatt|]. split; [exact Hcalls|].
    rewrite <- !app_assoc. split; reflexivity.
Qed.

(** C36: handling a job: it runs once between the two updates of the in-flight
    count; whatever happened to it, its outcome is published once, on the channel
    of its correlation id, before the message is acknowledged; a message whose
    outcome could not be published is not acknowledged; and the in-flight count
    is what it was.  The only other tasks of the process are the heartbeat and
    the shutdown, which do not touch the count. *)
Theorem worker_message_correct m fields s o s' tr :
  (∀ s s', R s s' → w_inFlight s' = w_inFlight s) →
  exec (history_env ev) R (handleMessage workerId m fields) s [] o s' tr → message_handled m fields s o s' tr.
Proof. apply worker_message_spec. Qed.

(** The owner of a pending message is presumed dead: it is not this worker, and
    the registry lists no healthy worker of that name. *)
Definition presumed_dead (workers : list WorkerStatus) (owner : string) : bool :=
  negb (bool_decide (owner = workerId)) &&
  forallb (λ st, negb (bool_decide (st_workerId st = Some owner) && st_healthy st)) workers.

Lemma healthy_spec workers owner :
  owner ∈ healthyWorkerIds workers ↔ ∃ st, st ∈ workers ∧ st_workerId st = Some owner ∧ st_healthy st = true.
Proof.
  unfold healthyWorkerIds. rewrite list_elem_of_omap. split.
  - intros (st & [Hst Hh]%elem_of_filterb & Hid). eauto.
  - intros (st & Hst & Hid & Hh). exists st. split; [by apply elem_of_filterb|done].
Qed.

Lemma presumed_dead_spec workers owner :
  presumed_dead workers owner = bool_decide (¬ owner = workerId) && bool_decide (¬ owner ∈ healthyWorkerIds workers).
Proof.
  unfold presumed_dead. f_equal; [by rewrite bool_decide_not|]. symmetry.
  destruct (forallb _ workers) eqn:E.
  - apply bool_decide_eq_true_2. rewrite healthy_spec. intros (st & Hst & Hid & Hh).
    rewrite forallb_forall in E. apply list_elem_of_In, E in Hst. rewrite Hh, bool_decide_eq_true_2 in Hst; done.
  - apply bool_decide_eq_false_2. intros Hno. apply not_true_iff_false in E. apply E.
    rewrite forallb_forall. intros st Hst%list_elem_of_In. rewrite healthy_spec in Hno.
    case_bool_decide as Hid; [|done]. destruct (st_healthy st) eqn:Hh; [|done]. destruct Hno. eauto.
Qed.

(** The messages whose owners are presumed dead. *)
Definition abandoned (workers : list WorkerStatus) (entries : list (string * string * Z * Z)) : list string :=
  map (λ e, e.1.1.1) (List.filter (λ e : string * string * Z * Z, presumed_dead workers e.1.1.2) entries).

Lemma reclaim_entry_spec idle workers e s tr (Q : outcome unit → worker → list entry → Prop) :
  (∀ o s' tr', claims tr' = claims tr ++ abandoned workers [e] → Q o s' tr') →
  wp (history_env ev) R (reclaim_entry workerId idle (healthyWorkerIds workers) e) s tr Q.
Proof.
  intros HQ. destruct e as [[[id owner] x] y]. unfold reclaim_entry, abandoned in *. cbn [List.filter fst snd] in HQ.
  rewrite presumed_dead_spec, !bool_decide_not in HQ.
  case_bool_decide as Hme; [apply HQ; by rewrite app_nil_r|].
  case_bool_decide as Hh; [apply HQ; by rewrite app_nil_r|]. cbn [negb andb map fst] in HQ.
  apply wp_hist_sys. intros []. apply wp_hist. intros [l|z] s1.
  - apply wp_exec. intros o s' tr' Hx.
    eapply history_only in Hx as (calls & -> & Hc).
    2: { apply only_for_each. intros m. apply (handleMessage_no_claim workerId m.1 m.2). }
    apply HQ. rewrite !claims_app, (claims_none calls Hc), app_nil_r. simpl. by rewrite app_nil_r.
  - apply HQ. rewrite !claims_app. simpl. by rewrite app_nil_r.
Qed.

(** C37: reclaiming: a worker takes over a pending message only when the registry
    it has just read lists no healthy worker under its owner's name, never its
    own and never a live worker's; and unless a call fails it takes over every
    abandoned one of the batch, in order. *)
Theorem reclaims_only_from_dead s o s' tr :
  exec (history_env ev) R (reclaimFromDeadWorkers workerId) s [] o s' tr →
  claims tr = [] ∧ (o = Ok tt → ∃ idle, Entry (Redis (XpendingIdle INVOCATION_STREAM_KEY INVOCATION_CONSUMER_GROUP idle 10)) (Ok []) ∈ tr) ∨
  ∃ v idle entries raw now workers rest,
    tr = [Entry (Sys (ProcessEnv "INVOCATION_CLAIM_IDLE_MS")) v;
          Entry (Redis (XpendingIdle INVOCATION_STREAM_KEY INVOCATION_CONSUMER_GROUP idle 10)) (Ok entries);
          Entry (Redis (Hgetall REGISTRY_KEY)) (Ok raw); Entry (Sys DateNow) now] ++ rest ∧
    WorkerRegistryService.parse_workers now raw = Ok workers ∧
    claims tr `prefix_of` abandoned workers entries ∧ (o = Ok tt → claims tr = abandoned workers entries).
Proof.
  intros Hx. by_wp Hx. unfold reclaimFromDeadWorkers, env_number.
  apply wp_bind, wp_hist_sys. intros v. cbn [wp]. set (idle := match v with Some _ => _ | None => _ end).
  apply wp_hist. intros [entries|x] s1; [|by left].
  destruct entries as [|e0 entries0] eqn:He.
  { left. split; [done|]. intros _. exists idle. apply list_elem_of_In. simpl. tauto. }
  rewrite <- He. clear He. unfold WorkerRegistryService.listWorkers.
  apply wp_bind, wp_hist. intros [raw|x] s2; [|by left]. apply wp_hist_sys. intros now.
  destruct (WorkerRegistryService.parse_workers now raw) as [workers|x] eqn:Hp; [|by left]. cbn [of_outcome wp].
  set (pre := (_ ++ _) ++ _).
  assert (∀ e l, abandoned workers (e :: l) = abandoned workers [e] ++ abandoned workers l) as Hcons.
  { intros e l. unfold abandoned. simpl. by destruct (presumed_dead _ _). }
  apply wp_exec. intros o3 s3 tr' Hx.
  assert (claims tr' `prefix_of` abandoned workers entries ∧ (o3 = Ok tt → claims tr' = abandoned workers entries)) as Hclaims.
  { apply (exec_wp _ _ _ _ _ _ _ _ (λ o _ tr', claims tr' `prefix_of` abandoned workers entries ∧
      (o = Ok tt → claims tr' = abandoned workers entries)) Hx).
    apply (wp_for_each _ _ (λ l _ tr', claims tr' ++ abandoned workers l = abandoned workers entries)); [done| |].
    - intros e l s4 tr4 HI. apply reclaim_entry_spec. intros o5 s5 tr5 Hc. rewrite Hcons, app_assoc, <- Hc in HI.
      destruct o5; [done|]. split; [|done]. rewrite <- HI. apply prefix_app_r. done.
    - intros s4 tr4 HI. change (abandoned workers []) with (@nil string) in HI. rewrite app_nil_r in HI.
      rewrite HI. split; [reflexivity|done]. }
  apply history_shift in Hx as (rest & -> & _). right.
  exists v, idle, entries, raw, now, workers, rest. split; [|split; [exact Hp|exact Hclaims]].
  unfold pre. by rewrite <- !app_assoc.
Qed.
End worker_properties.

(** ** The job crosses the stream *)

Definition field_names : list string := ["correlationId"; "imageTag"; "event"; "timeoutMs"; "memoryMb"].

Section round_trip.
Context `{JC : JsonCodec} {TMP : OsTmpdir}.

(** A JSON text is no bare field name, and neither is a numeral. *)
Lemma stringify_no_name v : json_ok v = true → JSON_stringify v ∉ field_names.
Proof.
  intros Hv Hin. assert (JSON_parse (JSON_stringify v) = None) as Hno.
  { apply JSON_parse_word. revert Hin. unfold field_names. rewrite !elem_of_cons.
    intros [-> |[-> |[-> |[-> |[-> |?%not_elem_of_nil]]]]]; done. }
  by rewrite JSON_parse_stringify in Hno.
Qed.

Lemma numeral_no_name n : string_of_Z n ∉ field_names.
Proof.
  intros Hin. assert (Number (string_of_Z n) = None) as Hno; [|by rewrite Number_string_of_Z in Hno].
  revert Hin. unfold field_names. rewrite !elem_of_cons.
  intros [-> |[-> |[-> |[-> |[-> |?%not_elem_of_nil]]]]]; done.
Qed.

Lemma field_get_at (l pre post : list string) name v :
  l = pre ++ name :: v :: post → name ∉ pre → field_get l name = Some v.
Proof. intros ->. apply field_get_skip. Qed.

Lemma job_roundtrip cid job :
  cid ∉ field_names → job_imageTag job ∉ field_names → json_ok (or_empty_object (job_event job)) = true →
  field_get (InvocationDispatchService.job_fields cid job) "correlationId" = Some cid ∧
  invocation (InvocationDispatchService.job_fields cid job) =
    executeVersionedFunction (job_imageTag job) (Some (or_empty_object (job_event job)))
      {| opt_timeoutMs := Some (Some (job_timeoutMs job)); opt_memoryMb := Some (Some (job_memoryMb job)); opt_cpus := None |}.
Proof.
  intros Hcid Himg Hok. pose proof (stringify_no_name _ Hok) as Hev. pose proof (numeral_no_name (job_timeoutMs job)) as Ht.
  unfold field_names in *.
  set (fs := InvocationDispatchService.job_fields cid job).
  split; [apply (field_get_at fs [] (drop 2 fs)); [reflexivity|apply not_elem_of_nil]|]. unfold invocation.
  rewrite (field_get_at fs (take 4 fs) (drop 6 fs) "event" (JSON_stringify (or_empty_object (job_event job)))); [|reflexivity|simpl; set_solver].
  rewrite (field_get_at fs (take 6 fs) (drop 8 fs) "timeoutMs" (string_of_Z (job_timeoutMs job))); [|reflexivity|simpl; set_solver].
  rewrite (field_get_at fs (take 8 fs) (drop 10 fs) "memoryMb" (string_of_Z (job_memoryMb job))); [|reflexivity|simpl; set_solver].
  rewrite (field_get_at fs (take 2 fs) (drop 4 fs) "imageTag" (job_imageTag job)); [|reflexivity|simpl; set_solver].
  unfold JSON_parse_of, Number_of. rewrite JSON_parse_stringify by done. by rewrite !Number_string_of_Z.
Qed.

(** The job a dispatch puts on the stream is the job the worker runs: decoding
    the fields [dispatch] wrote gives back the image, the event, the time and
    memory limits and the correlation id, so the container is run with exactly
    the limits of the function. *)
Theorem worker_runs_dispatched_job cid job :
  cid ∉ field_names → job_imageTag job ∉ field_names → json_ok (or_empty_object (job_event job)) = true →
  field_get (InvocationDispatchService.job_fields cid job) "correlationId" = Some cid ∧
  invocation (InvocationDispatchService.job_fields cid job) =
    executeVersionedFunction (job_imageTag job) (Some (or_empty_object (job_event job)))
      {| opt_timeoutMs := Some (Some (job_timeoutMs job)); opt_memoryMb := Some (Some (job_memoryMb job)); opt_cpus := None |}.
Proof. apply job_roundtrip. Qed.
End round_trip.

(** ** The registry login *)

(** The token ECR answers for a password. *)
Definition ecr_token (password : string) : string := base64_encode ("AWS:" +:+ password).

Lemma token_password password :
  str_forall (λ a, negb (bool_decide (a = ":"%char))) password = true →
  split_on ":" (base64_decode (ecr_token password)) !! 1%nat = Some password.
Proof.
  intros Hp. unfold ecr_token. rewrite base64_decode_encode.
  change ("AWS:" +:+ password) with (String "A" (String "W" (String "S" (String ":" password)))). simpl.
  by rewrite (split_on_none ":" password Hp).
Qed.

(** C39: the registry login: without a configured registry nothing is called;
    otherwise it succeeds only when docker logged in with exit code 0, and for the
    token of a colon-free password docker is given exactly that password, on its
    standard input and not among its arguments. *)
Theorem ecr_login_correct {S} (R : S → S → Prop) s o s' tr :
  exec (history_env ev) R ensureEcrLogin s [] o s' tr →
  ∃ registry rest, tr = Entry (Sys (ProcessEnv "ECR_REGISTRY")) registry :: rest ∧
  match truthy registry with
  | None => rest = [] ∧ o = Ok tt
  | Some reg => o = Ok tt → ∃ region token password pre post,
      rest = [Entry (Sys (ProcessEnv "AWS_REGION")) region; Entry (Aws EcrGetAuthorizationToken) (Ok (Some token));
              Entry (Os (Spawn "docker" ["login"; "--username"; "AWS"; "--password-stdin"; reg] (Some password) None))
                (Ok (pre ++ Close (Some 0) :: post))] ∧
      (∀ c, Close c ∉ pre) ∧
      ∀ pw, token = ecr_token pw → str_forall (λ a, negb (bool_decide (a = ":"%char))) pw = true → password = pw
  end.
Proof.
  intros Hx. by_wp Hx. unfold ensureEcrLogin. apply wp_hist_sys. intros registry. cbn [app].
  destruct (truthy registry) as [reg|] eqn:Ht; [|exists registry, []; by rewrite Ht].
  set (Q := λ (o : outcome unit) (_ : S) (tr : list entry), _).
  assert (∀ o s1 rest, (o = Ok tt → False) → Q o s1 (Entry (Sys (ProcessEnv "ECR_REGISTRY")) registry :: rest)) as Herr.
  { intros o1 s1 rest Ho. exists registry, rest. rewrite Ht. split; [done|]. intros Hok. by destruct (Ho Hok). }
  apply wp_hist_sys. intros region. cbn [app]. apply wp_hist. intros [token0|x] s1; [|by apply Herr]. cbn [app].
  destruct (truthy token0) as [token|] eqn:Htok; [|by apply Herr].
  assert (token0 = Some token) as -> by (destruct token0 as [[]|]; by simplify_eq/=).
  destruct (split_on ":" (base64_decode token) !! 1%nat) as [password|] eqn:Hpw.
  2: { apply wp_hist. intros [[]|x] s2; by apply Herr. }
  apply await_process_spec; [by intros; apply Herr|].
  intros evs code stderr s2 (pre & post & -> & Hno & ->). unfold login_close. case_bool_decide as Hcode; [|by apply Herr].
  subst code. exists registry. eexists. split; [reflexivity|]. rewrite Ht. intros _.
  exists region, token, password, pre, post. split; [reflexivity|]. split; [exact Hno|].
  intros pw -> Hcolon. apply token_password in Hcolon. congruence.
Qed.

(** ** Concrete executions *)

Module WorkerDemo.
#[local] Existing Instance json_codec.
Definition job : InvocationJob :=
  {| job_imageTag := "mini-cloud-fn-hello:3"; job_event := Some (JObj [("name", JStr "world")]); job_timeoutMs := 3000; job_memoryMb := 128 |}.
Definition fields : list string := InvocationDispatchService.job_fields "c-1" job.
Definition report : string := JSON_stringify (JObj [("status", JStr "success"); ("result", JNum 42); ("durationMs", JNum 3)]).
Definition alive : WorkerHeartbeat := {| workerId := "w1"; capacity := 1; inFlight := 0; lastHeartbeatAt := 999000 |}.
(** One message of a dead worker and one of a live one are pending. *)
Definition script : ∀ X, ev X → X :=
  λ X e, match e in ev X return X with
         | Redis e' => match e' in redis_eff X return outcome X with
                       | XpendingIdle _ _ _ _ => Ok [("5-0", "w-dead", 9000, 1); ("6-0", "w1", 9000, 1)]
                       | Hgetall _ => Ok [("w1", JSON_stringify (heartbeat_json alive))]
                       | Xclaim _ _ _ _ id => Ok [(id, fields)]
                       | Publish _ _ => Ok 1
                       | Xack _ _ _ => Ok 1
                       | _ => down
                       end
         | Aws e' => match e' in aws_eff X return outcome X with
                     | EcrGetAuthorizationToken => Ok (Some (ecr_token "secret"))
                     | _ => down
                     end
         | Os e' => match e' in os_eff X return outcome X with
                    | Spawn _ _ _ _ => Ok [Close (Some 0)]
                    | SetTimeoutMs _ => Ok tt
                    end
         | Sys e' => match e' in sys_eff X return X with
                     | ProcessEnv name => if bool_decide (name = "ECR_REGISTRY") then Some "1.dkr.ecr" else None
                     | e' => quiet _ (Sys e') (mem_of empty_tables)
                     end
         | e => ContainerDemo.script [Close (Some 0)] true report _ e
         end.
Definition idle : worker := {| w_running := true; w_inFlight := 0; w_heartbeatTimer := true; w_loop_ended := false |}.
End WorkerDemo.
#[local] Existing Instance json_codec.
#[local] Existing Instance ContainerDemo.tmp.

Lemma worker_message_correct_witness :
  ∃ s' tr, exec (history_env ev) still (handleMessage "w2" "5-0" WorkerDemo.fields) WorkerDemo.idle [] (Ok tt) s' tr ∧
    w_inFlight s' = 0 ∧ length tr = 20%nat.
Proof.
  eexists _, _. split; [scripted_by (λ X e (_ : list entry), WorkerDemo.script X e)|]. split; [|reflexivity].
  apply (worker_message_correct "w2" still "5-0" WorkerDemo.fields WorkerDemo.idle (Ok tt) _ _ (λ s s' (H : still s s'), f_equal w_inFlight H)
    ltac:(scripted_by (λ X e (_ : list entry), WorkerDemo.script X e))).
Defined.

Lemma reclaims_only_from_dead_witness :
  ∃ s' tr, exec (history_env ev) still (reclaimFromDeadWorkers "w2") WorkerDemo.idle [] (Ok tt) s' tr ∧ claims tr = ["5-0"] ∧
    (claims tr = [] ∨ ∃ workers entries, claims tr = abandoned "w2" workers entries).
Proof.
  assert (∃ s' tr, exec (history_env ev) still (reclaimFromDeadWorkers "w2") WorkerDemo.idle [] (Ok tt) s' tr ∧ claims tr = ["5-0"]) as (s' & tr & Hx & Hc).
  { eexists _, _. split; [scripted_by (λ X e (_ : list entry), WorkerDemo.script X e)|]. reflexivity. }
  exists s', tr. split; [exact Hx|]. split; [exact Hc|].
  destruct (reclaims_only_from_dead "w2" still WorkerDemo.idle (Ok tt) s' tr Hx)
    as [[H _]|(v & idle & entries & raw & now & workers & rest & _ & _ & _ & H)]; [by left|].
  right. exists workers, entries. by apply H.
Defined.

Lemma worker_runs_dispatched_job_witness :
  "c-1" ∉ field_names ∧
  invocation WorkerDemo.fields =
    executeVersionedFunction "mini-cloud-fn-hello:3" (Some (JObj [("name", JStr "world")]))
      {| opt_timeoutMs := Some (Some 3000); opt_memoryMb := Some (Some 128); opt_cpus := None |}.
Proof.
  assert ("c-1" ∉ field_names) as Hc by (apply (bool_decide_unpack _); vm_compute; exact I).
  split; [exact Hc|]. apply (worker_runs_dispatched_job "c-1" WorkerDemo.job); [exact Hc| |vm_compute; reflexivity].
  apply (bool_decide_unpack _). vm_compute. exact I.
Defined.

Lemma ecr_login_correct_witness :
  ∃ s' tr, exec (history_env ev) still ensureEcrLogin tt [] (Ok tt) s' tr ∧
    ∃ registry rest, tr = Entry (Sys (ProcessEnv "ECR_REGISTRY")) registry :: rest.
Proof.
  eexists _, _. split; [scripted_by (λ X e (_ : list entry), WorkerDemo.script X e)|].
  edestruct (ecr_login_correct still tt (Ok tt)) as (registry & rest & H & _); [scripted_by (λ X e (_ : list entry), WorkerDemo.script X e)|].
  exists registry, rest. exact H.
Defined.
