(* ===== verification/Metrics.v ===== *)
(** * Metrics and small endpoints (src/metrics, src/workers, src/health, src/worker/worker-metrics-server.service.ts)

    [MetricsService]'s series, the scrape of the API process with its fleet-wide
    gauges, the plain HTTP listener of the worker process and its lifecycle, the
    worker list and the health probe. *)

From S2P Require Import Prelude Json JsonText Prog Services Percentile Database Schema Registry Dispatch Storage Functions Worker.
#[local] Open Scope Z_scope.

(** ** metrics.service.ts *)

(** A series of the registry: its kind, name, label names and buckets. *)
Inductive metric_kind := Counter (labelNames : list string) | Histogram (buckets : list Z) | Gauge.
Record metric := { metric_name : string; metric_type : metric_kind }.

Module MetricsService.
Definition invocationsTotal : metric := {| metric_name := "mini_cloud_invocations_total"; metric_type := Counter ["status"] |}.
Definition invocationDurationMs : metric :=
  {| metric_name := "mini_cloud_invocation_duration_ms"; metric_type := Histogram [10; 50; 100; 250; 500; 1000; 2500; 5000; 10000] |}.
Definition workerInFlight : metric := {| metric_name := "mini_cloud_worker_in_flight"; metric_type := Gauge |}.
Definition invocationQueueDepth : metric := {| metric_name := "mini_cloud_invocation_queue_depth"; metric_type := Gauge |}.
Definition healthyWorkers : metric := {| metric_name := "mini_cloud_healthy_workers"; metric_type := Gauge |}.
Definition registry : list metric :=
  [invocationsTotal; invocationDurationMs; workerInFlight; invocationQueueDepth; healthyWorkers].
Definition metricsText {S} : prog ev S string := sys MetricsText.
End MetricsService.

(** ** metrics.controller.ts *)

#[export] Instance xinfo_value_eq_dec : EqDecision xinfo_value.
Proof. solve_decision. Defined.

(** [Promise.all([p, q])] of two chains of Redis commands on one connection: both
    run to their end, and the first to reject is the first in the queue. *)
Definition settled {S A} (p : prog ev S A) : prog ev S (outcome A) :=
  try_catch (a ← p; Ret (Ok a)) (λ x, Ret (Err x)).
Definition promise_all {S A B} (p : prog ev S A) (q : prog ev S B) : prog ev S (A * B) :=
  a ← settled p;
  b ← settled q;
  match a, b with
  | Ok x, Ok y => Ret (x, y)
  | Err x, _ => Throw x
  | Ok _, Err y => Throw y
  end.

(** [fields[fields.indexOf(name) + 1]] on a raw reply. *)
Definition xinfo_get (name : string) (fields : list xinfo_value) : option xinfo_value :=
  arr_get fields (indexOf (XText name) fields + 1).

(** The lag the reply of [XINFO GROUPS] gives. *)
Definition lag_of (groups : list (list xinfo_value)) : Z :=
  match List.find (λ fields, bool_decide (xinfo_get "name" fields = Some (XText INVOCATION_CONSUMER_GROUP))) groups with
  | None => 0
  | Some group => match xinfo_get "lag" group with Some (XNumber n) => n | _ => 0 end
  end.

Module MetricsController.
Section controller.
Context `{JC : JsonCodec} {S : Type}.

Definition getConsumerGroupLag : prog ev S Z :=
  groups ← redis (XinfoGroups INVOCATION_STREAM_KEY);
  Ret (lag_of groups).

Definition getMetrics : prog ev S string :=
  r ← promise_all getConsumerGroupLag WorkerRegistryService.listWorkers;
  let '(queueDepth, workers) := r in
  _ ← sys (GaugeSet (metric_name MetricsService.invocationQueueDepth) queueDepth);
  _ ← sys (GaugeSet (metric_name MetricsService.healthyWorkers) (Z.of_nat (length (List.filter st_healthy workers))));
  MetricsService.metricsText.
End controller.
End MetricsController.

(** ** workers.controller.ts, health.controller.ts *)

Definition WorkersController_list `{JC : JsonCodec} {S} : prog ev S (list WorkerStatus) := WorkerRegistryService.listWorkers.
Definition HealthController_check {S} : prog ev S json := Ret (JObj [("status", JStr "ok")]).

(** ** metrics-http-server.ts *)

(** The request listener: the status, the headers and the body sent. *)
Definition on_request {S} (url : string) : prog ev S (Z * list (string * string) * string) :=
  if bool_decide (url = "/metrics") then
    text ← MetricsService.metricsText;
    Ret (200, [("Content-Type", "text/plain; version=0.0.4; charset=utf-8")], text)
  else Ret (404, [], EmptyString).

(** The error listener: it only warns. *)
Definition on_server_error {S} (port : option Z) (code : option string) (message : string) : prog ev S unit :=
  if bool_decide (code = Some "EADDRINUSE") then
    sys (Log "warn" ("[metrics] port " +:+ string_of_num port +:+ " already in use - this process will run WITHOUT a scrapable /metrics endpoint. " +:+
                     "Running multiple workers on one host needs a unique WORKER_METRICS_PORT per process."))
  else sys (Log "warn" ("[metrics] server error (non-fatal): " +:+ message)).

(** A server: the port it was told to listen on, whether it was closed. *)
Record http_server := { srv_port : option Z; srv_closed : bool }.
Definition startMetricsServer (port : option Z) : http_server := {| srv_port := port; srv_closed := false |}.

(** ** worker-metrics-server.service.ts *)

Module WorkerMetricsServerService.
(** [process.env.WORKER_METRICS_PORT ? Number(...) : 9200] *)
Definition port_of (v : option string) : option Z :=
  match truthy v with Some text => Number text | None => Some 9200 end.

Definition onModuleInit : prog ev (option http_server) unit :=
  v ← sys (ProcessEnv "WORKER_METRICS_PORT");
  modify (λ _, Some (startMetricsServer (port_of v))).

Definition onModuleDestroy : prog ev (option http_server) unit :=
  modify (option_map (λ srv, {| srv_port := srv_port srv; srv_closed := true |})).
End WorkerMetricsServerService.

(** ** Properties *)

(** A group as Redis describes it, and its raw reply: names and values in turn. *)
Record redis_group := {
  grp_name : string; grp_consumers : Z; grp_pending : Z; grp_last_ms : Z; grp_last_seq : Z;
  grp_entries_read : option Z; grp_lag : option Z }.
Definition nullable (n : option Z) : xinfo_value := match n with Some k => XNumber k | None => XNil end.
Definition group_reply (g : redis_group) : list xinfo_value :=
  [XText "name"; XText (grp_name g); XText "consumers"; XNumber (grp_consumers g); XText "pending"; XNumber (grp_pending g);
   XText "last-delivered-id"; XText (string_of_Z (grp_last_ms g) +:+ "-" +:+ string_of_Z (grp_last_seq g));
   XText "entries-read"; nullable (grp_entries_read g); XText "lag"; nullable (grp_lag g)].

Lemma xinfo_get_name g : xinfo_get "name" (group_reply g) = Some (XText (grp_name g)).
Proof. reflexivity. Qed.

Lemma entry_id_no_lag a b : string_of_Z a +:+ "-" +:+ string_of_Z b ≠ "lag".
Proof.
  intros H. pose proof (string_of_Z_num a) as Hnum. pose proof (Number_string_of_Z a) as Hn.
  destruct (string_of_Z a) as [|c s]; [discriminate H|].
  change (String c s +:+ "-" +:+ string_of_Z b) with (String c (s +:+ "-" +:+ string_of_Z b)) in H.
  injection H as -> _. destruct Hnum as [Hnum _]; apply andb_prop in Hnum as [Hnum _]; discriminate Hnum.
Qed.

Lemma xinfo_get_lag g : grp_name g ≠ "lag" → xinfo_get "lag" (group_reply g) = Some (nullable (grp_lag g)).
Proof.
  intros Hn. pose proof (entry_id_no_lag (grp_last_ms g) (grp_last_seq g)) as Hid.
  unfold xinfo_get, group_reply. rewrite (indexOf_skip (XText "lag") (take 10 (group_reply g)) (drop 10 (group_reply g))).
  - reflexivity.
  - unfold group_reply, nullable. destruct (grp_entries_read g); simpl; set_solver.
  - unfold group_reply, nullable. simpl. set_solver.
Qed.

(** The reference: the lag of the invocation group, 0 when the group is missing
    or Redis cannot tell. *)
Definition group_lag (gs : list redis_group) : Z :=
  match List.find (λ g, bool_decide (grp_name g = INVOCATION_CONSUMER_GROUP)) gs with
  | Some g => default 0 (grp_lag g)
  | None => 0
  end.

Lemma lag_of_groups gs : lag_of (map group_reply gs) = group_lag gs.
Proof.
  unfold lag_of, group_lag. induction gs as [|g gs IH]; [done|]. cbn [map List.find]. rewrite xinfo_get_name.
  destruct (decide (grp_name g = INVOCATION_CONSUMER_GROUP)) as [He|Hne].
  - rewrite !bool_decide_eq_true_2 by congruence. rewrite xinfo_get_lag by (rewrite He; done). by destruct (grp_lag g).
  - rewrite !bool_decide_eq_false_2 by congruence. exact IH.
Qed.

Section scrape.
Context `{JC : JsonCodec} {S : Type} (R : S → S → Prop).

(** Reading the registry, settled: what it answers and the calls it makes. *)
Definition registry_read (o : outcome (list WorkerStatus)) (raw : outcome (list (string * string))) (calls : list entry) : Prop :=
  match o with
  | Ok workers => ∃ text now, raw = Ok text ∧ WorkerRegistryService.parse_workers now text = Ok workers ∧
      calls = [Entry (Redis (Hgetall REGISTRY_KEY)) raw; Entry (Sys DateNow) now]
  | Err _ => calls = [Entry (Redis (Hgetall REGISTRY_KEY)) raw] ∨ ∃ now, calls = [Entry (Redis (Hgetall REGISTRY_KEY)) raw; Entry (Sys DateNow) now]
  end.

Lemma settled_workers s tr :
  wp (history_env ev) R (settled WorkerRegistryService.listWorkers) s tr
    (λ o _ tr', ∃ r raw calls, o = Ok r ∧ tr' = tr ++ calls ∧ registry_read r raw calls).
Proof.
  unfold settled. apply wp_try, wp_bind. unfold WorkerRegistryService.listWorkers. apply wp_hist. intros [raw|x] s2.
  - apply wp_hist_sys. intros now. rewrite <- app_assoc.
    destruct (WorkerRegistryService.parse_workers now raw) as [workers|x] eqn:Hp; cbn [of_outcome wp];
      eexists _, (Ok raw), _; (split; [reflexivity|]); (split; [reflexivity|]).
    + by exists raw, now.
    + right. by exists now.
  - cbn [wp]. eexists _, (Err x), _. split; [reflexivity|]. split; [reflexivity|]. by left.
Qed.

(** C40: a scrape of the API: on the groups and the registry Redis answered, the
    queue depth gauge is the lag of the invocation group as Redis describes it
    (0 when it is missing or unknown), the worker gauge the number of workers
    healthy in the registry just read, and the text is rendered after both were
    set; if Redis or the registry fails nothing is set. *)
Theorem getMetrics_correct s o s' tr :
  exec (history_env ev) R MetricsController.getMetrics s [] o s' tr →
  ∃ groups rest, tr = Entry (Redis (XinfoGroups INVOCATION_STREAM_KEY)) groups :: Entry (Redis (Hgetall REGISTRY_KEY)) rest :: drop 2 tr ∧
  match o with
  | Ok text => ∃ gs raw now workers,
      groups = Ok gs ∧ rest = Ok raw ∧ WorkerRegistryService.parse_workers now raw = Ok workers ∧
      drop 2 tr = [Entry (Sys DateNow) now;
        Entry (Sys (GaugeSet "mini_cloud_invocation_queue_depth" (lag_of gs))) tt;
        Entry (Sys (GaugeSet "mini_cloud_healthy_workers" (Z.of_nat (length (List.filter st_healthy workers))))) tt;
        Entry (Sys MetricsText) text] ∧
      ∀ described, gs = map group_reply described → lag_of gs = group_lag described
  | Err x => Forall (λ en : entry, match entry_call en with Sys (GaugeSet _ _) => False | _ => True end) tr
  end.
Proof.
  intros Hx. by_wp Hx. unfold MetricsController.getMetrics, promise_all. set (first := Entry (Redis (XinfoGroups INVOCATION_STREAM_KEY))).
  apply wp_bind, wp_bind. unfold settled at 1, MetricsController.getConsumerGroupLag.
  unfold mbind, prog_mbind. cbn [redis call bind try_catch wp]. intros groups tr1 s1 -> _. cbn [app].
  assert (∀ a : outcome Z, wp (history_env ev) R
    (b ← settled WorkerRegistryService.listWorkers;
     match a, b with Ok x, Ok y => Ret (x, y) | Err x, _ => Throw x | Ok _, Err y => Throw y end) s1 [first groups]
    (λ o _ tr', ∃ r raw calls, tr' = first groups :: calls ∧ registry_read r raw calls ∧
       match o with Ok (n, workers) => a = Ok n ∧ r = Ok workers | Err _ => True end)) as Hboth.
  { intros a. apply wp_bind. eapply wp_mono; [apply settled_workers|].
    intros o2 s2 tr2 (r & raw & calls & -> & -> & Hr). destruct a as [n|x], r as [workers|y]; cbn [wp]; by eexists _, raw, calls. }
  destruct groups as [gs|x]; cbn [of_outcome bind try_catch wp].
  - eapply wp_mono; [apply (Hboth (Ok (lag_of gs)))|]. intros [[n workers]|x] s2 tr2 (r & raw & calls & -> & Hr & Ho).
    + destruct Ho as [[= <-] ->], Hr as (text & now & -> & Hp & ->).
      apply wp_hist_sys. intros []. apply wp_hist_sys. intros []. cbn [MetricsService.metricsText sys ask wp].
      intros out tr3 s3 -> _. eexists _, _. split; [reflexivity|]. exists gs, text, now, workers.
      split_and!; [done..|reflexivity|]. intros described ->. apply lag_of_groups.
    + eexists _, raw. destruct r as [workers|y]; [destruct Hr as (text & now & -> & _ & ->)|destruct Hr as [->|[now ->]]];
        (split; [reflexivity|]); by repeat constructor.
  - eapply wp_mono; [apply (Hboth (Err x))|]. intros [[n workers]|y] s2 tr2 (r & raw & calls & -> & Hr & Ho); [by destruct Ho|].
    eexists _, raw. destruct r as [workers|z]; [destruct Hr as (text & now & -> & _ & ->)|destruct Hr as [->|[now ->]]];
      (split; [reflexivity|]); by repeat constructor.
Qed.
End scrape.

(** ** Concrete executions *)

Module MetricsDemo.
Definition group : redis_group :=
  {| grp_name := "invocation-workers"; grp_consumers := 2; grp_pending := 1; grp_last_ms := 1700; grp_last_seq := 0;
     grp_entries_read := Some 40; grp_lag := Some 3 |}.
Definition script : ∀ X, ev X → X :=
  λ X e, match e in ev X return X with
         | Redis e' => match e' in redis_eff X return outcome X with
                       | XinfoGroups _ => Ok [group_reply group]
                       | e' => WorkerDemo.script _ (Redis e')
                       end
         | e => WorkerDemo.script _ e
         end.
End MetricsDemo.
#[local] Existing Instance json_codec.

Lemma getMetrics_correct_witness :
  ∃ s' tr, exec (history_env ev) still MetricsController.getMetrics tt [] (Ok EmptyString) s' tr ∧
    In (Entry (Sys (GaugeSet "mini_cloud_invocation_queue_depth" 3)) tt) tr ∧
    ∃ groups rest, tr = Entry (Redis (XinfoGroups INVOCATION_STREAM_KEY)) groups :: Entry (Redis (Hgetall REGISTRY_KEY)) rest :: drop 2 tr.
Proof.
  eexists _, _. split; [scripted_by (λ X e (_ : list entry), MetricsDemo.script X e)|]. split; [simpl; tauto|].
  edestruct (getMetrics_correct still tt (Ok EmptyString) tt) as (groups & rest & H & _); [scripted_by (λ X e (_ : list entry), MetricsDemo.script X e)|].
  exists groups, rest. exact H.
Defined.
