(* ===== verification/Executor.v ===== *)
(** * The in-process executor and the command lines (src/executor.ts, run.ts, run-container.ts)

    [executeFunction] loads a module, calls its handler and races it against a
    timer.  The user's code and the event loop are what its own event family
    answers; the command-line entry points parse their arguments and run it, or
    the container runtime. *)

From S2P Require Import Prelude Json JsonText Prog Services Percentile Database Schema Storage Build Container.
#[local] Open Scope Z_scope.

(** What user code throws: an [Error], [null] or [undefined], another value. *)
Inductive thrown := TError (message : string) | TNullish (text : string) | TValue (text : string).

(** What a module exports: a function [handler], an object without one, [null] or
    [undefined]. *)
Inductive exports := HandlerFunction | NoHandler | NullishExports (text : string).

(** What happens to the two promises of the race, in the event loop's order. *)
Inductive race_event := HandlerResolves (v : option json) | HandlerRejects (t : thrown) | TimerRejects.

Inductive exec_eff : Type → Type :=
| Now : exec_eff Z
(** [require.resolve], dropping the cache entry, [require]. *)
| Require (path : string) : exec_eff (thrown + exports)
(** Calling the handler in a promise job, the timer armed beside it. *)
| CallHandler (event : option json) (timeoutMs : Z) : exec_eff (list race_event)
| ClearTimeout : exec_eff unit
| Print (stream text : string) : exec_eff unit
| Exit (code : Z) : exec_eff unit.

#[export] Instance exec_events : Events exec_eff :=
  λ X e, match e with CallHandler _ _ => true | _ => false end.

(** [(err as Error).message], and [err instanceof Error ? err.message : String(err)]. *)
Definition message_of (t : thrown) : outcome (option string) :=
  match t with
  | TError m => Ok (Some m)
  | TNullish v => Err (JsError ("Cannot read properties of " +:+ v +:+ " (reading 'message')"))
  | TValue _ => Ok None
  end.
Definition thrown_text (t : thrown) : string :=
  match t with TError m | TNullish m | TValue m => m end.

(** [Promise.race]: the first settlement counts; [None] while there is none.  A
    rejection by the timer is the private [TimeoutMarker]. *)
Inductive race_result := Won (v : option json) | Failed (t : thrown) | TimedOut.
Definition race (evs : list race_event) : option race_result :=
  match evs with
  | [] => None
  | HandlerResolves v :: _ => Some (Won v)
  | HandlerRejects t :: _ => Some (Failed t)
  | TimerRejects :: _ => Some TimedOut
  end.

Definition outcome_object (status : string) (field : list (string * option json)) (durationMs : Z) : json :=
  object ([("status", Some (JStr status))] ++ field ++ [("durationMs", Some (JNum durationMs))]).

Section executor.
Context {CWD : Cwd} {S : Type}.

Definition now : prog exec_eff S Z := ask Now.

(** A call whose promise may stay pending for ever. *)
Definition race_promise (event : option json) (timeoutMs : Z) : prog exec_eff S race_result :=
  evs ← ask (CallHandler event timeoutMs);
  match race evs with
  | Some r => Ret r
  | None => Wait (λ _, None) Ret
  end.

Definition executeFunction (functionPath : string) (event : option json) (timeoutMs_opt : option (option Z)) : prog exec_eff S json :=
  let timeoutMs := default (Some 3000) timeoutMs_opt in
  start ← now;
  loaded ← ask (Require (path_resolve functionPath));
  match loaded with
  | inl err =>
      message ← of_outcome (message_of err);
      t ← now;
      Ret (outcome_object "error" [("error", Some (JStr ("Failed to load function module: " +:+ default "undefined" message)))] (t - start))
  | inr (NullishExports v) => Throw (JsError ("Cannot read properties of " +:+ v +:+ " (reading 'handler')"))
  | inr NoHandler =>
      t ← now;
      Ret (outcome_object "error" [("error", Some (JStr ("Module at " +:+ dq +:+ functionPath +:+ dq +:+ " does not export a " +:+ dq +:+ "handler" +:+ dq +:+ " function")))] (t - start))
  | inr HandlerFunction =>
      try_finally
        (result ← race_promise event (setTimeout_ms timeoutMs);
         t ← now;
         Ret (match result with
              | Won v => outcome_object "success" [("result", v)] (t - start)
              | TimedOut => outcome_object "timeout" [] (t - start)
              | Failed err => outcome_object "error" [("error", Some (JStr (thrown_text err)))] (t - start)
              end))
        (ask ClearTimeout)
  end.

(** [JSON.stringify(v, null, 2)], at the indentation [ind]: the scalars, the keys
    and the empty containers as [JSON.stringify] writes them, one line per element
    or field. *)
Fixpoint pretty `{JC : JsonCodec} (ind : string) (v : json) : string :=
  let inner := ind +:+ "  " in
  match v with
  | JArr (_ :: _ as l) => "[" +:+ newline +:+ join ("," +:+ newline) (map (λ x, inner +:+ pretty inner x) l) +:+ newline +:+ ind +:+ "]"
  | JObj (_ :: _ as fs) =>
      "{" +:+ newline +:+ join ("," +:+ newline) (map (λ kv, inner +:+ JSON_stringify (JStr kv.1) +:+ ": " +:+ pretty inner kv.2) fs) +:+ newline +:+ ind +:+ "}"
  | v => JSON_stringify v
  end.

(** ** run.ts *)

(** [process.exit(code)]: nothing runs after it. *)
Definition exit {A} (code : Z) : prog exec_eff S A := Do (Exit code) (λ _, Wait (λ _, None) Ret).

Definition main `{JC : JsonCodec} (argv : list string) : prog exec_eff S unit :=
  match truthy (argv !! 2%nat) with
  | None =>
      _ ← ask (Print "error" "Usage: npm start -- <path-to-function.js> [eventJson]");
      exit 1
  | Some functionPath =>
      event ← match truthy (argv !! 3%nat) with
              | None => Ret (JObj [])
              | Some eventArg =>
                  match JSON_parse eventArg with
                  | Some v => Ret v
                  | None => _ ← ask (Print "error" "Event argument must be valid JSON"); exit 1
                  end
              end;
      outcome ← executeFunction functionPath (Some event) None;
      ask (Print "log" (pretty EmptyString outcome))
  end.
End executor.

(** ** run-container.ts *)

(** The arguments of the container command line: a refusal, with what it prints,
    or the function and its event. *)
Definition container_cli `{JC : JsonCodec} (argv : list string) : string + (string * json) :=
  match truthy (argv !! 2%nat) with
  | None => inl "Usage: npm run start:container -- <path-to-function.js> [eventJson]"
  | Some functionPath =>
      match truthy (argv !! 3%nat) with
      | None => inr (functionPath, JObj [])
      | Some eventArg =>
          match JSON_parse eventArg with
          | Some v => inr (functionPath, v)
          | None => inl "Event argument must be valid JSON"
          end
      end
  end.

(** The run after the arguments were accepted; [Log] stands for the console. *)
Definition container_main `{JC : JsonCodec} {TMP : OsTmpdir} {CWD : Cwd} {S} (argv : list string) : prog ev S (option Z) :=
  match container_cli argv with
  | inl message => _ ← sys (Log "error" message); Ret (Some 1)
  | inr (functionPath, event) =>
      outcome ← executeInContainer functionPath (Some event) {| opt_timeoutMs := None; opt_memoryMb := None; opt_cpus := None |};
      _ ← sys (Log "log" (pretty EmptyString outcome));
      Ret None
  end.

(** ** Properties *)

Notation xentry := (Prog.entry exec_eff).

Section executor_properties.
Context {CWD : Cwd} {S : Type} (R : S → S → Prop).

(** The duration between the two readings of the clock. *)
Definition took (t0 t1 : Z) : json := JNum (t1 - t0).

(** The executor never lets user code throw through it, with one exception:
    on every other path it returns one outcome — the load error, the missing
    handler, or what the first of the two racing promises settled to — with the
    time measured between its two clock readings; the timer is cleared on every
    path that armed it.  It throws only when loading threw [null] or
    [undefined], or the module exports one of them. *)
Theorem executeFunction_correct path event limit s o s' tr :
  exec (history_env exec_eff) R (executeFunction path event limit) s [] o s' tr →
  ∃ t0 loaded rest, tr = Entry Now t0 :: Entry (Require (path_resolve path)) loaded :: rest ∧
  match o with
  | Err _ => rest = [] ∧ (∃ text, loaded = inl (TNullish text) ∨ loaded = inr (NullishExports text))
  | Ok out => ∃ t1,
      match loaded with
      | inl (TNullish _) | inr (NullishExports _) => False
      | inl (TError m) | inl (TValue m) => rest = [Entry Now t1] ∧
          out = JObj [("status", JStr "error");
            ("error", JStr ("Failed to load function module: " +:+ match loaded with inl (TError m) => m | _ => "undefined" end));
            ("durationMs", took t0 t1)]
      | inr NoHandler => rest = [Entry Now t1] ∧ json_get "status" out = Some (JStr "error") ∧ json_get "durationMs" out = Some (took t0 t1)
      | inr HandlerFunction => ∃ first evs,
          rest = [Entry (CallHandler event (setTimeout_ms (default (Some 3000) limit))) (first :: evs); Entry Now t1; Entry ClearTimeout tt] ∧
          out = match first with
                | HandlerResolves (Some v) => JObj [("status", JStr "success"); ("result", v); ("durationMs", took t0 t1)]
                | HandlerResolves None => JObj [("status", JStr "success"); ("durationMs", took t0 t1)]
                | HandlerRejects t => JObj [("status", JStr "error"); ("error", JStr (thrown_text t)); ("durationMs", took t0 t1)]
                | TimerRejects => JObj [("status", JStr "timeout"); ("durationMs", took t0 t1)]
                end
      end
  end.
Proof.
  intros Hx. by_wp Hx. unfold executeFunction, now, race_promise, mbind, prog_mbind.
  cbn [ask bind wp]. intros t0 ? ? -> [=->] loaded ? ? -> [=->]. cbn [app].
  destruct loaded as [[m|m|m]|[| |m]]; cbn [message_of of_outcome ask bind wp try_finally].
  - intros t1 ? ? -> [=->]. eexists t0, _, _. split; [reflexivity|]. by exists t1.
  - eexists t0, _, _. split; [reflexivity|]. split; [done|]. exists m. by left.
  - intros t1 ? ? -> [=->]. eexists t0, _, _. split; [reflexivity|]. by exists t1.
  - intros evs ? s1 -> _. destruct evs as [|first evs]; [by intros s2 x _ [=]|].
    destruct first as [v|t|]; cbn [race bind wp try_finally ask]; intros t1 ? ? -> [=->] [] ? ? -> [=->]; cbn [wp];
      eexists t0, _, _; (split; [reflexivity|]); exists t1; eexists _, evs; (split; [reflexivity|]); [by destruct v|reflexivity|reflexivity].
  - intros t1 ? ? -> [=->]. eexists t0, _, _. split; [reflexivity|]. by exists t1.
  - eexists t0, _, _. split; [reflexivity|]. split; [done|]. exists m. by right.
Qed.
End executor_properties.

(** ** Concrete executions *)

Module ExecutorDemo.
#[export] Instance cwd : Cwd := "/srv/app".
(** The clock ticks once per call. *)
Definition script (loaded : thrown + exports) (evs : list race_event) : ∀ X, exec_eff X → list xentry → X :=
  λ X e w, match e in exec_eff Y return Y with
           | Now => Z.of_nat (length w) * 10
           | Require _ => loaded
           | CallHandler _ _ => evs
           | ClearTimeout | Print _ _ | Exit _ => tt
           end.
Definition slow : list race_event := [TimerRejects; HandlerResolves (Some (JNum 1))].
End ExecutorDemo.
#[local] Existing Instance ExecutorDemo.cwd.

Lemma executeFunction_correct_witness :
  ∃ s' tr, exec (history_env exec_eff) still (executeFunction "functions/hangs.js" None None) tt []
      (Ok (JObj [("status", JStr "timeout"); ("durationMs", JNum 30)])) s' tr ∧
    ∃ t0 loaded rest, tr = Entry Now t0 :: Entry (Require "/srv/app/functions/hangs.js") loaded :: rest.
Proof.
  eexists _, _. split; [scripted_by (ExecutorDemo.script (inr HandlerFunction) ExecutorDemo.slow)|].
  edestruct (executeFunction_correct still "functions/hangs.js" None None tt (Ok (JObj [("status", JStr "timeout"); ("durationMs", JNum 30)])))
    as (t0 & loaded & rest & H & _); [scripted_by (ExecutorDemo.script (inr HandlerFunction) ExecutorDemo.slow)|].
  exists t0, loaded, rest. exact H.
Defined.

(** A module that throws [null] while loading is not reported: the promise of
    [executeFunction] rejects, and [main] has no handler for it. *)
Example nullish_throw_escapes :
  (λ r, r.1.1) <$> run (scripted (ExecutorDemo.script (inl (TNullish "null")) [])) (executeFunction "f.js" None None) tt [] =
    Some (Err (JsError "Cannot read properties of null (reading 'message')")).
Proof. vm_compute. reflexivity. Qed.
