(* ===== verification/Shim.v ===== *)
(** * The runtime inside the container (runtime/shim.js)

    The shim reads the event, loads the user's handler, runs it once and writes
    one report, which the host's [close] listener (Container.v) reads back.  The
    file proves the two halves fit: what the host answers is what the handler did. *)

From S2P Require Import Prelude Json JsonText Prog Services Percentile Database Schema Storage Build Container Executor.
#[local] Open Scope Z_scope.

(** What the handler's promise does: a value with a JSON form ([None]: undefined),
    a value [JSON.stringify] throws on, a rejection, nothing. *)
Inductive settlement := Returned (v : option json) | Unserialisable (message : string) | Rejected (t : thrown) | NeverSettles.

Inductive shim_eff : Type → Type :=
| ShimNow : shim_eff Z
| ReadEvent (path : string) : shim_eff (outcome string)
| RequireHandler (path : string) : shim_eff (thrown + exports)
| RunHandler (event : json) : shim_eff settlement
| WriteReport (path text : string) : shim_eff (outcome unit).

#[export] Instance shim_events : Events shim_eff := λ X e, match e with RunHandler _ => true | _ => false end.

Definition exn_of (t : thrown) : exn := match t with TError m => JsError m | TNullish v | TValue v => JsValue v end.

Definition NO_HANDLER : string := "Module does not export a " +:+ dq +:+ "handler" +:+ dq +:+ " function".
Definition nullish_access (v : string) : string := "Cannot read properties of " +:+ v +:+ " (reading 'handler')".

Section shim.
Context `{JC : JsonCodec} {S : Type}.

(** [JSON.stringify(outcome)], which throws on a circular result. *)
Definition stringify (outcome : json + string) : prog shim_eff S string :=
  match outcome with inl v => Ret (JSON_stringify v) | inr message => Throw (JsError message) end.

(** The [try] block: the event, the module, the handler's result. *)
Definition shim_try (start : Z) : prog shim_eff S (json + string) :=
  text ← call (ReadEvent "/var/task/event.json");
  event ← match JSON_parse text with Some v => Ret v | None => Throw (JsError "Unexpected token in JSON") end;
  loaded ← ask (RequireHandler "/var/task/handler.js");
  match loaded with
  | inl t => Throw (exn_of t)
  | inr (NullishExports v) => Throw (JsError (nullish_access v))
  | inr NoHandler => Throw (JsError NO_HANDLER)
  | inr HandlerFunction =>
      settled ← ask (RunHandler event);
      match settled with
      | NeverSettles => Wait (λ _, None) Ret
      | Rejected t => Throw (exn_of t)
      | Unserialisable message => _ ← ask ShimNow; Ret (inr message)
      | Returned v => t ← ask ShimNow; Ret (inl (outcome_object "success" [("result", v)] (t - start)))
      end
  end.

Definition shim_main : prog shim_eff S unit :=
  start ← ask ShimNow;
  outcome ← try_catch (shim_try start)
    (λ err, t ← ask ShimNow;
            Ret (inl (outcome_object "error" [("error", Some (JStr (err_message err)))] (t - start))));
  text ← stringify outcome;
  call (WriteReport "/output/result.json" text).
End shim.

(** ** The container around it *)

(** What the container holds: the event file, the module, the handler, and the
    output directory, which takes the report or refuses it. *)
Record container := {
  c_event : outcome string; c_loaded : thrown + exports; c_handler : json → settlement; c_output : outcome unit }.

(** Its environment; the world is the report file.  [Date.now()] is a time value
    of JavaScript. *)
Definition container_env (c : container) : Env shim_eff (option string) :=
  λ X e file, match e in shim_eff Y return Y → option string → Prop with
              | ShimNow => λ t file', 0 ≤ t ≤ 8640000000000000 ∧ file' = file
              | ReadEvent _ => λ r file', r = c_event c ∧ file' = file
              | RequireHandler _ => λ r file', r = c_loaded c ∧ file' = file
              | RunHandler event => λ r file', r = c_handler c event ∧ file' = file
              | WriteReport _ text => λ r file', r = c_output c ∧ file' = if is_Ok r then Some text else file
              end.

Section reference.
Context `{JC : JsonCodec}.

(** The reference: the status and the field the container should be reported
    with; [None] when it can give no report. *)
Definition failed (message : string) : option (string * (string * option json)) := Some ("error", ("error", Some (JStr message))).
Definition verdict (c : container) : option (string * (string * option json)) :=
  match c_event c with
  | Err x => failed (err_message x)
  | Ok text =>
      match JSON_parse text, c_loaded c with
      | None, _ => failed "Unexpected token in JSON"
      | Some _, inl t => failed (thrown_text t)
      | Some _, inr (NullishExports v) => failed (nullish_access v)
      | Some _, inr NoHandler => failed NO_HANDLER
      | Some event, inr HandlerFunction =>
          match c_handler c event with
          | Returned v => Some ("success", ("result", v))
          | Rejected t => failed (thrown_text t)
          | Unserialisable _ | NeverSettles => None
          end
      end
  end.

(** The handler's values are ones JavaScript holds as written. *)
Definition plain_results (c : container) : Prop := ∀ event v, c_handler c event = Returned (Some v) → json_ok v = true.

(** The handler returned a value [JSON.stringify] throws [m] on. *)
Definition no_json_form (c : container) (m : string) : Prop :=
  ∃ text event, c_event c = Ok text ∧ JSON_parse text = Some event ∧ c_loaded c = inr HandlerFunction ∧
    c_handler c event = Unserialisable m.

Lemma err_message_exn_of t : err_message (exn_of t) = thrown_text t.
Proof. by destruct t. Qed.

(** A report: the verdict, and the shim's own duration. *)
Definition report (v : string * (string * option json)) (d : Z) : json := outcome_object v.1 [v.2] d.

(** What the [try] block and its [catch] give. *)
Lemma shim_try_spec {S} (R : S → S → Prop) c start s file (Q : outcome (json + string) → S → option string → Prop) :
  0 ≤ start ≤ 8640000000000000 →
  (∀ v d s', verdict c = Some v → Z.abs d < 2 ^ 53 → Q (Ok (inl (report v d))) s' file) →
  (∀ m s', no_json_form c m → Q (Ok (inr m)) s' file) →
  wp (container_env c) R
    (try_catch (shim_try start)
       (λ err, t ← ask ShimNow; Ret (inl (outcome_object "error" [("error", Some (JStr (err_message err)))] (t - start))))) s file Q.
Proof.
  intros Hst Hok Hno.
  assert (∀ x s1, failed (err_message x) = verdict c →
    wp (container_env c) R (t ← ask ShimNow; Ret (inl (outcome_object "error" [("error", Some (JStr (err_message x)))] (t - start)))) s1 file Q) as Hcatch.
  { intros x s1 Hv t w1 s2 [Ht ->] [=->]. cbn [wp]. apply (Hok ("error", ("error", Some (JStr (err_message x))))); [by rewrite <- Hv|lia]. }
  unfold shim_try, verdict in *. apply wp_try. cbn [call mbind prog_mbind bind wp].
  intros r w1 s1 [-> ->] [=->]. destruct (c_event c) as [text|x] eqn:Hev; cbn [of_outcome mbind prog_mbind bind wp]; [|by apply Hcatch].
  destruct (JSON_parse text) as [event|] eqn:Htext; cbn [mbind prog_mbind bind wp ask]; [|by apply Hcatch].
  intros loaded w2 s2 [-> ->] [=->]. destruct (c_loaded c) as [t|[| |v]] eqn:Hl; cbn [mbind prog_mbind bind wp ask].
  - apply Hcatch. by rewrite err_message_exn_of.
  - intros settled w3 s3 [-> ->] _. destruct (c_handler c event) as [v|m|t|] eqn:Hh; cbn [mbind prog_mbind bind wp ask].
    + intros t w4 s4 [Ht ->] [=->]. cbn [wp]. apply (Hok ("success", ("result", v))); [done|lia].
    + intros t w4 s4 [Ht ->] [=->]. cbn [wp]. apply Hno. by exists text, event.
    + apply Hcatch. by rewrite err_message_exn_of.
    + by intros s4 y _ [=].
  - by apply Hcatch.
  - by apply Hcatch.
Qed.

Lemma report_ok c v d : verdict c = Some v → plain_results c → Z.abs d < 2 ^ 53 → json_ok (report v d) = true.
Proof.
  intros Hv Hp Hd. assert (json_ok (JNum d) = true) as Hn by by apply Z.ltb_lt.
  assert (∀ m, failed m = Some v → json_ok (report v d) = true) as Hfail.
  { intros m [= <-]. cbn -[Z.pow] in *. by rewrite Hn. }
  unfold verdict in Hv. destruct (c_event c); [|by eapply Hfail]. destruct (JSON_parse a) as [event|]; [|by eapply Hfail].
  destruct (c_loaded c) as [t|[| |w]]; try (by eapply Hfail).
  destruct (c_handler c event) as [[r|]|m|t|] eqn:Hh; try done; try (by eapply Hfail); injection Hv as <-; cbn -[Z.pow] in *.
  - by rewrite (Hp _ _ Hh), Hn.
  - by rewrite Hn.
Qed.

(** The host puts its own duration in the place of the shim's. *)
Lemma report_rewritten c v d d' : verdict c = Some v → JObj (json_set "durationMs" (JNum d') (json_fields (report v d))) = report v d'.
Proof.
  assert (∀ m, failed m = Some v → JObj (json_set "durationMs" (JNum d') (json_fields (report v d))) = report v d') as Hfail.
  { by intros m [= <-]. }
  intros Hv. unfold verdict in Hv. destruct (c_event c); [|by eapply Hfail]. destruct (JSON_parse a) as [event|]; [|by eapply Hfail].
  destruct (c_loaded c) as [t|[| |w]]; try (by eapply Hfail).
  destruct (c_handler c event) as [[r|]|m|t|]; try done; try (by eapply Hfail); by injection Hv as <-.
Qed.

(** What the shim leaves behind: its report of the verdict; or nothing, and then
    the write failed or the result has no JSON form. *)
Lemma shim_report {S} (R : S → S → Prop) c s o s' file :
  exec (container_env c) R shim_main s None o s' file →
  (file = None ∧ ∃ x, o = Err x ∧ ((verdict c ≠ None ∧ c_output c = Err x) ∨ ∃ m, no_json_form c m ∧ x = JsError m)) ∨
  ∃ v d, verdict c = Some v ∧ Z.abs d < 2 ^ 53 ∧ o = Ok tt ∧ file = Some (JSON_stringify (report v d)).
Proof.
  intros Hx. by_wp Hx. unfold shim_main. cbn [ask mbind prog_mbind bind wp]. intros t0 w0 s0 [Ht0 ->] [=->].
  apply wp_bind, shim_try_spec; [done| |].
  - intros v d s1 Hv Hd. cbn [stringify mbind prog_mbind bind wp call].
    intros r w1 s3 [-> ->] [=->]. destruct (c_output c) as [[]|x]; cbn; [right; by exists v, d|].
    left. split; [done|]. exists x. split; [done|]. left. by rewrite Hv.
  - intros m s1 Hm. cbn [stringify mbind prog_mbind bind wp]. left. split; [done|]. eexists. split; [done|]. right. by exists m.
Qed.

End reference.

(** ** Concrete executions *)

Module ShimDemo.
(** A container around a handler that greets its caller. *)
Definition hello : container :=
  {| c_event := Ok ("{" +:+ dq +:+ "name" +:+ dq +:+ ":" +:+ dq +:+ "Ada" +:+ dq +:+ "}");
     c_loaded := inr HandlerFunction;
     c_handler event := match json_get "name" event with
                        | Some (JStr n) => Returned (Some (JObj [("message", JStr ("Hello, " +:+ n +:+ "!"))]))
                        | _ => Rejected (TError "no name")
                        end;
     c_output := Ok tt |}.
(** The container at the time [40] of its clock, with a disk that accepts the report. *)
Definition at_forty (c : container) : handler shim_eff (option string) :=
  λ X e file, match e in shim_eff Y return Y * option string with
              | ShimNow => (40, file)
              | ReadEvent _ => (c_event c, file)
              | RequireHandler _ => (c_loaded c, file)
              | RunHandler event => (c_handler c event, file)
              | WriteReport _ text => (c_output c, if is_Ok (c_output c) then Some text else file)
              end.
Lemma at_forty_env c X (e : shim_eff X) w r w' : env_of (at_forty c) X e w r w' → container_env c X e w r w'.
Proof. destruct e; intros [= <- <-]; simpl; auto with lia. Qed.
Lemma plain : plain_results hello.
Proof. intros event v. simpl. repeat case_match; intros [= <-]. done. Qed.
Definition greeting (d : Z) : json :=
  JObj [("status", JStr "success"); ("result", JObj [("message", JStr "Hello, Ada!")]); ("durationMs", JNum d)].
(** The host, which finds [text] in the report file. *)
Definition host (text : string) : handler ev (list entry) := scripted (λ X e _, ContainerDemo.script [Close (Some 0)] true text X e).
End ShimDemo.
#[local] Existing Instance json_codec.


(** A circular result leaves no report: the host answers an exit code. *)
Example circular_result_not_reported :
  (λ r, (r.1.1, r.2)) <$> run (ShimDemo.at_forty {| c_event := c_event ShimDemo.hello; c_loaded := inr HandlerFunction;
      c_handler _ := Unserialisable "Converting circular structure to JSON"; c_output := Ok tt |}) shim_main tt None =
    Some (Err (JsError "Converting circular structure to JSON"), None).
Proof. vm_compute. reflexivity. Qed.
