(* ===== verification/Samples.v ===== *)
(** * The sample functions (functions)

    The repository's five user functions as the shim and the executor see them:
    what the module exports and what its handler does with an event.  Each one is
    reported by the runtime as its comment says. *)

From S2P Require Import Prelude Json JsonText Prog Services Percentile Database Schema Storage Build Container Executor Shim.

(** What loading the module gives, and the handler. *)
Definition sample : Type := (thrown + exports) * (json → settlement).

(** functions/hello.js *)
Definition hello : sample :=
  (inr HandlerFunction, λ event,
     let name := json_get "name" event in
     let who := if falsy name then "World" else js_text_of name in
     Returned (Some (JObj [("message", JStr ("Hello, " +:+ who +:+ "!"))]))).

(** functions/sync.js: [await] of a plain value. *)
Definition sync_ : sample :=
  (inr HandlerFunction, λ _, Returned (Some (JObj [("message", JStr "I am not async, but I still work")]))).

(** functions/throws.js *)
Definition throws : sample := (inr HandlerFunction, λ _, Rejected (TError "Something went wrong inside the function")).

(** functions/hangs.js: its interval keeps the process alive, its promise never settles. *)
Definition hangs : sample := (inr HandlerFunction, λ _, NeverSettles).

(** functions/no-handler.js *)
Definition no_handler : sample := (inr NoHandler, λ _, NeverSettles).

(** The container of a sample with the event file [text]. *)
Definition sample_box (f : sample) (text : string) : container := {| c_event := Ok text; c_loaded := f.1; c_handler := f.2; c_output := Ok tt |}.

Lemma sample_plain text f : f ∈ [hello; sync_; throws; hangs; no_handler] → plain_results (sample_box f text).
Proof.
  intros Hf event v. unfold sample_box. cbn [c_handler].
  repeat (apply elem_of_cons in Hf as [->|Hf]; [cbn [hello sync_ throws hangs no_handler snd]; try done; by intros [= <-]|]).
  by apply not_elem_of_nil in Hf.
Qed.

(** What each is reported with, whatever JSON event it gets. *)
Lemma sample_verdicts `{JC : JsonCodec} text event : JSON_parse text = Some event →
  (∀ who, (if falsy (json_get "name" event) then "World" else js_text_of (json_get "name" event)) = who →
     verdict (sample_box hello text) = Some ("success", ("result", Some (JObj [("message", JStr ("Hello, " +:+ who +:+ "!"))])))) ∧
  verdict (sample_box sync_ text) = Some ("success", ("result", Some (JObj [("message", JStr "I am not async, but I still work")]))) ∧
  verdict (sample_box throws text) = failed "Something went wrong inside the function" ∧
  verdict (sample_box hangs text) = None ∧
  verdict (sample_box no_handler text) = failed NO_HANDLER.
Proof. intros Hp. unfold verdict, sample_box. cbn [c_event c_loaded c_handler]. rewrite Hp. split_and!; [by intros ? <-|done..]. Qed.

(** A hanging function never leaves a report: its container ends only by the kill
    timer, and the host answers a timeout for the exit code 137. *)
Lemma hangs_never_reports `{JC : JsonCodec} text event s o s' file :
  JSON_parse text = Some event →
  ¬ exec (container_env (sample_box hangs text)) still (shim_main (S := unit)) s None o s' file.
Proof.
  intros Hp Hx. by_wp Hx. unfold shim_main. cbn [ask mbind prog_mbind bind wp]. intros t0 w0 s0 [Ht0 ->] _.
  apply wp_bind, wp_try. unfold shim_try. cbn [call mbind prog_mbind bind wp].
  intros r w1 s1 [-> ->] _. cbn [sample_box c_event of_outcome mbind prog_mbind bind wp]. rewrite Hp. cbn [mbind prog_mbind bind wp ask].
  intros r w2 s2 [-> ->] _. cbn. intros r w3 s3 [-> ->] _. cbn. by intros s4 x _ [=].
Qed.
