(* ===== verification/System.v ===== *)
(** * An invocation, end to end

    The dispatcher (Dispatch.v), the stream, the worker (Worker.v), the container
    (Container.v) and the runtime inside it (Shim.v) put together: what an
    invocation is answered is what the handler of its function did with its event,
    or what the function's own code wrote in the place of the report.  Redis, Docker
    and the clock are the only parts taken on trust; [honest] and [published] say
    what that trust is. *)

From S2P Require Import Prelude Json JsonText Prog Services Percentile Database Schema Registry Dispatch Functions Storage Build.
From S2P Require Import BuildConsumer Container Worker Executor Shim Samples.
Import InvocationDispatchService WorkerService FunctionsController.
#[local] Open Scope Z_scope.

(** ** The parts around the code *)

Section system.
Context `{JC : JsonCodec} {TMP : OsTmpdir}.

(** What each image holds: its module, and what its handler does with an event. *)
Context (workload : string → (thrown + exports) * (json → settlement)).

(** The container of an image, the file mounted on its event path holding [text]. *)
Definition box (image text : string) : container :=
  {| c_event := Ok text; c_loaded := (workload image).1; c_handler := (workload image).2; c_output := Ok tt |}.

(** The output directory is writable for the function's code as well: what an
    image's own code may leave in result.json, instead of the shim's report or over
    it, when it runs on an event file. *)
Context (forges : string → string → string → Prop).

(** A report the shim may leave in a container. *)
Definition reported (c : container) (text : string) : Prop :=
  ∃ o s', exec (container_env c) still shim_main tt None o s' (Some text).

(** Docker: a report found in a directory was left there by a container the trace
    started, whose image and mounts docker read from the arguments, and which saw
    the event file as it was written: by its shim, or by the code of its image. *)
Definition docker_honest (tr : list entry) : Prop := ∀ dir text,
  Entry (Fs (ReadFileSync (path_join dir "result.json"))) (Ok text) ∈ tr →
  ∃ args evs ms flags image eventPath event,
    Entry (Os (Spawn "docker" args None ms)) (Ok evs) ∈ tr ∧
    docker_parse (tail args) [] = Some (flags, [image]) ∧
    (eventPath +:+ ":/var/task/event.json:ro") ∈ option_values "-v" flags ∧
    (dir +:+ ":/output") ∈ option_values "-v" flags ∧
    Entry (Fs (WriteFileSync eventPath event)) (Ok tt) ∈ tr ∧
    (reported (box image event) text ∨ forges image event text).

(** The clock answers time values. *)
Definition clock_honest (tr : list entry) : Prop := ∀ now, Entry (Sys DateNow) now ∈ tr → 0 ≤ now ≤ 8640000000000000.

Definition honest (tr : list entry) : Prop := docker_honest tr ∧ clock_honest tr.

(** The jobs put on the stream, under their correlation ids. *)
Context (submitted : string → InvocationJob → Prop).

(** The messages on the result channels: Redis delivers to the workers the entries
    that were added, to one of them or to several in turn, and to the subscribers
    what the workers publish. *)
Inductive published (channel text : string) : Prop :=
| published_by wid R m cid job s o s' tr r :
    submitted cid job →
    (∀ s s', R s s' → w_inFlight s' = w_inFlight s) →
    exec (history_env ev) R (handleMessage wid m (job_fields cid job)) s [] o s' tr →
    honest tr →
    Entry (Redis (Publish channel text)) r ∈ tr → published channel text.

(** ** What may be answered *)

(** What the handler did with the event of the job. *)
Definition verdict_on (job : InvocationJob) : option (string * (string * option json)) :=
  verdict (box (job_imageTag job) (JSON_stringify (or_empty_object (job_event job)))).

Definition timeout_report (d : Z) : json := JObj [("status", JStr "timeout"); ("durationMs", JNum d)].
Definition exit_report (code : option Z) (stderr : string) (d : Z) : json :=
  JObj [("status", JStr "error");
        ("error", JStr ("Container exited with code " +:+ string_of_code code +:+
                        " before producing a result. stderr: " +:+ slice_to 500 stderr));
        ("durationMs", JNum d)].

(** What the code of the job's image may forge for its event, as the host answers
    it: with its own duration. *)
Definition rehosted (v : json) (d : Z) : json := JObj (json_set "durationMs" (JNum d) (json_fields v)).
Definition forged_for (job : InvocationJob) (v : json) : Prop :=
  ∃ text, forges (job_imageTag job) (JSON_stringify (or_empty_object (job_event job))) text ∧ JSON_parse text = Some v.

(** The verdict with the host's duration; or what the image's own code wrote in its
    place; or, when there is no report, how the container ended; or the failure that
    kept the worker from running it. *)
Inductive answer (job : InvocationJob) : json → Prop :=
| answer_forged v d : forged_for job v → Z.abs d < 2 ^ 53 → answer job (rehosted v d)
| answer_verdict v d : verdict_on job = Some v → Z.abs d < 2 ^ 53 → answer job (report v d)
| answer_timeout d : Z.abs d < 2 ^ 53 → answer job (timeout_report d)
| answer_exit code stderr d : code ≠ Some 137 → Z.abs d < 2 ^ 53 → answer job (exit_report code stderr d)
| answer_failure x : answer job (error_outcome x).

(** A job that a text stream can carry and a docker command line can name. *)
Definition job_fits (cid : string) (job : InvocationJob) : Prop :=
  cid ∉ field_names ∧ job_imageTag job ∉ field_names ∧ startsWith "-" (job_imageTag job) = false ∧
  json_ok (or_empty_object (job_event job)) = true.

(** What the caller of the API is told: what the image's own code forged; or else a
    plain 200 carries the handler's value, and everything else is marked as a
    failure. *)
Definition told (job : InvocationJob) (resp : Response) : Prop :=
  resp_status resp = 200 ∧
  ((∃ v d, forged_for job v ∧ resp = invoke_response (rehosted v d)) ∨
   (resp_headers resp = [] ∧ ∃ v d, (workload (job_imageTag job)).1 = inr HandlerFunction ∧
      (workload (job_imageTag job)).2 (or_empty_object (job_event job)) = Returned v ∧
      resp_body resp = object [("result", v); ("durationMs", Some (JNum d))]) ∨
   (∃ d, resp_headers resp = [("X-Function-Error", "Timeout")] ∧
      resp_body resp = JObj [("errorMessage", JStr "Function timed out"); ("durationMs", JNum d)]) ∨
   (∃ m d, resp_headers resp = [("X-Function-Error", "Unhandled")] ∧
      resp_body resp = JObj [("errorMessage", JStr m); ("durationMs", JNum d)])).

(** ** From the trace of a worker to its answer *)

Definition writes (en : entry) : option (string * string) :=
  match entry_call en with Fs (WriteFileSync path text) => Some (path, text) | _ => None end.
Definition spawns (en : entry) : option (list string) :=
  match entry_call en with Os (Spawn _ args _ _) => Some args | _ => None end.

Definition publications (en : entry) : option (string * string) :=
  match entry_call en with Redis (Publish channel text) => Some (channel, text) | _ => None end.

Lemma outside_publishes_nothing calls :
  Forall (λ en : entry, outside_store _ (entry_call en)) calls → omap publications calls = [].
Proof.
  induction 1 as [|[X e r] calls He _ IH]; [done|]. simpl. unfold publications. simpl in *.
  destruct e as [X e|X e|X e|X e|X e|X e|X e]; done.
Qed.

(** The container's part of a trace: its files and its process are the trace's. *)
Definition part_of (calls tr : list entry) : Prop :=
  (∀ en, en ∈ calls → en ∈ tr) ∧ omap writes tr = omap writes calls ∧ omap spawns tr = omap spawns calls.

(** The limit of the model's numbers and objects, for what a handler returns and
    for what an image forges. *)
Hypothesis plain : ∀ image text, plain_results (box image text).
Hypothesis forged_plain : ∀ image event text v d, forges image event text → JSON_parse text = Some v → Z.abs d < 2 ^ 53 →
  json_ok (rehosted v d) = true.

(** A report docker answers for is the shim's or the image's own, on the one image
    and event of the run. *)
Lemma honest_report tr dir text image args eventPath event :
  docker_honest tr → Entry (Fs (ReadFileSync (path_join dir "result.json"))) (Ok text) ∈ tr →
  omap writes tr = [(eventPath, event)] → omap spawns tr = [args] →
  (∃ flags, docker_parse (tail args) [] = Some (flags, [image])) →
  forges image event text ∨ ∃ v d, verdict (box image event) = Some v ∧ JSON_parse text = Some (report v d).
Proof.
  intros Hd Hr Hw Hs [flags Hp]. destruct (Hd _ _ Hr) as (args' & evs' & ms' & flags' & image' & ep & event' & Hsp & Hp' & _ & _ & Hwr & Hrep).
  assert (args' ∈ omap spawns tr) as Ha by (apply list_elem_of_omap; eexists; split; [exact Hsp|done]).
  assert ((ep, event') ∈ omap writes tr) as He by (apply list_elem_of_omap; eexists; split; [exact Hwr|done]).
  rewrite Hs in Ha. apply list_elem_of_singleton in Ha as ->. rewrite Hw in He. apply list_elem_of_singleton in He as [= -> ->].
  rewrite Hp in Hp'. injection Hp' as <- <-. destruct Hrep as [(o & s' & Hx)|Hf]; [right|by left].
  apply shim_report in Hx as [[? _]|(v & d & Hv & Hdd & _ & [= ->])]; [done|].
  exists v, d. split; [done|]. apply JSON_parse_stringify. eapply report_ok; [done|apply plain|done].
Qed.

(** What a run of the job's container answers. *)
Lemma container_answer cid job options out calls tr :
  job_fits cid job → part_of calls tr → honest tr →
  container_run (job_imageTag job) event_mount (Some (or_empty_object (job_event job))) options out calls →
  answer job out.
Proof.
  intros (_ & _ & Himg & Hev) (Hin & Hw & Hs) [Hd Hclock]
    (start & scratch & workDir & uuid & pre & code & post & closing & Hcalls & Hno & now & Hclosed).
  set (eventPath := path_join workDir "event.json") in *. set (dir := path_join workDir "output") in *.
  set (args := docker_args _ _ _ _ _ _) in *.
  assert (or_empty_object (Some (or_empty_object (job_event job))) = or_empty_object (job_event job)) as Hidem
    by by destruct (job_event job) as [[]|].
  rewrite Hidem in Hcalls.
  assert (omap writes closing = [] ∧ omap spawns closing = [] ∧ Entry (Sys DateNow) now ∈ closing) as (Hcw & Hcs & Hnow).
  { destruct Hclosed as [(text & v & -> & _)|[-> _]]; (split_and!; [done..|apply list_elem_of_here]). }
  assert (0 ≤ now ≤ 8640000000000000 ∧ 0 ≤ start ≤ 8640000000000000) as Ht.
  { split; apply Hclock, Hin; rewrite Hcalls; [|apply list_elem_of_here].
    rewrite !elem_of_app. auto. }
  assert (Z.abs (now - start) < 2 ^ 53) as Hsmall by lia. clear Ht Hnow.
  destruct Hclosed as [(text & v & Hcl & Hv & ->)|[_ Hend]].
  - destruct (honest_report tr dir text (job_imageTag job) args eventPath (JSON_stringify (or_empty_object (job_event job))))
      as [Hf|(w & d0 & Hw0 & Hpar)]; [done|apply Hin; rewrite Hcalls, Hcl, !elem_of_app; right; right; left; set_solver|..].
    + rewrite Hw, Hcalls. rewrite !omap_app, Hcw. by case_bool_decide.
    + rewrite Hs, Hcalls. rewrite !omap_app, Hcs. by case_bool_decide.
    + destruct (docker_runs (job_imageTag job) ("mini-cloud-" +:+ uuid) (default (Some 128) (opt_memoryMb options))
        (default "0.5" (opt_cpus options)) eventPath dir Himg) as (flags & Hp & _). by exists flags.
    + apply answer_forged; [by exists text|done].
    + rewrite Hpar in Hv. injection Hv as <-. rewrite (report_rewritten _ _ _ _ Hw0). by constructor.
  - case_bool_decide; subst out; by constructor.
Qed.

Hypothesis fits : ∀ cid job, submitted cid job → job_fits cid job.

(** What a worker publishes for a job: one answer, on the job's own channel. *)
Lemma worker_answer wid R m cid job s o s' tr channel text r :
  job_fits cid job → (∀ s s', R s s' → w_inFlight s' = w_inFlight s) →
  exec (history_env ev) R (handleMessage wid m (job_fields cid job)) s [] o s' tr →
  honest tr → Entry (Redis (Publish channel text)) r ∈ tr →
  channel = invocationResultChannel cid ∧ ∃ out, text = JSON_stringify out ∧ answer job out.
Proof.
  intros Hfit HR Hx Hh Hp. apply worker_message_spec in Hx; [|done].
  destruct Hx as (_ & out & calls & s1 & pub & acked & (oo & Hinv & Hout) & Hcalls & Htr & _).
  destruct (job_roundtrip cid job) as [Hcid Hjob]; [apply Hfit..|]. rewrite Hcid in Htr. cbn [default] in Htr.
  assert ((channel, text) ∈ omap publications tr) as Hin by (apply list_elem_of_omap; eexists; split; [exact Hp|done]).
  rewrite Htr, !omap_app, (outside_publishes_nothing calls Hcalls) in Hin.
  assert (channel = invocationResultChannel cid ∧ text = JSON_stringify out) as [-> ->].
  { destruct (is_Ok pub); by apply list_elem_of_singleton in Hin as [= -> ->]. }
  split; [done|]. exists out. split; [done|]. clear Hin Hp.
  rewrite Hjob in Hinv. unfold executeVersionedFunction in Hinv. apply container_spec in Hinv.
  destruct oo as [v|x]; subst out; [|constructor].
  eapply container_answer; [exact Hfit| |exact Hh|exact Hinv]. split.
  - intros en Hen. rewrite Htr, !elem_of_app. auto.
  - rewrite Htr, !omap_app. destruct (is_Ok pub); simpl; by rewrite !app_nil_r.
Qed.

Lemma answer_plain job v : answer job v → json_ok v = true.
Proof.
  destruct 1 as [v d (text & Hf & Hp) Hd|v d Hv Hd|d Hd|code stderr d _ Hd|x]; [by eapply forged_plain|by eapply report_ok| | |done];
    (assert (json_ok (JNum d) = true) as Hn by by apply Z.ltb_lt); cbn -[Z.pow] in *; by rewrite Hn.
Qed.

(** What arrives on the channel of a job is an answer to that job. *)
Lemma published_answer cid job text v :
  (∀ cid job job', submitted cid job → submitted cid job' → job = job') → submitted cid job →
  published (invocationResultChannel cid) text → JSON_parse text = Some v → answer job v.
Proof.
  intros Huniq Hsub [wid R m cid' job' s o s' tr r Hsub' HR Hx Hh Hp] Hv.
  destruct (worker_answer _ _ _ _ _ _ _ _ _ _ _ _ (fits _ _ Hsub') HR Hx Hh Hp) as [Hc (out & -> & Hout)].
  apply (inj invocationResultChannel) in Hc as <-. rewrite (Huniq _ _ _ Hsub Hsub').
  rewrite JSON_parse_stringify in Hv by by eapply answer_plain. by injection Hv as <-.
Qed.

Lemma answer_told job v : json_ok (or_empty_object (job_event job)) = true → answer job v → told job (invoke_response v).
Proof.
  intros Hev Ha.
  assert (∀ m d, told job (invoke_response (report ("error", ("error", Some (JStr m))) d))) as Herr.
  { intros m d. split; [done|]. right. right. right. exists m, d. split; reflexivity. }
  destruct Ha as [v d Hf Hd|v d Hv Hd|d Hd|code stderr d _ Hd|x].
  - split; [by unfold invoke_response; case_match|]. left. by exists v, d.
  - unfold verdict_on, verdict, failed, box in Hv. cbn [c_event c_loaded c_handler] in Hv. rewrite JSON_parse_stringify in Hv by done.
    destruct (workload (job_imageTag job)).1 as [t|[| |w]] eqn:Hl; try (injection Hv as <-; apply Herr).
    destruct ((workload (job_imageTag job)).2 (or_empty_object (job_event job))) as [r|m|t|] eqn:Hr; try done; injection Hv as <-; [|apply Herr].
    split; [done|]. right. left. split; [done|]. exists r, d. split_and!; [done..|]. by destruct r.
  - split; [done|]. right. right. left. exists d. split; reflexivity.
  - apply (Herr _ d).
  - apply (Herr _ 0).
Qed.

(** C9: an invocation end to end: what [dispatch] returns for a job, its random uuid
    being unused, is an answer to that job: the verdict on what the handler of the
    job's image did with the job's event, carried through the container's report,
    the worker, Redis and the waiter; or what the code of that same image, on that
    event, wrote to result.json itself (never another function's); or how the
    container ended without a report; or the failure that kept the worker from
    running it.  For an image whose code forges nothing the caller of the API gets
    a plain 200 with a result only if the handler returned that result for that
    event, and a marked failure otherwise.  A dispatch fails only by its timer or a
    failing call to Redis. *)
Theorem invocation_end_to_end job s o s' tr :
  (∀ cid job job', submitted cid job → submitted cid job' → job = job') →
  dispatch_ok s →
  (∀ cid, head tr = Some (Entry (Sys RandomUUID) cid) → fresh_channel (invocationResultChannel cid) s) →
  (∀ cid id, Entry (Redis (Xadd INVOCATION_STREAM_KEY (job_fields cid job))) (Ok id) ∈ tr → submitted cid job) →
  exec (history_env ev) (rtc (dstep published)) (dispatch job) s [] o s' tr →
  match o with
  | Ok v => answer job v ∧ told job (invoke_response v)
  | Err x => x = no_worker ∨ ∃ X (e : redis_eff X), Entry (Redis e) (Err x) ∈ tr
  end.
Proof.
  intros Huniq Hok Hfresh Hsub Hx. apply dispatch_spec in Hx; [|done].
  destruct Hx as (cid & override & tr' & -> & Hrun).
  destruct (Hrun (Hfresh cid eq_refl)) as [_ [(x & -> & ->)|[(x & u & -> & ->)|(id & u & r & -> & -> & _ & Hset)]]].
  - right. eexists _, _. apply list_elem_of_In. simpl. eauto 8.
  - right. destruct u as [[]|y]; eexists _, _; apply list_elem_of_In; simpl; eauto 8.
  - assert (submitted cid job) as Hjob by (apply (Hsub cid id), list_elem_of_In; simpl; eauto).
    destruct u as [[]|y]; [|right; eexists _, _; apply list_elem_of_In; simpl; eauto 8].
    destruct r as [v|x]; simpl in Hset; [|by left]. destruct Hset as (text & Hp & Hv).
    assert (answer job v) as Ha by by eapply published_answer.
    split; [done|]. apply answer_told; [apply (fits cid job Hjob)|done].
Qed.
End system.

(** ** A concrete invocation *)

#[local] Existing Instance json_codec.
#[local] Existing Instance ContainerDemo.tmp.

Module SystemDemo.
(** Every image holds functions/hello.js. *)
Definition workload (image : string) : sample := hello.
Definition job : InvocationJob :=
  {| job_imageTag := "mini-cloud-fn-hello:3"; job_event := Some (JObj [("name", JStr "Ada")]); job_timeoutMs := 3000; job_memoryMb := 128 |}.
(** It writes no file. *)
Definition forges (image event text : string) : Prop := False.
Definition submitted (cid : string) (j : InvocationJob) : Prop := cid = "c0ffee" ∧ j = job.
Definition event : string := JSON_stringify (or_empty_object (job_event job)).
Definition report : string := JSON_stringify (ShimDemo.greeting 0).

(** The worker's host: its container ends with that report, and Redis accepts its outcome. *)
Definition host : ∀ X, ev X → X :=
  λ X e, match e in ev X return X with
         | Redis e' => match e' in redis_eff X return outcome X with Publish _ _ | Xack _ _ _ => Ok 1 | _ => down end
         | e => ContainerDemo.script [Close (Some 0)] true report _ e
         end.
Definition worker_run := run (scripted (λ X e _, host X e)) (handleMessage "w2" "5-0" (job_fields "c0ffee" job)) WorkerDemo.idle [].
Definition trace : list entry := default [] (snd <$> worker_run).
Definition channel : string := invocationResultChannel "c0ffee".

Lemma worker_executes : ∃ s', exec (history_env ev) still (handleMessage "w2" "5-0" (job_fields "c0ffee" job)) WorkerDemo.idle [] (Ok tt) s' trace.
Proof. eexists. scripted_by (λ X e (_ : list entry), host X e). Qed.

Definition found (en : entry) : option (string * string) :=
  match en with
  | Entry e r => match e in ev X return X → option (string * string) with
                 | Fs e' => match e' in fs_eff Y return outcome Y → option (string * string) with
                            | ReadFileSync path => λ r, match r with Ok text => Some (path, text) | Err _ => None end
                            | _ => λ _, None
                            end
                 | _ => λ _, None
                 end r
  end.
Definition told_time (en : entry) : option Z :=
  match en with
  | Entry e r => match e in ev X return X → option Z with
                 | Sys e' => match e' in sys_eff Y return Y → option Z with DateNow => λ r, Some r | _ => λ _, None end
                 | _ => λ _, None
                 end r
  end.

Lemma shim_reports : reported (box workload (job_imageTag job) event) report.
Proof.
  eexists _, _. eapply exec_env_mono; [apply ShimDemo.at_forty_env|]. apply run_exec; [done|]. vm_compute. reflexivity.
Qed.

Definition args : list string :=
  docker_args "mini-cloud-uuid-0" (Some 128) "0.5" (event_mount "/tmp/mini-cloud-k3/event.json") "/tmp/mini-cloud-k3/output" (job_imageTag job).

Lemma trace_honest : honest workload forges trace.
Proof.
  split.
  - intros dir text Hin. assert ((path_join dir "result.json", text) ∈ omap found trace) as Hf
      by (apply list_elem_of_omap; eexists; split; [exact Hin|done]).
    assert (omap found trace = [("/tmp/mini-cloud-k3/output/result.json", report)]) as Heq by (vm_compute; reflexivity).
    rewrite Heq in Hf. apply list_elem_of_singleton in Hf as [= Hdir ->].
    apply (str_app_inj_r dir "/tmp/mini-cloud-k3/output" "/result.json") in Hdir as ->.
    destruct (docker_runs (job_imageTag job) "mini-cloud-uuid-0" (Some 128) "0.5" "/tmp/mini-cloud-k3/event.json"
      "/tmp/mini-cloud-k3/output" eq_refl) as (flags & Hp & Hv).
    exists args, [Close (Some 0)], (Some 3000), flags, (job_imageTag job), "/tmp/mini-cloud-k3/event.json", event.
    split_and!; [apply (list_elem_of_lookup_2 _ 9); vm_compute; reflexivity|exact Hp
      |rewrite Hv; apply list_elem_of_here|rewrite Hv; apply list_elem_of_further, list_elem_of_here
      |apply (list_elem_of_lookup_2 _ 7); vm_compute; reflexivity|left; exact shim_reports].
  - intros now Hin. assert (now ∈ omap told_time trace) as Hf by (apply list_elem_of_omap; eexists; split; [exact Hin|done]).
    assert (omap told_time trace = [1000000; 1000000]) as Heq by (vm_compute; reflexivity).
    rewrite Heq in Hf. apply elem_of_cons in Hf as [->|Hf]; [done|]. by apply list_elem_of_singleton in Hf as ->.
Qed.

(** The worker's publication, and the dispatcher's event loop that delivers it. *)
Lemma answer_published : published workload forges submitted channel report.
Proof.
  destruct worker_executes as [s' Hx]. eapply (published_by _ _ _ channel report "w2" still "5-0" "c0ffee" job); [done| |exact Hx|exact trace_honest|].
  - by intros ?? [=->].
  - apply (list_elem_of_lookup_2 _ 18). vm_compute. reflexivity.
Qed.

Definition deliver (s : dstate) : dstate := default s (on_message channel report s).

Lemma delivery_steps s : rtc (dstep (published workload forges submitted)) s (deliver s).
Proof.
  unfold deliver. destruct (on_message channel report s) eqn:E; simpl; [|done].
  apply rtc_once. eapply step_message; [exact answer_published|exact E].
Qed.

Lemma workload_plain image text : plain_results (box workload image text).
Proof. apply (sample_plain text hello), list_elem_of_here. Qed.

Lemma fits cid j : submitted cid j → job_fits cid j.
Proof. intros [-> ->]. split_and!; [apply (bool_decide_unpack _)..| |]; vm_compute; done. Qed.

Definition added (en : entry) : option (list string) :=
  match entry_call en with Redis (Xadd _ fields) => Some fields | _ => None end.
End SystemDemo.

Lemma invocation_end_to_end_witness :
  ∃ s' tr, exec (history_env ev) (rtc (dstep (published SystemDemo.workload SystemDemo.forges SystemDemo.submitted))) (dispatch SystemDemo.job) dstate0 []
      (Ok (ShimDemo.greeting 0)) s' tr ∧
    answer SystemDemo.workload SystemDemo.forges SystemDemo.job (ShimDemo.greeting 0) ∧
    told SystemDemo.workload SystemDemo.forges SystemDemo.job (invoke_response (ShimDemo.greeting 0)).
Proof.
  set (r := run_among SystemDemo.deliver (scripted DispatchDemo.answer) (dispatch SystemDemo.job) dstate0 []).
  assert (exec (history_env ev) (rtc (dstep (published SystemDemo.workload SystemDemo.forges SystemDemo.submitted))) (dispatch SystemDemo.job) dstate0 []
      (Ok (ShimDemo.greeting 0)) (default dstate0 (snd ∘ fst <$> r)) (default [] (snd <$> r))) as Hx.
  { apply (scripted_history DispatchDemo.answer), (run_among_exec SystemDemo.deliver);
      [apply SystemDemo.delivery_steps|vm_compute; reflexivity]. }
  eexists _, _. split; [exact Hx|].
  apply (invocation_end_to_end SystemDemo.workload SystemDemo.forges SystemDemo.submitted SystemDemo.workload_plain
    (λ _ _ _ _ _ Hf, match Hf with end) SystemDemo.fits SystemDemo.job dstate0
    (Ok (ShimDemo.greeting 0)) (default dstate0 (snd ∘ fst <$> r)) (default [] (snd <$> r)) ltac:(by intros ??? [_ ->] [_ ->]) dispatch_ok_init).
  - intros cid _. apply fresh_channel_init.
  - intros cid id Hin. split; [|done].
    assert (job_fields cid SystemDemo.job ∈ omap SystemDemo.added (default [] (snd <$> r))) as Hf
      by (apply list_elem_of_omap; eexists; split; [exact Hin|done]).
    assert (omap SystemDemo.added (default [] (snd <$> r)) = [job_fields "c0ffee" SystemDemo.job]) as Heq by (vm_compute; reflexivity).
    rewrite Heq in Hf. apply list_elem_of_singleton in Hf. by injection Hf.
  - exact Hx.
Defined.
