(* ===== verification/Modules.v ===== *)
(** * Module wiring and process start-up (src/app.module.ts, src/worker/worker.module.ts, src/main.ts, src/worker-main.ts)

    The two processes as dependency-injection graphs: every class with the types of
    its constructor's parameters, every Nest module with what its decorator
    declares, and the rules by which Nest finds a dependency.  A checker computes
    the wiring; its soundness turns the computation into theorems about both
    processes.  The two entry points are programs. *)

From S2P Require Import Prelude Json JsonText Prog Services Percentile Database Schema Storage.
#[local] Open Scope Z_scope.

(** ** Classes and their constructors *)

(** What can be injected or needs injection: providers, guards, controllers.
    [JwtService] and [Reflector] are the framework's. *)
Inductive class :=
| PrismaService | REDIS_CLIENT | ObjectStorageService | WorkerRegistryService | MetricsService
| AuthService | JwtService | Reflector | AuthGuard | ScopesGuard
| InvocationDispatchService | FunctionsService
| BuildService | BuildOutboxRelayService | BuildStreamConsumerService | LocalDockerBuildExecutor | CodeBuildExecutor | BUILD_EXECUTOR
| WorkerService | WorkerMetricsServerService
| AuthController | FunctionsController | BuildController | WorkersController | MetricsController | HealthController.

#[export] Instance class_eq_dec : EqDecision class.
Proof. solve_decision. Defined.

(** The parameters of each constructor, in order; those of [BUILD_EXECUTOR] are its
    factory's. *)
Definition WorkerRegistryService_params : list class := [REDIS_CLIENT].
Definition InvocationDispatchService_params : list class := [REDIS_CLIENT].
Definition AuthService_params : list class := [PrismaService; JwtService].
Definition AuthGuard_params : list class := [AuthService].
Definition ScopesGuard_params : list class := [Reflector].
Definition FunctionsService_params : list class := [PrismaService; InvocationDispatchService; WorkerRegistryService].
Definition BuildService_params : list class := [PrismaService; ObjectStorageService; BUILD_EXECUTOR].
Definition BuildOutboxRelayService_params : list class := [PrismaService; REDIS_CLIENT].
Definition BuildStreamConsumerService_params : list class := [REDIS_CLIENT; PrismaService; BuildService].
Definition LocalDockerBuildExecutor_params : list class := [ObjectStorageService].
Definition BUILD_EXECUTOR_params : list class := [LocalDockerBuildExecutor; CodeBuildExecutor].
Definition WorkerService_params : list class := [REDIS_CLIENT; WorkerRegistryService; MetricsService].
Definition WorkerMetricsServerService_params : list class := [MetricsService].
Definition AuthController_params : list class := [AuthService].
Definition FunctionsController_params : list class := [FunctionsService].
Definition BuildController_params : list class := [FunctionsService; BuildService].
Definition WorkersController_params : list class := [WorkerRegistryService].
Definition MetricsController_params : list class := [MetricsService; WorkerRegistryService; REDIS_CLIENT].

Definition constructor (c : class) : list class :=
  match c with
  | WorkerRegistryService => WorkerRegistryService_params
  | InvocationDispatchService => InvocationDispatchService_params
  | AuthService => AuthService_params
  | AuthGuard => AuthGuard_params
  | ScopesGuard => ScopesGuard_params
  | FunctionsService => FunctionsService_params
  | BuildService => BuildService_params
  | BuildOutboxRelayService => BuildOutboxRelayService_params
  | BuildStreamConsumerService => BuildStreamConsumerService_params
  | LocalDockerBuildExecutor => LocalDockerBuildExecutor_params
  | BUILD_EXECUTOR => BUILD_EXECUTOR_params
  | WorkerService => WorkerService_params
  | WorkerMetricsServerService => WorkerMetricsServerService_params
  | AuthController => AuthController_params
  | FunctionsController => FunctionsController_params
  | BuildController => BuildController_params
  | WorkersController => WorkersController_params
  | MetricsController => MetricsController_params
  | PrismaService | REDIS_CLIENT | ObjectStorageService | MetricsService | CodeBuildExecutor | HealthController => []
  | JwtService | Reflector => []
  end.

(** [@UseGuards] of a controller or of its methods. *)
Definition UseGuards (c : class) : list class :=
  match c with
  | FunctionsController | BuildController => [AuthGuard; ScopesGuard]
  | AuthController | WorkersController => [AuthGuard]
  | _ => []
  end.

(** ** Modules *)

Inductive module_name :=
| AppModule | WorkerModule | PrismaModule | RedisModule | StorageModule | WorkerRegistryModule | MetricsModule | AuthModule
| InvocationDispatchModule | FunctionsModule | BuildModule | WorkersModule | MetricsHttpModule | HealthModule.

#[export] Instance module_name_eq_dec : EqDecision module_name.
Proof. solve_decision. Defined.

(** A [@Module] decorator; [m_library]: the dynamic modules of libraries among its imports. *)
Record nest_module := {
  m_global : bool; m_imports : list module_name; m_library : list string;
  m_providers : list class; m_controllers : list class; m_exports : list class }.

Definition AppModule_decl : nest_module :=
  {| m_global := false;
     m_imports := [PrismaModule; RedisModule; StorageModule; WorkerRegistryModule; MetricsModule; AuthModule;
     FunctionsModule; BuildModule; WorkersModule; MetricsHttpModule; HealthModule];
     m_library := []; m_providers := []; m_controllers := []; m_exports := [] |}.

Definition WorkerModule_decl : nest_module :=
  {| m_global := false; m_imports := [RedisModule; WorkerRegistryModule; MetricsModule]; m_library := [];
     m_providers := [WorkerService; WorkerMetricsServerService]; m_controllers := []; m_exports := [] |}.

Definition PrismaModule_decl : nest_module :=
  {| m_global := true; m_imports := []; m_library := [];
     m_providers := [PrismaService]; m_controllers := []; m_exports := [PrismaService] |}.

Definition RedisModule_decl : nest_module :=
  {| m_global := true; m_imports := []; m_library := [];
     m_providers := [REDIS_CLIENT]; m_controllers := []; m_exports := [REDIS_CLIENT] |}.

Definition StorageModule_decl : nest_module :=
  {| m_global := true; m_imports := []; m_library := [];
     m_providers := [ObjectStorageService]; m_controllers := []; m_exports := [ObjectStorageService] |}.

Definition WorkerRegistryModule_decl : nest_module :=
  {| m_global := true; m_imports := [RedisModule]; m_library := [];
     m_providers := [WorkerRegistryService]; m_controllers := []; m_exports := [WorkerRegistryService] |}.

Definition MetricsModule_decl : nest_module :=
  {| m_global := true; m_imports := []; m_library := [];
     m_providers := [MetricsService]; m_controllers := []; m_exports := [MetricsService] |}.

Definition AuthModule_decl : nest_module :=
  {| m_global := true; m_imports := []; m_library := ["JwtModule"];
     m_providers := [AuthService; AuthGuard; ScopesGuard]; m_controllers := [AuthController];
     m_exports := [AuthService; AuthGuard; ScopesGuard] |}.

Definition InvocationDispatchModule_decl : nest_module :=
  {| m_global := false; m_imports := []; m_library := [];
     m_providers := [InvocationDispatchService]; m_controllers := []; m_exports := [InvocationDispatchService] |}.

Definition FunctionsModule_decl : nest_module :=
  {| m_global := false; m_imports := [InvocationDispatchModule]; m_library := [];
     m_providers := [FunctionsService]; m_controllers := [FunctionsController]; m_exports := [FunctionsService] |}.

Definition BuildModule_decl : nest_module :=
  {| m_global := false; m_imports := [FunctionsModule]; m_library := [];
     m_providers := [BuildService; BuildOutboxRelayService; BuildStreamConsumerService; LocalDockerBuildExecutor;
     CodeBuildExecutor; BUILD_EXECUTOR];
     m_controllers := [BuildController]; m_exports := [] |}.

Definition WorkersModule_decl : nest_module :=
  {| m_global := false; m_imports := []; m_library := [];
     m_providers := []; m_controllers := [WorkersController]; m_exports := [] |}.

Definition MetricsHttpModule_decl : nest_module :=
  {| m_global := false; m_imports := []; m_library := [];
     m_providers := []; m_controllers := [MetricsController]; m_exports := [] |}.

Definition HealthModule_decl : nest_module :=
  {| m_global := false; m_imports := []; m_library := [];
     m_providers := []; m_controllers := [HealthController]; m_exports := [] |}.

Definition declared (m : module_name) : nest_module :=
  match m with
  | AppModule => AppModule_decl
  | WorkerModule => WorkerModule_decl
  | PrismaModule => PrismaModule_decl
  | RedisModule => RedisModule_decl
  | StorageModule => StorageModule_decl
  | WorkerRegistryModule => WorkerRegistryModule_decl
  | MetricsModule => MetricsModule_decl
  | AuthModule => AuthModule_decl
  | InvocationDispatchModule => InvocationDispatchModule_decl
  | FunctionsModule => FunctionsModule_decl
  | BuildModule => BuildModule_decl
  | WorkersModule => WorkersModule_decl
  | MetricsHttpModule => MetricsHttpModule_decl
  | HealthModule => HealthModule_decl
  end.

Definition imports (m m' : module_name) : Prop := m' ∈ m_imports (declared m).

(** ** Starting and stopping a process *)

(** The framework's calls.  [NestFactory] builds the graph of a root module and runs
    the [onModuleInit] hooks; it rejects when a constructor or a hook throws. *)
Inductive boot_eff : Type → Type :=
| NestCreate (root : module_name) : boot_eff (outcome unit)
| NestCreateApplicationContext (root : module_name) : boot_eff (outcome unit)
| UseValidationPipe (whitelist transform : bool) : boot_eff unit
| Getenv (name : string) : boot_eff (option string)
| Listen (port : option Z) : boot_eff (outcome unit)
| ConsoleLog (text : string) : boot_eff unit
| Connect : boot_eff (outcome unit)
| Disconnect : boot_eff (outcome unit).

#[export] Instance boot_events : Events boot_eff :=
  λ X e, match e with UseValidationPipe _ _ | Getenv _ | ConsoleLog _ => false | _ => true end.

(** [process.env.PORT ? Number(process.env.PORT) : 3000] *)
Definition api_port (v : option string) : option Z :=
  match truthy v with Some text => Number text | None => Some 3000 end.

(** main.ts *)
Definition bootstrap : prog boot_eff unit unit :=
  _ ← call (NestCreate AppModule);
  _ ← ask (UseValidationPipe true true);
  v ← ask (Getenv "PORT");
  let port := api_port v in
  _ ← call (Listen port);
  ask (ConsoleLog ("Function API listening on http://localhost:" +:+ string_of_num port)).

(** worker-main.ts *)
Definition worker_bootstrap : prog boot_eff unit unit :=
  _ ← call (NestCreateApplicationContext WorkerModule);
  ask (ConsoleLog "Worker process started.").

(** redis.module.ts: the url the client of the process connects to. *)
Definition redis_url (v : option string) : string := default "redis://localhost:6379" v.

(** prisma.service.ts *)
Definition prisma_onModuleInit : prog boot_eff unit unit := call Connect.
Definition prisma_onModuleDestroy : prog boot_eff unit unit := call Disconnect.

(** ** How Nest finds a dependency *)

Section injection.
(** What the dynamic modules of libraries export, and what the framework provides
    everywhere. *)
Context (library_exports : string → class → Prop) (core : class → Prop) (root : module_name).

(** The modules of the process that is started from [root]. *)
Definition in_process (m : module_name) : Prop := rtc imports root m.

(** [constructible m c]: inside the module [m] an instance of [c] can be had: the
    module provides it, or an imported or global module exports it, or a library or
    the framework does; and in the module that provides it its own constructor's
    parameters can be had, and so on, in a finite order. *)
Inductive constructible : module_name → class → Prop :=
| own_provider m c :
    c ∈ m_providers (declared m) → (∀ d, d ∈ constructor c → constructible m d) → constructible m c
| exported_to m m' c :
    imports m m' ∨ (in_process m' ∧ m_global (declared m') = true) →
    c ∈ m_exports (declared m') → c ∈ m_providers (declared m') → constructible m' c → constructible m c
| from_library m l c : l ∈ m_library (declared m) → library_exports l c → constructible m c
| from_core m c : core c → constructible m c.

(** A controller or a guard, made in the context of the module [m]. *)
Definition instantiable (m : module_name) (c : class) : Prop := ∀ d, d ∈ constructor c → constructible m d.
End injection.

(** ** The checker *)

Section checker.
Context (library_exports : string → class → bool) (core : class → bool).

(** Modules reached in at most [n] imports. *)
Fixpoint reached (n : nat) (ms : list module_name) : list module_name :=
  match n with
  | O => ms
  | S n' => reached n' (remove_dups (ms ++ (ms ≫= λ m, m_imports (declared m))))
  end.

(** The longest chain of imports has three modules. *)
Definition process_modules (root : module_name) : list module_name := reached 3 [root].

Fixpoint constructible_b (n : nat) (ms : list module_name) (m : module_name) (c : class) : bool :=
  match n with
  | O => false
  | S n' =>
      if (if bool_decide (c ∈ m_providers (declared m)) then forallb (constructible_b n' ms m) (constructor c) else false) then true
      else if existsb (λ m', if bool_decide (c ∈ m_exports (declared m') ∧ c ∈ m_providers (declared m'))
                             then constructible_b n' ms m' c else false)
                (m_imports (declared m) ++ List.filter (λ m', m_global (declared m')) ms) then true
      else if existsb (λ l, library_exports l c) (m_library (declared m)) then true
      else core c
  end.

(** Every provider, controller and guard of every module of the process. *)
Definition wired_b (n : nat) (root : module_name) : bool :=
  let ms := process_modules root in
  forallb (λ m, forallb (constructible_b n ms m) (m_providers (declared m)) &&
                forallb (λ c, forallb (λ g, forallb (constructible_b n ms m) (constructor g)) (c :: UseGuards c))
                  (m_controllers (declared m))) ms.
End checker.

(** ** Soundness *)

Lemma reached_sound root n : ∀ ms, Forall (rtc imports root) ms → Forall (rtc imports root) (reached n ms).
Proof.
  induction n as [|n IH]; intros ms Hms; [done|]. apply IH, Forall_forall.
  rewrite Forall_forall in Hms. intros m [?|(m1 & Hm & Hm1)%list_elem_of_bind]%elem_of_remove_dups%elem_of_app; [by apply Hms|].
  eapply rtc_r; [by apply Hms|done].
Qed.

Lemma process_modules_sound root m : m ∈ process_modules root → in_process root m.
Proof.
  assert (Forall (rtc imports root) (process_modules root)) as H by (apply reached_sound; by constructor).
  rewrite Forall_forall in H. apply H.
Qed.

(** The computed list is closed under imports: it is the whole process. *)
Definition closed_b (ms : list module_name) : bool :=
  forallb (λ m, forallb (λ m', bool_decide (m' ∈ ms)) (m_imports (declared m))) ms.

Lemma closed_complete root ms m : closed_b ms = true → root ∈ ms → in_process root m → m ∈ ms.
Proof.
  intros Hc Hr Hm. revert Hr. induction Hm as [|m1 m2 m3 H12 _ IH]; [done|]. intros H1. apply IH.
  unfold closed_b in Hc. rewrite forallb_forall in Hc. apply list_elem_of_In, Hc in H1. rewrite forallb_forall in H1.
  apply (bool_decide_eq_true_1 _), H1. by apply list_elem_of_In.
Qed.

Definition processes : list module_name := [AppModule; WorkerModule].

Lemma process_modules_spec root m : root ∈ processes → in_process root m ↔ m ∈ process_modules root.
Proof.
  intros Hroot. split; [|apply process_modules_sound].
  apply elem_of_cons in Hroot as [->|Hroot]; [|apply list_elem_of_singleton in Hroot as ->];
    (apply closed_complete; [vm_compute; reflexivity|apply (bool_decide_unpack _); vm_compute; exact I]).
Qed.

Section soundness.
Context (library_exports : string → class → Prop) (core : class → Prop) (lib : string → class → bool) (core_b : class → bool).
Hypothesis lib_ok : ∀ l c, lib l c = true → library_exports l c.
Hypothesis core_ok : ∀ c, core_b c = true → core c.

Lemma constructible_b_sound root n ms m c :
  (∀ m', m' ∈ ms → in_process root m') →
  constructible_b lib core_b n ms m c = true → constructible library_exports core root m c.
Proof.
  intros Hms. revert m c. induction n as [|n IH]; intros m c; cbn [constructible_b]; [done|].
  destruct (if bool_decide (c ∈ m_providers (declared m)) then forallb _ _ else false) eqn:Hown.
  { intros _. case_bool_decide as Hp; [|done]. apply own_provider; [done|]. rewrite forallb_forall in Hown.
    intros d Hin%list_elem_of_In. by apply IH, Hown. }
  destruct (existsb _ (_ ++ _)) eqn:Hex.
  { intros _. apply existsb_exists in Hex as (m' & Hin%list_elem_of_In & Hm'). case_bool_decide as He; [|done]. destruct He as [He Hp].
    apply (exported_to _ _ _ m m' c); [|done|done|by apply IH].
    apply elem_of_app in Hin as [Hin|[Hin Hg]%elem_of_filterb]; [by left|]. right. auto. }
  destruct (existsb _ (m_library _)) eqn:Hl; [|intros Hc; apply from_core; auto].
  intros _. apply existsb_exists in Hl as (l & Hin%list_elem_of_In & Hl). eapply from_library; eauto.
Qed.

Lemma wired_b_sound n root m :
  wired_b lib core_b n root = true → m ∈ process_modules root →
  (∀ c, c ∈ m_providers (declared m) → constructible library_exports core root m c) ∧
  (∀ c g, c ∈ m_controllers (declared m) → g ∈ c :: UseGuards c → instantiable library_exports core root m g).
Proof.
  intros Hw Hm. unfold wired_b in Hw. rewrite forallb_forall in Hw.
  apply list_elem_of_In, Hw, andb_prop in Hm as [Hp Hc]. rewrite forallb_forall in Hp, Hc.
  assert (∀ c, constructible_b lib core_b n (process_modules root) m c = true → constructible library_exports core root m c) as Hs.
  { intros c. apply constructible_b_sound. intros m' Hm'. by apply process_modules_sound. }
  split.
  - intros c Hin%list_elem_of_In. by apply Hs, Hp.
  - intros c g Hin%list_elem_of_In Hg%list_elem_of_In d Hd%list_elem_of_In. specialize (Hc c Hin).
    rewrite forallb_forall in Hc. specialize (Hc g Hg). rewrite forallb_forall in Hc. by apply Hs, Hc.
Qed.
End soundness.

(** Whatever can be had in a process has a provider in one of its modules, or is a
    library's. *)
Lemma constructible_provided library_exports core root m c :
  constructible library_exports core root m c → in_process root m →
  (∃ m', in_process root m' ∧ c ∈ m_providers (declared m')) ∨ (∃ l, library_exports l c) ∨ core c.
Proof.
  intros Hc Hm. destruct Hc as [m c Hp _|m m' c Hm' _ Hp _|m l c _ Hl|m c Hc]; [left; eauto| |right; left; eauto|by right; right].
  left. exists m'. split; [|done]. destruct Hm' as [Hi|[Hi _]]; [by eapply rtc_r|done].
Qed.

(** No two modules of the list provide the same class. *)
Definition single_b (ms : list module_name) : bool :=
  forallb (λ m, forallb (λ m', forallb (λ c, negb (bool_decide (c ∈ m_providers (declared m'))) || bool_decide (m = m'))
    (m_providers (declared m))) ms) ms.

Lemma single_b_sound ms m m' c :
  single_b ms = true → m ∈ ms → m' ∈ ms → c ∈ m_providers (declared m) → c ∈ m_providers (declared m') → m = m'.
Proof.
  unfold single_b. intros Hs Hm%list_elem_of_In Hm'%list_elem_of_In Hc%list_elem_of_In Hc'.
  rewrite forallb_forall in Hs. specialize (Hs m Hm). rewrite forallb_forall in Hs. specialize (Hs m' Hm').
  rewrite forallb_forall in Hs. specialize (Hs c Hc). rewrite bool_decide_eq_true_2 in Hs by done. by apply (bool_decide_eq_true_1 _).
Qed.

(** No module of the list provides the class. *)
Definition absent_b (ms : list module_name) (c : class) : bool :=
  forallb (λ m, negb (bool_decide (c ∈ m_providers (declared m)))) ms.

Lemma absent_b_sound library_exports core root m c :
  root ∈ processes → absent_b (process_modules root) c = true →
  (∀ l, ¬ library_exports l c) → ¬ core c → in_process root m → ¬ constructible library_exports core root m c.
Proof.
  intros Hroot Ha Hl Hc Hm [(m' & Hm' & Hp)|[[l ?]|?]]%constructible_provided; [|by eapply Hl|done|done].
  unfold absent_b in Ha. rewrite forallb_forall in Ha. apply process_modules_spec in Hm'; [|done].
  apply list_elem_of_In, Ha in Hm'. by rewrite bool_decide_eq_true_2 in Hm'.
Qed.

(** The API takes requests only behind its validation pipe, on the port it was
    given; a process that could not be wired listens nowhere. *)
Lemma bootstrap_spec R s o s' tr :
  exec (history_env boot_eff) R bootstrap s [] o s' tr →
  (∃ x, tr = [Entry (NestCreate AppModule) (Err x)] ∧ o = Err x) ∨
  ∃ v listened rest,
    tr = [Entry (NestCreate AppModule) (Ok tt); Entry (UseValidationPipe true true) tt; Entry (Getenv "PORT") v;
          Entry (Listen (api_port v)) listened] ++ rest ∧ o = listened ∧
    (rest = [] ∨ rest = [Entry (ConsoleLog ("Function API listening on http://localhost:" +:+ string_of_num (api_port v))) tt]).
Proof.
  intros Hx. by_wp Hx. unfold bootstrap, call, ask. cbn [mbind prog_mbind bind wp].
  intros [[]|x] ? s1 -> _; cbn [of_outcome bind wp]; [|left; eauto].
  intros [] ? s2 -> _ v ? s3 -> _ [[]|x] ? s4 -> _; cbn [of_outcome bind wp]; [intros [] ? s5 -> _|]; right;
    eexists v, _, _; (split; [reflexivity|]); auto.
Qed.

(** ** Properties *)

(** What the code needs of the libraries, and no more. *)
Definition jwt_exports (l : string) (c : class) : bool := bool_decide (l = "JwtModule" ∧ c = JwtService).
Definition nest_core (c : class) : bool := bool_decide (c = Reflector).

(** C19: both processes are well typed as dependency graphs: in every module reached
    from the root of the API or of the worker, every provider can be constructed
    and every controller with its guards instantiated, each parameter of each
    constructor being found in the module, through an import or from a global
    module, without a cycle; all that is asked of the libraries is that
    [JwtModule] exports [JwtService] and that Nest provides [Reflector]. *)
Theorem wiring_well_typed library_exports core root m :
  library_exports "JwtModule" JwtService → core Reflector →
  root ∈ processes → in_process root m →
  (∀ c, c ∈ m_providers (declared m) → constructible library_exports core root m c) ∧
  (∀ c g, c ∈ m_controllers (declared m) → g ∈ c :: UseGuards c → instantiable library_exports core root m g).
Proof.
  intros Hjwt Hcore Hroot Hm. pose proof Hm as Hin. apply process_modules_spec in Hin; [|done].
  apply (wired_b_sound library_exports core jwt_exports nest_core) with (n := 8%nat); [| | |exact Hin].
  - intros l c [-> ->]%(bool_decide_eq_true_1 _). done.
  - intros c ->%(bool_decide_eq_true_1 _). done.
  - apply elem_of_cons in Hroot as [->|Hroot]; [|apply list_elem_of_singleton in Hroot as ->]; vm_compute; reflexivity.
Qed.


Lemma wiring_well_typed_witness :
  in_process AppModule FunctionsModule ∧
  instantiable (λ l c, l = "JwtModule" ∧ c = JwtService) (λ c, c = Reflector) AppModule FunctionsModule AuthGuard.
Proof.
  assert (in_process AppModule FunctionsModule) as Hin.
  { apply process_modules_sound, (bool_decide_unpack _). vm_compute. exact I. }
  split; [exact Hin|].
  refine (proj2 (wiring_well_typed (λ l c, l = "JwtModule" ∧ c = JwtService) (λ c, c = Reflector) AppModule FunctionsModule
    (conj eq_refl eq_refl) eq_refl (list_elem_of_here _ _) Hin) FunctionsController AuthGuard _ _).
  - apply list_elem_of_here.
  - apply list_elem_of_further, list_elem_of_here.
Defined.


(** Guards and controllers are made in the module of their route: without the
    [@Global] of AuthModule no guarded route would start. *)
Example guards_need_global_auth :
  constructible_b jwt_exports nest_core 8 (List.filter (λ m, negb (bool_decide (m = AuthModule))) (process_modules AppModule))
    WorkersModule AuthService = false.
Proof. vm_compute. reflexivity. Qed.
