(* ===== verification/Api.v ===== *)
(** * The HTTP API (the controllers, their guards, src/main.ts)

    One program per request: the route's guards in their order, the validation of
    its body, the controller's handler.  The file proves the two properties of
    the whole API: a guarded route does nothing without a sufficient credential,
    and nothing of a tenant changes except by a request with a credential of that
    tenant. *)

From S2P Require Import Prelude Json JsonText Prog Services Percentile Database Schema Auth Registry Dispatch Functions Storage Build Metrics.
#[local] Open Scope Z_scope.

(** ** auth.controller.ts *)

Module AuthController.
Section controller.
Context `{SHA : Sha256} {S : Type}.
Definition register (dto : RegisterDto) : prog ev S string := AuthService.register dto.
Definition login (dto : LoginDto) : prog ev S string := AuthService.login dto.
Definition createApiKey (user : AuthenticatedPrincipal) (dto : CreateApiKeyDto) : prog ev S CreatedApiKey :=
  AuthService.createApiKey (userId user) dto.
Definition listApiKeys (user : AuthenticatedPrincipal) : prog ev S (list ApiKeyView) := AuthService.listApiKeys (userId user).
Definition revokeApiKey (user : AuthenticatedPrincipal) (id : string) : prog ev S unit := AuthService.revokeApiKey (userId user) id.
End controller.
End AuthController.

(** ** The routes *)

Inductive route :=
| POST_auth_register | POST_auth_login | POST_api_keys | GET_api_keys | DELETE_api_key (id : string)
| POST_functions | GET_functions | GET_function (name : string) | GET_invocations (name : string)
| GET_function_metrics (name : string) | DELETE_function (name : string) | POST_invoke (name : string)
| POST_versions (name : string) | GET_build (name buildId : string) | GET_versions (name : string)
| GET_workers | GET_metrics | GET_health.

Record request := {
  req_route : route; req_authorization : option string; req_body : option json; req_file : option string }.

(** [@UseGuards] and [@RequireScopes] of each route. *)
Inductive guards := Open | Authenticated | Scoped (required : list string).
Definition guards_of (r : route) : guards :=
  match r with
  | POST_auth_register | POST_auth_login | GET_metrics | GET_health => Open
  | POST_api_keys | GET_api_keys | DELETE_api_key _ | GET_workers => Authenticated
  | POST_functions | DELETE_function _ | POST_versions _ => Scoped ["functions:write"]
  | GET_functions | GET_function _ | GET_invocations _ | GET_function_metrics _ | GET_build _ _ | GET_versions _ => Scoped ["functions:read"]
  | POST_invoke _ => Scoped ["functions:invoke"]
  end.

(** What a handler answers. *)
Inductive reply :=
| RUserId (id : string) | RToken (accessToken : string) | RCreatedKey (k : CreatedApiKey) | RKeys (l : list ApiKeyView)
| RFunction (f : FunctionRecord) | RFunctions (l : list FunctionRecord) | RInvocations (l : list Invocation)
| RMetrics (m : MetricsSummary) | RInvoke (r : Response) | RSubmitted (buildId : string) (status : BuildStatus)
| RBuild (b : Build) | RVersions (l : list FunctionVersion) | RWorkers (l : list WorkerStatus) | RText (text : string)
| RJson (v : json) | REmpty.

Section api.
Context `{JC : JsonCodec} `{SHA : Sha256} `{EV : EmailValidator} (storage : ObjectStorage).

(** [new ValidationPipe({ whitelist: true, transform: true })] on a DTO.  The pipe
    reads the rules of the value's own class: it knows none for an array, lets it
    through stripped of its elements, and the handler's first library call rejects
    the fields it finds undefined, so the request ends as a 500 and nothing is
    stored. *)
Definition undefined_field : exn := JsError "Invalid value undefined".
Definition validated {A} (validate : json → option A) (body : option json) : prog ev dstate A :=
  match default (JObj []) body with
  | JArr _ => Throw undefined_field
  | body =>
      match validate body with
      | Some dto => Ret dto
      | None => Throw (BadRequestException "Bad Request Exception")
      end
  end.

(** [@CurrentUser()]: a handler that reads a missing principal throws. *)
Definition with_user {A} (user : option AuthenticatedPrincipal) (k : AuthenticatedPrincipal → prog ev dstate A) : prog ev dstate A :=
  match user with
  | Some p => k p
  | None => Throw (JsError "Cannot read properties of undefined (reading 'userId')")
  end.

(** The pipes and the handler of a route. *)
Definition handle (rq : request) (user : option AuthenticatedPrincipal) : prog ev dstate reply :=
  match req_route rq with
  | POST_auth_register => dto ← validated validate_RegisterDto (req_body rq); id ← AuthController.register dto; Ret (RUserId id)
  | POST_auth_login => dto ← validated validate_LoginDto (req_body rq); t ← AuthController.login dto; Ret (RToken t)
  | POST_api_keys =>
      with_user user (λ p, dto ← validated validate_CreateApiKeyDto (req_body rq); k ← AuthController.createApiKey p dto; Ret (RCreatedKey k))
  | GET_api_keys => with_user user (λ p, l ← AuthController.listApiKeys p; Ret (RKeys l))
  | DELETE_api_key id => with_user user (λ p, _ ← AuthController.revokeApiKey p id; Ret REmpty)
  | POST_functions =>
      with_user user (λ p, dto ← validated validate_RegisterFunctionDto (req_body rq); f ← FunctionsController.register p dto; Ret (RFunction f))
  | GET_functions => with_user user (λ p, l ← FunctionsController.list_ p; Ret (RFunctions l))
  | GET_function name => with_user user (λ p, f ← FunctionsController.get p name; Ret (RFunction f))
  | GET_invocations name => with_user user (λ p, l ← FunctionsController.listInvocations p name; Ret (RInvocations l))
  | GET_function_metrics name => with_user user (λ p, m ← FunctionsController.getMetrics p name; Ret (RMetrics m))
  | DELETE_function name => with_user user (λ p, _ ← FunctionsController.remove p name; Ret REmpty)
  | POST_invoke name => with_user user (λ p, r ← FunctionsController.invoke (userId p) name (req_body rq); Ret (RInvoke r))
  | POST_versions name =>
      with_user user (λ p, b ← BuildController.createVersion storage (userId p) name (req_file rq); Ret (RSubmitted b.1 b.2))
  | GET_build name buildId => with_user user (λ p, b ← BuildController.getBuild (userId p) name buildId; Ret (RBuild b))
  | GET_versions name => with_user user (λ p, l ← BuildController.listVersions (userId p) name; Ret (RVersions l))
  | GET_workers => l ← WorkersController_list; Ret (RWorkers l)
  | GET_metrics => t ← MetricsController.getMetrics; Ret (RText t)
  | GET_health => v ← HealthController_check; Ret (RJson v)
  end.

(** A request: the guards in the order of [@UseGuards], then the handler. *)
Definition serve (rq : request) : prog ev dstate reply :=
  match guards_of (req_route rq) with
  | Open => handle rq None
  | Authenticated =>
      p ← AuthGuard.canActivate (req_authorization rq);
      handle rq (Some p)
  | Scoped required =>
      p ← AuthGuard.canActivate (req_authorization rq);
      _ ← ScopesGuard.canActivate (Some required) (Some p);
      handle rq (Some p)
  end.
End api.

(** ** A tenant's rows *)

(** Everything that belongs to the account [u]. *)
Definition owned_ids (u : string) (t : tables) : list string :=
  map fn_id (List.filter (λ f, bool_decide (fn_userId f = u)) (t_functions t)).

Definition tenant (u : string) (t : tables) : tables :=
  {| t_users := List.filter (λ x, bool_decide (user_id x = u)) (t_users t);
     t_keys := List.filter (λ k, bool_decide (key_userId k = u)) (t_keys t);
     t_functions := List.filter (λ f, bool_decide (fn_userId f = u)) (t_functions t);
     t_versions := List.filter (λ v, bool_decide (ver_functionId v ∈ owned_ids u t)) (t_versions t);
     t_builds := List.filter (λ b, bool_decide (build_functionId b ∈ owned_ids u t)) (t_builds t);
     t_invocations := List.filter (λ i, bool_decide (inv_functionId i ∈ owned_ids u t)) (t_invocations t);
     t_txs := []; t_next_tx := 0 |}.

(** Calls that read. *)
Definition reads {X} (e : db_eff X) : bool :=
  match e with
  | UserFindUnique _ | ApiKeyFindMany _ | ApiKeyFindById _ | ApiKeyFindByHash _ | FunctionFindMany _ | FunctionFindUnique _ _
  | FunctionFindByIdOrThrow _ | VersionFindLatest _ | VersionFindMany _ | BuildFindUnique _ | BuildFindUniqueOrThrow _
  | InvocationFindMany _ _ | MetricsQuery _ => true
  | _ => false
  end.

Lemma reads_same {X} (e : db_eff X) t r t' : reads e = true → db_spec e t r t' → t' = t.
Proof.
  intros He [(draw & now & _ & Hr)|(x & _ & _ & ->)]; [|done].
  destruct e; try done; simpl in Hr; repeat case_match; by simplify_eq.
Qed.

(** ** Calls that leave another tenant alone *)

(** A call on the tables [t] that is none on the account [u]'s rows. *)
Definition harmless (u : string) (t : tables) {X} (e : db_eff X) : Prop :=
  match e with
  | ApiKeyCreate o _ _ _ | FunctionCreate o _ _ _ | FunctionDelete o _ => o ≠ u
  | ApiKeySetRevokedAt id _ | ApiKeySetLastUsedAt id _ => ∀ k, find_key_by_id id t = Some k → key_userId k ≠ u
  | BuildCreate fid _ _ | InvocationCreate fid _ _ _ _ _ => ∀ f, find_function_by_id fid t = Some f → fn_userId f ≠ u
  | UserCreate _ _ => True
  | e => reads e = true
  end.

Lemma filter_snoc_out {A} (P : A → bool) l x : P x = false → List.filter P (l ++ [x]) = List.filter P l.
Proof. intros Hx. rewrite List.filter_app. simpl. by rewrite Hx, app_nil_r. Qed.

Lemma filter_update_out {A} (Q P : A → bool) (f : A → A) l :
  (∀ x, x ∈ l → Q (f x) = Q x) → (∀ x, x ∈ l → Q x = true → P x = false) →
  List.filter Q (update_where P f l) = List.filter Q l.
Proof.
  induction l as [|x l IH]; intros Hf HP; simpl; [done|].
  specialize (IH (λ y H, Hf y (list_elem_of_further _ _ _ H)) (λ y H, HP y (list_elem_of_further _ _ _ H))).
  pose proof (Hf x (list_elem_of_here _ _)) as Hfx. pose proof (HP x (list_elem_of_here _ _)) as HPx.
  destruct (P x) eqn:E; [rewrite Hfx|]; destruct (Q x); [|exact IH|f_equal; exact IH|exact IH].
  by specialize (HPx eq_refl).
Qed.

Lemma filter_filter_out {A} (Q P : A → bool) l :
  (∀ x, x ∈ l → Q x = true → P x = true) → List.filter Q (List.filter P l) = List.filter Q l.
Proof.
  induction l as [|x l IH]; intros HP; simpl; [done|].
  specialize (IH (λ y H, HP y (list_elem_of_further _ _ _ H))). pose proof (HP x (list_elem_of_here _ _)) as Hx.
  destruct (P x); simpl; destruct (Q x); try (by rewrite IH). by specialize (Hx eq_refl).
Qed.

Lemma owned_ids_elem u t fid : fid ∈ owned_ids u t ↔ ∃ f, f ∈ t_functions t ∧ fn_id f = fid ∧ fn_userId f = u.
Proof.
  unfold owned_ids. rewrite list_elem_of_fmap. setoid_rewrite elem_of_filterb. setoid_rewrite bool_decide_eq_true. naive_solver.
Qed.

(** A function of [p] is no function of [u]. *)
Lemma not_owned u t f :
  schema_ok t → f ∈ t_functions t → fn_userId f ≠ u → fn_id f ∉ owned_ids u t.
Proof.
  intros Hok Hf Hu (f' & Hf' & Hid & Hu')%owned_ids_elem.
  assert (f' = f) as -> by (eapply (NoDup_map_inj fn_id); [apply Hok|done..]). done.
Qed.

Lemma find_function_by_id_owner fid t f : find_function_by_id fid t = Some f → f ∈ t_functions t ∧ fn_id f = fid.
Proof. apply find_bd_Some. Qed.

Lemma key_update_tenant u f kid k t :
  schema_ok t → find_key_by_id kid t = Some k → key_userId k ≠ u → (∀ x, key_userId (f x) = key_userId x) →
  tenant u (set_keys (update_where (λ x, bool_decide (key_id x = kid)) f (t_keys t)) t) = tenant u t.
Proof.
  intros Hok [Hk Hid]%find_bd_Some Hu Hf. unfold tenant. simpl. f_equal. apply filter_update_out.
  - intros x _. by rewrite Hf.
  - intros x Hx Hxu%bool_decide_eq_true. apply bool_decide_eq_false. intros Hxid.
    assert (x = k) as -> by (eapply (NoDup_map_inj key_id); [apply Hok|done..|congruence]). done.
Qed.

Lemma cascade_tenant u f t :
  schema_ok t → f ∈ t_functions t → fn_userId f ≠ u → tenant u (delete_function_cascade (fn_id f) t) = tenant u t.
Proof.
  intros Hok Hf Hu. pose proof (not_owned u t f Hok Hf Hu) as Hno.
  assert (List.filter (λ g, bool_decide (fn_userId g = u)) (List.filter (λ g, negb (bool_decide (fn_id g = fn_id f))) (t_functions t))
    = List.filter (λ g, bool_decide (fn_userId g = u)) (t_functions t)) as Hfs.
  { apply filter_filter_out. intros g Hg Hgu%bool_decide_eq_true. apply negb_true_iff, bool_decide_eq_false. intros Hid.
    apply Hno. apply owned_ids_elem. by exists g. }
  assert (owned_ids u (delete_function_cascade (fn_id f) t) = owned_ids u t) as Hids by (unfold owned_ids; simpl; by rewrite Hfs).
  unfold tenant. rewrite Hids. simpl. rewrite Hfs. f_equal;
    apply filter_filter_out; intros x _ Hx%bool_decide_eq_true; apply negb_true_iff, bool_decide_eq_false; intros He; by rewrite He in Hx.
Qed.

Lemma harmless_tenant u {X} (e : db_eff X) t r t' :
  schema_ok t → u ∈ map user_id (t_users t) → harmless u t e → db_spec e t r t' → tenant u t' = tenant u t.
Proof.
  intros Hok Huser Ha Hs. destruct (reads e) eqn:Hrd; [by rewrite (reads_same e t r t' Hrd Hs)|].
  destruct Hs as [(draw & now & Hd & Hr)|(x & _ & _ & ->)]; [|done].
  pose proof (draw_fresh draw t Hd) as (Hdu & _ & _ & _).
  destruct e; try discriminate Hrd; try discriminate Ha; simpl in Ha, Hr.
  - destruct (find_user_by_email _ _); simplify_eq; [done|]. unfold tenant, owned_ids. simpl. f_equal.
    apply filter_snoc_out. simpl. apply bool_decide_eq_false. by intros <-.
  - repeat case_match; simplify_eq; try done. unfold tenant, owned_ids. simpl. f_equal.
    apply filter_snoc_out. simpl. by apply bool_decide_eq_false.
  - destruct (find_key_by_id id t) as [k|] eqn:Hk; simplify_eq; [|done]. by apply (key_update_tenant u (set_revokedAt _) _ k); auto.
  - destruct (find_key_by_id id t) as [k|] eqn:Hk; simplify_eq; [|done]. by apply (key_update_tenant u (set_lastUsedAt _) _ k); auto.
  - repeat case_match; simplify_eq; try done. set (f := mk_function _ _ _ _ _ _).
    assert (List.filter (λ g, bool_decide (fn_userId g = u)) (t_functions t ++ [f]) = List.filter (λ g, bool_decide (fn_userId g = u)) (t_functions t)) as Hfs.
    { apply filter_snoc_out. simpl. by apply bool_decide_eq_false. }
    unfold tenant, owned_ids. simpl. by rewrite Hfs.
  - destruct (find_function userId name t) as [f|] eqn:Hf; simplify_eq; [|done].
    apply find_function_Some in Hf as (Hf & Ho & _). apply cascade_tenant; [done..|congruence].
  - destruct (find_function_by_id functionId t) as [f|] eqn:Hf; simplify_eq; [|done].
    specialize (Ha f eq_refl). apply find_function_by_id_owner in Hf as [Hf <-].
    unfold tenant, owned_ids. simpl. f_equal. apply filter_snoc_out. simpl. apply bool_decide_eq_false.
    by apply (not_owned u t f Hok Hf).
  - destruct (find_function_by_id functionId t) as [f|] eqn:Hf; simplify_eq; [|done].
    specialize (Ha f eq_refl). case_match; simplify_eq; [done|].
    apply find_function_by_id_owner in Hf as [Hf <-].
    unfold tenant, owned_ids. simpl. f_equal. apply filter_snoc_out. simpl. apply bool_decide_eq_false.
    by apply (not_owned u t f Hok Hf).
Qed.

(** Registering only adds an account. *)
Lemma user_ids_kept {X} (e : db_eff X) t r t' x :
  db_spec e t r t' → x ∈ map user_id (t_users t) → x ∈ map user_id (t_users t').
Proof.
  intros [(draw & now & _ & Hr)|(z & _ & _ & ->)]; [|done]. revert t r t' Hr.
  induction e; intros t r t' Hr Hx; simpl in Hr; repeat case_match; simplify_eq; try done;
    try (simpl; rewrite map_app; apply elem_of_app; by left).
  - eapply IHe2; [done|]. eapply IHe1; done.
Qed.

(** Calls an account may always make, calls on one function, calls that read. *)
Definition static (p : string) X (e : ev X) : Prop :=
  match e with
  | Db e' => match e' with
             | ApiKeyCreate o _ _ _ | FunctionCreate o _ _ _ | FunctionDelete o _ => o = p
             | UserCreate _ _ => True
             | e' => reads e' = true
             end
  | Redis (Xack _ _ _) => False
  | _ => True
  end.
Definition on_function (fid : string) X (e : ev X) : Prop :=
  match e with
  | Db e' => match e' with
             | BuildCreate f _ st => f = fid ∧ st = PENDING
             | InvocationCreate f _ _ _ _ _ => f = fid
             | e' => reads e' = true
             end
  | Redis (Xack _ _ _) => False
  | _ => True
  end.

Lemma on_function_functions fid {X} (e : db_eff X) t r t' :
  on_function fid _ (Db e) → db_spec e t r t' → t_functions t' = t_functions t.
Proof.
  intros He Hs. destruct (reads e) eqn:Hrd; [by rewrite (reads_same _ _ _ _ Hrd Hs)|].
  destruct Hs as [(draw & now & _ & Hr)|(x & _ & _ & ->)]; [|done].
  destruct e; try discriminate Hrd; simpl in He; try discriminate He; simpl in Hr; repeat case_match; by simplify_eq.
Qed.

(** How a handler for the account [p] reaches the tables: by calls that name [p],
    by looking one of [p]'s functions up and working on it, or by revoking a key
    of [p]. *)
Inductive disciplined (p : string) : ∀ {A}, prog ev dstate A → Prop :=
| d_static A (q : prog ev dstate A) : only (static p) q → disciplined p q
| d_revoke id : disciplined p (AuthService.revokeApiKey p id)
| d_own A name (k : FunctionRecord → prog ev dstate A) :
    (∀ f, only (on_function (fn_id f)) (k f)) → disciplined p (f ← FunctionsService.get p name; k f)
| d_then A B (q : prog ev dstate A) (g : A → B) : disciplined p q → disciplined p (a ← q; Ret (g a)).

Lemma recordInvocation_calls {S} fid vid st d m : only (on_function fid) (FunctionsService.recordInvocation (S := S) fid vid st d m).
Proof. unfold FunctionsService.recordInvocation. only_calls. Qed.

Lemma spare_calls `{JC : JsonCodec} {S} fid : only (on_function fid) (WorkerRegistryService.hasSpareCapacity (S := S)).
Proof. unfold WorkerRegistryService.hasSpareCapacity, WorkerRegistryService.listWorkers. only_calls. Qed.

Lemma dispatch_calls `{JC : JsonCodec} fid job : only (on_function fid) (InvocationDispatchService.dispatch job).
Proof. unfold InvocationDispatchService.dispatch. only_calls. Qed.

Section handlers.
Context `{JC : JsonCodec} `{SHA : Sha256} `{EV : EmailValidator} (storage : ObjectStorage).

Lemma invoke_disciplined p name event : disciplined p (FunctionsService.invoke p name event).
Proof.
  apply d_own. intros f.
  apply only_bind; [by split; [|apply only_outcome]|]. intros [v|]; [|done].
  apply only_bind; [by split|]. intros start.
  apply only_bind; [apply spare_calls|]. intros [|]; cbn [negb].
  - apply only_try.
    + apply only_bind; [apply dispatch_calls|]. intros out.
      do 3 (apply only_bind; [apply only_outcome|]; intros ?).
      apply only_bind; [apply recordInvocation_calls|]. done.
    + intros x. apply only_bind; [by split|]. intros t. apply only_bind; [apply recordInvocation_calls|]. done.
  - apply only_bind; [by split|]. intros t. apply only_bind; [apply recordInvocation_calls|]. done.
Qed.

Ltac static_handler :=
  unfold AuthController.register, AuthController.login, AuthController.createApiKey, AuthController.listApiKeys,
    AuthService.register, AuthService.login, AuthService.createApiKey, AuthService.listApiKeys,
    FunctionsController.register, FunctionsController.list_, FunctionsController.get, FunctionsController.listInvocations,
    FunctionsController.getMetrics, FunctionsController.remove, FunctionsService.register, FunctionsService.list_,
    FunctionsService.listInvocations, FunctionsService.getMetricsSummary, FunctionsService.get, FunctionsService.remove,
    BuildController.getBuild, BuildController.listVersions, BuildService.getBuild, BuildService.listVersions, FunctionsService.get,
    WorkersController_list, MetricsController.getMetrics, promise_all, settled, MetricsController.getConsumerGroupLag,
    MetricsService.metricsText, HealthController_check, validated, WorkerRegistryService.listWorkers;
  only_calls.

Lemma handle_disciplined rq p : disciplined (userId p) (handle storage rq (Some p)).
Proof.
  unfold handle, with_user. destruct (req_route rq) as [| | | |id|?|?|name|name|name|name|name|name|name bid|name| | |];
    try (apply d_static; solve [static_handler]).
  - apply (d_then _ _ _ _ (λ _, REmpty)), d_revoke.
  - apply (d_then _ _ _ _ RInvoke). unfold FunctionsController.invoke. apply d_then, invoke_disciplined.
  - apply (d_then _ _ _ _ (λ b, RSubmitted b.1 b.2)). unfold BuildController.createVersion.
    destruct (req_file rq) as [buffer|]; [|by apply d_static].
    apply d_own. intros f. unfold BuildService.submitBuild, ObjectStorageService.putObject. only_calls.
Qed.

Lemma anonymous_disciplined q rq : disciplined q (handle storage rq None).
Proof. apply d_static. unfold handle, with_user. destruct (req_route rq); solve [done | static_handler]. Qed.

(** The calls of a request: it updates no build, ends no transaction of the build
    service, and acknowledges no message. *)
Definition request_call X (e : ev X) : Prop :=
  match e with
  | Db e' => match e' with
             | BuildCreate _ _ st => st = PENDING
             | BuildUpdate _ _ | TransactionBatch _ _ => False
             | _ => True
             end
  | Redis (Xack _ _ _) => False
  | _ => True
  end.

Lemma disciplined_calls p {A} (q : prog ev dstate A) : disciplined p q → only request_call q.
Proof.
  assert (∀ X (e : ev X), static p X e → request_call X e) as Hst.
  { intros X e He. destruct e as [X e|X e| | | | |]; [|done..]. by destruct e. }
  assert (∀ fid X (e : ev X), on_function fid X e → request_call X e) as Hon.
  { intros fid X e He. destruct e as [X e|X e| | | | |]; [|done..]. destruct e; simpl in *; try done. by destruct He. }
  induction 1 as [A q Hq|id|A name k Hk|A B q g Hq IH].
  - by eapply only_mono.
  - unfold AuthService.revokeApiKey. only_calls.
  - unfold FunctionsService.get. apply only_bind; [only_calls|]. intros f. eapply only_mono; [apply Hon|apply Hk].
  - by apply only_bind.
Qed.

Lemma serve_calls rq : only request_call (serve storage rq).
Proof.
  assert (∀ o, only request_call (handle storage rq o)) as Hh.
  { intros [p|]; [apply (disciplined_calls (userId p)), handle_disciplined|by apply (disciplined_calls EmptyString), anonymous_disciplined]. }
  assert (∀ header, only request_call (AuthGuard.canActivate (S := dstate) header)) as Hg.
  { intros header. unfold AuthGuard.canActivate, AuthGuard.tryVerifyJwt, AuthService.validateApiKey, AuthService.verifyJwt, fire_and_forget.
    only_calls. }
  unfold serve. destruct (guards_of (req_route rq)); [done|..]; (apply only_bind; [apply Hg|]); intros p; [done|].
  unfold ScopesGuard.canActivate. apply only_bind; [only_calls|done].
Qed.
End handlers.

(** Some other account. *)
Definition other_than (u : string) : string := "x" +:+ u.
Lemma other_than_ne u : other_than u ≠ u.
Proof. intros He. apply (f_equal String.length) in He. unfold other_than in He. rewrite length_sapp in He. simpl in He. lia. Qed.

Section tenants.
Context `{JC : JsonCodec} `{SHA : Sha256} `{EV : EmailValidator} (storage : ObjectStorage).
Context {W : Type} (env : Env ev W) (view : W → tables) `{DBE : !DbEnv env view} `{LIB : !LibEnv env}.
Context (R : dstate → dstate → Prop) (u : string).

(** The tables are well-formed and know [u]. *)
Definition knows (t : tables) : Prop := schema_ok t ∧ u ∈ map user_id (t_users t).

Lemma db_knows {X} (e : db_eff X) t r t' : db_spec e t r t' → knows t → knows t'.
Proof. intros Hs [Hok Hu]. split; [by eapply db_spec_schema_ok|by eapply user_ids_kept]. Qed.

Lemma static_tenant {A} p (q : prog ev dstate A) s w o s' w' :
  p ≠ u → only (static p) q → exec env R q s w o s' w' → knows (view w) →
  tenant u (view w') = tenant u (view w).
Proof.
  intros Hp Hq Hx Hk.
  apply (only_preserves (static p) env R (λ v, knows (view v) ∧ tenant u (view v) = tenant u (view w)) q s w o s' w'); try done.
  intros X e v r v' He Henv [Hkv Ht]. apply db_env in Henv.
  destruct e as [X e|X e|X e|X e|X e|X e|X e]; try (rewrite Henv; done).
  split; [by eapply db_knows|]. rewrite <- Ht. destruct Hkv. eapply (harmless_tenant u); try done. destruct e; simpl in *; naive_solver.
Qed.

Lemma function_tenant {A} p f (q : prog ev dstate A) s w o s' w' :
  p ≠ u → find_function_by_id (fn_id f) (view w) = Some f → fn_userId f = p → only (on_function (fn_id f)) q →
  exec env R q s w o s' w' → knows (view w) → tenant u (view w') = tenant u (view w).
Proof.
  intros Hp Hf Ho Hq Hx Hk.
  apply (only_preserves (on_function (fn_id f)) env R
    (λ v, knows (view v) ∧ find_function_by_id (fn_id f) (view v) = Some f ∧ tenant u (view v) = tenant u (view w)) q s w o s' w'); try done.
  intros X e v r v' He Henv (Hkv & Hfv & Ht). apply db_env in Henv.
  destruct e as [X e|X e|X e|X e|X e|X e|X e]; try (rewrite Henv; done).
  split; [by eapply db_knows|]. split.
  - unfold find_function_by_id. by rewrite (on_function_functions _ e _ _ _ He Henv).
  - rewrite <- Ht. destruct Hkv. eapply (harmless_tenant u); try done.
    destruct e; simpl in *; try done; naive_solver.
Qed.

(** The guard: what it let through, and what it touched. *)
Lemma guard_tenant header (s : dstate) w o s' w' :
  exec env R (AuthGuard.canActivate header) s w o s' w' → knows (view w) →
  match o with
  | Ok p => authentic env header p (view w) ∧ (userId p ≠ u → knows (view w') ∧ tenant u (view w') = tenant u (view w))
  | Err _ => tenant u (view w') = tenant u (view w)
  end.
Proof.
  intros Hx Hk. pose proof (auth_guard_spec env view R header s w o s' w' Hx) as Hv.
  assert (match o with
    | Ok p => view w' = view w ∨ ∃ k now r, find_key_by_id (key_id k) (view w) = Some k ∧ key_userId k = userId p ∧
        db_spec (ApiKeySetLastUsedAt (key_id k) now) (view w) r (view w')
    | Err _ => view w' = view w end) as Ht.
  { clear Hv. destruct Hk as [Hok _]. by_wp Hx. unfold AuthGuard.canActivate.
    destruct header as [header|]; [|done]. destruct (startsWith "Bearer " header); [|done].
    apply wp_bind. destruct (startsWith "mc_" _).
    - unfold AuthService.validateApiKey. apply (wp_db env view). intros r s1 w1 Hr.
      assert (view w1 = view w) as Hv1 by (refine (reads_same _ _ _ _ _ Hr); reflexivity).
      destruct r as [[k|]|x]; [|done|done]. destruct (key_revokedAt k); [done|].
      apply (wp_sys env view). intros now w2 Hv2. cbn [fire_and_forget mbind prog_mbind bind wp].
      intros r w3 s3 Henv _. apply db_env in Henv. right. exists k, now, r. simpl.
      destruct Hr as [(draw & now0 & _ & Hr)|(x & _ & Hr & _)]; [|done]. simpl in Hr. injection Hr as Hfk _.
      apply find_bd_Some in Hfk as [Hin _]. split; [by apply find_bd_unique; [apply Hok|]|]. split; [done|].
      by rewrite Hv2, Hv1 in Henv.
    - unfold AuthGuard.tryVerifyJwt. apply wp_try, wp_bind, (wp_other env view); [done|]. intros [p|x] s1 w1 Hv1; cbn [wp]; [by left|done]. }
  destruct o as [p|x]; [|by rewrite Ht]. split; [exact Hv|]. intros Hp.
  destruct Ht as [Ht|(k & now & r & Hf & Ho & Hs)]; [by rewrite Ht|].
  split; [by eapply db_knows|]. destruct Hk. eapply (harmless_tenant u); try done. simpl. naive_solver.
Qed.

(** A handler acting for another account. *)
Lemma revoke_tenant p kid s w o s' w' :
  p ≠ u → exec env R (AuthService.revokeApiKey p kid) s w o s' w' → knows (view w) → tenant u (view w') = tenant u (view w).
Proof.
  intros Hp Hx Hk. by_wp Hx. unfold AuthService.revokeApiKey. apply (wp_db env view). intros r s1 w1 Hr.
  assert (view w1 = view w) as Hv1 by (refine (reads_same _ _ _ _ _ Hr); reflexivity).
  destruct r as [[k|]|x]; cbn [wp]; [|by rewrite Hv1..].
  case_decide as Ho; cbn [wp]; [by rewrite Hv1|]. apply (wp_sys env view). intros now w2 Hv2.
  apply (wp_db env view). intros r2 s3 w3 Hr2. rewrite Hv2, Hv1 in Hr2.
  assert (tenant u (view w3) = tenant u (view w)) as Ht.
  { destruct Hk. eapply (harmless_tenant u); try done. simpl. intros k' Hk'.
    destruct Hr as [(draw & now0 & _ & Hr)|(x & _ & Hr & _)]; [|done]. simpl in Hr. injection Hr as Hfk _.
    rewrite Hfk in Hk'. injection Hk' as <-. destruct (decide (key_userId k = p)); [congruence|done]. }
  destruct r2; exact Ht.
Qed.

(** Looking the caller's function up, then working on it. *)
Lemma own_function_tenant {A} p name (k : FunctionRecord → prog ev dstate A) s w o s' w' :
  p ≠ u → (∀ f, only (on_function (fn_id f)) (k f)) →
  exec env R (f ← FunctionsService.get p name; k f) s w o s' w' → knows (view w) → tenant u (view w') = tenant u (view w).
Proof.
  intros Hp Hk Hx Hkn. by_wp Hx. apply wp_bind, wp_exec. intros og s1 w1 [Hv Hg]%(get_spec env view R).
  destruct og as [f|x]; [|by rewrite Hv]. apply wp_exec. intros o2 s2 w2 Hx.
  apply find_function_Some in Hg as (Hf & Ho & _). rewrite <- Hv in *.
  apply (function_tenant p f (k f) s1 w1 o2 s2 w2); [done| |done|apply Hk|done|done].
  destruct Hkn as [Hok _]. by apply find_bd_unique; [apply Hok|].
Qed.

Lemma bind_tenant {A B} (q : prog ev dstate A) (k : A → prog ev dstate B) s w o s' w' :
  (∀ o1 s1 w1, exec env R q s w o1 s1 w1 → tenant u (view w1) = tenant u (view w)) → (∀ a, ∃ b, k a = Ret b) →
  exec env R (bind k q) s w o s' w' → tenant u (view w') = tenant u (view w).
Proof.
  intros Hq Hk Hx. by_wp Hx. apply wp_bind, wp_exec. intros [a|x] s1 w1 H1; [|by eapply Hq].
  destruct (Hk a) as [b ->]. cbn [wp]. by eapply Hq.
Qed.

(** A handler acting for an account other than [u], or for none. *)
Lemma disciplined_tenant p {A} (q : prog ev dstate A) s w o s' w' :
  p ≠ u → disciplined p q → exec env R q s w o s' w' → knows (view w) → tenant u (view w') = tenant u (view w).
Proof.
  intros Hp Hq. revert s w o s' w'. induction Hq as [A q Hq|id|A name k Hk|A B q g Hq IH]; intros s w o s' w' Hx Hkn.
  - by eapply (static_tenant p).
  - by eapply (revoke_tenant p id).
  - by eapply (own_function_tenant p name).
  - eapply bind_tenant; [|intros a|exact Hx]; [intros o1 s1 w1 H1; by eapply IH|by eexists].
Qed.

Lemma handle_tenant rq user s w o s' w' :
  (∀ p, user = Some p → userId p ≠ u) → exec env R (handle storage rq user) s w o s' w' → knows (view w) →
  tenant u (view w') = tenant u (view w).
Proof.
  intros Huser Hx Hk. destruct user as [p|].
  - apply (disciplined_tenant (userId p) (handle storage rq (Some p)) s w o s' w'); auto using handle_disciplined.
  - apply (disciplined_tenant (other_than u) (handle storage rq None) s w o s' w'); auto using anonymous_disciplined, other_than_ne.
Qed.

(** The calls a guard makes. *)
Definition guard_call X (e : ev X) : Prop :=
  match e with
  | Db e' => match e' with ApiKeyFindByHash _ | ApiKeySetLastUsedAt _ _ => True | _ => False end
  | Lib e' => match e' with JwtVerify _ => True | _ => False end
  | Sys e' => match e' with DateNow => True | _ => False end
  | _ => False
  end.

Lemma auth_guard_calls {S} header : only guard_call (S := S) (AuthGuard.canActivate header).
Proof.
  unfold AuthGuard.canActivate, AuthGuard.tryVerifyJwt, AuthService.verifyJwt, AuthService.validateApiKey, fire_and_forget. only_calls.
Qed.

(** The scopes a guarded route asks for. *)
Definition required_scopes (g : guards) : list string := match g with Scoped l => l | _ => [] end.

(** C4: the API does nothing for a guarded route without a sufficient credential:
    either the request's header proves a principal that holds every scope the
    route requires, or the request fails and the only calls made are the guard's
    own look at the credential: no handler ran, no body was read. *)
Theorem guarded_routes_need_credentials rq s w o s' w' tr :
  guards_of (req_route rq) ≠ Open →
  exec (logged env) R (serve storage rq) s (w, []) o s' (w', tr) →
  (∃ p, authentic env (req_authorization rq) p (view w) ∧
        ∀ sc, sc ∈ required_scopes (guards_of (req_route rq)) → sc ∈ scopes p) ∨
  (is_Ok o = false ∧ Forall (λ en : entry, guard_call _ (entry_call en)) tr).
Proof.
  intros Hg Hx.
  apply (exec_wp _ _ _ _ _ _ _ _ (λ o _ v, (∃ p, authentic env (req_authorization rq) p (view w) ∧
        ∀ sc, sc ∈ required_scopes (guards_of (req_route rq)) → sc ∈ scopes p) ∨
      (is_Ok o = false ∧ Forall (λ en : entry, guard_call _ (entry_call en)) v.2)) Hx). clear Hx.
  assert (∀ (k : AuthenticatedPrincipal → prog ev dstate reply) (Q : outcome reply → dstate → W * list entry → Prop),
    (∀ p s1 w1 tr1, authentic env (req_authorization rq) p (view w) → Forall (λ en : entry, guard_call _ (entry_call en)) tr1 →
       wp (logged env) R (k p) s1 (w1, tr1) Q) →
    (∀ x s1 w1 tr1, Forall (λ en : entry, guard_call _ (entry_call en)) tr1 → Q (Err x) s1 (w1, tr1)) →
    wp (logged env) R (p ← AuthGuard.canActivate (req_authorization rq); k p) s (w, []) Q) as Hguard.
  { intros k Q Hok Herr. apply wp_bind, wp_exec. intros o1 s1 [w1 tr1] Hx.
    destruct (only_logged guard_call env R _ _ _ _ _ _ _ _ (auth_guard_calls _) Hx) as (calls & -> & Hc). cbn [app] in *.
    assert (exec env R (AuthGuard.canActivate (req_authorization rq)) s w o1 s1 w1) as Hx'.
    { by apply (exec_unlogged env R _ _ (w, []) _ _ (w1, calls)). }
    apply (auth_guard_spec env view R) in Hx'. destruct o1 as [p|x]; [by apply Hok|by apply Herr]. }
  unfold serve. destruct (guards_of (req_route rq)) as [| |required]; [done|..]; apply Hguard.
  - intros p s1 w1 tr1 Hp _. apply wp_exec. intros o2 s2 v _. left. exists p. split; [done|]. intros sc Hsc. by apply not_elem_of_nil in Hsc.
  - intros x s1 w1 tr1 Hc. right. done.
  - intros p s1 w1 tr1 Hp Hc. unfold ScopesGuard.canActivate. destruct required as [|sc0 l].
    { apply wp_exec. intros o2 s2 v _. left. exists p. split; [done|]. intros sc Hsc. by apply not_elem_of_nil in Hsc. }
    destruct (0 <? length (ScopesGuard.missing_scopes (sc0 :: l) (scopes p)))%nat eqn:Hm; [by right|].
    apply wp_exec. intros o2 s2 v _. left. exists p. split; [done|]. apply missing_scopes_nil.
    cbn [required_scopes]. by destruct (ScopesGuard.missing_scopes (sc0 :: l) (scopes p)).
  - intros x s1 w1 tr1 Hc. by right.
Qed.

(** Tenants are isolated: whatever the request, every row of an existing
    account — its keys, functions, versions, builds and invocations — is what it
    was, unless the request's header proves a credential of that very account. *)
Theorem tenant_isolation rq s w o s' w' :
  schema_ok (view w) → u ∈ map user_id (t_users (view w)) →
  exec env R (serve storage rq) s w o s' w' →
  tenant u (view w') = tenant u (view w) ∨
  ∃ p, authentic env (req_authorization rq) p (view w) ∧ userId p = u.
Proof.
  intros Hok Hu Hx. assert (knows (view w)) as Hk by done. clear Hok Hu.
  assert (∀ (k : AuthenticatedPrincipal → prog ev dstate reply),
    (∀ p s1 w1, authentic env (req_authorization rq) p (view w) → userId p ≠ u → knows (view w1) → tenant u (view w1) = tenant u (view w) →
       wp env R (k p) s1 w1 (λ _ _ w', tenant u (view w') = tenant u (view w))) →
    wp env R (p ← AuthGuard.canActivate (req_authorization rq); k p) s w (λ _ _ w', tenant u (view w') = tenant u (view w) ∨
      ∃ p, authentic env (req_authorization rq) p (view w) ∧ userId p = u)) as Hguard.
  { intros k Hrun. apply wp_bind, wp_exec. intros o1 s1 w1 H1%guard_tenant; [|done].
    destruct o1 as [p|x]; [|by left]. destruct H1 as [Hp Hne].
    destruct (decide (userId p = u)) as [He|Hne'].
    - apply wp_exec. intros o2 s2 w2 _. right. by exists p.
    - destruct (Hne Hne') as [Hk1 Ht]. eapply wp_mono; [by apply Hrun|]. intros. by left. }
  assert (∀ p s1 w1, userId p ≠ u → knows (view w1) → tenant u (view w1) = tenant u (view w) →
    wp env R (handle storage rq (Some p)) s1 w1 (λ _ _ w', tenant u (view w') = tenant u (view w))) as Hhandle.
  { intros p s1 w1 Hp Hk1 Ht. apply wp_exec. intros o2 s2 w2 H2. rewrite <- Ht.
    eapply handle_tenant; [|exact H2|exact Hk1]. by intros p' [= <-]. }
  by_wp Hx. unfold serve. destruct (guards_of (req_route rq)) as [| |required].
  - apply wp_exec. intros o2 s2 w2 H2. left. eapply handle_tenant; [|exact H2|exact Hk]. by intros p [=].
  - apply Hguard. intros. by apply Hhandle.
  - apply Hguard. intros p s1 w1 _ Hp Hk1 Ht. unfold ScopesGuard.canActivate.
    destruct required; [by apply Hhandle|]. case_match; [exact Ht|by apply Hhandle].
Qed.
End tenants.


(** ** Concrete executions *)

Module ApiDemo.
Definition demo_email : EmailValidator := λ s, arr_includes "@" (map (λ c, String c "") (String.list_ascii_of_string s)).
Definition bob : User := {| user_id := "u-bob"; user_email := "bob@example.com"; user_passwordHash := "bcrypt:hunter22"; user_createdAt := 3 |}.
Definition bob_key : ApiKey := {| key_id := "k-2"; key_userId := "u-bob"; key_keyHash := "sha256:mc_2"; key_name := "laptop";
  key_scopes := ALL_SCOPES; key_lastUsedAt := None; key_revokedAt := None; key_createdAt := 4 |}.
Definition tables2 : tables := set_users [AuthDemo.alice; bob] (set_keys [AuthDemo.alice_key; bob_key] (set_functions [FunctionsDemo.others] empty_tables)).
Definition world : mem := mem_of tables2.
Definition wanted : json := JObj [("name", JStr "all"); ("scopes", JArr (map JStr API_SCOPES))].
(** A request carrying alice's key, which has one scope: functions:invoke. *)
Definition with_key (r : route) (body : option json) : request :=
  {| req_route := r; req_authorization := Some "Bearer mc_1"; req_body := body; req_file := None |}.
Definition unused_storage : ObjectStorage := BuildDemo.storage.
End ApiDemo.

#[local] Existing Instance json_codec.
#[local] Existing Instance ApiDemo.demo_email.
#[local] Existing Instance AuthDemo.demo_sha.
#[local] Existing Instance AuthDemo.lib_answer_env.

(** The key may only invoke, and gets a key with every scope. *)
Example scoped_key_mints_full_key :
  ∃ k s' w', exec AuthDemo.env still (serve ApiDemo.unused_storage (ApiDemo.with_key POST_api_keys (Some ApiDemo.wanted)))
      dstate0 ApiDemo.world (Ok (RCreatedKey k)) s' w' ∧
    created_scopes k = ALL_SCOPES ∧ key_scopes AuthDemo.alice_key = ["functions:invoke"].
Proof. eexists _, _, _. split; [executes|]. done. Qed.

Lemma guarded_routes_need_credentials_witness :
  ∃ o s' w' tr, exec (logged AuthDemo.env) still (serve ApiDemo.unused_storage (ApiDemo.with_key (DELETE_function "hello") None))
      dstate0 (ApiDemo.world, []) o s' (w', tr) ∧
    o = Err (ForbiddenException "Missing required scope(s): functions:write") ∧
    ((∃ p, authentic AuthDemo.env (Some "Bearer mc_1") p (mem_tables ApiDemo.world) ∧
        ∀ sc, sc ∈ ["functions:write"] → sc ∈ scopes p) ∨
     (is_Ok o = false ∧ Forall (λ en : entry, guard_call _ (entry_call en)) tr)).
Proof.
  eexists _, _, _, _. split; [executes_logged|]. split; [reflexivity|].
  eapply (guarded_routes_need_credentials (LIB := AuthDemo.lib_answer_env) ApiDemo.unused_storage AuthDemo.env mem_tables still
    (ApiDemo.with_key (DELETE_function "hello") None) dstate0 ApiDemo.world); [done|executes_logged].
Defined.

Lemma tenant_isolation_witness :
  ∃ o s' w', exec AuthDemo.env still (serve ApiDemo.unused_storage (ApiDemo.with_key POST_api_keys (Some ApiDemo.wanted)))
      dstate0 ApiDemo.world o s' w' ∧
    length (t_keys (mem_tables w')) = 3%nat ∧
    (tenant "u-bob" (mem_tables w') = tenant "u-bob" ApiDemo.tables2 ∨
     ∃ p, authentic AuthDemo.env (Some "Bearer mc_1") p ApiDemo.tables2 ∧ userId p = "u-bob").
Proof.
  eexists _, _, _. split; [executes|]. split; [reflexivity|].
  eapply (tenant_isolation (LIB := AuthDemo.lib_answer_env) ApiDemo.unused_storage AuthDemo.env mem_tables still "u-bob"
    (ApiDemo.with_key POST_api_keys (Some ApiDemo.wanted)) dstate0 ApiDemo.world);
    [apply schema_okb_ok; vm_compute; reflexivity|simpl; set_solver|executes].
Defined.
