(* ===== verification/LoadTest.v ===== *)
(** * The load-test clients (loadtest)

    The two k6 scripts as programs over HTTP: the set-up of the load test
    (register, log in, deploy, wait for the build), the iteration of a virtual
    user and its counters, and the smoke test.  The last section joins the client
    to the server: a request of the client is routed, parsed and served by Api.v,
    its guards included, and the check every load-test request makes is one the
    platform passes. *)

From Stdlib Require Import QArith Ascii.
From S2P Require Import Prelude Json JsonText Prog Services Percentile Database Schema Auth Registry Dispatch Functions Storage Build Metrics Api.
#[local] Close Scope Q_scope.
#[local] Open Scope Z_scope.

(** ** What k6 offers a script *)

(** A request body: a text, or a form with one file ([http.file]). *)
Inductive payload := Text (text : string) | FormFile (field content filename mime : string).

(** A response: status 0 when the request failed; the body parsed as JSON, [None]
    when it is none; [timings.duration]. *)
Record http_response := { res_status : Z; res_json : option json; res_duration : Q }.

Inductive k6_eff : Type → Type :=
| HttpPost (url : string) (body : payload) (headers : list (string * string)) : k6_eff http_response
| HttpGet (url : string) (headers : list (string * string)) : k6_eff http_response
| K6Sleep (ms : Z) : k6_eff unit
| K6Now : k6_eff Z
| K6Check (name : string) (passed : bool) : k6_eff unit
| CounterAdd (metric : string) : k6_eff unit
| TrendAdd (metric : string) (v : Q) : k6_eff unit.

#[export] Instance k6_events : Events k6_eff :=
  λ X e, match e with HttpPost _ _ _ | HttpGet _ _ | K6Sleep _ => true | _ => false end.

Definition k6 {X} (e : k6_eff X) : prog k6_eff unit X := ask e.

(** [res.json('a.b')]: throws when the body is no JSON; [None] is undefined. *)
Definition not_json : exn := JsError "cannot parse json due to an error at line 1".
Fixpoint json_path (keys : list string) (v : json) : option json :=
  match keys with
  | [] => Some v
  | k :: keys' => v' ← json_get k v; json_path keys' v'
  end.
Definition res_select (keys : list string) (r : http_response) : outcome (option json) :=
  match res_json r with Some v => Ok (json_path keys v) | None => Err not_json end.

(** [__ENV.NAME || dflt] *)
Definition BASE_URL (v : option string) : string := default "http://localhost:3000" (truthy v).
Definition TARGET_VUS (v : option string) : option Z := match truthy v with Some text => Number text | None => Some 10 end.

(** [options] of the load test: the stages (seconds, virtual users), the threshold. *)
Record k6_options := { stages : list (Z * option Z); thresholds : list (string * list string) }.
Definition load_options (vus : option Z) : k6_options :=
  {| stages := [(10, vus); (30, vus); (10, Some 0)];
     thresholds := [("invoke_success_duration_ms", ["p(95)<3000"])] |}.

Definition credentials `{JC : JsonCodec} (email password : string) : payload :=
  Text (JSON_stringify (JObj [("email", JStr email); ("password", JStr password)])).
Definition json_headers : list (string * string) := [("Content-Type", "application/json")].
Definition bearer (token : option json) : list (string * string) := [("Authorization", "Bearer " +:+ js_text_of token)].

Definition password : string := "correct horse battery staple".

Section scripts.
Context `{JC : JsonCodec} (base : string).

(** The [for] loop that waits for a build, from its [n] remaining rounds on. *)
Definition is_done (status : option json) : bool := json_is_str "SUCCESS" status || json_is_str "FAILED" status.

Fixpoint await_build (url : string) (auth : list (string * string)) (n : nat) (status : option json) : prog k6_eff unit (option json) :=
  match n with
  | O => Ret status
  | S n' =>
      if is_done status then Ret status
      else
        _ ← k6 (K6Sleep 500);
        buildRes ← k6 (HttpGet url auth);
        status ← of_outcome (res_select ["status"] buildRes);
        await_build url auth n' status
  end.

Definition build_url (fn : string) (buildId : option json) : string :=
  base +:+ "/functions/" +:+ fn +:+ "/builds/" +:+ js_text_of buildId.

(** *** invoke-load.js *)

Definition load_source : string := "exports.handler = async () => ({ message: " +:+ dq +:+ "load test ok" +:+ dq +:+ " });" +:+ newline.

(** [setup], which returns the headers of the virtual users. *)
Definition setup : prog k6_eff unit (list (string * string)) :=
  now ← k6 K6Now;
  let email := "loadtest-" +:+ string_of_Z now +:+ "@example.com" in
  _ ← k6 (HttpPost (base +:+ "/auth/register") (credentials email password) json_headers);
  login ← k6 (HttpPost (base +:+ "/auth/login") (credentials email password) json_headers);
  token ← of_outcome (res_select ["accessToken"] login);
  let auth := bearer token in
  _ ← k6 (HttpPost (base +:+ "/functions")
        (Text (JSON_stringify (JObj [("name", JStr "loadtest-fn"); ("timeoutMs", JNum 3000)]))) (auth ++ json_headers));
  upload ← k6 (HttpPost (base +:+ "/functions/loadtest-fn/versions")
        (FormFile "source" load_source "handler.js" "text/javascript") auth);
  buildId ← of_outcome (res_select ["buildId"] upload);
  status ← await_build (build_url "loadtest-fn" buildId) auth 40 (Some (JStr "PENDING"));
  if json_is_str "SUCCESS" status then Ret auth
  else Throw (JsError ("Setup failed: build did not succeed (status: " +:+ js_text_of status +:+ ")")).

(** The predicate of the load test's [check]. *)
Definition expected_status (status : Z) : bool := (status =? 200) || (status =? 503).

(** The default function: one iteration of a virtual user. *)
Definition iterate (auth : list (string * string)) : prog k6_eff unit unit :=
  res ← k6 (HttpPost (base +:+ "/functions/loadtest-fn/invoke") (Text (JSON_stringify (JObj []))) (auth ++ json_headers));
  _ ← (if res_status res =? 200 then
         _ ← k6 (CounterAdd "invoke_success");
         k6 (TrendAdd "invoke_success_duration_ms" (res_duration res))
       else if res_status res =? 503 then k6 (CounterAdd "invoke_503_backpressure")
       else Ret tt);
  k6 (K6Check "status is 200 or 503 - never a 5xx surprise" (expected_status (res_status res))).

(** *** smoke.js *)

Definition smoke_source : string := "exports.handler = async () => ({ message: " +:+ dq +:+ "smoke test ok" +:+ dq +:+ " });" +:+ newline.

Definition smoke : prog k6_eff unit unit :=
  now ← k6 K6Now;
  let email := "smoke-" +:+ string_of_Z now +:+ "@example.com" in
  register ← k6 (HttpPost (base +:+ "/auth/register") (credentials email password) json_headers);
  _ ← k6 (K6Check "register: 201" (res_status register =? 201));
  login ← k6 (HttpPost (base +:+ "/auth/login") (credentials email password) json_headers);
  _ ← k6 (K6Check "login: 200" (res_status login =? 200));
  token ← of_outcome (res_select ["accessToken"] login);
  let auth := bearer token in
  register_fn ← k6 (HttpPost (base +:+ "/functions") (Text (JSON_stringify (JObj [("name", JStr "smoke-fn")]))) (auth ++ json_headers));
  _ ← k6 (K6Check "create function: 201" (res_status register_fn =? 201));
  upload ← k6 (HttpPost (base +:+ "/functions/smoke-fn/versions")
        (FormFile "source" smoke_source "handler.js" "text/javascript") auth);
  _ ← k6 (K6Check "upload version: 201" (res_status upload =? 201));
  buildId ← of_outcome (res_select ["buildId"] upload);
  status ← await_build (build_url "smoke-fn" buildId) auth 40 (Some (JStr "PENDING"));
  _ ← k6 (K6Check "build succeeded" (json_is_str "SUCCESS" status));
  invoke ← k6 (HttpPost (base +:+ "/functions/smoke-fn/invoke") (Text (JSON_stringify (JObj []))) (auth ++ json_headers));
  _ ← k6 (K6Check "invoke: 200" (res_status invoke =? 200));
  message ← of_outcome (res_select ["result"; "message"] invoke);
  k6 (K6Check "invoke: correct result" (json_is_str "smoke test ok" message)).
End scripts.

(** ** The set-up *)

Section setup_facts.
Context `{JC : JsonCodec} (base : string) (R : unit → unit → Prop).

(** The calls of the waiting loop that got the responses [rs]. *)
Definition polls (url : string) (auth : list (string * string)) (rs : list http_response) : list (Prog.entry k6_eff) :=
  rs ≫= λ r, [Entry (K6Sleep 500) tt; Entry (HttpGet url auth) r].

Lemma polls_snoc url auth rs r :
  polls url auth (rs ++ [r]) = (polls url auth rs ++ [Entry (K6Sleep 500) tt]) ++ [Entry (HttpGet url auth) r].
Proof. unfold polls. by rewrite bind_app, <- app_assoc. Qed.

(** A round after which the loop goes on. *)
Definition unfinished (r : http_response) : Prop := ∃ st, res_select ["status"] r = Ok st ∧ is_done st = false.

(** The loop's end: a build that is done, no round left, or a response that is no JSON. *)
Definition polled (n : nat) (status : option json) (rs : list http_response) (o : outcome (option json)) : Prop :=
  (rs = [] ∧ (n = 0%nat ∨ is_done status = true) ∧ o = Ok status) ∨
  (is_done status = false ∧ ∃ before last, rs = before ++ [last] ∧ (length rs <= n)%nat ∧ Forall unfinished before ∧
     o = res_select ["status"] last ∧ (unfinished last → length rs = n)).

Lemma await_build_spec url auth n : ∀ status s tr (Q : outcome (option json) → unit → list (Prog.entry k6_eff) → Prop),
  (∀ rs o s', polled n status rs o → Q o s' (tr ++ polls url auth rs)) →
  wp (history_env k6_eff) R (await_build url auth n status) s tr Q.
Proof.
  induction n as [|n IH]; intros status s tr Q HQ; cbn [await_build].
  - cbn [wp]. rewrite <- (app_nil_r tr). apply (HQ []). left. auto.
  - destruct (is_done status) eqn:Hd.
    { cbn [wp]. rewrite <- (app_nil_r tr). apply (HQ []). left. auto. }
    unfold k6, ask. cbn [mbind prog_mbind bind wp]. intros [] ? s1 -> _ r ? s2 -> _.
    rewrite <- app_assoc. cbn [app].
    destruct (res_select ["status"] r) as [st|x] eqn:Hr; cbn [of_outcome mbind prog_mbind bind wp].
    2: { apply (HQ [r]). right. split; [done|]. exists [], r. split_and!; [done|simpl; lia|done|done|]. intros (? & ? & _). congruence. }
    apply IH. intros rs o s' Hp. rewrite <- app_assoc. apply (HQ (r :: rs)).
    destruct Hp as [(-> & Hn & ->)|(Hst & before & last & -> & Hlen & Hb & -> & Hl)]; right; (split; [done|]).
    + exists [], r. split_and!; [done|simpl; lia|done|done|]. intros (st' & Hst' & Hnd).
      destruct Hn as [->|Hd']; [done|]. congruence.
    + exists (r :: before), last. split_and!; [done|simpl in *; lia|constructor; [by exists st|done]|done|intros H; simpl; by rewrite Hl].
Qed.
End setup_facts.

(** ** The server the virtual users meet *)

(** The paths the scripts request, as the decorators of the controllers declare
    them; a path parameter holds no percent escape here. *)
Definition post_route (path : string) : option route :=
  match split_on "/"%char path with
  | [""; "auth"; "register"] => Some POST_auth_register
  | [""; "auth"; "login"] => Some POST_auth_login
  | [""; "functions"] => Some POST_functions
  | [""; "functions"; name; "versions"] => Some (POST_versions name)
  | [""; "functions"; name; "invoke"] => Some (POST_invoke name)
  | _ => None
  end.
Definition get_route (path : string) : option route :=
  match split_on "/"%char path with
  | [""; "functions"; name; "builds"; buildId] => Some (GET_build name buildId)
  | _ => None
  end.

(** The status of a reply: the route's ([@HttpCode], 201 for any other POST), the
    one the invoke route sets itself, or the exception filter's. *)
Definition success_status (r : route) : Z :=
  match r with
  | POST_auth_register | POST_api_keys | POST_functions | POST_versions _ => 201
  | DELETE_api_key _ | DELETE_function _ => 204
  | _ => 200
  end.
Definition sent_status (r : route) (o : outcome reply) : Z :=
  match o with
  | Ok (RInvoke res) => resp_status res
  | Ok _ => success_status r
  | Err (HttpException status _) => status
  | Err _ => 500
  end.

(** A header of a request. *)
Definition header_of (name : string) (headers : list (string * string)) : option string :=
  snd <$> List.find (λ h, bool_decide (h.1 = name)) headers.

(** What the server takes from a request: its route, its [Authorization] header, and
    its body (by its content type an object or an array as JSON, or the file of the
    field [source]); no request when the body does not parse. *)
Definition request_of `{JC : JsonCodec} (rt : route) (body : payload) (headers : list (string * string)) : option request :=
  let rq b f := {| req_route := rt; req_authorization := header_of "Authorization" headers; req_body := b; req_file := f |} in
  match body with
  | Text text =>
      if bool_decide (header_of "Content-Type" headers = Some "application/json")
      then match JSON_parse text with
           | Some (JObj _ as v) | Some (JArr _ as v) => Some (rq (Some v) None)
           | _ => None
           end
      else Some (rq None None)
  | FormFile field content _ _ => if bool_decide (field = "source") then Some (rq None (Some content)) else None
  end.

(** A platform on which the user's function is deployed, which accepts the token as
    the user's with the scope to invoke, and whose database and registry answer;
    everything else (the stream, the workers, the clock, the recording of the
    invocation) may fail or answer anything. *)
Definition deployed `{JC : JsonCodec} {W} (env : Env ev W) (token userId name : string) (f : FunctionRecord) (v : FunctionVersion) : Prop :=
  startsWith API_KEY_PREFIX token = false ∧
  (∀ w r w', env _ (Lib (JwtVerify token)) w r w' →
     ∃ granted, r = Ok {| jwt_sub := userId; jwt_scopes := granted |} ∧ "functions:invoke" ∈ granted) ∧
  (∀ w r w', env _ (Db (FunctionFindUnique userId name)) w r w' → r = Ok (Some f)) ∧
  (∀ w r w', env _ (Db (VersionFindLatest (fn_id f))) w r w' → r = Ok (Some v)) ∧
  (∀ w r w', env _ (Redis (Hgetall REGISTRY_KEY)) w r w' →
     ∃ raw, r = Ok raw ∧ ∀ now, is_Ok (WorkerRegistryService.parse_workers now raw) = true).

Section server.
Context `{JC : JsonCodec} `{SHA : Sha256} `{EV : EmailValidator} (storage : ObjectStorage).
Context {W : Type} (env : Env ev W) (R : dstate → dstate → Prop).

(** Recording an invocation throws nothing. *)
Lemma record_silent fid vid st d m s w (Q : outcome unit → dstate → W → Prop) :
  (∀ s' w', Q (Ok tt) s' w') → wp env R (FunctionsService.recordInvocation fid vid st d m) s w Q.
Proof. intros HQ. apply wp_try, wp_exec. intros [[]|x] s' w' _; [apply HQ|]. cbn [wp]. apply HQ. Qed.

Lemma invoke_status token userId name event f v s w :
  deployed env token userId name f v →
  wp env R (FunctionsController.invoke userId name event) s w (λ o _ _,
    match o with Ok r => resp_status r = 200 | Err x => ∃ m, x = HttpException 503 m end).
Proof.
  intros (_ & _ & Hf & Hv & Hr). unfold FunctionsController.invoke, FunctionsService.invoke, FunctionsService.get, db, call.
  cbn [mbind prog_mbind bind wp]. intros r w1 s1 ->%Hf _. cbn [of_outcome mbind prog_mbind bind wp].
  intros r w2 s2 ->%Hv _. cbn [of_outcome mbind prog_mbind bind wp].
  unfold sys, ask, WorkerRegistryService.hasSpareCapacity, WorkerRegistryService.listWorkers, redis, call. cbn [mbind prog_mbind bind wp].
  intros start w3 s3 _ _ r w4 s4 (raw & -> & Hraw)%Hr _. cbn [of_outcome mbind prog_mbind bind wp]. intros now w5 s5 _ _.
  cbn [of_outcome mbind prog_mbind bind wp]. specialize (Hraw now). destruct (WorkerRegistryService.parse_workers now raw) as [l|x]; [|done]. cbn [of_outcome mbind prog_mbind bind wp].
  destruct (existsb spare l); cbn [negb mbind prog_mbind bind].
  - apply wp_bind, wp_try, wp_exec. intros [out|x] s6 w6 _; cbn [wp].
    + unfold FunctionsController.invoke_response. by destruct (json_is_str _ _).
    + cbn [mbind prog_mbind bind wp sys ask]. intros now2 w7 s7 _ _. apply wp_bind, record_silent. intros s8 w8. by eexists.
  - cbn [mbind prog_mbind bind wp]. intros now2 w7 s7 _ _. apply wp_bind, wp_bind, record_silent. intros s8 w8. by eexists.
Qed.

(** The guards let the token's requests through. *)
Lemma guards_pass token userId name f v header s w (k : AuthenticatedPrincipal → prog ev dstate reply) Q :
  deployed env token userId name f v → header = "Bearer " +:+ token →
  (∀ granted s' w', wp env R (k {| userId := userId; scopes := granted |}) s' w' Q) →
  wp env R (p ← AuthGuard.canActivate (Some header);
            _ ← ScopesGuard.canActivate (Some ["functions:invoke"]) (Some p);
            k p) s w Q.
Proof.
  intros (Hmc & Hjwt & _) -> HQ. unfold AuthGuard.canActivate. rewrite startsWith_app, (slice_from_app "Bearer ").
  change (startsWith "mc_" token) with (startsWith API_KEY_PREFIX token). rewrite Hmc.
  apply wp_bind, wp_bind. unfold AuthGuard.tryVerifyJwt, AuthService.verifyJwt, lib, call. apply wp_try.
  cbn [mbind prog_mbind bind wp]. intros r w1 s1 (granted & -> & Hin)%Hjwt _. cbn [of_outcome mbind prog_mbind bind wp].
  cbv beta iota. unfold ScopesGuard.canActivate. cbn [scopes jwt_scopes jwt_sub].
  assert (ScopesGuard.missing_scopes ["functions:invoke"] granted = []) as ->
    by (apply missing_scopes_nil; by intros sc ->%list_elem_of_singleton). apply HQ.
Qed.

Lemma serve_status token userId name f v body s w o s' w' :
  deployed env token userId name f v →
  exec env R (serve storage {| req_route := POST_invoke name; req_authorization := Some ("Bearer " +:+ token); req_body := body; req_file := None |})
    s w o s' w' →
  sent_status (POST_invoke name) o = 200 ∨ sent_status (POST_invoke name) o = 503.
Proof.
  intros Hd Hx. by_wp Hx. unfold serve. cbn [req_route guards_of req_authorization].
  eapply guards_pass; [exact Hd|done|]. intros granted s1 w1. unfold handle. cbn [req_route with_user Auth.userId req_body].
  apply wp_bind. eapply wp_mono; [by eapply invoke_status|]. intros [r|x] s2 w2; cbn [wp sent_status].
  - intros ->. by left.
  - intros [m ->]. by right.
Qed.

(** The answer of the platform at [base] to a request: 404 for a path it does not
    know, 400 for a body that does not parse, and else what serving it gives, from
    whatever state the platform is in. *)
Definition answered (rt : option route) (body : payload) (headers : list (string * string)) (status : Z) : Prop :=
  match rt with
  | None => status = 404
  | Some rt =>
      match request_of rt body headers with
      | None => status = 400
      | Some rq => ∃ s w o s' w', exec env R (serve storage rq) s w o s' w' ∧ status = sent_status rt o
      end
  end.

(** The virtual user's requests reach that platform; the responses are recorded. *)
Definition platform_env (base : string) : Env k6_eff (list (Prog.entry k6_eff)) :=
  λ X e tr r tr', tr' = tr ++ [Entry e r] ∧
    match e in k6_eff Y return Y → Prop with
    | HttpPost url body headers => λ r, answered (post_route (slice_from (String.length base) url)) body headers (res_status r)
    | HttpGet url headers => λ r, answered (get_route (slice_from (String.length base) url)) (Text "") headers (res_status r)
    | _ => λ _, True
    end r.
End server.

(** ** Properties *)

Section properties.
Context `{JC : JsonCodec} (base : string) (R : unit → unit → Prop).

(** The calls of the set-up before it waits. *)
Definition deployment (now : Z) (registered login created upload : http_response) (auth : list (string * string)) : list (Prog.entry k6_eff) :=
  let email := "loadtest-" +:+ string_of_Z now +:+ "@example.com" in
  [Entry K6Now now;
   Entry (HttpPost (base +:+ "/auth/register") (credentials email password) json_headers) registered;
   Entry (HttpPost (base +:+ "/auth/login") (credentials email password) json_headers) login;
   Entry (HttpPost (base +:+ "/functions") (Text (JSON_stringify (JObj [("name", JStr "loadtest-fn"); ("timeoutMs", JNum 3000)]))) (auth ++ json_headers)) created;
   Entry (HttpPost (base +:+ "/functions/loadtest-fn/versions") (FormFile "source" load_source "handler.js" "text/javascript") auth) upload].

(** The set-up of the load test: it hands the virtual users a token only after
    it deployed the function with it and saw its build succeed; it asks for the
    build's status at most 40 times, half a second apart, and stops at the first
    [SUCCESS] or [FAILED]; otherwise it throws, and then a response was no JSON, or
    the build had failed, or it was still unfinished after the 40 rounds. *)
Theorem setup_correct s o s' tr :
  exec (history_env k6_eff) R (setup base) s [] o s' tr →
  match o with
  | Ok auth => ∃ now registered login token created upload buildId before last,
      res_select ["accessToken"] login = Ok token ∧ auth = bearer token ∧ res_select ["buildId"] upload = Ok buildId ∧
      tr = deployment now registered login created upload auth ++ polls (build_url base "loadtest-fn" buildId) auth (before ++ [last]) ∧
      (length before < 40)%nat ∧ Forall unfinished before ∧ res_select ["status"] last = Ok (Some (JStr "SUCCESS"))
  | Err x =>
      (x = not_json ∧ ∃ pre X (e : k6_eff X) r, tr = pre ++ [Entry e r]) ∨
      ∃ now registered login created upload auth url before last status,
        tr = deployment now registered login created upload auth ++ polls url auth (before ++ [last]) ∧
        Forall unfinished before ∧ res_select ["status"] last = Ok status ∧ json_is_str "SUCCESS" status = false ∧
        (json_is_str "FAILED" status = true ∨ length (before ++ [last]) = 40%nat) ∧
        x = JsError ("Setup failed: build did not succeed (status: " +:+ js_text_of status +:+ ")")
  end.
Proof.
  intros Hx. by_wp Hx. unfold setup, k6, ask. cbn [mbind prog_mbind bind wp].
  intros now ? s1 -> _ registered ? s2 -> _ login ? s3 -> _.
  destruct (res_select ["accessToken"] login) as [token|x] eqn:Htok; cbn [of_outcome mbind prog_mbind bind wp].
  2: { left. unfold res_select in Htok. destruct (res_json login); [done|]. injection Htok as <-. split; [done|]. by eexists _, _, _, _. }
  intros created ? s4 -> _ upload ? s5 -> _.
  destruct (res_select ["buildId"] upload) as [buildId|x] eqn:Hb; cbn [of_outcome mbind prog_mbind bind wp].
  2: { left. unfold res_select in Hb. destruct (res_json upload); [done|]. injection Hb as <-. split; [done|]. by eexists _, _, _, _. }
  cbn [app mbind prog_mbind bind]. apply wp_bind, await_build_spec. intros rs o1 s6 [(-> & [?|?] & _)|(_ & before & last & -> & Hlen & Hun & -> & Hlast)]; [done..|].
  rewrite length_app in Hlen, Hlast. simpl in Hlen, Hlast.
  destruct (res_select ["status"] last) as [status|x] eqn:Hst.
  - destruct (json_is_str "SUCCESS" status) eqn:Hs; cbn [wp].
    + destruct status as [[]|]; try done. simpl in Hs. apply bool_decide_eq_true in Hs as ->.
      exists now, registered, login, token, created, upload, buildId, before, last. split_and!; [done..|lia|done|done].
    + right. exists now, registered, login, created, upload, (bearer token), (build_url base "loadtest-fn" buildId), before, last, status.
      split_and!; [done|done|done|done| |done]. destruct (json_is_str "FAILED" status) eqn:Hf; [by left|right].
      rewrite length_app. apply Hlast. exists status. split; [done|]. unfold is_done. by rewrite Hs, Hf.
  - left. unfold res_select in Hst. destruct (res_json last); [done|]. injection Hst as <-. split; [done|].
    rewrite polls_snoc, app_assoc. by eexists _, _, _, _.
Qed.

(** C38: an iteration of the load test against the platform, with the token of a
    user who may invoke and whose function is deployed, the database and the
    registry answering: the request is routed, passes both guards and is served by
    the invoke route, and whatever the workers, the stream and the function do,
    the check passes, and the request is counted exactly once: as a success with
    its latency, or as a backpressure rejection. *)
Theorem iterate_correct `{SHA : Sha256} `{EV : EmailValidator} storage {W} (env : Env ev W) (R2 : dstate → dstate → Prop) token userId f v s o s' tr :
  deployed env token userId "loadtest-fn" f v →
  exec (platform_env storage env R2 base) R (iterate base (bearer (Some (JStr token)))) s [] o s' tr →
  o = Ok tt ∧ ∃ r,
    tr = [Entry (HttpPost (base +:+ "/functions/loadtest-fn/invoke") (Text (JSON_stringify (JObj [])))
            [("Authorization", "Bearer " +:+ token); ("Content-Type", "application/json")]) r] ++
      (if res_status r =? 200 then [Entry (CounterAdd "invoke_success") tt; Entry (TrendAdd "invoke_success_duration_ms" (res_duration r)) tt]
       else [Entry (CounterAdd "invoke_503_backpressure") tt]) ++
      [Entry (K6Check "status is 200 or 503 - never a 5xx surprise" true) tt] ∧
    (res_status r = 200 ∨ res_status r = 503).
Proof.
  intros Hd Hx. by_wp Hx. unfold iterate, k6, ask. cbn [mbind prog_mbind bind wp].
  intros r ? s1 [-> Hans] _. cbn [app]. rewrite slice_from_app in Hans. unfold answered, request_of in Hans. simpl in Hans.
  rewrite JSON_parse_stringify in Hans by done. simpl in Hans. destruct Hans as (s0 & w & oo & s2 & w2 & Hsrv & Hst).
  assert (res_status r = 200 ∨ res_status r = 503) as Hr by (rewrite Hst; by eapply serve_status).
  destruct Hr as [Hr|Hr]; rewrite Hr; cbn [Z.eqb Pos.eqb bind wp mbind prog_mbind].
  - intros [] ? s3 [-> _] _ [] ? s4 [-> _] _ [] ? s5 [-> _] _. split; [done|]. exists r. rewrite Hr. by split; [|left].
  - intros [] ? s3 [-> _] _ [] ? s4 [-> _] _. split; [done|]. exists r. rewrite Hr. by split; [|right].
Qed.
End properties.

(** ** Concrete runs *)

#[local] Existing Instance json_codec.
#[local] Existing Instance ApiDemo.demo_email.
#[local] Existing Instance AuthDemo.demo_sha.

Module LoadTestDemo.
Definition base : string := BASE_URL None.
(** A platform whose build takes two rounds. *)
Definition answer : ∀ X, k6_eff X → list (Prog.entry k6_eff) → X :=
  λ X e tr, match e in k6_eff Y return Y with
            | K6Now => 7
            | HttpPost _ _ _ =>
                {| res_status := 201; res_json := Some (JObj [("accessToken", JStr "t"); ("buildId", JStr "b1"); ("result", JObj [("message", JStr "smoke test ok")])]);
                   res_duration := 12 # 1 |}
            | HttpGet _ _ =>
                {| res_status := 200; res_json := Some (JObj [("status", JStr (if (length tr <? 8)%nat then "PENDING" else "SUCCESS"))]); res_duration := 3 # 1 |}
            | K6Sleep _ | K6Check _ _ | CounterAdd _ | TrendAdd _ _ => tt
            end.

Definition f : FunctionRecord :=
  {| fn_id := "f1"; fn_userId := "u1"; fn_name := "loadtest-fn"; fn_memoryMb := 128; fn_timeoutMs := 3000; fn_createdAt := 0 |}.
Definition v : FunctionVersion :=
  {| ver_id := "v1"; ver_functionId := "f1"; ver_versionNumber := 1; ver_imageTag := "mini-cloud-fn-loadtest:1"; ver_createdAt := 0 |}.
(** A server without workers. It accepts the token "t". *)
Definition server : ∀ X, ev X → list entry → X :=
  λ X e _, match e in ev X return X with
           | Db e' => match e' in db_eff X return outcome X with
                      | FunctionFindUnique _ _ => Ok (Some f)
                      | VersionFindLatest _ => Ok (Some v)
                      | _ => down
                      end
           | Redis e' => match e' in redis_eff X return outcome X with Hgetall _ => Ok [] | _ => down end
           | Lib e' => match e' in lib_eff X return outcome X with
                       | JwtVerify token => if bool_decide (token = "t") then Ok {| jwt_sub := "u1"; jwt_scopes := ALL_SCOPES |} else down
                       | _ => down
                       end
           | e => quiet _ e (mem_of empty_tables)
           end.
Lemma server_deployed : deployed (env_of (scripted server)) "t" "u1" "loadtest-fn" f v.
Proof.
  split; [done|]. split_and!; intros w r w' [= <- _]; [|done..|by exists []]. exists ALL_SCOPES. split; [done|]. unfold ALL_SCOPES. set_solver.
Qed.
Definition the_request : request :=
  {| req_route := POST_invoke "loadtest-fn"; req_authorization := Some "Bearer t"; req_body := Some (JObj []); req_file := None |}.
Definition no_capacity : exn := ServiceUnavailableException ("No worker has spare capacity to run " +:+ dq +:+ "loadtest-fn" +:+ dq +:+ " right now").
Lemma server_rejects : ∃ s' w', exec (env_of (scripted server)) still (serve BuildDemo.storage the_request) dstate0 [] (Err no_capacity) s' w'.
Proof. eexists _, _. apply run_exec; [done|]. vm_compute. reflexivity. Qed.
(** The same request without a valid token is answered 401. *)
Example forged_token_refused :
  option_map (λ r, sent_status (POST_invoke "loadtest-fn") r.1.1)
    (run (scripted server) (serve BuildDemo.storage
      {| req_route := POST_invoke "loadtest-fn"; req_authorization := Some "Bearer undefined"; req_body := Some (JObj []); req_file := None |}) dstate0 []) =
  Some 401.
Proof. vm_compute. reflexivity. Qed.
Definition rejected : http_response := {| res_status := 503; res_json := None; res_duration := 5 # 1 |}.
End LoadTestDemo.

Lemma setup_correct_witness :
  ∃ s' tr, exec (history_env k6_eff) still (setup LoadTestDemo.base) tt [] (Ok (bearer (Some (JStr "t")))) s' tr ∧
    length tr = 9%nat ∧ ∃ last, res_select ["status"] last = Ok (Some (JStr "SUCCESS")).
Proof.
  assert (∃ s' tr, exec (history_env k6_eff) still (setup LoadTestDemo.base) tt [] (Ok (bearer (Some (JStr "t")))) s' tr ∧ length tr = 9%nat)
    as (s' & tr & Hx & Hlen).
  { eexists _, _. split; [scripted_by LoadTestDemo.answer|reflexivity]. }
  exists s', tr. split; [exact Hx|].
  destruct (setup_correct LoadTestDemo.base still tt (Ok (bearer (Some (JStr "t")))) s' tr Hx)
    as (now & r1 & r2 & tok & r3 & r4 & b & before & last & _ & _ & _ & _ & _ & _ & Hlast).
  split; [exact Hlen|]. by exists last.
Defined.

Lemma iterate_correct_witness :
  ∃ s' tr, exec (platform_env BuildDemo.storage (env_of (scripted LoadTestDemo.server)) still LoadTestDemo.base) still
      (iterate LoadTestDemo.base (bearer (Some (JStr "t")))) tt [] (Ok tt) s' tr ∧
    ∃ r, head tr = Some (Entry (HttpPost "http://localhost:3000/functions/loadtest-fn/invoke" (Text "{}")
        [("Authorization", "Bearer t"); ("Content-Type", "application/json")]) r) ∧
      (res_status r = 200 ∨ res_status r = 503).
Proof.
  assert (∃ s' tr, exec (platform_env BuildDemo.storage (env_of (scripted LoadTestDemo.server)) still LoadTestDemo.base) still
      (iterate LoadTestDemo.base (bearer (Some (JStr "t")))) tt [] (Ok tt) s' tr) as (s' & tr & Hx).
  { destruct LoadTestDemo.server_rejects as (s2 & w2 & Hs). eexists tt, _. exists LoadTestDemo.rejected. eexists _, tt.
    split; [split; [reflexivity|]|split; [done|]].
    - by exists dstate0, [], (Err LoadTestDemo.no_capacity), s2, w2.
    - exists tt. eexists _, tt. split; [split; [reflexivity|done]|split; [done|]].
      exists tt. eexists _, tt. split; [split; [reflexivity|done]|split; [done|]]. split_and!; reflexivity. }
  exists s', tr. split; [exact Hx|].
  destruct (iterate_correct LoadTestDemo.base still BuildDemo.storage (env_of (scripted LoadTestDemo.server)) still "t" "u1" LoadTestDemo.f LoadTestDemo.v
    tt (Ok tt) s' tr LoadTestDemo.server_deployed Hx) as (_ & r & -> & Hr).
  exists r. split; [reflexivity|exact Hr].
Defined.

(** The checks a history made. *)
Definition checks_of (tr : list (Prog.entry k6_eff)) : list (string * bool) :=
  omap (λ en : Prog.entry k6_eff, match entry_call en with K6Check name passed => Some (name, passed) | _ => None end) tr.

(** The smoke test against those answers: its seven checks, of which the two that
    expect 200 fail. *)
Example smoke_checks :
  option_map (λ r, checks_of r.2) (run (scripted LoadTestDemo.answer) (smoke LoadTestDemo.base) tt []) =
  Some [("register: 201", true); ("login: 200", false); ("create function: 201", true); ("upload version: 201", true);
        ("build succeeded", true); ("invoke: 200", false); ("invoke: correct result", true)].
Proof. vm_compute. reflexivity. Qed.
