(* ===== verification/Tenants.v ===== *)
(** * Tenants under concurrency

    The API serves many requests at once, in any number of processes, interleaved
    at each of their calls.  The file proves that no crowd of requests, whatever
    their interleaving, changes a row of an account unless one of them came with
    a credential of that account: an attacker gains nothing from races between
    looking a function up and using it, or between a guard and its handler. *)

From S2P Require Import Prelude Json JsonText Prog Interleave Services Percentile Database Schema Auth Registry Dispatch Functions Storage Build Metrics Api.
#[local] Open Scope Z_scope.

(** ** Identifiers are not reused *)

(** [env] with the identifiers that were ever in use: a new row's is none of them
    (identifiers are uuids). *)
Definition remembering {W} (env : Env ev W) (view : W → tables) : Env ev (W * list string) :=
  λ X e w r w', env X e w.1 r w'.1 ∧
    (∀ id, id ∈ ids_of (view w'.1) → id ∈ ids_of (view w.1) ∨ id ∉ w.2) ∧
    w'.2 = w.2 ++ ids_of (view w'.1).

(** What a call does to the functions and keys that exist. *)
Definition functions_kept (t t' : tables) : Prop :=
  ∀ f, f ∈ t_functions t' → f ∈ t_functions t ∨ fn_id f ∉ ids_of t.
Definition keys_kept (t t' : tables) : Prop :=
  ∀ k, k ∈ t_keys t' → (∃ k', k' ∈ t_keys t ∧ key_id k' = key_id k ∧ key_userId k' = key_userId k) ∨ key_id k ∉ ids_of t.

Lemma functions_kept_same t t' : t_functions t' = t_functions t → functions_kept t t'.
Proof. intros H f Hf. left. by rewrite <- H. Qed.
Lemma keys_kept_same t t' : t_keys t' = t_keys t → keys_kept t t'.
Proof. intros H k Hk. left. exists k. by rewrite <- H. Qed.

Lemma functions_kept_snoc t t' f :
  t_functions t' = t_functions t ++ [f] → fn_id f ∉ ids_of t → functions_kept t t'.
Proof. intros H Hf g Hg. rewrite H in Hg. apply elem_of_app in Hg as [Hg|Hg%list_elem_of_singleton]; [by left|subst; by right]. Qed.
Lemma functions_kept_filter t t' P : t_functions t' = List.filter P (t_functions t) → functions_kept t t'.
Proof. intros H f Hf. rewrite H in Hf. apply elem_of_filterb in Hf as [Hf _]. by left. Qed.
Lemma keys_kept_snoc t t' k : t_keys t' = t_keys t ++ [k] → key_id k ∉ ids_of t → keys_kept t t'.
Proof. intros H Hk g Hg. rewrite H in Hg. apply elem_of_app in Hg as [Hg|Hg%list_elem_of_singleton]; [left; eauto|subst; by right]. Qed.
Lemma keys_kept_update t t' P f :
  t_keys t' = update_where P f (t_keys t) → (∀ k, key_id (f k) = key_id k ∧ key_userId (f k) = key_userId k) → keys_kept t t'.
Proof.
  intros H Hf k Hk. rewrite H in Hk. apply elem_of_update_where in Hk as (k0 & Hk0 & ->). left. exists k0.
  split; [done|]. destruct (P k0); [|done]. by destruct (Hf k0).
Qed.

Lemma harmless_kept u {X} (e : db_eff X) t r t' :
  harmless u t e → db_spec e t r t' → functions_kept t t' ∧ keys_kept t t'.
Proof.
  intros Ha Hs. destruct (reads e) eqn:Hrd.
  { rewrite (reads_same e t r t' Hrd Hs). by split; [apply functions_kept_same|apply keys_kept_same]. }
  destruct Hs as [(draw & now & Hd & Hr)|(x & _ & _ & ->)]; [|by split; [apply functions_kept_same|apply keys_kept_same]].
  pose proof (Hd t) as Hf.
  destruct e; try discriminate Hrd; try discriminate Ha; simpl in Hr; repeat case_match; simplify_eq; split;
    first [ by apply functions_kept_same | by apply keys_kept_same
          | by eapply functions_kept_snoc | by eapply keys_kept_snoc
          | by eapply functions_kept_filter
          | by eapply keys_kept_update ].
Qed.

(** ** The relation every step of the API satisfies *)

Section concurrency.
Context `{JC : JsonCodec} `{SHA : Sha256} `{EV : EmailValidator} (storage : ObjectStorage).
Context {W : Type} (env : Env ev W) (view : W → tables) `{DBE : !DbEnv env view} `{LIB : !LibEnv env}.
Context (u : string) (rows : tables).

(** The tables are well-formed, know [u] and every identifier in use is
    remembered; [u]'s rows are [rows]. *)
Definition settled_world (w : W * list string) : Prop :=
  schema_ok (view w.1) ∧ u ∈ map user_id (t_users (view w.1)) ∧ tenant u (view w.1) = rows ∧
  ∀ id, id ∈ ids_of (view w.1) → id ∈ w.2.

(** A step leaves [u]'s rows alone, and every function and key whose identifier
    was in use before belongs to whom it belonged. *)
Definition unharmed (a b : W * list string) : Prop :=
  settled_world a → settled_world b ∧ (∀ id, id ∈ a.2 → id ∈ b.2) ∧
    (∀ f, f ∈ t_functions (view b.1) → fn_id f ∈ a.2 → f ∈ t_functions (view a.1)) ∧
    (∀ k, k ∈ t_keys (view b.1) → key_id k ∈ a.2 → ∃ k', k' ∈ t_keys (view a.1) ∧ key_id k' = key_id k ∧ key_userId k' = key_userId k).

#[export] Instance unharmed_preorder : PreOrder unharmed.
Proof.
  split.
  - intros a Ha. split_and!; eauto.
  - intros a b c Hab Hbc Ha. destruct (Hab Ha) as (Hb & Hu1 & Hf1 & Hk1). destruct (Hbc Hb) as (Hc & Hu2 & Hf2 & Hk2).
    split_and!; [done|eauto|eauto|]. intros k Hk Hid. destruct (Hk2 k Hk) as (k1 & Hk1' & He1 & Ho1); [eauto|].
    destruct (Hk1 k1 Hk1') as (k0 & Hk0 & He0 & Ho0); [by rewrite He1|]. exists k0. split; [done|]. split; congruence.
Qed.

Lemma unharmed_settled a b : unharmed a b → settled_world a → settled_world b.
Proof. intros H Ha. by destruct (H Ha). Qed.

(** The stable facts: a function, or a key, that is not [u]'s if it still exists. *)
Definition foreign_function (fid : string) (w : W * list string) : Prop :=
  fid ∈ w.2 ∧ ∀ f, f ∈ t_functions (view w.1) → fn_id f = fid → fn_userId f ≠ u.
Definition foreign_key (kid : string) (w : W * list string) : Prop :=
  kid ∈ w.2 ∧ ∀ k, k ∈ t_keys (view w.1) → key_id k = kid → key_userId k ≠ u.

Lemma foreign_function_later fid a b : settled_world a → unharmed a b → foreign_function fid a → foreign_function fid b.
Proof. intros Ha Hab [Hid Hf]. destruct (Hab Ha) as (_ & Hu & Hk & _). split; [auto|]. intros f Hf' <-. apply Hf; [|done]. by apply Hk. Qed.
Lemma foreign_key_later kid a b : settled_world a → unharmed a b → foreign_key kid a → foreign_key kid b.
Proof.
  intros Ha Hab [Hid Hf]. destruct (Hab Ha) as (_ & Hu & _ & Hk). split; [auto|]. intros k Hk' <-.
  destruct (Hk k Hk' Hid) as (k0 & Hk0 & He & <-). by apply Hf.
Qed.

(** A call that is none on [u]'s rows is such a step, and a call to another
    service too. *)
Lemma harmless_unharmed {X} (e : db_eff X) a r b :
  (settled_world a → harmless u (view a.1) e) → remembering env view _ (Db e) a r b → unharmed a b.
Proof.
  intros Hh (He & Hnew & Hseen) Ha. specialize (Hh Ha). apply db_env in He. destruct Ha as (Hok & Hu & Ht & Hin).
  destruct (harmless_kept u e _ _ _ Hh He) as [Hf Hk].
  assert (∀ id, id ∈ ids_of (view b.1) → id ∈ a.2 → id ∈ ids_of (view a.1)) as Hold.
  { intros id Hb Hs. by destruct (Hnew id Hb). }
  split_and!.
  - split_and!; [by eapply db_spec_schema_ok|by eapply user_ids_kept| |].
    + rewrite <- Ht. by eapply harmless_tenant.
    + intros id Hid. rewrite Hseen. apply elem_of_app. by right.
  - intros id Hid. rewrite Hseen. apply elem_of_app. by left.
  - intros f Hfb Hs. destruct (Hf f Hfb) as [?|Hno]; [done|]. destruct Hno. apply Hold; [|done].
    unfold ids_of. rewrite !elem_of_app. do 2 right. left. by apply list_elem_of_fmap_2.
  - intros k Hkb Hs. destruct (Hk k Hkb) as [?|Hno]; [done|]. destruct Hno. apply Hold; [|done].
    unfold ids_of. rewrite !elem_of_app. right. left. by apply list_elem_of_fmap_2.
Qed.

Lemma other_unharmed {X} (e : ev X) a r b : not_db _ e → remembering env view _ e a r b → unharmed a b.
Proof.
  intros Hn (He & _ & Hseen) (Hok & Hu & Ht & Hin). apply db_env in He.
  assert (view b.1 = view a.1) as Hv by (by destruct e).
  unfold settled_world. rewrite Hv. split_and!; [done..| | | |].
  - intros id Hid. rewrite Hseen. apply elem_of_app. left. auto.
  - intros id Hid. rewrite Hseen. apply elem_of_app. by left.
  - done.
  - intros k Hk _. eauto.
Qed.

(** ** Each request, alone among the others *)

Notation safe_here := (safe (remembering env view) settled_world unharmed).

Lemma static_harmless p X (e : db_eff X) t : p ≠ u → static p _ (Db e) → harmless u t e.
Proof. intros Hp. destruct e; simpl; naive_solver. Qed.

Lemma static_safe p {A} (q : prog ev dstate A) w :
  p ≠ u → only (static p) q → safe_here q w (λ _ _, True).
Proof.
  intros Hp Hq. apply (safe_only _ _ _ (static p) (λ _, True) q w); [done| |done..].
  intros X e w0 r w1 He _ _ Hr. destruct e as [X e|X e|X e|X e|X e|X e|X e]; try (by eapply other_unharmed; [|exact Hr]).
  eapply harmless_unharmed; [|exact Hr]. intros _. by eapply static_harmless.
Qed.

(** Reading one row: what was found was there. *)
Lemma find_function_foreign p name f w :
  p ≠ u → settled_world w → find_function p name (view w.1) = Some f → foreign_function (fn_id f) w.
Proof.
  intros Hp (Hok & _ & _ & Hin) (Hf & Ho & _)%find_function_Some. split.
  - apply Hin. unfold ids_of. rewrite !elem_of_app. do 2 right. left. by apply list_elem_of_fmap_2.
  - intros g Hg Hid. assert (g = f) as -> by (eapply (NoDup_map_inj fn_id); [apply Hok|done..]). congruence.
Qed.

Lemma key_foreign k w : settled_world w → k ∈ t_keys (view w.1) → key_userId k ≠ u → foreign_key (key_id k) w.
Proof.
  intros (Hok & _ & _ & Hin) Hk Ho. split.
  - apply Hin. unfold ids_of. rewrite !elem_of_app. right. left. by apply list_elem_of_fmap_2.
  - intros g Hg Hid. assert (g = k) as -> by (eapply (NoDup_map_inj key_id); [apply Hok|done..]). done.
Qed.

(** A read answers from the tables, which it leaves alone. *)
Lemma read_step {X} (e : db_eff X) a r b :
  reads e = true → remembering env view _ (Db e) a r b →
  unharmed a b ∧ view b.1 = view a.1 ∧ (∀ x, r = Ok x → ∃ draw now, (db_ref draw now e (view a.1)).1 = Ok x).
Proof.
  intros Hrd Hr. split; [eapply harmless_unharmed; [|exact Hr]|].
  { intros _. destruct e; done. }
  destruct Hr as [He _]. apply db_env in He. split; [by eapply reads_same|].
  intros x ->. destruct He as [(draw & now & _ & Hx)|(y & _ & ? & _)]; [|done]. exists draw, now. by rewrite Hx.
Qed.

Lemma on_function_safe fid {A} (q : prog ev dstate A) w :
  only (on_function fid) q → settled_world w → foreign_function fid w → safe_here q w (λ _ _, True).
Proof.
  intros Hq Hw Hf. apply (safe_only _ _ _ (on_function fid) (λ w, settled_world w ∧ foreign_function fid w) q w); [| |done..].
  - intros a b Hab [Ha Hfa]. split; [by eapply unharmed_settled|by eapply foreign_function_later].
  - intros X e w0 r w1 He [_ [_ Hf0]] _ Hr. destruct e as [X e|X e|X e|X e|X e|X e|X e]; try (by eapply other_unharmed; [|exact Hr]).
    eapply harmless_unharmed; [|exact Hr]. intros _. destruct e; simpl in *; try done; destruct_and?; subst;
      intros g [Hg Hid]%find_bd_Some; by apply Hf0.
Qed.

Lemma revoke_safe p kid w : p ≠ u → safe_here (AuthService.revokeApiKey (S := dstate) p kid) w (λ _ _, True).
Proof.
  intros Hp. unfold AuthService.revokeApiKey. cbn [db call mbind prog_mbind bind safe]. intros w0 r w1 Hw0 HJ0 Hr.
  pose proof (read_step (ApiKeyFindById kid) w0 r w1 eq_refl Hr) as (H01 & Hv & Hx). split; [exact H01|].
  destruct r as [[k|]|x]; cbn [of_outcome mbind prog_mbind bind safe]; [|done|done].
  destruct (Hx (Some k) eq_refl) as (draw & now & Hk). simpl in Hk. injection Hk as Hk. apply find_bd_Some in Hk as [Hk Hid].
  case_decide as Ho; cbn [safe]; [done|].
  assert (foreign_key kid w1) as Hkey.
  { eapply foreign_key_later; [exact HJ0|exact H01|]. rewrite <- Hid. apply key_foreign; [done..|].
    destruct (decide (key_userId k = p)); [congruence|done]. }
  cbn [sys ask mbind prog_mbind bind safe]. intros w2 t w3 H12 HJ2 Ht. pose proof (other_unharmed (Sys DateNow) w2 t w3 I Ht) as H23.
  split; [exact H23|]. assert (settled_world w1) as HJ1 by (by eapply unharmed_settled).
  cbn [db call mbind prog_mbind bind safe]. intros w4 r4 w5 H34 HJ4 Hr4. split; [|by destruct r4].
  eapply harmless_unharmed; [|exact Hr4]. intros _ k' [Hk' Hid']%find_bd_Some.
  assert (foreign_key kid w4) as [_ Hno].
  { eapply foreign_key_later; [exact HJ1| |exact Hkey]. by etransitivity; [exact H12|etransitivity; [exact H23|]]. }
  by apply Hno.
Qed.

Lemma disciplined_safe p {A} (q : prog ev dstate A) w :
  p ≠ u → disciplined p q → safe_here q w (λ _ _, True).
Proof.
  intros Hp Hq. induction Hq as [A q Hq|id|A name k Hk|A B q g Hq IH].
  - by apply (static_safe p).
  - by apply revoke_safe.
  - unfold FunctionsService.get. cbn [db call mbind prog_mbind bind safe]. intros w0 r w1 Hw0 HJ0 Hr.
    pose proof (read_step (FunctionFindUnique p name) w0 r w1 eq_refl Hr) as (H01 & Hv & Hx). split; [exact H01|].
    destruct r as [[f|]|x]; cbn [of_outcome mbind prog_mbind bind safe]; [|done|done].
    destruct (Hx (Some f) eq_refl) as (draw & now & Hf). simpl in Hf. injection Hf as Hf.
    apply (on_function_safe (fn_id f)); [apply Hk|by eapply unharmed_settled|].
    eapply foreign_function_later; [exact HJ0|exact H01|]. by eapply find_function_foreign.
  - apply safe_bind. eapply safe_mono; [|exact IH]. by intros [a|x] w'.
Qed.
(** The header proves no credential of [u] in any tables where [u]'s rows are
    [rows]. *)
Definition no_credential (header : option string) : Prop :=
  ∀ p t, schema_ok t → tenant u t = rows → authentic env header p t → userId p ≠ u.

(** The guard touches only the key it authenticated. *)
Lemma validate_safe tok w :
  startsWith API_KEY_PREFIX tok = true → no_credential (Some ("Bearer " +:+ tok)) →
  safe_here (AuthService.validateApiKey (S := dstate) tok) w
    (λ o _, match o with Ok (Some p) => userId p ≠ u | _ => True end).
Proof.
  intros Hmc Hno. unfold AuthService.validateApiKey. cbn [db call mbind prog_mbind bind safe]. intros w0 r w1 Hw0 HJ0 Hr.
  pose proof (read_step (ApiKeyFindByHash _) w0 r w1 eq_refl Hr) as (H01 & Hv & Hx). split; [exact H01|].
  destruct r as [[k|]|x]; cbn [of_outcome mbind prog_mbind bind safe]; [|done|done].
  destruct (key_revokedAt k) eqn:Hrev; cbn [safe]; [done|].
  destruct (Hx (Some k) eq_refl) as (draw & now & Hk). simpl in Hk. injection Hk as Hk.
  assert (key_userId k ≠ u) as Ho.
  { apply (Hno {| userId := key_userId k; scopes := key_scopes k |} (view w0.1)); [apply HJ0..|].
    exists tok. rewrite Hmc. split; [done|]. exists k. done. }
  apply find_bd_Some in Hk as [Hk _].
  assert (foreign_key (key_id k) w1) as Hkey by (eapply foreign_key_later; [exact HJ0|exact H01|by apply key_foreign]).
  assert (settled_world w1) as HJ1 by (by eapply unharmed_settled).
  cbn [sys ask mbind prog_mbind bind safe]. intros w2 t w3 H12 HJ2 Ht. pose proof (other_unharmed (Sys DateNow) w2 t w3 I Ht) as H23.
  split; [exact H23|]. cbn [fire_and_forget mbind prog_mbind bind safe]. intros w4 r4 w5 H34 HJ4 Hr4. split; [|exact Ho].
  eapply harmless_unharmed; [|exact Hr4]. intros _ k' [Hk' Hid']%find_bd_Some.
  assert (foreign_key (key_id k) w4) as [_ Hf].
  { eapply foreign_key_later; [exact HJ1| |exact Hkey]. by etransitivity; [exact H12|etransitivity; [exact H23|]]. }
  by apply Hf.
Qed.

Lemma guard_safe header w :
  no_credential header →
  safe_here (AuthGuard.canActivate (S := dstate) header) w (λ o _, match o with Ok p => userId p ≠ u | Err _ => True end).
Proof.
  intros Hno. unfold AuthGuard.canActivate. destruct header as [header|]; [|done].
  destruct (startsWith "Bearer " header) eqn:Hb; [|done]. apply startsWith_slice in Hb. rewrite Hb in *. set (tok := slice_from _ header) in *. clearbody tok. subst header.
  rewrite (slice_from_app "Bearer "). apply safe_bind. destruct (startsWith "mc_" tok) eqn:Hmc.
  - eapply safe_mono; [|by apply validate_safe]. by intros [[p|]|x] w'.
  - unfold AuthGuard.tryVerifyJwt, AuthService.verifyJwt. apply safe_try. cbn [lib call mbind prog_mbind bind safe].
    intros w0 r w1 _ HJ0 Hr. split; [by eapply other_unharmed; [|exact Hr]|].
    destruct r as [payload|x]; cbn [of_outcome mbind prog_mbind bind safe]; [|done].
    destruct Hr as [Hr _]. apply jwt_verify_ok in Hr.
    apply (Hno {| userId := jwt_sub payload; scopes := jwt_scopes payload |} (view w0.1)); [apply HJ0..|].
    exists tok. change API_KEY_PREFIX with "mc_". rewrite Hmc. split; [done|]. rewrite Hr. by destruct payload.
Qed.

Lemma serve_safe rq w :
  no_credential (req_authorization rq) → safe_here (serve storage rq) w (λ _ _, True).
Proof.
  intros Hno. unfold serve.
  assert (∀ k : AuthenticatedPrincipal → prog ev dstate reply,
    (∀ p w', userId p ≠ u → safe_here (k p) w' (λ _ _, True)) →
    safe_here (p ← AuthGuard.canActivate (req_authorization rq); k p) w (λ _ _, True)) as Hguard.
  { intros k Hk. apply safe_bind. eapply safe_mono; [|by apply guard_safe]. intros [p|x] w' Hp; [by apply Hk|done]. }
  destruct (guards_of (req_route rq)) as [| |required].
  - apply (disciplined_safe (other_than u)); auto using other_than_ne, anonymous_disciplined.
  - apply Hguard. intros p w' Hp. apply (disciplined_safe (userId p)); auto using handle_disciplined.
  - apply Hguard. intros p w' Hp. unfold ScopesGuard.canActivate.
    destruct required as [|sc l]; [|case_match; [done|]]; cbn [mbind prog_mbind bind];
      apply (disciplined_safe (userId p)); auto using handle_disciplined.
Qed.

(** Whether a header proves a credential of [u] depends on [u]'s rows only. *)
Lemma authentic_rows header p t t' :
  schema_ok t' → tenant u t' = tenant u t → userId p = u → authentic env header p t → authentic env header p t'.
Proof.
  intros Hok Ht Hp (tok & -> & Ha). exists tok. split; [done|]. destruct (startsWith API_KEY_PREFIX tok); [|done].
  destruct Ha as (k & Hk & Hr & Ho & Hs). exists k. split_and!; [|done..].
  apply find_bd_Some in Hk as [Hk Hh].
  assert (k ∈ t_keys (tenant u t')) as Hk'.
  { rewrite Ht. apply elem_of_filterb. split; [done|]. apply bool_decide_eq_true. congruence. }
  apply elem_of_filterb in Hk' as [Hk' _]. rewrite <- Hh. by apply find_bd_unique; [apply Hok|].
Qed.
End concurrency.

(** ** The API *)

(** A request that arrives, whose header proves no credential of the account [u]
    in the tables [t]. *)
Inductive outsider `{JC : JsonCodec} `{SHA : Sha256} `{EV : EmailValidator} {W} (env : Env ev W) `{LIB : !LibEnv env}
    (storage : ObjectStorage) (u : string) (t : tables) : prog ev dstate reply → Prop :=
| outsider_request rq :
    (∀ p, authentic env (req_authorization rq) p t → userId p ≠ u) → outsider env storage u t (serve storage rq).

(** C2: tenants are isolated under concurrency: let any number of requests
    arrive at any time and run interleaved at each of their calls, in any number
    of processes.  If none of their headers proves a credential of the account
    [u], then at every moment all rows of [u] — its keys, functions, versions,
    builds and invocations — are what they were at the start; in particular no
    request can obtain a credential of [u] for a later one. *)
Theorem concurrent_tenant_isolation `{JC : JsonCodec} `{SHA : Sha256} `{EV : EmailValidator} storage
    {W} (env : Env ev W) (view : W → tables) `{DBE : !DbEnv env view} `{LIB : !LibEnv env} u w w' used used' requests :
  schema_ok (view w) → u ∈ map user_id (t_users (view w)) → (∀ id, id ∈ ids_of (view w) → id ∈ used) →
  rtc (istep (any_step (remembering env view)) (outsider env storage u (view w))) ([], (w, used)) (requests, (w', used')) →
  tenant u (view w') = tenant u (view w).
Proof.
  intros Hok Hu Hused Hsteps.
  apply (interleaved_safe _ (settled_world view u (tenant u (view w))) (unharmed view u (tenant u (view w)))) in Hsteps as HG.
  - destruct HG as [(_ & _ & Ht & _) _]; [by split_and!|exact Ht].
  - by apply unharmed_settled.
  - intros p w0 [rq Hrq] _ _. apply (serve_safe storage env view (LIB := LIB)). intros pr t Hokt Ht Ha Hp.
    apply (Hrq pr); [|done]. eapply (authentic_rows env (LIB := LIB) u); [done|by symmetry|done|exact Ha].
  - by split_and!.
  - done.
Qed.

(** ** Concrete executions *)

(** An environment that computes, with the identifiers it used, checked at every
    call to be new. *)
Definition remember {W} (view : W → tables) (h : handler ev W) : handler ev (W * list string) :=
  λ X e w, let '(r, w1) := h X e w.1 in (r, (w1, w.2 ++ ids_of (view w1))).
Definition no_reuse {W} (view : W → tables) (w w' : W * list string) : bool :=
  forallb (λ id, bool_decide (id ∈ ids_of (view w.1)) || negb (bool_decide (id ∈ w.2))) (ids_of (view w'.1)).

Lemma remember_remembering {W} (view : W → tables) (h : handler ev W) X (e : ev X) w :
  no_reuse view w (remember view h X e w).2 = true →
  remembering (env_of h) view X e w (remember view h X e w).1 (remember view h X e w).2.
Proof.
  unfold no_reuse, remembering, remember, env_of. destruct (h X e w.1) as [r w1]. simpl. intros Hc. split_and!; [done| |done].
  intros id Hid. rewrite forallb_forall in Hc. specialize (Hc id). rewrite <- list_elem_of_In in Hc. specialize (Hc Hid).
  apply orb_prop in Hc as [Hc%bool_decide_eq_true|Hc]; [by left|right].
  by apply negb_true_iff, bool_decide_eq_false in Hc.
Qed.

#[local] Existing Instance json_codec.
#[local] Existing Instance ApiDemo.demo_email.
#[local] Existing Instance AuthDemo.demo_sha.
#[local] Existing Instance AuthDemo.lib_answer_env.

Module TenantsDemo.
(** Two requests with bob's key: one deletes his function, the other makes a key
    for itself; and one request with no key at all. *)
Definition by_bob (r : route) (body : option json) : request :=
  {| req_route := r; req_authorization := Some "Bearer mc_2"; req_body := body; req_file := None |}.
Definition anonymous : request :=
  {| req_route := GET_functions; req_authorization := None; req_body := None; req_file := None |}.
Definition delete_hello : prog ev dstate reply := serve ApiDemo.unused_storage (by_bob (DELETE_function "hello") None).
Definition make_key : prog ev dstate reply := serve ApiDemo.unused_storage (by_bob POST_api_keys (Some ApiDemo.wanted)).
Definition list_functions : prog ev dstate reply := serve ApiDemo.unused_storage anonymous.
Definition schedule : list (move (prog ev dstate reply)) :=
  [Arrives delete_hello; Arrives make_key; Moves 0; Moves 1; Arrives list_functions; Moves 0; Moves 1; Moves 1; Moves 0;
   Moves 1; Moves 0; Moves 1].
Definition start : mem * list string := (ApiDemo.world, ids_of ApiDemo.tables2).
Lemma bobs_header p : authentic AuthDemo.env (Some "Bearer mc_2") p ApiDemo.tables2 → userId p ≠ "u-alice".
Proof.
  intros (tok & Htok & Ha). change "Bearer mc_2" with ("Bearer " +:+ "mc_2") in Htok. apply (inj Some), (inj (String.append "Bearer ")) in Htok as <-.
  destruct Ha as (k & Hk & _ & -> & _). vm_compute in Hk. by injection Hk as <-.
Qed.
End TenantsDemo.

Lemma concurrent_tenant_isolation_witness :
  ∃ requests w' used', rtc (istep (any_step (remembering AuthDemo.env mem_tables))
        (outsider AuthDemo.env ApiDemo.unused_storage "u-alice" ApiDemo.tables2)) ([], TenantsDemo.start) (requests, (w', used')) ∧
    length (t_keys (mem_tables w')) = 3%nat ∧ t_functions (mem_tables w') = [] ∧
    tenant "u-alice" (mem_tables w') = tenant "u-alice" ApiDemo.tables2.
Proof.
  assert (∀ p, Arrives p ∈ TenantsDemo.schedule → outsider AuthDemo.env ApiDemo.unused_storage "u-alice" ApiDemo.tables2 p) as Hout.
  { intros p Hp. unfold TenantsDemo.schedule in Hp. repeat (apply elem_of_cons in Hp as [Hp|Hp]; [try discriminate Hp; injection Hp as ->|]);
      [| | |by apply not_elem_of_nil in Hp]; apply outsider_request; intros pr Ha;
      first [by eapply TenantsDemo.bobs_header | by destruct Ha as (tok & Htok & _)]. }
  destruct (run_moves (remember mem_tables (mem_env AuthDemo.lib_answer)) (no_reuse mem_tables) dstate0
    TenantsDemo.schedule ([], TenantsDemo.start)) as [[requests [w' used']]|] eqn:Hrun; [|vm_compute in Hrun; discriminate Hrun].
  exists requests, w', used'.
  assert (rtc (istep (any_step (remembering AuthDemo.env mem_tables)) (outsider AuthDemo.env ApiDemo.unused_storage "u-alice" ApiDemo.tables2))
    ([], TenantsDemo.start) (requests, (w', used'))) as Hsteps.
  { eapply run_moves_steps; [|exact Hout|exact Hrun]. intros X e w. apply remember_remembering. }
  split; [exact Hsteps|]. split; [|split].
  - assert (Hl : option_map (λ st, length (t_keys (mem_tables st.2.1))) (run_moves (remember mem_tables (mem_env AuthDemo.lib_answer)) (no_reuse mem_tables) dstate0
      TenantsDemo.schedule ([], TenantsDemo.start)) = Some 3%nat) by (vm_compute; reflexivity).
    rewrite Hrun in Hl. by injection Hl.
  - assert (Hl : option_map (λ st, t_functions (mem_tables st.2.1)) (run_moves (remember mem_tables (mem_env AuthDemo.lib_answer)) (no_reuse mem_tables) dstate0
      TenantsDemo.schedule ([], TenantsDemo.start)) = Some []) by (vm_compute; reflexivity).
    rewrite Hrun in Hl. by injection Hl.
  - apply (concurrent_tenant_isolation (LIB := AuthDemo.lib_answer_env) ApiDemo.unused_storage AuthDemo.env mem_tables "u-alice"
      ApiDemo.world w' (ids_of ApiDemo.tables2) used' requests);
      [apply schema_okb_ok; vm_compute; reflexivity|apply list_elem_of_here|intros id Hid; exact Hid|exact Hsteps].
Defined.
