(* ===== verification/Privacy.v ===== *)
(** * What a tenant can see

    The read routes of the API answer from the rows of their caller's account and
    from nothing else: two databases that agree on those rows, and differ as they
    like on everybody else's, give the same possible replies. *)

From S2P Require Import Prelude Json JsonText Prog Services Percentile Database Schema Auth Registry Dispatch Functions Storage Build Metrics Api.
#[local] Open Scope Z_scope.

(** The database and services that answer anything. *)
Definition tables_env : Env ev tables := λ X e t r t',
  match e in ev X return X → Prop with
  | Db e' => λ r, db_spec e' t r t'
  | _ => λ _, t' = t
  end r.

#[export] Instance tables_env_DbEnv : DbEnv tables_env (λ t, t).
Proof. intros X e t r t' H. by destruct e. Qed.

(** The routes that read the caller's rows. *)
Definition read_route (r : route) : bool :=
  match r with
  | GET_api_keys | GET_functions | GET_function _ | GET_invocations _ | GET_function_metrics _ | GET_build _ _ | GET_versions _ => true
  | _ => false
  end.

(** ** Reading the caller's rows *)

Lemma find_filter {A} (P Q : A → bool) l : (∀ x, P x = true → Q x = true) → List.find P (List.filter Q l) = List.find P l.
Proof.
  intros HPQ. induction l as [|x l IH]; simpl; [done|]. destruct (Q x) eqn:E; simpl; destruct (P x) eqn:EP; try done.
  by rewrite (HPQ x EP) in E.
Qed.

Lemma filter_filter_in {A} (P Q : A → bool) l : (∀ x, P x = true → Q x = true) → List.filter P (List.filter Q l) = List.filter P l.
Proof.
  intros HPQ. induction l as [|x l IH]; simpl; [done|]. destruct (Q x) eqn:E; simpl; destruct (P x) eqn:EP; rewrite ?IH; try done.
  by rewrite (HPQ x EP) in E.
Qed.

Section views.
Context (p : string) (t t2 : tables) (Hok : schema_ok t) (Hok2 : schema_ok t2) (Ht : tenant p t2 = tenant p t).

Lemma own_functions : List.filter (λ f, bool_decide (fn_userId f = p)) (t_functions t2) = List.filter (λ f, bool_decide (fn_userId f = p)) (t_functions t).
Proof. exact (f_equal t_functions Ht). Qed.

Lemma own_keys : List.filter (λ k, bool_decide (key_userId k = p)) (t_keys t2) = List.filter (λ k, bool_decide (key_userId k = p)) (t_keys t).
Proof. exact (f_equal t_keys Ht). Qed.

Lemma own_ids_same : owned_ids p t2 = owned_ids p t.
Proof. unfold owned_ids. by rewrite own_functions. Qed.

Lemma own_function_same name : find_function p name t2 = find_function p name t.
Proof.
  unfold find_function. rewrite <- (find_filter _ (λ f, bool_decide (fn_userId f = p)) (t_functions t2)),
    <- (find_filter _ (λ f, bool_decide (fn_userId f = p)) (t_functions t)), own_functions; [done|..];
    intros f [Hf _]%andb_prop; done.
Qed.

Lemma found_owned name f : find_function p name t = Some f → fn_id f ∈ owned_ids p t.
Proof. intros (Hf & Ho & _)%find_function_Some. apply owned_ids_elem. by exists f. Qed.

(** The rows of one function of [p]. *)
Lemma rows_of_own {A} (c : A → string) (rows : tables → list A) (P : A → bool) fid :
  fid ∈ owned_ids p t → (∀ x, P x = true → c x = fid) →
  List.filter (λ x, bool_decide (c x ∈ owned_ids p t2)) (rows t2) = List.filter (λ x, bool_decide (c x ∈ owned_ids p t)) (rows t) →
  List.filter P (rows t2) = List.filter P (rows t).
Proof.
  intros Hfid HP Hrows.
  rewrite <- (filter_filter_in P (λ x, bool_decide (c x ∈ owned_ids p t2)) (rows t2)),
    <- (filter_filter_in P (λ x, bool_decide (c x ∈ owned_ids p t)) (rows t)), Hrows; [done|..];
    intros x Hx%HP; apply bool_decide_eq_true; rewrite Hx; [done|by rewrite own_ids_same].
Qed.

Lemma own_versions fid : fid ∈ owned_ids p t → versions_of fid t2 = versions_of fid t.
Proof.
  intros Hfid. apply (rows_of_own ver_functionId t_versions _ fid Hfid); [by intros v ?%bool_decide_eq_true|].
  exact (f_equal t_versions Ht).
Qed.

Lemma own_invocations P fid :
  fid ∈ owned_ids p t → (∀ i, P i = true → inv_functionId i = fid) →
  List.filter P (t_invocations t2) = List.filter P (t_invocations t).
Proof. intros Hfid HP. apply (rows_of_own inv_functionId t_invocations _ fid Hfid HP). exact (f_equal t_invocations Ht). Qed.

(** A build of one of [p]'s functions is the same row in both. *)
Lemma own_build bid b :
  find_build bid t = Some b → build_functionId b ∈ owned_ids p t → find_build bid t2 = Some b.
Proof.
  intros [Hb <-]%find_bd_Some Hown. assert (b ∈ t_builds (tenant p t2)) as Hb2.
  { rewrite Ht. apply elem_of_filterb. split; [done|]. by apply bool_decide_eq_true. }
  apply elem_of_filterb in Hb2 as [Hb2 _]. apply find_bd_unique; [apply Hok2|done].
Qed.

Lemma other_build bid b :
  find_build bid t2 = Some b → build_functionId b ∈ owned_ids p t → find_build bid t = Some b.
Proof.
  intros [Hb <-]%find_bd_Some Hown. assert (b ∈ t_builds (tenant p t)) as Hb2.
  { rewrite <- Ht. apply elem_of_filterb. split; [done|]. apply bool_decide_eq_true. by rewrite own_ids_same. }
  apply elem_of_filterb in Hb2 as [Hb2 _]. apply find_bd_unique; [apply Hok|done].
Qed.

(** ** Programs that see the same *)

Definition possible {X} (e : ev X) (t0 : tables) (r : X) : Prop := tables_env X e t0 r t0.

(** Every call reads, and what it may answer on [t] leads to the same rest of the
    program as something it may answer on [t2]. *)
Fixpoint same_view {S A} (q : prog ev S A) : Prop :=
  match q with
  | Ret _ | Throw _ => True
  | St f k => ∀ x, same_view (k x)
  | Wait g k => ∀ x, same_view (k x)
  | Do e k => match e with Db e' => reads e' = true | _ => True end ∧
      ∀ r, possible e t r → same_view (k r) ∧ ∃ r2, possible e t2 r2 ∧ k r2 = k r
  end.

Lemma same_view_exec {S A} (R : S → S → Prop) (q : prog ev S A) s o s' t' :
  same_view q → exec tables_env R q s t o s' t' → exec tables_env R q s t2 o s' t2.
Proof.
  revert s. induction q as [a|x|X f k IH|X e k IH|X g k IH]; intros s; simpl.
  1-2: by intros _ (-> & -> & _).
  1: by intros Hk; apply IH.
  2: by intros Hk (s1 & x & HR & Hg & Hx); exists s1, x; eauto.
  intros [He Hk] (r & t1 & s1 & Hr & Hi & Hx).
  assert (t1 = t) as ->.
  { destruct e as [X e|X e|X e|X e|X e|X e|X e]; try exact Hr. by eapply reads_same. }
  destruct (Hk r Hr) as (Hs & r2 & Hr2 & Hkr). exists r2, t2, s1. split; [exact Hr2|]. split; [exact Hi|].
  rewrite Hkr. by apply IH.
Qed.

(** A query with the same answers in both. *)
Lemma same_answers {S A X} (e : db_eff X) (k : outcome X → prog ev S A) :
  reads e = true → (∀ draw now, (db_ref draw now e t2).1 = (db_ref draw now e t).1) →
  (∀ r, db_spec e t r t → same_view (k r)) → same_view (Do (Db e) k).
Proof.
  intros Hrd He Hk. split; [done|]. intros r Hr. split; [by apply Hk|]. exists r. split; [|done].
  destruct Hr as [(draw & now & Hd & Hr)|(x & Hx & -> & _)]; [left|right; by exists x]. exists draw, now. split; [done|].
  pose proof (He draw now) as Hsame. rewrite Hr in Hsame.
  destruct (db_ref draw now e t2) as [r2 t2'] eqn:Hr2. simpl in Hsame. subst r2. f_equal.
  eapply reads_same; [exact Hrd|]. left. exists draw, now. split; [exact Hd|exact Hr2].
Qed.

Lemma same_view_other {S A X} (e : ev X) (k : X → prog ev S A) :
  not_db _ e → (∀ r, same_view (k r)) → same_view (Do e k).
Proof.
  intros He Hk. split; [by destruct e|]. intros r Hr. split; [auto|]. exists r. split; [|done]. by destruct e.
Qed.

Lemma same_view_bind {S A B} (k : A → prog ev S B) (q : prog ev S A) :
  same_view q → (∀ a, same_view (k a)) → same_view (bind k q).
Proof.
  intros Hq Hk. induction q as [a|x|X f k0 IH|X e k0 IH|X g k0 IH]; simpl in *; [by apply Hk|done|by intros x; apply IH| |by intros x; apply IH].
  destruct Hq as [He Hq]. split; [exact He|]. intros r Hr. destruct (Hq r Hr) as (Hs & r2 & Hr2 & Heq).
  split; [by apply IH|]. exists r2. by rewrite Heq.
Qed.

Lemma same_view_outcome {S A} (o : outcome A) : same_view (S := S) (of_outcome o).
Proof. by destruct o. Qed.

(** A query of [p]'s rows, and what follows it. *)
Lemma same_query {S X} (e : db_eff X) :
  reads e = true → (∀ draw now, (db_ref draw now e t2).1 = (db_ref draw now e t).1) → same_view (S := S) (db e).
Proof. intros Hrd He. apply same_answers; [done..|]. intros r _. apply same_view_outcome. Qed.

(** Looking a function of [p] up. *)
Lemma get_same_view {S A} name (k : FunctionRecord → prog ev S A) :
  (∀ f, fn_id f ∈ owned_ids p t → same_view (k f)) → same_view (f ← FunctionsService.get p name; k f).
Proof.
  intros Hk. unfold FunctionsService.get, db, call, mbind, prog_mbind. cbn [bind].
  apply same_answers; [done|intros; simpl; by rewrite own_function_same|].
  intros r Hr. destruct r as [[f|]|x]; [|done..]. cbn. apply Hk.
  destruct Hr as [(draw & now & _ & Hr)|(y & _ & ? & _)]; [|done]. simpl in Hr. injection Hr as Hr. by eapply found_owned.
Qed.

(** A build asked for by its identifier is seen only if it belongs to the function. *)
Lemma get_build_same_view {S} fid bid : fid ∈ owned_ids p t → same_view (S := S) (BuildService.getBuild fid bid).
Proof.
  intros Hfid. unfold BuildService.getBuild, db, call, mbind, prog_mbind. cbn [bind]. split; [done|]. intros r Hr.
  split; [destruct r as [[b|]|x]; cbn; try done; by case_decide|].
  destruct Hr as [(draw & now & Hd & Hr)|(x & Hx & -> & _)]; [|exists (Err x); split; [right; by exists x|done]].
  simpl in Hr. injection Hr as <-.
  exists (Ok (find_build bid t2)). split; [left; by exists draw, now|]. cbn.
  destruct (find_build bid t) as [b|] eqn:Hb.
  - destruct (decide (build_functionId b = fid)) as [Hf|Hf].
    + by rewrite (own_build bid b Hb ltac:(by rewrite Hf)).
    + rewrite decide_True by done. destruct (find_build bid t2) as [b2|] eqn:Hb2; [|done]. rewrite decide_True; [done|].
      intros Hf2. apply Hf. rewrite (other_build bid b2 Hb2) in Hb; [by injection Hb as <-|by rewrite Hf2].
  - destruct (find_build bid t2) as [b2|] eqn:Hb2; [|done]. rewrite decide_True; [done|].
    intros Hf2. rewrite (other_build bid b2 Hb2) in Hb; [done|by rewrite Hf2].
Qed.
End views.

(** ** The property *)

Section privacy.
Context `{JC : JsonCodec} `{SHA : Sha256} `{EV : EmailValidator} (storage : ObjectStorage).

(** C3: a tenant's reads are private: take two databases that hold the same rows
    of the caller's account, whatever else each of them holds.  Every reply a
    read route may give the caller on the first — keys, functions, invocations,
    metrics, builds, versions, and every error — it may give on the second, so
    the reply says nothing about anybody else's rows. *)
Theorem reads_are_private rq p (R : dstate → dstate → Prop) s t o s' t' t2 :
  read_route (req_route rq) = true →
  schema_ok t → schema_ok t2 → tenant (userId p) t2 = tenant (userId p) t →
  exec tables_env R (handle storage rq (Some p)) s t o s' t' →
  exec tables_env R (handle storage rq (Some p)) s t2 o s' t2.
Proof.
  intros Hroute Hok Hok2 Ht. apply (same_view_exec t t2). unfold handle, with_user.
  destruct (req_route rq) as [| | | |id|?|?|name|name|name|name|name|name|name bid|name| | |]; try discriminate Hroute; clear Hroute.
  - apply same_view_bind; [|done]. apply same_query; [done|]. intros. simpl. by rewrite (own_keys (userId p) t t2).
  - apply same_view_bind; [|done]. apply same_query; [done|]. intros. simpl. by rewrite (own_functions (userId p) t t2).
  - apply (get_same_view (userId p) t t2); [done..|]. by intros f Hf.
  - apply same_view_bind; [|done]. apply (get_same_view (userId p) t t2); [done..|]. intros f Hf.
    apply same_query; [done|]. intros. simpl. rewrite (own_invocations (userId p) t t2 Ht _ (fn_id f)); [done..|].
    by intros i ?%bool_decide_eq_true.
  - apply same_view_bind; [|done]. apply (get_same_view (userId p) t t2); [done..|]. intros f Hf.
    apply same_view_bind; [|by intros [|]].
    apply same_query; [done|]. intros draw now. simpl. unfold metrics_query.
    rewrite (own_invocations (userId p) t t2 Ht _ (fn_id f)); [done..|].
    intros i [Hi _]%andb_prop. by apply bool_decide_eq_true in Hi.
  - apply same_view_bind; [|done]. apply (get_same_view (userId p) t t2); [done..|]. intros f Hf.
    by apply (get_build_same_view (userId p) t t2).
  - apply same_view_bind; [|done]. apply (get_same_view (userId p) t t2); [done..|]. intros f Hf.
    apply same_query; [done|]. intros. simpl. by rewrite (own_versions (userId p) t t2).
Qed.
End privacy.

(** ** A concrete execution *)

#[local] Existing Instance json_codec.
#[local] Existing Instance ApiDemo.demo_email.
#[local] Existing Instance AuthDemo.demo_sha.

Module PrivacyDemo.
(** The database of the functions' demo, and one without bob's function. *)
Definition with_bob : tables := FunctionsDemo.tables1.
Definition without_bob : tables := set_functions [FunctionsDemo.hello] FunctionsDemo.tables1.
Definition alice : AuthenticatedPrincipal := {| userId := "u-alice"; scopes := ALL_SCOPES |}.
Definition list_mine : request := ApiDemo.with_key GET_functions None.
End PrivacyDemo.

Lemma reads_are_private_witness :
  ∃ s' t', exec tables_env still (handle ApiDemo.unused_storage PrivacyDemo.list_mine (Some PrivacyDemo.alice)) dstate0
      PrivacyDemo.with_bob (Ok (RFunctions [FunctionsDemo.hello])) s' t' ∧
    exec tables_env still (handle ApiDemo.unused_storage PrivacyDemo.list_mine (Some PrivacyDemo.alice)) dstate0
      PrivacyDemo.without_bob (Ok (RFunctions [FunctionsDemo.hello])) s' PrivacyDemo.without_bob.
Proof.
  assert (exec tables_env still (handle ApiDemo.unused_storage PrivacyDemo.list_mine (Some PrivacyDemo.alice)) dstate0
    PrivacyDemo.with_bob (Ok (RFunctions [FunctionsDemo.hello])) dstate0 PrivacyDemo.with_bob) as Hx.
  { exists (Ok [FunctionsDemo.hello]), PrivacyDemo.with_bob, dstate0. split; [left; exists fresh_id, 0|split; [reflexivity|]].
    - split; [apply fresh_id_fresh|reflexivity].
    - done. }
  exists dstate0, PrivacyDemo.with_bob. split; [exact Hx|].
  apply (reads_are_private ApiDemo.unused_storage PrivacyDemo.list_mine PrivacyDemo.alice still dstate0 PrivacyDemo.with_bob _ dstate0
    PrivacyDemo.with_bob PrivacyDemo.without_bob); [done|apply schema_okb_ok; vm_compute; reflexivity..|reflexivity|exact Hx].
Defined.
