(* ===== verification/Pipeline.v ===== *)
(** * The build pipeline under concurrency

    Uploads, build consumers, relays, workers and every other request of the API at
    once, in any number of processes, interleaved at each of their calls: a build
    that says [SUCCESS] always has its version.  The transaction of [runBuild]
    writes both; the file proves that nothing any other task does in between, the
    deletion of the function included, can separate them. *)

From S2P Require Import Prelude Json JsonText Prog Interleave Services Percentile Database Schema Auth Registry Dispatch Functions Storage.
From S2P Require Import Build Outbox BuildConsumer Container Worker Metrics Api Tenants.
#[local] Open Scope Z_scope.

(** ** The invariant *)

(** Every successful build has a version of its function with its image. *)
Definition versions_recorded (t : tables) : Prop :=
  ∀ b, b ∈ t_builds t → build_status b = SUCCESS →
    ∃ v, v ∈ t_versions t ∧ ver_functionId v = build_functionId b ∧ build_imageTag b = Some (ver_imageTag v).

(** Builds stay with their functions. *)
Definition builds_kept (t t' : tables) : Prop :=
  ∀ b, b ∈ t_builds t' →
    (∃ b', b' ∈ t_builds t ∧ build_id b' = build_id b ∧ build_functionId b' = build_functionId b) ∨ build_id b ∉ ids_of t.

(** A call that keeps them: it makes no build successful, or it records the version
    of a build's function and the success of that build in one transaction. *)
Definition recording (t : tables) {X} (e : db_eff X) : Prop :=
  match e with
  | BuildCreate _ _ st => st ≠ SUCCESS
  | BuildUpdate _ p => patch_status p ≠ SUCCESS
  | TransactionBatch a b =>
      match a, b with
      | VersionCreate fid _ ref, BuildUpdate bid p =>
          patch_imageTag p = Some ref ∧ ∀ b, find_build bid t = Some b → build_functionId b = fid
      | _, _ => False
      end
  | _ => True
  end.

Lemma recorded_same t t' : t_builds t' = t_builds t → t_versions t' = t_versions t → versions_recorded t → versions_recorded t'.
Proof. unfold versions_recorded. by intros -> ->. Qed.

Lemma recorded_more_versions t t' v :
  t_builds t' = t_builds t → t_versions t' = t_versions t ++ [v] → versions_recorded t → versions_recorded t'.
Proof.
  intros Hb Hv Ht b Hin Hs. rewrite Hb in Hin. destruct (Ht b Hin Hs) as (v' & Hv' & H). exists v'. split; [|done].
  rewrite Hv. apply elem_of_app. by left.
Qed.

Lemma recorded_new_build t t' b :
  t_builds t' = t_builds t ++ [b] → t_versions t' = t_versions t → build_status b ≠ SUCCESS → versions_recorded t → versions_recorded t'.
Proof.
  intros Hb Hv Hn Ht x Hin Hs. rewrite Hb in Hin. apply elem_of_app in Hin as [Hin|Hin%list_elem_of_singleton]; [|by subst].
  rewrite Hv. by apply Ht.
Qed.

Lemma recorded_update t t' P f :
  t_builds t' = update_where P f (t_builds t) → t_versions t' = t_versions t →
  (∀ b, b ∈ t_builds t → P b = true → build_status (f b) = SUCCESS →
     ∃ v, v ∈ t_versions t ∧ ver_functionId v = build_functionId (f b) ∧ build_imageTag (f b) = Some (ver_imageTag v)) →
  versions_recorded t → versions_recorded t'.
Proof.
  intros Hb Hv Hf Ht x Hin Hs. rewrite Hb in Hin. rewrite Hv. apply elem_of_update_where in Hin as (b & Hin & ->).
  destruct (P b) eqn:HP; [by apply Hf|by apply Ht].
Qed.

Lemma recorded_delete fid t : versions_recorded t → versions_recorded (delete_function_cascade fid t).
Proof.
  intros Ht b [Hb Hfid]%elem_of_filterb Hs. destruct (Ht b Hb Hs) as (v & Hv & Hvf & Hi). exists v. split; [|done].
  apply elem_of_filterb. split; [done|]. by rewrite Hvf.
Qed.

Lemma committed_build ws bs b :
  b ∈ commit_writes ws bs → ∃ b0, b0 ∈ bs ∧ build_id b = build_id b0 ∧ build_functionId b = build_functionId b0 ∧
    build_status b = build_status b0 ∧ build_imageTag b = build_imageTag b0.
Proof.
  unfold commit_writes. intros (b0 & -> & Hb0)%list_elem_of_fmap. exists b0. split; [done|].
  by destruct (List.find _ ws).
Qed.

Lemma recorded_commit t t' ws :
  t_builds t' = commit_writes ws (t_builds t) → t_versions t' = t_versions t → versions_recorded t → versions_recorded t'.
Proof.
  intros Hb Hv Ht b Hin Hs. rewrite Hb in Hin. apply committed_build in Hin as (b0 & Hb0 & _ & Hf & Hst & Hi).
  rewrite Hst in Hs. rewrite Hv, Hf, Hi. by apply Ht.
Qed.

Lemma kept_same t t' : t_builds t' = t_builds t → builds_kept t t'.
Proof. intros H b Hb. left. exists b. by rewrite <- H. Qed.
Lemma kept_new t t' b : t_builds t' = t_builds t ++ [b] → build_id b ∉ ids_of t → builds_kept t t'.
Proof.
  intros H Hb x Hx. rewrite H in Hx. apply elem_of_app in Hx as [Hx|Hx%list_elem_of_singleton]; [left; eauto|subst; by right].
Qed.
Lemma kept_update t t' P f :
  t_builds t' = update_where P f (t_builds t) → (∀ b, build_id (f b) = build_id b ∧ build_functionId (f b) = build_functionId b) →
  builds_kept t t'.
Proof.
  intros H Hf x Hx. rewrite H in Hx. apply elem_of_update_where in Hx as (b & Hb & ->). left. exists b.
  split; [done|]. destruct (P b); [|done]. by destruct (Hf b).
Qed.
Lemma kept_commit t t' ws : t_builds t' = commit_writes ws (t_builds t) → builds_kept t t'.
Proof.
  intros H x Hx. rewrite H in Hx. apply committed_build in Hx as (b & Hb & Hi & Hf & _). left. exists b. by rewrite Hi, Hf.
Qed.
Lemma kept_delete fid t : builds_kept t (delete_function_cascade fid t).
Proof. intros b [Hb _]%elem_of_filterb. left. eauto. Qed.

(** The transaction of [runBuild]. *)
Lemma recording_batch draw now fid n ref bid p t r t' :
  NoDup (map build_id (t_builds t)) →
  patch_imageTag p = Some ref → (∀ b, find_build bid t = Some b → build_functionId b = fid) → versions_recorded t →
  db_ref draw now (TransactionBatch (VersionCreate fid n ref) (BuildUpdate bid p)) t = (r, t') →
  versions_recorded t' ∧ builds_kept t t'.
Proof.
  intros Hnd Hp Hfid Ht Hr. simpl in Hr. destruct (find_function_by_id fid t); [|simplify_eq; split; [done|by apply kept_same]].
  destruct (has_version fid n t); [simplify_eq; split; [done|by apply kept_same]|].
  destruct (find_build bid _) as [b0|] eqn:Hb0; simplify_eq; [|split; [done|by apply kept_same]].
  change (find_build bid t = Some b0) in Hb0. split; [|by eapply kept_update].
  set (v := mk_version (draw t) now fid n ref). apply (recorded_update (set_versions (t_versions t ++ [v]) t) _ (λ b, bool_decide (build_id b = bid)) (patch_build p)); [done..| |].
  - intros b Hb Hid%bool_decide_eq_true _. exists v. split; [apply elem_of_app; right; by apply list_elem_of_singleton|].
    apply find_bd_Some in Hb0 as Hin. destruct Hin as [Hin Hid0].
    assert (b = b0) as -> by (eapply (NoDup_map_inj build_id); [done|done|done|congruence]).
    simpl. rewrite Hp. split; [|done]. by rewrite (Hfid b0).
  - by apply (recorded_more_versions t _ v).
Qed.

Lemma recording_kept {X} (e : db_eff X) t r t' :
  NoDup (map build_id (t_builds t)) → recording t e → versions_recorded t → db_spec e t r t' → versions_recorded t' ∧ builds_kept t t'.
Proof.
  intros Hnd He Ht [(draw & now & Hd & Hr)|(x & _ & _ & ->)]; [|split; [done|by apply kept_same]].
  pose proof (Hd t) as Hf.
  destruct e as [| | | | | | | | | | | | | | | | | | | | | | |X Y a b| | | | |].
  24: { destruct a; try done. destruct b; try done. destruct He as [Hp Hfid]. by eapply recording_batch. }
  all: simpl in Hr; repeat case_match; simplify_eq;
    split; first [ exact Ht | by apply (recorded_same t) | by eapply (recorded_more_versions t) | by eapply (recorded_new_build t)
                 | by apply recorded_delete | by eapply (recorded_commit t)
                 | by apply kept_same | by eapply kept_new | by apply kept_delete | by eapply kept_commit
                 | by eapply kept_update
                 | by eapply (recorded_update t); [done|done| |done]; intros ? _ _ Hs; destruct (He Hs) ].
Qed.

(** ** The relation every step of the platform satisfies *)

Section pipeline.
Context `{JC : JsonCodec} `{SHA : Sha256} `{EV : EmailValidator} {TMP : OsTmpdir} (storage : ObjectStorage).
Context {W : Type} (env : Env ev W) (view : W → tables) `{DBE : !DbEnv env view}.

Definition recorded_world (w : W * list string) : Prop :=
  schema_ok (view w.1) ∧ versions_recorded (view w.1) ∧ ∀ id, id ∈ ids_of (view w.1) → id ∈ w.2.

Definition advances (a b : W * list string) : Prop :=
  recorded_world a → recorded_world b ∧ (∀ id, id ∈ a.2 → id ∈ b.2) ∧
    (∀ x, x ∈ t_builds (view b.1) → build_id x ∈ a.2 →
       ∃ y, y ∈ t_builds (view a.1) ∧ build_id y = build_id x ∧ build_functionId y = build_functionId x).

#[export] Instance advances_preorder : PreOrder advances.
Proof.
  split.
  - intros a Ha. split_and!; eauto.
  - intros a b c Hab Hbc Ha. destruct (Hab Ha) as (Hb & Hu1 & Hk1). destruct (Hbc Hb) as (Hc & Hu2 & Hk2).
    split_and!; [done|eauto|]. intros x Hx Hid. destruct (Hk2 x Hx) as (y & Hy & Hi & Hf); [auto|].
    destruct (Hk1 y Hy) as (z & Hz & Hi' & Hf'); [by rewrite Hi|]. exists z. split; [done|]. split; congruence.
Qed.

Lemma advances_recorded a b : advances a b → recorded_world a → recorded_world b.
Proof. intros H Ha. by destruct (H Ha). Qed.

(** The stable fact: a build, if it still exists, belongs to the function. *)
Definition build_of (fid bid : string) (w : W * list string) : Prop :=
  bid ∈ w.2 ∧ ∀ b, b ∈ t_builds (view w.1) → build_id b = bid → build_functionId b = fid.

Lemma build_of_later fid bid a b : recorded_world a → advances a b → build_of fid bid a → build_of fid bid b.
Proof.
  intros Ha Hab [Hid Hf]. destruct (Hab Ha) as (_ & Hu & Hk). split; [auto|]. intros x Hx <-.
  destruct (Hk x Hx Hid) as (y & Hy & Hi & <-). by apply Hf.
Qed.

Lemma recording_advances {X} (e : db_eff X) a r b :
  (recorded_world a → recording (view a.1) e) → remembering env view _ (Db e) a r b → advances a b.
Proof.
  intros Hrec (He & Hnew & Hseen) Ha. specialize (Hrec Ha). apply db_env in He. destruct Ha as (Hok & Ht & Hin).
  destruct (recording_kept e _ _ _ (ok_build_ids _ Hok) Hrec Ht He) as [Ht' Hk]. split_and!.
  - split_and!; [by eapply db_spec_schema_ok|done|]. intros id Hid. rewrite Hseen. apply elem_of_app. by right.
  - intros id Hid. rewrite Hseen. apply elem_of_app. by left.
  - intros x Hx Hid. destruct (Hk x Hx) as [?|Hno]; [done|]. destruct Hno.
    assert (build_id x ∈ ids_of (view b.1)) as Hb.
    { unfold ids_of. rewrite !elem_of_app. do 4 right. left. by apply list_elem_of_fmap_2. }
    by destruct (Hnew _ Hb).
Qed.

Lemma other_advances {X} (e : ev X) a r b : not_db _ e → remembering env view _ e a r b → advances a b.
Proof.
  intros Hn (He & _ & Hseen) (Hok & Ht & Hin). apply db_env in He.
  assert (view b.1 = view a.1) as Hv by (by destruct e).
  unfold recorded_world. rewrite Hv. split_and!; [done..| | |].
  - intros id Hid. rewrite Hseen. apply elem_of_app. left. auto.
  - intros id Hid. rewrite Hseen. apply elem_of_app. by left.
  - eauto.
Qed.

Notation safe_here := (safe (remembering env view) recorded_world advances).

(** ** Programs that make no build successful *)

Definition plain_call X (e : ev X) : Prop :=
  match e with
  | Db e' => match e' with
             | BuildCreate _ _ st => st = PENDING
             | BuildUpdate _ p => patch_status p = FAILED
             | TransactionBatch _ _ => False
             | _ => True
             end
  | _ => True
  end.

Lemma plain_recording X (e : db_eff X) t : plain_call _ (Db e) → recording t e.
Proof. destruct e; simpl; try done; by intros ->. Qed.

Lemma plain_safe {S A} (q : prog ev S A) w : only plain_call q → safe_here q w (λ _ _, True).
Proof.
  intros Hq. apply (safe_only _ _ _ plain_call (λ _, True) q w); [done| |done..].
  intros X e w0 r w1 He _ _ Hr. destruct e as [X e|X e|X e|X e|X e|X e|X e]; try (by eapply other_advances; [|exact Hr]).
  eapply recording_advances; [|exact Hr]. intros _. by apply plain_recording.
Qed.

Lemma serve_plain rq : only plain_call (serve storage rq).
Proof. eapply only_mono; [|apply serve_calls]. intros X e He. destruct e as [X e| | | | | |]; try done. by destruct e. Qed.

Lemma tick_plain {S} : only plain_call (BuildOutboxRelayService.tick (S := S)).
Proof.
  unfold BuildOutboxRelayService.tick, BuildOutboxRelayService.relayOnce, BuildOutboxRelayService.transaction,
    BuildOutboxRelayService.claim, BuildOutboxRelayService.publish, fire_and_forget, logger_error. only_calls.
Qed.

(** *** The consumer *)

Lemma outside_plain {S A} (q : prog ev S A) : only outside_store q → only plain_call q.
Proof. apply only_mono. by intros X []. Qed.

(** A build attempt: its success is recorded with the version, for the function the
    build belongs to, whatever happened to either meanwhile. *)
Lemma runBuild_safe {S} {EX : BuildExecutor S} b w :
  recorded_world w → build_of (build_functionId b) (build_id b) w → safe_here (BuildService.runBuild (S := S) b) w (λ _ _, True).
Proof.
  intros Hw Hb.
  set (fact := λ w, recorded_world w ∧ build_of (build_functionId b) (build_id b) w).
  apply (safe_only _ _ _ (λ X e, plain_call X e ∨ (∀ w, fact w → match e with Db e' => recording (view w.1) e' | _ => True end)) fact _ w).
  - intros a c Hac [Ha Hf]. split; [by eapply advances_recorded|by eapply build_of_later].
  - intros X e w0 r w1 He Hf _ Hr. destruct e as [X e|X e|X e|X e|X e|X e|X e]; try (by eapply other_advances; [|exact Hr]).
    eapply recording_advances; [|exact Hr]. intros _. destruct He as [He|He]; [by apply plain_recording|by apply He].
  - unfold BuildService.runBuild, BuildService.nextVersionNumber, logger_log, logger_warn.
    assert (∀ A (q : prog ev S A), only plain_call q →
      only (λ X e, plain_call X e ∨ (∀ w, fact w → match e with Db e' => recording (view w.1) e' | _ => True end)) q) as Hplain.
    { intros A q. apply only_mono. auto. }
    apply only_try; [|intros x; apply Hplain; only_calls].
    apply only_bind; [apply Hplain; only_calls|]. intros fn.
    apply only_bind; [apply Hplain; only_calls|]. intros n.
    apply only_bind; [apply Hplain, outside_plain, build_calls|]. intros ref.
    apply only_bind; [apply Hplain; only_calls|]. intros now.
    apply only_bind; [|intros _; apply Hplain; only_calls]. split; [right|apply only_outcome].
    intros w1 [_ [_ Hf]]. split; [done|]. intros b' [Hb' Hid]%find_bd_Some. by apply Hf.
  - by split.
Qed.

Notation everywhere := (Interleave.everywhere (remembering env view) recorded_world advances).

Lemma everywhere_plain {S A} (q : prog ev S A) : only plain_call q → everywhere q.
Proof. intros Hq w. by apply plain_safe. Qed.

Context {EX : BuildExecutor consumer}.

Lemma handleMessage_everywhere m fields : everywhere (BuildStreamConsumerService.handleMessage (S := consumer) m fields).
Proof.
  unfold BuildStreamConsumerService.handleMessage. apply everywhere_try; [|intros x; apply everywhere_plain; unfold logger_error; only_calls].
  destruct (field_get fields "buildId") as [id|]; [|done]. intros w. cbn [db call mbind prog_mbind bind safe].
  intros w0 r w1 Hw0 HJ0 Hr. assert (advances w0 w1) as H01 by (eapply recording_advances; [|exact Hr]; done). split; [done|].
  destruct r as [b|x]; cbn [of_outcome mbind prog_mbind bind safe]; [|done].
  assert (build_of (build_functionId b) (build_id b) w0) as Hb.
  { destruct Hr as [He _]. apply db_env in He. destruct He as [(draw & now & _ & He)|(x & _ & ? & _)]; [|done]. simpl in He.
    destruct (find_build id (view w0.1)) as [b0|] eqn:Hf; [|done]. injection He as -> _. apply find_bd_Some in Hf as [Hin _].
    destruct HJ0 as (Hok & _ & Hids). split.
    - apply Hids. unfold ids_of. rewrite !elem_of_app. do 4 right. left. by apply list_elem_of_fmap_2.
    - intros c Hc Hid. assert (c = b) as -> by (eapply (NoDup_map_inj build_id); [apply Hok|done..]). done. }
  apply safe_bind. eapply safe_mono.
  2: { case_bool_decide; [apply everywhere_plain; unfold logger_log; only_calls|].
       apply runBuild_safe; [by eapply advances_recorded|by eapply build_of_later]. }
  intros [[]|x] w2 _; [|done]. apply everywhere_plain. only_calls.
Qed.

Lemma iteration_everywhere name : everywhere (BuildStreamConsumerService.iteration (S := consumer) name).
Proof.
  unfold BuildStreamConsumerService.iteration. apply everywhere_try; [|intros x; apply everywhere_plain; unfold logger_error; only_calls].
  apply everywhere_bind.
  - unfold BuildStreamConsumerService.reclaimAbandonedMessages, env_number.
    apply everywhere_bind; [apply everywhere_plain; only_calls|]. intros idle.
    apply everywhere_bind; [apply everywhere_plain; only_calls|]. intros claimed. apply everywhere_for_each. intros m.
    apply everywhere_bind; [apply everywhere_plain; unfold logger_warn; only_calls|]. intros _. apply handleMessage_everywhere.
  - intros _. unfold BuildStreamConsumerService.readAndProcessOnce. apply everywhere_bind; [apply everywhere_plain; only_calls|].
    intros [[|[k messages] rest]|]; [done| |done]. apply everywhere_for_each. intros m. apply handleMessage_everywhere.
Qed.

Lemma consumer_everywhere name n : everywhere (BuildStreamConsumerService.loop name n).
Proof.
  induction n as [|n IH]; [done|]. cbn [BuildStreamConsumerService.loop].
  apply everywhere_bind; [apply everywhere_plain; only_calls|]. intros [|]; [|apply everywhere_plain; only_calls].
  apply everywhere_bind; [apply iteration_everywhere|]. intros _. apply IH.
Qed.
End pipeline.

(** *** The worker *)

Section worker.
Context `{JC : JsonCodec} {TMP : OsTmpdir}.

Lemma worker_message_plain wid m fields : only plain_call (WorkerService.handleMessage wid m fields).
Proof.
  unfold WorkerService.handleMessage, WorkerService.count_inFlight, logger_log.
  apply only_bind; [by split|]. intros _. apply only_bind; [only_calls|]. intros _. apply only_bind.
  - apply only_finally; [apply only_try; [apply outside_plain, invocation_calls|done]|only_calls].
  - intros out. only_calls.
Qed.

Lemma worker_plain wid n : only plain_call (WorkerService.loop wid n).
Proof.
  induction n as [|n IH]; [done|]. cbn [WorkerService.loop]. apply only_bind; [by split|]. intros [|]; [|by split].
  apply only_bind; [|intros _; apply IH]. unfold WorkerService.iteration. apply only_try; [|intros x; unfold logger_error; only_calls].
  apply only_bind.
  - unfold WorkerService.reclaimFromDeadWorkers, env_number, WorkerRegistryService.listWorkers.
    apply only_bind; [only_calls|]. intros idle. apply only_bind; [only_calls|]. intros [|e entries]; [done|].
    apply only_bind; [only_calls|]. intros workers. apply only_for_each. intros [[[id owner] x] y]. unfold WorkerService.reclaim_entry, logger_warn.
    case_bool_decide; [done|]. case_bool_decide; [done|]. apply only_bind; [only_calls|]. intros _.
    apply only_bind; [only_calls|]. intros claimed. apply only_for_each. intros m0. apply worker_message_plain.
  - intros _. unfold WorkerService.readAndProcessOnce. apply only_bind; [only_calls|]. intros [[|[k messages] rest]|]; [done| |done].
    apply only_for_each. intros m0. apply worker_message_plain.
Qed.
End worker.

(** ** What runs on the platform *)

(** The hooks of the processes, which run when they start and when they stop; those
    of a worker that is up: its start and its heartbeats. *)
Inductive hook `{JC : JsonCodec} {EX : BuildExecutor consumer} (storage : ObjectStorage) : task ev → Prop :=
| starts_storage s : hook storage (Task (S := unit) s (ObjectStorageService.onModuleInit storage))
| starts_consumer s : hook storage (Task s BuildStreamConsumerService.onModuleInit)
| stops_consumer s : hook storage (Task s BuildStreamConsumerService.onModuleDestroy)
| starts_relay s : hook storage (Task s RelayLifecycle.onModuleInit)
| stops_relay s : hook storage (Task s RelayLifecycle.onModuleDestroy)
| stops_worker s wid : hook storage (Task s (WorkerService.onModuleDestroy wid)).
Inductive worker_hook `{JC : JsonCodec} : task ev → Prop :=
| starts_worker s wid : worker_hook (Task s (WorkerService.onModuleInit wid))
| beats s wid : worker_hook (Task s (WorkerService.sendHeartbeat wid)).

(** Requests, build consumers, relays, workers, and the hooks around them. *)
Inductive core_task `{JC : JsonCodec} `{SHA : Sha256} `{EV : EmailValidator} {TMP : OsTmpdir} {EX : BuildExecutor consumer}
    (storage : ObjectStorage) : task ev → Prop :=
| runs_request s rq : core_task storage (Task s (serve storage rq))
| runs_consumer s name n : core_task storage (Task s (BuildStreamConsumerService.loop name n))
| runs_relay (s : relay) : core_task storage (Task s BuildOutboxRelayService.tick)
| runs_worker s wid n : core_task storage (Task s (WorkerService.loop wid n))
| runs_hook t : hook storage t → core_task storage t.
Inductive platform_task `{JC : JsonCodec} `{SHA : Sha256} `{EV : EmailValidator} {TMP : OsTmpdir} {EX : BuildExecutor consumer}
    (storage : ObjectStorage) : task ev → Prop :=
| runs_core t : core_task storage t → platform_task storage t
| runs_worker_hook t : worker_hook t → platform_task storage t.

(** Hooks make no call to the database and acknowledge nothing; all but a worker's
    start and its heartbeats add no message and write no hash field. *)
Definition worker_hook_call X (e : ev X) : Prop := match e with Db _ | Redis (Xack _ _ _) => False | _ => True end.
Definition hook_call X (e : ev X) : Prop :=
  match e with Db _ | Redis (Xack _ _ _) | Redis (Xadd _ _) | Redis (Hset _ _ _) => False | _ => True end.

Lemma hook_calls `{JC : JsonCodec} {EX : BuildExecutor consumer} storage t :
  hook storage t → match t with Task s p => only hook_call p end.
Proof.
  intros []; unfold ObjectStorageService.onModuleInit, BuildStreamConsumerService.onModuleInit, BuildStreamConsumerService.onModuleDestroy,
    BuildStreamConsumerService.ensureConsumerGroup, RelayLifecycle.onModuleInit, RelayLifecycle.onModuleDestroy,
    WorkerService.onModuleDestroy, WorkerRegistryService.deregister; only_calls.
Qed.

Lemma worker_hook_calls `{JC : JsonCodec} t : worker_hook t → match t with Task s p => only worker_hook_call p end.
Proof.
  intros []; unfold WorkerService.onModuleInit, WorkerService.sendHeartbeat, WorkerService.ensureConsumerGroup,
    WorkerRegistryService.heartbeat, ensureEcrLogin, logger_log; only_calls.
  all: eapply only_mono; [|apply await_process_calls]; by intros X [].
Qed.

(** ** The property *)

(** C5: the build pipeline under concurrency: any number of requests (uploads and
    deletions among them), build consumers, relays and workers, and the hooks that
    start and stop their processes, start at any time and run interleaved at each of their calls, in any number of processes, a
    message being delivered as often as Redis likes.  At every moment every build
    that says [SUCCESS] has a version of its own function with its image, and the
    constraints of the schema hold, so no two versions of a function share a
    number. *)
Theorem success_has_version `{JC : JsonCodec} `{SHA : Sha256} `{EV : EmailValidator} {TMP : OsTmpdir} {EX : BuildExecutor consumer} storage
    {W} (env : Env ev W) (view : W → tables) `{DBE : !DbEnv env view} w w' used used' tasks :
  schema_ok (view w) → versions_recorded (view w) → (∀ id, id ∈ ids_of (view w) → id ∈ used) →
  rtc (istep (task_step (remembering env view)) (platform_task storage)) ([], (w, used)) (tasks, (w', used')) →
  versions_recorded (view w') ∧ schema_ok (view w').
Proof.
  intros Hok Ht Hused Hsteps.
  apply (interleaved_tasks _ (recorded_world view) (advances view)) in Hsteps as HG.
  - destruct HG as [(Hok' & Ht' & _) _]; [by split_and!|by split].
  - by apply advances_recorded.
  - intros t w0 Htask _ _. destruct Htask as [t [s rq|s name n|s|s wid n|t' Hk]|t Hk].
    + apply (plain_safe env view), serve_plain.
    + apply (consumer_everywhere env view).
    + apply (plain_safe env view), tick_plain.
    + apply (plain_safe env view), worker_plain.
    + apply hook_calls in Hk. destruct t' as [S A s p]. apply (plain_safe env view). eapply only_mono; [|exact Hk]. by intros X [].
    + apply worker_hook_calls in Hk. destruct t as [S A s p]. apply (plain_safe env view). eapply only_mono; [|exact Hk]. by intros X [].
  - by split_and!.
  - done.
Qed.

(** ** A concrete interleaving *)

#[local] Existing Instance json_codec.
#[local] Existing Instance ApiDemo.demo_email.
#[local] Existing Instance AuthDemo.demo_sha.
#[local] Existing Instance BuildDemo.tmp.

Module PipelineDemo.
Definition executor : BuildExecutor consumer := local_docker_executor BuildDemo.storage.
(** Bob's upload waits in the stream; meanwhile he uploads again. *)
Definition b8 : Build := mk_build "b-8" 30 "f-2" "functions/f-2/s.js" PENDING.
Definition world : mem := mem_of (set_builds [b8] ApiDemo.tables2).
Definition answer : ∀ X, ev X → mem → X :=
  λ X e w, match e in ev X return X with
           | Redis e' => match e' in redis_eff X return outcome X with
                         | Xautoclaim _ _ _ _ _ => Ok ("0-0", [])
                         | Xreadgroup _ _ _ _ _ => Ok (Some [(BUILD_STREAM_KEY, [("1-0", ["buildId"; "b-8"])])])
                         | Xack _ _ _ => Ok 1
                         | _ => down
                         end
           | e => BuildDemo.script _ e
           end.
Definition env := env_of (mem_env answer).
Definition consumer_task : task ev := Task {| running := true; loop_ended := false |} (BuildStreamConsumerService.loop (EX := executor) "c1" 1).
Definition upload : task ev :=
  Task dstate0 (serve BuildDemo.storage {| req_route := POST_versions "hello"; req_authorization := Some "Bearer mc_2"; req_body := None; req_file := Some "code" |}).
Definition schedule (n m : nat) : list (move (task ev)) :=
  [Arrives consumer_task; Arrives upload] ++ concat (repeat [Moves 0; Moves 1] n) ++ repeat (Moves 0) m.
Definition start : mem * list string := (world, ids_of (mem_tables world)).
Definition final (n m : nat) := run_tasks (remember mem_tables (mem_env answer)) (no_reuse mem_tables) (schedule n m) ([], start).
End PipelineDemo.

Lemma schedule_tasks t : Arrives t ∈ PipelineDemo.schedule 7 8 → platform_task (EX := PipelineDemo.executor) BuildDemo.storage t.
Proof.
  intros Ht. unfold PipelineDemo.schedule in Ht. apply elem_of_cons in Ht as [[= ->]|Ht]; [apply runs_core, runs_consumer|].
  apply elem_of_cons in Ht as [[= ->]|Ht]; [apply runs_core, runs_request|]. exfalso. simpl in Ht.
  repeat (apply elem_of_cons in Ht as [Ht|Ht]; [discriminate Ht|]). by apply not_elem_of_nil in Ht.
Qed.

Lemma schedule_runs tasks w : PipelineDemo.final 7 8 = Some (tasks, w) →
  rtc (istep (task_step (remembering PipelineDemo.env mem_tables)) (platform_task (EX := PipelineDemo.executor) BuildDemo.storage))
    ([], PipelineDemo.start) (tasks, w).
Proof. apply run_tasks_steps; [|exact schedule_tasks]. intros X e w1. apply remember_remembering. Qed.

Lemma schedule_result : option_map (λ st, map build_status (t_builds (mem_tables st.2.1))) (PipelineDemo.final 7 8) = Some [SUCCESS; PENDING].
Proof. vm_compute. reflexivity. Qed.

Lemma success_has_version_witness :
  ∃ tasks w' used', rtc (istep (task_step (remembering PipelineDemo.env mem_tables)) (platform_task (EX := PipelineDemo.executor) BuildDemo.storage))
        ([], PipelineDemo.start) (tasks, (w', used')) ∧
    map build_status (t_builds (mem_tables w')) = [SUCCESS; PENDING] ∧
    versions_recorded (mem_tables w') ∧ schema_ok (mem_tables w').
Proof.
  pose proof schedule_result as Hres. pose proof schedule_runs as Hruns. revert Hres Hruns.
  generalize (PipelineDemo.final 7 8). intros [[tasks [w' used']]|] Hres Hruns; [|discriminate Hres].
  exists tasks, w', used'. pose proof (Hruns _ _ eq_refl) as Hsteps. split; [exact Hsteps|]. split; [by injection Hres|].
  apply (success_has_version (EX := PipelineDemo.executor) BuildDemo.storage PipelineDemo.env mem_tables PipelineDemo.world w'
    (ids_of (mem_tables PipelineDemo.world)) used' tasks);
    [apply schema_okb_ok; vm_compute; reflexivity| |intros id Hid; exact Hid|exact Hsteps].
  intros b Hb Hs. apply list_elem_of_singleton in Hb as ->. discriminate Hs.
Defined.
