(* ===== verification/Delivery.v ===== *)
(** * Delivery

    Both queues of the platform are consumer groups: a message is read, worked on
    and acknowledged, and Redis gives it to somebody else when its consumer dies in
    between.  The file proves that under any interleaving of the platform's tasks
    nothing is acknowledged before it is done: a build message only once its build
    is finished (or deleted), a job only once its outcome was published.

    Both groups are created at [$], so they never see what was added before.  For
    builds that is a limit, and the property speaks of the messages a group has not
    dealt with when it exists; the last example loses one that came before.  For
    jobs it cannot happen: a request adds a job only after it read a worker in the
    registry, and a worker registers only after it made the group. *)

From S2P Require Import Prelude Json JsonText Prog Interleave Services Broker Percentile Database Schema Auth Registry Dispatch Functions Storage.
From S2P Require Import Build Outbox BuildConsumer Container Worker Metrics Api Tenants Pipeline.
#[local] Open Scope Z_scope.

(** ** Builds do not become pending again *)

Definition quiet_db {X} (e : db_eff X) : Prop :=
  match e with
  | BuildUpdate _ p => patch_status p ≠ PENDING
  | TransactionBatch a b =>
      match a, b with VersionCreate _ _ _, BuildUpdate _ p => patch_status p ≠ PENDING | _, _ => False end
  | _ => True
  end.

Definition builds_settle (t t' : tables) : Prop :=
  ∀ b, b ∈ t_builds t' → build_status b = PENDING →
    (∃ b', b' ∈ t_builds t ∧ build_id b' = build_id b ∧ build_status b' = PENDING) ∨ build_id b ∉ ids_of t.

Lemma settle_unchanged t t' : t_builds t' = t_builds t → builds_settle t t'.
Proof. intros H b Hb Hs. rewrite H in Hb. left. eauto. Qed.
Lemma settle_new t t' b : t_builds t' = t_builds t ++ [b] → build_id b ∉ ids_of t → builds_settle t t'.
Proof.
  intros H Hb x Hx Hs. rewrite H in Hx. apply elem_of_app in Hx as [Hx|Hx%list_elem_of_singleton]; [left; eauto|subst; by right].
Qed.
Lemma settle_patch t t' P p :
  t_builds t' = update_where P (patch_build p) (t_builds t) → patch_status p ≠ PENDING → builds_settle t t'.
Proof.
  intros H Hp x Hx Hs. rewrite H in Hx. apply elem_of_update_where in Hx as (b & Hb & ->). left. exists b.
  destruct (P b); simpl in *; [by rewrite Hs in Hp|done].
Qed.
Lemma settle_commit t t' ws : t_builds t' = commit_writes ws (t_builds t) → builds_settle t t'.
Proof.
  intros H x Hx Hs. rewrite H in Hx. apply committed_build in Hx as (b & Hb & Hi & _ & Hst & _). left. exists b.
  by rewrite Hi, <- Hst.
Qed.
Lemma settle_delete fid t : builds_settle t (delete_function_cascade fid t).
Proof. intros b [Hb _]%elem_of_filterb Hs. left. eauto. Qed.

Lemma quiet_settle {X} (e : db_eff X) t r t' : quiet_db e → db_spec e t r t' → builds_settle t t'.
Proof.
  intros He [(draw & now & Hd & Hr)|(x & _ & _ & ->)]; [|by apply settle_unchanged]. pose proof (Hd t) as Hf.
  destruct e as [| | | | | | | | | | | | | | | | | | | | | | |X Y a b| | | | |].
  24: { destruct a; try done. destruct b; try done. simpl in Hr. repeat case_match; simplify_eq;
        first [by apply settle_unchanged|by eapply settle_patch]. }
  all: simpl in Hr, He; repeat case_match; simplify_eq;
    first [by apply settle_unchanged|by eapply settle_new|by apply settle_delete|by eapply settle_commit|by eapply settle_patch].
Qed.

(** A successful update leaves its build finished. *)
Lemma update_finishes draw now bid p t r t' :
  patch_status p ≠ PENDING → db_ref draw now (BuildUpdate bid p) t = (Ok r, t') →
  bid ∈ map build_id (t_builds t') ∧ ∀ b, b ∈ t_builds t' → build_id b = bid → build_status b ≠ PENDING.
Proof.
  intros Hp Hr. simpl in Hr. destruct (find_build bid t) as [b0|] eqn:Hb; [|done]. injection Hr as _ <-. simpl. split.
  - unfold update_where. rewrite map_map. apply find_bd_Some in Hb as [Hb Hid]. apply list_elem_of_fmap. exists b0. split; [|done].
    by case_bool_decide.
  - intros x (b & Hin & ->)%elem_of_update_where Hid. by case_bool_decide.
Qed.

Lemma batch_finishes draw now fid n ref bid p t r t' :
  patch_status p ≠ PENDING → db_ref draw now (TransactionBatch (VersionCreate fid n ref) (BuildUpdate bid p)) t = (Ok r, t') →
  bid ∈ map build_id (t_builds t') ∧ ∀ b, b ∈ t_builds t' → build_id b = bid → build_status b ≠ PENDING.
Proof.
  intros Hp Hr. simpl in Hr. destruct (find_function_by_id fid t); [|done]. destruct (has_version fid n t); [done|].
  set (t1 := set_versions _ t) in Hr. apply (update_finishes draw now bid p t1 (patch_build p (default (mk_build "" 0 "" "" PENDING) (find_build bid t1)))); [done|].
  simpl. destruct (find_build bid t1); [|done]. by injection Hr as _ <-.
Qed.

(** ** The relation every step of the platform satisfies *)

(** A job whose outcome was published on the channel of its correlation id. *)
Definition replied `{JC : JsonCodec} (fields : list string) (b : broker) : Prop :=
  ∃ outcome, (invocationResultChannel (default "undefined" (field_get fields "correlationId")), JSON_stringify outcome) ∈ b_published b.

(** A build no row of which is pending. *)
Definition finished (id : string) (t : tables) : Prop := ∀ b, b ∈ t_builds t → build_id b = id → build_status b ≠ PENDING.

(** ** The registry's hash, when replies may be lost *)

(** As [RedisHashEnv], but a failed command may have taken its effect. *)
Class RegistryEnv {W} (env : Env ev W) (hash : W → gmap (string * string) string) :=
  registry_env : ∀ X (e : ev X) w r w', env X e w r w' →
    match e in ev X return X → Prop with
    | Redis re =>
        match re in redis_eff Y return outcome Y → Prop with
        | Hset k f v => λ r, hash w' = <[(k, f) := v]> (hash w) ∨ (is_Ok r = false ∧ hash w' = hash w)
        | Hdel k f => λ r, hash w' = delete (k, f) (hash w) ∨ (is_Ok r = false ∧ hash w' = hash w)
        | Hgetall k => λ r, hash w' = hash w ∧
            match r with Ok l => ∀ f v, (f, v) ∈ l ↔ hash w !! (k, f) = Some v | Err _ => True end
        | _ => λ _, hash w' = hash w
        end
    | _ => λ _, hash w' = hash w
    end r.

#[export] Instance hash_registry {W} (env : Env ev W) hash `{!RedisHashEnv env hash} : RegistryEnv env hash.
Proof.
  intros X e w r w' He. apply redis_hash in He. destruct e as [X e|X e|X e|X e|X e|X e|X e]; try done.
  destruct e; try done; destruct r; auto.
Qed.

#[export] Instance queue_env_RedisHashEnv answer : RedisHashEnv (env_of (queue_env answer)) (λ w, mem_hash w.1).
Proof.
  intros X e w r w' He. unfold env_of in He.
  destruct e as [X e|X e|X e|X e|X e|X e|X e]; cbn [queue_env] in He;
    try (destruct (mem_env answer _ _ w.1) as [r0 m0] eqn:Hm; injection He as <- <-; exact (mem_env_redis_hash answer _ _ w.1 r0 m0 Hm)).
  destruct (broker_ref (drawn w.2) e w.2) as [[r1 b1]|] eqn:Hb; [|destruct (mem_env answer _ _ w.1) as [r0 m0] eqn:Hm;
    injection He as <- <-; exact (mem_env_redis_hash answer _ _ w.1 r0 m0 Hm)].
  injection He as <- <-. simpl. destruct e; simpl in Hb; try discriminate Hb; done.
Qed.

Section delivery.
Context `{JC : JsonCodec} `{SHA : Sha256} `{EV : EmailValidator} {TMP : OsTmpdir} (storage : ObjectStorage).
Context {W : Type} (env : Env ev W) (view : W → tables) (bview : W → broker) (hash : W → gmap (string * string) string).
Context `{DBE : !DbEnv env view} `{BRK : !BrokerEnv env bview} `{REG : !RegistryEnv env hash}.

Notation world := (W * list string)%type.

(** The stable facts about a message: it is in its stream, and it is done. *)
Definition in_stream (key m : string) (fields : list string) (w : world) : Prop := (m, fields) ∈ entries key (bview w.1).
Definition build_done (fields : list string) (w : world) : Prop :=
  ∃ id, field_get fields "buildId" = Some id ∧ id ∈ w.2 ∧ finished id (view w.1).
Definition job_done (fields : list string) (w : world) : Prop := replied fields (bview w.1).

(** The group of the jobs exists, and some worker is in the registry. *)
Definition job_ready (w : world) : Prop := is_Some (group_of INVOCATION_STREAM_KEY INVOCATION_CONSUMER_GROUP (bview w.1)).
Definition registered (w : world) : Prop := ∃ id text, hash w.1 !! (REGISTRY_KEY, id) = Some text.

(** Every job is still outstanding, or done; nobody registers before the group. *)
Definition jobs_ok (w : world) : Prop :=
  (∀ m fields, in_stream INVOCATION_STREAM_KEY m fields w →
     outstanding INVOCATION_STREAM_KEY INVOCATION_CONSUMER_GROUP m (bview w.1) ∨ job_done fields w) ∧
  (registered w → job_ready w).

Definition delivery_ok (w : world) : Prop :=
  schema_ok (view w.1) ∧ (∀ id, id ∈ ids_of (view w.1) → id ∈ w.2) ∧ broker_ok (bview w.1) ∧ jobs_ok w.

(** What only grows. *)
Definition grows (a b : world) : Prop :=
  (∀ id, id ∈ a.2 → id ∈ b.2) ∧
  (∀ id, id ∈ a.2 → finished id (view a.1) → finished id (view b.1)) ∧
  (∀ key, entries key (bview a.1) `prefix_of` entries key (bview b.1)) ∧
  b_published (bview a.1) `prefix_of` b_published (bview b.1).

(** From the moment the group of the builds exists it exists, and every message is
    outstanding, done, or one it had no more to do with at that moment. *)
Definition covered (a b : world) : Prop :=
  is_Some (group_of BUILD_STREAM_KEY BUILD_CONSUMER_GROUP (bview a.1)) →
  is_Some (group_of BUILD_STREAM_KEY BUILD_CONSUMER_GROUP (bview b.1)) ∧
  ∀ m fields, in_stream BUILD_STREAM_KEY m fields b →
    outstanding BUILD_STREAM_KEY BUILD_CONSUMER_GROUP m (bview b.1) ∨ build_done fields b ∨
    (in_stream BUILD_STREAM_KEY m fields a ∧ ¬ outstanding BUILD_STREAM_KEY BUILD_CONSUMER_GROUP m (bview a.1)).

Definition progress (a b : world) : Prop := grows a b ∧ (job_ready a → job_ready b) ∧ covered a b.
Definition delivers (a b : world) : Prop := delivery_ok a → delivery_ok b ∧ progress a b.

(** Stable facts. *)
Lemma in_stream_later key m fields a b : grows a b → in_stream key m fields a → in_stream key m fields b.
Proof. intros (_ & _ & He & _) Hm. unfold in_stream. destruct (He key) as [l ->]. apply elem_of_app. by left. Qed.
Lemma build_done_later fields a b : grows a b → build_done fields a → build_done fields b.
Proof. intros (Hu & Hf & _) (id & Hid & Hin & Hd). exists id. eauto. Qed.
Lemma job_done_later fields a b : grows a b → job_done fields a → job_done fields b.
Proof. intros (_ & _ & _ & [l Hp]) [out Ho]. exists out. rewrite Hp. apply elem_of_app. by left. Qed.

#[export] Instance grows_preorder : PreOrder grows.
Proof.
  split.
  - intros a. unfold grows. split_and!; auto.
  - intros a b c (Hu & Hf & He & Hp) (Hu' & Hf' & He' & Hp'). split_and!; [eauto..| |etransitivity; [exact Hp|exact Hp']].
    intros key. etransitivity; [apply He|apply He'].
Qed.

Lemma outstanding_dec key name m b : outstanding key name m b ∨ ¬ outstanding key name m b.
Proof.
  destruct (group_of key name b) as [g|] eqn:Hg; [|right; intros (g & Hg' & _); congruence].
  destruct (decide (waits (entries key b) g m)) as [Hw|Hw]; [left; by exists g|right; intros (g' & Hg' & Hw'); congruence].
Qed.

#[export] Instance progress_preorder : PreOrder progress.
Proof.
  split.
  - intros a. split_and!; [done|done|]. intros Hg. split; [done|]. intros m fields Hm.
    destruct (outstanding_dec BUILD_STREAM_KEY BUILD_CONSUMER_GROUP m (bview a.1)); auto.
  - intros a b c (Hg & Hj & Hc) (Hg' & Hj' & Hc'). split_and!; [by etransitivity|auto|]. intros Ha.
    destruct (Hc Ha) as [Hb Hab]. destruct (Hc' Hb) as [Hgc Hbc]. split; [done|]. intros m fields Hm.
    destruct (Hbc m fields Hm) as [?|[?|[Hmb Hno]]]; [auto..|].
    destruct (Hab m fields Hmb) as [?|[Hd|?]]; [done| |auto]. right. left. by eapply build_done_later.
Qed.
#[export] Instance delivers_preorder : PreOrder delivers.
Proof.
  split.
  - intros a Ha. by split.
  - intros a b c Hab Hbc Ha. destruct (Hab Ha) as [Hb H1]. destruct (Hbc Hb) as [Hc H2]. split; [done|etransitivity; [exact H1|exact H2]].
Qed.

Lemma delivers_ok a b : delivers a b → delivery_ok a → delivery_ok b.
Proof. intros H Ha. by destruct (H Ha). Qed.

(** Fields are the message's. *)
Lemma fields_unique key m f1 f2 w : delivery_ok w → in_stream key m f1 w → in_stream key m f2 w → f1 = f2.
Proof.
  intros (_ & _ & Hb & _) H1 H2. destruct (Hb key) as [Hnd _].
  assert ((m, f1) = (m, f2)) as [= ->]; [|done]. by eapply (NoDup_map_inj fst).
Qed.

(** *** Calls to Redis *)

(** A message of the stream that one command adds nothing to, or that was there. *)
Lemma in_stream_before key m fields (a b : world) :
  broker_ok (bview b.1) → entries key (bview a.1) `prefix_of` entries key (bview b.1) →
  m ∈ map fst (entries key (bview a.1)) → in_stream key m fields b → in_stream key m fields a.
Proof.
  intros Hok [l Hl] (m1 & -> & Hm1)%list_elem_of_fmap Hm. unfold in_stream in *. destruct m1 as [i f1]. simpl in *.
  assert ((i, f1) = (i, fields)) as [= ->]; [|done]. destruct (Hok key) as [Hnd _].
  eapply (NoDup_map_inj fst); [exact Hnd| |exact Hm|done]. rewrite Hl. apply elem_of_app. by left.
Qed.

(** One queue over one command that acknowledges only what is done. *)
Lemma queue_step {X} (e : redis_eff X) key name (done_ : list string → world → Prop) (a b : world) :
  keeps e (bview a.1) (bview b.1) → broker_ok (bview a.1) → is_Some (group_of key name (bview a.1)) →
  (∀ fields, done_ fields a → done_ fields b) →
  (∀ m fields, acks key name m e → in_stream key m fields a → done_ fields a) →
  is_Some (group_of key name (bview b.1)) ∧ ∀ m fields, in_stream key m fields b →
    outstanding key name m (bview b.1) ∨ done_ fields b ∨ (in_stream key m fields a ∧ ¬ outstanding key name m (bview a.1)).
Proof.
  intros Hk Hoka Hg Hd Hack. destruct (Hk Hoka) as (Hokb & He & _ & Hgr). destruct (Hgr key name Hg) as [Hg' Hids].
  split; [done|]. intros m fields Hm. destruct (Hids m) as [Ho|[Hin Hrest]]; [|by left|right].
  { apply list_elem_of_fmap. by exists (m, fields). }
  pose proof (in_stream_before key m fields a b Hokb (He key) Hin Hm) as Hma. destruct Hrest as [Hac|Hno]; [left|by right].
  by eapply Hd, Hack.
Qed.

(** The messages whose acknowledgement is allowed, the commands that need the group
    of the jobs. *)
Definition settled_message (key m : string) (done_ : list string → world → Prop) (w : world) : Prop :=
  ∃ fields, in_stream key m fields w ∧ done_ fields w.
Definition needs_group {X} (e : redis_eff X) : bool :=
  match e with Hset _ _ _ => true | Xadd key _ => bool_decide (key = INVOCATION_STREAM_KEY) | _ => false end.

(** The queue of the jobs over one command. *)
Lemma jobs_step {X} (e : redis_eff X) a r b :
  env _ (Redis e) a.1 r b.1 → delivery_ok a → grows a b → (job_ready a → job_ready b) →
  (∀ m, acks INVOCATION_STREAM_KEY INVOCATION_CONSUMER_GROUP m e → settled_message INVOCATION_STREAM_KEY m job_done a) →
  (needs_group e = true → job_ready a) → jobs_ok b.
Proof.
  intros He Ha Hp Hready Hset Hneed. pose proof (registry_env _ _ _ _ _ He) as Hh. apply broker_env in He.
  pose proof (broker_step_keeps _ _ _ _ He) as Hk. pose proof Ha as (_ & _ & Hb & Hjobs & Hreg). destruct (Hk Hb) as (Hb' & Hent & _). split.
  - intros m fields Hm.
    assert (∀ fields, job_done fields a → job_done fields b) as Hd by (intros f; by apply job_done_later).
    destruct (group_of INVOCATION_STREAM_KEY INVOCATION_CONSUMER_GROUP (bview a.1)) as [g|] eqn:Hg.
    + destruct (queue_step e INVOCATION_STREAM_KEY INVOCATION_CONSUMER_GROUP job_done a b) as [_ Hall]; [done..|by eexists|done| |].
      * intros x f Hac Hx. destruct (Hset x Hac) as (f' & Hx' & Hd'). by rewrite (fields_unique _ _ _ _ _ Ha Hx Hx').
      * destruct (Hall m fields Hm) as [?|[?|[Hma Hno]]]; [by left|by right|right].
        destruct (Hjobs m fields Hma) as [?|?]; [done|by apply Hd].
    + right. apply Hd. assert (¬ adds INVOCATION_STREAM_KEY e) as Hn.
      { intros Hadd. destruct Hneed as [g Hg']; [|unfold job_ready in *; congruence]. destruct e; simpl in Hadd; try done. by apply bool_decide_eq_true. }
      unfold in_stream in Hm. rewrite (entries_same _ _ _ _ _ Hn He) in Hm.
      destruct (Hjobs m fields Hm) as [(g & Hg' & _)|?]; [congruence|done].
  - intros (id & text & Hid). apply Hready. destruct (needs_group e) eqn:Hn; [by apply Hneed|].
    apply Hreg. exists id, text. destruct e; simpl in Hn, Hh; try discriminate Hn; try (by rewrite Hh in Hid).
    + destruct Hh as [Hh|[_ Hh]]; rewrite Hh in Hid; [|done]. by apply lookup_delete_Some in Hid as [_ Hid].
    + destruct Hh as [Hh _]. by rewrite Hh in Hid.
Qed.

Lemma redis_delivers {X} (e : redis_eff X) a r b :
  (delivery_ok a → (∀ m,
     (acks BUILD_STREAM_KEY BUILD_CONSUMER_GROUP m e → settled_message BUILD_STREAM_KEY m build_done a) ∧
     (acks INVOCATION_STREAM_KEY INVOCATION_CONSUMER_GROUP m e → settled_message INVOCATION_STREAM_KEY m job_done a)) ∧
     (needs_group e = true → job_ready a)) →
  remembering env view _ (Redis e) a r b → delivers a b.
Proof.
  intros Hset (He & _ & Hseen) Ha. destruct (Hset Ha) as [Hacks Hneed]. pose proof (db_env _ _ _ _ _ He) as Hv. simpl in Hv.
  pose proof (broker_env _ _ _ _ _ He) as Hs. apply broker_step_keeps in Hs as Hk. pose proof Ha as (Hok & Hin & Hb & _).
  destruct (Hk Hb) as (Hb' & Hent & Hpub & Hgr).
  assert (grows a b) as Hp.
  { unfold grows. rewrite Hv. split_and!; [|done..]. intros id Hid. rewrite Hseen. apply elem_of_app. by left. }
  assert (job_ready a → job_ready b) as Hready by (intros Hj; by apply Hgr).
  split; [split_and!|split_and!].
  - by rewrite Hv.
  - intros id Hid. rewrite Hseen. apply elem_of_app. by right.
  - done.
  - eapply (jobs_step e a r b); [done..| |done]. intros m. apply Hacks.
  - done.
  - done.
  - intros Hg. apply (queue_step e); [done..| |].
    + intros f. by apply build_done_later.
    + intros m f Hac Hm. destruct (proj1 (Hacks m) Hac) as (f' & Hm' & Hd). by rewrite (fields_unique _ _ _ _ _ Ha Hm Hm').
Qed.

(** *** Calls to the database and to everything else *)

Lemma same_broker_delivers (a b : world) :
  bview b.1 = bview a.1 → hash b.1 = hash a.1 → grows a b → schema_ok (view b.1) → (∀ id, id ∈ ids_of (view b.1) → id ∈ b.2) → delivers a b.
Proof.
  intros Hb Hh Hp Hok Hin (_ & _ & Hbr & Hjobs & Hreg). unfold job_ready, registered in *. split; [split_and!|split_and!].
  - done.
  - done.
  - by rewrite Hb.
  - split.
    + intros m fields Hm. unfold in_stream in Hm. rewrite Hb in *. destruct (Hjobs m fields Hm); [by left|right]. by eapply job_done_later.
    + unfold registered, job_ready. by rewrite Hb, Hh.
  - done.
  - unfold job_ready. by rewrite Hb.
  - intros Hg. rewrite Hb. split; [done|]. intros m fields Hm. unfold in_stream in *. rewrite Hb in Hm.
    destruct (outstanding_dec BUILD_STREAM_KEY BUILD_CONSUMER_GROUP m (bview a.1)); auto.
Qed.

Lemma db_delivers {X} (e : db_eff X) a r b : quiet_db e → remembering env view _ (Db e) a r b → delivers a b.
Proof.
  intros Hq (He & Hnew & Hseen) Ha. pose proof (broker_env _ _ _ _ _ He) as Hb. pose proof (registry_env _ _ _ _ _ He) as Hh.
  simpl in Hb, Hh. apply db_env in He.
  pose proof Ha as (Hok & Hin & _). apply same_broker_delivers; [done|done| |by eapply db_spec_schema_ok| |done].
  - unfold grows. rewrite Hb. split_and!; [| |done..].
    + intros id Hid. rewrite Hseen. apply elem_of_app. by left.
    + intros id Hid Hf x Hx Hxid Hs. destruct (quiet_settle e _ _ _ Hq He x Hx Hs) as [(y & Hy & Hyid & Hys)|Hno].
      * eapply Hf; [exact Hy| |done]. congruence.
      * destruct (Hnew (build_id x)) as [?|Hno']; [|done|by rewrite Hxid in Hno'].
        unfold ids_of. rewrite !elem_of_app. do 4 right. left. by apply list_elem_of_fmap_2.
  - intros id Hid. rewrite Hseen. apply elem_of_app. by right.
Qed.

Lemma other_delivers {X} (e : ev X) a r b : outside_store _ e → remembering env view _ e a r b → delivers a b.
Proof.
  intros Hn (He & _ & Hseen) Ha. pose proof (broker_env _ _ _ _ _ He) as Hb. pose proof (registry_env _ _ _ _ _ He) as Hh.
  apply db_env in He. pose proof Ha as (Hok & Hin & _).
  assert (view b.1 = view a.1) as Hv by (by destruct e). assert (bview b.1 = bview a.1) as Hbv by (by destruct e).
  assert (hash b.1 = hash a.1) as Hhv by (by destruct e).
  apply same_broker_delivers; rewrite ?Hv; [done|done| |done| |done].
  - unfold grows. rewrite Hv, Hbv. split_and!; [|done..]. intros id Hid. rewrite Hseen. apply elem_of_app. by left.
  - intros id Hid. rewrite Hseen. apply elem_of_app. left. auto.
Qed.

Notation safe_here := (safe (remembering env view) delivery_ok delivers).

(** ** Programs that acknowledge nothing *)

(** [ready_call]: and may add jobs or register workers, once the group of the jobs
    exists; [quiet_call]: do neither. *)
Definition ready_call X (e : ev X) : Prop :=
  match e with Db e' => quiet_db e' | Redis (Xack _ _ _) => False | _ => True end.
Definition quiet_call X (e : ev X) : Prop :=
  match e with Db e' => quiet_db e' | Redis (Xack _ _ _) => False | Redis e' => needs_group e' = false | _ => True end.

Lemma ready_delivers X (e : ev X) a r b :
  ready_call X e → job_ready a → remembering env view _ e a r b → delivers a b.
Proof.
  intros He Hj Hr. destruct e as [X e|X e|X e|X e|X e|X e|X e]; try (by eapply other_delivers; [|exact Hr]).
  - by eapply db_delivers.
  - eapply redis_delivers; [|exact Hr]. intros _. split; [|done]. intros m. by destruct e.
Qed.

Lemma quiet_delivers X (e : ev X) a r b : quiet_call X e → remembering env view _ e a r b → delivers a b.
Proof.
  intros He Hr. destruct e as [X e|X e|X e|X e|X e|X e|X e]; try (by eapply other_delivers; [|exact Hr]).
  - by eapply db_delivers.
  - eapply redis_delivers; [|exact Hr]. intros _. split; [intros m; by destruct e|]. intros Hn. destruct e; simpl in He, Hn; congruence.
Qed.

Lemma quiet_safe {S A} (q : prog ev S A) w : only quiet_call q → safe_here q w (λ _ _, True).
Proof.
  intros Hq. apply (safe_only _ _ _ quiet_call (λ _, True) q w); [done| |done..].
  intros X e w0 r w1 He _ _ Hr. by eapply quiet_delivers.
Qed.

(** Facts under [delivery_ok] are stable once [progress] keeps them. *)
Definition known (F : world → Prop) (w : world) : Prop := delivery_ok w ∧ F w.
Lemma known_later F a b : (∀ a b, progress a b → F a → F b) → delivers a b → known F a → known F b.
Proof. intros HF Hd [Ha Hf]. destruct (Hd Ha) as [Hb Hp]. split; [done|by eapply HF]. Qed.
Lemma known_grows F a b : (∀ a b, grows a b → F a → F b) → delivers a b → known F a → known F b.
Proof. intros HF. apply known_later. intros c d [Hg _]. by apply HF. Qed.

Definition ready (w : world) : Prop := known job_ready w.
Lemma ready_later a b : delivers a b → ready a → ready b.
Proof. apply known_later. by intros c d (_ & H & _). Qed.

Lemma ready_safe {S A} (q : prog ev S A) w : only ready_call q → ready w → safe_here q w (λ _ _, True).
Proof.
  intros Hq Hw. apply (safe_only _ _ _ ready_call ready q w); [apply ready_later| |done..].
  intros X e w0 r w1 He [_ Hj] _ Hr. by eapply ready_delivers.
Qed.

Lemma ready_keeps {S A} (q : prog ev S A) w : only ready_call q → ready w → safe_here q w (λ _, ready).
Proof.
  intros Hq Hw. eapply safe_mono; [|by apply (safe_reach _ _ _ _ _ (λ _ _, True)), ready_safe].
  intros o w' [Hd _]. exact (ready_later _ _ Hd Hw).
Qed.

Notation everywhere := (Interleave.everywhere (remembering env view) delivery_ok delivers).

Lemma everywhere_quiet {S A} (q : prog ev S A) : only quiet_call q → everywhere q.
Proof. intros Hq w. by apply quiet_safe. Qed.

(** A program that reaches its end keeps what was known, later. *)
Lemma quiet_keeps {S A} (q : prog ev S A) (F : world → Prop) w :
  (∀ a b, delivers a b → F a → F b) → only quiet_call q → F w → safe_here q w (λ _, F).
Proof. intros HF Hq Hw. eapply safe_mono; [|by apply (safe_reach _ _ _ _ _ (λ _ _, True)), quiet_safe]. intros o w' [Hd _]. exact (HF _ _ Hd Hw). Qed.

Lemma hook_quiet {S A} (q : prog ev S A) : only hook_call q → only quiet_call q.
Proof. apply only_mono. intros X e He. destruct e as [X e|X e| | | | |]; [done| |done..]. by destruct e. Qed.

Lemma outside_quiet {S A} (q : prog ev S A) : only outside_store q → only quiet_call q.
Proof. apply only_mono. by intros X []. Qed.

Lemma tick_quiet {S} : only quiet_call (BuildOutboxRelayService.tick (S := S)).
Proof.
  unfold BuildOutboxRelayService.tick, BuildOutboxRelayService.relayOnce, BuildOutboxRelayService.transaction,
    BuildOutboxRelayService.claim, BuildOutboxRelayService.publish, fire_and_forget, logger_error. only_calls.
Qed.

(** A call to Redis that acknowledges nothing, and what it answered. *)
Lemma safe_redis {S X} (e : redis_eff X) w (Q : outcome X → world → Prop) :
  quiet_call _ (Redis e) →
  (∀ (w0 : world) r (w1 : world), delivery_ok w1 → delivers w w1 → env _ (Redis e) w0.1 r w1.1 → Q r w1) →
  safe_here (redis (S := S) e) w Q.
Proof.
  intros Hq HQ. apply safe_call. intros w0 r w1 Hw0 HJ0 Hr. pose proof (quiet_delivers _ _ _ _ _ Hq Hr) as Hd. split; [done|].
  apply (HQ w0 r w1); [by eapply delivers_ok|by etransitivity|]. by destruct Hr as [He _].
Qed.

(** ** Requests *)

(** A request that saw spare capacity read a worker in the registry. *)
Lemma capacity_safe {S} w :
  safe_here (WorkerRegistryService.hasSpareCapacity (S := S)) w (λ o w', match o with Ok true => ready w' | _ => True end).
Proof.
  unfold WorkerRegistryService.hasSpareCapacity, WorkerRegistryService.listWorkers. apply safe_bind, safe_bind.
  apply safe_redis; [done|]. intros w0 [raw|x] w1 Hok1 _ He; [|done]. apply registry_env in He as [Hh Hraw].
  assert (raw ≠ [] → ready w1) as Hready.
  { intros Hne. split; [done|]. destruct Hok1 as (_ & _ & _ & _ & Hreg). apply Hreg. destruct raw as [|[f v] raw]; [done|].
    exists f, v. rewrite Hh. apply Hraw, list_elem_of_here. }
  destruct raw as [|fv raw]; [|specialize (Hready ltac:(done))].
  - apply safe_bind. eapply safe_mono; [|apply quiet_safe; by split]. intros [now|x] w2 _; done.
  - apply safe_bind. eapply safe_mono; [|apply (quiet_keeps (sys DateNow) ready); [apply ready_later|by split|done]].
    intros [now|x] w2 Hw2; [|done]. destruct (WorkerRegistryService.parse_workers now (fv :: raw)) as [l|x]; [|done].
    simpl. by destruct (existsb spare l).
Qed.

Lemma invoke_everywhere userId name event : everywhere (FunctionsService.invoke userId name event).
Proof.
  unfold FunctionsService.invoke, FunctionsService.get.
  apply everywhere_bind; [apply everywhere_quiet; only_calls|]. intros f.
  apply everywhere_bind; [apply everywhere_quiet; only_calls|]. intros [v|]; [|done].
  apply everywhere_bind; [apply everywhere_quiet; only_calls|]. intros start w. apply safe_bind.
  eapply safe_mono; [|apply capacity_safe]. intros [[|]|x] w1 Hw1; [|apply quiet_safe|done]; cbn [negb].
  - apply ready_safe; [|done]. unfold InvocationDispatchService.dispatch, env_number, FunctionsService.recordInvocation. only_calls.
  - unfold FunctionsService.recordInvocation. only_calls.
Qed.

(** No other route adds a job or writes the registry. *)
Definition no_job X (e : ev X) : Prop := match e with Redis (Hset _ _ _) | Redis (Xadd _ _) => False | _ => True end.

Lemma handle_no_job rq user : (∀ name, req_route rq ≠ POST_invoke name) → only no_job (handle storage rq user).
Proof.
  intros Hn. unfold handle, with_user. destruct (req_route rq) as [| | | |id|?|?|name|name|name|name|name|name|name bid|name| | |];
    try (by destruct (Hn name)); clear Hn;
    unfold AuthController.register, AuthController.login, AuthController.createApiKey, AuthController.listApiKeys, AuthController.revokeApiKey,
      AuthService.register, AuthService.login, AuthService.createApiKey, AuthService.listApiKeys, AuthService.revokeApiKey,
      FunctionsController.register, FunctionsController.list_, FunctionsController.get, FunctionsController.listInvocations,
      FunctionsController.getMetrics, FunctionsController.remove, FunctionsService.register, FunctionsService.list_,
      FunctionsService.listInvocations, FunctionsService.getMetricsSummary, FunctionsService.get, FunctionsService.remove,
      BuildController.createVersion, BuildService.submitBuild, ObjectStorageService.putObject,
      BuildController.getBuild, BuildController.listVersions, BuildService.getBuild, BuildService.listVersions, FunctionsService.get,
      WorkersController_list, MetricsController.getMetrics, promise_all, settled, MetricsController.getConsumerGroupLag,
      MetricsService.metricsText, HealthController_check, validated, WorkerRegistryService.listWorkers;
    only_calls.
Qed.

Lemma guard_quiet {S} header : only quiet_call (AuthGuard.canActivate (S := S) header).
Proof.
  unfold AuthGuard.canActivate, AuthGuard.tryVerifyJwt, AuthService.validateApiKey, AuthService.verifyJwt, fire_and_forget. only_calls.
Qed.
Lemma guard_no_job {S} header : only no_job (AuthGuard.canActivate (S := S) header).
Proof.
  unfold AuthGuard.canActivate, AuthGuard.tryVerifyJwt, AuthService.validateApiKey, AuthService.verifyJwt, fire_and_forget. only_calls.
Qed.
Lemma scopes_no_job {S} required user : only no_job (ScopesGuard.canActivate (S := S) required user).
Proof. unfold ScopesGuard.canActivate. only_calls. Qed.

Lemma no_job_quiet {S A} (q : prog ev S A) : only no_job q → only request_call q → only quiet_call q.
Proof.
  intros H1 H2. eapply only_mono; [|exact (only_and _ _ _ H1 H2)]. intros X e [Hj Hc].
  destruct e as [X e|X e|X e|X e|X e|X e|X e]; try done; by destruct e.
Qed.

Lemma request_everywhere rq : everywhere (serve storage rq).
Proof.
  assert ((∃ name, req_route rq = POST_invoke name) ∨ ∀ name, req_route rq ≠ POST_invoke name) as [[name Hr]|Hn].
  { destruct (req_route rq); try (by right). left. by eexists. }
  - unfold serve, handle. rewrite Hr. cbn [guards_of with_user].
    apply everywhere_bind; [apply everywhere_quiet, guard_quiet|]. intros p.
    apply everywhere_bind; [apply everywhere_quiet; unfold ScopesGuard.canActivate; only_calls|]. intros _.
    apply everywhere_bind; [|done]. unfold FunctionsController.invoke.
    apply everywhere_bind; [apply invoke_everywhere|done].
  - apply everywhere_quiet, no_job_quiet; [|apply serve_calls]. unfold serve. destruct (guards_of (req_route rq)); [by apply handle_no_job|..];
      (apply only_bind; [apply guard_no_job|]); intros p; [by apply handle_no_job|].
    apply only_bind; [apply scopes_no_job|]. intros _. by apply handle_no_job.
Qed.

(** ** The hooks of a worker *)

(** The life of a worker's process around its loop: its start, then the beats of its
    timer, each after the one before. *)
Fixpoint beating (wid : string) (n : nat) : prog ev worker unit :=
  match n with O => Ret tt | S n' => _ ← WorkerService.sendHeartbeat wid; beating wid n' end.
Definition worker_process (wid : string) (n : nat) : prog ev worker unit :=
  _ ← WorkerService.onModuleInit wid;
  beating wid n.

(** A worker's start makes the group before it registers. *)
Lemma group_safe w :
  safe_here WorkerService.ensureConsumerGroup w (λ o w', match o with Ok _ => ready w' | Err _ => True end).
Proof.
  unfold WorkerService.ensureConsumerGroup. apply safe_try, safe_redis; [done|].
  intros w0 r w1 Hok1 _ He. apply broker_env in He. pose proof (group_created _ _ _ _ _ _ He) as Hg.
  destruct r as [[]|x]; [split; [done|by apply Hg]|]. destruct (not_busygroup x) eqn:Hb; [done|]. split; [done|]. apply Hg.
  unfold not_busygroup in Hb. apply orb_false_iff in Hb as [_ Hb]. by apply negb_false_iff.
Qed.

Lemma beating_ready wid n : only ready_call (beating wid n).
Proof.
  induction n as [|n IH]; [done|]. cbn [beating]. apply only_bind; [|intros _; apply IH].
  unfold WorkerService.sendHeartbeat, WorkerRegistryService.heartbeat. only_calls.
Qed.

Lemma start_ready wid w : safe_here (WorkerService.onModuleInit wid) w (λ o w', match o with Ok _ => ready w' | Err _ => True end).
Proof.
  unfold WorkerService.onModuleInit, logger_log. apply safe_bind. eapply safe_mono; [|apply quiet_safe].
  2: { unfold ensureEcrLogin. only_calls. all: eapply only_mono; [|apply await_process_calls]; by intros X []. }
  intros [_|x] w1 _; [|done]. apply safe_bind. eapply safe_mono; [|apply group_safe]. intros [_|x] w2 Hw2; [|done].
  eapply safe_mono; [|apply ready_keeps; [|exact Hw2]]; [by intros []|].
  unfold WorkerService.sendHeartbeat, WorkerRegistryService.heartbeat. only_calls.
Qed.

Lemma worker_process_everywhere wid n : everywhere (worker_process wid n).
Proof.
  intros w. unfold worker_process. apply safe_bind. eapply safe_mono; [|apply start_ready]. intros [_|x] w1 Hw1; [|done].
  apply ready_safe; [apply beating_ready|done].
Qed.

(** ** The build consumer *)

(** A call to the database, and what it did. *)
Lemma safe_db {S X} (e : db_eff X) w (Q : outcome X → world → Prop) :
  quiet_db e →
  (∀ (w0 : world) r (w1 : world), delivers w w1 → delivery_ok w1 → db_spec e (view w0.1) r (view w1.1) → Q r w1) →
  safe_here (db (S := S) e) w Q.
Proof.
  intros Hq HQ. apply safe_call. intros w0 r w1 Hw0 HJ0 Hr. pose proof (db_delivers _ _ _ _ Hq Hr) as Hd. split; [done|].
  apply (HQ w0 r w1); [by etransitivity|by eapply delivers_ok|]. destruct Hr as [He _]. by apply db_env in He.
Qed.

(** After a successful update its build is finished for good. *)
Definition settled_build (id : string) (w : world) : Prop := id ∈ w.2 ∧ finished id (view w.1).
Lemma settled_build_later id a b : grows a b → settled_build id a → settled_build id b.
Proof. intros (Hu & Hf & _) [Hin Hd]. split; eauto. Qed.

Lemma settled_now id w :
  delivery_ok w → id ∈ map build_id (t_builds (view w.1)) → finished id (view w.1) → known (settled_build id) w.
Proof.
  intros Hw Hin Hf. split; [done|]. split; [|done]. destruct Hw as (_ & Hids & _). apply Hids. unfold ids_of.
  rewrite !elem_of_app. do 4 right. by left.
Qed.

Lemma update_settles {S} bid p w :
  patch_status p ≠ PENDING →
  safe_here (db (S := S) (BuildUpdate bid p)) w (λ o w', match o with Ok _ => known (settled_build bid) w' | Err _ => True end).
Proof.
  intros Hp. apply safe_db; [done|]. intros w0 [r|x] w1 _ Hok1 [(draw & now & _ & Hr)|(y & _ & ? & _)]; try done.
  destruct (update_finishes _ _ _ _ _ _ _ Hp Hr). by apply settled_now.
Qed.

Lemma batch_settles {S} fid n ref bid p w :
  patch_status p ≠ PENDING →
  safe_here (db (S := S) (TransactionBatch (VersionCreate fid n ref) (BuildUpdate bid p))) w
    (λ o w', match o with Ok _ => known (settled_build bid) w' | Err _ => True end).
Proof.
  intros Hp. apply safe_db; [done|]. intros w0 [r|x] w1 _ Hok1 [(draw & now & _ & Hr)|(y & _ & ? & _)]; try done.
  destruct (batch_finishes _ _ _ _ _ _ _ _ _ _ Hp Hr). by apply settled_now.
Qed.

(** What a program establishes when it succeeds. *)
Definition ensures {S A} (q : prog ev S A) (F : world → Prop) (w : world) : Prop :=
  safe_here q w (λ o w', match o with Ok _ => F w' | Err _ => True end).

Lemma ensures_after {S A B} (q : prog ev S A) (f : A → prog ev S B) F w :
  only quiet_call q → (∀ a w', ensures (f a) F w') → ensures (bind f q) F w.
Proof. intros Hq Hf. apply safe_bind. eapply safe_mono; [|by apply quiet_safe]. intros [a|x] w' _; [apply Hf|done]. Qed.

Lemma ensures_then {S A B} (q : prog ev S A) (f : A → prog ev S B) (F : world → Prop) w :
  (∀ a b, delivers a b → F a → F b) → ensures q F w → (∀ a, only quiet_call (f a)) → ensures (bind f q) F w.
Proof.
  intros HF Hq Hf. apply safe_bind. eapply safe_mono; [|exact Hq]. intros [a|x] w' Hw; [|done].
  eapply safe_mono; [|by apply (quiet_keeps (f a) F)]. by intros [].
Qed.

Lemma runBuild_settles {S} {EX : BuildExecutor S} b w :
  ensures (BuildService.runBuild (S := S) b) (known (settled_build (build_id b))) w.
Proof.
  assert (∀ a c, delivers a c → known (settled_build (build_id b)) a → known (settled_build (build_id b)) c) as HF.
  { intros a c. apply known_grows, settled_build_later. }
  unfold BuildService.runBuild, BuildService.nextVersionNumber, logger_log, logger_warn.
  apply safe_try. eapply safe_mono with (Q := λ o w', match o with Ok _ => known (settled_build (build_id b)) w' | Err _ => True end).
  - intros [a|x] w' Hw; [done|]. apply ensures_after; [only_calls|]. intros now w1.
    apply ensures_then; [done|by apply update_settles|intros; only_calls].
  - apply ensures_after; [only_calls|]. intros fn w1. apply ensures_after; [only_calls|]. intros n w2.
    apply ensures_after; [apply outside_quiet, build_calls|]. intros ref w3. apply ensures_after; [only_calls|]. intros now w4.
    apply ensures_then; [done|by apply batch_settles|intros; only_calls].
Qed.

(** Acknowledging a message that is done. *)
Definition ackable (key m : string) (w : world) : Prop :=
  (key = BUILD_STREAM_KEY → settled_message key m build_done w) ∧
  (key = INVOCATION_STREAM_KEY → settled_message key m job_done w).

Lemma ackable_later key m a b : grows a b → ackable key m a → ackable key m b.
Proof.
  intros Hp [Hb Hj]. split; intros Hk; [destruct (Hb Hk) as (f & Hm & Hd)|destruct (Hj Hk) as (f & Hm & Hd)]; exists f;
    (split; [by eapply in_stream_later|]); [by eapply build_done_later|by eapply job_done_later].
Qed.

Lemma ack_safe {S A} key name m w (q : Z → prog ev S A) :
  known (ackable key m) w → (∀ n, only quiet_call (q n)) → safe_here (bind q (redis (Xack key name m))) w (λ _ _, True).
Proof.
  intros Hm Hq. apply safe_bind, safe_call. intros w0 r w1 Hw0 HJ0 Hr. split; [|destruct r; [by apply quiet_safe|done]].
  eapply redis_delivers; [|exact Hr]. intros _. split; [|done]. intros m'.
  apply (known_grows _ _ _ (ackable_later key m) Hw0) in Hm as [_ [Hb Hj]]. split; intros (Hk & _ & <-); rewrite <- Hk; auto.
Qed.

(** A message in hand. *)
Definition in_hand (key : string) (m : string * list string) (w : world) : Prop := known (in_stream key m.1 m.2) w.
Lemma in_hand_later key m a b : delivers a b → in_hand key m a → in_hand key m b.
Proof. apply known_grows, in_stream_later. Qed.

Lemma in_hand_all key messages (w : world) :
  delivery_ok w → (∀ m, m ∈ messages → m ∈ entries key (bview w.1)) → Forall (λ m, in_hand key m w) messages.
Proof. intros Hw Hm. apply Forall_forall. intros [m f] Hin. split; [done|]. by apply Hm. Qed.

(** Working through messages a consumer was handed. *)
Lemma messages_safe {S} key (body : string * list string → prog ev S unit) messages w :
  (∀ m w, in_hand key m w → safe_here (body m) w (λ _ _, True)) →
  delivery_ok w → (∀ m, m ∈ messages → m ∈ entries key (bview w.1)) → safe_here (for_each messages body) w (λ _ _, True).
Proof.
  intros Hb Hw Hm. apply (safe_for_each _ _ _ (in_hand key)); [|done|by apply in_hand_all].
  intros m a b. apply in_hand_later.
Qed.

(** A message stays in hand over programs that acknowledge nothing. *)
Lemma in_hand_then {S A B} (q : prog ev S A) (f : A → prog ev S B) key m w :
  only quiet_call q → in_hand key m w → (∀ a w', in_hand key m w' → safe_here (f a) w' (λ _ _, True)) →
  safe_here (bind f q) w (λ _ _, True).
Proof.
  intros Hq Hm Hf. apply safe_bind. eapply safe_mono; [|apply (quiet_keeps q (in_hand key m)); [|done..]].
  - intros [a|x] w' Hw; [by apply Hf|done].
  - intros a b. apply in_hand_later.
Qed.

(** *** The build consumer *)

Section build_consumer.
Context {EX : BuildExecutor consumer}.

(** What the idempotency check finds. *)
Lemma find_build_ensures {S} id m w : in_hand BUILD_STREAM_KEY m w →
  safe_here (db (S := S) (BuildFindUniqueOrThrow id)) w (λ o w', match o with
    | Ok b => build_id b = id ∧ in_hand BUILD_STREAM_KEY m w' ∧ (terminal b → known (settled_build id) w')
    | Err _ => True end).
Proof.
  intros Hm. apply safe_db; [done|]. intros w0 [b|x] w1 Hw1 Hok1 [(draw & now & _ & Hr)|(y & _ & ? & _)]; try done. simpl in Hr.
  destruct (find_build id (view w0.1)) as [b0|] eqn:Hb; [|done]. injection Hr as -> Hv. apply find_bd_Some in Hb as [Hb Hbid].
  split; [done|]. split; [by eapply in_hand_later|]. intros Ht. rewrite Hv in Hb. apply settled_now; [done| |].
  - rewrite <- Hbid. by apply list_elem_of_fmap_2.
  - intros c Hc Hcid. destruct Hok1 as [Hs _]. assert (c = b) as -> by (eapply (NoDup_map_inj build_id); [apply Hs|done|done|congruence]).
    by destruct Ht as [-> | ->].
Qed.

(** A message may be acknowledged once its build is settled. *)
Lemma build_ackable m id w :
  field_get m.2 "buildId" = Some id → in_hand BUILD_STREAM_KEY m w → known (settled_build id) w → known (ackable BUILD_STREAM_KEY m.1) w.
Proof.
  intros Hid [_ Hm] [Hok [Hin Hf]]. split; [done|]. split; [|done]. intros _. exists m.2. split; [done|]. by exists id.
Qed.

Lemma build_message_safe m w : in_hand BUILD_STREAM_KEY m w →
  safe_here (BuildStreamConsumerService.handleMessage (S := consumer) m.1 m.2) w (λ _ _, True).
Proof.
  intros Hm. unfold BuildStreamConsumerService.handleMessage.
  apply safe_try_everywhere; [|intros x; apply everywhere_quiet; unfold logger_error; only_calls].
  destruct (field_get m.2 "buildId") as [id|] eqn:Hid; [|done].
  apply safe_bind. eapply safe_mono; [|by apply (find_build_ensures id m)]. intros [b|x] w1 H; [|done]. destruct H as (Hbid & Hm1 & Ht).
  apply safe_bind. eapply safe_mono with (Q := λ o w', match o with Ok _ => known (ackable BUILD_STREAM_KEY m.1) w' | Err _ => True end).
  { intros [a|x] w2 H; [|done]. by apply ack_safe. }
  case_bool_decide as Hst.
  - eapply safe_mono with (Q := λ _, known (ackable BUILD_STREAM_KEY m.1)); [by intros []|]. apply quiet_keeps.
    + intros a c. apply known_grows, ackable_later.
    + unfold logger_log. only_calls.
    + by eapply build_ackable; [| |apply Ht].
  - eapply safe_mono; [|apply (safe_reach _ _ _ _ _ _ (runBuild_settles b w1))]. intros [a|x] w2 [Hd Hq]; [|done]. rewrite Hbid in Hq.
    by eapply build_ackable; [|eapply in_hand_later|].
Qed.

Lemma build_iteration_everywhere name : everywhere (BuildStreamConsumerService.iteration (S := consumer) name).
Proof.
  unfold BuildStreamConsumerService.iteration. apply everywhere_try; [|intros x; apply everywhere_quiet; unfold logger_error; only_calls].
  apply everywhere_bind.
  - unfold BuildStreamConsumerService.reclaimAbandonedMessages, env_number.
    apply everywhere_bind; [apply everywhere_quiet; only_calls|]. intros idle w. apply safe_bind.
    eapply safe_mono with (Q := λ o w', match o with
      | Ok r => delivery_ok w' ∧ ∀ m, m ∈ r.2 → m ∈ entries BUILD_STREAM_KEY (bview w'.1) | Err _ => True end).
    2: { apply safe_redis; [done|]. intros w0 [r|x] w1 Hok1 _ Hr%broker_env; [|done]. split; [done|]. intros m. by eapply autoclaim_entries. }
    intros [r|x] w1 H; [|done]. destruct H as [Hok1 Hin]. eapply messages_safe; [|exact Hok1|exact Hin].
    intros m w2 Hm. apply (in_hand_then _ _ BUILD_STREAM_KEY m); [unfold logger_warn; only_calls|done|].
    intros a w3. apply build_message_safe.
  - intros _ w. unfold BuildStreamConsumerService.readAndProcessOnce. apply safe_bind.
    eapply safe_mono with (Q := λ o w', match o with
      | Ok (Some ((_, messages) :: _)) => delivery_ok w' ∧ ∀ m, m ∈ messages → m ∈ entries BUILD_STREAM_KEY (bview w'.1) | _ => True end).
    2: { apply safe_redis; [done|]. intros w0 [[[|[k messages] rest]|]|x] w1 Hok1 _ Hr%broker_env; try done. split; [done|]. intros m.
         by eapply read_entries. }
    intros [[[|[k messages] rest]|]|x] w1 H; try done. destruct H as [Hok1 Hin]. by eapply messages_safe; [apply build_message_safe|..].
Qed.

Lemma build_consumer_everywhere name n : everywhere (BuildStreamConsumerService.loop name n).
Proof.
  induction n as [|n IH]; [done|]. cbn [BuildStreamConsumerService.loop].
  apply everywhere_bind; [apply everywhere_quiet; only_calls|]. intros [|]; [|apply everywhere_quiet; only_calls].
  apply everywhere_bind; [apply build_iteration_everywhere|]. intros _. apply IH.
Qed.
End build_consumer.

(** *** The worker *)

Lemma count_quiet n : only quiet_call (WorkerService.count_inFlight n).
Proof. unfold WorkerService.count_inFlight. only_calls. Qed.

Lemma job_message_safe wid m w : in_hand INVOCATION_STREAM_KEY m w →
  safe_here (WorkerService.handleMessage wid m.1 m.2) w (λ _ _, True).
Proof.
  intros Hm. unfold WorkerService.handleMessage.
  apply (in_hand_then _ _ INVOCATION_STREAM_KEY m); [unfold logger_log; only_calls|done|]. intros _ w1 H1.
  apply (in_hand_then _ _ INVOCATION_STREAM_KEY m); [apply count_quiet|done|]. intros _ w2 H2.
  apply (in_hand_then _ _ INVOCATION_STREAM_KEY m); [|done|].
  { apply only_finally; [apply only_try; [apply outside_quiet, invocation_calls|done]|apply count_quiet]. }
  intros outcome w3 H3.
  apply (in_hand_then _ _ INVOCATION_STREAM_KEY m); [only_calls|done|]. intros _ w4 H4.
  apply (in_hand_then _ _ INVOCATION_STREAM_KEY m); [only_calls|done|]. intros _ w5 H5.
  apply (in_hand_then _ _ INVOCATION_STREAM_KEY m); [unfold logger_log; only_calls|done|]. intros _ w6 H6.
  apply safe_bind. eapply safe_mono; [|apply (safe_reach _ _ _ _ _ (λ o w', match o with Ok _ => job_done m.2 w' | Err _ => True end))].
  2: { apply safe_redis; [done|]. intros w0 [r|x] w7 _ _ Hr%broker_env; [|done]. exists outcome. by eapply publish_published. }
  intros [r|x] w7 [Hd Hj]; [|done]. apply ack_safe; [|done]. destruct (in_hand_later _ _ _ _ Hd H6) as [Hok Hin].
  split; [done|]. split; [done|]. intros _. by exists m.2.
Qed.

Lemma worker_iteration_everywhere wid : everywhere (WorkerService.iteration wid).
Proof.
  unfold WorkerService.iteration. apply everywhere_try; [|intros x; apply everywhere_quiet; unfold logger_error; only_calls].
  apply everywhere_bind.
  - unfold WorkerService.reclaimFromDeadWorkers, env_number, WorkerRegistryService.listWorkers.
    apply everywhere_bind; [apply everywhere_quiet; only_calls|]. intros idle.
    apply everywhere_bind; [apply everywhere_quiet; only_calls|]. intros [|e entries]; [done|].
    apply everywhere_bind; [apply everywhere_quiet; only_calls|]. intros workers.
    apply everywhere_for_each. intros [[[id owner] x] y]. unfold WorkerService.reclaim_entry.
    case_bool_decide; [done|]. case_bool_decide; [done|]. apply everywhere_bind; [apply everywhere_quiet; unfold logger_warn; only_calls|].
    intros _ w. apply safe_bind.
    eapply safe_mono with (Q := λ o w', match o with
      | Ok r => delivery_ok w' ∧ ∀ m, m ∈ r → m ∈ Broker.entries INVOCATION_STREAM_KEY (bview w'.1) | Err _ => True end).
    2: { apply safe_redis; [done|]. intros w0 [r|z] w1 Hok1 _ Hr%broker_env; [|done]. split; [done|]. intros m. by eapply claim_entries. }
    intros [r|z] w1 Hres; [|done]. destruct Hres as [Hok1 Hin]. by eapply messages_safe; [apply job_message_safe|..].
  - intros _ w. unfold WorkerService.readAndProcessOnce. apply safe_bind.
    eapply safe_mono with (Q := λ o w', match o with
      | Ok (Some ((_, messages) :: _)) => delivery_ok w' ∧ ∀ m, m ∈ messages → m ∈ entries INVOCATION_STREAM_KEY (bview w'.1) | _ => True end).
    2: { apply safe_redis; [done|]. intros w0 [[[|[k messages] rest]|]|x] w1 Hok1 _ Hr%broker_env; try done. split; [done|]. intros m.
         by eapply read_entries. }
    intros [[[|[k messages] rest]|]|x] w1 H; try done. destruct H as [Hok1 Hin]. by eapply messages_safe; [apply job_message_safe|..].
Qed.

Lemma worker_everywhere wid n : everywhere (WorkerService.loop wid n).
Proof.
  induction n as [|n IH]; [done|]. cbn [WorkerService.loop].
  apply everywhere_bind; [apply everywhere_quiet; only_calls|]. intros [|]; [|apply everywhere_quiet; only_calls].
  apply everywhere_bind; [apply worker_iteration_everywhere|]. intros _. apply IH.
Qed.

(** ** The platform *)

(** Requests, relays, build consumers and worker loops, the hooks of their
    processes, and workers whose beats come after their start. *)
Inductive delivery_task {EX : BuildExecutor consumer} : task ev → Prop :=
| delivers_core t : core_task storage t → delivery_task t
| runs_process s wid n : delivery_task (Task s (worker_process wid n)).

Lemma delivery_task_safe {EX : BuildExecutor consumer} t w : delivery_task t → task_safe (remembering env view) delivery_ok delivers t w.
Proof.
  intros [t' [s rq|s name n|s|s wid n|t'' Hk]|s wid n].
  - apply request_everywhere.
  - apply build_consumer_everywhere.
  - apply quiet_safe, tick_quiet.
  - apply worker_everywhere.
  - apply hook_calls in Hk. destruct t'' as [S A s p]. by apply quiet_safe, hook_quiet.
  - apply worker_process_everywhere.
Qed.

(** Every reachable world is well-formed, accounts for every job, and goes on so. *)
Lemma platform_delivers {EX : BuildExecutor consumer} ts w ts' w' :
  delivery_ok w → Forall (λ t, task_safe (remembering env view) delivery_ok delivers t w) ts →
  rtc (istep (task_step (remembering env view)) delivery_task) (ts, w) (ts', w') →
  delivers w w' ∧ delivery_ok w' ∧ Forall (λ t, task_safe (remembering env view) delivery_ok delivers t w') ts'.
Proof.
  intros Hok Hts Hsteps. apply (interleaved_tasks_all _ delivery_ok delivers) in Hsteps; [done|exact delivers_ok| |done..].
  intros t w0 Htask _ _. by apply delivery_task_safe.
Qed.

(** A message whose build is done: its build ended, or was deleted with its function. *)
Lemma build_done_rows fields w :
  build_done fields w → ∃ id, field_get fields "buildId" = Some id ∧ id ∈ w.2 ∧
    ((∃ b, b ∈ t_builds (view w.1) ∧ build_id b = id ∧ terminal b) ∨ id ∉ map build_id (t_builds (view w.1))).
Proof.
  intros (id & Hid & Hin & Hf). exists id. split_and!; [done..|].
  destruct (decide (id ∈ map build_id (t_builds (view w.1)))) as [(b & -> & Hb)%list_elem_of_fmap|]; [left|by right].
  exists b. split_and!; [done..|]. specialize (Hf b Hb eq_refl). unfold terminal. destruct (build_status b); [done|auto..].
Qed.

(** Nothing has happened yet: no message, no worker in the registry. *)
Lemma delivery_ok_fresh w :
  schema_ok (view w.1) → (∀ id, id ∈ ids_of (view w.1) → id ∈ w.2) → bview w.1 = no_broker → hash w.1 = ∅ → delivery_ok w.
Proof.
  intros Hok Hids Hb Hh. split_and!; [done..|rewrite Hb; apply no_broker_ok|]. split.
  - intros m fields Hm. unfold in_stream in Hm. rewrite Hb in Hm. by apply not_elem_of_nil in Hm.
  - intros (id & text & Hid). by rewrite Hh, lookup_empty in Hid.
Qed.
End delivery.

(** ** Properties *)

Section properties.
Context `{JC : JsonCodec} `{SHA : Sha256} `{EV : EmailValidator} {TMP : OsTmpdir} {EX : BuildExecutor consumer} (storage : ObjectStorage).
Context {W : Type} (env : Env ev W) (view : W → tables) (bview : W → broker) (hash : W → gmap (string * string) string).
Context `{DBE : !DbEnv env view} `{BRK : !BrokerEnv env bview} `{REG : !RegistryEnv env hash}.

(** C6: no build is lost once the group of the consumers exists: requests, relays,
    build consumers, workers and the hooks of their processes are interleaved at
    each of their calls in any number of processes, consumers die between any two
    calls, Redis hands a message to whom it likes and may lose the reply of any
    command.  The platform runs from a well-formed state (a fresh deployment, for
    one) to [w1], where the group exists, and on to [w2].  Then each message of the
    build stream is still to be read by the group, or pending, or the build it names
    is over: it ended as SUCCESS or FAILED, or its row is gone (deleted with its
    function); except the messages that were in the stream at [w1] already and
    that the group had nothing to do with there: those added before it was
    created, which it never reads, and those it had acknowledged. *)
Theorem no_published_build_lost w0 w1 w2 tasks1 tasks2 :
  delivery_ok view bview hash w0 →
  rtc (istep (task_step (remembering env view)) (delivery_task storage)) ([], w0) (tasks1, w1) →
  is_Some (group_of BUILD_STREAM_KEY BUILD_CONSUMER_GROUP (bview w1.1)) →
  rtc (istep (task_step (remembering env view)) (delivery_task storage)) (tasks1, w1) (tasks2, w2) →
  ∀ m fields, (m, fields) ∈ entries BUILD_STREAM_KEY (bview w2.1) →
    outstanding BUILD_STREAM_KEY BUILD_CONSUMER_GROUP m (bview w2.1) ∨
    (∃ id, field_get fields "buildId" = Some id ∧ id ∈ w2.2 ∧
      ((∃ b, b ∈ t_builds (view w2.1) ∧ build_id b = id ∧ terminal b) ∨ id ∉ map build_id (t_builds (view w2.1)))) ∨
    ((m, fields) ∈ entries BUILD_STREAM_KEY (bview w1.1) ∧ ¬ outstanding BUILD_STREAM_KEY BUILD_CONSUMER_GROUP m (bview w1.1)).
Proof.
  intros Hok Hs1 Hg Hs2 m fields Hm.
  destruct (platform_delivers storage env view bview hash [] w0 tasks1 w1 Hok (Forall_nil_2 _) Hs1) as (_ & Hok1 & Hts1).
  destruct (platform_delivers storage env view bview hash tasks1 w1 tasks2 w2 Hok1 Hts1 Hs2) as (Hd & _ & _).
  destruct (Hd Hok1) as (_ & _ & _ & Hcov). destruct (Hcov Hg) as [_ Hall].
  destruct (Hall m fields Hm) as [?|[?|?]]; [by left|right; left|by right; right]. by apply build_done_rows.
Qed.

(** C7: no job is lost: from a fresh deployment on (or any state in which every job
    is accounted for and no worker registered before the group existed), under the
    same interleavings, each message ever added to the invocation stream is still to
    be read by the group, or pending (where the reclaiming of another worker finds
    it), or an outcome was published on the channel of its correlation id.  The
    group is created at [$], yet no job comes before it: a worker makes it before
    its first heartbeat, and a request adds a job only after it read a worker. *)
Theorem no_job_lost w w' tasks :
  delivery_ok view bview hash w →
  rtc (istep (task_step (remembering env view)) (delivery_task storage)) ([], w) (tasks, w') →
  ∀ m fields, (m, fields) ∈ entries INVOCATION_STREAM_KEY (bview w'.1) →
    outstanding INVOCATION_STREAM_KEY INVOCATION_CONSUMER_GROUP m (bview w'.1) ∨
    ∃ outcome, (invocationResultChannel (default "undefined" (field_get fields "correlationId")), JSON_stringify outcome) ∈ b_published (bview w'.1).
Proof.
  intros Hok Hsteps m fields Hm.
  destruct (platform_delivers storage env view bview hash [] w tasks w' Hok (Forall_nil_2 _) Hsteps) as (_ & (_ & _ & _ & Hjobs & _) & _).
  by apply Hjobs.
Qed.
End properties.

(** ** A concrete run *)

#[local] Existing Instance json_codec.
#[local] Existing Instance ApiDemo.demo_email.
#[local] Existing Instance AuthDemo.demo_sha.
#[local] Existing Instance BuildDemo.tmp.

Module DeliveryDemo.
Definition executor : BuildExecutor consumer := local_docker_executor BuildDemo.storage.
(** A fresh Redis: no stream, no group, no worker. *)
Definition world : mem * broker := (mem_of ApiDemo.tables2, no_broker).
Definition h : handler ev (mem * broker) :=
  queue_env (λ X e w, match e in ev X return X with
                      | Redis e' => match e' in redis_eff X return outcome X with Subscribe _ | Unsubscribe _ => Ok tt | _ => down end
                      | e => BuildDemo.script _ e
                      end).
Definition tables_view (w : mem * broker) : tables := mem_tables w.1.
Definition start : (mem * broker) * list string := (world, ids_of (tables_view world)).
Definition bob (r : route) (file : option string) : task ev :=
  Task dstate0 (serve BuildDemo.storage {| req_route := r; req_authorization := Some "Bearer mc_2"; req_body := None; req_file := file |}).
Definition relay_state : relay := {| relay_timer := true; relay_started := 1; relay_currentTick := Some 1%nat; relay_settled := [] |}.
Definition relay_task : task ev := Task relay_state BuildOutboxRelayService.tick.
Definition consumer_task : task ev := Task {| running := true; loop_ended := false |} (BuildStreamConsumerService.loop (EX := executor) "c1" 1).
Definition worker_state : worker := {| w_running := true; w_inFlight := 0; w_heartbeatTimer := true; w_loop_ended := false |}.
Definition consumer_start : task ev := Task {| running := false; loop_ended := false |} BuildStreamConsumerService.onModuleInit.
Definition worker_start : task ev :=
  Task {| w_running := false; w_inFlight := 0; w_heartbeatTimer := false; w_loop_ended := false |} (worker_process "w1" 1).
Definition worker_task : task ev := Task worker_state (WorkerService.loop "w1" 1).
(** The build consumer's process starts.  Then an upload is accepted while a worker
    starts, and published; the consumer builds it, the new version is invoked, and
    the worker runs the job. *)
Definition start_up : list (move (task ev)) := Arrives consumer_start :: repeat (Moves 0) 2.
Definition schedule : list (move (task ev)) :=
  [Arrives (bob (POST_versions "hello") (Some "code")); Arrives worker_start] ++ concat (repeat [Moves 1; Moves 2] 7) ++
  repeat (Moves 2) 4 ++ Arrives relay_task :: repeat (Moves 3) 6 ++ Arrives consumer_task :: repeat (Moves 4) 17 ++
  Arrives (bob (POST_invoke "hello") None) :: repeat (Moves 5) 13 ++ Arrives worker_task :: repeat (Moves 6) 27.
Definition runs (moves : list (move (task ev))) := run_tasks (remember tables_view h) (no_reuse tables_view) moves.
Definition up := runs start_up ([], start).
Definition final := match up with Some st => runs schedule st | None => None end.
Notation reaches := (rtc (istep (task_step (remembering (env_of h) tables_view)) (delivery_task (EX := executor) BuildDemo.storage))).
End DeliveryDemo.

Lemma delivery_tasks t : Arrives t ∈ DeliveryDemo.start_up ++ DeliveryDemo.schedule → delivery_task (EX := DeliveryDemo.executor) BuildDemo.storage t.
Proof.
  intros Ht. unfold DeliveryDemo.start_up, DeliveryDemo.schedule in Ht. simpl in Ht.
  repeat (apply elem_of_cons in Ht as [Ht|Ht]; [first [discriminate Ht
    | injection Ht as ->; first [apply runs_process|apply delivers_core; first [apply runs_request|apply runs_consumer|apply runs_relay|apply runs_worker|
        apply runs_hook, starts_consumer]]]|]).
  by apply not_elem_of_nil in Ht.
Qed.

Lemma delivery_run moves st st' :
  moves ⊆ DeliveryDemo.start_up ++ DeliveryDemo.schedule → DeliveryDemo.runs moves st = Some st' → DeliveryDemo.reaches st st'.
Proof. intros Hm. apply run_tasks_steps; [|intros t Ht; by apply delivery_tasks, Hm]. intros X e w1. apply remember_remembering. Qed.

(** Builds, the messages of both queues and those still outstanding, replies. *)
Definition summary (w : mem * broker) :=
  (map build_status (t_builds (mem_tables w.1)), map fst (entries BUILD_STREAM_KEY w.2), map fst (entries INVOCATION_STREAM_KEY w.2),
   map g_pending (option_list (group_of BUILD_STREAM_KEY BUILD_CONSUMER_GROUP w.2)), map fst (b_published w.2)).

Lemma delivery_up : option_map (λ st, summary st.2.1) DeliveryDemo.up = Some ([], [], [], [[]], []).
Proof. vm_compute. reflexivity. Qed.
Lemma delivery_result : option_map (λ st, summary st.2.1) DeliveryDemo.final =
  Some ([SUCCESS], ["*"], ["**"], [[]], [invocationResultChannel "uuid-7"]).
Proof. vm_compute. reflexivity. Qed.

Lemma delivery_start : delivery_ok DeliveryDemo.tables_view snd (λ w, mem_hash w.1) DeliveryDemo.start.
Proof. apply delivery_ok_fresh; [apply schema_okb_ok; vm_compute; reflexivity|intros id Hid; exact Hid|done|done]. Qed.

(** The two stretches of the run. *)
Lemma delivery_stretches :
  ∃ tasks1 w1 tasks w', DeliveryDemo.reaches ([], DeliveryDemo.start) (tasks1, w1) ∧ summary w1.1 = ([], [], [], [[]], []) ∧
    DeliveryDemo.reaches (tasks1, w1) (tasks, w') ∧
    summary w'.1 = ([SUCCESS], ["*"], ["**"], [[]], [invocationResultChannel "uuid-7"]).
Proof.
  pose proof delivery_up as H1. pose proof delivery_result as H2. unfold DeliveryDemo.final in H2.
  destruct DeliveryDemo.up as [[tasks1 w1]|] eqn:E1; [|discriminate H1].
  destruct (DeliveryDemo.runs DeliveryDemo.schedule (tasks1, w1)) as [[tasks w']|] eqn:E2; [|discriminate H2].
  exists tasks1, w1, tasks, w'. split_and!.
  - eapply delivery_run; [|exact E1]. intros x Hx. apply elem_of_app. by left.
  - exact (Some_inj _ _ H1).
  - eapply delivery_run; [|exact E2]. intros x Hx. apply elem_of_app. by right.
  - exact (Some_inj _ _ H2).
Qed.

Lemma no_published_build_lost_witness :
  ∃ tasks1 w1 tasks w', DeliveryDemo.reaches ([], DeliveryDemo.start) (tasks1, w1) ∧ entries BUILD_STREAM_KEY w1.1.2 = [] ∧
    DeliveryDemo.reaches (tasks1, w1) (tasks, w') ∧
    summary w'.1 = ([SUCCESS], ["*"], ["**"], [[]], [invocationResultChannel "uuid-7"]) ∧
    ∀ m fields, (m, fields) ∈ entries BUILD_STREAM_KEY w'.1.2 →
      outstanding BUILD_STREAM_KEY BUILD_CONSUMER_GROUP m w'.1.2 ∨
      ∃ id, field_get fields "buildId" = Some id ∧ id ∈ w'.2 ∧
        ((∃ b, b ∈ t_builds (DeliveryDemo.tables_view w'.1) ∧ build_id b = id ∧ terminal b) ∨
         id ∉ map build_id (t_builds (DeliveryDemo.tables_view w'.1))).
Proof.
  destruct delivery_stretches as (tasks1 & w1 & tasks & w' & Hs1 & H1 & Hs2 & H2). exists tasks1, w1, tasks, w'.
  assert (entries BUILD_STREAM_KEY w1.1.2 = []) as He by (apply (f_equal (λ x, x.1.1.1.2)) in H1; exact (map_eq_nil _ _ H1)).
  assert (is_Some (group_of BUILD_STREAM_KEY BUILD_CONSUMER_GROUP w1.1.2)) as Hg.
  { apply (f_equal (λ x, x.1.2)) in H1. simpl in H1. by destruct (group_of BUILD_STREAM_KEY BUILD_CONSUMER_GROUP w1.1.2); [eexists|]. }
  split; [exact Hs1|]. split; [exact He|]. split; [exact Hs2|]. split; [exact H2|]. intros m fields Hm.
  destruct (no_published_build_lost (EX := DeliveryDemo.executor) BuildDemo.storage (env_of DeliveryDemo.h) DeliveryDemo.tables_view snd
    (λ w, mem_hash w.1) DeliveryDemo.start w1 w' tasks1 tasks delivery_start Hs1 Hg Hs2 m fields Hm) as [Ho|[Hd|[Hin _]]].
  - by left.
  - by right.
  - exfalso. change (snd w1.1) with w1.1.2 in Hin. rewrite He in Hin. by apply not_elem_of_nil in Hin.
Defined.

Lemma no_job_lost_witness :
  ∃ tasks w', DeliveryDemo.reaches ([], DeliveryDemo.start) (tasks, w') ∧
    summary w'.1 = ([SUCCESS], ["*"], ["**"], [[]], [invocationResultChannel "uuid-7"]) ∧
    ∀ m fields, (m, fields) ∈ entries INVOCATION_STREAM_KEY w'.1.2 →
      outstanding INVOCATION_STREAM_KEY INVOCATION_CONSUMER_GROUP m w'.1.2 ∨
      ∃ outcome, (invocationResultChannel (default "undefined" (field_get fields "correlationId")), JSON_stringify outcome) ∈ b_published w'.1.2.
Proof.
  destruct delivery_stretches as (tasks1 & w1 & tasks & w' & Hs1 & _ & Hs2 & H2). exists tasks, w'.
  assert (DeliveryDemo.reaches ([], DeliveryDemo.start) (tasks, w')) as Hsteps by (etransitivity; [exact Hs1|exact Hs2]).
  split; [exact Hsteps|]. split; [exact H2|].
  exact (no_job_lost (EX := DeliveryDemo.executor) BuildDemo.storage (env_of DeliveryDemo.h) DeliveryDemo.tables_view snd
    (λ w, mem_hash w.1) DeliveryDemo.start w' tasks delivery_start Hsteps).
Defined.

(** A build that is published before the first consumer starts: the group begins
    after its message, so nobody ever reads it, and it stays PENDING. *)
Definition early : list (move (task ev)) :=
  Arrives (DeliveryDemo.bob (POST_versions "hello") (Some "code")) :: repeat (Moves 0) 7 ++
  Arrives DeliveryDemo.relay_task :: repeat (Moves 1) 6 ++ Arrives DeliveryDemo.consumer_start :: repeat (Moves 2) 2 ++
  Arrives DeliveryDemo.consumer_task :: repeat (Moves 3) 4.

Example published_before_group_lost :
  option_map (λ st, (summary st.2.1, g_delivered <$> group_of BUILD_STREAM_KEY BUILD_CONSUMER_GROUP st.2.1.2))
    (DeliveryDemo.runs early ([], DeliveryDemo.start)) = Some ([PENDING], ["*"], [], [[]], [], Some 1%nat).
Proof. vm_compute. reflexivity. Qed.
