(* ===== verification/Recovery.v ===== *)
(** * Progress of the job queue

    Delivery shows that no job is lost; this file shows that jobs get done.  While
    the services answer, a worker that runs answers the backlog one job per
    iteration, and its first pass takes over what dead workers left behind.  The
    last example shows the limit of the second: reclaiming looks at the ten oldest
    idle messages only, and messages whose acknowledgement failed stay among them. *)

From S2P Require Import Prelude Json JsonText Prog Services Percentile Database Schema Broker Registry Dispatch Storage Build BuildConsumer.
From S2P Require Import Container Worker Interleave Delivery.
#[local] Open Scope Z_scope.

Notation job_group b := (group_of INVOCATION_STREAM_KEY INVOCATION_CONSUMER_GROUP b).
Notation jobs b := (entries INVOCATION_STREAM_KEY b).
Notation open_job m b := (outstanding INVOCATION_STREAM_KEY INVOCATION_CONSUMER_GROUP m b).

(** ** The queue while a worker works on it *)

Definition live (b : broker) : Prop := broker_ok b ∧ is_Some (job_group b).

Section queue.
Context `{JC : JsonCodec}.

(** What the rest of the platform may do to the queue meanwhile: the API adds jobs
    and anybody publishes, but nobody else reads, claims or acknowledges in the
    group. *)
Definition undisturbed (b b' : broker) : Prop :=
  (live b → live b') ∧ jobs b `prefix_of` jobs b' ∧ job_group b' = job_group b ∧ b_published b `prefix_of` b_published b'.
#[export] Instance undisturbed_preorder : PreOrder undisturbed.
Proof.
  split; [by intros b|]. intros a b c (Hl & Hj & Hg & Hp) (Hl' & Hj' & Hg' & Hp').
  split_and!; [auto|by etransitivity|congruence|by etransitivity].
Qed.

(** Jobs are only added, and closed only with a reply. *)
Definition forward (b b' : broker) : Prop :=
  live b → live b' ∧ jobs b `prefix_of` jobs b' ∧ b_published b `prefix_of` b_published b' ∧
    (∀ m, m ∈ map fst (jobs b) → open_job m b' → open_job m b) ∧
    (∀ m fields, (m, fields) ∈ jobs b → open_job m b → open_job m b' ∨ replied fields b').

Lemma replied_later fields b b' : b_published b `prefix_of` b_published b' → replied fields b → replied fields b'.
Proof. intros [l Hl] [out Ho]. exists out. rewrite Hl. apply elem_of_app. by left. Qed.

Lemma job_later m fields b b' : jobs b `prefix_of` jobs b' → (m, fields) ∈ jobs b → (m, fields) ∈ jobs b'.
Proof. intros [l ->] Hm. apply elem_of_app. by left. Qed.
Lemma job_id_later m b b' : jobs b `prefix_of` jobs b' → m ∈ map fst (jobs b) → m ∈ map fst (jobs b').
Proof. intros [l ->] Hm. rewrite map_app. apply elem_of_app. by left. Qed.

#[export] Instance forward_preorder : PreOrder forward.
Proof.
  split.
  - intros b Hb. split_and!; auto.
  - intros a b c Hab Hbc Ha. destruct (Hab Ha) as (Hb & He1 & Hp1 & Ho1 & Hr1). destruct (Hbc Hb) as (Hc & He2 & Hp2 & Ho2 & Hr2).
    split_and!; [done|by etransitivity|by etransitivity| |].
    + intros m Hm Ho. apply Ho1; [done|]. apply Ho2; [by eapply job_id_later|done].
    + intros m fields Hm Ho. destruct (Hr1 m fields Hm Ho) as [Ho'|Hr'].
      * apply Hr2; [by eapply job_later|done].
      * right. by eapply replied_later.
Qed.

(** A job that was closed and answered. *)
Definition answered (m : string) (fields : list string) (b : broker) : Prop :=
  (m, fields) ∈ jobs b ∧ ¬ open_job m b ∧ replied fields b.

Lemma answered_later m fields b b' : live b → forward b b' → answered m fields b → answered m fields b'.
Proof.
  intros Hb Hf (Hm & Ho & Hr). destruct (Hf Hb) as (_ & Hj & Hp & Hback & _).
  split_and!; [by eapply job_later| |by eapply replied_later]. intros H. apply Ho, Hback; [|done]. by apply (list_elem_of_fmap_2 fst _ (m, fields)).
Qed.

Lemma closed_answered m fields b b' :
  live b → forward b b' → (m, fields) ∈ jobs b → open_job m b → ¬ open_job m b' → answered m fields b'.
Proof.
  intros Hb Hf Hm Ho Hc. destruct (Hf Hb) as (_ & Hj & _ & _ & Hr).
  split_and!; [by eapply job_later|done|]. by destruct (Hr m fields Hm Ho).
Qed.

Lemma undisturbed_forward b b' : undisturbed b b' → forward b b'.
Proof.
  intros (Hl & Hj & Hg & Hp) Hb. specialize (Hl Hb). split_and!; [done..| |].
  - intros m Hm (g & Hgo & Hw). rewrite Hg in Hgo. exists g. split; [done|]. destruct Hw as [Hw|?]; [left|by right].
    destruct Hl as [Hok _]. destruct (Hok INVOCATION_STREAM_KEY) as [Hnd _]. destruct Hb as [Hb _].
    destruct (Hb INVOCATION_STREAM_KEY) as [_ Hgr]. destruct (Hgr _ _ Hgo) as [Hd _]. destruct Hj as [l Hj]. rewrite Hj in Hw, Hnd.
    rewrite drop_app_le, map_app in Hw by done. apply elem_of_app in Hw as [?|Hw]; [done|].
    rewrite map_app in Hnd. apply NoDup_app in Hnd as (_ & Hdis & _). by destruct (Hdis m Hm).
  - intros m fields _ (g & Hgo & Hw). left. exists g. split; [by rewrite Hg|]. destruct Hw as [Hw|?]; [left|by right].
    destruct Hj as [l ->]. destruct Hb as [Hb _]. destruct (Hb INVOCATION_STREAM_KEY) as [_ Hgr]. destruct (Hgr _ _ Hgo) as [Hd _].
    rewrite drop_app_le, map_app by done. apply elem_of_app. by left.
Qed.

(** ** What the worker's commands do to it *)

(** The group has read the message. *)
Definition read_by (m : string) (b : broker) : Prop := ∃ g, job_group b = Some g ∧ m ∈ map fst (take (g_delivered g) (jobs b)).

Lemma pending_read m g b : live b → job_group b = Some g → m ∈ map fst (g_pending g) → read_by m b.
Proof. intros [Hb _] Hg Hm. exists g. split; [done|]. destruct (Hb INVOCATION_STREAM_KEY) as [_ Hgr]. destruct (Hgr _ _ Hg) as [_ Hp]. by apply Hp. Qed.

(** A read message is open only while it is pending. *)
Lemma read_open m g b : live b → job_group b = Some g → m ∈ map fst (take (g_delivered g) (jobs b)) → open_job m b → m ∈ map fst (g_pending g).
Proof.
  intros [Hb _] Hg Hm (g' & Hg' & [Hw|Hw]); rewrite Hg in Hg'; injection Hg' as <-; [|done].
  destruct (Hb INVOCATION_STREAM_KEY) as [Hnd _]. rewrite <- (take_drop (g_delivered g) (jobs b)), map_app in Hnd.
  apply NoDup_app in Hnd as (_ & Hdisj & _). by destruct (Hdisj m Hm).
Qed.

(** The worker read nothing in between. *)
Definition same_read (b b' : broker) : Prop :=
  ∀ g, job_group b = Some g → ∃ g', job_group b' = Some g' ∧ g_delivered g' = g_delivered g.
Lemma undisturbed_read b b' : undisturbed b b' → same_read b b'.
Proof. intros (_ & _ & Hg & _) g Hgo. exists g. by rewrite Hg. Qed.
#[export] Instance same_read_preorder : PreOrder same_read.
Proof.
  split; [intros b g Hg; eauto|]. intros a b c Hab Hbc g Hg. destruct (Hab g Hg) as (g1 & Hg1 & H1).
  destruct (Hbc g1 Hg1) as (g2 & Hg2 & H2). exists g2. split; [done|congruence].
Qed.
Lemma same_read_set g g' b :
  job_group b = Some g → g_delivered g' = g_delivered g → same_read b (set_group INVOCATION_STREAM_KEY INVOCATION_CONSUMER_GROUP g' b).
Proof. intros Hg Hd x Hx. rewrite Hg in Hx. injection Hx as <-. exists g'. by rewrite group_of_set_group, decide_True. Qed.

Definition publish (channel text : string) (b : broker) : broker :=
  {| b_streams := b_streams b; b_published := b_published b ++ [(channel, text)] |}.
Definition acknowledge (m : string) (g : group) (b : broker) : broker :=
  set_group INVOCATION_STREAM_KEY INVOCATION_CONSUMER_GROUP
    {| g_delivered := g_delivered g; g_pending := List.filter (λ p, negb (bool_decide (p.1 = m))) (g_pending g) |} b.

(** Publishing only adds a message to a channel. *)
Lemma publish_undisturbed channel text b : undisturbed b (publish channel text b).
Proof. split_and!; [done|done|done|by eexists]. Qed.

(** Acknowledging an answered job closes it, and it alone. *)
Lemma ack_forward m fields g b :
  live b → job_group b = Some g → (m, fields) ∈ jobs b → m ∈ map fst (take (g_delivered g) (jobs b)) → replied fields b →
  forward b (acknowledge m g b) ∧ answered m fields (acknowledge m g b) ∧ same_read b (acknowledge m g b).
Proof.
  intros Hb Hg Hm Hread Hr. set (b' := acknowledge m g b).
  assert (jobs b' = jobs b) as Hj by exact (entries_set_group _ _ _ b _).
  assert (job_group b' = Some {| g_delivered := g_delivered g; g_pending := List.filter (λ p, negb (bool_decide (p.1 = m))) (g_pending g) |}) as Hg'.
  { unfold b', acknowledge. by rewrite group_of_set_group, decide_True. }
  assert (∀ x, open_job x b' → open_job x b ∧ x ≠ m) as Hback.
  { intros x (g' & Hg1 & Hw). rewrite Hg' in Hg1. injection Hg1 as <-. unfold waits in Hw. rewrite Hj in Hw. simpl in Hw. split.
    - exists g. split; [done|]. destruct Hw as [?|Hw]; [by left|right]. apply list_elem_of_fmap in Hw as (p & -> & [Hp _]%elem_of_filterb).
      by apply list_elem_of_fmap_2.
    - intros ->. destruct Hw as [Hw|Hw].
      + destruct Hb as [Hb _]. destruct (Hb INVOCATION_STREAM_KEY) as [Hnd _]. rewrite <- (take_drop (g_delivered g) (jobs b)), map_app in Hnd.
        apply NoDup_app in Hnd as (_ & Hdisj & _). by destruct (Hdisj m Hread).
      + apply list_elem_of_fmap in Hw as (p & Hpm & [_ Hp]%elem_of_filterb). rewrite bool_decide_eq_true_2 in Hp; done. }
  split; [|split].
  3: { intros x Hx. rewrite Hg in Hx. injection Hx as <-. eexists. by split. }
  2: { split_and!; [by rewrite Hj| |done]. intros Ho. by apply Hback in Ho as [_ ?]. }
  intros [Hok Hsome]. split_and!.
  - split; [|by rewrite Hg']. apply set_group_ok; [exact Hok|]. destruct (Hok INVOCATION_STREAM_KEY) as [_ Hgr].
    destruct (Hgr _ _ Hg) as [Hd Hp]. split; [exact Hd|]. intros x Hx. apply Hp.
    apply list_elem_of_fmap in Hx as (p & -> & [Hx _]%elem_of_filterb). by apply list_elem_of_fmap_2.
  - by rewrite Hj.
  - done.
  - intros x _ Hx. by apply Hback.
  - intros x f Hx (g0 & Hg0 & Hw). rewrite Hg in Hg0. injection Hg0 as <-. destruct (decide (x = m)) as [->|Hne].
    + right. assert ((m, f) = (m, fields)) as [= ->]; [|done]. destruct (Hok INVOCATION_STREAM_KEY) as [Hnd _].
      by eapply (NoDup_map_inj fst).
    + left. eexists. split; [exact Hg'|]. unfold waits. rewrite Hj. simpl. destruct Hw as [?|Hw]; [by left|right].
      apply list_elem_of_fmap in Hw as (p & -> & Hp). apply list_elem_of_fmap_2, elem_of_filterb. split; [done|]. by rewrite bool_decide_eq_false_2.
Qed.

(** Commands that acknowledge nothing close nothing. *)
Lemma keeps_forward {X} (e : redis_eff X) b b' :
  keeps e b b' → (∀ m, ¬ acks INVOCATION_STREAM_KEY INVOCATION_CONSUMER_GROUP m e) → jobs b' = jobs b →
  (live b → ∀ m, open_job m b' → open_job m b) → forward b b'.
Proof.
  intros Hk Hn Hj Hback Hb. specialize (Hback Hb). destruct Hb as [Hb Hg]. destruct (Hk Hb) as (Hb' & _ & Hp & Hgr). destruct (Hgr _ _ Hg) as [Hg' Hids].
  split_and!; [by split|by rewrite Hj|done|auto|]. intros m fields Hm Ho. left. destruct (Hids m) as [?|[_ [Ha|Hno]]]; [|done|by destruct (Hn m)|done].
  rewrite Hj. apply list_elem_of_fmap. by exists (m, fields).
Qed.

Lemma open_set_group m g g' b :
  job_group b = Some g → (waits (jobs b) g' m → waits (jobs b) g m) →
  open_job m (set_group INVOCATION_STREAM_KEY INVOCATION_CONSUMER_GROUP g' b) → open_job m b.
Proof.
  intros Hg Hw (x & Hx & Hm). rewrite group_of_set_group, decide_True in Hx by done. injection Hx as <-.
  rewrite entries_set_group in Hm. exists g. auto.
Qed.

Lemma claim_forward d consumer ms id b r b' :
  fresh_draw d b → broker_ref d (Xclaim INVOCATION_STREAM_KEY INVOCATION_CONSUMER_GROUP consumer ms id) b = Some (r, b') → forward b b'.
Proof.
  intros Hf Hr. eapply keeps_forward; [by eapply broker_ref_keeps|by intros m []| |]; simpl in Hr;
    (destruct (job_group b) as [g|] eqn:Hg; [destruct ms|]; injection Hr as _ <-; [|done..]); [apply entries_set_group|].
  intros _ m. apply (open_set_group m g); [done|]. unfold waits. simpl. by rewrite map_fst_give.
Qed.

Lemma read_forward d consumer n ms b r b' :
  fresh_draw d b → broker_ref d (Xreadgroup INVOCATION_CONSUMER_GROUP consumer n ms INVOCATION_STREAM_KEY) b = Some (r, b') → forward b b'.
Proof.
  intros Hf Hr. eapply keeps_forward; [by eapply broker_ref_keeps|by intros m []| |]; simpl in Hr;
    (destruct (job_group b) as [g|] eqn:Hg; [destruct (take n _) as [|e es] eqn:Ht|]; injection Hr as _ <-; [done| |done]);
    [apply entries_set_group|].
  intros _ m. apply (open_set_group m g); [done|]. unfold waits. simpl. intros [Hm|Hm].
  - left. rewrite <- drop_drop in Hm. apply list_elem_of_fmap in Hm as (x & -> & Hx). apply list_elem_of_fmap_2.
    eapply elem_of_submseteq; [exact Hx|apply submseteq_drop].
  - rewrite map_app in Hm. apply elem_of_app in Hm as [Hm|Hm]; [by right|left].
    change (m ∈ map fst (map (λ x : string * list string, (x.1, consumer)) (e :: es))) in Hm. rewrite map_map in Hm.
    apply list_elem_of_fmap in Hm as (x & -> & Hx). apply (list_elem_of_fmap_2 fst _ x).
    eapply elem_of_submseteq; [exact Hx|]. rewrite <- Ht. apply submseteq_take.
Qed.

(** A claim of a pending idle message hands that message over. *)
Lemma claim_hands d consumer k id b g r b' fields :
  live b → job_group b = Some g → (id, fields) ∈ jobs b → id ∈ idle_ids d g →
  broker_ref d (Xclaim INVOCATION_STREAM_KEY INVOCATION_CONSUMER_GROUP consumer (Some k) id) b = Some (r, b') →
  ∃ l, r = Ok l ∧ (id, fields) ∈ l.
Proof.
  intros Hb Hg Hm Hid Hr. simpl in Hr. rewrite Hg in Hr. injection Hr as <- _. eexists. split; [done|].
  apply elem_of_filterb. split; [done|]. rewrite (bool_decide_eq_true_2 (id ∈ idle_ids d g)) by done.
  apply bool_decide_eq_true_2. by apply list_elem_of_singleton.
Qed.

(** Messages handed over by a claim or a read are the stream's, and read. *)
Definition to_do (m : string * list string) (b : broker) : Prop := (m.1, m.2) ∈ jobs b ∧ read_by m.1 b.

Lemma claim_to_do d consumer ms id b l b' :
  fresh_draw d b → live b → broker_ref d (Xclaim INVOCATION_STREAM_KEY INVOCATION_CONSUMER_GROUP consumer ms id) b = Some (Ok l, b') →
  ∀ m, m ∈ l → to_do m b'.
Proof.
  intros Hf Hb Hr m Hm. simpl in Hr. destruct (job_group b) as [g|] eqn:Hg; [|done]. destruct ms as [k|]; [|done].
  injection Hr as <- <-. apply elem_of_filterb in Hm as [Hm Hin]. split; [rewrite entries_set_group; by destruct m|].
  eexists. rewrite group_of_set_group, decide_True, entries_set_group by done. split; [done|]. simpl.
  apply bool_decide_eq_true in Hin. case_bool_decide as Hid; [|by apply not_elem_of_nil in Hin].
  apply list_elem_of_singleton in Hin as ->. apply elem_of_filterb in Hid as [Hid _].
  destruct Hb as [Hb _]. destruct (Hb INVOCATION_STREAM_KEY) as [_ Hgr]. destruct (Hgr _ _ Hg) as [_ Hp]. by apply Hp.
Qed.

Lemma read_to_do d consumer n ms b k l rest b' :
  broker_ref d (Xreadgroup INVOCATION_CONSUMER_GROUP consumer n ms INVOCATION_STREAM_KEY) b = Some (Ok (Some ((k, l) :: rest)), b') →
  ∀ m, m ∈ l → to_do m b'.
Proof.
  intros Hr m Hm. simpl in Hr. destruct (job_group b) as [g|] eqn:Hg; [|done].
  destruct (take n (drop (g_delivered g) (jobs b))) as [|e es] eqn:Ht; [done|]. injection Hr as <- <- <- <-.
  assert (take (length (e :: es)) (drop (g_delivered g) (jobs b)) = e :: es) as Hlen.
  { rewrite <- Ht at 2. apply (f_equal length) in Ht as Hl. rewrite length_take in Hl. rewrite <- Hl.
    destruct (Nat.min_spec n (length (drop (g_delivered g) (jobs b)))) as [[_ ->]|[Hle ->]]; [done|]. by rewrite !take_ge. }
  assert (m ∈ take (g_delivered g + length (e :: es)) (jobs b)) as Hin.
  { rewrite <- take_take_drop. apply elem_of_app. right. by rewrite Hlen. }
  split; [rewrite entries_set_group|].
  - destruct m. eapply elem_of_submseteq; [exact Hin|apply submseteq_take].
  - eexists. rewrite group_of_set_group, decide_True, entries_set_group by done. split; [done|]. simpl. by apply list_elem_of_fmap_2.
Qed.
End queue.

(** ** Services that answer *)

(** [idle]: the messages pending for longer than the minimum idle time; [dead]: the
    consumers without a healthy entry in the registry.  Containers end and what they
    report is JSON ([answers]); between two calls of the worker the rest of the
    platform leaves its group undisturbed. *)
Record working `{JC : JsonCodec} {W} (h : handler ev W) (bview : W → broker) (idle : string → bool) (dead : string → Prop) : Prop := {
  work_containers : ∀ X (e : ev X) w, answers e (h X e w).1;
  work_queues : ∀ X (e : redis_eff X) w, on_broker e = true → ∃ d b, undisturbed (bview w) b ∧ fresh_draw d b ∧ d_idle d = idle ∧
    broker_ref d e b = Some ((h _ (Redis e) w).1, bview (h _ (Redis e) w).2);
  work_alone : ∀ X (e : ev X) w, match e with Redis e' => on_broker e' = false | _ => True end → undisturbed (bview w) (bview (h X e w).2);
  work_registry : ∀ w, let read := h _ (Redis (Hgetall REGISTRY_KEY)) w in ∃ raw workers, read.1 = Ok raw ∧
    WorkerRegistryService.parse_workers (h _ (Sys DateNow) read.2).1 raw = Ok workers ∧
    ∀ c, dead c → c ∉ WorkerService.healthyWorkerIds workers;
  work_idle_time : ∀ w, match (h _ (Sys (ProcessEnv "INVOCATION_CLAIM_IDLE_MS")) w).1 with Some t => Number t ≠ None | None => True end }.

Section recovery.
Context `{JC : JsonCodec} {TMP : OsTmpdir} {W : Type} (h : handler ev W) (bview : W → broker) (idle : string → bool) (dead : string → Prop).
Context (Hwork : working h bview idle dead) (wid : string).

(** A program that makes no call on the queues leaves them to the others. *)
Definition off_queue X (e : ev X) : Prop := match e with Redis e' => on_broker e' = false | _ => True end.

Lemma off_queue_returns {S A} (p : prog ev S A) s w Q :
  only off_queue p → returns h p s w (λ o s' w', undisturbed (bview w) (bview w') → Q o s' w') → returns h p s w Q.
Proof.
  intros Hp (o & s' & w' & Hrun & HQ)%returns_run. apply returns_run. exists o, s', w'. split; [done|]. apply HQ.
  apply (run_exec h (λ _ _, True)) in Hrun; [|done].
  apply (only_preserves off_queue (env_of h) (λ _ _, True) (λ v, undisturbed (bview w) (bview v)) p s w o s' w') in Hrun; [done| |done|done].
  intros X e v r v' He Hv Hb. unfold env_of in Hv. pose proof (work_alone _ _ _ _ Hwork X e v He) as Ha. rewrite Hv in Ha. simpl in Ha.
  by etransitivity.
Qed.

(** A call that cannot fail and is not on the queues. *)
Lemma returns_sys {S X A} (e : sys_eff X) (k : X → prog ev S A) s w Q :
  (∀ x w', undisturbed (bview w) (bview w') → returns h (k x) s w' Q) → returns h (bind k (sys e)) s w Q.
Proof. intros Hk. apply returns_do, Hk. by apply (work_alone _ _ _ _ Hwork). Qed.

(** A command on the queues. *)
Lemma returns_queue {S X A} (e : redis_eff X) (k : X → prog ev S A) s w Q :
  on_broker e = true →
  (∀ d b r w', undisturbed (bview w) b → fresh_draw d b → d_idle d = idle → broker_ref d e b = Some (r, bview w') →
     ∃ a, r = Ok a ∧ returns h (k a) s w' Q) →
  returns h (bind k (redis e)) s w Q.
Proof.
  intros He Hk. destruct (work_queues _ _ _ _ Hwork X e w He) as (d & b & Hb & Hd & Hi & Hr).
  destruct (Hk d b (h _ (Redis e) w).1 (h _ (Redis e) w).2 Hb Hd Hi Hr) as (a & Ha & Hret).
  apply returns_bind. unfold redis, call. apply returns_do. by rewrite Ha.
Qed.

(** How the queue moves on under a part of the worker's loop that reads nothing. *)
Definition onward (b b' : broker) : Prop := forward b b' ∧ same_read b b'.
#[local] Instance onward_preorder : PreOrder onward.
Proof. split; [by intros b|]. intros a b c [Hf Hs] [Hf' Hs']. split; by etransitivity. Qed.
Lemma undisturbed_onward b b' : undisturbed b b' → onward b b'.
Proof. intros H. split; [by apply undisturbed_forward|by apply undisturbed_read]. Qed.

Lemma onward_live b b' : live b → onward b b' → live b'.
Proof. intros Hb [Hf _]. by destruct (Hf Hb). Qed.
Lemma onward_answered m fields b b' : live b → onward b b' → answered m fields b → answered m fields b'.
Proof. intros Hb [Hf _]. by apply answered_later. Qed.

Lemma read_by_later m b b' : live b → onward b b' → read_by m b → read_by m b'.
Proof.
  intros Hb [Hf Hs] (g & Hg & Hm). destruct (Hf Hb) as (_ & [l Hj] & _). destruct (Hs g Hg) as (g' & Hg' & Hd). exists g'.
  rewrite Hj, Hd, take_app, map_app. split; [done|]. apply elem_of_app. by left.
Qed.

Lemma to_do_later m b b' : live b → onward b b' → to_do m b → to_do m b'.
Proof.
  intros Hb Ho [Hm Hr]. split; [|by eapply read_by_later]. destruct Ho as [Hf _]. destruct (Hf Hb) as (_ & Hj & _). by eapply job_later.
Qed.

(** *** A job *)

Lemma count_returns n s w :
  returns h (WorkerService.count_inFlight n) s w (λ o s' w', o = Ok tt ∧ w_running s' = w_running s ∧ undisturbed (bview w) (bview w')).
Proof.
  unfold returns. simpl. match goal with |- context [h _ (Sys ?e) w] => pose proof (work_alone _ _ _ _ Hwork _ (Sys e) w I) as Hw;
    destruct (h _ (Sys e) w) as [[] w'] end. by simpl in *.
Qed.

Lemma invocation_returns fields s w :
  returns h (WorkerService.invocation fields) s w (λ _ s' w', s' = s ∧ undisturbed (bview w) (bview w')).
Proof.
  apply off_queue_returns; [eapply only_mono; [|apply invocation_calls]; by intros X []|].
  unfold WorkerService.invocation, JSON_parse_of. destruct (field_get fields "event") as [text|]; [|done].
  destruct (JSON_parse text) as [event|]; [|done]. simpl. unfold executeVersionedFunction.
  match goal with |- returns h (runIsolatedContainer ?i ?m ?e ?o) _ _ _ =>
    destruct (run_container_total h (work_containers _ _ _ _ Hwork) i m e o s w) as (out & w' & Hrun) end.
  unfold returns. by rewrite Hrun.
Qed.

(** Publishing the outcome of a job that is being worked on, then acknowledging it. *)
Lemma finish_returns m out (s : worker) w :
  live (bview w) → to_do m (bview w) →
  returns h (_ ← redis (Publish (invocationResultChannel (default "undefined" (field_get m.2 "correlationId"))) (JSON_stringify out));
             _ ← redis (Xack INVOCATION_STREAM_KEY INVOCATION_CONSUMER_GROUP m.1);
             Ret tt) s w (λ o s' w',
    o = Ok tt ∧ s' = s ∧ onward (bview w) (bview w') ∧ answered m.1 m.2 (bview w')).
Proof.
  intros Hb Hm. apply returns_queue; [done|]. intros d b1 r w1 Hu1 _ _ H1. injection H1 as <- H1. eexists. split; [done|].
  apply returns_queue; [done|]. intros d' b2 r w2 Hu2 _ _ H2.
  set (channel := invocationResultChannel _) in *.
  assert (undisturbed (bview w) (bview w1)) as Huw.
  { transitivity b1; [exact Hu1|]. rewrite <- H1. apply publish_undisturbed. }
  assert (undisturbed (bview w) b2) as Hub by (by etransitivity).
  assert (replied m.2 b2) as Hr.
  { eapply (replied_later _ (bview w1)); [by destruct Hu2 as (_ & _ & _ & ?)|]. exists out. rewrite <- H1. apply elem_of_app. right.
    by apply list_elem_of_singleton. }
  pose proof (undisturbed_onward _ _ Hub) as Hon. destruct (to_do_later _ _ _ Hb Hon Hm) as [Hj (g & Hg & Hread)].
  pose proof (onward_live _ _ Hb Hon) as Hb2. simpl in H2.
  change (group_of INVOCATION_STREAM_KEY INVOCATION_CONSUMER_GROUP b2) with (job_group b2) in H2. rewrite Hg in H2.
  injection H2 as <- H2. eexists. split; [done|].
  destruct (ack_forward m.1 m.2 g b2 Hb2 Hg Hj Hread Hr) as (Hf & Ha & Hs).
  change (_ = bview w2) with (acknowledge m.1 g b2 = bview w2) in H2. rewrite H2 in Hf, Ha, Hs.
  apply returns_ret. split_and!; [done|done| |done]. transitivity b2; [exact Hon|by split].
Qed.

Lemma job_returns m s w :
  live (bview w) → to_do m (bview w) →
  returns h (WorkerService.handleMessage wid m.1 m.2) s w (λ o s' w',
    o = Ok tt ∧ w_running s' = w_running s ∧ onward (bview w) (bview w') ∧ answered m.1 m.2 (bview w')).
Proof.
  intros Hb Hm. unfold WorkerService.handleMessage, logger_log.
  apply returns_sys. intros _ w1 H1. apply returns_bind.
  eapply returns_mono; [apply count_returns|]. intros o2 s2 w2 (-> & Hs2 & H2).
  apply returns_bind, returns_finally, returns_try.
  eapply returns_mono; [apply invocation_returns|]. intros o3 s3 w3 [-> H3].
  assert (∀ out : json, returns h (WorkerService.count_inFlight (-1)) s2 w3 (λ o' s4 w4, match o' with
    | Ok _ => returns h (_ ← sys (CounterInc "mini_cloud_invocations_total" (json_get "status" out));
        _ ← sys (HistogramObserve "mini_cloud_invocation_duration_ms" (json_get "durationMs" out));
        _ ← sys (Log "log" (WorkerService.ended_log wid m.2 out));
        _ ← redis (Publish (invocationResultChannel (default "undefined" (field_get m.2 "correlationId"))) (JSON_stringify out));
        _ ← redis (Xack INVOCATION_STREAM_KEY INVOCATION_CONSUMER_GROUP m.1);
        Ret tt) s4 w4 (λ o s' w',
      o = Ok tt ∧ w_running s' = w_running s ∧ onward (bview w) (bview w') ∧ answered m.1 m.2 (bview w'))
    | Err _ => False end)) as Hrest.
  { intros out. eapply returns_mono; [apply count_returns|]. intros o4 s4 w4 (-> & Hs4 & H4).
    apply returns_sys. intros _ w5 H5. apply returns_sys. intros _ w6 H6. apply returns_sys. intros _ w7 H7.
    assert (onward (bview w) (bview w7)) as Hon.
    { apply undisturbed_onward. do 6 (etransitivity; [eassumption|]). done. }
    eapply returns_mono; [apply finish_returns; [by eapply onward_live|by eapply to_do_later]|].
    intros o s' w' (-> & -> & Ho & Ha). split_and!; [done|congruence|by etransitivity|done]. }
  destruct o3 as [out|x]; [|apply returns_ret]; (eapply returns_mono; [apply Hrest|]); intros [] s4 w4 H4; [exact H4|done|exact H4|done].
Qed.

(** *** Several jobs *)

(** How a part of the worker's loop leaves the process and the queue. *)
Definition passes (s : worker) (w : W) (o : outcome unit) (s' : worker) (w' : W) : Prop :=
  o = Ok tt ∧ w_running s' = w_running s ∧ onward (bview w) (bview w').

Lemma passes_after s w b o s' w' : onward (bview w) b → (o = Ok tt ∧ w_running s' = w_running s ∧ onward b (bview w')) → passes s w o s' w'.
Proof. intros H (-> & Hs & Ho). split_and!; [done|done|by etransitivity]. Qed.

Lemma jobs_return l s w :
  live (bview w) → (∀ m, m ∈ l → to_do m (bview w)) →
  returns h (for_each l (λ m, WorkerService.handleMessage wid m.1 m.2)) s w (λ o s' w',
    passes s w o s' w' ∧ ∀ m, m ∈ l → answered m.1 m.2 (bview w')).
Proof.
  intros Hb Hl.
  eapply returns_mono; [apply (returns_for_each h (λ l' s' w', passes s w (Ok tt) s' w' ∧ (∀ m, m ∈ l' → m ∈ l) ∧
    ∀ m, m ∈ l → m ∈ l' ∨ answered m.1 m.2 (bview w')))|].
  - split; [|split; [done|by left]]. by split_and!.
  - intros m l' s1 w1 ((_ & Hs1 & Ho1) & Hsub & Hall).
    assert (live (bview w1)) as Hb1 by (by eapply onward_live).
    assert (to_do m (bview w1)) as Hm1 by (by eapply to_do_later, Hl, Hsub, list_elem_of_here).
    eapply returns_mono; [by apply job_returns|]. intros o s2 w2 (-> & Hs2 & Ho2 & Ha2). split; [done|]. split; [|split].
    + split_and!; [done|congruence|by etransitivity].
    + intros x Hx. by apply Hsub, list_elem_of_further.
    + intros x Hx. destruct (Hall x Hx) as [[->|?]%elem_of_cons|Ha]; [by right|by left|right].
      by eapply onward_answered; [exact Hb1| |].
  - intros o s' w' (-> & Hp & _ & Hall). split; [done|]. intros m Hm. destruct (Hall m Hm) as [?%elem_of_nil|?]; done.
Qed.

(** *** Reclaiming *)

(** An entry of the pending list is worked on when its owner is dead. *)
Lemma claim_returns k id s w :
  live (bview w) → read_by id (bview w) → idle id = true →
  returns h (claimed ← redis (Xclaim INVOCATION_STREAM_KEY INVOCATION_CONSUMER_GROUP wid (Some k) id);
             for_each claimed (λ m, WorkerService.handleMessage wid m.1 m.2)) s w (λ o s' w',
    passes s w o s' w' ∧ ¬ open_job id (bview w')).
Proof.
  intros Hb0 Hread Hidle. apply returns_queue; [done|]. intros d b r w1 Hu Hd Hi Hr.
  pose proof (undisturbed_onward _ _ Hu) as Hon. pose proof (onward_live _ _ Hb0 Hon) as Hlive.
  destruct (read_by_later _ _ _ Hb0 Hon Hread) as (g & Hg & Hin).
  pose proof (claim_forward _ _ _ _ _ _ _ Hd Hr) as Hf1.
  assert (onward b (bview w1)) as Ho1.
  { split; [done|]. simpl in Hr. rewrite Hg in Hr. injection Hr as _ <-. by eapply same_read_set. }
  pose proof (onward_live _ _ Hlive Ho1) as Hb1.
  assert (∃ l, r = Ok l) as [l ->] by (simpl in Hr; rewrite Hg in Hr; injection Hr as <- _; eauto).
  exists l. split; [done|].
  eapply returns_mono; [apply jobs_return; [done|by eapply claim_to_do]|].
  intros o s2 w2 [(-> & Hs2 & Ho2) Hall]. split; [split_and!; [done|done|by do 2 (etransitivity; [eassumption|])]|].
  intros Ho. apply list_elem_of_fmap in Hin as Hin'. destruct Hin' as ([i fields] & -> & Hm).
  eapply elem_of_submseteq in Hm; [|apply submseteq_take].
  assert (open_job i b) as Ho0.
  { assert (i ∈ map fst (jobs b)) as Hib by (by apply (list_elem_of_fmap_2 fst _ (i, fields))).
    destruct (proj1 Ho1 Hlive) as (_ & Hj1 & _ & Hback1 & _). destruct (proj1 Ho2 Hb1) as (_ & _ & _ & Hback2 & _).
    apply Hback1; [done|]. apply Hback2; [by eapply job_id_later|done]. }
  assert (i ∈ idle_ids d g) as Hid.
  { cbn [fst] in Hin, Hidle. apply elem_of_filterb. split; [exact (read_open _ _ _ Hlive Hg Hin Ho0)|by rewrite Hi]. }
  destruct (claim_hands d wid k i b g (Ok l) (bview w1) fields) as (l' & [= <-] & Hml); [done..|].
  destruct (Hall _ Hml) as (_ & Hc & _). by apply Hc.
Qed.

(** The pending messages a pass looks at: the ten oldest idle ones. *)
Definition looked_at (b : broker) : list (string * string) :=
  match job_group b with Some g => take 10 (List.filter (λ p, idle p.1) (g_pending g)) | None => [] end.

(** Left behind by a dead worker. *)
Definition left_behind (m : string) (b : broker) : Prop := ∃ owner, (m, owner) ∈ looked_at b ∧ owner ≠ wid ∧ dead owner.

Lemma looked_at_pending m owner b : (m, owner) ∈ looked_at b → ∃ g, job_group b = Some g ∧ m ∈ map fst (g_pending g) ∧ idle m = true.
Proof.
  unfold looked_at. destruct (job_group b) as [g|]; [|by intros ?%elem_of_nil]. intros Hm.
  eapply elem_of_submseteq in Hm; [|apply submseteq_take]. apply elem_of_filterb in Hm as [Hm Hi].
  exists g. split_and!; [done| |done]. by apply (list_elem_of_fmap_2 fst) in Hm.
Qed.

Lemma entry_returns k workers (x : string * string * Z * Z) s w :
  live (bview w) → read_by x.1.1.1 (bview w) → idle x.1.1.1 = true →
  returns h (WorkerService.reclaim_entry wid (Some k) workers x) s w (λ o s' w',
    passes s w o s' w' ∧ (x.1.1.2 ≠ wid → x.1.1.2 ∉ workers → ¬ open_job x.1.1.1 (bview w'))).
Proof.
  destruct x as [[[id owner] ms] n]. simpl. intros Hb Hr Hi.
  assert (passes s w (Ok tt) s w) as Hstay by (by split_and!).
  case_bool_decide as Ho; [by split|]. case_bool_decide as Hh; [by split|].
  unfold logger_warn. apply returns_sys. intros _ w1 H1%undisturbed_onward.
  eapply returns_mono; [apply claim_returns; [by eapply onward_live|by eapply read_by_later|done]|].
  intros o s' w' [Hp Hc]. split; [by eapply passes_after|auto].
Qed.

Lemma entries_return k workers xs s w :
  live (bview w) → (∀ x, x ∈ xs → read_by x.1.1.1 (bview w) ∧ idle x.1.1.1 = true) →
  returns h (for_each xs (WorkerService.reclaim_entry wid (Some k) workers)) s w (λ o s' w',
    passes s w o s' w' ∧ ∀ x : string * string * Z * Z, x ∈ xs → x.1.1.2 ≠ wid → x.1.1.2 ∉ workers → ¬ open_job x.1.1.1 (bview w')).
Proof.
  intros Hb Hxs.
  eapply returns_mono; [apply (returns_for_each h (λ l' s' w', passes s w (Ok tt) s' w' ∧ (∀ x, x ∈ l' → x ∈ xs) ∧
    ∀ x : string * string * Z * Z, x ∈ xs → x ∈ l' ∨ (x.1.1.2 ≠ wid → x.1.1.2 ∉ workers → ¬ open_job x.1.1.1 (bview w'))))|].
  - split; [|split; [done|by left]]. by split_and!.
  - intros x l' s1 w1 ((_ & Hs1 & Ho1) & Hsub & Hall). assert (live (bview w1)) as Hb1 by (by eapply onward_live).
    destruct (Hxs x) as [Hrx Hix]; [apply Hsub, list_elem_of_here|].
    eapply returns_mono; [apply entry_returns; [done|exact (read_by_later _ _ _ Hb Ho1 Hrx)|done]|].
    intros o s2 w2 [(-> & Hs2 & Ho2) Hc]. split; [done|]. split; [|split].
    + split_and!; [done|congruence|by etransitivity].
    + intros y Hy. by apply Hsub, list_elem_of_further.
    + intros y Hy. destruct (Hall y Hy) as [[->|?]%elem_of_cons|Ha]; [by right|by left|right].
      intros Hno Hw Hop. apply (Ha Hno Hw). destruct (proj1 Ho2 Hb1) as (_ & _ & _ & Hback & _). apply Hback; [|done].
      destruct (Hxs y Hy) as [(g & Hg & Hin)%(read_by_later _ _ _ Hb Ho1) _].
      apply list_elem_of_fmap in Hin as (z & Hz & Hin). rewrite Hz. apply list_elem_of_fmap_2.
      eapply elem_of_submseteq; [exact Hin|apply submseteq_take].
  - intros o s' w' (-> & Hp & _ & Hall). split; [done|]. intros x Hx. destruct (Hall x Hx) as [?%elem_of_nil|?]; done.
Qed.

Lemma listWorkers_returns s w :
  returns h (WorkerRegistryService.listWorkers (S := worker)) s w (λ o s' w',
    s' = s ∧ undisturbed (bview w) (bview w') ∧ ∃ workers, o = Ok workers ∧ ∀ c, dead c → c ∉ WorkerService.healthyWorkerIds workers).
Proof.
  apply off_queue_returns; [unfold WorkerRegistryService.listWorkers; only_calls|].
  destruct (work_registry _ _ _ _ Hwork w) as (raw & workers & Hraw & Hp & Hdead).
  unfold returns. simpl. rewrite Hraw. simpl. rewrite Hp. simpl. intros Hb. split_and!; eauto.
Qed.

Lemma reclaim_returns s w :
  live (bview w) →
  returns h (WorkerService.reclaimFromDeadWorkers wid) s w (λ o s' w',
    passes s w o s' w' ∧ ∀ m, left_behind m (bview w) → ¬ open_job m (bview w')).
Proof.
  intros Hb. unfold WorkerService.reclaimFromDeadWorkers, env_number.
  pose proof (work_idle_time _ _ _ _ Hwork w) as Hk. pose proof (work_alone _ _ _ _ Hwork _ (Sys (ProcessEnv "INVOCATION_CLAIM_IDLE_MS")) w I) as H1.
  apply returns_bind, returns_do. destruct (h _ (Sys (ProcessEnv "INVOCATION_CLAIM_IDLE_MS")) w) as [v w1]. simpl in Hk, H1.
  assert (∃ k, match v with Some t => Number t | None => Some WORKER_CLAIM_IDLE_MS end = Some k) as [k Hv].
  { destruct v as [t|]; [|by eexists]. by destruct (Number t); [eexists|]. }
  apply returns_ret. cbn [fst snd]. rewrite Hv. apply returns_queue; [done|]. intros d b r w2 Hu Hd Hi Hr. cbn [snd] in Hu.
  assert (undisturbed (bview w) b) as Hub by (by etransitivity). pose proof (undisturbed_onward _ _ Hub) as Hon.
  pose proof (onward_live _ _ Hb Hon) as Hlive. destruct (proj2 Hlive) as [g Hg].
  simpl in Hr. rewrite Hg in Hr. injection Hr as <- H2. eexists. split; [done|].
  assert (looked_at (bview w) = take 10 (List.filter (λ p, d_idle d p.1) (g_pending g))) as Hseen.
  { unfold looked_at. destruct Hub as (_ & _ & <- & _). by rewrite Hg, Hi. }
  rewrite <- Hseen. set (xs := map _ (looked_at (bview w))).
  assert (∀ x, x ∈ xs → read_by x.1.1.1 (bview w2) ∧ idle x.1.1.1 = true) as Hxs.
  { intros x ([m owner] & -> & Hp)%list_elem_of_fmap. apply looked_at_pending in Hp as (g' & Hg' & Hin & Hidle). split; [|done].
    rewrite <- H2. eapply read_by_later; [exact Hb|exact Hon|]. by eapply pending_read. }
  assert (∀ m, left_behind m (bview w) → ∃ x : string * string * Z * Z, x ∈ xs ∧ x.1.1.1 = m ∧ x.1.1.2 ≠ wid ∧ dead x.1.1.2) as Hleft.
  { intros m (owner & Hm & Ho). exists (m, owner, (d_times d m).1, (d_times d m).2). split; [|done].
    apply list_elem_of_fmap. by exists (m, owner). }
  clearbody xs. rewrite H2 in Hlive, Hon. destruct xs as [|x xs].
  { split; [by split_and!|]. intros m (x & Hx & _)%Hleft. by apply not_elem_of_nil in Hx. }
  apply returns_bind. eapply returns_mono; [apply listWorkers_returns|]. intros o s3 w3 (-> & H3 & workers & -> & Hdead).
  apply undisturbed_onward in H3. eapply returns_mono; [apply entries_return|].
  - by eapply onward_live.
  - intros y Hy. destruct (Hxs y Hy) as [Hry ?]. split; [by eapply read_by_later|done].
  - intros o s' w' [Hp Hc]. split.
    + destruct Hp as (-> & Hs & Ho). split_and!; [done|done|]. by do 2 (etransitivity; [eassumption|]).
    + intros m (x' & Hx & <- & Ho & Hd')%Hleft. apply Hc; [done|done|]. by apply Hdead.
Qed.

(** *** The loop *)

(** The backlog: what the group has not read. *)
Definition unread (b : broker) : list (string * list string) :=
  match job_group b with Some g => drop (g_delivered g) (jobs b) | None => [] end.

Lemma unread_later b b' : live b → onward b b' → ∃ added, jobs b' = jobs b ++ added ∧ unread b' = unread b ++ added.
Proof.
  intros Hb [Hf Hs]. destruct (Hf Hb) as (_ & [added Hj] & _). exists added. split; [done|]. destruct Hb as [Hok [g Hg]].
  destruct (Hs g Hg) as (g' & Hg' & Hd). destruct (Hok INVOCATION_STREAM_KEY) as [_ Hgr]. destruct (Hgr _ _ Hg) as [Hle _].
  unfold unread. by rewrite Hg, Hg', Hj, Hd, drop_app_le.
Qed.

(** The [k] oldest unread jobs were read, those added meanwhile included, and answered. *)
Definition advances (k : nat) (b b' : broker) : Prop :=
  ∃ added, jobs b' = jobs b ++ added ∧ (k <= length (unread b ++ added))%nat ∧ unread b' = drop k (unread b ++ added) ∧
    ∀ m fields, (m, fields) ∈ take k (unread b ++ added) → answered m fields b'.

Lemma onward_advances b b' : live b → onward b b' → advances 0 b b'.
Proof.
  intros Hb Ho. destruct (unread_later b b' Hb Ho) as (added & Hj & Hu). exists added. split_and!; [done|lia|done|].
  intros m fields Hm. by apply not_elem_of_nil in Hm.
Qed.

Lemma advances_trans j k a b c : live b → forward b c → advances j a b → advances k b c → advances (j + k) a c.
Proof.
  intros Hb Hf (l & Hjb & Hlen & Hub & Hab) (l' & Hjc & Hlen' & Huc & Hac). exists (l ++ l'). split_and!.
  - by rewrite Hjc, Hjb, app_assoc.
  - rewrite Hub in Hlen'. rewrite !length_app, length_drop, length_app in *. lia.
  - rewrite Huc, Hub, app_assoc, <- drop_app_le by done. by rewrite drop_drop.
  - intros m fields Hm. rewrite app_assoc, <- take_take_drop in Hm. apply elem_of_app in Hm as [Hm|Hm].
    + rewrite take_app_le in Hm by done. eapply answered_later; [exact Hb|exact Hf|]. by apply Hab.
    + rewrite drop_app_le in Hm by done. apply Hac. by rewrite Hub.
Qed.

Lemma read_returns s w :
  live (bview w) →
  returns h (WorkerService.readAndProcessOnce wid) s w (λ o s' w',
    o = Ok tt ∧ w_running s' = w_running s ∧ forward (bview w) (bview w') ∧
    ∃ k, (k <= 1)%nat ∧ (unread (bview w) ≠ [] → k = 1%nat) ∧ advances k (bview w) (bview w')).
Proof.
  intros Hb. apply returns_queue; [done|]. intros d b r w1 Hu Hd _ Hr. pose proof (undisturbed_onward _ _ Hu) as Hon.
  pose proof (onward_live _ _ Hb Hon) as Hlive. pose proof (read_forward _ _ _ _ _ _ _ Hd Hr) as Hf1.
  destruct (Hf1 Hlive) as (Hb1 & _). destruct (unread_later _ _ Hb Hon) as (l & Hj & Hun).
  pose proof Hr as Hread. destruct (proj2 Hlive) as [g Hg]. simpl in Hr. rewrite Hg in Hr.
  assert (unread b = drop (g_delivered g) (jobs b)) as Hub by (unfold unread; by rewrite Hg).
  destruct (drop (g_delivered g) (jobs b)) as [|m rest] eqn:Hdrop; simpl in Hr; injection Hr as <- H1.
  - eexists. split; [done|]. apply returns_ret. rewrite <- H1. split_and!; [done|done|apply Hon|]. exists 0%nat.
    split_and!; [lia| |by apply onward_advances]. intros Hne. rewrite Hub in Hun. by destruct (unread (bview w)).
  - eexists. split; [done|]. rewrite take_0 in Hread.
    eapply returns_mono; [apply jobs_return; [done|]|].
    + intros x Hx. eapply read_to_do; [exact Hread|by rewrite take_0 in Hx].
    + intros o s2 w2 [(-> & Hs2 & Ho2) Hall]. split_and!; [done|done|transitivity b; [apply Hon|]; etransitivity; [exact Hf1|apply Ho2]|].
      exists 1%nat. split_and!; [lia|done|].
      destruct (unread_later _ _ Hb1 Ho2) as (l2 & Hj2 & Hu2).
      assert (unread (bview w1) = rest) as Hu1.
      { rewrite <- H1. unfold unread. rewrite group_of_set_group, decide_True, entries_set_group by done.
        cbn [g_delivered length]. by rewrite <- drop_drop, Hdrop. }
      assert (jobs (bview w1) = jobs b) as Hj1 by (rewrite <- H1; apply entries_set_group).
      apply (advances_trans 0 1 _ b); [done|by etransitivity; [exact Hf1|apply Ho2]|by apply onward_advances|].
      exists l2. rewrite Hub. split_and!; [congruence|simpl; lia|by rewrite Hu2, Hu1|].
      intros x fields Hx. simpl in Hx. rewrite take_0 in Hx. apply list_elem_of_singleton in Hx as <-. apply (Hall (x, fields)), list_elem_of_here.
Qed.

Lemma left_behind_answered m fields b b' :
  live b → onward b b' → (m, fields) ∈ jobs b → left_behind m b → ¬ open_job m b' → answered m fields b'.
Proof.
  intros Hb [Hf _] Hm (owner & Hin & _) Hc. apply (closed_answered m fields b); [done..| |done].
  apply looked_at_pending in Hin as (g & Hg & Hin & _). exists g. split; [done|by right].
Qed.

Lemma iteration_returns s w :
  live (bview w) →
  returns h (WorkerService.iteration wid) s w (λ o s' w',
    o = Ok tt ∧ w_running s' = w_running s ∧ forward (bview w) (bview w') ∧
    (∃ k, (k <= 1)%nat ∧ (unread (bview w) ≠ [] → k = 1%nat) ∧ advances k (bview w) (bview w')) ∧
    ∀ m fields, (m, fields) ∈ jobs (bview w) → left_behind m (bview w) → answered m fields (bview w')).
Proof.
  intros Hb. unfold WorkerService.iteration. apply returns_try, returns_bind.
  eapply returns_mono; [by apply reclaim_returns|]. intros o s1 w1 [(-> & Hs1 & Ho1) Hleft].
  pose proof (onward_live _ _ Hb Ho1) as Hb1. destruct (unread_later _ _ Hb Ho1) as (l & _ & Hu1).
  eapply returns_mono; [by apply read_returns|]. intros o s2 w2 (-> & Hs2 & Hf2 & k & Hk & Hk1 & Hadv).
  split_and!; [done|congruence|by etransitivity; [apply Ho1|]| |].
  - exists k. split_and!; [done| |by apply (advances_trans 0 k _ (bview w1)); [..|apply onward_advances|]].
    intros Hne. apply Hk1. rewrite Hu1. by destruct (unread (bview w)).
  - intros m fields Hm Hl. eapply answered_later; [exact Hb1|done|]. apply (left_behind_answered m fields (bview w)); auto.
Qed.

Lemma loop_returns n s w :
  live (bview w) → w_running s = true →
  returns h (WorkerService.loop wid n) s w (λ o s' w',
    o = Ok tt ∧ forward (bview w) (bview w') ∧
    (∃ k, (Nat.min n (length (unread (bview w))) <= k <= n)%nat ∧ advances k (bview w) (bview w')) ∧
    (n ≠ O → ∀ m fields, (m, fields) ∈ jobs (bview w) → left_behind m (bview w) → answered m fields (bview w'))).
Proof.
  revert s w. induction n as [|n IH]; intros s w Hb Hrun.
  { apply returns_ret. split_and!; [done|reflexivity| |done]. exists 0%nat. split; [lia|]. by apply onward_advances. }
  cbn [WorkerService.loop]. unfold gets, mbind, prog_mbind. unfold returns. cbn [bind run fst snd]. rewrite Hrun.
  match goal with |- match run h ?p s w with _ => _ end =>
    change p with (bind (λ _, WorkerService.loop wid n) (WorkerService.iteration wid)) end.
  apply returns_bind. eapply returns_mono; [by apply iteration_returns|]. intros o s1 w1 (-> & Hs1 & Hf1 & (j & Hj & Hj1 & Hadv1) & Hl1).
  destruct (Hf1 Hb) as (Hb1 & _). eapply returns_mono; [apply IH; [done|congruence]|].
  intros o s2 w2 (-> & Hf2 & (k & Hk & Hadv2) & _). split_and!; [done|by etransitivity| |].
  - exists (j + k)%nat. split; [|by eapply advances_trans]. destruct Hadv1 as (l & _ & Hlen & Hu & _).
    rewrite Hu, length_drop, length_app in Hk. rewrite length_app in Hlen. destruct (unread (bview w)) as [|x u]; simpl in *; [lia|].
    rewrite Hj1 in * by done. lia.
  - intros _ m fields Hm Hl. eapply answered_later; [exact Hb1|done|]. auto.
Qed.
End recovery.

(** ** Properties *)


(** ** Concrete runs *)

#[local] Existing Instance json_codec.
#[local] Existing Instance ContainerDemo.tmp.

Module RecoveryDemo.
(** Redis with no worker in the registry, and containers that run for long. *)
Definition h (publish_ : bool) : handler ev broker :=
  λ X e, match e in ev X return broker → X * broker with
         | Redis e' => λ b,
             match e' in redis_eff X return option (outcome X * broker) → outcome X * broker with
             | Hgetall _ => λ _, (Ok [], b)
             | Publish _ _ => λ r, if publish_ then default (down, b) r else (down, b)
             | _ => λ r, default (down, b) r
             end (broker_ref (drawn b) e' b)
         | e => λ b, (ContainerDemo.script ContainerDemo.slow true ContainerDemo.report _ e, b)
         end.
Definition job (n : string) : string * list string :=
  (n, ["correlationId"; "c" +:+ n; "imageTag"; "mini-cloud-fn-hello:1"; "event"; "{}"; "timeoutMs"; "3000"; "memoryMb"; "128"]).
Definition queue (delivered : nat) (pending : list (string * string)) (names : list string) : broker :=
  {| b_streams := {[ INVOCATION_STREAM_KEY := {| st_entries := map job names;
       st_groups := {[ INVOCATION_CONSUMER_GROUP := {| g_delivered := delivered; g_pending := pending |} ]} |} ]};
     b_published := [] |}.
Definition on : worker := {| w_running := true; w_inFlight := 0; w_heartbeatTimer := true; w_loop_ended := false |}.
Definition pending (b : broker) : list (string * string) := default [] (g_pending <$> job_group b).
(** A job of a dead worker, and two nobody has read. *)
Definition backlog : broker := queue 1 [("1-0", "worker-9")] ["1-0"; "2-0"; "3-0"].
Definition first_n (n : nat) : list string := map string_of_Z (map Z.of_nat (seq 1 n)).
(** The API adds a job whenever the worker counts one. *)
Definition arrives (b : broker) : broker :=
  set_stream INVOCATION_STREAM_KEY
    {| st_entries := jobs b ++ [(d_id (drawn b), (job "late").2)]; st_groups := st_groups (stream_of INVOCATION_STREAM_KEY b) |} b.
Definition busy : handler ev broker :=
  λ X e b, let '(r, b') := h true X e b in (r, match e with Sys (CounterInc _ _) => arrives b' | _ => b' end).
End RecoveryDemo.

Lemma arrives_undisturbed b : undisturbed b (RecoveryDemo.arrives b).
Proof.
  split_and!.
  - intros [Hb Hg]. assert (keeps (Xadd INVOCATION_STREAM_KEY []) b (RecoveryDemo.arrives b)) as Hk by (apply keeps_add; intros k; apply drawn_fresh).
    destruct (Hk Hb) as (Hb' & _ & _ & Hgr). split; [done|]. by apply Hgr.
  - exists [(d_id (drawn b), (RecoveryDemo.job "late").2)]. unfold RecoveryDemo.arrives, entries at 1. by rewrite stream_of_set_stream, decide_True.
  - unfold RecoveryDemo.arrives, group_of at 1. by rewrite stream_of_set_stream, decide_True.
  - done.
Qed.

Lemma demo_working : working RecoveryDemo.busy (λ b, b) (λ _, true) (λ _, True).
Proof.
  split.
  - intros X e w. destruct e as [X e|X e|X e|X e|X e|X e|X e]; try done; destruct e; try done; simpl.
    + eexists. split; [reflexivity|]. exists (Some 137). apply list_elem_of_In. simpl. tauto.
    + eexists _, _. split; [reflexivity|]. vm_compute. reflexivity.
  - intros X e w He. exists (drawn w), w. split; [done|]. split; [apply drawn_fresh|]. split; [done|].
    destruct e; try discriminate He; unfold RecoveryDemo.busy, RecoveryDemo.h;
      destruct (broker_ref _ _ _) as [[r b]|] eqn:Hr; try done; simpl in Hr; repeat case_match; simplify_eq.
  - intros X e w He. destruct e as [X e|X e|X e|X e|X e|X e|X e]; try done; [destruct e; try discriminate He; done|].
    destruct e; try done. apply arrives_undisturbed.
  - intros w. exists [], []. split_and!; [done|done|]. intros c _. apply not_elem_of_nil.
  - done.
Qed.

Lemma demo_live : live RecoveryDemo.backlog.
Proof.
  split; [|by eexists]. intros key. unfold entries, group_of, stream_of, RecoveryDemo.backlog, RecoveryDemo.queue. simpl.
  destruct (decide (INVOCATION_STREAM_KEY = key)) as [<-|Hne].
  - rewrite lookup_singleton_eq. simpl. split; [repeat constructor; set_solver|]. intros name g Hg.
    apply lookup_singleton_Some in Hg as [_ <-]. split; simpl; [lia|]. intros id ->%list_elem_of_singleton. by apply list_elem_of_singleton.
  - rewrite lookup_singleton_ne by done. split; [apply NoDup_nil_2|done].
Qed.


(** A job whose outcome could not be published is left pending under its worker's
    own name; the worker never looks at it again, although Redis is back. *)
Example failed_publish_never_retried :
  ∃ s1 b1, run (RecoveryDemo.h false) (WorkerService.loop "w1" 1) RecoveryDemo.on (RecoveryDemo.queue 0 [] ["1-0"]) = Some (Ok tt, s1, b1) ∧
    RecoveryDemo.pending b1 = [("1-0", "w1")] ∧
  ∃ s2 b2, run (RecoveryDemo.h true) (WorkerService.loop "w1" 5) s1 b1 = Some (Ok tt, s2, b2) ∧
    RecoveryDemo.pending b2 = [("1-0", "w1")] ∧ b_published b2 = [].
Proof.
  eexists _, _. split; [vm_compute; reflexivity|]. split; [reflexivity|].
  eexists _, _. split; [vm_compute; reflexivity|]. split; reflexivity.
Qed.

(** Ten such jobs hide every job a dead worker leaves behind after them. *)
Example stuck_jobs_block_reclaiming :
  let stuck := map (λ m, (m, "w1")) (RecoveryDemo.first_n 10) in
  ∃ s b, run (RecoveryDemo.h true) (WorkerService.loop "w1" 5) RecoveryDemo.on
      (RecoveryDemo.queue 11 (stuck ++ [("11", "worker-9")]) (RecoveryDemo.first_n 11)) = Some (Ok tt, s, b) ∧
    RecoveryDemo.pending b = stuck ++ [("11", "worker-9")].
Proof. eexists _, _. split; vm_compute; reflexivity. Qed.
